(* ===== verification/_CoqProject ===== *)
-Q . S2P
Prelude.v
GoBytes.v
Flag.v
Float64.v
KV.v
Crc32.v
Os.v
Record.v
Wal.v
WalSpec.v
WalAgree.v
MemTable.v
MemTableSpec.v
MemTableScan.v
Lumafly.v
SSTable.v
SSTableSpec.v
Compaction.v
CompactionSpec.v
RaftNode.v
RaftCluster.v
RaftInv.v
RaftSafety.v
RaftLive.v
RaftClaims.v
RaftCommit.v
RaftAgree.v
RaftConsensus.v
Stagway.v
Cli.v
StagwaySpec.v
StagwayClaims.v
StagwayConc.v
Daemon.v
DaemonSpec.v
Lifecycle.v
Utf8.v
Json.v
JsonText.v
Url.v
Page.v
Gateway.v
GatewaySpec.v
Dashboard.v
Replica.v
RaftAvail.v
ApplyChan.v
