(* ===== verification/Prelude.v ===== *)
(** * HallownestKV: a verification library for the key-value store

    HallownestKV is a distributed key-value store: a Go node with a write-ahead
    log, an in-memory skip list, sorted tables on disk, a compactor, a Raft
    implementation, a TCP server, a daemon and a command-line client, and a
    Bloom filter in C++.  This library models these parts as executable
    functions and proves what they guarantee, and where their guarantees end.

    ** The parts and how they interact

    A client ([cmd/hallownest-cli]) sends a request to the server
    ([pkg/network/server.go]).  A write is submitted to the node's Raft instance
    ([pkg/consensus]), appended to the WAL ([pkg/bench/wal.go]) and put in the
    MemTable ([pkg/storage/memtable.go]); a read looks at the MemTable only.  The
    daemon ([cmd/hallownestd/main.go]) boots a node from its data directory by
    replaying the WAL into a new MemTable, applies what Raft commits, and serves
    the same operations over HTTP, with a web console on top.  The storage
    package can flush a MemTable to an SSTable ([sstable.go]), whose Bloom filter
    lives behind a C interface ([cpp/src/lumafly_bloom.cpp]), and merge SSTables
    ([compaction.go]); the daemon does not call these yet.

    ** Files

    Foundations.
    - [Prelude]: outcomes of a Go computation ([Ret], [Panic], and [OutOfFuel] for
      loops bounded by fuel), their monad, tactics and list lemmas.
    - [GoBytes]: bytes, 32- and 64-bit integers with wrap-around, slices with
      their bounds checks, [encoding/binary], [bytes.Compare], [sort.Strings].
    - [Flag]: command lines as packages [flag] and [strconv] read them.
    - [Float64]: the binary64 arithmetic of the filter's sizes, and bounds on it.
    - [KV]: the abstract key-value state and the interfaces [Buffer] (a write
      buffer) and [Bloom] (the filter), against which the clients are proved.
    - [Crc32]: [crc32.ChecksumIEEE] bit by bit, and that it detects every change
      of at most four consecutive bytes.
    - [Os]: files with a synced prefix, handles, system calls that fail as an
      oracle says, directories, and crashes, which leave the synced bytes of a
      file and any bytes after them.
    Storage.
    - [Record]: the record format shared by the WAL and the SSTables.
    - [Wal] and [WalSpec]: [OpenWAL], [EncodeRecord], [Append], [Sync], [Recover],
      [ReplayWAL], [Close], the loop bodies of the two readers translated
      separately; [WalAgree]: the two readers are equivalent.
    - [MemTable] and [MemTableSpec]: the skip list in a heap of nodes, and the
      instance [memtable_buffer] of [Buffer]; [MemTableScan]: iteration
      interleaved with writes.
    - [Lumafly]: MurmurHash3 and the filter, and the instance of [Bloom].
    - [SSTable] and [SSTableSpec]: [BuildSSTable], [OpenSSTable], [Get], [Close].
    - [Compaction] and [CompactionSpec]: [CompactL0ToL1].
    Consensus.
    - [RaftNode]: every handler of a node, timers and reply goroutines included.
    - [RaftCluster]: nodes and RPCs in flight as a step relation.
    - [RaftInv], [RaftSafety], [RaftLive]: the inductive invariant of votes and
      logs, its preservation, and the absence of panics; [RaftClaims]: executable
      runs.
    - [RaftCommit], [RaftAgree]: the second invariant, of what a majority has
      acknowledged, and its preservation; [RaftConsensus]: leader completeness
      and state machine safety.
    Node.
    - [Stagway], [StagwaySpec], [StagwayClaims]: the server, the abstract node it
      refines, and its behaviour on the wire.
    - [StagwayConc]: concurrent writes of several connections.
    - [Cli]: the client's command line, its three commands and what they print.
    - [Daemon], [DaemonSpec]: flags, boot, the apply goroutine, what is printed;
      boot, serve, crash and boot again.
    - [Lifecycle]: the accept loop and [Stop], and the shutdown of the daemon.
    - [Utf8], [Json], [JsonText], [Url]: what the gateway uses of [unicode/utf8],
      [encoding/json] and [net/url], and of a browser's encoders.
    - [Page]: the page of the web console, its text and its markup.
    - [Gateway], [GatewaySpec]: the HTTP routes, from the bytes of a request to
      the bytes of the answer.
    - [Dashboard]: the script of the web console against the HTTP routes and the
      elements of the page.
    - [Replica]: nodes of a cluster with the daemon's apply goroutine: the stores
      of the replicas, and the writes a server makes beside them.
    - [RaftAvail]: runs that any live majority can make: electing, replicating,
      committing and applying a write from every reachable state.
    - [ApplyChan]: the same as [Replica] with the apply channel as it is: bounded,
      with sends that block inside [applyLogs] while the node's lock is held, and
      with the MemTable shared with the server, whose accepted writes reach it
      beside the channel; it refines the cluster whose sends do not block.

    ** How the code is read

    A Go method becomes a function that takes the receiver's record and returns
    the new one; a mutex makes a method atomic, so concurrency is an
    interleaving of such functions.  Where the source holds a lock for less than
    a whole method the sections are separate functions ([submit_op], [log_op] and
    [mem_op] of the server, interleaved by [run_schedule]; the handlers of Raft,
    interleaved by [step]; the turns of [applyLogs], by [bstep]; the accept loop
    and [Stop], by [life_step]).  Errors are values, panics are outcomes.  Machine
    integers are [Z] with the wrap-around written where the source converts or
    adds at 32 or 64 bits; lengths, terms, indices and counters that are Go [int]s
    are [Z], so that runs in which one of them reaches [2^63] are not covered.
    Allocations beyond the address space panic ([make_bytes], [make_nodes]).

    Time, random draws, disk failures, what [net.Listen] answers and the bytes a
    client sends are inputs.  Loops are structural where they can be; the others
    carry fuel computed from their input: the length of the file for recovery
    and scans (every turn consumes a header), the number of nodes for a walk of
    the skip list, the length of the input for a connection, twice the length
    of a JSON text, the number of entries for a binary search.  That the fuel
    suffices is a theorem in each case ([recovery_terminates], [sstable_reads_terminate],
    [connection_terminates], [parse_returns], and for the MemTable part of
    [memtable_refines_map]).

    ** What the theorems show

    - End to end: [acknowledged_writes_survive] and [connection_refines_node] (the
      server, on the wire and across crashes, is the abstract node),
      [cli_server_round_trip], [gateway_refines_node], [gateway_put_get] (over
      HTTP, JSON and query strings included), [connection_terminates],
      [refused_write_changes_nothing], [stop_ends_service], [clean_shutdown],
      [concurrent_writes_serializable] (writes of distinct keys, any schedule).
    - WAL: what was acknowledged is recovered ([wal_durable],
      [append_ack_is_durable]), a cut log recovers to its complete records and no
      crash makes recovery skip a synced one ([wal_crash_prefix]), damage of up to four bytes outside the length fields
      is reported ([wal_detects_corruption]), and its two readers, [Recover] and
      [ReplayWAL], agree on arbitrary files ([recover_replay_agree]).
    - MemTable: refinement of a finite map ([memtable_refines_map]), the skip-list
      invariant, ordered iteration, while the table is written the one of an
      abstract iterator over the changing map ([iteration_under_writes]), exact size
      accounting ([memtable_size_exact]).
    - SSTable, filter, compactor: a flushed table answers as the MemTable did,
      also after a crash; no false negatives, for every filter whose sizes,
      computed in doubles, fit ([filter_fits]); damage is detected; a compaction of
      fully indexed tables is the merge of their contents.
    - Raft, for every reachable state of every cluster: one leader per term, log
      matching, monotone terms and final votes, leader completeness, state
      machine safety across nodes and time, commands delivered in order without
      gaps, no handler panics; and, composed with the MemTable, that replicas
      go through the same states ([replicas_agree]); with their channels part full
      and their servers writing beside them, on the keys that the servers have not
      written ([bounded_replicas_agree]).  A blocked node is always released
      ([apply_channel_drains]).  The argument for committed
      entries keeps, as history variables, how far each node has acknowledged
      the leader of each term and the log each candidate entered an election
      with; an entry is chosen when a majority has acknowledged it and blocked
      when a majority has left its term without doing so.
    - Availability of Raft: from every reachable state any majority whose timers
      run can serve any write, without the other nodes
      ([live_majority_serves_writes]); elections, the repair of lagging logs and
      both rounds of replication are part of the run.
    - Command lines and output: [daemon_command_line], [daemon_announces] and,
      through [main] of the client, [cli_server_round_trip].
    - Limits, each a theorem about the code as it is: compaction keeps only the
      keys of the sparse index; a torn tail is not truncated and swallows later
      appends; damaged lengths truncate silently; wrapped lengths crash the
      server; failed appends are acknowledged; concurrent writes may be logged and
      applied in different orders; a single node never commits; a restart forgets
      the vote; a deposed leader keeps serving a write the cluster discarded; the
      console reports refused writes as stored; the gateway alters values that
      are not UTF-8; stored markup is interpreted by the console; a zero footer or
      an empty filter crashes a reader; a rate that is not a number makes the sizes undefined; a
      full apply channel stops its node.

    ** What is not modelled

    The rendering of the dashboard page, [net/http] below the routes and its
    headers, the texts of operating-system errors (a parameter where they are
    printed), what package [log] writes to the standard error, and the cgo glue.
    Creating, truncating and removing a file is durable at once, although the
    program never syncs a directory.  A node that restarts with its state lost is
    not a step of the cluster; that it may vote twice is [restart_votes_twice].
    [std::log] is a parameter of the filter, constrained by [log_ok].  Data races,
    where the source reads without a lock what another goroutine writes (the
    iterator of the MemTable), have no meaning here.  Timers fire at any time the
    clock allows: the theorems on availability say what runs exist, not
    that randomised timeouts and the real clock bring one about. *)

From Stdlib Require Export ZArith Lia.
From stdpp Require Export base tactics decidable list gmap strings sorting.

#[global] Set Default Proof Using "Type".

(** ** Outcomes of a Go computation

    A Go call either returns ([Ret]), panics ([Panic]: index or slice bounds,
    nil dereference) or, in a model that bounds a loop by fuel, stops without
    an answer ([OutOfFuel]).  Go errors are ordinary values and live in the
    returned type. *)
Inductive go (A : Type) : Type :=
| Ret (a : A)
| Panic
| OutOfFuel.

Arguments Ret {A} a.
Arguments Panic {A}.
Arguments OutOfFuel {A}.

Definition bind_go {A B} (m : go A) (k : A → go B) : go B :=
  match m with
  | Ret a => k a
  | Panic => Panic
  | OutOfFuel => OutOfFuel
  end.

#[global] Instance go_eq_dec {A} `{EqDecision A} : EqDecision (go A).
Proof. solve_decision. Defined.

(** [opt_go o]: a nil dereference or an out-of-range index panics. *)
Definition opt_go {A} (o : option A) : go A :=
  match o with Some a => Ret a | None => Panic end.

(** [guard_go b k]: a bounds check. *)
Definition guard_go {A} (b : bool) (k : go A) : go A :=
  if b then k else Panic.

Declare Scope hk_scope.
Delimit Scope hk_scope with hk.

Notation "'let*' x ':=' m 'in' k" := (bind_go m (λ x, k))
  (at level 10, x pattern, m at level 100, k at level 200,
   format "'[v' 'let*'  x  ':='  m  'in' '//' k ']'") : hk_scope.
Notation "'check' b 'in' k" := (guard_go b k)
  (at level 10, b at level 100, k at level 200) : hk_scope.
#[global] Open Scope hk_scope.

Lemma go_bind_ret {A B} (a : A) (k : A → go B) : bind_go (Ret a) k = k a.
Proof. reflexivity. Qed.

Lemma go_bind_Ret_inv {A B} (m : go A) (k : A → go B) b :
  bind_go m k = Ret b → ∃ a, m = Ret a ∧ k a = Ret b.
Proof. destruct m; simpl; intros H; try discriminate; eauto. Qed.

Lemma guard_go_true {A} b (k : go A) : b = true → guard_go b k = k.
Proof. by intros ->. Qed.

Lemma guard_go_Ret_inv {A} b (k : go A) a :
  guard_go b k = Ret a → b = true ∧ k = Ret a.
Proof. destruct b; simpl; [done|discriminate]. Qed.

(** Invert every monadic bind and check of the hypotheses. *)
Ltac go_inv :=
  repeat match goal with
  | H : bind_go _ _ = Ret _ |- _ =>
      apply go_bind_Ret_inv in H; destruct H as (?&?&H)
  | H : guard_go _ _ = Ret _ |- _ => apply guard_go_Ret_inv in H; destruct H as [? H]
  | H : Ret _ = Ret _ |- _ => injection H; clear H; intros; subst
  | H : Panic = Ret _ |- _ => discriminate H
  | H : OutOfFuel = Ret _ |- _ => discriminate H
  end.

(** ** Computations without fuel never report [OutOfFuel] *)

Create HintDb no_oof.

Lemma go_bind_no_oof {A B} (m : go A) (k : A → go B) :
  m ≠ OutOfFuel → (∀ a, k a ≠ OutOfFuel) → bind_go m k ≠ OutOfFuel.
Proof. destruct m; simpl; auto. Qed.

Lemma guard_go_no_oof {A} b (k : go A) : k ≠ OutOfFuel → guard_go b k ≠ OutOfFuel.
Proof. by destruct b. Qed.

Lemma opt_go_no_oof {A} (o : option A) : opt_go o ≠ OutOfFuel.
Proof. by destruct o. Qed.

Lemma Ret_no_oof {A} (a : A) : Ret a ≠ OutOfFuel.
Proof. done. Qed.

#[export] Hint Resolve go_bind_no_oof guard_go_no_oof opt_go_no_oof Ret_no_oof : no_oof.

(** ** Lists *)

Section filter.
Context {A : Type} (P Q : A → Prop) `{∀ x, Decision (Q x)}.

Lemma Forall_filter_keep l : Forall P l → Forall P (filter Q l).
Proof.
  induction 1 as [|x l Hx Hl IH]; [constructor|]. rewrite filter_cons.
  case_decide; [by constructor|done].
Qed.

Lemma filter_all l : Forall Q l → filter Q l = l.
Proof.
  induction 1 as [|x l Hx Hl IH]; [done|]. rewrite filter_cons.
  rewrite decide_True by done. by rewrite IH.
Qed.

Lemma filter_none l : Forall (λ x, ¬ Q x) l → filter Q l = [].
Proof.
  induction 1 as [|x l Hx Hl IH]; [done|]. rewrite filter_cons.
  by rewrite decide_False.
Qed.
End filter.

Section prefix.
Context {A : Type}.
Implicit Types (l k X : list A).

Lemma prefix_take_le X l n : X `prefix_of` l → (length X ≤ n)%nat → X `prefix_of` take n l.
Proof. intros [k ->] Hn. rewrite take_app_ge by done. by apply prefix_app_r. Qed.

Lemma prefix_take_eq X l : X `prefix_of` l → take (length X) l = X.
Proof. intros [k ->]. apply take_app_length. Qed.

Lemma take_prefix_eq n l k :
  take n l `prefix_of` k → (n ≤ length l)%nat → take n k = take n l.
Proof. intros Hp Hn. rewrite <-(prefix_take_eq _ _ Hp), length_take, Nat.min_l by done. done. Qed.

Lemma take_prefix_mono n m l : (n ≤ m)%nat → take n l `prefix_of` take m l.
Proof. intros Hn. rewrite <-(Nat.min_l n m Hn), <-take_take. apply prefix_take. Qed.

Lemma prefix_drop n X l : X `prefix_of` l → drop n X `prefix_of` drop n l.
Proof. intros [k ->]. rewrite drop_app. by apply prefix_app_r. Qed.

Lemma prefix_map {B} (f : A → B) X l : X `prefix_of` l → f <$> X `prefix_of` (f <$> l).
Proof. intros [k ->]. rewrite fmap_app. by apply prefix_app_r. Qed.

Lemma prefix_comparable X Y l :
  X `prefix_of` l → Y `prefix_of` l → X `prefix_of` Y ∨ Y `prefix_of` X.
Proof.
  intros HX HY. destruct (Nat.le_ge_cases (length X) (length Y)) as [Hl|Hl]; [left|right].
  - rewrite <-(prefix_take_eq _ _ HX), <-(prefix_take_eq _ _ HY). by apply take_prefix_mono.
  - rewrite <-(prefix_take_eq _ _ HX), <-(prefix_take_eq _ _ HY). by apply take_prefix_mono.
Qed.
End prefix.
