(* ===== verification/GoBytes.v ===== *)
(** * Bytes, slices and the byte-level standard library of Go

    [[]byte] is [list byte] (a slice whose capacity equals its length, which is
    how every slice of the program is made), [len], [make], slicing, [copy],
    indexed stores, [binary.BigEndian], [bytes.Compare], [bytes.Equal],
    [sort.Strings] and [io.ReadFull] over an in-memory reader.  Every bounds
    check of the language is a [check] that panics when it fails. *)

From Stdlib Require Import Strings.Byte Strings.String.
From S2P Require Import Prelude.

Local Open Scope Z_scope.

Abbreviation bytes := (list byte).

(** [str s]: a Go string literal as its bytes. *)
Definition str (s : string) : bytes := String.list_byte_of_string s.

(** [fmt.Println] of one string. *)
Definition println (s : string) : bytes := str s ++ [x0a].

(** A text that contains double quotes, written with back quotes in their place. *)
Definition quoted (s : string) : bytes := (λ b, if Byte.eqb b "`" then x22 else b) <$> str s.

(** ** Machine integers *)

(** Conversion to [byte], [uint32] and [uint64] truncates. *)
Definition u32 (z : Z) : Z := z mod 2 ^ 32.
Definition u64 (z : Z) : Z := z mod 2 ^ 64.

(** Conversion of a [uint64] to [int64] reinterprets the top bit. *)
Definition i64 (z : Z) : Z := (z + 2 ^ 63) mod 2 ^ 64 - 2 ^ 63.

Definition byte_val (b : byte) : Z := Z.of_N (Byte.to_N b).
Definition byte_of (z : Z) : byte := default x00 (Byte.of_N (Z.to_N (z mod 256))).

(** ** [encoding/binary.BigEndian] *)

Fixpoint be_put (n : nat) (z : Z) : bytes :=
  match n with
  | O => []
  | S n => be_put n (Z.shiftr z 8) ++ [byte_of z]
  end.

Definition be_get (bs : bytes) : Z :=
  foldl (λ acc b, acc * 256 + byte_val b) 0 bs.

(** ** Slices *)

Definition len {A} (l : list A) : Z := Z.of_nat (length l).

(** The largest allocation [make] accepts (48-bit address space). *)
Definition maxAlloc : Z := 2 ^ 48.

Definition make_bytes (n : Z) : go bytes :=
  check (0 <=? n) && (n <=? maxAlloc) in Ret (replicate (Z.to_nat n) x00).

Definition in_bounds {A} (b : list A) (lo hi : Z) : bool :=
  (0 <=? lo) && (lo <=? hi) && (hi <=? len b).

(** [b[lo:hi]] read as a value. *)
Definition slice {A} (b : list A) (lo hi : Z) : go (list A) :=
  check in_bounds b lo hi in
  Ret (take (Z.to_nat (hi - lo)) (drop (Z.to_nat lo) b)).

(** [b[i]] read and written. *)
Definition index {A} (b : list A) (i : Z) : go A :=
  check 0 <=? i in opt_go (b !! Z.to_nat i).

Definition store {A} (b : list A) (i : Z) (x : A) : go (list A) :=
  check (0 <=? i) && (i <? len b) in Ret (<[Z.to_nat i := x]> b).

(** [copy(b[lo:hi], src)]: the new contents of [b]. *)
Definition copy_into (b : bytes) (lo hi : Z) (src : bytes) : go bytes :=
  check in_bounds b lo hi in
  let chunk := take (Z.to_nat (hi - lo)) src in
  Ret (take (Z.to_nat lo) b ++ chunk ++ drop (Z.to_nat lo + length chunk) b).

(** [binary.BigEndian.PutUint32(b[lo:hi], v)] and [PutUint64]; both touch the
    last byte first, so a short destination panics. *)
Definition PutUint (w : nat) (b : bytes) (lo hi v : Z) : go bytes :=
  check in_bounds b lo hi && (Z.of_nat w <=? hi - lo) in
  copy_into b lo hi (be_put w v).

Abbreviation PutUint32 := (PutUint 4).
Abbreviation PutUint64 := (PutUint 8).

(** [binary.BigEndian.Uint32(b[lo:hi])] and [Uint64]. *)
Definition Uint (w : nat) (b : bytes) (lo hi : Z) : go Z :=
  let* s := slice b lo hi in
  check Z.of_nat w <=? len s in Ret (be_get (take w s)).

Abbreviation Uint32 := (Uint 4).
Abbreviation Uint64 := (Uint 8).

(** ** [bytes.Compare], [bytes.Equal], [sort.Strings] *)

Fixpoint Compare (a b : bytes) : comparison :=
  match a, b with
  | [], [] => Eq
  | [], _ :: _ => Lt
  | _ :: _, [] => Gt
  | x :: a, y :: b =>
      match byte_val x ?= byte_val y with
      | Eq => Compare a b
      | c => c
      end
  end.

Definition bytes_ltb (a b : bytes) : bool :=
  match Compare a b with Lt => true | _ => false end.

Definition bytes_gtb (a b : bytes) : bool :=
  match Compare a b with Gt => true | _ => false end.

Definition bytes_lt (a b : bytes) : Prop := Compare a b = Lt.
Definition bytes_le (a b : bytes) : Prop := Compare a b ≠ Gt.

#[global] Instance byte_eq_dec : EqDecision byte := byte_eq_dec.
#[global] Instance bytes_lt_dec a b : Decision (bytes_lt a b).
Proof. unfold bytes_lt. solve_decision. Defined.
#[global] Instance bytes_le_dec a b : Decision (bytes_le a b).
Proof. unfold bytes_le. solve_decision. Defined.

(** [bytes.Equal]. *)
Definition Equal (a b : bytes) : bool :=
  match Compare a b with Eq => true | _ => false end.

Definition sort_Strings (l : list bytes) : list bytes := merge_sort bytes_le l.

(** ** [io.ReadFull] on an in-memory reader

    [read_full src n] asks for [n] bytes: [RFull] with the rest of the source,
    [REOF] when nothing is left, [RUnexpectedEOF] when fewer than [n] are. *)
Inductive read_result :=
| RFull (chunk rest : bytes)
| REOF
| RUnexpectedEOF.

Definition read_full (src : bytes) (n : Z) : read_result :=
  if n <=? len src
  then RFull (take (Z.to_nat n) src) (drop (Z.to_nat n) src)
  else match src with [] => REOF | _ => RUnexpectedEOF end.

(** * Facts *)

(** ** Bytes and machine integers *)

Lemma byte_val_range b : 0 ≤ byte_val b < 256.
Proof.
  unfold byte_val. pose proof (Byte.to_N_bounded b). lia.
Qed.

Lemma byte_of_val b : byte_of (byte_val b) = b.
Proof.
  unfold byte_of. rewrite Z.mod_small by apply byte_val_range.
  unfold byte_val. by rewrite N2Z.id, Byte.of_to_N.
Qed.

Lemma byte_val_of z : byte_val (byte_of z) = z mod 256.
Proof.
  unfold byte_of, byte_val.
  pose proof (Z.mod_pos_bound z 256 ltac:(lia)) as Hz.
  destruct (Byte.of_N (Z.to_N (z mod 256))) as [b|] eqn:E; simpl.
  - apply Byte.to_of_N in E. rewrite E. lia.
  - apply Byte.of_N_None_iff in E. lia.
Qed.

#[global] Instance byte_val_inj : Inj (=) (=) byte_val.
Proof. intros a b H. by rewrite <-(byte_of_val a), H, byte_of_val. Qed.

#[global] Instance byte_countable : Countable byte :=
  inj_countable' byte_val byte_of byte_of_val.

Lemma u32_small z : 0 ≤ z < 2 ^ 32 → u32 z = z.
Proof. apply Z.mod_small. Qed.

Lemma u32_range z : 0 ≤ u32 z < 2 ^ 32.
Proof. apply Z.mod_pos_bound. lia. Qed.

Lemma i64_small z : - 2 ^ 63 ≤ z < 2 ^ 63 → i64 z = z.
Proof. intros H. unfold i64. rewrite Z.mod_small; lia. Qed.

Lemma len_nonneg {A} (l : list A) : 0 ≤ len l.
Proof. unfold len. lia. Qed.

Lemma len_app {A} (l1 l2 : list A) : len (l1 ++ l2) = len l1 + len l2.
Proof. unfold len. rewrite length_app. lia. Qed.

Lemma len_cons {A} (x : A) l : len (x :: l) = 1 + len l.
Proof. unfold len. simpl. lia. Qed.

Lemma len_nil {A} : len ([] : list A) = 0.
Proof. reflexivity. Qed.

Lemma len_to_nat {A} (l : list A) : Z.to_nat (len l) = length l.
Proof. unfold len. lia. Qed.

(** ** Big-endian words *)

Lemma length_be_put n z : length (be_put n z) = n.
Proof.
  revert z; induction n as [|n IH]; intros z; simpl; [done|].
  rewrite length_app, IH. simpl. lia.
Qed.

Lemma be_get_app a b : be_get (a ++ [b]) = be_get a * 256 + byte_val b.
Proof. unfold be_get. by rewrite foldl_app. Qed.

Lemma be_get_put n z : be_get (be_put n z) = z mod 256 ^ Z.of_nat n.
Proof.
  revert z; induction n as [|n IH]; intros z; simpl be_put.
  - by rewrite Z.mod_1_r.
  - rewrite be_get_app, IH, byte_val_of, Z.shiftr_div_pow2 by lia.
    rewrite Nat2Z.inj_succ, Z.pow_succ_r by lia.
    change (2 ^ 8) with 256.
    rewrite (Z.rem_mul_r z 256) by lia. lia.
Qed.

Lemma be_get_range bs : 0 ≤ be_get bs < 256 ^ Z.of_nat (length bs).
Proof.
  induction bs as [|b bs IH] using rev_ind; [done|].
  rewrite be_get_app, length_app, Nat2Z.inj_add, Z.pow_add_r by lia.
  pose proof (byte_val_range b). simpl Z.of_nat.
  change (256 ^ 1) with 256. lia.
Qed.

Lemma be_put_get bs : be_put (length bs) (be_get bs) = bs.
Proof.
  induction bs as [|b bs IH] using rev_ind; [done|].
  rewrite length_app, Nat.add_comm. simpl be_put.
  rewrite be_get_app, Z.shiftr_div_pow2 by lia. change (2 ^ 8) with 256.
  pose proof (byte_val_range b).
  rewrite Z.div_add_l, (Z.div_small (byte_val b)), Z.add_0_r, IH by lia.
  do 2 f_equal. apply (inj byte_val).
  rewrite byte_val_of, Z.add_comm, Z.mod_add by lia.
  by apply Z.mod_small.
Qed.

Lemma be_get_put_small n z :
  0 ≤ z < 256 ^ Z.of_nat n → be_get (be_put n z) = z.
Proof. intros H. rewrite be_get_put. by apply Z.mod_small. Qed.

(** ** [bytes.Compare] is a strict total order *)

Lemma Compare_refl a : Compare a a = Eq.
Proof. induction a as [|x a IH]; simpl; [done|]. by rewrite Z.compare_refl. Qed.

Lemma Compare_eq a b : Compare a b = Eq ↔ a = b.
Proof.
  split; [|intros ->; apply Compare_refl].
  revert b; induction a as [|x a IH]; intros [|y b]; simpl; try done.
  destruct (Z.compare_spec (byte_val x) (byte_val y)) as [E| |]; try done.
  apply (inj byte_val) in E as ->. intros H. f_equal. auto.
Qed.

Lemma Compare_antisym a b : Compare b a = CompOpp (Compare a b).
Proof.
  revert b; induction a as [|x a IH]; intros [|y b]; simpl; try done.
  rewrite (Z.compare_antisym (byte_val x)).
  destruct (byte_val x ?= byte_val y); simpl; auto.
Qed.

Lemma Compare_lt_trans a b c :
  Compare a b = Lt → Compare b c = Lt → Compare a c = Lt.
Proof.
  revert b c; induction a as [|x a IH]; intros [|y b] [|z c]; simpl; try done.
  destruct (Z.compare_spec (byte_val x) (byte_val y)),
    (Z.compare_spec (byte_val y) (byte_val z)),
    (Z.compare_spec (byte_val x) (byte_val z)); try done; try lia; eauto.
Qed.

Lemma Equal_spec a b : Equal a b = bool_decide (a = b).
Proof.
  unfold Equal. case_bool_decide as H.
  - subst. by rewrite Compare_refl.
  - destruct (Compare a b) eqn:E; [|done..]. by apply Compare_eq in E.
Qed.

Lemma bytes_gtb_ltb a b : bytes_gtb a b = bytes_ltb b a.
Proof.
  unfold bytes_gtb, bytes_ltb. rewrite (Compare_antisym a b).
  by destruct (Compare a b).
Qed.

Lemma bytes_ltb_lt a b : bytes_ltb a b = true ↔ bytes_lt a b.
Proof. unfold bytes_ltb, bytes_lt. by destruct (Compare a b). Qed.

#[global] Instance bytes_lt_strict : StrictOrder bytes_lt.
Proof.
  split.
  - intros a H. unfold bytes_lt in H. by rewrite Compare_refl in H.
  - intros a b c. apply Compare_lt_trans.
Qed.

#[global] Instance bytes_lt_trichotomy : Trichotomy bytes_lt.
Proof.
  intros a b. unfold bytes_lt. rewrite (Compare_antisym a b).
  destruct (Compare a b) eqn:E; simpl; auto.
  apply Compare_eq in E. auto.
Qed.

Lemma bytes_le_lt a b : bytes_le a b ↔ bytes_lt a b ∨ a = b.
Proof.
  unfold bytes_le, bytes_lt. rewrite <-(Compare_eq a b).
  destruct (Compare a b); naive_solver.
Qed.

#[global] Instance bytes_le_trans : Transitive bytes_le.
Proof.
  intros a b c. rewrite !bytes_le_lt. intros [H1| ->] [H2| ->]; auto.
  left. by etransitivity.
Qed.

#[global] Instance bytes_le_total : Total bytes_le.
Proof.
  intros a b. unfold bytes_le. rewrite (Compare_antisym a b).
  by destruct (Compare a b); simpl; [left|left|right].
Qed.

#[global] Instance bytes_le_antisymm : AntiSymm (=) bytes_le.
Proof.
  intros a b. rewrite !bytes_le_lt. intros [H1| ->] [H2|H2]; auto.
  by destruct (irreflexivity bytes_lt a (transitivity H1 H2)).
Qed.

Lemma bytes_not_lt a b : ¬ bytes_lt a b ↔ bytes_le b a.
Proof.
  unfold bytes_le, bytes_lt. rewrite (Compare_antisym a b).
  destruct (Compare a b); naive_solver.
Qed.

(** ** Slices and buffers *)

Lemma in_bounds_true {A} (b : list A) lo hi :
  in_bounds b lo hi = true ↔ 0 ≤ lo ≤ hi ∧ hi ≤ len b.
Proof. unfold in_bounds. rewrite !andb_true_iff, !Z.leb_le. lia. Qed.

Lemma in_bounds_app {A} (a b c : list A) : in_bounds (a ++ b ++ c) (len a) (len a + len b) = true.
Proof.
  apply in_bounds_true. rewrite !len_app.
  pose proof (len_nonneg a). pose proof (len_nonneg b). pose proof (len_nonneg c). lia.
Qed.

Lemma slice_at {A} (buf a b c : list A) lo hi :
  buf = a ++ b ++ c → lo = len a → hi = len a + len b → slice buf lo hi = Ret b.
Proof.
  intros -> -> ->. unfold slice. rewrite guard_go_true by apply in_bounds_app.
  replace (len a + len b - len a) with (len b) by lia.
  by rewrite !len_to_nat, drop_app_length, take_app_length.
Qed.

Lemma slice_ok {A} (b : list A) lo hi :
  0 ≤ lo ≤ hi → hi ≤ len b →
  slice b lo hi = Ret (take (Z.to_nat (hi - lo)) (drop (Z.to_nat lo) b)).
Proof. intros H1 H2. unfold slice. rewrite guard_go_true; [done|]. by apply in_bounds_true. Qed.

Lemma copy_into_at buf a b c src lo hi :
  buf = a ++ b ++ c → lo = len a → hi = len a + len b → length src = length b →
  copy_into buf lo hi src = Ret (a ++ src ++ c).
Proof.
  intros -> -> -> Hs. unfold copy_into. rewrite guard_go_true by apply in_bounds_app.
  replace (len a + len b - len a) with (len b) by lia.
  rewrite !len_to_nat, take_app_length, <-Hs, firstn_all. do 2 f_equal.
  rewrite (app_assoc a b c), Hs. rewrite <-length_app. by rewrite drop_app_length.
Qed.

Lemma PutUint_at w buf a b c v lo hi :
  buf = a ++ b ++ c → lo = len a → hi = len a + len b → length b = w →
  PutUint w buf lo hi v = Ret (a ++ be_put w v ++ c).
Proof.
  intros -> -> -> Hw. unfold PutUint. rewrite guard_go_true.
  - by apply (copy_into_at _ a b c); rewrite ?length_be_put.
  - rewrite in_bounds_app. apply Z.leb_le. unfold len in *. lia.
Qed.

Lemma Uint_at w buf a b c lo hi :
  buf = a ++ b ++ c → lo = len a → hi = len a + len b → length b = w →
  Uint w buf lo hi = Ret (be_get b).
Proof.
  intros -> Hlo Hhi Hw. unfold Uint. rewrite (slice_at _ a b c) by done.
  rewrite go_bind_ret, guard_go_true.
  - by rewrite <-Hw, firstn_all.
  - apply Z.leb_le. unfold len. lia.
Qed.

Lemma index_at {A} (buf a : list A) x c i :
  buf = a ++ x :: c → i = len a → index buf i = Ret x.
Proof.
  intros -> ->. unfold index. rewrite guard_go_true by (apply Z.leb_le, len_nonneg).
  rewrite len_to_nat. by rewrite list_lookup_middle.
Qed.

Lemma store_at {A} (buf a : list A) x c i y :
  buf = a ++ x :: c → i = len a → store buf i y = Ret (a ++ y :: c).
Proof.
  intros -> ->. unfold store. rewrite guard_go_true.
  - rewrite len_to_nat. by rewrite <-(Nat.add_0_r (length a)), insert_app_r.
  - apply andb_true_iff; split; [apply Z.leb_le, len_nonneg|].
    apply Z.ltb_lt. rewrite len_app, len_cons. pose proof (len_nonneg c). lia.
Qed.

Lemma read_full_app a b n : n = len a → read_full (a ++ b) n = RFull a b.
Proof.
  intros ->. unfold read_full.
  rewrite (proj2 (Z.leb_le _ _)) by (rewrite len_app; pose proof (len_nonneg b); lia).
  by rewrite !len_to_nat, take_app_length, drop_app_length.
Qed.

Lemma read_full_short src n :
  len src < n → read_full src n = REOF ∨ read_full src n = RUnexpectedEOF.
Proof.
  intros H. unfold read_full. rewrite (proj2 (Z.leb_gt _ _)) by done.
  destruct src; auto.
Qed.

Lemma read_full_inv src n chunk rest :
  read_full src n = RFull chunk rest → src = chunk ++ rest ∧ len chunk = Z.max 0 n.
Proof.
  unfold read_full. destruct (Z.leb_spec n (len src)) as [Hn|]; [|by destruct src].
  intros [= <- <-]. split; [by rewrite take_drop|].
  unfold len in *. rewrite length_take. lia.
Qed.

Lemma make_bytes_ok n :
  0 ≤ n ≤ maxAlloc → make_bytes n = Ret (replicate (Z.to_nat n) x00).
Proof.
  intros H. unfold make_bytes. rewrite guard_go_true; [done|].
  rewrite andb_true_iff, !Z.leb_le. lia.
Qed.

(** ** Sorting *)

Lemma sort_Strings_Permutation l : sort_Strings l ≡ₚ l.
Proof. apply merge_sort_Permutation. Qed.

Lemma sort_Strings_Sorted l : Sorted bytes_le (sort_Strings l).
Proof. apply Sorted_merge_sort, _. Qed.

Lemma sort_Strings_id l : Sorted bytes_le l → sort_Strings l = l.
Proof.
  intros Hl. apply (Sorted_unique bytes_le); [apply sort_Strings_Sorted|done|].
  apply sort_Strings_Permutation.
Qed.

(** ** None of these operations uses fuel *)

Lemma make_bytes_no_oof n : make_bytes n ≠ OutOfFuel.
Proof. unfold make_bytes. auto with no_oof. Qed.
Lemma slice_no_oof {A} (b : list A) lo hi : slice b lo hi ≠ OutOfFuel.
Proof. unfold slice. auto with no_oof. Qed.
Lemma index_no_oof {A} (b : list A) i : index b i ≠ OutOfFuel.
Proof. unfold index. auto with no_oof. Qed.
Lemma store_no_oof {A} (b : list A) i x : store b i x ≠ OutOfFuel.
Proof. unfold store. auto with no_oof. Qed.
Lemma copy_into_no_oof b lo hi src : copy_into b lo hi src ≠ OutOfFuel.
Proof. unfold copy_into. auto with no_oof. Qed.
#[export] Hint Resolve make_bytes_no_oof slice_no_oof index_no_oof store_no_oof
  copy_into_no_oof : no_oof.
Lemma PutUint_no_oof n b lo hi v : PutUint n b lo hi v ≠ OutOfFuel.
Proof. unfold PutUint. auto with no_oof. Qed.
Lemma Uint_no_oof n b lo hi : Uint n b lo hi ≠ OutOfFuel.
Proof. unfold Uint. auto with no_oof. Qed.
#[export] Hint Resolve PutUint_no_oof Uint_no_oof : no_oof.
