(* ===== verification/Flag.v ===== *)
(** * Command lines (packages flag and strconv, as the programs use them)

    [flag.FlagSet.Parse] for string and int flags in the mode [ExitOnError],
    and [strconv.ParseInt(s, 0, 64)], which reads the value of an int flag.
    [Sprintf_d] is [fmt.Sprintf("%d", n)] and [strconv.Itoa]. *)

From Stdlib Require Import Strings.Ascii Strings.String.
From S2P Require Import Prelude GoBytes.

Local Open Scope Z_scope.

(** ** strconv.ParseInt *)

Definition lower (c : ascii) : Z := Z.lor (Z.of_N (N_of_ascii c)) 32.
Definition code (c : ascii) : Z := Z.of_N (N_of_ascii c).

(** The value of a digit or letter. *)
Definition digit_value (c : ascii) : option Z :=
  if (48 <=? code c) && (code c <=? 57) then Some (code c - 48)
  else if (97 <=? lower c) && (lower c <=? 122) then Some (lower c - 97 + 10)
  else None.

(** The digits of ParseUint: the number and whether an underscore was seen.  The
    number is not bounded here; the code stops at the first overflow, which is
    an error in any case. *)
Fixpoint digits (base : Z) (s : string) (n : Z) (underscores : bool) : option (Z * bool) :=
  match s with
  | EmptyString => Some (n, underscores)
  | String c s =>
      if bool_decide (c = "_"%char) then digits base s n true
      else
        match digit_value c with
        | Some d => if base <=? d then None else digits base s (n * base + d) underscores
        | None => None
        end
  end.

(** underscoreOK: underscores only between digits, or after the base prefix.
    [saw] is the class of the previous character. *)
Inductive seen := SawBegin | SawDigit | SawUnderscore | SawOther.

Fixpoint underscores_between (hex : bool) (saw : seen) (s : string) : bool :=
  match s with
  | EmptyString => match saw with SawUnderscore => false | _ => true end
  | String c s =>
      if ((48 <=? code c) && (code c <=? 57))
         || (hex && (97 <=? lower c) && (lower c <=? 102))
      then underscores_between hex SawDigit s
      else if bool_decide (c = "_"%char) then
        match saw with SawDigit => underscores_between hex SawUnderscore s | _ => false end
      else
        match saw with
        | SawUnderscore => false
        | _ => underscores_between hex SawOther s
        end
  end.

(** The base prefixes 0b, 0o and 0x. *)
Definition prefix_base (c : ascii) : option Z :=
  if lower c =? 98 then Some 2 else if lower c =? 111 then Some 8
  else if lower c =? 120 then Some 16 else None.

Definition underscoreOK (s : string) : bool :=
  match s with
  | String "0" (String c rest) =>
      match prefix_base c with
      | Some b => underscores_between (b =? 16) SawDigit rest
      | None => underscores_between false SawBegin s
      end
  | _ => underscores_between false SawBegin s
  end.

(** ParseUint with base 0: the base comes from the prefix, which needs at least
    one character after it. *)
Definition ParseUint (s : string) : option Z :=
  let '(base, ds) :=
    match s with
    | String "0" rest =>
        match rest with
        | String c (String _ _ as ds) =>
            match prefix_base c with Some b => (b, ds) | None => (8, rest) end
        | _ => (8, rest)
        end
    | _ => (10, s)
    end in
  if bool_decide (s = EmptyString) then None else
  match digits base ds 0 false with
  | Some (n, underscores) =>
      if underscores && negb (underscoreOK s) then None
      else if n <? 2 ^ 64 then Some n else None
  | None => None
  end.

Definition ParseInt (s : string) : option Z :=
  let '(neg, ds) :=
    match s with
    | String "+" ds => (false, ds)
    | String "-" ds => (true, ds)
    | _ => (false, s)
    end in
  match ParseUint ds with
  | Some un =>
      if neg : bool then if 2 ^ 63 <? un then None else Some (- un)
      else if 2 ^ 63 <=? un then None else Some un
  | None => None
  end.

(** ** fmt.Sprintf("%d") *)

Definition digit (d : Z) : ascii := ascii_of_N (Z.to_N (48 + d)).

Fixpoint format_digits (fuel : nat) (n : Z) (acc : string) : string :=
  match fuel with
  | O => acc
  | S fuel =>
      let acc := String (digit (n mod 10)) acc in
      if n <? 10 then acc else format_digits fuel (n / 10) acc
  end.

(** The decimal digits of [n]; a number has fewer digits than bits. *)
Definition format_uint (n : Z) : string := format_digits (S (Z.to_nat (Z.log2 n))) n EmptyString.

Definition Sprintf_d (n : Z) : string :=
  if n <? 0 then String "-" (format_uint (- n)) else format_uint n.

(** ** flag.FlagSet *)

Inductive flag_value := StringValue (s : string) | IntValue (n : Z).

(** The defined flags with their current values. *)
Abbreviation flags := (gmap string flag_value).

Inductive parse_error :=
| ErrHelp
| BadSyntax (s : string)
| NotDefined (name : string)
| NeedsArgument (name : string)
| InvalidValue (value name : string).

(** [flag.Value.Set]. *)
Definition set_value (v : flag_value) (s : string) : option flag_value :=
  match v with
  | StringValue _ => Some (StringValue s)
  | IntValue _ => IntValue <$> ParseInt s
  end.

(** The part of a flag before the first [=] and the part after it. *)
Fixpoint cut_eq (s : string) : string * option string :=
  match s with
  | EmptyString => (EmptyString, None)
  | String c s =>
      if bool_decide (c = "="%char) then (EmptyString, Some s)
      else let '(name, v) := cut_eq s in (String c name, v)
  end.

(** What one argument is: not a flag, the terminator, a malformed flag, or a
    flag with or without a value. *)
Inductive token := TNone | TEnd | TBad | TFlag (name : string) (value : option string).

Definition name_token (name : string) : token :=
  match name with
  | EmptyString => TBad
  | String c _ =>
      if bool_decide (c = "-"%char) || bool_decide (c = "="%char) then TBad
      else let '(name, v) := cut_eq name in TFlag name v
  end.

Definition token_of (s : string) : token :=
  match s with
  | String "-" EmptyString => TNone
  | String "-" (String "-" EmptyString) => TEnd
  | String "-" (String "-" name) => name_token name
  | String "-" name => name_token name
  | _ => TNone
  end.

(** FlagSet.Parse: the flags with their values and the remaining arguments. *)
Fixpoint Parse (formal : flags) (args : list string) : flags * list string + parse_error :=
  match args with
  | [] => inl (formal, [])
  | s :: rest =>
      match token_of s with
      | TNone => inl (formal, args)
      | TEnd => inl (formal, rest)
      | TBad => inr (BadSyntax s)
      | TFlag name v =>
          match formal !! name with
          | None =>
              inr (if bool_decide (name = "help"%string) || bool_decide (name = "h"%string)
                   then ErrHelp else NotDefined name)
          | Some old =>
              match v with
              | Some value =>
                  match set_value old value with
                  | Some new => Parse (<[name := new]> formal) rest
                  | None => inr (InvalidValue value name)
                  end
              | None =>
                  match rest with
                  | [] => inr (NeedsArgument name)
                  | value :: rest =>
                      match set_value old value with
                      | Some new => Parse (<[name := new]> formal) rest
                      | None => inr (InvalidValue value name)
                      end
                  end
              end
          end
      end
  end.

(** The status [ExitOnError] exits with. *)
Definition parse_exit (e : parse_error) : Z :=
  match e with ErrHelp => 0 | _ => 2 end.

(** The value of a string flag and of an int flag. *)
Definition string_flag (fs : flags) (name : string) : string :=
  match fs !! name with Some (StringValue s) => s | _ => EmptyString end.
Definition int_flag (fs : flags) (name : string) : Z :=
  match fs !! name with Some (IntValue n) => n | _ => 0 end.

(** * Facts *)

(** ** Numbers *)

Lemma digit_cases (P : Z → Prop) d :
  P 0 → P 1 → P 2 → P 3 → P 4 → P 5 → P 6 → P 7 → P 8 → P 9 → 0 ≤ d < 10 → P d.
Proof.
  intros H0 H1 H2 H3 H4 H5 H6 H7 H8 H9 Hd.
  assert (d = 0 ∨ d = 1 ∨ d = 2 ∨ d = 3 ∨ d = 4 ∨ d = 5 ∨ d = 6 ∨ d = 7 ∨ d = 8 ∨ d = 9) as Hc by lia.
  repeat destruct Hc as [-> |Hc]; by subst.
Qed.

Lemma digits_digit d s n u :
  0 ≤ d < 10 → digits 10 (String (digit d) s) n u = digits 10 s (n * 10 + d) u.
Proof.
  apply (digit_cases (λ d, digits 10 (String (digit d) s) n u = digits 10 s (n * 10 + d) u)); reflexivity.
Qed.

Lemma format_digits_value fuel n acc u :
  0 ≤ n < 10 ^ Z.of_nat fuel → (0 < fuel)%nat →
  digits 10 (format_digits fuel n acc) 0 u = digits 10 acc n u.
Proof.
  revert n acc. induction fuel as [|fuel IH]; intros n acc Hn Hf; [lia|]. cbn [format_digits].
  pose proof (Z.mod_pos_bound n 10). pose proof (Z.div_mod n 10).
  destruct (Z.ltb_spec n 10) as [Hlt|Hge].
  - rewrite digits_digit by lia. f_equal. rewrite Z.mod_small; lia.
  - assert (0 ≤ n / 10 < 10 ^ Z.of_nat fuel) as Hq.
    { rewrite Nat2Z.inj_succ, Z.pow_succ_r in Hn by lia. split; [apply Z.div_pos; lia|].
      apply Z.div_lt_upper_bound; lia. }
    rewrite IH, digits_digit; [f_equal; lia|lia|done|]. destruct fuel; [cbn in Hq|]; lia.
Qed.

(** The first digit of a positive number is not zero. *)
Lemma format_digits_head fuel n acc :
  0 < n < 10 ^ Z.of_nat fuel → ∃ d s, format_digits fuel n acc = String (digit d) s ∧ 0 < d < 10.
Proof.
  revert n acc. induction fuel as [|fuel IH]; intros n acc Hn; [cbn in Hn; lia|]. cbn [format_digits].
  destruct (Z.ltb_spec n 10) as [Hlt|Hge].
  - exists n, acc. rewrite Z.mod_small by lia. split; [done|lia].
  - apply IH. rewrite Nat2Z.inj_succ, Z.pow_succ_r in Hn by lia.
    split; [apply Z.div_str_pos; lia|apply Z.div_lt_upper_bound; lia].
Qed.

Lemma format_uint_bound n : 0 < n → n < 10 ^ Z.of_nat (S (Z.to_nat (Z.log2 n))).
Proof.
  intros Hn. pose proof (Z.log2_spec n Hn) as [_ Hlt]. pose proof (Z.log2_nonneg n).
  replace (Z.of_nat (S (Z.to_nat (Z.log2 n)))) with (Z.succ (Z.log2 n)) by lia.
  eapply Z.lt_le_trans; [exact Hlt|]. apply Z.pow_le_mono_l. lia.
Qed.

(** Compute the digit of a constant. *)
Ltac eval_digit :=
  match goal with
  | |- context [digit ?k] => let c := eval vm_compute in (digit k) in change (digit k) with c in *
  end.

Lemma format_uint_parse n :
  0 ≤ n → ParseUint (format_uint n) = if n <? 2 ^ 64 then Some n else None.
Proof.
  intros Hn. destruct (decide (n = 0)) as [->|Hne]; [reflexivity|]. unfold format_uint.
  assert (0 < n) as Hpos by lia. pose proof (format_uint_bound n Hpos) as Hb.
  destruct (format_digits_head _ n EmptyString (conj Hpos Hb)) as (d & s & E & Hd).
  pose proof (format_digits_value _ n EmptyString false (conj Hn Hb) (Nat.lt_0_succ _)) as Hv.
  rewrite E in Hv |- *. revert Hv.
  set (R := if n <? 2 ^ 64 then Some n else None).
  assert (0 < d < 10 → digits 10 (String (digit d) s) 0 false = digits 10 EmptyString n false →
    ParseUint (String (digit d) s) = R) as H; [|by apply H].
  apply (digit_cases (λ d, 0 < d < 10 → digits 10 (String (digit d) s) 0 false =
    digits 10 EmptyString n false → ParseUint (String (digit d) s) = R)); [lia|..|lia];
    intros _ Hv; eval_digit; unfold ParseUint; cbv beta iota; rewrite bool_decide_eq_false_2 by done;
    by rewrite Hv.
Qed.

(** ParseInt of a string that starts with a digit. *)
Lemma ParseInt_digit d s :
  0 ≤ d < 10 → ParseInt (String (digit d) s) =
    match ParseUint (String (digit d) s) with
    | Some un => if 2 ^ 63 <=? un then None else Some un
    | None => None
    end.
Proof.
  apply (digit_cases (λ d, ParseInt (String (digit d) s) =
    match ParseUint (String (digit d) s) with
    | Some un => if 2 ^ 63 <=? un then None else Some un
    | None => None
    end)); reflexivity.
Qed.

Lemma format_uint_head n : 0 ≤ n → ∃ d s, format_uint n = String (digit d) s ∧ 0 ≤ d < 10.
Proof.
  intros Hn. destruct (decide (n = 0)) as [->|Hne]; [by exists 0, EmptyString|].
  assert (0 < n) as Hpos by lia.
  destruct (format_digits_head _ n EmptyString (conj Hpos (format_uint_bound n Hpos))) as (d & s & E & Hd).
  exists d, s. split; [done|lia].
Qed.

(** Reading back a printed number, which must fit 64 bits. *)
Lemma ParseInt_Sprintf_d n :
  ParseInt (Sprintf_d n) = if (- 2 ^ 63 <=? n) && (n <? 2 ^ 63) then Some n else None.
Proof.
  unfold Sprintf_d. destruct (Z.ltb_spec n 0) as [Hneg|Hpos].
  - unfold ParseInt. cbv beta iota. rewrite format_uint_parse by lia.
    destruct (Z.ltb_spec (- n) (2 ^ 64)), (Z.leb_spec (- 2 ^ 63) n), (Z.ltb_spec n (2 ^ 63)),
      (Z.ltb_spec (2 ^ 63) (- n)); cbn [andb]; try lia; f_equal; lia.
  - destruct (format_uint_head n Hpos) as (d & s & E & Hd). rewrite E, ParseInt_digit by done.
    rewrite <-E, format_uint_parse by lia.
    destruct (Z.ltb_spec n (2 ^ 64)), (Z.leb_spec (- 2 ^ 63) n), (Z.ltb_spec n (2 ^ 63)),
      (Z.leb_spec (2 ^ 63) n); cbn [andb]; done || lia.
Qed.

(** ** Flags *)

(** The four ways to give a flag a value. *)
Inductive spelling := Dash | DashDash | DashEq | DashDashEq.

Definition spell (sp : spelling) (name value : string) : list string :=
  match sp with
  | Dash => [("-" ++ name)%string; value]
  | DashDash => [("--" ++ name)%string; value]
  | DashEq => [("-" ++ name ++ "=" ++ value)%string]
  | DashDashEq => [("--" ++ name ++ "=" ++ value)%string]
  end.

Fixpoint no_eq (s : string) : bool :=
  match s with
  | EmptyString => true
  | String c s => negb (bool_decide (c = "="%char)) && no_eq s
  end.

(** A name a flag can be given by: not empty, without [=], not starting with a
    dash. *)
Definition flag_name (name : string) : bool :=
  match name with
  | EmptyString => false
  | String c s => negb (bool_decide (c = "-"%char)) && no_eq name
  end.

Lemma cut_eq_name name : no_eq name = true → cut_eq name = (name, None).
Proof.
  induction name as [|c s IH]; cbn; [done|]. intros [Hc Hs]%andb_true_iff.
  apply negb_true_iff in Hc. rewrite Hc. by rewrite IH.
Qed.

Lemma cut_eq_value name value :
  no_eq name = true → cut_eq (name ++ "=" ++ value) = (name, Some value).
Proof.
  induction name as [|c s IH]; [done|].
  change (String c s +:+ "=" +:+ value) with (String c (s +:+ "=" +:+ value)).
  cbn [no_eq cut_eq]. intros [Hc Hs]%andb_true_iff.
  apply negb_true_iff in Hc. rewrite Hc. by rewrite IH.
Qed.

Lemma name_token_plain name : flag_name name = true → name_token name = TFlag name None.
Proof.
  destruct name as [|c s]; [done|]. cbn [flag_name]. intros [Hc Hn]%andb_true_iff.
  unfold name_token. rewrite (cut_eq_name _ Hn). cbn [no_eq] in Hn. apply andb_true_iff in Hn as [He _].
  apply negb_true_iff in Hc, He. by rewrite Hc, He.
Qed.

Lemma name_token_value name value :
  flag_name name = true → name_token (name ++ "=" ++ value) = TFlag name (Some value).
Proof.
  destruct name as [|c s]; [done|]. cbn [flag_name]. intros [Hc Hn]%andb_true_iff.
  pose proof (cut_eq_value _ value Hn) as Hcut.
  change (String c s +:+ "=" +:+ value) with (String c (s +:+ "=" +:+ value)) in *. unfold name_token.
  rewrite Hcut. cbn [no_eq] in Hn. apply andb_true_iff in Hn as [He _].
  apply negb_true_iff in Hc, He. by rewrite Hc, He.
Qed.

(** An argument that starts with one or two dashes. *)
Lemma token_of_dashdash name : name ≠ EmptyString → token_of ("--" ++ name) = name_token name.
Proof. by destruct name. Qed.

Lemma token_of_dash c s : c ≠ "-"%char → token_of (String "-" (String c s)) = name_token (String c s).
Proof. intros Hc. destruct c as [[] [] [] [] [] [] [] []]; try done. Qed.

(** A spelled flag is its name token, with the value attached or next. *)
Lemma token_of_spell sp name value :
  flag_name name = true →
  match sp with
  | Dash => token_of ("-" ++ name) = TFlag name None
  | DashDash => token_of ("--" ++ name) = TFlag name None
  | DashEq => token_of ("-" ++ name ++ "=" ++ value) = TFlag name (Some value)
  | DashDashEq => token_of ("--" ++ name ++ "=" ++ value) = TFlag name (Some value)
  end.
Proof.
  intros Hn. pose proof (name_token_plain name Hn) as H1. pose proof (name_token_value name value Hn) as H2.
  destruct name as [|c s]; [done|].
  assert (c ≠ "-"%char) as Hc.
  { intros ->. done. }
  destruct sp; rewrite <-?H1, <-?H2; [by apply token_of_dash|done|by apply (token_of_dash c)|done].
Qed.

(** Giving one flag a value. *)
Definition assign (formal : flags) (a : string * string) : option flags :=
  old ← formal !! a.1; new ← set_value old a.2; Some (<[a.1 := new]> formal).

Fixpoint assign_all (formal : flags) (l : list (spelling * (string * string))) : option flags :=
  match l with
  | [] => Some formal
  | (_, a) :: l => formal ← assign formal a; assign_all formal l
  end.

Definition spell_all (l : list (spelling * (string * string))) : list string :=
  mjoin ((λ x, spell x.1 x.2.1 x.2.2) <$> l).

Lemma Parse_spell sp name value formal formal' rest :
  flag_name name = true → assign formal (name, value) = Some formal' →
  Parse formal (spell sp name value ++ rest) = Parse formal' rest.
Proof.
  intros Hn (old & Hold & (new & Hnew & [= <-])%bind_Some)%bind_Some. cbn [fst snd] in *.
  pose proof (token_of_spell sp name value Hn) as Ht.
  destruct sp; cbn [spell app Parse]; rewrite Ht, Hold; by rewrite Hnew.
Qed.

Lemma Parse_spell_invalid sp name value formal old rest :
  flag_name name = true → formal !! name = Some old → set_value old value = None →
  Parse formal (spell sp name value ++ rest) = inr (InvalidValue value name).
Proof.
  intros Hn Hold Hnew. pose proof (token_of_spell sp name value Hn) as Ht.
  destruct sp; cbn [spell app Parse]; rewrite Ht, Hold; by rewrite Hnew.
Qed.

Lemma Parse_spell_all l formal formal' rest :
  Forall (λ x, flag_name x.2.1 = true) l → assign_all formal l = Some formal' →
  Parse formal (spell_all l ++ rest) = Parse formal' rest.
Proof.
  intros Hl. revert formal. induction Hl as [|[sp [name value]] l Hn _ IH]; intros formal; cbn [assign_all].
  - by intros [= ->].
  - intros (f1 & H1 & H2)%bind_Some. unfold spell_all. cbn [fmap list_fmap mjoin list_join fst snd].
    rewrite <-app_assoc, (Parse_spell _ _ _ _ _ _ Hn H1). by apply IH.
Qed.
