(* ===== verification/Float64.v ===== *)
(** * Doubles (IEEE 754 binary64)

    The arithmetic of [double] and Go's [float64] on the [spec_float] of the
    Standard Library, round to nearest even, and the conversions that the
    Bloom filter uses.  [below s M x] bounds a result: [x] is zero or finite with
    the sign [s] and of absolute value below [2 ^ M].  Products, quotients and
    ceilings of bounded doubles are bounded, which is what keeps the conversions
    back to integers defined. *)

From Stdlib Require Import Floats.SpecFloat.
From S2P Require Import Prelude GoBytes.

Local Open Scope Z_scope.

Abbreviation double := spec_float.

Definition Dmul : double → double → double := SFmul 53 1024.
Definition Ddiv : double → double → double := SFdiv 53 1024.
Definition Dopp : double → double := SFopp.

(** Comparisons, false when an argument is not a number. *)
Definition Dle (x y : double) : bool := SFleb x y.
Definition Dlt (x y : double) : bool := SFltb x y.

(** A double that can be stored. *)
Definition valid_double (x : double) : bool := valid_binary 53 1024 x.

(** [static_cast<double>] of an integer, and the literal [num / den]. *)
Definition double_of_Z (n : Z) : double := binary_normalize 53 1024 n 0 false.
Definition literal (num den : Z) : double := Ddiv (double_of_Z num) (double_of_Z den).

(** [std::ceil], as the integer it represents. *)
Definition ceil_int (x : double) : option Z :=
  match x with
  | S754_zero _ => Some 0
  | S754_finite s m e =>
      let z := cond_Zopp s (Zpos m) in
      Some (if 0 <=? e then z * 2 ^ e else - ((- z) / 2 ^ (- e)))
  | _ => None
  end.

(** [static_cast<size_t>(std::ceil(x))], undefined when the number does not fit. *)
Definition size_t_of_ceil (x : double) : go Z :=
  match ceil_int x with
  | Some z => check (0 <=? z) && (z <? 2 ^ 64) in Ret z
  | None => Panic
  end.

(** * Facts *)

(** ** Comparisons *)

Lemma SFcompare_swap x y : SFcompare y x = CompOpp <$> SFcompare x y.
Proof.
  destruct x as [sx|[]| |[] mx ex], y as [sy|[]| |[] my ey]; try done; cbn [SFcompare fmap option_fmap option_map];
    f_equal; rewrite (Z.compare_antisym ey); destruct (ey ?= ex); cbn [CompOpp]; try done;
    change (Pos.compare_cont Eq) with Pos.compare; by rewrite (Pos.compare_antisym my), ?CompOpp_involutive.
Qed.

(** Numbers are ordered. *)
Lemma Dle_false_lt x y : x ≠ S754_nan → y ≠ S754_nan → Dle x y = false → Dlt y x = true.
Proof.
  intros Hx Hy. unfold Dle, Dlt, SFleb, SFltb. rewrite (SFcompare_swap x y).
  destruct (SFcompare x y) as [[]|] eqn:E; try done. by destruct x, y.
Qed.

Lemma Dlt_asym x y : Dlt x y = true → Dlt y x = false.
Proof. unfold Dlt, SFltb. rewrite (SFcompare_swap x y). by destruct (SFcompare x y) as [[]|]. Qed.

(** ** Digits and shifts *)

Lemma digits2_pos_bounds m : 2 ^ (Zpos (digits2_pos m) - 1) ≤ Zpos m < 2 ^ Zpos (digits2_pos m).
Proof.
  induction m as [m IH|m IH|]; cbn [digits2_pos]; [| |done];
    rewrite Pos2Z.inj_succ, Z.pow_succ_r by lia;
    replace (Z.succ (Zpos (digits2_pos m)) - 1) with (Z.succ (Zpos (digits2_pos m) - 1)) by lia;
    rewrite Z.pow_succ_r by lia; lia.
Qed.

(** A number below a power of two has few digits. *)
Lemma digits2_le m k : Zpos m < 2 ^ k → Zpos (digits2_pos m) ≤ k.
Proof.
  intros Hm. pose proof (digits2_pos_bounds m) as [Hd _].
  destruct (Z.le_gt_cases 0 k) as [Hk|Hk]; [|rewrite Z.pow_neg_r in Hm; lia].
  assert (Zpos (digits2_pos m) - 1 < k); [|lia]. apply (Z.pow_lt_mono_r_iff 2); lia.
Qed.

Lemma Zdigits2_le m k : 0 ≤ m ≤ 2 ^ k → 0 ≤ k → Zdigits2 m ≤ k + 1.
Proof.
  intros Hm Hk. destruct m as [|p|p]; cbn [Zdigits2]; [lia| |lia]. apply digits2_le.
  rewrite Z.pow_add_r by lia. lia.
Qed.

Lemma iter_pos_nat {A} (f : A → A) n x : SpecFloat.iter_pos f n x = Nat.iter (Pos.to_nat n) f x.
Proof.
  revert x. induction n as [n IH|n IH|]; intros x; cbn [SpecFloat.iter_pos]; [..|done]; rewrite !IH, <-Nat.iter_add.
  - rewrite <-Nat.iter_succ_r. f_equal. lia.
  - f_equal. lia.
Qed.

Lemma shr_1_div r : 0 ≤ shr_m r → shr_m (shr_1 r) = shr_m r / 2.
Proof.
  destruct r as [m r s]; cbn [shr_m shr_1]. intros Hm. rewrite <-Z.div2_div. by destruct m as [|[p|p|]|p].
Qed.

Lemma shr_iter_div k r : 0 ≤ shr_m r → shr_m (Nat.iter k shr_1 r) = shr_m r / 2 ^ Z.of_nat k.
Proof.
  intros Hr. induction k as [|k IH]; [by rewrite Z.div_1_r|].
  change (Nat.iter (S k) shr_1 r) with (shr_1 (Nat.iter k shr_1 r)).
  assert (0 ≤ shr_m r / 2 ^ Z.of_nat k) by (apply Z.div_pos; lia).
  rewrite Nat2Z.inj_succ, Z.pow_succ_r by lia. rewrite shr_1_div, IH, Z.div_div by lia. f_equal. lia.
Qed.

(** [shr_fexp] is the floor of a division by a power of two. *)
Lemma shr_fexp_floor m e l :
  0 ≤ m →
  let n := Z.max 0 (fexp 53 1024 (Zdigits2 m + e) - e) in
  shr_m (shr_fexp 53 1024 m e l).1 = m / 2 ^ n ∧ (shr_fexp 53 1024 m e l).2 = e + n.
Proof.
  intros Hm n. assert (shr_m (shr_record_of_loc m l) = m) as Hrec by (by destruct l as [|[]]).
  unfold shr_fexp, shr, n. destruct (fexp 53 1024 (Zdigits2 m + e) - e) as [|p|p] eqn:E; cbn [fst snd].
  - rewrite Hrec, Z.div_1_r. lia.
  - rewrite iter_pos_nat, shr_iter_div by (by rewrite Hrec). rewrite Hrec, positive_nat_Z. split; [f_equal|]; lia.
  - rewrite Hrec, Z.div_1_r. lia.
Qed.

Lemma fexp_le d : fexp 53 1024 d = Z.max (d - 53) (-1074).
Proof. done. Qed.

(** ** Bounds *)

Definition below (s : bool) (M : Z) (x : double) : Prop :=
  match x with
  | S754_zero s' => s' = s
  | S754_finite s' m e => s' = s ∧ Zpos m < 2 ^ (M - e)
  | _ => False
  end.

Definition above (M : Z) (x : double) : Prop :=
  match x with S754_finite _ m e => 2 ^ (M - e) ≤ Zpos m | _ => False end.

Lemma below_mono s M M' x : M ≤ M' → below s M x → below s M' x.
Proof.
  intros HM. destruct x as [| | |s' m e]; cbn; [done..|]. intros [-> Hm]. split; [done|].
  eapply Z.lt_le_trans; [exact Hm|]. apply Z.pow_le_mono_r; lia.
Qed.

(** The floor of a shift keeps a bound, at the new exponent. *)
Lemma shift_lt m e n M : 0 ≤ m < 2 ^ (M - e) → 0 ≤ n → e + n ≤ M → m / 2 ^ n < 2 ^ (M - (e + n)).
Proof.
  intros Hm Hn HM. apply Z.div_lt_upper_bound; [lia|]. rewrite <-Z.pow_add_r by lia.
  replace (n + (M - (e + n))) with (M - e) by lia. lia.
Qed.

Lemma shift_le m e n M : 0 ≤ m ≤ 2 ^ (M - e) → 0 ≤ n → e + n ≤ M → m / 2 ^ n ≤ 2 ^ (M - (e + n)).
Proof.
  intros Hm Hn HM. replace (2 ^ (M - (e + n))) with (2 ^ (M - e) / 2 ^ n).
  - apply Z.div_le_mono; lia.
  - replace (M - e) with ((M - (e + n)) + n) by lia. rewrite Z.pow_add_r by lia. apply Z.div_mul. lia.
Qed.

Lemma round_step m l : 0 ≤ m → m ≤ round_nearest_even m l ≤ m + 1.
Proof. intros Hm. destruct l as [|[]]; cbn; [lia..| |lia|lia]. destruct (Z.even m); lia. Qed.

(** Rounding a number below [2 ^ M] gives at most [2 ^ M]. *)
Lemma round_below s m e l M :
  0 ≤ m < 2 ^ (M - e) → -1074 ≤ M ≤ 900 → below s (M + 1) (binary_round_aux 53 1024 s m e l).
Proof.
  intros Hm HM. assert (e ≤ M) as He.
  { destruct (Z.le_gt_cases e M); [done|]. rewrite Z.pow_neg_r in Hm; lia. }
  unfold binary_round_aux.
  pose proof (shr_fexp_floor m e l (proj1 Hm)) as Hf. cbv zeta in Hf.
  assert (Zdigits2 m ≤ M - e) as Hd.
  { destruct m as [|p|p]; cbn [Zdigits2]; [lia|apply digits2_le; lia|lia]. }
  rewrite fexp_le in Hf. set (n1 := Z.max 0 _) in Hf.
  assert (0 ≤ n1 ∧ e + n1 ≤ M) as [Hn1 He1] by lia.
  destruct (shr_fexp 53 1024 m e l) as [r1 e1]. cbn [fst snd] in Hf. destruct Hf as [Hr1 ->].
  pose proof (shift_lt m e n1 M Hm Hn1 He1) as Hlt. rewrite <-Hr1 in Hlt.
  assert (0 ≤ shr_m r1) as Hr0 by (rewrite Hr1; apply Z.div_pos; lia).
  pose proof (round_step (shr_m r1) (loc_of_shr_record r1) Hr0) as Hrd.
  set (m2 := round_nearest_even _ _) in *.
  pose proof (shr_fexp_floor m2 (e + n1) loc_Exact ltac:(lia)) as Hf2. cbv zeta in Hf2.
  pose proof (Zdigits2_le m2 (M - (e + n1)) ltac:(lia) ltac:(lia)) as Hd2.
  rewrite fexp_le in Hf2. set (n2 := Z.max 0 _) in Hf2.
  assert (0 ≤ n2 ∧ e + n1 + n2 ≤ M) as [Hn2 He2] by lia.
  destruct (shr_fexp 53 1024 m2 (e + n1) loc_Exact) as [r2 e2]. cbn [fst snd] in Hf2. destruct Hf2 as [Hr2 ->].
  pose proof (shift_le m2 (e + n1) n2 M ltac:(lia) Hn2 He2) as Hle. rewrite <-Hr2 in Hle.
  assert (0 ≤ shr_m r2) by (rewrite Hr2; apply Z.div_pos; lia).
  destruct (shr_m r2) as [|p|p]; [done| |lia].
  assert ((e + n1 + n2 <=? 1024 - 53) = true) as -> by lia.
  cbn [below]. split; [done|]. replace (M + 1 - (e + n1 + n2)) with (Z.succ (M - (e + n1 + n2))) by lia.
  rewrite Z.pow_succ_r by lia. lia.
Qed.

Lemma Dmul_below s s' M N x y :
  below s M x → below s' N y → -1074 ≤ M + N ≤ 900 → below (xorb s s') (M + N + 1) (Dmul x y).
Proof.
  intros Hx Hy HMN. destruct x as [sx|sx| |sx mx ex], y as [sy|sy| |sy my ey]; cbn [below] in Hx, Hy; try done;
    [cbn; destruct_and?; congruence..|].
  destruct Hx as [-> Hx], Hy as [-> Hy]. unfold Dmul, SFmul. apply round_below; [|done].
  assert (ex ≤ M) by (destruct (Z.le_gt_cases ex M); [done|]; rewrite Z.pow_neg_r in Hx; lia).
  assert (ey ≤ N) by (destruct (Z.le_gt_cases ey N); [done|]; rewrite Z.pow_neg_r in Hy; lia).
  replace (M + N - (ex + ey)) with ((M - ex) + (N - ey)) by lia. rewrite Z.pow_add_r by lia.
  rewrite Pos2Z.inj_mul. nia.
Qed.

Lemma Dopp_below s M x : below s M x → below (negb s) M (Dopp x).
Proof. destruct x; cbn; try done; [by intros -> |by intros [-> ?]]. Qed.

(** The integer quotient of the division keeps the bound. *)
Lemma div_core_below mx ex my ey M N q e l :
  Zpos mx < 2 ^ (M - ex) → 2 ^ (N - ey) ≤ Zpos my → -1074 ≤ M - N →
  SFdiv_core_binary 53 1024 (Zpos mx) ex (Zpos my) ey = (q, e, l) →
  0 ≤ q < 2 ^ (M - N + 1 - e).
Proof.
  intros Hx Hy HMN. unfold SFdiv_core_binary. cbn [Zdigits2]. rewrite fexp_le.
  set (e' := Z.min _ (ex - ey)). set (s := ex - ey - e'). assert (0 ≤ s) as Hs by lia.
  pose proof (digits2_le _ _ Hx) as Hdx. pose proof (digits2_pos_bounds my) as [_ Hmy].
  assert (N - ey < Zpos (digits2_pos my)) as Hdy.
  { destruct (Z.le_gt_cases 0 (N - ey)); [|lia]. apply (Z.pow_lt_mono_r_iff 2); lia. }
  assert (e' ≤ M - N) as He' by lia.
  assert (∀ m', Z.div_eucl m' (Zpos my) = (m' / Zpos my, m' mod Zpos my)) as Hde
    by (intros m'; unfold Z.div, Z.modulo; by destruct (Z.div_eucl _ _)).
  replace (match s with Z0 => Zpos mx | Zpos _ => Z.shiftl (Zpos mx) s | Zneg _ => 0 end) with (Zpos mx * 2 ^ s).
  2:{ destruct s as [|p|p]; [lia|by rewrite Z.shiftl_mul_pow2|lia]. }
  rewrite Hde. intros [= <- <- <-]. split; [apply Z.div_pos; lia|].
  apply Z.div_lt_upper_bound; [lia|].
  assert (ex ≤ M) by (destruct (Z.le_gt_cases ex M); [done|]; rewrite Z.pow_neg_r in Hx; lia).
  destruct (Z.le_gt_cases 0 (N - ey)) as [Hey|Hey].
  - apply Z.lt_le_trans with (2 ^ (M - ex) * 2 ^ s); [nia|]. rewrite <-Z.pow_add_r by lia.
    apply Z.le_trans with (2 ^ (N - ey) * 2 ^ (M - N + 1 - e')); [|nia].
    rewrite <-Z.pow_add_r by lia. apply Z.pow_le_mono_r; lia.
  - apply Z.lt_le_trans with (2 ^ (M - ex) * 2 ^ s); [nia|]. rewrite <-Z.pow_add_r by lia.
    apply Z.le_trans with (1 * 2 ^ (M - N + 1 - e')); [|nia].
    rewrite Z.mul_1_l. apply Z.pow_le_mono_r; lia.
Qed.

Lemma Ddiv_below s s' M N x y :
  below s M x → below s' (M + 2000) y → above N y → -1074 ≤ M - N ≤ 800 →
  below (xorb s s') (M - N + 2) (Ddiv x y).
Proof.
  intros Hx Hy Hn HMN. destruct x as [sx|sx| |sx mx ex], y as [sy|sy| |sy my ey];
    cbn [below above] in Hx, Hy, Hn; try done; destruct Hy as [-> _]; [cbn; congruence|].
  destruct Hx as [-> Hx]. unfold Ddiv, SFdiv.
  destruct (SFdiv_core_binary _ _ _ _ _ _) as [[q e] l] eqn:E.
  replace (M - N + 2) with (M - N + 1 + 1) by lia. apply round_below; [|lia].
  eapply div_core_below; [exact Hx|exact Hn|lia|exact E].
Qed.

(** ** Integers *)

Lemma shl_align_pow m e e' : e' ≤ e → shl_align m e e' = (Z.to_pos (Zpos m * 2 ^ (e - e')), e').
Proof.
  intros He. unfold shl_align. destruct (e' - e) as [|p|p] eqn:E; [|lia|].
  - assert (e' = e) as -> by lia. rewrite Z.sub_diag. f_equal. change (2 ^ 0) with 1. by rewrite Z.mul_1_r.
  - f_equal. replace (e - e') with (Zpos p) by lia. rewrite <-(Pos2Z.id (Pos.iter xO m p)). f_equal.
    rewrite <-Z.shiftl_mul_pow2 by lia. cbn [Z.shiftl]. by apply Pos.iter_swap_gen.
Qed.

(** Small integers are represented. *)
Lemma double_of_Z_exact n :
  1 ≤ n < 2 ^ 53 →
  ∃ m e, double_of_Z n = S754_finite false m e ∧ Zpos m = n * 2 ^ (- e) ∧ -52 ≤ e ≤ 0.
Proof.
  intros Hn. destruct n as [|p|p]; [lia| |lia]. unfold double_of_Z, binary_normalize, binary_round.
  pose proof (digits2_pos_bounds p) as [Hlo Hhi]. pose proof (digits2_le p 53 ltac:(lia)) as Hd.
  set (d := Zpos (digits2_pos p)) in *. rewrite Z.add_0_r, fexp_le, Z.max_l by lia.
  rewrite shl_align_pow by lia. rewrite Z.sub_0_l. set (k := - (d - 53)).
  assert (0 < Zpos p * 2 ^ k) as Hpos by (apply Z.mul_pos_pos; [lia|apply Z.pow_pos_nonneg; lia]).
  rewrite Z2Pos.id by done.
  assert (2 ^ 52 ≤ Zpos p * 2 ^ k < 2 ^ 53) as Hk.
  { assert (2 ^ 52 = 2 ^ (d - 1) * 2 ^ k) as -> by (rewrite <-Z.pow_add_r by lia; f_equal; lia).
    assert (2 ^ 53 = 2 ^ d * 2 ^ k) as -> by (rewrite <-Z.pow_add_r by lia; f_equal; lia).
    assert (0 < 2 ^ k) by (apply Z.pow_pos_nonneg; lia). nia. }
  assert (digits2_pos (Z.to_pos (Zpos p * 2 ^ k)) = 53%positive) as Hdig.
  { pose proof (digits2_pos_bounds (Z.to_pos (Zpos p * 2 ^ k))) as [Hl Hh]. rewrite Z2Pos.id in Hl, Hh by done.
    assert (52 < Zpos (digits2_pos (Z.to_pos (Zpos p * 2 ^ k)))) by (apply (Z.pow_lt_mono_r_iff 2); lia).
    pose proof (digits2_le (Z.to_pos (Zpos p * 2 ^ k)) 53) as Hle. rewrite Z2Pos.id in Hle by done. lia. }
  assert (∃ m, Zpos p * 2 ^ k = Zpos m) as [m Em] by (exists (Z.to_pos (Zpos p * 2 ^ k)); by rewrite Z2Pos.id).
  rewrite Em in *. cbn [Z.to_pos] in Hdig. exists m, (d - 53). split; [|fold k; lia].
  assert (∀ l, shr_fexp 53 1024 (Zpos m) (d - 53) l = (shr_record_of_loc (Zpos m) l, d - 53)) as Hshr.
  { intros l. unfold shr_fexp. cbn [Zdigits2]. rewrite Hdig, fexp_le.
    replace (Z.max (53 + (d - 53) - 53) (-1074) - (d - 53)) with 0 by lia. done. }
  unfold binary_round_aux. rewrite Hshr. cbn [shr_record_of_loc loc_of_shr_record shr_m round_nearest_even].
  rewrite Hshr. cbn [shr_record_of_loc shr_m]. assert ((d - 53 <=? 1024 - 53) = true) as -> by lia. done.
Qed.

Lemma double_of_Z_below n M : 1 ≤ n < 2 ^ M → 0 ≤ M ≤ 53 → below false M (double_of_Z n).
Proof.
  intros Hn HM. assert (2 ^ M ≤ 2 ^ 53) by (apply Z.pow_le_mono_r; lia).
  destruct (double_of_Z_exact n) as (m & e & -> & Em & He); [lia|]. cbn. split; [done|]. rewrite Em.
  replace (M - e) with (M + - e) by lia. rewrite Z.pow_add_r by lia.
  assert (0 < 2 ^ (- e)) by (apply Z.pow_pos_nonneg; lia). nia.
Qed.

Lemma double_of_Z_above n : 1 ≤ n < 2 ^ 53 → above 0 (double_of_Z n).
Proof.
  intros Hn. destruct (double_of_Z_exact n) as (m & e & -> & Em & He); [lia|]. cbn. rewrite Em, Z.sub_0_l.
  assert (0 < 2 ^ (- e)) by (apply Z.pow_pos_nonneg; lia). nia.
Qed.

(** The ceiling of a bounded double is a bounded integer. *)
Lemma ceil_below M x : below false M x → 0 ≤ M ≤ 63 → ∃ z, size_t_of_ceil x = Ret z ∧ 0 ≤ z ≤ 2 ^ M.
Proof.
  intros Hx HM. assert (2 ^ M < 2 ^ 64) by (apply Z.pow_lt_mono_r; lia).
  assert (∃ z, ceil_int x = Some z ∧ 0 ≤ z ≤ 2 ^ M) as (z & Ez & Hz).
  { destruct x as [s|s| |s m e]; cbn [below] in Hx; try done; [exists 0; split; [done|lia]|]. destruct Hx as [-> Hm].
    eexists. split; [done|]. cbn [cond_Zopp]. destruct (Z.leb_spec 0 e) as [He|He].
    - assert (e ≤ M) by (destruct (Z.le_gt_cases e M); [done|]; rewrite Z.pow_neg_r in Hm; lia).
      replace M with ((M - e) + e) by lia. rewrite Z.pow_add_r by lia.
      assert (0 < 2 ^ e) by (apply Z.pow_pos_nonneg; lia). nia.
    - assert (0 < 2 ^ (- e)) by (apply Z.pow_pos_nonneg; lia).
      replace (M - e) with (M + - e) in Hm by lia. rewrite Z.pow_add_r in Hm by lia.
      pose proof (Z.div_mod (- Zpos m) (2 ^ (- e)) ltac:(lia)). pose proof (Z.mod_pos_bound (- Zpos m) (2 ^ (- e)) ltac:(lia)).
      split; nia. }
  exists z. unfold size_t_of_ceil. rewrite Ez, guard_go_true by lia. done.
Qed.
