(* ===== verification/KV.v ===== *)
(** * What the storage components promise to each other

    The abstract key-value state of a node, the effect of an operation on it,
    and the interface [Buffer] of an in-memory write buffer: what WAL replay,
    the server and the compactor rely on when they call the MemTable.  [Bloom]
    is the C interface of the membership filter as the SSTables use it. *)

From Stdlib Require Import Strings.Byte.
From S2P Require Import Prelude GoBytes Float64.

Local Open Scope nat_scope.

(** Key to value and tombstone flag; a tombstone is an entry, not an absence. *)
Abbreviation kv := (gmap bytes (bytes * bool)).

(** A logged operation: key, value, tombstone. *)
Abbreviation kvt := (bytes * bytes * bool)%type.

(** A deletion stores an empty value. *)
Definition op_value (r : kvt) : bytes * bool := if r.2 then ([], true) else (r.1.2, false).

Definition apply_op (m : kv) (r : kvt) : kv := <[r.1.1 := op_value r]> m.

Definition apply_ops (m : kv) (rs : list kvt) : kv := foldl apply_op m rs.

(** The answer of a lookup: value, tombstone, found. *)
Definition lookup_answer (o : option (bytes * bool)) : bytes * bool * bool :=
  match o with
  | Some (v, t) => (v, t, true)
  | None => ([], false, false)
  end.

(** Folding the callback over a list of operations. *)
Fixpoint apply_all {St} (applyFn : bytes → bytes → bool → St → go St)
    (rs : list kvt) (st : St) : go St :=
  match rs with
  | [] => Ret st
  | r :: rs => let* st := applyFn r.1.1 r.1.2 r.2 st in apply_all applyFn rs st
  end.

Class Buffer (T : Type) := {
  buf_put : T → bytes → bytes → go (T * bool);
  buf_delete : T → bytes → go (T * bool);
  buf_get : T → bytes → go (bytes * bool * bool);
  buf_rep : T → kv → Prop;
  buf_put_ok b m k v : buf_rep b m →
    ∃ b' full, buf_put b k v = Ret (b', full) ∧ buf_rep b' (<[k := (v, false)]> m);
  buf_delete_ok b m k : buf_rep b m →
    ∃ b' full, buf_delete b k = Ret (b', full) ∧ buf_rep b' (<[k := ([], true)]> m);
  buf_get_ok b m k : buf_rep b m → buf_get b k = Ret (lookup_answer (m !! k)) }.

(** The callback the daemon and the tests give to [ReplayWAL]: tombstones are
    deleted, everything else is put. *)
Definition buf_apply {T} `{Buffer T} (k v : bytes) (t : bool) (b : T) : go T :=
  let* (b, _) := (if t then buf_delete b k else buf_put b k v) in Ret b.

Section buffer.
Context {T : Type} `{Buffer T}.

Lemma buf_apply_ok k v t b m :
  buf_rep b m → ∃ b', buf_apply k v t b = Ret b' ∧ buf_rep b' (apply_op m (k, v, t)).
Proof.
  intros Hr. unfold buf_apply, apply_op, op_value. destruct t; simpl.
  - destruct (buf_delete_ok b m k Hr) as (b' & full & -> & Hr'). eauto.
  - destruct (buf_put_ok b m k v Hr) as (b' & full & -> & Hr'). eauto.
Qed.

Lemma buf_apply_all_ok rs b m :
  buf_rep b m → ∃ b', apply_all buf_apply rs b = Ret b' ∧ buf_rep b' (apply_ops m rs).
Proof.
  revert b m. induction rs as [|[[k v] t] rs IH]; intros b m Hr; simpl; [eauto|].
  destruct (buf_apply_ok k v t b m Hr) as (b1 & -> & Hr1). simpl. by apply IH.
Qed.
End buffer.

(** The membership filter behind [lumafly_bloom.h].  [bl_rep b ks]: the keys
    [ks] have been added to [b]; [bl_fits n p]: the sizes computed for [n]
    entries at rate [p] can be allocated.  The laws are those of a Bloom filter:
    no false negatives, and serialization is faithful. *)
Class Bloom (B : Type) := {
  bl_create : Z → double → go (option B);
  bl_add : B → bytes → go B;
  bl_contains : B → bytes → go bool;
  bl_size : B → Z;
  bl_serialize : B → bytes → go (bytes * Z);
  bl_deserialize : bytes → go (option B);
  bl_rep : B → list bytes → Prop;
  bl_fits : Z → double → Prop;
  bl_create_ok n p : bl_fits n p → ∃ b, bl_create n p = Ret (Some b) ∧ bl_rep b [];
  bl_add_ok b ks k : bl_rep b ks → ∃ b', bl_add b k = Ret b' ∧ bl_rep b' (k :: ks);
  bl_contains_ok b ks k : bl_rep b ks →
    ∃ r, bl_contains b k = Ret r ∧ (k ∈ ks → r = true);
  bl_size_ok b ks : bl_rep b ks → (0 < bl_size b ≤ maxAlloc)%Z;
  bl_serialize_ok b ks : bl_rep b ks →
    ∃ img, bl_serialize b (replicate (Z.to_nat (bl_size b)) x00) = Ret (img, bl_size b)
      ∧ len img = bl_size b ∧ bl_deserialize img = Ret (Some b) }.

#[global] Hint Mode Bloom ! : typeclass_instances.
