(* ===== verification/Crc32.v ===== *)
(** * [hash/crc32]: the IEEE checksum that protects WAL and SSTable records

    The bit-serial definition of [crc32.ChecksumIEEE] (reflected polynomial
    0xEDB88320, initial value and final xor all ones), that its register stays
    a 32-bit word, and the error-detection property the storage layer relies
    on: any change confined to four adjacent bytes changes the checksum. *)

From Stdlib Require Import Strings.Byte Btauto.
From S2P Require Import Prelude GoBytes.

Local Open Scope Z_scope.

(** crc32.IEEE, reversed bit order. *)
Definition IEEE : Z := 0xedb88320.
Definition crc_mask : Z := 0xffffffff.

(** One bit of the shift register. *)
Definition crc_bit (s : Z) : Z :=
  if Z.odd s then Z.lxor (Z.shiftr s 1) IEEE else Z.shiftr s 1.

Fixpoint crc_bits (n : nat) (s : Z) : Z :=
  match n with O => s | S n => crc_bits n (crc_bit s) end.

Definition crc_byte (s : Z) (b : byte) : Z := crc_bits 8 (Z.lxor s (byte_val b)).

Definition crc_update (s : Z) (bs : bytes) : Z := foldl crc_byte s bs.

(** crc32.ChecksumIEEE. *)
Definition ChecksumIEEE (bs : bytes) : Z :=
  Z.lxor (crc_update crc_mask bs) crc_mask.

(** The little-endian value of a byte string, used to state linearity. *)
Fixpoint le_val (bs : bytes) : Z :=
  match bs with
  | [] => 0
  | b :: bs => Z.lxor (byte_val b) (Z.shiftl (le_val bs) 8)
  end.

(** * Facts *)

Definition word32 (z : Z) : Prop := 0 ≤ z < 2 ^ 32.

Lemma word_bits n z :
  0 ≤ n → 0 ≤ z → (z < 2 ^ n ↔ ∀ i, n ≤ i → Z.testbit z i = false).
Proof.
  intros Hn Hz. split.
  - intros H i Hi. destruct (decide (z = 0)) as [->|]; [apply Z.bits_0|].
    apply Z.bits_above_log2; [done|].
    assert (Z.log2 z < n) by (apply Z.log2_lt_pow2; lia). lia.
  - intros H. destruct (decide (z = 0)) as [->|]; [lia|].
    apply Z.log2_lt_pow2; [lia|].
    destruct (decide (Z.log2 z < n)) as [|Hge]; [done|].
    specialize (H (Z.log2 z) ltac:(lia)). rewrite Z.bit_log2 in H; [done|lia].
Qed.

Lemma lxor_bound n x y :
  0 ≤ n → 0 ≤ x < 2 ^ n → 0 ≤ y < 2 ^ n → 0 ≤ Z.lxor x y < 2 ^ n.
Proof.
  intros Hn Hx Hy.
  assert (0 ≤ Z.lxor x y) by (apply Z.lxor_nonneg; lia).
  split; [done|]. apply word_bits; [done..|]. intros i Hi.
  rewrite Z.lxor_spec. destruct (word_bits n x), (word_bits n y); try lia.
  rewrite !H0, !H2 by tauto || lia. done.
Qed.

Lemma lxor_word32 x y : word32 x → word32 y → word32 (Z.lxor x y).
Proof. apply lxor_bound. lia. Qed.

Lemma lxor_cancel_l a x y : Z.lxor a x = Z.lxor a y → x = y.
Proof.
  intros H. apply (f_equal (Z.lxor a)) in H.
  by rewrite <-!Z.lxor_assoc, !Z.lxor_nilpotent, !Z.lxor_0_l in H.
Qed.

Lemma lxor_cancel_r a x y : Z.lxor x a = Z.lxor y a → x = y.
Proof. rewrite !(Z.lxor_comm _ a). apply lxor_cancel_l. Qed.

Lemma shiftr1_word s : word32 s → 0 ≤ Z.shiftr s 1 < 2 ^ 31.
Proof.
  unfold word32. intros H. rewrite Z.shiftr_div_pow2 by lia. change (2 ^ 1) with 2.
  split; [apply Z.div_pos; lia|]. apply Z.div_lt_upper_bound; lia.
Qed.

Lemma IEEE_word : word32 IEEE.
Proof. done. Qed.

Lemma crc_bit_word s : word32 s → word32 (crc_bit s).
Proof.
  intros H. pose proof (shiftr1_word s H). unfold crc_bit.
  destruct (Z.odd s); [apply lxor_word32|]; unfold word32, IEEE; lia.
Qed.

Lemma crc_bits_word n s : word32 s → word32 (crc_bits n s).
Proof. revert s; induction n as [|n IH]; simpl; auto using crc_bit_word. Qed.

Lemma byte_word b : word32 (byte_val b).
Proof. pose proof (byte_val_range b). unfold word32. lia. Qed.

Lemma crc_byte_word s b : word32 s → word32 (crc_byte s b).
Proof. intros H. apply crc_bits_word, lxor_word32; auto using byte_word. Qed.

Lemma crc_update_word s bs : word32 s → word32 (crc_update s bs).
Proof.
  unfold crc_update. revert s; induction bs; simpl; auto using crc_byte_word.
Qed.

(** The checksum always fits the four bytes it is stored in. *)
Lemma ChecksumIEEE_word bs : 0 ≤ ChecksumIEEE bs < 2 ^ 32.
Proof. apply lxor_word32; [|done]. by apply crc_update_word. Qed.

(** The register step is linear over xor, injective on words, and undoes a
    shift; so is its iteration. *)
Lemma crc_bit_lxor x y : crc_bit (Z.lxor x y) = Z.lxor (crc_bit x) (crc_bit y).
Proof.
  unfold crc_bit. rewrite <-!Z.bit0_odd, Z.lxor_spec, Z.shiftr_lxor.
  destruct (Z.testbit x 0), (Z.testbit y 0); simpl;
    apply Z.bits_inj_iff; intros i; rewrite ?Z.lxor_spec; btauto.
Qed.

Lemma crc_bits_lxor n x y :
  crc_bits n (Z.lxor x y) = Z.lxor (crc_bits n x) (crc_bits n y).
Proof. revert x y; induction n; intros; simpl; [done|]. by rewrite crc_bit_lxor. Qed.

Lemma crc_bit_double z : crc_bit (Z.shiftl z 1) = z.
Proof.
  unfold crc_bit. rewrite Z.shiftl_mul_pow2 by lia. rewrite Z.odd_mul, andb_false_r.
  rewrite Z.shiftr_div_pow2 by lia. by apply Z.div_mul.
Qed.

Lemma crc_bits_shiftl n z : crc_bits n (Z.shiftl z (Z.of_nat n)) = z.
Proof.
  induction n as [|n IH]; [by rewrite Z.shiftl_0_r|].
  replace (Z.of_nat (S n)) with (Z.of_nat n + 1) by lia.
  rewrite <-Z.shiftl_shiftl by lia. simpl. by rewrite crc_bit_double.
Qed.

Lemma crc_bits_add m n s : crc_bits (m + n) s = crc_bits n (crc_bits m s).
Proof. revert s; induction m; intros s; simpl; auto. Qed.

Lemma shiftr1_odd_inj s t :
  Z.shiftr s 1 = Z.shiftr t 1 → Z.odd s = Z.odd t → s = t.
Proof.
  intros H1 H2. rewrite (Z.div_mod s 2), (Z.div_mod t 2) by lia.
  rewrite !Zmod_odd, H2. rewrite !Z.shiftr_div_pow2 in H1 by lia.
  change (2 ^ 1) with 2 in H1. lia.
Qed.

Lemma crc_bit_top s : word32 s → Z.testbit (crc_bit s) 31 = Z.odd s.
Proof.
  intros H. pose proof (shiftr1_word s H) as Hs.
  assert (Z.testbit (Z.shiftr s 1) 31 = false) as E.
  { apply (proj1 (word_bits 31 (Z.shiftr s 1) ltac:(lia) ltac:(lia))); lia. }
  unfold crc_bit. destruct (Z.odd s); [|done]. by rewrite Z.lxor_spec, E.
Qed.

Lemma crc_bit_inj s t : word32 s → word32 t → crc_bit s = crc_bit t → s = t.
Proof.
  intros Hs Ht E.
  assert (Z.odd s = Z.odd t) as Eo by (rewrite <-!crc_bit_top by done; by rewrite E).
  apply shiftr1_odd_inj; [|done]. revert E. unfold crc_bit. rewrite Eo.
  destruct (Z.odd t); [apply lxor_cancel_r|done].
Qed.

Lemma crc_bits_inj n s t : word32 s → word32 t → crc_bits n s = crc_bits n t → s = t.
Proof.
  revert s t; induction n as [|n IH]; simpl; intros s t Hs Ht E; [done|].
  apply crc_bit_inj; auto using crc_bit_word.
Qed.

Lemma crc_update_inj bs s t :
  word32 s → word32 t → crc_update s bs = crc_update t bs → s = t.
Proof.
  unfold crc_update. revert s t; induction bs as [|b bs IH]; simpl; intros s t Hs Ht E; [done|].
  apply IH in E; [|by apply crc_byte_word..].
  apply crc_bits_inj in E; [|by apply lxor_word32, byte_word..].
  by apply lxor_cancel_r in E.
Qed.

(** Feeding [bs] to the register is xoring its little-endian value into it and
    shifting by its number of bits. *)
Lemma crc_update_linear s bs :
  crc_update s bs = crc_bits (length bs * 8) (Z.lxor s (le_val bs)).
Proof.
  revert s; induction bs as [|b bs IH]; intros s; simpl le_val.
  - by rewrite Z.lxor_0_r.
  - change (length (b :: bs) * 8)%nat with (8 + length bs * 8)%nat.
    rewrite crc_bits_add. change (crc_update s (b :: bs)) with (crc_update (crc_byte s b) bs).
    rewrite IH. f_equal. unfold crc_byte.
    rewrite <-(crc_bits_shiftl 8 (le_val bs)) at 1.
    rewrite <-crc_bits_lxor, Z.lxor_assoc. done.
Qed.

Lemma le_val_nonneg bs : 0 ≤ le_val bs.
Proof.
  induction bs as [|b bs IH]; simpl; [done|].
  apply Z.lxor_nonneg. rewrite Z.shiftl_nonneg. pose proof (byte_val_range b). lia.
Qed.

Lemma le_val_bound bs : 0 ≤ le_val bs < 2 ^ (8 * Z.of_nat (length bs)).
Proof.
  induction bs as [|b bs IH]; [done|]. cbn [le_val length].
  replace (8 * Z.of_nat (S (length bs))) with (8 * Z.of_nat (length bs) + 8) by lia.
  apply lxor_bound; [lia|..].
  - pose proof (byte_val_range b). rewrite Z.pow_add_r by lia.
    change (2 ^ 8) with 256. nia.
  - rewrite Z.shiftl_mul_pow2, Z.pow_add_r by lia. change (2 ^ 8) with 256. lia.
Qed.

Lemma le_val_inj a b : length a = length b → le_val a = le_val b → a = b.
Proof.
  revert b; induction a as [|x a IH]; intros [|y b] Hl; try done; simpl; intros E.
  assert (byte_val x = byte_val y) as Exy.
  { apply (f_equal (λ z, Z.land z (Z.ones 8))) in E.
    assert (∀ c w, Z.land (Z.lxor (byte_val c) (Z.shiftl w 8)) (Z.ones 8) = byte_val c) as L.
    { intros c w. pose proof (byte_val_range c). apply Z.bits_inj_iff; intros i.
      destruct (decide (i < 0)); [by rewrite !Z.testbit_neg_r by lia|].
      rewrite Z.land_spec, Z.lxor_spec, Z.testbit_ones, Z.shiftl_spec by lia.
      destruct (Z.ltb_spec i 8) as [Hi|Hi].
      - rewrite (Z.testbit_neg_r w) by lia. rewrite (proj2 (Z.leb_le 0 i)) by lia.
        by rewrite xorb_false_r, !andb_true_r.
      - rewrite !andb_false_r. symmetry.
        apply (proj1 (word_bits 8 (byte_val c) ltac:(lia) ltac:(lia))); lia. }
    by rewrite !L in E. }
  apply (inj byte_val) in Exy as ->. f_equal. apply IH; [by injection Hl|].
  apply lxor_cancel_l in E. apply (f_equal (λ z, Z.shiftr z 8)) in E.
  by rewrite !Z.shiftr_shiftl_l, !Z.shiftl_0_r in E by lia.
Qed.

(** Two strings that differ only inside a window of at most four bytes never
    have the same checksum. *)
Lemma ChecksumIEEE_burst a x y c :
  length x = length y → (length x ≤ 4)%nat → x ≠ y →
  ChecksumIEEE (a ++ x ++ c) ≠ ChecksumIEEE (a ++ y ++ c).
Proof.
  intros Hl H4 Hne E. apply Hne, le_val_inj; [done|].
  unfold ChecksumIEEE in E. apply lxor_cancel_r in E.
  unfold crc_update in E. rewrite !foldl_app in E.
  set (s := foldl crc_byte crc_mask a) in *.
  assert (word32 s) as Hs by by apply crc_update_word.
  apply crc_update_inj in E; [|by apply crc_update_word..].
  change (crc_update s x = crc_update s y) in E.
  rewrite !crc_update_linear, Hl in E.
  assert (∀ z : bytes, (length z ≤ 4)%nat → word32 (le_val z)) as Hw.
  { intros z Hz. pose proof (le_val_bound z).
    assert (2 ^ (8 * Z.of_nat (length z)) ≤ 2 ^ 32) by (apply Z.pow_le_mono_r; lia).
    unfold word32. lia. }
  apply crc_bits_inj in E; [|by apply lxor_word32; [|apply Hw; lia]..].
  by apply lxor_cancel_l in E.
Qed.

(** The check value of the CRC catalogue. *)
Example ChecksumIEEE_check : ChecksumIEEE (str "123456789") = 0xcbf43926.
Proof. vm_compute. reflexivity. Qed.
