(* ===== verification/Os.v ===== *)
(** * The operating system the program runs on

    The part of [os], [io] and [path/filepath] the storage engine uses: a file
    system of directories of named files, file handles with a position,
    positional and sequential reads, appends, [fsync] and removal.  A file
    remembers how much of it has been synced, which is what a crash keeps.

    Every call that reaches the disk can fail.  The failures are an oracle of
    the world, a list consumed one element per call; an exhausted list means
    that no further call fails, so [w_faults w = []] is the fault-free disk.

    A path is the pair of its directory and its base name, which is what
    [filepath.Join(dir, name)] builds.  Creating, truncating and removing a file
    is durable at once, although the program never syncs a directory: what is
    proved about crashes is about the bytes of files that are there. *)

From Stdlib Require Import Strings.Byte Strings.String.
From S2P Require Import Prelude GoBytes.

Local Open Scope Z_scope.

(** ** Errors

    The sentinel errors of the packages, the ones of the operating system, and
    [fmt.Errorf("...")], which makes a new error ([Errorf]) or wraps its
    cause with [%w] ([Wrapf]). *)
Inductive error :=
| EOF
| ErrUnexpectedEOF
| ErrNotExist
| ErrClosed
| ErrInvalid
| ErrIO
| ErrCRCMismatch
| ErrIncompleteRead
| ErrWALClosed
| ErrSSTableCorrupted
| ErrKeyNotFound
| ErrServerClosed
| ErrNotLeader
| Errorf (msg : string)
| Wrapf (msg : string) (cause : error).

#[global] Instance error_eq_dec : EqDecision error.
Proof. solve_decision. Defined.

(** [errors.Is] along the chain of wrapped errors. *)
Fixpoint errors_Is (e target : error) : bool :=
  bool_decide (e = target) ||
  match e with
  | Wrapf _ c => errors_Is c target
  | _ => false
  end.

(** ** The world *)

Record file := mkFile { f_data : bytes; f_synced : nat }.

Inductive dirent := DFile (f : file) | DDir.

(** [Works]: the call succeeds; [Fails k]: it fails, a write after [k] bytes. *)
Inductive fault := Works | Fails (k : nat).

Record world := mkWorld {
  w_dirs : gmap bytes (gmap bytes dirent);
  w_faults : list fault }.

Definition path : Type := bytes * bytes.

Record handle := mkHandle {
  h_path : path;
  h_pos : nat;
  h_append : bool;
  h_open : bool }.

Definition set_pos (h : handle) (p : nat) : handle :=
  mkHandle (h_path h) p (h_append h) (h_open h).

Definition lookup_file (w : world) (p : path) : option file :=
  d ← w_dirs w !! p.1; e ← d !! p.2;
  match e with DFile f => Some f | DDir => None end.

Definition insert_file (w : world) (p : path) (f : file) : world :=
  mkWorld (alter (λ d, <[p.2 := DFile f]> d) p.1 (w_dirs w)) (w_faults w).

(** ** Computations over the world *)

Definition IO (A : Type) : Type := world → go (A * world).

Definition retM {A} (a : A) : IO A := λ w, Ret (a, w).
Definition bindM {A B} (m : IO A) (k : A → IO B) : IO B :=
  λ w, match m w with
       | Ret (a, w') => k a w'
       | Panic => Panic
       | OutOfFuel => OutOfFuel
       end.
Definition liftM {A} (m : go A) : IO A :=
  λ w, match m with
       | Ret a => Ret (a, w)
       | Panic => Panic
       | OutOfFuel => OutOfFuel
       end.

Notation "'let!' x ':=' m 'in' k" := (bindM m (λ x, k))
  (at level 10, x pattern, m at level 100, k at level 200,
   format "'[v' 'let!'  x  ':='  m  'in' '//' k ']'") : hk_scope.

(** ** System calls *)

(** The outcome the oracle has for the next call. *)
Definition next_fault : IO fault :=
  λ w, match w_faults w with
       | [] => Ret (Works, w)
       | f :: fs => Ret (f, mkWorld (w_dirs w) fs)
       end.

(** [os.MkdirAll]. *)
Definition MkdirAll (dir : bytes) : IO (option error) :=
  let! f := next_fault in
  match f with
  | Fails _ => retM (Some ErrIO)
  | Works => λ w,
      match w_dirs w !! dir with
      | Some _ => Ret (None, w)
      | None => Ret (None, mkWorld (<[dir := ∅]> (w_dirs w)) (w_faults w))
      end
  end.

(** The three flag combinations of [os.OpenFile] in the program:
    [O_CREATE|O_RDWR|O_APPEND], [O_CREATE|O_RDWR|O_TRUNC] and [O_RDONLY]. *)
Inductive open_mode := OpenAppend | OpenTrunc | OpenRead.

Definition is_append (m : open_mode) : bool :=
  match m with OpenAppend => true | _ => false end.

Definition OpenFile (p : path) (m : open_mode) : IO (handle + error) :=
  let! f := next_fault in
  match f with
  | Fails _ => retM (inr ErrIO)
  | Works => λ w,
      let h := mkHandle p 0 (is_append m) true in
      match w_dirs w !! p.1 with
      | None => Ret (inr ErrNotExist, w)
      | Some d =>
          match d !! p.2, m with
          | Some DDir, _ => Ret (inr ErrIO, w)
          | Some (DFile _), OpenTrunc => Ret (inl h, insert_file w p (mkFile [] 0))
          | Some (DFile _), _ => Ret (inl h, w)
          | None, OpenRead => Ret (inr ErrNotExist, w)
          | None, _ => Ret (inl h, insert_file w p (mkFile [] 0))
          end
      end
  end.

(** A call on an open handle: the oracle first, then the file. *)
Definition with_file {A} (h : handle) (k : file → IO (A + error)) : IO (A + error) :=
  if h_open h then
    let! f := next_fault in
    match f with
    | Fails _ => retM (inr ErrIO)
    | Works => λ w,
        match lookup_file w (h_path h) with
        | Some f => k f w
        | None => Ret (inr ErrIO, w)
        end
    end
  else retM (inr ErrClosed).

(** [file.Stat().Size()]. *)
Definition Stat (h : handle) : IO (Z + error) :=
  with_file h (λ f, retM (inl (len (f_data f)))).

(** Where a write lands: at the end for [O_APPEND], else at the position. *)
Definition write_pos (h : handle) (f : file) : nat :=
  if h_append h then length (f_data f) else h_pos h.

Definition write_at (f : file) (pos : nat) (chunk : bytes) : file :=
  mkFile (take pos (f_data f) ++ replicate (pos - length (f_data f)) x00 ++ chunk
            ++ drop (pos + length chunk) (f_data f))
         (f_synced f `min` pos).

(** [file.Write]: the bytes written, the error, the moved handle. *)
Definition Write (h : handle) (data : bytes) : IO (Z * option error * handle) :=
  if h_open h then
    let! flt := next_fault in
    λ w,
      match lookup_file w (h_path h) with
      | None => Ret ((0, Some ErrIO, h), w)
      | Some f =>
          let '(chunk, e) :=
            match flt with
            | Works => (data, None)
            | Fails k => (take k data, Some ErrIO)
            end in
          let pos := write_pos h f in
          Ret ((len chunk, e, set_pos h (pos + length chunk)),
               insert_file w (h_path h) (write_at f pos chunk))
      end
  else retM (0, Some ErrClosed, h).

(** [file.Sync]. *)
Definition Fsync (h : handle) : IO (option error) :=
  let! r := with_file h (λ f w,
    Ret (inl tt, insert_file w (h_path h) (mkFile (f_data f) (length (f_data f))))) in
  retM (match r with inl _ => None | inr e => Some e end).

(** [file.Seek(0, io.SeekStart)] and [file.Seek(0, io.SeekEnd)]. *)
Definition SeekStart (h : handle) : IO (handle + error) :=
  with_file h (λ _, retM (inl (set_pos h 0))).
Definition SeekEnd (h : handle) : IO (handle + error) :=
  with_file h (λ f, retM (inl (set_pos h (length (f_data f))))).

(** [io.ReadFull(file, buf)] with [len(buf) = n]: the bytes or the error, and
    the moved handle.  An empty buffer is full without a system call. *)
Definition ReadFull (h : handle) (n : Z) : IO ((bytes + error) * handle) :=
  if n <=? 0 then retM (inl [], h) else
  let! r := with_file h (λ f, retM (inl f)) in
  match r with
  | inr e => retM (inr e, h)
  | inl f =>
      match read_full (drop (h_pos h) (f_data f)) n with
      | RFull chunk _ => retM (inl chunk, set_pos h (h_pos h + length chunk))
      | REOF => retM (inr EOF, h)
      | RUnexpectedEOF => retM (inr ErrUnexpectedEOF, set_pos h (length (f_data f)))
      end
  end.

(** [file.ReadAt(buf, off)] with [len(buf) = n]: what was read into the buffer
    (zeros past the end of the file) and the error, which is [EOF] when the
    file ends before the buffer does.  A negative offset is an error, and an
    empty buffer needs no system call. *)
Definition ReadAt (h : handle) (n off : Z) : IO (bytes * option error) :=
  if off <? 0 then retM (replicate (Z.to_nat n) x00, Some ErrIO) else
  if n =? 0 then retM ([], None) else
  let! r := with_file h (λ f, retM (inl f)) in
  match r with
  | inr e => retM (replicate (Z.to_nat n) x00, Some e)
  | inl f =>
      let chunk := take (Z.to_nat n) (drop (Z.to_nat off) (f_data f)) in
      retM (chunk ++ replicate (Z.to_nat n - length chunk) x00,
            if len chunk <? n then Some EOF else None)
  end.

(** [file.Close]: the handle is unusable afterwards even if the call fails. *)
Definition CloseFile (h : handle) : IO (option error * handle) :=
  if h_open h then
    let! f := next_fault in
    retM (match f with Works => None | Fails _ => Some ErrIO end,
          mkHandle (h_path h) (h_pos h) (h_append h) false)
  else retM (Some ErrClosed, h).

(** [os.Remove]. *)
Definition Remove (p : path) : IO (option error) :=
  let! f := next_fault in
  match f with
  | Fails _ => retM (Some ErrIO)
  | Works => λ w,
      match lookup_file w p with
      | None => Ret (Some ErrNotExist, w)
      | Some _ =>
          Ret (None, mkWorld (alter (delete p.2) p.1 (w_dirs w)) (w_faults w))
      end
  end.

(** [os.ReadDir]: the entries sorted by name, with their [IsDir]. *)
Definition is_dir (e : dirent) : bool :=
  match e with DDir => true | DFile _ => false end.

Definition dir_names (d : gmap bytes dirent) : list bytes :=
  sort_Strings (map_to_list d).*1.

Definition ReadDir (dir : bytes) : IO (list (bytes * bool) + error) :=
  let! f := next_fault in
  match f with
  | Fails _ => retM (inr ErrIO)
  | Works => λ w,
      match w_dirs w !! dir with
      | None => Ret (inr ErrNotExist, w)
      | Some d =>
          Ret (inl ((λ n, (n, default false (is_dir <$> d !! n))) <$> dir_names d), w)
      end
  end.

(** [filepath.Ext]: the suffix from the last dot of the base name. *)
Fixpoint ext_rev (rev_name acc : bytes) : bytes :=
  match rev_name with
  | [] => []
  | b :: r =>
      if bool_decide (b = x2f) then []
      else if bool_decide (b = x2e) then b :: acc
      else ext_rev r (b :: acc)
  end.

Definition Ext (name : bytes) : bytes := ext_rev (reverse name) [].

(** ** Crashes

    A crash keeps of every file what was synced.  After it there can be any
    bytes, up to the length the file had: blocks that were not synced reach the
    disk in any order, partly or not at all.  The files that exist survive, and
    the disk works again afterwards. *)
Definition file_survives (f f' : file) : Prop :=
  take (f_synced f) (f_data f) `prefix_of` f_data f'
  ∧ (length (f_data f') ≤ length (f_data f))%nat
  ∧ f_synced f' = length (f_data f').

Definition dirent_survives (e e' : dirent) : Prop :=
  match e, e' with
  | DFile f, DFile f' => file_survives f f'
  | DDir, DDir => True
  | _, _ => False
  end.

Definition crash (w w' : world) : Prop :=
  map_relation (M:=gmap bytes) (λ _, map_relation (M:=gmap bytes) (λ _, dirent_survives) (λ _ _, False) (λ _ _, False))
    (λ _ _, False) (λ _ _, False) (w_dirs w) (w_dirs w')
  ∧ w_faults w' = [].

(** * Facts *)

Lemma bindM_ret {A B} (m : IO A) (k : A → IO B) w a w' :
  m w = Ret (a, w') → bindM m k w = k a w'.
Proof. unfold bindM. by intros ->. Qed.

Lemma bindM_inv {A B} (m : IO A) (k : A → IO B) w r :
  bindM m k w = Ret r → ∃ a w', m w = Ret (a, w') ∧ k a w' = Ret r.
Proof. unfold bindM. destruct (m w) as [[a w']| |]; try done. eauto. Qed.

Lemma liftM_ret {A} (m : go A) w a : m = Ret a → liftM m w = Ret (a, w).
Proof. by intros ->. Qed.

Lemma next_fault_none w : w_faults w = [] → next_fault w = Ret (Works, w).
Proof. unfold next_fault. by intros ->. Qed.

Lemma lookup_insert_file w p f f0 :
  lookup_file w p = Some f0 → lookup_file (insert_file w p f) p = Some f.
Proof.
  unfold lookup_file, insert_file. simpl. rewrite lookup_alter_eq.
  destruct (w_dirs w !! p.1) as [d|]; simpl; [|done].
  by rewrite lookup_insert_eq.
Qed.

Lemma lookup_insert_file_eq w p f f0 g :
  lookup_file w p = Some f0 → f = g → lookup_file (insert_file w p f) p = Some g.
Proof. intros H ->. by eapply lookup_insert_file. Qed.

Lemma lookup_insert_file_ne w p q f :
  p ≠ q → lookup_file (insert_file w p f) q = lookup_file w q.
Proof.
  intros Hne. unfold lookup_file, insert_file. simpl. rewrite lookup_alter.
  case_decide as E; [|done]. rewrite E.
  destruct (w_dirs w !! q.1) as [d|]; simpl; [|done].
  rewrite lookup_insert_ne; [done|]. destruct p, q; naive_solver.
Qed.

Lemma insert_file_insert w p f g : insert_file (insert_file w p f) p g = insert_file w p g.
Proof.
  unfold insert_file. simpl. f_equal. apply map_eq. intros d.
  rewrite !lookup_alter. case_decide; [|done].
  rewrite decide_True by done.
  destruct (w_dirs w !! p.1); simpl; [|done]. by rewrite insert_insert_eq.
Qed.

Lemma lookup_file_dir w p f :
  lookup_file w p = Some f → ∃ d, w_dirs w !! p.1 = Some d ∧ d !! p.2 = Some (DFile f).
Proof.
  unfold lookup_file. destruct (w_dirs w !! p.1) as [d|]; simpl; [|done].
  destruct (d !! p.2) as [[f'|]|] eqn:E; simpl; [|done..]. intros [= ->]. eauto.
Qed.

(** At most the file at [p] differs, and no fault has been consumed. *)
Definition touches (p : path) (w w' : world) : Prop :=
  w_faults w' = w_faults w ∧ ∀ q, q ≠ p → lookup_file w' q = lookup_file w q.

#[global] Instance touches_preorder p : PreOrder (touches p).
Proof.
  split; [done|]. intros a b c [F1 H1] [F2 H2]. split; [congruence|].
  intros q Hq. by rewrite H2, H1.
Qed.

Lemma touches_insert p w f : touches p w (insert_file w p f).
Proof. split; [done|]. intros q Hq. by apply lookup_insert_file_ne. Qed.

(** The world after [MkdirAll dir]. *)
Definition made (w : world) (dir : bytes) : world :=
  match w_dirs w !! dir with
  | Some _ => w
  | None => mkWorld (<[dir := ∅]> (w_dirs w)) (w_faults w)
  end.

Lemma made_faults w dir : w_faults (made w dir) = w_faults w.
Proof. unfold made. by destruct (w_dirs w !! dir). Qed.

Lemma made_dir w dir : w_dirs (made w dir) !! dir = Some (default ∅ (w_dirs w !! dir)).
Proof.
  unfold made. destruct (w_dirs w !! dir) as [d|] eqn:E; [done|]. cbn.
  by rewrite lookup_insert_eq.
Qed.

Lemma made_exists w dir d : w_dirs w !! dir = Some d → made w dir = w.
Proof. unfold made. by intros ->. Qed.

Lemma MkdirAll_ok w dir : w_faults w = [] → MkdirAll dir w = Ret (None, made w dir).
Proof.
  intros Hw. unfold MkdirAll, made. erewrite bindM_ret by by apply next_fault_none.
  cbn beta iota. by destruct (w_dirs w !! dir).
Qed.

(** ** System calls on a fault-free disk *)

Section fault_free.
Context (w : world) (h : handle) (f : file).
Context (Hopen : h_open h = true) (Hfile : lookup_file w (h_path h) = Some f)
  (Hok : w_faults w = []).

Lemma with_file_ok {A} (k : file → IO (A + error)) : with_file h k w = k f w.
Proof using All.
  unfold with_file. rewrite Hopen. erewrite bindM_ret by by apply next_fault_none.
  simpl. by rewrite Hfile.
Qed.

Lemma Stat_ok : Stat h w = Ret (inl (len (f_data f)), w).
Proof using All. unfold Stat. by rewrite with_file_ok. Qed.

Lemma Fsync_ok :
  Fsync h w = Ret (None, insert_file w (h_path h) (mkFile (f_data f) (length (f_data f)))).
Proof using All. unfold Fsync. erewrite bindM_ret by by rewrite with_file_ok. done. Qed.

Lemma SeekStart_ok : SeekStart h w = Ret (inl (set_pos h 0), w).
Proof using All. unfold SeekStart. by rewrite with_file_ok. Qed.

Lemma SeekEnd_ok : SeekEnd h w = Ret (inl (set_pos h (length (f_data f))), w).
Proof using All. unfold SeekEnd. by rewrite with_file_ok. Qed.

Lemma Write_append_ok data :
  h_append h = true →
  Write h data w =
    Ret ((len data, None, set_pos h (length (f_data f) + length data)),
         insert_file w (h_path h)
           (mkFile (f_data f ++ data) (f_synced f `min` length (f_data f)))).
Proof using All.
  intros Ha. unfold Write. rewrite Hopen.
  erewrite bindM_ret by by apply next_fault_none. rewrite Hfile.
  unfold write_pos, write_at. rewrite Ha. do 4 f_equal.
  rewrite firstn_all, Nat.sub_diag, drop_ge by lia. simpl. by rewrite app_nil_r.
Qed.

(** A write at the end of the file through a handle without [O_APPEND]. *)
Lemma Write_end_ok data :
  h_append h = false → h_pos h = length (f_data f) →
  Write h data w =
    Ret ((len data, None, set_pos h (length (f_data f) + length data)),
         insert_file w (h_path h)
           (mkFile (f_data f ++ data) (f_synced f `min` length (f_data f)))).
Proof using All.
  intros Ha Hp. unfold Write. rewrite Hopen.
  erewrite bindM_ret by by apply next_fault_none. rewrite Hfile.
  unfold write_pos, write_at. rewrite Ha, Hp. do 4 f_equal.
  rewrite firstn_all, Nat.sub_diag, drop_ge by lia. simpl. by rewrite app_nil_r.
Qed.

Lemma ReadFull_ok n chunk rest :
  read_full (drop (h_pos h) (f_data f)) n = RFull chunk rest →
  ReadFull h n w = Ret ((inl chunk, set_pos h (h_pos h + length chunk)), w).
Proof using All.
  intros E. unfold ReadFull. destruct (Z.leb_spec n 0) as [Hn|Hn].
  - apply read_full_inv in E as [_ Hl]. destruct chunk; [|rewrite len_cons in Hl; pose proof (len_nonneg chunk); lia].
    rewrite Nat.add_0_r. by destruct h.
  - erewrite bindM_ret by by rewrite with_file_ok. cbn beta iota. by rewrite E.
Qed.

Lemma ReadFull_short n :
  len (drop (h_pos h) (f_data f)) < n →
  ∃ e h', (e = EOF ∨ e = ErrUnexpectedEOF) ∧ ReadFull h n w = Ret ((inr e, h'), w)
          ∧ h_path h' = h_path h ∧ h_open h' = true ∧ h_append h' = h_append h.
Proof using All.
  intros Hn. unfold ReadFull. pose proof (len_nonneg (drop (h_pos h) (f_data f))).
  rewrite (proj2 (Z.leb_gt _ _)) by lia. erewrite bindM_ret by by rewrite with_file_ok.
  cbn beta iota. destruct (read_full_short _ _ Hn) as [-> | ->]; eauto 10.
Qed.

Lemma ReadAt_ok n off :
  0 ≤ off → 0 ≤ n → off + n ≤ len (f_data f) →
  ReadAt h n off w =
    Ret ((take (Z.to_nat n) (drop (Z.to_nat off) (f_data f)), None), w).
Proof using All.
  intros Hoff Hn Hle. unfold ReadAt. rewrite (proj2 (Z.ltb_ge _ _)) by done.
  destruct (Z.eqb_spec n 0) as [->|_]; [done|].
  erewrite bindM_ret by by rewrite with_file_ok. simpl. unfold retM.
  unfold len in *.
  assert (length (take (Z.to_nat n) (drop (Z.to_nat off) (f_data f))) = Z.to_nat n) as L
    by (rewrite length_take, length_drop; lia).
  rewrite L, Nat.sub_diag. simpl. rewrite app_nil_r.
  by rewrite (proj2 (Z.ltb_ge _ _)) by lia.
Qed.

Lemma ReadAt_at a b c n off :
  f_data f = a ++ b ++ c → n = len b → off = len a →
  ReadAt h n off w = Ret ((b, None), w).
Proof using All.
  intros Hd -> ->. rewrite ReadAt_ok; rewrite ?Hd, ?len_app; try apply len_nonneg.
  - by rewrite !len_to_nat, drop_app_length, take_app_length.
  - pose proof (len_nonneg c). lia.
Qed.

Lemma CloseFile_ok :
  CloseFile h w = Ret ((None, mkHandle (h_path h) (h_pos h) (h_append h) false), w).
Proof using Hok Hopen.
  unfold CloseFile. rewrite Hopen. by erewrite bindM_ret by by apply next_fault_none.
Qed.
End fault_free.

Lemma OpenFile_existing w p m f :
  lookup_file w p = Some f → w_faults w = [] → m ≠ OpenTrunc →
  OpenFile p m w = Ret (inl (mkHandle p 0 (is_append m) true), w).
Proof.
  intros Hf Hw Hm. unfold OpenFile. erewrite bindM_ret by by apply next_fault_none.
  simpl. apply lookup_file_dir in Hf as (d & -> & ->). by destruct m.
Qed.

(** [O_TRUNC] empties an existing file and creates a missing one. *)
Lemma OpenFile_trunc w p d :
  w_dirs w !! p.1 = Some d → d !! p.2 ≠ Some DDir → w_faults w = [] →
  ∃ w', OpenFile p OpenTrunc w = Ret (inl (mkHandle p 0 false true), w')
    ∧ lookup_file w' p = Some (mkFile [] 0) ∧ touches p w w'.
Proof.
  intros Hd He Hw. exists (insert_file w p (mkFile [] 0)).
  split_and!; [| |apply touches_insert].
  - unfold OpenFile. erewrite bindM_ret by by apply next_fault_none. simpl. rewrite Hd.
    by destruct (d !! p.2) as [[]|].
  - unfold lookup_file, insert_file. cbn [w_dirs]. rewrite lookup_alter_eq, Hd. simpl.
    by rewrite lookup_insert_eq.
Qed.

(** After a crash every file starts with its synced part. *)
Lemma crash_lookup w w' p f :
  crash w w' → lookup_file w p = Some f →
  ∃ f', lookup_file w' p = Some f' ∧ file_survives f f'.
Proof.
  intros [Hr _] (d & Hd & He)%lookup_file_dir.
  specialize (Hr p.1). rewrite Hd in Hr. unfold lookup_file.
  destruct (w_dirs w' !! p.1) as [d'|]; simpl in *; [|done].
  specialize (Hr p.2). rewrite He in Hr.
  destruct (d' !! p.2) as [[f'|]|]; simpl in *; [|done..]. eauto.
Qed.

(** A file whose bytes are all synced survives as it was. *)
Lemma survives_synced f f' :
  file_survives f f' → f_synced f = length (f_data f) → f' = f.
Proof.
  intros (Hp & Hlen & Hs) E. rewrite E, firstn_all in Hp. destruct f as [data s], f' as [data' s']; simpl in *.
  assert (data' = data) as -> by (symmetry; by apply prefix_length_eq). congruence.
Qed.

Lemma crash_lookup_synced w w' p f :
  crash w w' → lookup_file w p = Some f → f_synced f = length (f_data f) →
  lookup_file w' p = Some f.
Proof.
  intros Hc Hf Hs. destruct (crash_lookup _ _ _ _ Hc Hf) as (f' & Hf' & Hsv).
  by rewrite <-(survives_synced _ _ Hsv Hs).
Qed.

Lemma crash_faults w w' : crash w w' → w_faults w' = [].
Proof. by intros [_ ?]. Qed.

(** ** No system call loops *)

Lemma ReadFull_no_oof h n w : ReadFull h n w ≠ OutOfFuel.
Proof.
  unfold ReadFull, with_file, bindM, next_fault, retM. destruct (n <=? 0); [done|].
  destruct (h_open h); [|done].
  destruct (w_faults w) as [|[|k] fs]; simpl; try done;
    destruct (lookup_file _ _); simpl; try done; by destruct (read_full _ _).
Qed.

Lemma bindM_no_oof {A B} (m : IO A) (k : A → IO B) w :
  m w ≠ OutOfFuel → (∀ a w', m w = Ret (a, w') → k a w' ≠ OutOfFuel) →
  bindM m k w ≠ OutOfFuel.
Proof. unfold bindM. destruct (m w) as [[a w']| |]; naive_solver. Qed.

Lemma liftM_no_oof {A} (m : go A) w : m ≠ OutOfFuel → liftM m w ≠ OutOfFuel.
Proof. by destruct m. Qed.

Lemma retM_no_oof {A} (a : A) w : retM a w ≠ OutOfFuel.
Proof. done. Qed.

Lemma OpenFile_no_oof p m w : OpenFile p m w ≠ OutOfFuel.
Proof.
  unfold OpenFile, bindM, next_fault, retM.
  destruct (w_faults w) as [|[|k] fs]; simpl; try done;
    destruct (w_dirs w !! p.1) as [d|]; try done;
    destruct (d !! p.2) as [[]|], m; done.
Qed.

Lemma CloseFile_no_oof h w : CloseFile h w ≠ OutOfFuel.
Proof.
  unfold CloseFile, bindM, next_fault, retM. destruct (h_open h); [|done].
  by destruct (w_faults w) as [|[|k] fs].
Qed.

Lemma with_file_no_oof {A} h (k : file → IO (A + error)) w :
  (∀ f w, k f w ≠ OutOfFuel) → with_file h k w ≠ OutOfFuel.
Proof.
  intros Hk. unfold with_file, bindM, next_fault, retM. destruct (h_open h); [|done].
  destruct (w_faults w) as [|[|n] fs]; simpl; try done;
    destruct (lookup_file _ _); simpl; try done; apply Hk.
Qed.

Lemma Stat_no_oof h w : Stat h w ≠ OutOfFuel.
Proof. by apply with_file_no_oof. Qed.

Lemma Fsync_no_oof h w : Fsync h w ≠ OutOfFuel.
Proof. apply bindM_no_oof; [by apply with_file_no_oof|done]. Qed.

Lemma Write_no_oof h data w : Write h data w ≠ OutOfFuel.
Proof.
  unfold Write, bindM, next_fault, retM. destruct (h_open h); [|done].
  destruct (w_faults w) as [|[|k] fs]; cbn; destruct (lookup_file _ _); done.
Qed.

Lemma ReadAt_no_oof h n off w : ReadAt h n off w ≠ OutOfFuel.
Proof.
  unfold ReadAt. destruct (off <? 0); [done|]. destruct (n =? 0); [done|].
  apply bindM_no_oof; [by apply with_file_no_oof|]. by intros [|].
Qed.

#[export] Hint Resolve ReadFull_no_oof liftM_no_oof retM_no_oof OpenFile_no_oof
  CloseFile_no_oof Stat_no_oof Fsync_no_oof Write_no_oof ReadAt_no_oof : no_oof.
