(* ===== verification/Record.v ===== *)
(** * The record format shared by the Bench WAL and the Deepnest SSTables

    [CRC32 (4) | KeyLen (4) | ValLen (4) | Tombstone (1) | Key | Value], all
    words big-endian and the checksum taken over everything after it.  The
    encoder of the WAL ([EncodeRecord]), the inline encoder of [BuildSSTable],
    and the decoding steps that [Recover] and [SSTableReader.Get] have in common;
    those of [ReplayWAL] are in [Wal.replay_record]. *)

From Stdlib Require Import Strings.Byte.
From S2P Require Import Prelude GoBytes Crc32.

Local Open Scope Z_scope.

Definition HeaderSize : Z := 13.
Definition RecordHeaderSize : Z := 13.

Definition flag_byte (b : bool) : byte := if b then x01 else x00.

(** bench.EncodeRecord: the lengths are [uint32], so the buffer length wraps. *)
Definition EncodeRecord (key value : bytes) (tombstone : bool) : go bytes :=
  let keyLen := u32 (len key) in
  let valLen := u32 (len value) in
  let totalLen := u32 (HeaderSize + keyLen + valLen) in
  let* buf := make_bytes totalLen in
  let* buf := PutUint32 buf 4 8 keyLen in
  let* buf := PutUint32 buf 8 12 valLen in
  let* buf := store buf 12 (flag_byte tombstone) in
  let* buf := copy_into buf 13 (u32 (13 + keyLen)) key in
  let* buf := copy_into buf (u32 (13 + keyLen)) (len buf) value in
  let* body := slice buf 4 (len buf) in
  let checksum := ChecksumIEEE body in
  PutUint32 buf 0 4 checksum.

(** The record of [BuildSSTable]: same layout, buffer length in [int]. *)
Definition encode_sst_record (key value : bytes) (tombstone : bool) : go bytes :=
  let keyLen := u32 (len key) in
  let valLen := u32 (len value) in
  let recordLen := RecordHeaderSize + len key + len value in
  let* recBuf := make_bytes recordLen in
  let* recBuf := PutUint32 recBuf 4 8 keyLen in
  let* recBuf := PutUint32 recBuf 8 12 valLen in
  let* recBuf := store recBuf 12 (flag_byte tombstone) in
  let* recBuf := copy_into recBuf 13 (u32 (13 + keyLen)) key in
  let* recBuf := copy_into recBuf (u32 (13 + keyLen)) (len recBuf) value in
  let* body := slice recBuf 4 (len recBuf) in
  let checksum := ChecksumIEEE body in
  PutUint32 recBuf 0 4 checksum.

(** The fields of a record header. *)
Record header := mkHeader {
  expectedCRC : Z;
  keyLen : Z;
  valLen : Z;
  hdr_tombstone : bool }.

Definition decode_header (headerBuf : bytes) : go header :=
  let* crc := Uint32 headerBuf 0 4 in
  let* kl := Uint32 headerBuf 4 8 in
  let* vl := Uint32 headerBuf 8 12 in
  let* t := index headerBuf 12 in
  Ret (mkHeader crc kl vl (bool_decide (t = x01))).

(** [bodyLen := keyLen + valLen], in [uint32]. *)
Definition bodyLen (h : header) : Z := u32 (keyLen h + valLen h).

(** The checksum of the header fields and the body, through [checkBuf]. *)
Definition actualCRC (headerBuf bodyBuf : bytes) (bl : Z) : go Z :=
  let* checkBuf := make_bytes (u32 (9 + bl)) in
  let* meta := slice headerBuf 4 13 in
  let* checkBuf := copy_into checkBuf 0 9 meta in
  let* checkBuf := copy_into checkBuf 9 (len checkBuf) bodyBuf in
  Ret (ChecksumIEEE checkBuf).

(** [bodyBuf[:keyLen]] and [bodyBuf[keyLen:]], in [SSTableReader.Get]. *)
Definition split_body (bodyBuf : bytes) (kl : Z) : go (bytes * bytes) :=
  let* key := slice bodyBuf 0 kl in
  let* val := slice bodyBuf kl (len bodyBuf) in
  Ret (key, val).

(** ** The format as a value *)

Definition payload (key value : bytes) (t : bool) : bytes :=
  be_put 4 (len key) ++ be_put 4 (len value) ++ [flag_byte t] ++ key ++ value.

Definition record (key value : bytes) (t : bool) : bytes :=
  be_put 4 (ChecksumIEEE (payload key value t)) ++ payload key value t.

(** The size guard under which the [uint32] arithmetic does not wrap. *)
Definition fits (key value : bytes) : Prop :=
  HeaderSize + len key + len value < 2 ^ 32.

#[global] Instance fits_dec key value : Decision (fits key value).
Proof. unfold fits. solve_decision. Defined.

(** * Facts *)

Ltac buf_eq := cbn [app]; rewrite <-?app_assoc; reflexivity.
Ltac len_lia :=
  unfold HeaderSize, RecordHeaderSize, maxAlloc in *;
  rewrite ?len_app, ?len_cons, ?len_nil in *; unfold len in *;
  rewrite ?length_app, ?length_be_put, ?length_replicate in *; simpl length in *; lia.

Lemma len_record key value t : len (record key value t) = 13 + len key + len value.
Proof. unfold record, payload. len_lia. Qed.

Section encode.
Context (key value : bytes) (t : bool).

(** Filling the zeroed buffer of the right size gives the record. *)
Lemma fill_record :
  len key < 2 ^ 32 → len value < 2 ^ 32 →
  let z n := replicate n x00 in
  let buf := z (Z.to_nat (13 + len key + len value)) in
  (let* buf := PutUint32 buf 4 8 (len key) in
   let* buf := PutUint32 buf 8 12 (len value) in
   let* buf := store buf 12 (flag_byte t) in
   let* buf := copy_into buf 13 (13 + len key) key in
   let* buf := copy_into buf (13 + len key) (len buf) value in
   let* body := slice buf 4 (len buf) in
   PutUint32 buf 0 4 (ChecksumIEEE body)) = Ret (record key value t).
Proof.
  intros Hk Hv z buf.
  assert (buf = z 4%nat ++ z 4%nat ++ z 4%nat ++ [x00] ++ z (length key) ++ z (length value)) as ->.
  { unfold buf, z. change [x00] with (replicate 1 x00). rewrite <-!replicate_add. f_equal.
    unfold len. lia. }
  rewrite (PutUint_at 4 _ (z 4%nat) (z 4%nat) (z 4%nat ++ [x00] ++ z (length key) ++ z (length value)))
    by (buf_eq || done || (unfold z; len_lia)).
  rewrite go_bind_ret.
  rewrite (PutUint_at 4 _ (z 4%nat ++ be_put 4 (len key)) (z 4%nat) ([x00] ++ z (length key) ++ z (length value)))
    by (buf_eq || done || (unfold z; len_lia)).
  rewrite go_bind_ret.
  rewrite (store_at _ ((z 4%nat ++ be_put 4 (len key)) ++ be_put 4 (len value)) x00 (z (length key) ++ z (length value)))
    by (buf_eq || done || (unfold z; len_lia)).
  rewrite go_bind_ret.
  rewrite (copy_into_at _ (((z 4%nat ++ be_put 4 (len key)) ++ be_put 4 (len value)) ++ [flag_byte t])
    (z (length key)) (z (length value)))
    by (buf_eq || done || (unfold z; len_lia)).
  rewrite go_bind_ret.
  rewrite (copy_into_at _ ((((z 4%nat ++ be_put 4 (len key)) ++ be_put 4 (len value)) ++ [flag_byte t]) ++ key)
    (z (length value)) [])
    by (rewrite ?app_nil_r; buf_eq || done || (unfold z; len_lia)).
  rewrite go_bind_ret.
  rewrite (slice_at _ (z 4%nat) (payload key value t) [])
    by (unfold payload; rewrite ?app_nil_r; buf_eq || done || (unfold z; len_lia)).
  rewrite go_bind_ret.
  rewrite (PutUint_at 4 _ [] (z 4%nat) (payload key value t))
    by (unfold payload; rewrite ?app_nil_r; buf_eq || done || (unfold z; len_lia)).
  done.
Qed.

Lemma EncodeRecord_record : fits key value → EncodeRecord key value t = Ret (record key value t).
Proof.
  unfold fits. intros Hf. pose proof (len_nonneg key). pose proof (len_nonneg value).
  unfold EncodeRecord, HeaderSize in *. cbv zeta.
  rewrite (u32_small (len key)), (u32_small (len value)), !u32_small by lia.
  rewrite make_bytes_ok by (unfold maxAlloc; lia). rewrite go_bind_ret.
  apply fill_record; lia.
Qed.

Lemma encode_sst_record_record :
  fits key value → encode_sst_record key value t = Ret (record key value t).
Proof.
  unfold fits, HeaderSize. intros Hf. pose proof (len_nonneg key). pose proof (len_nonneg value).
  unfold encode_sst_record, RecordHeaderSize. cbv zeta.
  rewrite (u32_small (len key)), (u32_small (len value)), !u32_small by lia.
  rewrite make_bytes_ok by (unfold maxAlloc; lia). rewrite go_bind_ret.
  apply fill_record; lia.
Qed.
End encode.

(** ** Decoding

    Any record whose two lengths do not wrap, intact or not: a stored checksum
    [c], lengths [kl] and [vl], a flag byte and a body. *)

Definition raw_header (c kl vl : Z) (fb : byte) : bytes :=
  be_put 4 c ++ be_put 4 kl ++ be_put 4 vl ++ [fb].

(** What the checksum covers. *)
Definition raw_payload (kl vl : Z) (fb : byte) (body : bytes) : bytes :=
  be_put 4 kl ++ be_put 4 vl ++ [fb] ++ body.

Definition raw_record (c kl vl : Z) (fb : byte) (body : bytes) : bytes :=
  raw_header c kl vl fb ++ body.

Lemma record_raw key value t :
  record key value t =
    raw_record (ChecksumIEEE (payload key value t)) (len key) (len value)
      (flag_byte t) (key ++ value).
Proof. unfold record, raw_record, raw_header, payload. buf_eq. Qed.

Lemma payload_raw key value t :
  payload key value t = raw_payload (len key) (len value) (flag_byte t) (key ++ value).
Proof. done. Qed.

Lemma len_raw_header c kl vl fb : len (raw_header c kl vl fb) = HeaderSize.
Proof. unfold raw_header. len_lia. Qed.

Lemma len_fits key value :
  fits key value → 0 ≤ len key ∧ 0 ≤ len value ∧ len key + len value < 2 ^ 32 - 13.
Proof. unfold fits, HeaderSize, len. lia. Qed.

Lemma flag_byte_spec t : bool_decide (flag_byte t = x01) = t.
Proof. by destruct t. Qed.

Section decode.
Context (c kl vl : Z) (fb : byte) (body : bytes).
Context (Hc : 0 ≤ c < 2 ^ 32) (Hk : 0 ≤ kl) (Hv : 0 ≤ vl) (Hkv : kl + vl < 2 ^ 32 - 13).

Lemma decode_raw_header :
  decode_header (raw_header c kl vl fb) = Ret (mkHeader c kl vl (bool_decide (fb = x01))).
Proof using Hc Hk Hv Hkv.
  unfold decode_header, raw_header.
  set (cb := be_put 4 c). set (k := be_put 4 kl). set (v := be_put 4 vl).
  rewrite (Uint_at 4 _ [] cb (k ++ v ++ [fb]) 0 4) by (buf_eq || done).
  rewrite go_bind_ret.
  rewrite (Uint_at 4 _ cb k (v ++ [fb]) 4 8) by (buf_eq || done).
  rewrite go_bind_ret.
  rewrite (Uint_at 4 _ (cb ++ k) v [fb] 8 12) by (buf_eq || done).
  rewrite go_bind_ret.
  rewrite (index_at _ (cb ++ k ++ v) fb []) by (buf_eq || done).
  rewrite go_bind_ret. unfold cb, k, v.
  by rewrite !be_get_put_small by (change (256 ^ Z.of_nat 4) with (2 ^ 32); lia).
Qed.

Lemma bodyLen_raw b : bodyLen (mkHeader c kl vl b) = kl + vl.
Proof using Hk Hv Hkv. unfold bodyLen. simpl. apply u32_small. lia. Qed.

(** [checkBuf] holds the bytes the checksum covers. *)
Lemma actualCRC_raw :
  len body = kl + vl →
  actualCRC (raw_header c kl vl fb) body (kl + vl) =
    Ret (ChecksumIEEE (raw_payload kl vl fb body)).
Proof using Hk Hv Hkv.
  intros Hb. unfold actualCRC.
  rewrite u32_small by lia. rewrite make_bytes_ok by (unfold maxAlloc; lia).
  rewrite go_bind_ret. unfold raw_header.
  set (meta := be_put 4 kl ++ be_put 4 vl ++ [fb]).
  rewrite (slice_at _ (be_put 4 c) meta []) by (rewrite ?app_nil_r; done).
  rewrite go_bind_ret.
  replace (Z.to_nat (9 + (kl + vl))) with (9 + length body)%nat by (unfold len in *; lia).
  rewrite replicate_add.
  rewrite (copy_into_at _ [] (replicate 9 x00) (replicate (length body) x00)) by done.
  rewrite go_bind_ret.
  rewrite (copy_into_at _ meta (replicate (length body) x00) [])
    by (rewrite ?app_nil_r, ?length_replicate; done || (unfold meta; len_lia)).
  rewrite go_bind_ret, app_nil_r. unfold meta, raw_payload. by rewrite <-!app_assoc.
Qed.

Lemma split_body_raw :
  len body = kl + vl →
  split_body body kl = Ret (take (Z.to_nat kl) body, drop (Z.to_nat kl) body).
Proof using Hk Hv Hkv.
  intros Hb. unfold split_body.
  assert (len (take (Z.to_nat kl) body) = kl)
    by (unfold len in *; rewrite length_take; lia).
  rewrite (slice_at _ [] (take (Z.to_nat kl) body) (drop (Z.to_nat kl) body) 0 kl)
    by (rewrite ?app_nil_l, ?take_drop; done).
  rewrite go_bind_ret.
  rewrite (slice_at _ (take (Z.to_nat kl) body) (drop (Z.to_nat kl) body) [])
    by (rewrite ?app_nil_r, ?take_drop, <-?len_app, ?take_drop; done).
  done.
Qed.
End decode.

(** ** Incomplete records

    What a crash in the middle of an append leaves: a strict prefix of a
    record, possibly nothing. *)
Definition torn (tail : bytes) : Prop :=
  ∃ key value t, fits key value ∧ tail `prefix_of` record key value t
                 ∧ tail ≠ record key value t.

Lemma torn_nil : torn [].
Proof. exists [], [], false. split; [done|]. split; [apply prefix_nil|done]. Qed.

(** What the readers take for the end of the log: less than a header, or a
    whole header with fewer bytes after it than it announces. *)
Definition incomplete (tail : bytes) : Prop :=
  len tail < HeaderSize ∨
  ∃ c kl vl fb part, tail = raw_header c kl vl fb ++ part ∧ 0 ≤ c < 2 ^ 32
    ∧ 0 ≤ kl ∧ 0 ≤ vl ∧ kl + vl < 2 ^ 32 - 13 ∧ len part < kl + vl.

Lemma torn_incomplete tail : torn tail → incomplete tail.
Proof.
  intros (key & value & t & (Hk & Hv & Hkv)%len_fits & [ext Hext] & Hne).
  destruct (decide (len tail < HeaderSize)) as [|Hge]; [by left|right].
  set (c := ChecksumIEEE (payload key value t)).
  pose proof (ChecksumIEEE_word (payload key value t)) as Hc.
  rewrite record_raw in Hext, Hne. unfold raw_record in *. fold c in Hext, Hne, Hc.
  pose proof (len_raw_header c (len key) (len value) (flag_byte t)) as Hh.
  assert (tail = raw_header c (len key) (len value) (flag_byte t) ++
                 drop (Z.to_nat HeaderSize) tail) as E.
  { rewrite <-(take_drop (Z.to_nat HeaderSize) tail) at 1. f_equal.
    apply (f_equal (take (Z.to_nat HeaderSize))) in Hext.
    rewrite !take_app_le in Hext by (unfold len, HeaderSize in *; lia).
    rewrite <-Hext. apply take_ge. unfold len, HeaderSize in *. lia. }
  exists c, (len key), (len value), (flag_byte t), (drop (Z.to_nat HeaderSize) tail).
  split_and!; try lia; [done|].
  rewrite E in Hext. rewrite <-app_assoc in Hext. apply app_inv_head in Hext.
  rewrite <-len_app, Hext, len_app.
  destruct ext as [|x ext]; [|rewrite len_cons; pose proof (len_nonneg ext); lia].
  rewrite app_nil_r in Hext. by rewrite E, Hext in Hne.
Qed.

(** ** Corruption

    Changing at most four adjacent bytes of a stored record, inside its
    checksum or anywhere after its two length fields, leaves a complete record
    whose checksum does not match. *)

Definition len_words (k v : bytes) : bytes := be_put 4 (len k) ++ be_put 4 (len v).

Lemma length_len_words k v : length (len_words k v) = 8%nat.
Proof. unfold len_words. by rewrite length_app, !length_be_put. Qed.

Lemma record_words k v t :
  record k v t =
    be_put 4 (ChecksumIEEE (payload k v t)) ++ len_words k v ++ [flag_byte t] ++ k ++ v.
Proof. unfold record, payload, len_words. by rewrite <-!app_assoc. Qed.

(** A list that starts with [p], cut beyond [p]. *)
Lemma app_cut {A} (p q a r : list A) :
  p ++ q = a ++ r → (length p ≤ length a)%nat → ∃ a', a = p ++ a' ∧ q = a' ++ r.
Proof.
  intros E Hl. exists (drop (length p) a).
  assert (a = p ++ drop (length p) a) as Ea.
  { rewrite <-(take_drop (length p) a) at 1. f_equal.
    apply (f_equal (take (length p))) in E.
    by rewrite take_app_length, take_app_le in E by lia. }
  split; [done|]. rewrite Ea, <-app_assoc in E. by apply app_inv_head in E.
Qed.

Lemma corrupt_body k v t a x y b :
  fits k v → record k v t = a ++ x ++ b → length x = length y →
  (length x ≤ 4)%nat → x ≠ y → (12 ≤ length a)%nat →
  ∃ c fb body, a ++ y ++ b = raw_record c (len k) (len v) fb body ∧ 0 ≤ c < 2 ^ 32
    ∧ len body = len k + len v ∧ c ≠ ChecksumIEEE (raw_payload (len k) (len v) fb body).
Proof.
  intros Hfit E Hl H4 Hne Ha. rewrite record_words in E.
  set (c := ChecksumIEEE (payload k v t)) in *. rewrite app_assoc in E.
  apply app_cut in E as (a' & -> & E);
    [|by rewrite length_app, length_be_put, length_len_words].
  assert (length (a' ++ y ++ b) = length ([flag_byte t] ++ k ++ v)) as Hly
    by (rewrite E, !length_app; lia).
  destruct (a' ++ y ++ b) as [|fb body] eqn:Ey; [done|].
  exists c, fb, body. split_and!; try (apply ChecksumIEEE_word).
  - rewrite <-!app_assoc, Ey. unfold raw_record, raw_header, len_words.
    by rewrite <-!app_assoc.
  - unfold len. simpl in Hly. rewrite length_app in Hly. lia.
  - unfold raw_payload, c, payload.
    change ([fb] ++ body) with (fb :: body). rewrite <-Ey, E.
    rewrite !(app_assoc (be_put 4 (len k)) (be_put 4 (len v))). fold (len_words k v).
    rewrite !(app_assoc (len_words k v) a'). by apply ChecksumIEEE_burst.
Qed.

Lemma corrupt_crc k v t a x y b :
  record k v t = a ++ x ++ b → length x = length y →
  x ≠ y → (length a + length x ≤ 4)%nat →
  ∃ c, a ++ y ++ b = raw_record c (len k) (len v) (flag_byte t) (k ++ v) ∧ 0 ≤ c < 2 ^ 32
    ∧ c ≠ ChecksumIEEE (payload k v t).
Proof.
  intros E Hl Hne Ha. rewrite record_words in E.
  set (c := ChecksumIEEE (payload k v t)) in *. rewrite (app_assoc a) in E.
  symmetry in E. apply app_cut in E as (b' & E & ->);
    [|by rewrite length_app, length_be_put; lia].
  set (cb := a ++ y ++ b').
  assert (length cb = 4%nat) as L4.
  { unfold cb. rewrite <-(length_be_put 4 c), E, !length_app. lia. }
  exists (be_get cb). split_and!.
  - unfold raw_record, raw_header. rewrite <-L4 at 1. rewrite be_put_get.
    unfold cb, len_words. by rewrite <-!app_assoc.
  - apply be_get_range.
  - pose proof (be_get_range cb) as R. rewrite L4 in R. apply R.
  - intros Ebad. apply Hne.
    assert (cb = be_put 4 c) as Ecb by (rewrite <-Ebad; rewrite <-L4 at 1; by rewrite be_put_get).
    rewrite E in Ecb. unfold cb in Ecb. rewrite <-app_assoc in Ecb. apply app_inv_head in Ecb.
    by apply (app_inj_1 y x b' b') in Ecb as [-> _].
Qed.

Lemma corrupt_record k v t a x y b :
  fits k v → record k v t = a ++ x ++ b → length x = length y →
  (length x ≤ 4)%nat → x ≠ y → (12 ≤ length a ∨ length a + length x ≤ 4)%nat →
  ∃ c fb body, a ++ y ++ b = raw_record c (len k) (len v) fb body ∧ 0 ≤ c < 2 ^ 32
    ∧ len body = len k + len v ∧ c ≠ ChecksumIEEE (raw_payload (len k) (len v) fb body).
Proof.
  intros Hfit E Hl H4 Hne [Ha|Ha]; [by eapply corrupt_body|].
  destruct (corrupt_crc k v t a x y b) as (c & Ec & Hc & Hbad); [done..|].
  exists c, (flag_byte t), (k ++ v). rewrite len_app. auto.
Qed.

(** ** Termination *)

Lemma EncodeRecord_no_oof k v t : EncodeRecord k v t ≠ OutOfFuel.
Proof. unfold EncodeRecord. auto 12 with no_oof. Qed.
Lemma encode_sst_record_no_oof k v t : encode_sst_record k v t ≠ OutOfFuel.
Proof. unfold encode_sst_record. auto 12 with no_oof. Qed.
Lemma decode_header_no_oof b : decode_header b ≠ OutOfFuel.
Proof. unfold decode_header. auto 10 with no_oof. Qed.
Lemma actualCRC_no_oof h b n : actualCRC h b n ≠ OutOfFuel.
Proof. unfold actualCRC. auto 10 with no_oof. Qed.
Lemma split_body_no_oof b n : split_body b n ≠ OutOfFuel.
Proof. unfold split_body. auto 10 with no_oof. Qed.
#[export] Hint Resolve EncodeRecord_no_oof encode_sst_record_no_oof decode_header_no_oof
  actualCRC_no_oof split_body_no_oof : no_oof.
