(* ===== verification/Wal.v ===== *)
(** * The Bench engine: the write-ahead log (pkg/bench/wal.go)

    A WAL is an append-only file [bench_0.wal] of records.  [Append] writes
    one record and, with [SyncOnWrite], syncs it; [Recover] and [ReplayWAL]
    read records until the file ends, treating an incomplete last record as
    the end and a checksum mismatch as an error.  Their loop bodies are written
    twice in the source and translated twice; [replay_record_spec] proves that
    they decode the same records.  The mutex of [WAL] makes
    every method atomic, so a method is one function on the WAL and the world. *)

From Stdlib Require Import Strings.Byte Strings.String.
From S2P Require Import Prelude GoBytes KV Crc32 Os Record.

Local Open Scope Z_scope.

Record LogEntry := mkLogEntry {
  le_CRC32 : Z;
  le_Key : bytes;
  le_Value : bytes;
  le_Tombstone : bool }.

Record WALOptions := mkWALOptions {
  SyncOnWrite : bool;
  DirPath : bytes;
  SegmentSize : Z }.

Definition DefaultWALOptions (dir : bytes) : WALOptions :=
  mkWALOptions true dir (8 * 1024 * 1024).

Record WAL := mkWAL {
  wal_opts : WALOptions;
  wal_file : handle;
  wal_closed : bool;
  wal_size : Z }.

Definition set_file (w : WAL) (h : handle) : WAL :=
  mkWAL (wal_opts w) h (wal_closed w) (wal_size w).

Definition wal_path (dir : bytes) : path := (dir, str "bench_0.wal").

(** OpenWAL. *)
Definition OpenWAL (opts : WALOptions) : IO (WAL + error) :=
  let! e := MkdirAll (DirPath opts) in
  match e with
  | Some err => retM (inr (Wrapf "failed to create wal directory" err))
  | None =>
      let! r := OpenFile (wal_path (DirPath opts)) OpenAppend in
      match r with
      | inr err => retM (inr (Wrapf "failed to open wal file" err))
      | inl file =>
          let! st := Stat file in
          match st with
          | inr err =>
              let! _ := CloseFile file in
              retM (inr (Wrapf "failed to stat wal file" err))
          | inl size => retM (inl (mkWAL opts file false size))
          end
      end
  end.

(** WAL.Append: the bytes written and the error. *)
Definition Append (w : WAL) (key value : bytes) (tombstone : bool)
    : IO (WAL * (Z * option error)) :=
  if wal_closed w then retM (w, (0, Some ErrWALClosed)) else
  let! encoded := liftM (EncodeRecord key value tombstone) in
  let! (n, err, file) := Write (wal_file w) encoded in
  let w := set_file w file in
  match err with
  | Some e => retM (w, (0, Some (Wrapf "failed to write wal entry" e)))
  | None =>
      let w := mkWAL (wal_opts w) (wal_file w) (wal_closed w) (wal_size w + n) in
      if SyncOnWrite (wal_opts w) then
        let! e := Fsync (wal_file w) in
        match e with
        | Some e => retM (w, (n, Some (Wrapf "failed to fsync wal entry" e)))
        | None => retM (w, (n, None))
        end
      else retM (w, (n, None))
  end.

(** WAL.Sync. *)
Definition Sync (w : WAL) : IO (option error) :=
  if wal_closed w then retM (Some ErrWALClosed) else Fsync (wal_file w).

(** How a turn of a record loop goes: the loop is left at the end of the file,
    left with an error, or a record was decoded.  [Recover] and [ReplayWAL] each
    have their own loop body. *)
Inductive read_step (R : Type) :=
| StepEnd
| StepHeaderErr (e : error)
| StepBodyErr (e : error)
| StepBadCRC
| StepRecord (r : R).
Arguments StepEnd {R}.
Arguments StepHeaderErr {R} e.
Arguments StepBodyErr {R} e.
Arguments StepBadCRC {R}.
Arguments StepRecord {R} r.

Definition is_eof (e : error) : bool :=
  bool_decide (e = EOF) || bool_decide (e = ErrUnexpectedEOF).

(** The fresh [key] and [val] that [Recover] copies out of [bodyBuf]. *)
Definition copy_out (bodyBuf : bytes) (keyLen valLen : Z) : go (bytes * bytes) :=
  let* key := make_bytes keyLen in
  let* src := slice bodyBuf 0 keyLen in
  let* key := copy_into key 0 (len key) src in
  let* val := make_bytes valLen in
  let* src := slice bodyBuf keyLen (len bodyBuf) in
  let* val := copy_into val 0 (len val) src in
  Ret (key, val).

(** The loop body of Recover. *)
Definition read_record (file : handle) : IO (read_step LogEntry * handle) :=
  let! (r, file) := ReadFull file HeaderSize in
  match r with
  | inr err =>
      if is_eof err then retM (StepEnd, file) else retM (StepHeaderErr err, file)
  | inl headerBuf =>
      let! hd := liftM (decode_header headerBuf) in
      let! _ := liftM (make_bytes (bodyLen hd)) in
      let! (r, file) := ReadFull file (bodyLen hd) in
      match r with
      | inr err =>
          if is_eof err then retM (StepEnd, file) else retM (StepBodyErr err, file)
      | inl bodyBuf =>
          let! crc := liftM (actualCRC headerBuf bodyBuf (bodyLen hd)) in
          if negb (expectedCRC hd =? crc) then retM (StepBadCRC, file) else
          let! (key, val) := liftM (copy_out bodyBuf (keyLen hd) (valLen hd)) in
          retM (StepRecord (mkLogEntry (expectedCRC hd) key val (hdr_tombstone hd)), file)
      end
  end.

(** The loop body of ReplayWAL, up to the call of [applyFn]: its own decoding of
    the header, its own [checkBuf], and slices of [bodyBuf] instead of copies. *)
Definition replay_record (walFile : handle) : IO (read_step kvt * handle) :=
  let! (r, walFile) := ReadFull walFile HeaderSize in
  match r with
  | inr err =>
      if is_eof err then retM (StepEnd, walFile) else retM (StepHeaderErr err, walFile)
  | inl headerBuf =>
      let! expectedCRC := liftM (Uint32 headerBuf 0 4) in
      let! keyLen := liftM (Uint32 headerBuf 4 8) in
      let! valLen := liftM (Uint32 headerBuf 8 12) in
      let! flag := liftM (index headerBuf 12) in
      let tombstone := bool_decide (flag = x01) in
      let bodyLen := u32 (keyLen + valLen) in
      let! bodyBuf := liftM (make_bytes bodyLen) in
      let! (r, walFile) := ReadFull walFile (len bodyBuf) in
      match r with
      | inr err =>
          if is_eof err then retM (StepEnd, walFile) else retM (StepBodyErr err, walFile)
      | inl bodyBuf =>
          let! checkBuf := liftM (make_bytes (u32 (9 + bodyLen))) in
          let! meta := liftM (slice headerBuf 4 13) in
          let! checkBuf := liftM (copy_into checkBuf 0 9 meta) in
          let! checkBuf := liftM (copy_into checkBuf 9 (len checkBuf) bodyBuf) in
          let actualCRC := ChecksumIEEE checkBuf in
          if negb (expectedCRC =? actualCRC) then retM (StepBadCRC, walFile) else
          let! key := liftM (slice bodyBuf 0 keyLen) in
          let! val := liftM (slice bodyBuf keyLen (len bodyBuf)) in
          retM (StepRecord (key, val, tombstone), walFile)
      end
  end.

(** The [for] loop of Recover. *)
Fixpoint recover_loop (fuel : nat) (file : handle) (entries : list LogEntry)
    : IO ((list LogEntry + error) * handle) :=
  match fuel with
  | O => λ _, OutOfFuel
  | S fuel =>
      let! (st, file) := read_record file in
      match st with
      | StepEnd => retM (inl entries, file)
      | StepHeaderErr e => retM (inr (Wrapf "failed to read wal header" e), file)
      | StepBodyErr e => retM (inr (Wrapf "failed to read wal record body" e), file)
      | StepBadCRC => retM (inr (Wrapf "expected crc" ErrCRCMismatch), file)
      | StepRecord e => recover_loop fuel file (entries ++ [e])
      end
  end.

(** Turns enough for the file behind [h]: every turn but the last consumes a
    header. *)
Definition loop_fuel (h : handle) : IO nat :=
  λ w, Ret (S (length (default [] (f_data <$> lookup_file w (h_path h)))), w).

(** WAL.Recover. *)
Definition Recover (w : WAL) : IO (WAL * (list LogEntry + error)) :=
  if wal_closed w then retM (w, inr ErrWALClosed) else
  let! r := SeekStart (wal_file w) in
  match r with
  | inr e => retM (w, inr (Wrapf "failed to seek start of wal file" e))
  | inl file =>
      let! fuel := loop_fuel file in
      let! (r, file) := recover_loop fuel file [] in
      match r with
      | inr e => retM (set_file w file, inr e)
      | inl entries =>
          let! r := SeekEnd file in
          match r with
          | inr e =>
              retM (set_file w file, inr (Wrapf "failed to seek end of wal file" e))
          | inl file => retM (set_file w file, inl entries)
          end
      end
  end.

(** ReplayWAL with the callback [applyFn] acting on a state [St]. *)
Section replay.
Context {St : Type} (applyFn : bytes → bytes → bool → St → go St).

Fixpoint replay_loop (fuel : nat) (file : handle) (st : St) (count : Z)
    : IO (St * Z * option error * handle) :=
  match fuel with
  | O => λ _, OutOfFuel
  | S fuel =>
      let! (step, file) := replay_record file in
      match step with
      | StepEnd => retM (st, count, None, file)
      | StepHeaderErr e =>
          retM (st, count, Some (Wrapf "failed to read wal header" e), file)
      | StepBodyErr e =>
          retM (st, count, Some (Wrapf "failed to read wal body" e), file)
      | StepBadCRC =>
          retM (st, count, Some (Wrapf "expected crc" ErrCRCMismatch), file)
      | StepRecord (key, val, tombstone) =>
          let! st := liftM (applyFn key val tombstone st) in
          replay_loop fuel file st (count + 1)
      end
  end.

Fixpoint replay_files (paths : list path) (st : St) (count : Z)
    : IO (St * Z * option error) :=
  match paths with
  | [] => retM (st, count, None)
  | p :: paths =>
      let! r := OpenFile p OpenRead in
      match r with
      | inr e =>
          retM (st, count, Some (Wrapf "failed to open wal file for recovery" e))
      | inl walFile =>
          let! fuel := loop_fuel walFile in
          let! (st, count, err, walFile) := replay_loop fuel walFile st count in
          let! _ := CloseFile walFile in
          match err with
          | Some e => retM (st, count, Some e)
          | None => replay_files paths st count
          end
      end
  end.

Definition wal_names (files : list (bytes * bool)) : list bytes :=
  (filter (λ f, negb (f.2) && bool_decide (Ext f.1 = str ".wal")) files).*1.

Definition ReplayWAL (dir : bytes) (st : St) : IO (St * Z * option error) :=
  let! r := ReadDir dir in
  match r with
  | inr e =>
      if errors_Is e ErrNotExist then retM (st, 0, None)
      else retM (st, 0, Some (Wrapf "failed to read wal dir" e))
  | inl files =>
      replay_files ((λ n, (dir, n)) <$> sort_Strings (wal_names files)) st 0
  end.
End replay.

(** WAL.Close. *)
Definition Close (w : WAL) : IO (WAL * option error) :=
  if wal_closed w then retM (w, None) else
  let w := mkWAL (wal_opts w) (wal_file w) true (wal_size w) in
  let! e := Fsync (wal_file w) in
  match e with
  | Some err =>
      let! (_, file) := CloseFile (wal_file w) in
      retM (set_file w file, Some err)
  | None =>
      let! (e, file) := CloseFile (wal_file w) in
      retM (set_file w file, e)
  end.

(** ** The log as a value *)



Definition record_of (r : kvt) : bytes := record r.1.1 r.1.2 r.2.
Definition fits_of (r : kvt) : Prop := fits r.1.1 r.1.2.

(** The contents of a WAL file that holds the operations [rs]. *)
Definition encode_log (rs : list kvt) : bytes := mjoin (record_of <$> rs).

Definition entry_of (r : kvt) : LogEntry :=
  mkLogEntry (ChecksumIEEE (payload r.1.1 r.1.2 r.2)) r.1.1 r.1.2 r.2.

(** * Facts *)

Lemma encode_log_app rs1 rs2 : encode_log (rs1 ++ rs2) = encode_log rs1 ++ encode_log rs2.
Proof. unfold encode_log. by rewrite fmap_app, join_app. Qed.

Lemma encode_log_cons r rs : encode_log (r :: rs) = record_of r ++ encode_log rs.
Proof. done. Qed.

Lemma length_record_of r : (13 ≤ length (record_of r))%nat.
Proof.
  pose proof (len_record r.1.1 r.1.2 r.2). unfold record_of, len in *. lia.
Qed.

Lemma length_encode_log rs : (length rs ≤ length (encode_log rs))%nat.
Proof.
  induction rs as [|r rs IH]; [done|]. rewrite encode_log_cons, length_app.
  pose proof (length_record_of r). simpl. lia.
Qed.

(** A handle that only moved. *)
Definition same_handle (h h' : handle) : Prop :=
  h_path h' = h_path h ∧ h_open h' = h_open h ∧ h_append h' = h_append h.

#[global] Instance same_handle_refl : Reflexive same_handle.
Proof. done. Qed.
#[global] Instance same_handle_trans : Transitive same_handle.
Proof. unfold same_handle. intros ??? (?&?&?) (?&?&?). split_and!; congruence. Qed.

Lemma same_handle_pos h p : same_handle h (set_pos h p).
Proof. done. Qed.

(** ** Reading from any file *)

Lemma with_file_dirs {A} h (k : file → IO (A + error)) w r w' :
  (∀ f, ∀ w1 r w2, k f w1 = Ret (r, w2) → w_dirs w2 = w_dirs w1) →
  with_file h k w = Ret (r, w') → w_dirs w' = w_dirs w.
Proof.
  intros Hk. unfold with_file. destruct (h_open h); [|by intros [= _ <-]].
  unfold bindM, next_fault.
  destruct (w_faults w) as [|[|n] fs]; simpl.
  - destruct (lookup_file w (h_path h)); [apply Hk|by intros [= _ <-]].
  - destruct (lookup_file _ (h_path h)); [|by intros [= _ <-]]. intros H. by apply Hk in H.
  - by intros [= _ <-].
Qed.

Lemma lookup_file_dirs w w' p : w_dirs w' = w_dirs w → lookup_file w' p = lookup_file w p.
Proof. unfold lookup_file. by intros ->. Qed.

Lemma with_file_get h w r w' :
  with_file h (λ f, retM (inl f)) w = Ret (r, w') →
  w_dirs w' = w_dirs w ∧
  (∀ f, r = inl f → lookup_file w (h_path h) = Some f).
Proof.
  intros H. split.
  { eapply with_file_dirs; [|done]. by intros f w1 r1 w2 [= _ <-]. }
  intros f ->. revert H. unfold with_file. destruct (h_open h); [|done].
  unfold bindM, next_fault.
  destruct (w_faults w) as [|[|n] fs]; simpl; try done.
  - destruct (lookup_file w (h_path h)); [|done]. by intros [= -> _].
  - rewrite (lookup_file_dirs w (mkWorld (w_dirs w) fs)) by done.
    destruct (lookup_file w (h_path h)); [|done]. by intros [= -> _].
Qed.

(** The data a handle reads, empty when the file is gone. *)
Definition data_of (w : world) (h : handle) : bytes :=
  default [] (f_data <$> lookup_file w (h_path h)).

Lemma ReadFull_any h n w r h' w' :
  ReadFull h n w = Ret ((r, h'), w') →
  w_dirs w' = w_dirs w ∧ same_handle h h' ∧
  (∀ chunk, r = inl chunk →
     len chunk = Z.max 0 n ∧ h_pos h' = (h_pos h + length chunk)%nat
     ∧ (h_pos h ≤ length (data_of w h) → h_pos h' ≤ length (data_of w h))%nat).
Proof.
  unfold ReadFull. destruct (Z.leb_spec n 0) as [Hn|Hn].
  { intros [= <- <- <-]. split_and!; [done..|]. intros ? [= <-]. rewrite Z.max_l, len_nil by done. simpl. split_and!; [done|lia|done]. }
  intros (r1 & w1 & H1 & H2)%bindM_inv.
  apply with_file_get in H1 as [Hd Hf]. destruct r1 as [f|e].
  - specialize (Hf f eq_refl). unfold data_of. rewrite Hf. simpl.
    destruct (read_full (drop (h_pos h) (f_data f)) n) as [chunk rest| |] eqn:E;
      injection H2 as <- <- <-; split_and!; try done.
    intros c [= <-]. apply read_full_inv in E as [E Hl]. split_and!; [done|done|].
    simpl. intros Hle. apply (f_equal length) in E.
    rewrite length_drop, length_app in E. lia.
  - injection H2 as <- <- <-. done.
Qed.

Lemma liftM_inv {A} (m : go A) w r : liftM m w = Ret r → ∃ a, m = Ret a ∧ r = (a, w).
Proof. unfold liftM. destruct m; try done. intros [= <-]. eauto. Qed.

(** ** One decoder, written twice *)

(** Copying out of the body and slicing it give the same bytes, or both panic. *)
Lemma copy_out_split body kl vl :
  0 ≤ kl < 2 ^ 32 → 0 ≤ vl < 2 ^ 32 → len body = u32 (kl + vl) →
  copy_out body kl vl = split_body body kl.
Proof.
  intros Hk Hv Hb. unfold copy_out, split_body.
  rewrite !make_bytes_ok by (unfold maxAlloc; lia). rewrite go_bind_ret.
  assert (kl + vl < 2 ^ 32 ∨ u32 (kl + vl) < kl) as [Hs|Hw].
  { destruct (decide (kl + vl < 2 ^ 32)); [by left|right]. unfold u32.
    replace (kl + vl) with (kl + vl - 2 ^ 32 + 1 * 2 ^ 32) by lia.
    rewrite Z_mod_plus_full, Z.mod_small; lia. }
  - rewrite u32_small in Hb by lia. set (a := take (Z.to_nat kl) body). set (b := drop (Z.to_nat kl) body).
    assert (length a = Z.to_nat kl) as La by (unfold a, len in *; rewrite length_take; lia).
    assert (length b = Z.to_nat vl) as Lb by (unfold b, len in *; rewrite length_drop; lia).
    assert (body = a ++ b) as Eb by (symmetry; apply take_drop).
    rewrite (slice_at body [] a b 0 kl) by (done || (rewrite ?len_nil; unfold len; lia)).
    rewrite (slice_at body a b [] kl (len body))
      by (rewrite ?app_nil_r; done || (rewrite ?Hb; unfold len; lia)).
    rewrite !go_bind_ret. rewrite (copy_into_at _ [] (replicate (Z.to_nat kl) x00) [])
      by (rewrite ?app_nil_r, ?length_replicate; done).
    rewrite !go_bind_ret. rewrite (copy_into_at _ [] (replicate (Z.to_nat vl) x00) [])
      by (rewrite ?app_nil_r, ?length_replicate; done).
    rewrite !go_bind_ret, !app_nil_r. done.
  - assert (slice body 0 kl = Panic) as ->; [|done]. unfold slice, in_bounds.
    rewrite (proj2 (Z.leb_gt kl (len body))) by lia. by rewrite andb_false_r.
Qed.

Lemma copy_out_no_oof body kl vl : copy_out body kl vl ≠ OutOfFuel.
Proof. unfold copy_out. repeat (apply go_bind_no_oof; [auto with no_oof|intros]). done. Qed.
#[local] Hint Resolve copy_out_no_oof : no_oof.

(** What [ReplayWAL] passes on of a record that [Recover] returns. *)
Definition op_of_entry (e : LogEntry) : kvt := (le_Key e, le_Value e, le_Tombstone e).

Definition step_op (st : read_step LogEntry) : read_step kvt :=
  match st with
  | StepEnd => StepEnd
  | StepHeaderErr e => StepHeaderErr e
  | StepBodyErr e => StepBodyErr e
  | StepBadCRC => StepBadCRC
  | StepRecord e => StepRecord (op_of_entry e)
  end.

Lemma Uint32_word b lo hi v : Uint32 b lo hi = Ret v → 0 ≤ v < 2 ^ 32.
Proof.
  unfold Uint. intros (s & _ & H)%go_bind_Ret_inv. apply guard_go_Ret_inv in H as [H [= <-]].
  pose proof (be_get_range (take 4 s)) as Hr. rewrite length_take in Hr.
  apply Z.leb_le in H. unfold len in H. rewrite Nat.min_l in Hr by lia. done.
Qed.

Lemma bindM_bindM {A B C} (m : IO A) (k : A → IO B) (k' : B → IO C) w :
  bindM (bindM m k) k' w = bindM m (λ a, bindM (k a) k') w.
Proof. unfold bindM. by destruct (m w) as [[]| |]. Qed.

Lemma bindM_ext {A B} (m : IO A) (k k' : A → IO B) w :
  (∀ a w', m w = Ret (a, w') → k a w' = k' a w') → bindM m k w = bindM m k' w.
Proof. intros H. unfold bindM. destruct (m w) as [[]| |]; auto. Qed.

Lemma bindM_liftM {A B} (m : go A) (k : A → IO B) w :
  bindM (liftM m) k w = match m with Ret a => k a w | Panic => Panic | OutOfFuel => OutOfFuel end.
Proof. by destruct m. Qed.

(** The loop body of [ReplayWAL] does what that of [Recover] does, on every file
    and every disk: the same reads, the same end, errors and panics, and the
    fields of the same record. *)
Lemma replay_record_spec h w :
  replay_record h w = (let! (st, h') := read_record h in retM (step_op st, h')) w.
Proof.
  unfold replay_record, read_record. rewrite bindM_bindM. apply bindM_ext.
  intros [[hb|e] h1] w1 _; [|by destruct (is_eof e)].
  unfold decode_header. rewrite bindM_bindM, !bindM_liftM.
  destruct (Uint32 hb 0 4) as [crc| |]; [|done..]. rewrite !bindM_liftM. cbn [bind_go].
  destruct (Uint32 hb 4 8) as [kl| |] eqn:Ek; [|done..]. rewrite !bindM_liftM. cbn [bind_go].
  destruct (Uint32 hb 8 12) as [vl| |] eqn:Ev; [|done..]. rewrite !bindM_liftM. cbn [bind_go].
  destruct (index hb 12) as [fl| |]; [|done..]. cbn [bind_go].
  apply Uint32_word in Ek, Ev. set (hd := mkHeader _ _ _ _). change (u32 (kl + vl)) with (bodyLen hd).
  pose proof (u32_range (kl + vl)) as Hbl. change (u32 (kl + vl)) with (bodyLen hd) in Hbl.
  rewrite !bindM_bindM, !bindM_liftM, make_bytes_ok by (unfold maxAlloc; lia).
  unfold len at 1. rewrite length_replicate, Z2Nat.id by lia.
  rewrite bindM_bindM. apply bindM_ext. intros [[bb|e] h2] w2 Hr; [|by destruct (is_eof e)].
  apply ReadFull_any in Hr as (_ & _ & Hr). destruct (Hr bb eq_refl) as [Hlb _].
  unfold actualCRC. rewrite !bindM_bindM, !bindM_liftM.
  destruct (make_bytes _) as [cb| |]; [|done..]. rewrite !bindM_liftM. cbn [bind_go].
  destruct (slice hb 4 13) as [meta| |]; [|done..]. rewrite !bindM_liftM. cbn [bind_go].
  destruct (copy_into cb 0 9 meta) as [cb1| |]; [|done..]. rewrite !bindM_liftM. cbn [bind_go].
  destruct (copy_into cb1 9 _ bb) as [cb2| |]; [|done..]. cbn [bind_go].
  change (expectedCRC hd) with crc. destruct (negb _); [done|].
  rewrite !bindM_bindM, !bindM_liftM. cbn [keyLen valLen hdr_tombstone hd].
  rewrite Z.max_r in Hlb by lia. rewrite copy_out_split by done. unfold split_body.
  destruct (slice bb 0 kl) as [key| |]; [|done..]. rewrite bindM_liftM. cbn [bind_go].
  by destruct (slice bb kl _) as [val| |].
Qed.

Lemma replay_record_ret h w st h' w' :
  read_record h w = Ret ((st, h'), w') → replay_record h w = Ret ((step_op st, h'), w').
Proof. intros H. rewrite replay_record_spec. unfold bindM. by rewrite H. Qed.

Section read_record.
Context (w : world) (f : file).
Context (Hok : w_faults w = []).

(** A complete record, intact or not, is read whole and its checksum decides. *)
Lemma read_record_raw h pre c kl vl fb body rest :
  h_open h = true → lookup_file w (h_path h) = Some f →
  f_data f = pre ++ raw_record c kl vl fb body ++ rest → h_pos h = length pre →
  0 ≤ c < 2 ^ 32 → 0 ≤ kl → 0 ≤ vl → kl + vl < 2 ^ 32 - 13 → len body = kl + vl →
  read_record h w =
    Ret ((if c =? ChecksumIEEE (raw_payload kl vl fb body)
          then StepRecord (mkLogEntry c (take (Z.to_nat kl) body) (drop (Z.to_nat kl) body)
                             (bool_decide (fb = x01)))
          else StepBadCRC,
          set_pos h (length pre + length (raw_record c kl vl fb body))), w).
Proof using Hok.
  intros Hopen Hf Hdata Hpos Hc Hk Hv Hkv Hb. unfold read_record, raw_record in *.
  set (hd := raw_header c kl vl fb) in *.
  pose proof (len_raw_header c kl vl fb) as Hh. fold hd in Hh.
  rewrite <-app_assoc in Hdata.
  erewrite bindM_ret.
  2:{ apply (ReadFull_ok w h f Hopen Hf Hok _ hd (body ++ rest)).
      rewrite Hpos, Hdata, drop_app_length. by apply read_full_app. }
  cbn beta iota. erewrite bindM_ret by by apply liftM_ret, decode_raw_header.
  erewrite bindM_ret.
  2:{ apply liftM_ret, make_bytes_ok. rewrite bodyLen_raw by done. unfold maxAlloc. lia. }
  rewrite bodyLen_raw by done.
  erewrite bindM_ret.
  2:{ apply (ReadFull_ok w (set_pos h (h_pos h + length hd)) f) with (chunk := body) (rest := rest);
        [done..|]. cbn [h_pos set_pos f_data]. rewrite Hpos, Hdata, app_assoc, <-length_app, drop_app_length.
      by apply read_full_app. }
  cbn beta iota. erewrite bindM_ret by by apply liftM_ret, actualCRC_raw.
  cbn [expectedCRC h_pos set_pos]. rewrite length_app, Hpos, Nat.add_assoc.
  destruct (c =? _); cbn [negb]; [|done].
  cbn [keyLen valLen hdr_tombstone expectedCRC]. rewrite copy_out_split by (rewrite ?u32_small; lia).
  erewrite bindM_ret by by eapply liftM_ret, (split_body_raw kl vl). done.
Qed.

Lemma read_record_intact h pre r rest :
  h_open h = true → lookup_file w (h_path h) = Some f →
  f_data f = pre ++ record_of r ++ rest → h_pos h = length pre → fits_of r →
  read_record h w =
    Ret ((StepRecord (entry_of r), set_pos h (length pre + length (record_of r))), w).
Proof using Hok.
  intros Hopen Hf Hdata Hpos (Hk & Hv & Hkv)%len_fits. destruct r as [[key value] t].
  unfold record_of in *. cbn [fst snd] in *. rewrite record_raw in *.
  erewrite read_record_raw by (done || apply ChecksumIEEE_word || by rewrite len_app).
  rewrite <-payload_raw, Z.eqb_refl, flag_byte_spec.
  unfold entry_of. cbn [fst snd]. rewrite len_to_nat, take_app_length, drop_app_length. done.
Qed.

(** An incomplete record ends the log. *)
Lemma read_record_incomplete h pre tail :
  h_open h = true → lookup_file w (h_path h) = Some f →
  f_data f = pre ++ tail → h_pos h = length pre → incomplete tail →
  ∃ h', read_record h w = Ret ((StepEnd, h'), w) ∧ same_handle h h'.
Proof using Hok.
  intros Hopen Hf Hdata Hpos [Hs|(c & kl & vl & fb & part & -> & Hc & Hk & Hv & Hkv & Hp)];
    unfold read_record.
  - destruct (ReadFull_short w h f Hopen Hf Hok HeaderSize) as (e & h' & He & Hr & Hh).
    { by rewrite Hpos, Hdata, drop_app_length. }
    erewrite bindM_ret by done. cbn beta iota.
    exists h'. destruct Hh as (?&?&?). split; [by destruct He as [-> | ->]|].
    unfold same_handle. split_and!; congruence.
  - set (hd := raw_header c kl vl fb) in *.
    pose proof (len_raw_header c kl vl fb) as Hh. fold hd in Hh.
    erewrite bindM_ret.
    2:{ apply (ReadFull_ok w h f Hopen Hf Hok _ hd part).
        rewrite Hpos, Hdata, drop_app_length. by apply read_full_app. }
    cbn beta iota. erewrite bindM_ret by by apply liftM_ret, decode_raw_header.
    erewrite bindM_ret.
    2:{ apply liftM_ret, make_bytes_ok. rewrite bodyLen_raw by done. unfold maxAlloc. lia. }
    rewrite bodyLen_raw by done.
    destruct (ReadFull_short w (set_pos h (h_pos h + length hd)) f Hopen Hf Hok (kl + vl))
      as (e & h' & He & Hr & Hh').
    { cbn [h_pos set_pos]. rewrite Hpos, Hdata, app_assoc, <-length_app, drop_app_length. done. }
    erewrite bindM_ret by done. cbn beta iota.
    exists h'. destruct Hh' as (?&?&?). split; [by destruct He as [-> | ->]|].
    unfold same_handle. split_and!; done || congruence.
Qed.
End read_record.

(** ** The loops over an intact prefix *)

(** On a fault-free disk a turn either reaches the end, finds a bad checksum or
    yields a record, or else a slice is out of range. *)
Lemma ReadFull_fault_free w f h n :
  w_faults w = [] → h_open h = true → lookup_file w (h_path h) = Some f →
  ∃ r h', ReadFull h n w = Ret ((r, h'), w) ∧ (∀ e, r = inr e → is_eof e = true)
    ∧ same_handle h h'.
Proof.
  intros Hw Ho Hf. unfold ReadFull. destruct (n <=? 0); [by do 2 eexists|].
  erewrite bindM_ret by by erewrite with_file_ok. cbn beta iota.
  destruct (read_full _ n); do 2 eexists; (split; [done|]); (split; [|done]); by intros e [= <-].
Qed.

Lemma read_record_fault_free w f h :
  w_faults w = [] → h_open h = true → lookup_file w (h_path h) = Some f →
  read_record h w = Panic ∨
  ∃ st h', read_record h w = Ret ((st, h'), w) ∧ same_handle h h'
    ∧ (st = StepEnd ∨ st = StepBadCRC ∨ ∃ e, st = StepRecord e).
Proof.
  intros Hw Ho Hf. unfold read_record.
  destruct (ReadFull_fault_free w f h HeaderSize Hw Ho Hf) as (r & h1 & E1 & He & Hh1).
  erewrite bindM_ret by done. cbn beta iota.
  destruct r as [hb|e]; [|rewrite (He e) by done; right; do 2 eexists; split; [done|]; eauto].
  rewrite bindM_liftM. pose proof (decode_header_no_oof hb).
  destruct (decode_header hb) as [hd| |]; [|by left|done].
  rewrite bindM_liftM. pose proof (make_bytes_no_oof (bodyLen hd)).
  destruct (make_bytes (bodyLen hd)) as [b| |]; [|by left|done].
  destruct (ReadFull_fault_free w f h1 (bodyLen hd) Hw) as (r & h2 & E2 & He2 & Hh2);
    [destruct Hh1 as (Hp & Ho1 & _); congruence..|].
  assert (same_handle h h2) by by etransitivity.
  erewrite bindM_ret by done. cbn beta iota.
  destruct r as [bb|e]; [|rewrite (He2 e) by done; right; do 2 eexists; split; [done|]; eauto].
  rewrite bindM_liftM. pose proof (actualCRC_no_oof hb bb (bodyLen hd)).
  destruct (actualCRC hb bb (bodyLen hd)) as [crc| |]; [|by left|done].
  destruct (negb _); [right; do 2 eexists; split; [done|]; eauto|]. rewrite bindM_liftM.
  pose proof (copy_out_no_oof bb (keyLen hd) (valLen hd)).
  destruct (copy_out _ _ _) as [[key val]| |]; [|by left|done]. right; do 2 eexists; split; [done|]; eauto.
Qed.

(** Whatever the bytes, the loop keeps what it has decoded, and only a bad
    checksum makes it fail. *)
Lemma recover_loop_keeps w f fuel h acc :
  w_faults w = [] → h_open h = true → lookup_file w (h_path h) = Some f →
  match recover_loop fuel h acc w with
  | Ret ((r, h'), w') => w' = w ∧ same_handle h h' ∧
      match r with
      | inl es => acc `prefix_of` es
      | inr e => errors_Is e ErrCRCMismatch = true
      end
  | _ => True
  end.
Proof.
  intros Hw. revert h acc. induction fuel as [|fuel IH]; intros h acc Ho Hf; [done|].
  cbn [recover_loop].
  destruct (read_record_fault_free w f h Hw Ho Hf) as [E|(st & h1 & E & Hh & Hst)].
  { unfold bindM. by rewrite E. }
  erewrite bindM_ret by done. cbn beta iota.
  destruct Hst as [->|[->|[e ->]]]; [by split_and!..|].
  pose proof Hh as (Hp & Ho1 & _).
  specialize (IH h1 (acc ++ [e]) ltac:(congruence) ltac:(congruence)).
  destruct (recover_loop fuel h1 (acc ++ [e]) w) as [[[r h'] w']| |]; [|done..].
  destruct IH as (-> & Hh' & IH). split_and!; [done|by etransitivity|].
  destruct r as [es|]; [|done]. etransitivity; [|exact IH]. by eexists.
Qed.

Section loops.
Context (w : world) (f : file).
Context (Hok : w_faults w = []).

Lemma recover_loop_skip rs h pre tail acc fuel :
  h_open h = true → lookup_file w (h_path h) = Some f →
  f_data f = pre ++ encode_log rs ++ tail → h_pos h = length pre →
  Forall fits_of rs →
  recover_loop (length rs + fuel) h acc w =
    recover_loop fuel (set_pos h (length pre + length (encode_log rs)))
      (acc ++ (entry_of <$> rs)) w.
Proof using Hok.
  revert h pre acc. induction rs as [|r rs IH]; intros h pre acc Ho Hf Hd Hp Hfit.
  - simpl. rewrite app_nil_r, Nat.add_0_r, <-Hp. by destruct h.
  - apply Forall_cons in Hfit as [Hr Hrs]. rewrite encode_log_cons, <-app_assoc in Hd.
    cbn [recover_loop length Nat.add].
    erewrite bindM_ret by (eapply read_record_intact; done).
    cbn beta iota. rewrite (IH _ (pre ++ record_of r)); try done.
    + rewrite encode_log_cons, !length_app, fmap_cons, <-app_assoc, Nat.add_assoc. done.
    + by rewrite <-app_assoc.
    + by rewrite length_app.
Qed.

Lemma replay_loop_skip {St} (applyFn : bytes → bytes → bool → St → go St)
    rs h pre tail st st' count fuel :
  h_open h = true → lookup_file w (h_path h) = Some f →
  f_data f = pre ++ encode_log rs ++ tail → h_pos h = length pre →
  Forall fits_of rs → apply_all applyFn rs st = Ret st' →
  replay_loop applyFn (length rs + fuel) h st count w =
    replay_loop applyFn fuel (set_pos h (length pre + length (encode_log rs)))
      st' (count + Z.of_nat (length rs)) w.
Proof using Hok.
  revert h pre st count. induction rs as [|r rs IH]; intros h pre st count Ho Hf Hd Hp Hfit Ha.
  - simpl in *. injection Ha as ->. rewrite Nat.add_0_r, Z.add_0_r, <-Hp. by destruct h.
  - apply Forall_cons in Hfit as [Hr Hrs]. rewrite encode_log_cons, <-app_assoc in Hd.
    simpl in Ha. apply go_bind_Ret_inv in Ha as (st1 & Ha1 & Ha).
    cbn [replay_loop length Nat.add].
    erewrite bindM_ret by (eapply replay_record_ret, read_record_intact; done).
    destruct r as [[k v] t]. cbn beta iota delta [step_op op_of_entry entry_of le_Key le_Value le_Tombstone fst snd].
    erewrite bindM_ret by by apply liftM_ret. set (r := (k, v, t)) in *. rewrite (IH _ (pre ++ record_of r)); try done.
    + rewrite encode_log_cons, !length_app, Nat.add_assoc.
      replace (count + 1 + Z.of_nat (length rs)) with (count + Z.of_nat (S (length rs))) by lia.
      done.
    + by rewrite <-app_assoc.
    + by rewrite length_app.
Qed.
End loops.

(** ** Prefixes of a log *)

Lemma prefix_cut {A} (p a b : list A) :
  p `prefix_of` a ++ b →
  (length p < length a ∧ p `prefix_of` a)%nat
  ∨ ∃ q, p = a ++ q ∧ q `prefix_of` b.
Proof.
  intros [k Hk]. destruct (decide (length p < length a)%nat) as [Hlt|Hge]; [left|right].
  - split; [done|]. exists (drop (length p) a).
    rewrite <-(take_drop (length p) a) at 1. f_equal.
    apply (f_equal (take (length p))) in Hk.
    by rewrite take_app_length, take_app_le in Hk by lia.
  - exists (drop (length a) p).
    assert (p = a ++ drop (length a) p) as E.
    { rewrite <-(take_drop (length a) p) at 1. f_equal.
      apply (f_equal (take (length a))) in Hk.
      by rewrite take_app_length, take_app_le in Hk by lia. }
    split; [done|]. exists k. rewrite E, <-app_assoc in Hk. by apply app_inv_head in Hk.
Qed.

(** A prefix of a log is the log of its first [n] operations and a torn tail
    that stops before the next one is complete. *)
Lemma prefix_of_log p rs :
  p `prefix_of` encode_log rs → Forall fits_of rs →
  ∃ n tail, p = encode_log (take n rs) ++ tail ∧ torn tail ∧ (n ≤ length rs)%nat
    ∧ (n < length rs → length p < length (encode_log (take (S n) rs)))%nat.
Proof.
  revert p; induction rs as [|r rs IH]; intros p Hp Hfit.
  - apply prefix_nil_inv in Hp as ->. exists 0%nat, []. split_and!; auto using torn_nil.
  - apply Forall_cons in Hfit as [Hr Hrs]. rewrite encode_log_cons in Hp.
    apply prefix_cut in Hp as [[Hlt Hp]|(q & -> & Hq)].
    + exists 0%nat, p. split_and!; [done| |simpl; lia|].
      * exists r.1.1, r.1.2, r.2. fold (record_of r). split_and!; try done.
        intros ->. lia.
      * intros _. simpl take. rewrite take_0, encode_log_cons, length_app. lia.
    + destruct (IH q Hq Hrs) as (n & tail & -> & Ht & Hn & Hlt).
      exists (S n), tail. split_and!; [|done|simpl; lia|].
      * simpl take. by rewrite encode_log_cons, <-app_assoc.
      * intros Hn'. simpl in Hn'. change (take (S (S n)) (r :: rs)) with (r :: take (S n) rs).
        rewrite encode_log_cons, !length_app in *. specialize (Hlt ltac:(lia)). lia.
Qed.

Lemma encode_log_take_mono m n rs :
  (m ≤ n)%nat → (length (encode_log (take m rs)) ≤ length (encode_log (take n rs)))%nat.
Proof.
  intros H. replace (take m rs) with (take m (take n rs)).
  - rewrite <-(take_drop m (take n rs)) at 2. rewrite encode_log_app, length_app. lia.
  - rewrite take_take. f_equal. lia.
Qed.

(** ** Any file at all

    Whatever the bytes and whatever the disk does, a turn of the record loop
    leaves the disk alone and, when it yields a record, has moved past at
    least a header without leaving the file. *)

Lemma read_record_any h w st h' w' :
  read_record h w = Ret ((st, h'), w') →
  w_dirs w' = w_dirs w ∧ same_handle h h' ∧
  (∀ e, st = StepRecord e →
     (h_pos h + 13 ≤ h_pos h')%nat
     ∧ (h_pos h ≤ length (data_of w h) → h_pos h' ≤ length (data_of w h))%nat).
Proof.
  unfold read_record. intros ([r h1] & w1 & H1 & H2)%bindM_inv.
  apply ReadFull_any in H1 as (Hd1 & Hh1 & Hc1).
  destruct r as [hb|e]; [|by destruct (is_eof e); injection H2 as <- <- <-].
  apply bindM_inv in H2 as (hd & w2 & H2 & H3). apply liftM_inv in H2 as (? & _ & [= -> ->]).
  apply bindM_inv in H3 as (? & w3 & H3 & H4). apply liftM_inv in H3 as (? & _ & [= -> ->]).
  apply bindM_inv in H4 as ([r h2] & w4 & H4 & H5).
  apply ReadFull_any in H4 as (Hd2 & Hh2 & Hc2).
  assert (data_of w1 h1 = data_of w h) as Ed.
  { unfold data_of. destruct Hh1 as (-> & _). by rewrite (lookup_file_dirs w w1). }
  assert (same_handle h h2) by by etransitivity.
  destruct r as [bb|e]; [|by destruct (is_eof e); injection H5 as <- <- <-; split_and!; try congruence].
  apply bindM_inv in H5 as (crc & w5 & H5 & H6). apply liftM_inv in H5 as (? & _ & [= -> ->]).
  destruct (negb _); [by injection H6 as <- <- <-; split_and!; try congruence|].
  apply bindM_inv in H6 as ([key val] & w6 & H6 & H7). apply liftM_inv in H6 as (? & _ & [= _ ->]).
  injection H7 as <- <- <-. split_and!; [congruence|done|]. intros _ _.
  destruct (Hc1 hb eq_refl) as (Hl1 & Hp1 & Hb1), (Hc2 bb eq_refl) as (Hl2 & Hp2 & Hb2).
  rewrite Ed in Hb2. unfold HeaderSize, len in *. lia.
Qed.

Lemma read_record_no_oof h w : read_record h w ≠ OutOfFuel.
Proof.
  unfold read_record. apply bindM_no_oof; [auto with no_oof|]. intros [[hb|e] h1] w1 _;
    [|by destruct (is_eof e)].
  apply bindM_no_oof; [auto with no_oof|]. intros hd w2 _.
  apply bindM_no_oof; [auto with no_oof|]. intros _ w3 _.
  apply bindM_no_oof; [auto with no_oof|]. intros [[bb|e] h2] w4 _;
    [|by destruct (is_eof e)].
  apply bindM_no_oof; [auto with no_oof|]. intros crc w5 _.
  destruct (negb _); [done|].
  apply bindM_no_oof; [auto with no_oof|]. by intros [] w6 _.
Qed.

(** What one yielded record does to the measure of the loops. *)
Lemma read_record_measure h w e h' w' fuel :
  read_record h w = Ret ((StepRecord e, h'), w') →
  (h_pos h ≤ length (data_of w h))%nat → (length (data_of w h) - h_pos h < S fuel)%nat →
  (h_pos h' ≤ length (data_of w' h'))%nat ∧ (length (data_of w' h') - h_pos h' < fuel)%nat.
Proof.
  intros (Hd & (Hp & _) & Hr)%read_record_any Hle Hlt.
  destruct (Hr e eq_refl) as [H13 Hb].
  assert (data_of w' h' = data_of w h) as ->
    by (unfold data_of; rewrite Hp; by rewrite (lookup_file_dirs w w')).
  specialize (Hb Hle). lia.
Qed.

Lemma recover_loop_terminates fuel h acc w :
  (h_pos h ≤ length (data_of w h))%nat → (length (data_of w h) - h_pos h < fuel)%nat →
  recover_loop fuel h acc w ≠ OutOfFuel.
Proof.
  revert h acc w; induction fuel as [|fuel IH]; intros h acc w Hle Hlt; [lia|].
  cbn [recover_loop]. apply bindM_no_oof; [apply read_record_no_oof|].
  intros [[] h'] w' Hr; try done.
  destruct (read_record_measure _ _ _ _ _ _ Hr Hle Hlt). by apply IH.
Qed.

Lemma replay_loop_terminates {St} (applyFn : bytes → bytes → bool → St → go St) fuel h st n w :
  (∀ k v t st, applyFn k v t st ≠ OutOfFuel) →
  (h_pos h ≤ length (data_of w h))%nat → (length (data_of w h) - h_pos h < fuel)%nat →
  replay_loop applyFn fuel h st n w ≠ OutOfFuel.
Proof.
  intros Ha. revert h st n w; induction fuel as [|fuel IH]; intros h st n w Hle Hlt; [lia|].
  cbn [replay_loop]. apply bindM_no_oof.
  { rewrite replay_record_spec. apply bindM_no_oof; [apply read_record_no_oof|]. by intros []. }
  intros [r h'] w' Hr. rewrite replay_record_spec in Hr.
  apply bindM_inv in Hr as ([st1 h1] & w1 & Hr & [= <- <- <-]).
  destruct st1; try done. cbn [step_op]. unfold op_of_entry.
  destruct (read_record_measure _ _ _ _ _ _ Hr Hle Hlt).
  apply bindM_no_oof; [by apply liftM_no_oof|].
  intros st' w'' (? & _ & [= -> ->])%liftM_inv. by apply IH.
Qed.
