(* ===== verification/WalSpec.v ===== *)
(** * What the Bench WAL guarantees

    The contract of [OpenWAL], [Append], [Recover], [ReplayWAL] and [Close] on
    a WAL whose file holds a known sequence of bytes, and from it durability
    across crashes, detection of corruption, and termination of the record
    loops on every file. *)

From Stdlib Require Import Strings.Byte Strings.String.
From S2P Require Import Prelude GoBytes KV Crc32 Os Record Wal.

Local Open Scope Z_scope.

(** An open WAL on a fault-free disk whose file is [data], of which the first
    [synced] bytes are safe. *)
Record wal_at (w : world) (wal : WAL) (data : bytes) (synced : nat) : Prop := {
  at_closed : wal_closed wal = false;
  at_open : h_open (wal_file wal) = true;
  at_append : h_append (wal_file wal) = true;
  at_path : h_path (wal_file wal) = wal_path (DirPath (wal_opts wal));
  at_file : lookup_file w (wal_path (DirPath (wal_opts wal))) = Some (mkFile data synced);
  at_faults : w_faults w = [];
  at_size : wal_size wal = len data;
  at_synced : (synced ≤ length data)%nat }.

(** Appending a list of operations, with the acknowledgements. *)
Fixpoint append_all (wal : WAL) (rs : list kvt) : IO (WAL * list (Z * option error)) :=
  match rs with
  | [] => retM (wal, [])
  | r :: rs =>
      let! (wal, ack) := Append wal r.1.1 r.1.2 r.2 in
      let! (wal, acks) := append_all wal rs in
      retM (wal, ack :: acks)
  end.

Definition acked (r : kvt) : Z * option error := (len (record_of r), None).

(** ** Contracts *)

Lemma wal_at_lookup w wal data s :
  wal_at w wal data s → lookup_file w (h_path (wal_file wal)) = Some (mkFile data s).
Proof. intros []. congruence. Qed.

Lemma Append_ok w wal data s k v t :
  wal_at w wal data s → fits k v →
  ∃ wal' w', Append wal k v t w = Ret ((wal', (len (record k v t), None)), w')
    ∧ wal_at w' wal' (data ++ record k v t)
        (if SyncOnWrite (wal_opts wal) then length (data ++ record k v t) else s)
    ∧ wal_opts wal' = wal_opts wal
    ∧ w' = insert_file w (h_path (wal_file wal))
             (mkFile (data ++ record k v t)
                (if SyncOnWrite (wal_opts wal) then length (data ++ record k v t) else s)).
Proof.
  intros Hat Hfit. pose proof (wal_at_lookup _ _ _ _ Hat) as Hf. destruct Hat.
  unfold Append. rewrite at_closed0.
  erewrite bindM_ret by by apply liftM_ret, EncodeRecord_record.
  erewrite bindM_ret by by apply Write_append_ok. cbn beta iota.
  cbn [f_data f_synced]. rewrite Nat.min_l by done.
  cbn [wal_opts wal_file set_file wal_closed wal_size].
  set (p := h_path (wal_file wal)) in *.
  assert (∀ g, lookup_file (insert_file w p g) (wal_path (DirPath (wal_opts wal))) = Some g) as Hl.
  { intros g. rewrite <-at_path0. fold p. by eapply lookup_insert_file. }
  destruct (SyncOnWrite (wal_opts wal)) eqn:Hsync.
  - erewrite bindM_ret.
    2:{ apply Fsync_ok; [done| |done]. by eapply lookup_insert_file. }
    cbn beta iota. cbn [f_data h_path set_pos]. fold p. rewrite insert_file_insert.
    do 2 eexists. split; [done|]. split_and!; [|done|done].
    split; simpl; auto; rewrite ?Hl, ?len_app; congruence || lia.
  - do 2 eexists. split; [done|]. split_and!; [|done|done].
    split; simpl; auto; rewrite ?Hl, ?len_app, ?length_app; congruence || lia.
Qed.

Lemma append_all_ok rs w wal data s :
  wal_at w wal data s → Forall fits_of rs →
  ∃ wal' w', append_all wal rs w = Ret ((wal', acked <$> rs), w')
    ∧ wal_at w' wal' (data ++ encode_log rs)
        (if SyncOnWrite (wal_opts wal) then
           match rs with [] => s | _ => length (data ++ encode_log rs) end else s)
    ∧ wal_opts wal' = wal_opts wal
    ∧ (∀ p, p ≠ h_path (wal_file wal) → lookup_file w' p = lookup_file w p).
Proof.
  revert w wal data s. induction rs as [|r rs IH]; intros w wal data s Hat Hfit.
  - exists wal, w. rewrite app_nil_r. split; [done|]. by destruct (SyncOnWrite _).
  - apply Forall_cons in Hfit as [Hr Hrs].
    destruct (Append_ok w wal data s r.1.1 r.1.2 r.2 Hat Hr) as (wal1 & w1 & E1 & Hat1 & Ho1 & Ew1).
    destruct (IH _ _ _ _ Hat1 Hrs) as (wal2 & w2 & E2 & Hat2 & Ho2 & Hfr).
    exists wal2, w2. simpl append_all.
    erewrite bindM_ret by done. cbn beta iota. erewrite bindM_ret by done. cbn beta iota.
    split; [done|]. rewrite encode_log_cons, app_assoc. fold (record_of r) in *.
    rewrite Ho1 in *. split_and!; [|congruence|].
    + destruct (SyncOnWrite (wal_opts wal)); [|done]. destruct rs; [|done].
      by rewrite app_nil_r in Hat2 |- *.
    + intros p Hp. rewrite Hfr, Ew1.
      * by apply lookup_insert_file_ne.
      * by rewrite (at_path _ _ _ _ Hat1), Ho1, <-(at_path _ _ _ _ Hat).
Qed.

(** [Recover] on a file that starts with intact records is its loop, started
    where they end. *)
Lemma Recover_skip w wal rs tail s :
  wal_at w wal (encode_log rs ++ tail) s → Forall fits_of rs →
  ∃ fuel, Recover wal w =
    (let! (r, file) :=
       recover_loop (S fuel) (set_pos (wal_file wal) (length (encode_log rs)))
         (entry_of <$> rs) in
     match r with
     | inr e => retM (set_file wal file, inr e)
     | inl entries =>
         let! r := SeekEnd file in
         match r with
         | inr e => retM (set_file wal file, inr (Wrapf "failed to seek end of wal file" e))
         | inl file => retM (set_file wal file, inl entries)
         end
     end) w.
Proof.
  intros Hat Hfit. pose proof (wal_at_lookup _ _ _ _ Hat) as Hf. destruct Hat.
  exists (length (encode_log rs ++ tail) - length rs)%nat.
  unfold Recover. rewrite at_closed0.
  erewrite bindM_ret by by eapply SeekStart_ok. cbn beta iota.
  set (h := set_pos (wal_file wal) 0). set (f := mkFile (encode_log rs ++ tail) s) in *.
  assert (lookup_file w (h_path h) = Some f) as Hf' by done.
  erewrite bindM_ret by done. rewrite Hf'. simpl default.
  pose proof (length_encode_log rs).
  replace (S (length (encode_log rs ++ tail)))
    with (length rs + S (length (encode_log rs ++ tail) - length rs))%nat
    by (rewrite length_app; lia).
  unfold bindM at 1 3.
  by rewrite (recover_loop_skip w f at_faults0 rs h [] tail) by done.
Qed.

Lemma Recover_ok w wal rs tail s :
  wal_at w wal (encode_log rs ++ tail) s → incomplete tail → Forall fits_of rs →
  ∃ wal', Recover wal w = Ret ((wal', inl (entry_of <$> rs)), w)
    ∧ wal_at w wal' (encode_log rs ++ tail) s.
Proof.
  intros Hat Ht Hfit. pose proof (wal_at_lookup _ _ _ _ Hat) as Hf.
  destruct (Recover_skip _ _ _ _ _ Hat Hfit) as [fuel ->]. destruct Hat.
  set (f := mkFile (encode_log rs ++ tail) s) in *.
  destruct (read_record_incomplete w f at_faults0
              (set_pos (wal_file wal) (length (encode_log rs)))
              (encode_log rs) tail) as (h' & Er & Hh); [done..|].
  erewrite bindM_ret.
  2:{ cbn [recover_loop]. erewrite bindM_ret by done. done. }
  cbn beta iota. destruct Hh as (Hp & Ho & Ha).
  erewrite bindM_ret by (eapply SeekEnd_ok; rewrite ?Ho, ?Hp; done).
  cbn beta iota. eexists. split; [done|].
  split; simpl; try done; rewrite ?Hp, ?Ho, ?Ha; done.
Qed.

(** [Recover] always returns or panics. *)
Lemma Recover_no_oof wal w : Recover wal w ≠ OutOfFuel.
Proof.
  unfold Recover. destruct (wal_closed wal); [done|].
  apply bindM_no_oof; [by apply with_file_no_oof|].
  intros [h|e] w1 Hseek; [|done].
  assert (h_pos h = 0%nat) as Hpos.
  { unfold SeekStart, with_file in Hseek. destruct (h_open (wal_file wal)); [|done].
    apply bindM_inv in Hseek as (flt & w0 & _ & Hs). destruct flt; [|done].
    unfold retM in Hs. by destruct (lookup_file _ _); simplify_eq. }
  apply bindM_no_oof; [done|]. intros fuel w2 [= <- <-].
  apply bindM_no_oof; [apply recover_loop_terminates; [lia|unfold data_of; lia]|].
  intros [[es|e] h'] w3 _; [|done].
  apply bindM_no_oof; [by apply with_file_no_oof|]. by intros [|] w4 _.
Qed.

(** On a log followed by any bytes at all, [Recover] fails with a checksum
    mismatch or returns the log and possibly more. *)
Lemma Recover_keeps w wal rs tail s :
  wal_at w wal (encode_log rs ++ tail) s → Forall fits_of rs →
  match Recover wal w with
  | Ret ((_, inl es), w') => (entry_of <$> rs) `prefix_of` es
  | Ret ((_, inr e), w') => errors_Is e ErrCRCMismatch = true
  | Panic => True
  | OutOfFuel => False
  end.
Proof.
  intros Hat Hfit. pose proof (Recover_no_oof wal w) as Hoof. pose proof (wal_at_lookup _ _ _ _ Hat) as Hf.
  destruct (Recover_skip _ _ _ _ _ Hat Hfit) as [fuel E]. rewrite E in *. destruct Hat.
  pose proof (recover_loop_keeps w _ (S fuel) (set_pos (wal_file wal) (length (encode_log rs)))
                (entry_of <$> rs) at_faults0 at_open0 Hf) as Hk.
  unfold bindM in *. destruct (recover_loop _ _ _ w) as [[[r h'] w']| |]; [|done..].
  destruct Hk as (-> & (Hp & Ho & _) & Hk). destruct r as [es|e]; [|done].
  by erewrite SeekEnd_ok by (rewrite ?Hp, ?Ho; done).
Qed.

Lemma OpenWAL_existing w opts f :
  w_faults w = [] → lookup_file w (wal_path (DirPath opts)) = Some f →
  (f_synced f ≤ length (f_data f))%nat →
  ∃ wal, OpenWAL opts w = Ret (inl wal, w) ∧ wal_at w wal (f_data f) (f_synced f)
    ∧ wal_opts wal = opts.
Proof.
  intros Hw Hf Hs. unfold OpenWAL.
  destruct (lookup_file_dir _ _ _ Hf) as (d & Hd & Hd').
  erewrite bindM_ret by by apply MkdirAll_ok. cbn beta iota.
  cbn [fst wal_path] in Hd. rewrite (made_exists _ _ _ Hd).
  erewrite bindM_ret by by eapply OpenFile_existing. cbn beta iota.
  erewrite bindM_ret by by eapply Stat_ok. cbn beta iota.
  eexists. split; [done|]. split; [|done]. by destruct f; split.
Qed.

(** A directory that has no WAL yet. *)
Lemma OpenWAL_fresh w opts :
  w_faults w = [] → default ∅ (w_dirs w !! DirPath opts) !! str "bench_0.wal" = None →
  ∃ wal w', OpenWAL opts w = Ret (inl wal, w') ∧ wal_at w' wal [] 0 ∧ wal_opts wal = opts
    ∧ w_dirs w' !! DirPath opts =
        Some (<[str "bench_0.wal" := DFile (mkFile [] 0)]> (default ∅ (w_dirs w !! DirPath opts))).
Proof.
  intros Hw Hd. unfold OpenWAL.
  erewrite bindM_ret by by apply MkdirAll_ok. cbn beta iota.
  pose proof (made_dir w (DirPath opts)) as Hd1.
  pose proof (made_faults w (DirPath opts)) as Hw1. rewrite Hw in Hw1.
  set (w1 := made w (DirPath opts)) in *. set (d := default ∅ _) in *.
  set (p := wal_path (DirPath opts)). set (w2 := insert_file w1 p (mkFile [] 0)).
  assert (w_dirs w2 !! DirPath opts = Some (<[str "bench_0.wal" := DFile (mkFile [] 0)]> d)) as Hd2.
  { unfold w2, insert_file, p, wal_path. cbn [fst snd w_dirs].
    by rewrite lookup_alter_eq, Hd1. }
  assert (lookup_file w2 p = Some (mkFile [] 0)) as Hf.
  { unfold lookup_file, p, wal_path. cbn [fst snd]. rewrite Hd2. simpl. by rewrite lookup_insert_eq. }
  assert (OpenFile p OpenAppend w1 = Ret (inl (mkHandle p 0 true true), w2)) as Eo.
  { unfold OpenFile. erewrite bindM_ret by by apply next_fault_none. cbn beta iota zeta.
    replace (p.1) with (DirPath opts) by done. replace (p.2) with (str "bench_0.wal") by done.
    by rewrite Hd1, Hd. }
  erewrite bindM_ret by done. cbn beta iota.
  erewrite bindM_ret by by eapply Stat_ok. cbn beta iota.
  do 2 eexists. split; [done|]. split_and!; [by split|done|done].
Qed.

(** ** Durability *)

Lemma incomplete_nil : incomplete [].
Proof. by left. Qed.

(** A crash leaves the synced bytes and any others, and the WAL opens again. *)
Lemma crash_wal w w' wal data s opts :
  wal_at w wal data s → wal_opts wal = opts → crash w w' →
  ∃ p wal', take s data `prefix_of` p ∧ (length p ≤ length data)%nat
    ∧ lookup_file w' (wal_path (DirPath opts)) = Some (mkFile p (length p))
    ∧ OpenWAL opts w' = Ret (inl wal', w') ∧ wal_at w' wal' p (length p).
Proof.
  intros Hat <- Hc. destruct (crash_lookup w w' _ _ Hc (at_file _ _ _ _ Hat))
    as ([p sp] & Hf' & Hp & Hs & Hsy). cbn [f_data f_synced] in *. subst sp.
  destruct (OpenWAL_existing w' (wal_opts wal) _ (crash_faults _ _ Hc) Hf') as (wal' & Ho & Hat' & _);
    [done|]. eauto 10.
Qed.

(** With everything synced the bytes are the same. *)
Lemma crash_wal_synced w w' wal data opts :
  wal_at w wal data (length data) → wal_opts wal = opts → crash w w' →
  ∃ wal', OpenWAL opts w' = Ret (inl wal', w') ∧ wal_at w' wal' data (length data).
Proof.
  intros Hat Ho Hc. destruct (crash_wal _ _ _ _ _ _ Hat Ho Hc) as (p & wal' & Hp & Hl & _ & Eo & Hat').
  rewrite firstn_all in Hp. assert (p = data) as -> by (symmetry; by apply prefix_length_eq). eauto.
Qed.

(** The directory of a WAL before it is opened: there is no segment, or the
    segment holds the records [rs] and nothing else, all of them synced. *)
Definition segment_log (w : world) (dir : bytes) (rs : list kvt) : Prop :=
  match default ∅ (w_dirs w !! dir) !! str "bench_0.wal" with
  | None => rs = []
  | Some (DFile f) => f_data f = encode_log rs ∧ f_synced f = length (f_data f)
  | Some DDir => False
  end.

Lemma OpenWAL_log opts w rs :
  w_faults w = [] → segment_log w (DirPath opts) rs →
  ∃ wal w', OpenWAL opts w = Ret (inl wal, w')
    ∧ wal_at w' wal (encode_log rs) (length (encode_log rs)) ∧ wal_opts wal = opts.
Proof.
  intros Hw. unfold segment_log.
  destruct (default ∅ (w_dirs w !! DirPath opts) !! str "bench_0.wal") as [[f|]|] eqn:E; [..|done|].
  - intros [Ed Es]. destruct (OpenWAL_existing w opts f Hw) as (wal & Eo & Hat & Ho).
    + unfold lookup_file, wal_path. cbn [fst snd].
      destruct (w_dirs w !! DirPath opts) as [d|]; [|done]. simpl in *. by rewrite E.
    + lia.
    + rewrite Es, Ed in Hat. eauto.
  - intros ->. destruct (OpenWAL_fresh w opts Hw E) as (wal & w1 & Eo & Hat & Ho & _). eauto 10.
Qed.

(** C9.  Durability of the WAL in its default mode.  On a disk without faults,
    open a WAL with [SyncOnWrite] on a directory that has no segment yet or one
    whose segment is a whole, synced log of records [rs0], and append operations
    [rs] whose records fit the format.  Every [Append] is acknowledged, and after
    any crash, whatever it does to bytes that were not synced, the WAL opens
    again and [Recover] returns exactly [rs0] and then [rs], in order. *)
Theorem wal_durable opts w rs0 rs :
  SyncOnWrite opts = true → w_faults w = [] → segment_log w (DirPath opts) rs0 →
  Forall fits_of rs0 → Forall fits_of rs →
  ∃ wal w1 wal1 w2,
    OpenWAL opts w = Ret (inl wal, w1) ∧
    append_all wal rs w1 = Ret ((wal1, acked <$> rs), w2) ∧
    ∀ w3, crash w2 w3 →
      ∃ wal2 wal3, OpenWAL opts w3 = Ret (inl wal2, w3) ∧
        Recover wal2 w3 = Ret ((wal3, inl (entry_of <$> (rs0 ++ rs))), w3).
Proof.
  intros Hs Hw Hseg Hfit0 Hfit.
  destruct (OpenWAL_log opts w rs0 Hw Hseg) as (wal & w1 & Eo & Hat & Hopts).
  destruct (append_all_ok rs w1 wal _ _ Hat Hfit) as (wal1 & w2 & Ea & Hat1 & Hopts1 & _).
  exists wal, w1, wal1, w2. split_and!; [done|done|]. intros w3 Hc.
  rewrite Hopts, Hs, <-encode_log_app in Hat1.
  replace (match rs with [] => _ | _ => _ end) with (length (encode_log (rs0 ++ rs))) in Hat1
    by (destruct rs; by rewrite ?app_nil_r).
  destruct (crash_wal_synced _ _ _ _ opts Hat1 ltac:(congruence) Hc) as (wal2 & Eo2 & Hat2).
  rewrite <-(app_nil_r (encode_log _)) in Hat2.
  destruct (Recover_ok _ _ _ _ _ Hat2 incomplete_nil) as (wal3 & Er & _); [by apply Forall_app|]. eauto.
Qed.

(** The example world: an empty disk, and the operations of the tests. *)
Definition disk0 : world := mkWorld ∅ [].
Definition ops0 : list kvt :=
  [(str "geo_knight", str "vessel_500", false); (str "geo_zote", [], true)].

(** A disk with one WAL segment. *)
Definition file_world (f : file) : world :=
  mkWorld {[ str "data" := {[ str "bench_0.wal" := DFile f ]} ]} [].

Lemma wal_durable_witness :
  let op := (str "geo_hornet", str "needle", false) in
  ∃ wal w1 wal1 w2,
    OpenWAL (DefaultWALOptions (str "data")) (file_world (mkFile (encode_log ops0) 54)) = Ret (inl wal, w1) ∧
    append_all wal [op] w1 = Ret ((wal1, acked <$> [op]), w2) ∧
    ∀ w3, crash w2 w3 →
      ∃ wal2 wal3, OpenWAL (DefaultWALOptions (str "data")) w3 = Ret (inl wal2, w3) ∧
        Recover wal2 w3 = Ret ((wal3, inl (entry_of <$> (ops0 ++ [op]))), w3).
Proof.
  intros op. apply (wal_durable (DefaultWALOptions (str "data")) (file_world (mkFile (encode_log ops0) 54)) ops0 [op]);
    [done|done|split; vm_compute; reflexivity|repeat constructor..].
Defined.

(** C13.  What a crash can do to records that were not synced.  Let the file of a
    WAL hold the operations [rs], the first [m] of them synced.  After any crash
    the WAL opens again.  If the crash cut the file, so that its bytes are a
    prefix of the log, [Recover] succeeds with the operations that are complete
    in those bytes and no torn one: [take n rs] with [m ≤ n].  If the crash left
    other bytes behind the synced ones, [Recover] still never returns a list
    without the synced operations at its start: its only error is a checksum
    mismatch.  (Among arbitrary bytes there can be lengths that wrap around when added in
    32 bits; slicing then panics.) *)
Theorem wal_crash_prefix w wal rs s m w' :
  wal_at w wal (encode_log rs) s → Forall fits_of rs → (m ≤ length rs)%nat →
  (length (encode_log (take m rs)) ≤ s)%nat → crash w w' →
  ∃ p wal1, lookup_file w' (wal_path (DirPath (wal_opts wal))) = Some (mkFile p (length p))
    ∧ OpenWAL (wal_opts wal) w' = Ret (inl wal1, w')
    ∧ (p `prefix_of` encode_log rs →
         ∃ n wal2, (m ≤ n ≤ length rs)%nat
           ∧ (length (encode_log (take n rs)) ≤ length p)%nat
           ∧ (n < length rs → length p < length (encode_log (take (S n) rs)))%nat
           ∧ Recover wal1 w' = Ret ((wal2, inl (entry_of <$> take n rs)), w'))
    ∧ match Recover wal1 w' with
      | Ret ((_, inl es), _) => (entry_of <$> take m rs) `prefix_of` es
      | Ret ((_, inr e), _) => errors_Is e ErrCRCMismatch = true
      | Panic => True
      | OutOfFuel => False
      end.
Proof.
  intros Hat Hfit Hm Hs Hc.
  destruct (crash_wal _ _ _ _ _ _ Hat eq_refl Hc) as (p & wal1 & Hp & Hlen & Hlk & Eo & Hat1).
  assert (encode_log (take m rs) `prefix_of` p) as Hpm.
  { etransitivity; [|exact Hp]. rewrite <-(take_drop m rs) at 2. rewrite encode_log_app, take_app_ge by done.
    by eexists. }
  exists p, wal1. split_and!; [done|done| |].
  - intros Hpre. destruct (prefix_of_log p rs Hpre Hfit) as (n & tail & -> & Ht & Hn & Hlt).
    destruct (Recover_ok _ _ _ _ _ Hat1 (torn_incomplete _ Ht)) as (wal2 & Er & _); [by apply Forall_take|].
    exists n, wal2. apply prefix_length in Hpm. rewrite length_app in *.
    split_and!; [|done|lia|done|done].
    destruct (decide (m ≤ n)%nat); [done|]. exfalso. specialize (Hlt ltac:(lia)).
    pose proof (encode_log_take_mono (S n) m rs ltac:(lia)). lia.
  - destruct Hpm as [tail ->]. rewrite length_app in Hat1.
    pose proof (Recover_keeps _ _ _ _ _ Hat1 (Forall_take _ m _ Hfit)) as Hk.
    destruct (Recover wal1 w') as [[[? []] ?]| |]; [apply Hk..|done|done].
Qed.

(** An open WAL whose two records are written and the first one synced. *)
Definition wal0 : WAL :=
  mkWAL (mkWALOptions false (str "data") 0)
    (mkHandle (wal_path (str "data")) 0 true true) false (len (encode_log ops0)).

Lemma crash_file_world f f' : file_survives f f' → crash (file_world f) (file_world f').
Proof.
  intros Hf. split; [|done]. unfold file_world. cbn [w_dirs]. intros d.
  destruct (decide (d = str "data")) as [->|Hd]; [|by rewrite !lookup_singleton_ne].
  rewrite !lookup_singleton_eq. cbn [option_relation]. intros n.
  destruct (decide (n = str "bench_0.wal")) as [->|Hn]; [|by rewrite !lookup_singleton_ne].
  by rewrite !lookup_singleton_eq.
Qed.

(** The second record comes back as zeros of the same length. *)
Definition zeroed_log : bytes := encode_log (take 1 ops0) ++ replicate 21 x00.

Lemma wal_crash_prefix_witness :
  let W := file_world (mkFile zeroed_log 54) in
  ∃ p wal1, lookup_file W (wal_path (str "data")) = Some (mkFile p (length p))
    ∧ OpenWAL (wal_opts wal0) W = Ret (inl wal1, W)
    ∧ (p `prefix_of` encode_log ops0 →
         ∃ n wal2, (1 ≤ n ≤ 2)%nat
           ∧ (length (encode_log (take n ops0)) ≤ length p)%nat
           ∧ (n < 2 → length p < length (encode_log (take (S n) ops0)))%nat
           ∧ Recover wal1 W = Ret ((wal2, inl (entry_of <$> take n ops0)), W))
    ∧ match Recover wal1 W with
      | Ret ((_, inl es), _) => (entry_of <$> take 1 ops0) `prefix_of` es
      | Ret ((_, inr e), _) => errors_Is e ErrCRCMismatch = true
      | Panic => True
      | OutOfFuel => False
      end.
Proof.
  intros W. apply (wal_crash_prefix (file_world (mkFile (encode_log ops0) 33)) wal0 ops0 33 1 W).
  - split; [reflexivity..|vm_compute; lia].
  - repeat constructor.
  - simpl. lia.
  - vm_compute. lia.
  - apply crash_file_world. split_and!; [eexists; vm_compute; reflexivity|vm_compute; lia|vm_compute; reflexivity].
Defined.

(** ** Appending on a disk that fails *)

Lemma Write_any w h f data r w' :
  h_open h = true → h_append h = true → lookup_file w (h_path h) = Some f →
  Write h data w = Ret (r, w') →
  ∃ p e h', r = (len p, e, h') ∧ p `prefix_of` data ∧ (e = None → p = data)
    ∧ same_handle h h'
    ∧ lookup_file w' (h_path h) =
        Some (mkFile (f_data f ++ p) (f_synced f `min` length (f_data f))).
Proof.
  intros Ho Ha Hf. unfold Write. rewrite Ho. intros (flt & w1 & H1 & H2)%bindM_inv.
  assert (w_dirs w1 = w_dirs w) as Hd.
  { unfold next_fault in H1. by destruct (w_faults w) as [|? ?]; injection H1 as _ <-. }
  rewrite (lookup_file_dirs w w1), Hf in H2 by done.
  unfold write_pos, write_at in H2. rewrite Ha in H2.
  destruct flt as [|k]; injection H2 as <- <-; do 3 eexists; split_and!; try done.
  - eapply lookup_insert_file_eq with (f0 := f); [by rewrite (lookup_file_dirs w w1)|].
    by rewrite firstn_all, Nat.sub_diag, drop_ge, app_nil_r by lia.
  - apply prefix_take.
  - eapply lookup_insert_file_eq with (f0 := f); [by rewrite (lookup_file_dirs w w1)|].
    by rewrite firstn_all, Nat.sub_diag, drop_ge, app_nil_r by lia.
Qed.

Lemma Fsync_any w h f e w' :
  h_open h = true → lookup_file w (h_path h) = Some f → Fsync h w = Ret (e, w') →
  ∃ s, lookup_file w' (h_path h) = Some (mkFile (f_data f) s)
    ∧ (e = None → s = length (f_data f)) ∧ (e ≠ None → s = f_synced f).
Proof.
  intros Ho Hf. unfold Fsync, with_file. rewrite Ho. intros (r & w1 & H1 & H2)%bindM_inv.
  apply bindM_inv in H1 as (flt & w2 & H1 & H3).
  assert (w_dirs w2 = w_dirs w) as Hd.
  { unfold next_fault in H1. by destruct (w_faults w) as [|? ?]; injection H1 as _ <-. }
  destruct flt as [|k].
  - rewrite (lookup_file_dirs w w2), Hf in H3 by done.
    injection H3 as <- <-. injection H2 as <- <-.
    exists (length (f_data f)). split_and!; [|done..].
    eapply lookup_insert_file. by rewrite (lookup_file_dirs w w2).
  - injection H3 as <- <-. injection H2 as <- <-.
    exists (f_synced f). split_and!; [|done..].
    rewrite (lookup_file_dirs w w2), Hf by done. by destruct f.
Qed.

(** C20.  On any disk, failing or not: whatever [Append] returns, the log before
    it is untouched and at most a prefix of the new record follows it; when
    [Append] reports no error the whole record is in the file, and synced if
    the WAL syncs on write. *)
Theorem append_ack_is_durable w wal f k v t wal' n e w' :
  wal_closed wal = false → h_open (wal_file wal) = true →
  h_append (wal_file wal) = true → lookup_file w (h_path (wal_file wal)) = Some f →
  (f_synced f ≤ length (f_data f))%nat → fits k v →
  Append wal k v t w = Ret ((wal', (n, e)), w') →
  ∃ p s, lookup_file w' (h_path (wal_file wal')) = Some (mkFile (f_data f ++ p) s)
    ∧ p `prefix_of` record k v t ∧ (f_synced f ≤ s)%nat
    ∧ (e = None → p = record k v t ∧ n = len p ∧
         (SyncOnWrite (wal_opts wal) = true → s = length (f_data f ++ p))).
Proof.
  intros Hc Ho Ha Hf Hs Hfit. unfold Append. rewrite Hc.
  rewrite EncodeRecord_record by done. intros (enc & w1 & H1 & H2)%bindM_inv.
  injection H1 as <- <-. apply bindM_inv in H2 as (r & w2 & H2 & H3).
  apply (Write_any w _ f) in H2 as (p & err & h' & -> & Hp & Hnone & (Hh1 & Hh2 & Hh3) & Hf2);
    try done. rewrite Nat.min_l in Hf2 by done.
  destruct err as [err|].
  { injection H3 as <- <- <- <-. exists p, (f_synced f). simpl. rewrite Hh1. by split_and!. }
  rewrite (Hnone eq_refl) in *. cbn [set_file wal_opts wal_file wal_closed wal_size] in H3.
  destruct (SyncOnWrite (wal_opts wal)) eqn:Hsync.
  - apply bindM_inv in H3 as (e' & w3 & H3 & H4). rewrite <-Hh1 in Hf2.
    apply (Fsync_any _ _ _ _ _ (eq_trans Hh2 Ho) Hf2) in H3 as (s & Hf3 & Hn & Hns).
    cbn [f_data f_synced] in *.
    destruct e' as [e'|]; injection H4 as <- <- <- <-; exists (record k v t), s;
      split_and!; try done.
    + rewrite Hns by done. done.
    + rewrite Hn by done. rewrite length_app. lia.
    + auto.
  - injection H3 as <- <- <- <-. exists (record k v t), (f_synced f).
    cbn [wal_file]. rewrite Hh1. by split_and!.
Qed.

(** A WAL in the default mode on a file that holds [data]. *)
Definition wal_on (data : bytes) : WAL :=
  mkWAL (DefaultWALOptions (str "data"))
    (mkHandle (wal_path (str "data")) 0 true true) false (len data).

(** The oracle lets the write and the sync of the next append through. *)
Definition flaky_world : world :=
  mkWorld (w_dirs (file_world (mkFile (encode_log ops0) 54))) [Works; Works].

Lemma append_ack_is_durable_witness :
  match Append (wal_on (encode_log ops0)) (str "k") (str "v") false flaky_world with
  | Ret ((wal', (n, e)), w') =>
      e = None ∧ ∃ p s,
        lookup_file w' (h_path (wal_file wal')) = Some (mkFile (encode_log ops0 ++ p) s)
        ∧ p `prefix_of` record (str "k") (str "v") false ∧ (54 ≤ s)%nat
        ∧ (e = None → p = record (str "k") (str "v") false ∧ n = len p ∧
             (true = true → s = length (encode_log ops0 ++ p)))
  | _ => False
  end.
Proof.
  assert (match Append (wal_on (encode_log ops0)) (str "k") (str "v") false flaky_world with
          | Ret ((_, ack), _) => Some ack | _ => None end = Some (15, None)) as Hack
    by (vm_compute; reflexivity).
  destruct (Append _ _ _ _ _) as [[[wal' [n e]] w']| |] eqn:E; [|discriminate Hack..].
  - split; [by injection Hack|].
    apply (append_ack_is_durable flaky_world (wal_on (encode_log ops0))
             (mkFile (encode_log ops0) 54) (str "k") (str "v") false wal' n e w');
      [reflexivity..|vm_compute; lia|vm_compute; reflexivity|exact E].
Defined.

(** ** Replay *)

Lemma wal_names_single d f :
  d !! str "bench_0.wal" = Some (DFile f) →
  (∀ n e, d !! n = Some e → Ext n = str ".wal" → is_dir e = false → n = str "bench_0.wal") →
  wal_names ((λ n, (n, default false (is_dir <$> d !! n))) <$> dir_names d)
    = [str "bench_0.wal"].
Proof.
  intros Hd Huniq. set (P := λ n, n = str "bench_0.wal").
  assert (∀ l : list bytes, NoDup l → (∀ n, n ∈ l → is_Some (d !! n)) →
    wal_names ((λ n, (n, default false (is_dir <$> d !! n))) <$> l) =
      if decide (str "bench_0.wal" ∈ l) then [str "bench_0.wal"] else []) as Hgen.
  { induction l as [|n l IH]; intros Hnd Hl; [done|].
    apply NoDup_cons in Hnd as [Hn Hnd]. unfold wal_names in *. rewrite fmap_cons, filter_cons.
    destruct (Hl n) as [e He]; [by left|]. rewrite He. cbn [fmap option_fmap option_map default fst snd].
    specialize (IH Hnd (λ m Hm, Hl m (list_elem_of_further _ _ _ Hm))).
    destruct (decide (n = str "bench_0.wal")) as [->|Hne].
    - rewrite decide_True by (rewrite He in Hd; injection Hd as ->; done).
      rewrite fmap_cons, IH, decide_False by done. by rewrite decide_True by set_solver.
    - rewrite decide_False.
      + rewrite IH. apply decide_ext. set_solver.
      + intros [Hdir Hext]%Is_true_true%andb_true_iff. apply Hne, (Huniq n e He).
        * by apply bool_decide_eq_true in Hext.
        * by destruct (is_dir e). }
  rewrite Hgen.
  - rewrite decide_True; [done|]. unfold dir_names. rewrite sort_Strings_Permutation.
    apply list_elem_of_fmap. exists (str "bench_0.wal", DFile f). split; [done|].
    by apply elem_of_map_to_list.
  - unfold dir_names. rewrite sort_Strings_Permutation. apply NoDup_fst_map_to_list.
  - intros n. unfold dir_names. rewrite sort_Strings_Permutation.
    intros ([m e] & -> & Hin)%list_elem_of_fmap. apply elem_of_map_to_list in Hin. eauto.
Qed.

Lemma ReadDir_ok w dir d :
  w_faults w = [] → w_dirs w !! dir = Some d →
  ReadDir dir w =
    Ret (inl ((λ n, (n, default false (is_dir <$> d !! n))) <$> dir_names d), w).
Proof.
  intros Hw Hd. unfold ReadDir. erewrite bindM_ret by by apply next_fault_none.
  simpl. by rewrite Hd.
Qed.

(** The hypothesis that the only log segment of a directory is [bench_0.wal],
    which is the only name [OpenWAL] ever creates. *)
Definition only_segment (d : gmap bytes dirent) : Prop :=
  ∀ n e, d !! n = Some e → Ext n = str ".wal" → is_dir e = false → n = str "bench_0.wal".

(** The directory scan of [ReplayWAL] ends in the record loop on the segment. *)
Lemma ReplayWAL_segment {St} (applyFn : bytes → bytes → bool → St → go St) w dir d f st :
  w_faults w = [] → w_dirs w !! dir = Some d →
  d !! str "bench_0.wal" = Some (DFile f) → only_segment d →
  ReplayWAL applyFn dir st w = replay_files applyFn [wal_path dir] st 0 w
  ∧ lookup_file w (wal_path dir) = Some f.
Proof.
  intros Hw Hd Hf Huniq. split.
  - unfold ReplayWAL. erewrite bindM_ret by by apply ReadDir_ok. cbn beta iota.
    rewrite (wal_names_single d f) by done. by rewrite sort_Strings_id by repeat constructor.
  - unfold lookup_file, wal_path. cbn [fst snd]. rewrite Hd. simpl. by rewrite Hf.
Qed.

(** Replaying one file up to where the intact records end. *)
Lemma replay_file_skip {St} (applyFn : bytes → bytes → bool → St → go St) w p f rs tail st st' :
  w_faults w = [] → lookup_file w p = Some f → f_data f = encode_log rs ++ tail →
  Forall fits_of rs → apply_all applyFn rs st = Ret st' →
  ∃ fuel, replay_files applyFn [p] st 0 w =
    (let! (st, count, err, walFile) :=
       replay_loop applyFn (S fuel) (mkHandle p (length (encode_log rs)) false true) st'
         (Z.of_nat (length rs)) in
     let! _ := CloseFile walFile in
     match err with Some e => retM (st, count, Some e) | None => retM (st, count, None) end) w.
Proof.
  intros Hw Hf Hd Hfit Ha. exists (length (f_data f) - length rs)%nat.
  cbn [replay_files]. erewrite bindM_ret by by eapply OpenFile_existing. cbn beta iota.
  erewrite bindM_ret by done. cbn [h_path]. rewrite Hf. simpl default.
  pose proof (length_encode_log rs).
  replace (S (length (f_data f))) with (length rs + S (length (f_data f) - length rs))%nat
    by (rewrite Hd, length_app; lia).
  unfold bindM at 1 2. cbn [is_append].
  rewrite (replay_loop_skip w f Hw applyFn rs (mkHandle p 0 false true) [] tail st st') by done.
  done.
Qed.

(** Recovery of a segment, possibly with a torn last record. *)
Lemma ReplayWAL_ok {St} (applyFn : bytes → bytes → bool → St → go St)
    w dir d f rs tail st st' :
  w_faults w = [] → w_dirs w !! dir = Some d →
  d !! str "bench_0.wal" = Some (DFile f) → only_segment d →
  f_data f = encode_log rs ++ tail → incomplete tail → Forall fits_of rs →
  apply_all applyFn rs st = Ret st' →
  ReplayWAL applyFn dir st w = Ret ((st', Z.of_nat (length rs), None), w).
Proof.
  intros Hw Hd Hf Huniq Hdata Ht Hfit Ha.
  destruct (ReplayWAL_segment applyFn w dir d f st) as [-> Hl]; [done..|].
  destruct (replay_file_skip applyFn w _ f rs tail st st' Hw Hl Hdata Hfit Ha) as [fuel ->].
  destruct (read_record_incomplete w f Hw (mkHandle (wal_path dir) (length (encode_log rs)) false true)
              (encode_log rs) tail) as (h' & Er & Hh); [done..|].
  erewrite bindM_ret.
  2:{ cbn [replay_loop]. erewrite bindM_ret by by apply replay_record_ret. done. }
  cbn beta iota. destruct Hh as (_ & Ho & _).
  erewrite bindM_ret by (eapply CloseFile_ok; done). done.
Qed.

(** Crash recovery replays the log: on a directory whose segment holds the
    operations [rs], possibly followed by a torn record, [ReplayWAL] calls the
    callback on exactly these operations in order and reports their number. *)
Theorem replay_applies_log {St} (applyFn : bytes → bytes → bool → St → go St)
    w dir d f rs tail st st' :
  w_faults w = [] → w_dirs w !! dir = Some d →
  d !! str "bench_0.wal" = Some (DFile f) → only_segment d →
  f_data f = encode_log rs ++ tail → torn tail → Forall fits_of rs →
  apply_all applyFn rs st = Ret st' →
  ReplayWAL applyFn dir st w = Ret ((st', Z.of_nat (length rs), None), w).
Proof. eauto using ReplayWAL_ok, torn_incomplete. Qed.

(** The callback that collects what it is given. *)
Definition collect (k v : bytes) (t : bool) (acc : list kvt) : go (list kvt) :=
  Ret (acc ++ [(k, v, t)]).

Lemma apply_all_collect rs acc : apply_all collect rs acc = Ret (acc ++ rs).
Proof.
  revert acc. induction rs as [|[[k v] t] rs IH]; intros acc; [by rewrite app_nil_r|].
  cbn [apply_all]. unfold collect at 1. cbn [bind_go fst snd]. by rewrite IH, <-app_assoc.
Qed.

Lemma replay_applies_log_witness :
  ReplayWAL collect (str "data") []
    (file_world (mkFile (encode_log ops0 ++ take 20 (encode_log ops0)) 0)) =
  Ret ((ops0, 2, None), file_world (mkFile (encode_log ops0 ++ take 20 (encode_log ops0)) 0)).
Proof.
  apply (replay_applies_log collect
           (file_world (mkFile (encode_log ops0 ++ take 20 (encode_log ops0)) 0)) (str "data")
           {[ str "bench_0.wal" := DFile (mkFile (encode_log ops0 ++ take 20 (encode_log ops0)) 0) ]}
           (mkFile (encode_log ops0 ++ take 20 (encode_log ops0)) 0)
           ops0 (take 20 (encode_log ops0)) [] ops0);
    try reflexivity.
  - intros n e Hn. by apply lookup_singleton_Some in Hn as [<- _].
  - exists (str "geo_knight"), (str "vessel_500"), false.
    split; [vm_compute; reflexivity|]. split.
    + exists (drop 20 (record (str "geo_knight") (str "vessel_500") false)).
      vm_compute. reflexivity.
    + intros E. apply (f_equal length) in E. vm_compute in E. discriminate.
  - repeat constructor.
Defined.

(** ** Corruption *)

Lemma read_record_corrupt w f h pre r a x y b rest :
  w_faults w = [] → h_open h = true → lookup_file w (h_path h) = Some f →
  f_data f = pre ++ (a ++ y ++ b) ++ rest → h_pos h = length pre →
  fits_of r → record_of r = a ++ x ++ b → length x = length y → (length x ≤ 4)%nat → x ≠ y →
  (12 ≤ length a ∨ length a + length x ≤ 4)%nat →
  ∃ h', read_record h w = Ret ((StepBadCRC, h'), w) ∧ same_handle h h'.
Proof.
  intros Hw Ho Hf Hd Hp Hfit Hr Hl H4 Hne Hpos.
  destruct (corrupt_record r.1.1 r.1.2 r.2 a x y b) as (c & fb & body & E & Hc & Hb & Hbad);
    [done..|].
  apply len_fits in Hfit as (Hk & Hv & Hkv). rewrite E in Hd.
  eexists. erewrite (read_record_raw w f Hw) by done.
  by rewrite (proj2 (Z.eqb_neq _ _) Hbad).
Qed.

(** C15.  Bit rot is detected: if at most four adjacent bytes of one record are
    changed, inside its checksum or after its length fields, then [Recover]
    fails with [ErrCRCMismatch] and [ReplayWAL] applies exactly the records
    before the damaged one and fails with [ErrCRCMismatch]. *)
Theorem wal_detects_corruption {St} (applyFn : bytes → bytes → bool → St → go St)
    w wal d rs r a x y b rest s st st' :
  wal_at w wal (encode_log rs ++ (a ++ y ++ b) ++ rest) s →
  w_dirs w !! DirPath (wal_opts wal) = Some d → only_segment d →
  Forall fits_of rs → fits_of r → record_of r = a ++ x ++ b →
  length x = length y → (length x ≤ 4)%nat → x ≠ y →
  (12 ≤ length a ∨ length a + length x ≤ 4)%nat →
  apply_all applyFn rs st = Ret st' →
  (∃ wal' e, Recover wal w = Ret ((wal', inr e), w) ∧ errors_Is e ErrCRCMismatch = true) ∧
  (∃ e, ReplayWAL applyFn (DirPath (wal_opts wal)) st w =
          Ret ((st', Z.of_nat (length rs), Some e), w) ∧ errors_Is e ErrCRCMismatch = true).
Proof.
  intros Hat Hd Huniq Hfits Hfit Er Hl H4 Hne Hpos Ha. pose proof Hat as Hat'.
  pose proof (wal_at_lookup _ _ _ _ Hat) as Hf. destruct Hat.
  set (f := mkFile (encode_log rs ++ (a ++ y ++ b) ++ rest) s) in *.
  split.
  - destruct (Recover_skip _ _ _ _ _ Hat' Hfits) as [fuel ->].
    destruct (read_record_corrupt w f (set_pos (wal_file wal) (length (encode_log rs)))
                (encode_log rs) r a x y b rest) as (h' & Err & Hh); [done..|].
    erewrite bindM_ret.
    2:{ cbn [recover_loop]. erewrite bindM_ret by done. done. }
    eauto.
  - destruct (lookup_file_dir _ _ _ at_file0) as (d' & Hd' & Hseg). cbn [fst snd wal_path] in *.
    rewrite Hd in Hd'. injection Hd' as <-.
    destruct (ReplayWAL_segment applyFn w (DirPath (wal_opts wal)) d f st) as [-> Hlk]; [done..|].
    destruct (replay_file_skip applyFn w (wal_path (DirPath (wal_opts wal))) f rs
                ((a ++ y ++ b) ++ rest) st st') as [fuel ->]; [done..|].
    destruct (read_record_corrupt w f
                (mkHandle (wal_path (DirPath (wal_opts wal))) (length (encode_log rs)) false true)
                (encode_log rs) r a x y b rest) as (h' & Err & (_ & Ho & _)); [done..|].
    erewrite bindM_ret.
    2:{ cbn [replay_loop]. erewrite bindM_ret by by apply replay_record_ret. done. }
    cbn beta iota. erewrite bindM_ret by (eapply CloseFile_ok; done). eauto.
Qed.

(** The last byte of the first record's value is inverted, as in the tests. *)
Definition rotten : bytes :=
  take 32 (encode_log ops0) ++ [x0f] ++ drop 33 (encode_log ops0).

Lemma wal_detects_corruption_witness :
  (∃ wal' e, Recover (wal_on rotten) (file_world (mkFile rotten 0)) =
      Ret ((wal', inr e), file_world (mkFile rotten 0)) ∧ errors_Is e ErrCRCMismatch = true) ∧
  (∃ e, ReplayWAL collect (str "data") [] (file_world (mkFile rotten 0)) =
      Ret (([], 0, Some e), file_world (mkFile rotten 0)) ∧ errors_Is e ErrCRCMismatch = true).
Proof.
  apply (wal_detects_corruption collect (file_world (mkFile rotten 0)) (wal_on rotten)
           {[ str "bench_0.wal" := DFile (mkFile rotten 0) ]} []
           (str "geo_knight", str "vessel_500", false)
           (take 32 (encode_log ops0)) [x30] [x0f] [] (drop 33 (encode_log ops0)) 0 [] []).
  - split; try reflexivity; vm_compute; lia.
  - reflexivity.
  - intros n e Hn. by apply lookup_singleton_Some in Hn as [<- _].
  - constructor.
  - vm_compute. reflexivity.
  - vm_compute. reflexivity.
  - reflexivity.
  - simpl. lia.
  - discriminate.
  - left. vm_compute. lia.
  - reflexivity.
Defined.

(** ** Termination *)

Lemma replay_files_terminates {St} (applyFn : bytes → bytes → bool → St → go St) ps st n w :
  (∀ k v t st, applyFn k v t st ≠ OutOfFuel) → replay_files applyFn ps st n w ≠ OutOfFuel.
Proof.
  intros Ha. revert st n w; induction ps as [|p ps IH]; intros st n w; [done|].
  cbn [replay_files]. apply bindM_no_oof; [apply OpenFile_no_oof|].
  intros [h|e] w1 Hopen; [|done].
  assert (h_pos h = 0%nat) as Hpos.
  { unfold OpenFile in Hopen. apply bindM_inv in Hopen as (flt & w0 & _ & Ho).
    destruct flt; [|done]. cbv beta zeta in Ho.
    destruct (w_dirs w0 !! p.1) as [d|]; [|done].
    by destruct (d !! p.2) as [[]|]; simplify_eq. }
  apply bindM_no_oof; [done|]. intros fuel w2 [= <- <-].
  apply bindM_no_oof.
  - apply replay_loop_terminates; [done|lia|]. unfold data_of. lia.
  - intros [[[st' n'] err] h'] w3 _. apply bindM_no_oof; [apply CloseFile_no_oof|].
    intros _ w4 _. by destruct err.
Qed.

(** C31.  The record loops terminate on every file and every disk: [Recover] and
    [ReplayWAL] always return (or panic), whatever bytes the segments hold and
    whichever system calls fail, as long as the callback returns. *)
Theorem recovery_terminates {St} (applyFn : bytes → bytes → bool → St → go St) :
  (∀ k v t st, applyFn k v t st ≠ OutOfFuel) →
  (∀ wal w, Recover wal w ≠ OutOfFuel) ∧
  (∀ dir st w, ReplayWAL applyFn dir st w ≠ OutOfFuel).
Proof.
  intros Ha. split; [apply Recover_no_oof|].
  intros dir st w. unfold ReplayWAL. apply bindM_no_oof.
  - unfold ReadDir, bindM, next_fault, retM.
    destruct (w_faults w) as [|[|k] fs]; simpl; try done; by destruct (w_dirs w !! dir).
  - intros [files|e] w1 _; [by apply replay_files_terminates|].
    by destruct (errors_Is e ErrNotExist).
Qed.

Lemma recovery_terminates_witness :
  (∀ wal w, Recover wal w ≠ OutOfFuel) ∧
  (∀ dir st w, ReplayWAL collect dir st w ≠ OutOfFuel).
Proof. apply (recovery_terminates collect). discriminate. Defined.

(** ** What the format does not protect *)

(** A whole header whose body is short stays incomplete under an append that is
    shorter than what is missing. *)
Lemma torn_append_incomplete r0 cut r :
  fits_of r0 → (13 ≤ cut)%nat → (cut + length (record_of r) < length (record_of r0))%nat →
  incomplete (take cut (record_of r0) ++ record_of r).
Proof.
  destruct r0 as [[k v] t]. unfold fits_of, record_of at 2 3. cbn [fst snd].
  intros (Hk & Hv & Hkv)%len_fits Hc Hlt. right. rewrite record_raw in *. unfold raw_record in *.
  set (c := ChecksumIEEE _) in *. pose proof (ChecksumIEEE_word (payload k v t)) as Hw. fold c in Hw.
  pose proof (len_raw_header c (len k) (len v) (flag_byte t)) as Hh. unfold HeaderSize, len at 1 in Hh.
  exists c, (len k), (len v), (flag_byte t), (take (cut - 13) (k ++ v) ++ record_of r).
  split_and!; try lia.
  - rewrite take_app_ge, <-app_assoc by lia. replace (length (raw_header c (len k) (len v) (flag_byte t))) with 13%nat by lia. done.
  - rewrite !length_app in Hlt. rewrite len_app. unfold len in *.
    rewrite length_take, length_app. lia.
Qed.

(** C40.  A torn tail is never cut off, and an append behind it can be lost.  Let
    a log end in a record that a crash tore after its header, and append an
    operation shorter than the bytes that are missing.  The [Append] writes the
    whole record, syncs it as configured and reports success; but [Recover] and
    [ReplayWAL] take it for part of the torn record, and both succeed without
    it. *)
Theorem append_after_torn_tail w wal rs r0 cut r d :
  wal_at w wal (encode_log rs ++ take cut (record_of r0)) (length (encode_log rs ++ take cut (record_of r0))) →
  w_dirs w !! DirPath (wal_opts wal) = Some d → only_segment d →
  Forall fits_of rs → fits_of r0 → fits_of r →
  (13 ≤ cut)%nat → (cut + length (record_of r) < length (record_of r0))%nat →
  let data := encode_log rs ++ take cut (record_of r0) in
  ∃ wal' w' wal'',
    Append wal r.1.1 r.1.2 r.2 w = Ret ((wal', acked r), w')
    ∧ lookup_file w' (wal_path (DirPath (wal_opts wal))) =
        Some (mkFile (data ++ record_of r)
                (if SyncOnWrite (wal_opts wal) then length (data ++ record_of r) else length data))
    ∧ Recover wal' w' = Ret ((wal'', inl (entry_of <$> rs)), w')
    ∧ ReplayWAL collect (DirPath (wal_opts wal)) [] w' = Ret ((rs, Z.of_nat (length rs), None), w').
Proof.
  intros Hat Hd Hseg Hfits Hr0 Hr Hcut Hlt data.
  pose proof (torn_append_incomplete r0 cut r Hr0 Hcut Hlt) as Hinc.
  destruct (Append_ok _ _ _ _ r.1.1 r.1.2 r.2 Hat Hr) as (wal' & w' & Ea & Hat' & Ho & Ew).
  fold (record_of r) in *. fold data in Hat', Ew. set (s := if SyncOnWrite _ then _ else _) in *.
  pose proof (at_file _ _ _ _ Hat') as Hf'. rewrite Ho in Hf'.
  exists wal', w'. unfold data at 1 in Hat'. rewrite <-app_assoc in Hat'.
  destruct (Recover_ok _ _ _ _ _ Hat' Hinc Hfits) as (wal'' & Er & _).
  exists wal''. split_and!; [done|done|done|].
  destruct (lookup_file_dir _ _ _ Hf') as (d' & Hd' & Hf''). cbn [fst snd wal_path] in *.
  eapply (ReplayWAL_ok collect w' _ d' _ rs); try done.
  - apply Hat'.
  - rewrite (at_path _ _ _ _ Hat) in Ew. rewrite Ew in Hd'. unfold insert_file in Hd'. cbn in Hd'.
    rewrite lookup_alter_eq, Hd in Hd'. injection Hd' as <-. intros n e.
    destruct (decide (n = str "bench_0.wal")) as [->|Hn]; [done|].
    rewrite lookup_insert_ne by done. apply Hseg.
  - cbn [f_data]. unfold data. by rewrite <-app_assoc.
  - by rewrite apply_all_collect.
Qed.

(** The tail of the second record is torn; a delete is appended behind it. *)
Definition torn_log : bytes :=
  encode_log (take 1 ops0) ++ take 15 (record_of (str "geo_hornet", str "needle_and_thread", false)).

Lemma append_after_torn_tail_witness :
  let W := file_world (mkFile torn_log 48) in
  ∃ wal' w' wal'',
    Append (wal_on torn_log) (str "k") [] true W = Ret ((wal', acked (str "k", [], true)), w')
    ∧ lookup_file w' (wal_path (str "data")) =
        Some (mkFile (torn_log ++ record_of (str "k", [], true)) (length (torn_log ++ record_of (str "k", [], true))))
    ∧ Recover wal' w' = Ret ((wal'', inl (entry_of <$> take 1 ops0)), w')
    ∧ ReplayWAL collect (str "data") [] w' = Ret ((take 1 ops0, 1, None), w').
Proof.
  intros W. apply (append_after_torn_tail W (wal_on torn_log) (take 1 ops0)
    (str "geo_hornet", str "needle_and_thread", false) 15 (str "k", [], true)
    {[ str "bench_0.wal" := DFile (mkFile torn_log 48) ]}).
  - split; try reflexivity; vm_compute; lia.
  - reflexivity.
  - intros n e Hn. by apply lookup_singleton_Some in Hn as [<- _].
  - repeat constructor.
  - vm_compute. reflexivity.
  - vm_compute. reflexivity.
  - lia.
  - vm_compute. lia.
Defined.

Definition result {A} (m : IO A) (w : world) : option A :=
  match m w with Ret (a, _) => Some a | _ => None end.

(** The low byte of the first record's value length, 10, becomes 74. *)
Definition bad_length : bytes :=
  take 11 (encode_log ops0) ++ [x4a] ++ drop 12 (encode_log ops0).

Definition recover_all (wal : WAL) : IO (list LogEntry + error) :=
  let! (_, r) := Recover wal in retM r.

(** Damage to a length field is taken for the end of the log: with one
    byte of the first record's value length changed, [Recover] reports success
    and returns no entry at all, although the second record is intact. *)
Theorem length_damage_truncates_silently :
  result (recover_all (wal_on bad_length)) (file_world (mkFile bad_length 54)) = Some (inl [])
  ∧ drop 33 bad_length = record_of (str "geo_zote", [], true).
Proof. vm_compute. split; reflexivity. Qed.

(** [Close] seals the log: it syncs the whole file, so that every later
    crash keeps it byte for byte even if the WAL did not sync on write, and the
    closed WAL refuses to append, to sync and to recover with [ErrWALClosed]
    without touching the disk; a second [Close] does nothing. *)
Theorem close_seals_log w wal data s :
  wal_at w wal data s →
  ∃ wal' w', Close wal w = Ret ((wal', None), w')
    ∧ (∀ w'', crash w' w'' →
         lookup_file w'' (wal_path (DirPath (wal_opts wal))) = Some (mkFile data (length data)))
    ∧ (∀ w'' k v t, Append wal' k v t w'' = Ret ((wal', (0, Some ErrWALClosed)), w''))
    ∧ (∀ w'', Sync wal' w'' = Ret (Some ErrWALClosed, w''))
    ∧ (∀ w'', Recover wal' w'' = Ret ((wal', inr ErrWALClosed), w''))
    ∧ (∀ w'', Close wal' w'' = Ret ((wal', None), w'')).
Proof.
  intros Hat. pose proof (wal_at_lookup _ _ _ _ Hat) as Hf. destruct Hat.
  unfold Close at 1. rewrite at_closed0. cbn [wal_file wal_opts wal_size].
  erewrite bindM_ret by by apply Fsync_ok. cbn beta iota. cbn [f_data].
  erewrite bindM_ret by by apply CloseFile_ok. cbn beta iota.
  do 2 eexists. split; [done|]. split_and!; try done.
  intros w'' Hc. rewrite at_path0 in *.
  by rewrite (crash_lookup_synced _ _ _ _ Hc (lookup_insert_file _ _ _ _ Hf)).
Qed.

Lemma close_seals_log_witness :
  ∃ wal' w', Close wal0 (file_world (mkFile (encode_log ops0) 0)) = Ret ((wal', None), w')
    ∧ (∀ w'', crash w' w'' →
         lookup_file w'' (wal_path (str "data")) =
           Some (mkFile (encode_log ops0) (length (encode_log ops0))))
    ∧ (∀ w'' k v t, Append wal' k v t w'' = Ret ((wal', (0, Some ErrWALClosed)), w''))
    ∧ (∀ w'', Sync wal' w'' = Ret (Some ErrWALClosed, w''))
    ∧ (∀ w'', Recover wal' w'' = Ret ((wal', inr ErrWALClosed), w''))
    ∧ (∀ w'', Close wal' w'' = Ret ((wal', None), w'')).
Proof.
  apply (close_seals_log (file_world (mkFile (encode_log ops0) 0)) wal0 (encode_log ops0) 0).
  split; [reflexivity..|lia].
Defined.
