(* ===== verification/WalAgree.v ===== *)
(** * The two readers of the log agree

    [Recover] and [ReplayWAL] decode the same format in two loops with two
    separately written bodies ([read_record] and [replay_record]).  They are
    compared on arbitrary file contents: the same records, the same end, the same
    failure.  The bodies were compared in [replay_record_spec]; here the loops and
    the methods are, through handles opened in different modes. *)

From Stdlib Require Import Strings.Byte Strings.String.
From S2P Require Import Prelude GoBytes KV Os Record Wal WalSpec.

Local Open Scope Z_scope.

(** Two computations that end the same way, with related results. *)
Definition go_rel {A B} (R : A → B → Prop) (m : go A) (m' : go B) : Prop :=
  match m, m' with
  | Ret a, Ret b => R a b
  | Panic, Panic => True
  | OutOfFuel, OutOfFuel => True
  | _, _ => False
  end.

Lemma go_rel_bindM {A B C D} (R : A * world → B * world → Prop) (S : C * world → D * world → Prop)
    (m : IO A) (m' : IO B) k k' w w' :
  go_rel R (m w) (m' w') →
  (∀ a wa b wb, R (a, wa) (b, wb) → go_rel S (k a wa) (k' b wb)) →
  go_rel S (bindM m k w) (bindM m' k' w').
Proof.
  intros Hm Hk. unfold bindM. destruct (m w) as [[a wa]| |], (m' w') as [[b wb]| |]; try done.
  by apply Hk.
Qed.

(** The same handle opened for reading. *)
Definition reading (h : handle) : handle := mkHandle (h_path h) (h_pos h) false (h_open h).

(** Results at two handles that differ in the mode, on a world that stays. *)
Definition same_read {A} (h : handle) (w : world) (x y : A * handle * world) : Prop :=
  x.1.1 = y.1.1 ∧ y.1.2 = reading x.1.2 ∧ x.2 = w ∧ y.2 = w ∧ same_handle h x.1.2.

Section readers.
Context (w : world) (Hw : w_faults w = []).

Lemma ReadFull_reading h n :
  go_rel (same_read h w) (ReadFull h n w) (ReadFull (reading h) n w).
Proof using Hw.
  unfold ReadFull, with_file. destruct (n <=? 0); [done|].
  cbn [reading h_open h_path h_pos]. destruct (h_open h); [|done].
  unfold bindM, next_fault. rewrite Hw. destruct (lookup_file w (h_path h)) as [f|]; [|done]. cbn.
  by destruct (read_full _ n).
Qed.

Lemma liftM_reading {A C D} (m : go A) (S : C * world → D * world → Prop) k k' :
  (∀ a, go_rel S (k a w) (k' a w)) → go_rel S (bindM (liftM m) k w) (bindM (liftM m) k' w).
Proof. intros Hk. unfold bindM, liftM. by destruct m. Qed.

Lemma read_record_reading h :
  go_rel (same_read h w) (read_record h w) (read_record (reading h) w).
Proof using Hw.
  unfold read_record. eapply go_rel_bindM; [apply ReadFull_reading|].
  intros [r h1] w1 [r' h1'] w1' (E1 & E2 & E3 & E4 & Hh1). cbn in E1, E2, E3, E4, Hh1. subst.
  destruct r' as [hb|e]; [|by destruct (is_eof e)].
  apply liftM_reading. intros hd. apply liftM_reading. intros _.
  eapply go_rel_bindM; [apply ReadFull_reading|].
  intros [r h2] w2 [r' h2'] w2' (E1 & E2 & E3 & E4 & Hh2). cbn in E1, E2, E3, E4, Hh2. subst.
  assert (same_handle h h2) by by etransitivity.
  destruct r' as [bb|e]; [|by destruct (is_eof e)].
  apply liftM_reading. intros crc. destruct (negb _); [done|].
  apply liftM_reading. by intros [key val].
Qed.

(** The two loop bodies at the two handles. *)
Lemma bodies_agree h :
  go_rel (λ x y, step_op x.1.1 = y.1.1 ∧ y.1.2 = reading x.1.2 ∧ x.2 = w ∧ y.2 = w ∧ same_handle h x.1.2)
    (read_record h w) (replay_record (reading h) w).
Proof using Hw.
  rewrite replay_record_spec. pose proof (read_record_reading h) as Hr. unfold bindM.
  destruct (read_record h w) as [[[st h1] w1]| |], (read_record (reading h) w) as [[[st' h1'] w1']| |]; try done.
  destruct Hr as (E1 & E2 & E3 & E4 & Hh). cbn in *. by subst.
Qed.

Context {St : Type} (applyFn : bytes → bytes → bool → St → go St) (f : St → kvt → St).
Context (Hf : ∀ k v t st, applyFn k v t st = Ret (f st (k, v, t))).

(** What the loops return, given what was decoded before. *)
Definition same_result (h : handle) (st0 : St) (x : (list LogEntry + error) * handle * world)
    (y : St * Z * option error * handle * world) : Prop :=
  x.2 = w ∧ y.2 = w ∧ y.1.2 = reading x.1.2 ∧ same_handle h x.1.2 ∧
  match x.1.1 with
  | inl es => y.1.1 = (foldl f st0 (op_of_entry <$> es), len es, None)
  | inr e => ∃ m m' c, e = Wrapf m c ∧ y.1.1.2 = Some (Wrapf m' c)
  end.

Lemma loops_agree fuel h acc st0 :
  go_rel (same_result h st0) (recover_loop fuel h acc w)
    (replay_loop applyFn fuel (reading h) (foldl f st0 (op_of_entry <$> acc)) (len acc) w).
Proof using Hw Hf.
  revert h acc. induction fuel as [|fuel IH]; intros h acc; [done|]. cbn [recover_loop replay_loop].
  eapply go_rel_bindM; [apply bodies_agree|].
  intros [r h1] w1 [r' h1'] w1' (E1 & E2 & E3 & E4 & Hh1). cbn in E1, E2, E3, E4, Hh1. subst.
  destruct r as [|e|e| |e]; [done|(split_and!; [done..|by do 3 eexists])..|].
  cbn [step_op]. unfold op_of_entry at 1. rewrite Hf. fold (op_of_entry e). unfold bindM, liftM.
  specialize (IH h1 (acc ++ [e])). rewrite fmap_app, foldl_app, len_app in IH.
  destruct (recover_loop _ _ _ w) as [x| |], (replay_loop _ _ _ _ _ w) as [y| |]; try done.
  destruct IH as (E1 & E2 & E3 & Hh & E4). split_and!; [done|done|done|by etransitivity|done].
Qed.
End readers.

(** [Recover] and the replay of one file are their loops from the start. *)
Lemma Recover_loop w wal data s :
  wal_at w wal data s →
  Recover wal w =
    (let! (r, file) := recover_loop (S (length data)) (set_pos (wal_file wal) 0) [] in
     match r with
     | inr e => retM (set_file wal file, inr e)
     | inl entries =>
         let! r := SeekEnd file in
         match r with
         | inr e => retM (set_file wal file, inr (Wrapf "failed to seek end of wal file" e))
         | inl file => retM (set_file wal file, inl entries)
         end
     end) w.
Proof.
  intros Hat. pose proof (wal_at_lookup _ _ _ _ Hat) as Hl. destruct Hat. unfold Recover.
  rewrite at_closed. erewrite bindM_ret by by eapply SeekStart_ok. cbn beta iota.
  erewrite bindM_ret by done. cbn [set_pos h_path]. by rewrite Hl.
Qed.

Lemma replay_file_loop {St} (applyFn : bytes → bytes → bool → St → go St) w p f st :
  w_faults w = [] → lookup_file w p = Some f →
  replay_files applyFn [p] st 0 w =
    (let! (st, count, err, walFile) :=
       replay_loop applyFn (S (length (f_data f))) (mkHandle p 0 false true) st 0 in
     let! _ := CloseFile walFile in
     match err with Some e => retM (st, count, Some e) | None => retM (st, count, None) end) w.
Proof.
  intros Hw Hf. cbn [replay_files]. erewrite bindM_ret by by eapply OpenFile_existing. cbn beta iota.
  erewrite bindM_ret by done. cbn [h_path]. by rewrite Hf.
Qed.

(** C16.  The two readers of the log are equivalent: on a fault-free disk,
    whatever bytes the segment holds, [Recover] succeeds exactly when [ReplayWAL]
    does, and then the callback has been applied to exactly the records
    [Recover] returns, in their order and number; when one fails so does the
    other, with the same cause; and when one panics so does the other. *)
Theorem recover_replay_agree {St} (applyFn : bytes → bytes → bool → St → go St)
    (f : St → kvt → St) w wal data s d st :
  wal_at w wal data s → w_dirs w !! DirPath (wal_opts wal) = Some d → only_segment d →
  (∀ k v t st, applyFn k v t st = Ret (f st (k, v, t))) →
  match Recover wal w with
  | Ret ((_, inl es), w') => w' = w ∧
      ReplayWAL applyFn (DirPath (wal_opts wal)) st w =
        Ret ((foldl f st (op_of_entry <$> es), len es, None), w)
  | Ret ((_, inr e), w') => w' = w ∧
      ∃ st' n m m' c, e = Wrapf m c ∧
        ReplayWAL applyFn (DirPath (wal_opts wal)) st w = Ret ((st', n, Some (Wrapf m' c)), w)
  | Panic => ReplayWAL applyFn (DirPath (wal_opts wal)) st w = Panic
  | OutOfFuel => False
  end.
Proof.
  intros Hat Hd Huniq Hf. pose proof (Recover_no_oof wal w) as Hoof.
  pose proof (wal_at_lookup _ _ _ _ Hat) as Hl. pose proof Hat as [].
  destruct (lookup_file_dir _ _ _ at_file) as (d' & Hd' & Hseg). cbn [fst snd wal_path] in *.
  rewrite Hd in Hd'. injection Hd' as <-. set (fl := mkFile data s) in *.
  destruct (ReplayWAL_segment applyFn w (DirPath (wal_opts wal)) d fl st) as [-> Hlk]; [done..|].
  rewrite (replay_file_loop applyFn w _ fl st at_faults Hlk).
  pose proof (loops_agree w at_faults applyFn f Hf (S (length data)) (set_pos (wal_file wal) 0) [] st) as Hag.
  revert Hag Hoof. rewrite (Recover_loop w wal data s Hat). unfold reading.
  cbn [set_pos h_path h_pos h_open fmap list_fmap foldl len length]. rewrite at_open, at_path. unfold bindM.
  change (f_data fl) with data. change (len []) with 0.
  set (m := recover_loop _ _ _ w). set (m' := replay_loop _ _ _ _ _ w).
  destruct m as [[[r h1] w1]| |] eqn:Em, m' as [[[[[st' n] err] h2] w2]| |]; try done; cbn [go_rel].
  intros (E1 & E2 & E3 & (Hp & Ho & _) & E4) _. cbn in E1, E2, E3, E4, Hp, Ho. subst.
  erewrite CloseFile_ok by (cbn; congruence || done).
  destruct r as [es|e].
  - injection E4 as -> -> ->. erewrite SeekEnd_ok by (congruence || by rewrite Hp, Hl). done.
  - destruct E4 as (m1 & m2 & c & -> & ->). split; [done|]. by do 5 eexists.
Qed.

(** A log with a damaged second record: both readers fail alike. *)
Definition half_rotten : bytes :=
  encode_log [(str "k", str "v", false)] ++ rotten.

Lemma recover_replay_agree_witness :
  let W := file_world (mkFile half_rotten 0) in
  (∃ wal', Recover (wal_on half_rotten) W =
      Ret ((wal', inr (Wrapf "expected crc" ErrCRCMismatch)), W))
  ∧ match Recover (wal_on half_rotten) W with
    | Ret ((_, inl es), w') => w' = W ∧
        ReplayWAL collect (str "data") [] W =
          Ret ((foldl (λ st op, st ++ [op]) [] (op_of_entry <$> es), len es, None), W)
    | Ret ((_, inr e), w') => w' = W ∧
        ∃ st' n m m' c, e = Wrapf m c ∧
          ReplayWAL collect (str "data") [] W = Ret ((st', n, Some (Wrapf m' c)), W)
    | Panic => ReplayWAL collect (str "data") [] W = Panic
    | OutOfFuel => False
    end.
Proof.
  intros W. split; [eexists; vm_compute; reflexivity|].
  apply (recover_replay_agree collect (λ st op, st ++ [op]) W (wal_on half_rotten) half_rotten 0
           {[ str "bench_0.wal" := DFile (mkFile half_rotten 0) ]} []).
  - split; try reflexivity; vm_compute; lia.
  - reflexivity.
  - intros n e Hn. by apply lookup_singleton_Some in Hn as [<- _].
  - reflexivity.
Defined.
