(* ===== verification/MemTable.v ===== *)
(** * The Soul MemTable: a skip list (pkg/storage/memtable.go)

    Nodes live in a heap, a list indexed by address; [forward] holds the
    addresses of the next node of each level.  Address arithmetic, nil
    dereferences and index checks are those of the source: each may panic.

    The random generator is an oracle: the list of the values that
    [float32(m.rnd.Float64())] takes, as IEEE 754 numbers; an exhausted list yields
    a value that is not below any probability.  The [RWMutex] makes every method
    atomic.  Lengths and sizes are Go [int]s, which cannot overflow on data
    that fits in memory, and are kept as [Z]. *)

From Stdlib Require Import Floats.SpecFloat.
From S2P Require Import Prelude GoBytes.

Local Open Scope nat_scope.

(** [float32], with its comparisons, which are false on a NaN. *)
Abbreviation float32 := spec_float.
Definition float32_of (m e : Z) : float32 := binary_normalize 24 128 m e false.
Definition float32_lt (x y : float32) : bool := SFltb x y.
Definition float32_le (x y : float32) : bool := SFleb x y.

Definition DefaultMaxLevel : Z := 16.
Definition DefaultP : float32 := float32_of 1 (-2).
Definition DefaultFlushThreshold : Z := (2 * 1024 * 1024)%Z.

Record Node := mkNode {
  n_Key : bytes;
  n_Value : bytes;
  n_Tombstone : bool;
  n_forward : list (option nat) }.

Record MemTableOptions := mkMemTableOptions {
  MaxLevel : Z;
  P : float32;
  FlushThreshold : Z }.

Definition DefaultMemTableOptions : MemTableOptions :=
  mkMemTableOptions DefaultMaxLevel DefaultP DefaultFlushThreshold.

Record MemTable := mkMemTable {
  mt_heap : list Node;
  mt_head : nat;
  mt_level : nat;
  mt_sizeBytes : Z;
  mt_opts : MemTableOptions;
  mt_rnd : list float32 }.

(** [make([]*Node, n)], eight bytes per pointer: panics when the length is
    negative or the slice exceeds the address space. *)
Definition make_nodes (n : Z) : go (list (option nat)) :=
  check (0 <=? n)%Z && (8 * n <=? maxAlloc)%Z in Ret (replicate (Z.to_nat n) None).

(** The options that NewMemTable replaces by the defaults. *)
Definition norm_mt_options (opts : MemTableOptions) : MemTableOptions :=
  mkMemTableOptions
    (if (MaxLevel opts <=? 0)%Z then DefaultMaxLevel else MaxLevel opts)
    (if float32_le (P opts) (S754_zero false) || float32_le (float32_of 1 0) (P opts)
     then DefaultP else P opts)
    (if (FlushThreshold opts <=? 0)%Z then DefaultFlushThreshold else FlushThreshold opts).

(** NewMemTable. *)
Definition NewMemTable (opts : MemTableOptions) (rnd : list float32) : go MemTable :=
  let opts := norm_mt_options opts in
  let* forward := make_nodes (MaxLevel opts) in
  Ret (mkMemTable [mkNode [] [] false forward] 0 1 0 opts rnd).

(** randomLevel: the draw is consumed before the level is compared. *)
Fixpoint random_loop (rnd : list float32) (lvl maxl : nat) (p : float32) : nat * list float32 :=
  match rnd with
  | [] => (lvl, [])
  | x :: rnd =>
      if float32_lt x p && (lvl <? maxl) then random_loop rnd (S lvl) maxl p else (lvl, rnd)
  end.

Definition max_level (m : MemTable) : nat := Z.to_nat (MaxLevel (mt_opts m)).

Definition randomLevel (m : MemTable) : nat * list float32 :=
  random_loop (mt_rnd m) 1 (max_level m) (P (mt_opts m)).

(** Dereferencing a pointer, [node.forward[i]], and assigning it. *)
Definition node (h : list Node) (l : nat) : go Node := opt_go (h !! l).

Definition forward (h : list Node) (l i : nat) : go (option nat) :=
  let* n := node h l in opt_go (n_forward n !! i).

Definition set_forward (h : list Node) (l i : nat) (v : option nat) : go (list Node) :=
  let* n := node h l in
  check i <? length (n_forward n) in
  Ret (<[l := mkNode (n_Key n) (n_Value n) (n_Tombstone n) (<[i := v]> (n_forward n))]> h).

(** The inner loop: move right on level [i] while the next key is smaller. *)
Fixpoint advance (fuel : nat) (h : list Node) (key : bytes) (i curr : nat) : go nat :=
  match fuel with
  | O => OutOfFuel
  | S fuel =>
      let* nx := forward h curr i in
      match nx with
      | None => Ret curr
      | Some nx =>
          let* n := node h nx in
          if bytes_ltb (n_Key n) key then advance fuel h key i nx else Ret curr
      end
  end.

(** [update[i] = v]. *)
Definition set_update (u : list (option nat)) (i : nat) (v : option nat) : go (list (option nat)) :=
  check i <? length u in Ret (<[i := v]> u).

(** The outer loop of insert, [for i := level-1; i >= 0; i--]. *)
Fixpoint descend (h : list Node) (key : bytes) (levels curr : nat) (update : list (option nat))
    : go (nat * list (option nat)) :=
  match levels with
  | O => Ret (curr, update)
  | S i =>
      let* curr := advance (S (length h)) h key i curr in
      let* update := set_update update i (Some curr) in
      descend h key i curr update
  end.

(** The same loop in Get. *)
Fixpoint descend_get (h : list Node) (key : bytes) (levels curr : nat) : go nat :=
  match levels with
  | O => Ret curr
  | S i =>
      let* curr := advance (S (length h)) h key i curr in
      descend_get h key i curr
  end.

(** [curr != nil && bytes.Equal(curr.Key, key)]. *)
Definition match_key (h : list Node) (curr : option nat) (key : bytes) : go (option (nat * Node)) :=
  match curr with
  | None => Ret None
  | Some c =>
      let* n := node h c in
      Ret (if Equal (n_Key n) key then Some (c, n) else None)
  end.

(** [for i := m.level; i < newLevel; i++ { update[i] = m.head }]. *)
Fixpoint raise_levels (update : list (option nat)) (head i k : nat) : go (list (option nat)) :=
  match k with
  | O => Ret update
  | S k =>
      let* update := set_update update i (Some head) in
      raise_levels update head (S i) k
  end.

(** [for i := 0; i < newLevel; i++], linking the new node on level [i]. *)
Fixpoint link (h : list Node) (new : nat) (update : list (option nat)) (i k : nat)
    : go (list Node) :=
  match k with
  | O => Ret h
  | S k =>
      let* u := opt_go (update !! i) in
      let* u := opt_go u in
      let* nx := forward h u i in
      let* h := set_forward h new i nx in
      let* h := set_forward h u i (Some new) in
      link h new update (S i) k
  end.

(** The end of insert when the key is absent: draw a height, raise the level of
    the list if needed, allocate the node and link it. *)
Definition insert_new (m : MemTable) (key value : bytes) (tombstone : bool)
    (update : list (option nat)) : go (MemTable * bool) :=
  let (newLevel, rnd) := randomLevel m in
  let* update :=
    (if mt_level m <? newLevel
     then raise_levels update (mt_head m) (mt_level m) (newLevel - mt_level m)
     else Ret update) in
  let level := if mt_level m <? newLevel then newLevel else mt_level m in
  let new := length (mt_heap m) in
  let* fwd := make_nodes (Z.of_nat newLevel) in
  let heap := mt_heap m ++ [mkNode key value tombstone fwd] in
  let* heap := link heap new update 0 newLevel in
  let size := (mt_sizeBytes m + (len key + len value))%Z in
  Ret (mkMemTable heap (mt_head m) level size (mt_opts m) rnd,
       (FlushThreshold (mt_opts m) <=? size)%Z).

(** insert: the table and whether the flush threshold is reached. *)
Definition insert (m : MemTable) (key value : bytes) (tombstone : bool) : go (MemTable * bool) :=
  let* update := make_nodes (MaxLevel (mt_opts m)) in
  let* (curr, update) := descend (mt_heap m) key (mt_level m) (mt_head m) update in
  let* c0 := forward (mt_heap m) curr 0 in
  let* hit := match_key (mt_heap m) c0 key in
  match hit with
  | Some (c, n) =>
      let oldSize := (len (n_Key n) + len (n_Value n))%Z in
      let newSize := (len key + len value)%Z in
      let heap := <[c := mkNode (n_Key n) value tombstone (n_forward n)]> (mt_heap m) in
      let size := (mt_sizeBytes m + (newSize - oldSize))%Z in
      Ret (mkMemTable heap (mt_head m) (mt_level m) size (mt_opts m) (mt_rnd m),
           (FlushThreshold (mt_opts m) <=? size)%Z)
  | None => insert_new m key value tombstone update
  end.

Definition Put (m : MemTable) (key value : bytes) : go (MemTable * bool) :=
  insert m key value false.

Definition Delete (m : MemTable) (key : bytes) : go (MemTable * bool) :=
  insert m key [] true.

(** Get: the value, the tombstone flag and whether the key was found. *)
Definition Get (m : MemTable) (key : bytes) : go (bytes * bool * bool) :=
  let* curr := descend_get (mt_heap m) key (mt_level m) (mt_head m) in
  let* c0 := forward (mt_heap m) curr 0 in
  let* hit := match_key (mt_heap m) c0 key in
  match hit with
  | Some (_, n) => Ret (n_Value n, n_Tombstone n, true)
  | None => Ret ([], false, false)
  end.

Definition SizeBytes (m : MemTable) : Z := mt_sizeBytes m.

Definition IsFull (m : MemTable) : bool :=
  (FlushThreshold (mt_opts m) <=? mt_sizeBytes m)%Z.

(** ** The iterator, a pointer into the live list *)

Record Iterator := mkIterator { it_curr : option nat }.

Definition NewIterator (m : MemTable) : Iterator := mkIterator (Some (mt_head m)).

Definition HasNext (h : list Node) (it : Iterator) : go bool :=
  match it_curr it with
  | None => Ret false
  | Some c => let* nx := forward h c 0 in Ret (match nx with Some _ => true | None => false end)
  end.

Definition Next (h : list Node) (it : Iterator) : go (option nat * Iterator) :=
  let* more := HasNext h it in
  if more then
    let* c := opt_go (it_curr it) in
    let* nx := forward h c 0 in
    Ret (nx, mkIterator nx)
  else Ret (None, it).

(** The loop [for iter.HasNext() { node := iter.Next(); ... }]: the nodes it
    visits. *)
Fixpoint iterate (fuel : nat) (h : list Node) (it : Iterator) : go (list Node) :=
  match fuel with
  | O => OutOfFuel
  | S fuel =>
      let* more := HasNext h it in
      if more then
        let* (nx, it) := Next h it in
        let* l := opt_go nx in
        let* n := node h l in
        let* rest := iterate fuel h it in
        Ret (n :: rest)
      else Ret []
  end.

(** All nodes of a table, through a fresh iterator. *)
Definition all_nodes (m : MemTable) : go (list Node) :=
  iterate (S (length (mt_heap m))) (mt_heap m) (NewIterator m).
