(* ===== verification/MemTableSpec.v ===== *)
(** * The skip list is a sorted map

    The invariant of the MemTable: one list of addresses, strictly sorted by
    key, of which every level is the sublist of the nodes tall enough for it.
    [insert] and [Get] never panic and never run out of fuel on such a table,
    keep the invariant, and implement insertion and lookup in a finite map;
    the iterator enumerates the map in key order. *)

From S2P Require Import Prelude GoBytes KV MemTable.

Local Open Scope nat_scope.

(** ** Linked paths

    [path f x l]: following [f] from [x] visits exactly [l] and ends in nil. *)
Fixpoint path (f : nat → option (option nat)) (x : nat) (l : list nat) : Prop :=
  match l with
  | [] => f x = Some None
  | y :: l => f x = Some (Some y) ∧ path f y l
  end.

(** The last element of [x :: l]. *)
Fixpoint lst (x : nat) (l : list nat) : nat :=
  match l with [] => x | y :: l => lst y l end.

Lemma lst_in x l : lst x l ∈ x :: l.
Proof.
  revert x; induction l as [|y l IH]; intros x; simpl; [set_solver|].
  specialize (IH y). set_solver.
Qed.

Lemma lst_app x p y r : lst x (p ++ y :: r) = lst y r.
Proof. revert x; induction p; simpl; auto. Qed.

Lemma path_drop f x l1 l2 : path f x (l1 ++ l2) → path f (lst x l1) l2.
Proof. revert x; induction l1 as [|y l1 IH]; simpl; [done|]. intros x [_ H]. auto. Qed.

Lemma path_hd f x l : path f x l → f x = Some (head l).
Proof. destruct l; simpl; [done|]. by intros [-> _]. Qed.

Lemma path_ext f g x l :
  (∀ y, y ∈ x :: l → f y = g y) → path f x l → path g x l.
Proof.
  revert x; induction l as [|y l IH]; simpl; intros x He.
  - by rewrite He by set_solver.
  - rewrite He by set_solver. intros [? ?]. split; [done|]. apply IH; [|done]. set_solver.
Qed.

(** Splicing a new address behind the last element of a prefix. *)
Lemma path_insert f g new x l1 l2 :
  path f x (l1 ++ l2) → NoDup (x :: l1 ++ l2) → new ∉ x :: l1 ++ l2 →
  g new = f (lst x l1) → g (lst x l1) = Some (Some new) →
  (∀ y, y ≠ new → y ≠ lst x l1 → g y = f y) →
  path g x (l1 ++ new :: l2).
Proof.
  revert x; induction l1 as [|y l1 IH]; simpl; intros x Hp Hnd Hnew Hgn Hgl Hoth.
  - split; [done|]. apply NoDup_cons in Hnd as [Hx Hnd].
    destruct l2 as [|z l2]; simpl in *; [congruence|].
    destruct Hp as [Hx1 Hp]. split; [congruence|].
    eapply path_ext; [|done]. intros w Hw. symmetry. apply Hoth; [set_solver|].
    intros ->. set_solver.
  - destruct Hp as [Hx Hp]. apply NoDup_cons in Hnd as [Hxn Hnd]. split.
    + rewrite Hoth; [done|set_solver|]. intros E. pose proof (lst_in y l1). set_solver.
    + apply IH; auto. set_solver.
Qed.

(** ** The heap seen through pointers *)

Definition next (h : list Node) (i l : nat) : option (option nat) :=
  n ← h !! l; n_forward n !! i.

Definition key_of (h : list Node) (l : nat) : bytes := default [] (n_Key <$> h !! l).
Definition height (h : list Node) (l : nat) : nat :=
  default 0 (length ∘ n_forward <$> h !! l).

Lemma forward_next h l i : forward h l i = opt_go (next h i l).
Proof. unfold forward, node, next. by destruct (h !! l). Qed.

Lemma node_ok h l : l < length h → ∃ n, h !! l = Some n ∧ node h l = Ret n ∧ key_of h l = n_Key n.
Proof.
  intros [n Hn]%lookup_lt_is_Some. exists n. unfold node, key_of. by rewrite Hn.
Qed.

Lemma advance_spec fuel h key i x l1 l2 :
  path (next h i) x (l1 ++ l2) → Forall (λ l, l < length h) (l1 ++ l2) →
  Forall (λ l, bytes_lt (key_of h l) key) l1 →
  Forall (λ l, ¬ bytes_lt (key_of h l) key) l2 → length l1 < fuel →
  advance fuel h key i x = Ret (lst x l1).
Proof.
  revert x fuel; induction l1 as [|y l1 IH]; intros x [|fuel] Hp Hin Hlo Hhi Hf;
    try (simpl in Hf; lia); cbn [advance lst app]; rewrite forward_next, (path_hd _ _ _ Hp).
  - destruct l2 as [|y l2]; [done|]. cbn.
    apply Forall_cons in Hin as [Hy _], Hhi as [Hhi _].
    destruct (node_ok h y Hy) as (n & _ & -> & Hk). cbn. rewrite <-Hk.
    destruct (bytes_ltb (key_of h y) key) eqn:E; [|done]. by apply bytes_ltb_lt in E.
  - cbn. apply Forall_cons in Hin as [Hy Hin], Hlo as [Hlo1 Hlo].
    destruct (node_ok h y Hy) as (n & _ & -> & Hk). cbn.
    rewrite <-Hk, (proj2 (bytes_ltb_lt _ _) Hlo1). destruct Hp as [_ Hp].
    apply IH; auto. simpl in Hf. lia.
Qed.

(** ** The invariant *)

Definition tall (h : list Node) (i : nat) (l : nat) : Prop := i < height h l.
#[global] Instance tall_dec h i l : Decision (tall h i l).
Proof. unfold tall. apply _. Defined.

Definition key_lt (h : list Node) (a b : nat) : Prop := bytes_lt (key_of h a) (key_of h b).

Definition entry_size (h : list Node) (l : nat) : Z :=
  default 0%Z ((λ n, len (n_Key n) + len (n_Value n))%Z <$> h !! l).

Definition sum_sizes (h : list Node) (ls : list nat) : Z :=
  foldr (λ l acc, (entry_size h l + acc)%Z) 0%Z ls.

Record wf (m : MemTable) (ls : list nat) : Prop := {
  wf_max : 0 < max_level m;
  wf_alloc : (8 * MaxLevel (mt_opts m) ≤ maxAlloc)%Z;
  wf_level : 1 ≤ mt_level m ≤ max_level m;
  wf_head : mt_head m < length (mt_heap m);
  wf_head_height : height (mt_heap m) (mt_head m) = max_level m;
  wf_nodup : NoDup (mt_head m :: ls);
  wf_length : length (mt_heap m) = S (length ls);
  wf_in : Forall (λ l, l < length (mt_heap m)) ls;
  wf_height : Forall (λ l, 1 ≤ height (mt_heap m) l ≤ mt_level m) ls;
  wf_sorted : StronglySorted (key_lt (mt_heap m)) ls;
  wf_path : ∀ i, i < max_level m →
    path (next (mt_heap m) i) (mt_head m) (filter (tall (mt_heap m) i) ls);
  wf_size : mt_sizeBytes m = sum_sizes (mt_heap m) ls }.

(** ** Splitting the list at a key *)

Definition below (h : list Node) (key : bytes) (l : nat) : Prop := bytes_lt (key_of h l) key.

Lemma split_at_key h key ls :
  StronglySorted (key_lt h) ls →
  ∃ lo hi, ls = lo ++ hi ∧ Forall (below h key) lo ∧ Forall (λ l, ¬ below h key l) hi.
Proof.
  induction 1 as [|l ls Hs IH Hl]; [by exists [], []|].
  destruct (decide (below h key l)) as [Hb|Hb].
  - destruct IH as (lo & hi & -> & Hlo & Hhi). exists (l :: lo), hi. auto.
  - exists [], (l :: ls). split_and!; auto. constructor; [done|].
    eapply Forall_impl; [done|]. intros l' Hl' Hb'. apply Hb. unfold below in *.
    by etransitivity.
Qed.

Section descend.
Context (m : MemTable) (lo hi : list nat) (key : bytes).
Context (Hwf : wf m (lo ++ hi)).
Context (Hlo : Forall (below (mt_heap m) key) lo)
  (Hhi : Forall (λ l, ¬ below (mt_heap m) key l) hi).

Let h := mt_heap m.
Let L (i : nat) : list nat := filter (tall h i) lo.
Let R (i : nat) : list nat := filter (tall h i) hi.

Lemma level_path i : i < max_level m → path (next h i) (mt_head m) (L i ++ R i).
Proof using Hwf. intros Hi. unfold L, R. rewrite <-filter_app. by apply (wf_path _ _ Hwf). Qed.

Lemma level_in i : Forall (λ l, l < length h) (L i ++ R i).
Proof using Hwf.
  unfold L, R. rewrite <-filter_app. apply Forall_filter_keep, (wf_in _ _ Hwf).
Qed.

Lemma level_mono i j : j ≤ i → L i ⊆ L j.
Proof. intros Hj l. unfold L. rewrite !list_elem_of_filter. unfold tall. intros []. split; [lia|done]. Qed.

Lemma length_L i : length (L i) ≤ length h.
Proof using Hwf.
  unfold L, h. rewrite (wf_length _ _ Hwf), length_app.
  pose proof (length_filter (tall (mt_heap m) i) lo). lia.
Qed.

(** Moving right on level [i] from any visited address ends behind [lo]. *)
Lemma advance_level i x :
  i < max_level m → x ∈ mt_head m :: L i →
  advance (S (length h)) h key i x = Ret (lst (mt_head m) (L i)).
Proof using Hwf Hlo Hhi.
  intros Hi [p [r Hx]]%list_elem_of_split.
  assert (lst (mt_head m) (L i) = lst x r) as ->.
  { destruct p as [|y p]; injection Hx as Ey Hx; [by rewrite Hx, Ey|].
    rewrite Hx. apply lst_app. }
  assert (path (next h i) x (r ++ R i)) as Hp.
  { pose proof (level_path i Hi) as Hp. destruct p as [|y p]; injection Hx as Ey Hx.
    - by rewrite <-Hx, <-Ey.
    - rewrite Hx, <-app_assoc in Hp. apply (path_drop _ _ p) in Hp. simpl in Hp. tauto. }
  assert (r ⊆ L i) as Hsub.
  { destruct p as [|y p]; injection Hx as _ Hx; rewrite Hx; set_solver. }
  apply advance_spec with (l2 := R i); [done|..].
  - pose proof (level_in i) as Hin. rewrite Forall_app in *. destruct Hin as [Hin ?].
    split; [|done]. rewrite Forall_forall in *. auto.
  - rewrite Forall_forall in *. intros l Hl. apply Hlo.
    specialize (Hsub l Hl). unfold L in Hsub. apply list_elem_of_filter in Hsub. tauto.
  - unfold R. by apply Forall_filter_keep.
  - pose proof (length_L i) as Hlen. assert (length r ≤ length (L i)); [|lia].
    destruct p as [|y p]; injection Hx as _ Hx; rewrite Hx; [done|].
    rewrite length_app. simpl. lia.
Qed.

Lemma lst_level_in i j : j ≤ i → lst (mt_head m) (L i) ∈ mt_head m :: L j.
Proof.
  intros Hj. pose proof (lst_in (mt_head m) (L i)) as Hl.
  apply elem_of_cons in Hl as [->|Hl]; [by left|]. right. by apply (level_mono i).
Qed.

Lemma descend_get_spec lv x :
  lv ≤ max_level m → x ∈ mt_head m :: L (pred lv) → 0 < lv →
  descend_get h key lv x = Ret (lst (mt_head m) (L 0)).
Proof using Hwf Hlo Hhi.
  revert x; induction lv as [|lv IH]; intros x Hlv Hx H0; [lia|].
  cbn [descend_get]. rewrite advance_level by (done || lia). cbn.
  destruct lv as [|lv]; [done|]. apply IH; [lia| |lia]. apply lst_level_in. simpl. lia.
Qed.

Lemma descend_spec lv x upd :
  lv ≤ max_level m → lv ≤ length upd → x ∈ mt_head m :: L (pred lv) → 0 < lv →
  ∃ upd', descend h key lv x upd = Ret (lst (mt_head m) (L 0), upd')
    ∧ length upd' = length upd
    ∧ (∀ j, j < lv → upd' !! j = Some (Some (lst (mt_head m) (L j))))
    ∧ (∀ j, lv ≤ j → upd' !! j = upd !! j).
Proof using Hwf Hlo Hhi.
  revert x upd; induction lv as [|lv IH]; intros x upd Hlv Hlen Hx H0; [lia|].
  cbn [descend]. rewrite advance_level by (done || lia). cbn [bind_go].
  unfold set_update at 1. rewrite guard_go_true by (apply Nat.ltb_lt; lia). cbn [bind_go].
  set (u := <[lv := _]> upd).
  assert (length u = length upd) as Hlu by apply length_insert.
  assert (u !! lv = Some (Some (lst (mt_head m) (L lv)))) as Hu
    by (apply list_lookup_insert_eq; lia).
  destruct lv as [|lv].
  - exists u. split_and!; [done|done| |].
    + intros j Hj. by replace j with 0 by lia.
    + intros j Hj. apply list_lookup_insert_ne. lia.
  - destruct (IH (lst (mt_head m) (L (S lv))) u) as (upd' & E & Hl & Hlt & Hge);
      [lia|lia| |lia|].
    { apply lst_level_in. simpl. lia. }
    exists upd'. split_and!; [done|lia| |].
    + intros j Hj. destruct (decide (j = S lv)) as [->|]; [|apply Hlt; lia].
      by rewrite Hge by lia.
    + intros j Hj. rewrite Hge by lia. apply list_lookup_insert_ne. lia.
Qed.

Lemma level0 : L 0 = lo ∧ R 0 = hi.
Proof using Hwf.
  pose proof (wf_height _ _ Hwf) as Hh. apply Forall_app in Hh as [H1 H2].
  unfold L, R. split; apply filter_all; (eapply Forall_impl; [done|]);
    intros l; unfold tall, h; lia.
Qed.

(** The node after the landing place is the first one not below the key. *)
Lemma landing : forward h (lst (mt_head m) (L 0)) 0 = Ret (head hi).
Proof using Hwf.
  rewrite forward_next. pose proof (level_path 0 (wf_max _ _ Hwf)) as Hp.
  apply path_drop, path_hd in Hp. rewrite Hp. simpl. by rewrite (proj2 level0).
Qed.

(** The key is in the table exactly when it is the key of that node. *)
Lemma match_landing :
  match_key h (head hi) key =
    Ret match hi with
        | c :: _ => match h !! c with
                    | Some n => if decide (n_Key n = key) then Some (c, n) else None
                    | None => None
                    end
        | [] => None
        end.
Proof using Hwf Hhi.
  destruct hi as [|c hi']; [done|]. cbn.
  assert (c < length h) as Hc.
  { pose proof (wf_in _ _ Hwf) as Hin. apply Forall_app in Hin as [_ Hin].
    by apply Forall_cons in Hin as [Hin _]. }
  destruct (node_ok h c Hc) as (n & Hn & -> & _). cbn. rewrite Hn, Equal_spec.
  by destruct (decide (n_Key n = key)); [rewrite bool_decide_true|rewrite bool_decide_false].
Qed.
End descend.

(** ** The table as a map *)

Abbreviation entry := (bytes * (bytes * bool))%type.

Definition entry_of_node (n : Node) : entry := (n_Key n, (n_Value n, n_Tombstone n)).

Definition entries (h : list Node) (ls : list nat) : list entry :=
  omap (λ l, entry_of_node <$> h !! l) ls.

Definition contents (h : list Node) (ls : list nat) : gmap bytes (bytes * bool) :=
  list_to_map (entries h ls).

Lemma entries_app h l1 l2 : entries h (l1 ++ l2) = entries h l1 ++ entries h l2.
Proof. apply omap_app. Qed.

Lemma entries_cons h l ls n :
  h !! l = Some n → entries h (l :: ls) = entry_of_node n :: entries h ls.
Proof. intros Hn. unfold entries. simpl. by rewrite Hn. Qed.

Lemma entries_ext h h' ls :
  (∀ l, l ∈ ls → entry_of_node <$> h !! l = entry_of_node <$> h' !! l) →
  entries h ls = entries h' ls.
Proof.
  intros He. induction ls as [|l ls IH]; [done|].
  change (entries ?x (l :: ls)) with
    (match entry_of_node <$> x !! l with Some e => e :: entries x ls | None => entries x ls end).
  rewrite He, IH by set_solver. done.
Qed.

Lemma entries_key h ls k x : (k, x) ∈ entries h ls → ∃ l, l ∈ ls ∧ key_of h l = k.
Proof.
  intros (l & Hl & Hx)%list_elem_of_omap. destruct (h !! l) as [n|] eqn:E; [|done].
  injection Hx as <- _. exists l. unfold key_of. by rewrite E.
Qed.

Lemma entries_no_key h ls k :
  Forall (λ l, key_of h l ≠ k) ls → k ∉ (entries h ls).*1.
Proof.
  intros Hne ([k' x] & -> & Hin)%list_elem_of_fmap.
  apply entries_key in Hin as (l & Hl & E). rewrite Forall_forall in Hne.
  by apply (Hne l).
Qed.

Lemma list_to_map_mid (l1 l2 : list entry) k x :
  k ∉ l1.*1 →
  list_to_map (l1 ++ (k, x) :: l2) =@{gmap bytes (bytes * bool)} <[k := x]> (list_to_map (l1 ++ l2)).
Proof.
  induction l1 as [|[k' x'] l1 IH]; simpl; intros Hk; [done|].
  rewrite IH by set_solver. rewrite insert_insert_ne; [done|set_solver].
Qed.

(** In a sorted table split at [key], the key sits at the split or nowhere. *)
Lemma above_split h key c hi :
  StronglySorted (key_lt h) (c :: hi) → ¬ below h key c →
  Forall (λ l, key_of h l ≠ key) hi ∧ (key_of h c ≠ key → Forall (λ l, key_of h l ≠ key) (c :: hi)).
Proof.
  intros Hs Hb. apply StronglySorted_inv in Hs as [_ Hc].
  assert (Forall (λ l, key_of h l ≠ key) hi) as Hne.
  { eapply Forall_impl; [done|]. intros l Hl E. apply Hb. unfold below. by rewrite <-E. }
  split; [done|]. by constructor.
Qed.

Lemma below_ne h key ls : Forall (below h key) ls → Forall (λ l, key_of h l ≠ key) ls.
Proof.
  intros H. eapply Forall_impl; [done|]. intros l Hl E. unfold below in Hl. rewrite E in Hl.
  by destruct (irreflexivity bytes_lt key Hl).
Qed.

Lemma contents_split m lo hi key :
  wf m (lo ++ hi) → Forall (below (mt_heap m) key) lo →
  Forall (λ l, ¬ below (mt_heap m) key l) hi →
  contents (mt_heap m) (lo ++ hi) !! key =
    match hi with
    | c :: _ => match mt_heap m !! c with
                | Some n => if decide (n_Key n = key)
                            then Some (n_Value n, n_Tombstone n) else None
                | None => None
                end
    | [] => None
    end.
Proof.
  intros Hwf Hlo Hhi. unfold contents. rewrite entries_app.
  pose proof (entries_no_key _ _ _ (below_ne _ _ _ Hlo)) as Hnlo.
  destruct hi as [|c hi].
  { rewrite app_nil_r. by apply not_elem_of_list_to_map_1. }
  pose proof (wf_in _ _ Hwf) as Hin. apply Forall_app in Hin as [_ Hin].
  apply Forall_cons in Hin as [Hc _], Hhi as [Hcb Hhi].
  destruct (lookup_lt_is_Some_2 _ _ Hc) as [n Hn]. rewrite Hn.
  pose proof (wf_sorted _ _ Hwf) as Hs. apply StronglySorted_app_1_r in Hs.
  destruct (above_split _ _ _ _ Hs Hcb) as [Hhine Hall].
  assert (key_of (mt_heap m) c = n_Key n) as Hkc by (unfold key_of; by rewrite Hn).
  case_decide as E.
  - rewrite (entries_cons _ _ _ _ Hn). unfold entry_of_node at 1. rewrite E.
    rewrite list_to_map_mid by done. apply lookup_insert_eq.
  - apply not_elem_of_list_to_map_1. rewrite fmap_app, elem_of_app.
    intros [?|Hx]; [done|]. revert Hx. apply entries_no_key, Hall. congruence.
Qed.

Lemma Get_ok m ls key :
  wf m ls →
  Get m key = Ret match contents (mt_heap m) ls !! key with
                  | Some (v, t) => (v, t, true)
                  | None => ([], false, false)
                  end.
Proof.
  intros Hwf. destruct (split_at_key (mt_heap m) key ls) as (lo & hi & -> & Hlo & Hhi).
  { by apply wf_sorted. }
  unfold Get. pose proof (wf_level _ _ Hwf).
  rewrite (descend_get_spec m lo hi key Hwf Hlo Hhi) by (lia || by left). cbn [bind_go].
  rewrite (landing m lo hi Hwf). cbn [bind_go].
  rewrite (match_landing m lo hi key Hwf Hhi). cbn [bind_go].
  rewrite (contents_split m lo hi key) by done.
  destruct hi as [|c hi]; [done|]. destruct (mt_heap m !! c) as [n|]; [|done].
  by case_decide.
Qed.

(** ** Inserting *)

Lemma random_loop_range rnd lvl maxl p lvl' rnd' :
  random_loop rnd lvl maxl p = (lvl', rnd') → 1 ≤ lvl ≤ maxl → 1 ≤ lvl' ≤ maxl.
Proof.
  revert lvl; induction rnd as [|x rnd IH]; simpl; intros lvl E Hl; [by injection E as <- _|].
  destruct (float32_lt x p && (lvl <? maxl)) eqn:Eb; [|by injection E as <- _].
  apply andb_true_iff in Eb as [_ Eb%Nat.ltb_lt]. apply IH in E; lia.
Qed.

Lemma raise_levels_spec u hd i k :
  i + k ≤ length u →
  ∃ u', raise_levels u hd i k = Ret u' ∧ length u' = length u
    ∧ (∀ j, i ≤ j < i + k → u' !! j = Some (Some hd))
    ∧ (∀ j, j < i ∨ i + k ≤ j → u' !! j = u !! j).
Proof.
  revert u i; induction k as [|k IH]; intros u i Hlen; cbn [raise_levels].
  { exists u. split_and!; try done. lia. }
  unfold set_update. rewrite guard_go_true by (apply Nat.ltb_lt; lia). cbn [bind_go].
  destruct (IH (<[i := Some hd]> u) (S i)) as (u' & E & Hl & Hin & Hout).
  { rewrite length_insert. lia. }
  rewrite length_insert in Hl. exists u'. split_and!; [done|done| |].
  - intros j Hj. destruct (decide (j = i)) as [->|]; [|apply Hin; lia].
    rewrite Hout by lia. apply list_lookup_insert_eq. lia.
  - intros j Hj. rewrite Hout by lia. apply list_lookup_insert_ne. lia.
Qed.

(** What linking leaves alone: keys, values, flags and heights. *)
Definition shape (n : Node) : entry * nat := (entry_of_node n, length (n_forward n)).
Definition same_shape (h h' : list Node) : Prop := ∀ l, shape <$> h !! l = shape <$> h' !! l.

#[global] Instance same_shape_trans : Transitive same_shape.
Proof. intros a b c H1 H2 l. by rewrite H1. Qed.

Lemma shape_key h h' l : shape <$> h !! l = shape <$> h' !! l → key_of h l = key_of h' l.
Proof.
  unfold key_of, shape. destruct (h !! l), (h' !! l); simpl; naive_solver.
Qed.
Lemma shape_height h h' l : shape <$> h !! l = shape <$> h' !! l → height h l = height h' l.
Proof.
  unfold height, shape. destruct (h !! l), (h' !! l); simpl; naive_solver.
Qed.
Lemma shape_entry (h h' : list Node) l :
  shape <$> h !! l = shape <$> h' !! l → entry_of_node <$> h !! l = entry_of_node <$> h' !! l.
Proof. intros H. apply (f_equal (fmap fst)) in H. by rewrite <-!option_fmap_compose in H. Qed.
Lemma entry_sizes h h' l :
  entry_of_node <$> h !! l = entry_of_node <$> h' !! l → entry_size h l = entry_size h' l.
Proof.
  unfold entry_size. destruct (h !! l) as [n|], (h' !! l) as [n'|]; simpl; try done.
  unfold entry_of_node. intros [= -> -> _]. done.
Qed.

Lemma set_forward_spec h l i v :
  i < height h l →
  ∃ h', set_forward h l i v = Ret h' ∧ same_shape h h' ∧ length h' = length h
    ∧ next h' i l = Some v
    ∧ (∀ j x, j ≠ i ∨ x ≠ l → next h' j x = next h j x).
Proof.
  unfold height, set_forward, node. destruct (h !! l) as [n|] eqn:E; simpl; [|lia].
  intros Hi. rewrite guard_go_true by (by apply Nat.ltb_lt).
  assert (l < length h) as Hl by by eapply lookup_lt_Some.
  eexists. split; [done|]. split_and!.
  - intros x. destruct (decide (x = l)) as [->|].
    + rewrite list_lookup_insert_eq, E by done. simpl. f_equal.
      unfold shape, entry_of_node. simpl. by rewrite length_insert.
    + by rewrite list_lookup_insert_ne.
  - by rewrite length_insert.
  - unfold next. rewrite list_lookup_insert_eq by done. simpl.
    by apply list_lookup_insert_eq.
  - intros j x Hne. unfold next. destruct (decide (x = l)) as [->|].
    + rewrite list_lookup_insert_eq, E by done. simpl.
      apply list_lookup_insert_ne. naive_solver.
    + by rewrite list_lookup_insert_ne.
Qed.

Lemma link_spec h new upd u i k :
  (∀ j, i ≤ j < i + k → upd !! j = Some (Some (u j)) ∧ u j ≠ new
        ∧ j < height h (u j) ∧ j < height h new) →
  ∃ h', link h new upd i k = Ret h' ∧ same_shape h h' ∧ length h' = length h
    ∧ (∀ j, i ≤ j < i + k →
         next h' j new = next h j (u j) ∧ next h' j (u j) = Some (Some new)
         ∧ ∀ x, x ≠ new → x ≠ u j → next h' j x = next h j x)
    ∧ (∀ j x, j < i ∨ i + k ≤ j → next h' j x = next h j x).
Proof.
  revert h i; induction k as [|k IH]; intros h i Hpre; cbn [link].
  { exists h. split_and!; try done. lia. }
  destruct (Hpre i ltac:(lia)) as (Hu & Hne & Hhu & Hhn). rewrite Hu. cbn [opt_go bind_go].
  rewrite forward_next.
  assert (∃ nx, next h i (u i) = Some nx) as [nx Hnx].
  { unfold next, height in *. destruct (h !! u i) as [n|]; simpl in *; [|lia].
    by apply lookup_lt_is_Some. }
  rewrite Hnx. cbn [opt_go bind_go].
  destruct (set_forward_spec h new i nx Hhn) as (h1 & -> & Hs1 & Hl1 & Hn1 & Ho1). cbn [bind_go].
  destruct (set_forward_spec h1 (u i) i (Some new)) as (h2 & -> & Hs2 & Hl2 & Hn2 & Ho2).
  { by rewrite <-(shape_height h h1). }
  cbn [bind_go]. assert (same_shape h h2) as Hs by by etransitivity.
  destruct (IH h2 (S i)) as (h' & E & Hs' & Hl' & Hin & Hout).
  { intros j Hj. rewrite <-!(shape_height h h2) by done. apply Hpre. lia. }
  exists h'. split_and!; [done|by etransitivity|lia| |].
  - intros j Hj. destruct (decide (j = i)) as [->|Hji].
    + rewrite !Hout by lia. split_and!.
      * rewrite Ho2 by auto. congruence.
      * done.
      * intros x Hx1 Hx2. rewrite Hout by lia. by rewrite Ho2, Ho1 by auto.
    + destruct (Hin j ltac:(lia)) as (H1 & H2 & H3). split_and!; [|done|].
      * rewrite H1. by rewrite Ho2, Ho1 by auto.
      * intros x Hx1 Hx2. rewrite H3 by done. by rewrite Ho2, Ho1 by auto.
  - intros j x Hj. rewrite Hout by lia.
    assert (j ≠ i) by lia. by rewrite Ho2, Ho1 by auto.
Qed.

Lemma sum_sizes_app h l1 l2 : sum_sizes h (l1 ++ l2) = (sum_sizes h l1 + sum_sizes h l2)%Z.
Proof. induction l1 as [|l l1 IH]; simpl; [lia|]. rewrite IH. lia. Qed.

Lemma sum_sizes_ext h h' ls :
  (∀ l, l ∈ ls → entry_of_node <$> h !! l = entry_of_node <$> h' !! l) →
  sum_sizes h ls = sum_sizes h' ls.
Proof.
  intros He. induction ls as [|l ls IH]; simpl; [done|].
  rewrite (entry_sizes h h' l), IH by set_solver. done.
Qed.

Lemma sorted_ext h h' ls :
  (∀ l, l ∈ ls → key_of h l = key_of h' l) →
  StronglySorted (key_lt h) ls → StronglySorted (key_lt h') ls.
Proof.
  intros He Hs. induction Hs as [|l ls Hs IH Hl]; constructor.
  - apply IH. set_solver.
  - rewrite Forall_forall in *. intros x Hx. unfold key_lt in *.
    rewrite <-!He by set_solver. auto.
Qed.

Lemma filter_tall_ext h h' i (ls : list nat) :
  (∀ l, l ∈ ls → height h l = height h' l) → filter (tall h i) ls = filter (tall h' i) ls.
Proof.
  intros He. induction ls as [|l ls IH]; [done|]. rewrite !filter_cons.
  rewrite IH by set_solver. pose proof (He l ltac:(by left)) as E.
  destruct (decide (tall h i l)), (decide (tall h' i l)); unfold tall in *; done || lia.
Qed.

(** Overwriting the value of a node keeps every pointer. *)
Section overwrite.
Context (m : MemTable) (lo hi : list nat) (c : nat) (n : Node) (value : bytes) (t : bool).
Context (Hwf : wf m (lo ++ c :: hi)) (Hn : mt_heap m !! c = Some n).

Let h := mt_heap m.
Let h' := <[c := mkNode (n_Key n) value t (n_forward n)]> h.
Let size := (mt_sizeBytes m + ((len (n_Key n) + len value) - (len (n_Key n) + len (n_Value n))))%Z.
Let m' := mkMemTable h' (mt_head m) (mt_level m) size (mt_opts m) (mt_rnd m).

Lemma overwrite_lookup l :
  h' !! l = if decide (l = c) then Some (mkNode (n_Key n) value t (n_forward n)) else h !! l.
Proof using Hn.
  unfold h'. case_decide as E; [subst; apply list_lookup_insert_eq; by eapply lookup_lt_Some|].
  by apply list_lookup_insert_ne.
Qed.

Lemma overwrite_key l : key_of h' l = key_of h l.
Proof using Hn.
  unfold key_of. rewrite overwrite_lookup. case_decide; [subst|done]. unfold h. by rewrite Hn.
Qed.
Lemma overwrite_height l : height h' l = height h l.
Proof using Hn.
  unfold height. rewrite overwrite_lookup. case_decide; [subst|done]. unfold h. by rewrite Hn.
Qed.
Lemma overwrite_next i l : next h' i l = next h i l.
Proof using Hn.
  unfold next. rewrite overwrite_lookup. case_decide; [subst|done]. unfold h. by rewrite Hn.
Qed.
Lemma overwrite_other l : l ≠ c → entry_of_node <$> h !! l = entry_of_node <$> h' !! l.
Proof using Hn. intros Hl. by rewrite overwrite_lookup, decide_False. Qed.

Lemma overwrite_nodup : c ∉ lo ∧ c ∉ hi.
Proof using Hwf.
  pose proof (wf_nodup _ _ Hwf) as Hnd. apply NoDup_cons in Hnd as [_ Hnd].
  apply NoDup_app in Hnd as (_ & Hd & Hnd). apply NoDup_cons in Hnd as [Hc _].
  split; [|done]. intros Hx. apply (Hd c Hx). by left.
Qed.

Lemma overwrite_wf : wf m' (lo ++ c :: hi).
Proof using Hwf Hn.
  destruct overwrite_nodup as [Hlo Hhi].
  destruct Hwf. split; cbn [m' mt_heap mt_head mt_level mt_sizeBytes mt_opts]; try done.
  - unfold h'. by rewrite length_insert.
  - rewrite overwrite_height. done.
  - unfold h'. by rewrite length_insert.
  - unfold h'. by rewrite length_insert.
  - eapply Forall_impl; [exact wf_height0|]. intros l. by rewrite overwrite_height.
  - eapply sorted_ext; [|exact wf_sorted0]. intros l _. by rewrite overwrite_key.
  - intros i Hi. rewrite (filter_tall_ext h' h) by (intros; apply overwrite_height).
    eapply path_ext; [|by apply wf_path0]. intros y _. by rewrite overwrite_next.
  - unfold size. rewrite wf_size0, !sum_sizes_app. cbn [sum_sizes foldr].
    fold (sum_sizes (mt_heap m) hi) (sum_sizes h' hi).
    rewrite (sum_sizes_ext (mt_heap m) h' lo), (sum_sizes_ext (mt_heap m) h' hi).
    + unfold entry_size. rewrite overwrite_lookup, decide_True, Hn by done. simpl. lia.
    + intros l Hl. apply overwrite_other. congruence.
    + intros l Hl. apply overwrite_other. congruence.
Qed.

Lemma overwrite_contents :
  n_Key n ∉ (entries h lo).*1 →
  contents h' (lo ++ c :: hi) = <[n_Key n := (value, t)]> (contents h (lo ++ c :: hi)).
Proof using Hwf Hn.
  intros Hk. destruct overwrite_nodup as [Hlo Hhi]. unfold contents. rewrite !entries_app.
  rewrite (entries_cons h _ _ _ Hn).
  rewrite (entries_cons h' c hi (mkNode (n_Key n) value t (n_forward n)))
    by by rewrite overwrite_lookup, decide_True.
  rewrite <-(entries_ext h h' lo), <-(entries_ext h h' hi)
    by (intros l Hl; apply overwrite_other; congruence).
  unfold entry_of_node. cbn [n_Key n_Value n_Tombstone].
  rewrite !list_to_map_mid by done. by rewrite insert_insert_eq.
Qed.
End overwrite.

Lemma lookup_snoc_ne {A} (h : list A) x l : l ≠ length h → (h ++ [x]) !! l = h !! l.
Proof.
  intros Hl. destruct (decide (l < length h)); [by apply lookup_app_l|].
  rewrite lookup_ge_None_2 by (rewrite length_app; simpl; lia).
  by rewrite lookup_ge_None_2 by lia.
Qed.

Lemma StronglySorted_mid {A} (R : A → A → Prop) lo x hi :
  StronglySorted R (lo ++ hi) → Forall (λ l, R l x) lo → Forall (R x) hi →
  StronglySorted R (lo ++ x :: hi).
Proof.
  induction lo as [|l lo IH]; simpl; intros Hs Hlo Hhi; [by constructor|].
  apply StronglySorted_inv in Hs as [Hs Hl]. apply Forall_cons in Hlo as [Hx Hlo].
  constructor; [auto|]. rewrite !Forall_app in *. destruct Hl. auto.
Qed.

(** Splicing in a new node behind the nodes below its key. *)
Section splice.
Context (m : MemTable) (lo hi : list nat) (key value : bytes) (t : bool) (lv : nat).
Context (upd : list (option nat)) (rnd : list float32).
Context (Hwf : wf m (lo ++ hi)) (Hlv : 1 ≤ lv ≤ max_level m).

Let h := mt_heap m.
Let new := length h.
Let h0 := h ++ [mkNode key value t (replicate lv None)].
Let u (j : nat) : nat := lst (mt_head m) (filter (tall h j) lo).
Context (Hupd : ∀ j, j < lv → upd !! j = Some (Some (u j))).
Context (Hlo : Forall (below h key) lo) (Hhi : Forall (λ l, bytes_lt key (key_of h l)) hi).

Lemma old_lt l : l ∈ mt_head m :: lo ++ hi → l < new.
Proof using Hwf.
  pose proof (wf_in _ _ Hwf) as Hin. rewrite Forall_forall in Hin.
  intros [->|Hl]%elem_of_cons; [apply (wf_head _ _ Hwf)|by apply Hin].
Qed.

Lemma splice_fresh : new ∉ mt_head m :: lo ++ hi.
Proof using Hwf. intros Hl%old_lt. by apply Nat.lt_irrefl in Hl. Qed.

Lemma u_old j : u j ∈ mt_head m :: lo ++ hi.
Proof.
  unfold u. pose proof (lst_in (mt_head m) (filter (tall h j) lo)) as Hl.
  apply elem_of_cons in Hl as [->|Hl]; [by left|].
  apply list_elem_of_filter in Hl as [_ Hl]. right. apply elem_of_app. by left.
Qed.

Lemma u_tall j : j < lv → j < height h (u j).
Proof using Hwf Hlv.
  intros Hj. unfold u. pose proof (lst_in (mt_head m) (filter (tall h j) lo)) as Hl.
  apply elem_of_cons in Hl as [->|Hl].
  - unfold h. rewrite (wf_head_height _ _ Hwf). lia.
  - by apply list_elem_of_filter in Hl as [Ht _].
Qed.

Lemma h0_old l : l ≠ new → h0 !! l = h !! l.
Proof. apply lookup_snoc_ne. Qed.
Lemma h0_new : h0 !! new = Some (mkNode key value t (replicate lv None)).
Proof. unfold h0. by rewrite lookup_app_r, Nat.sub_diag by done. Qed.

Lemma h0_height l : l ≠ new → height h0 l = height h l.
Proof. intros Hl. unfold height. by rewrite h0_old. Qed.
Lemma h0_key l : l ≠ new → key_of h0 l = key_of h l.
Proof. intros Hl. unfold key_of. by rewrite h0_old. Qed.
Lemma h0_next j l : l ≠ new → next h0 j l = next h j l.
Proof. intros Hl. unfold next. by rewrite h0_old. Qed.
Lemma h0_height_new : height h0 new = lv.
Proof. unfold height. rewrite h0_new. simpl. apply length_replicate. Qed.

(** The heap after linking. *)
Definition linked (h' : list Node) : Prop :=
  same_shape h0 h' ∧ length h' = S new
  ∧ (∀ j, j < lv → next h' j new = next h j (u j) ∧ next h' j (u j) = Some (Some new)
       ∧ ∀ x, x ≠ new → x ≠ u j → next h' j x = next h j x)
  ∧ (∀ j x, lv ≤ j → x ≠ new → next h' j x = next h j x).

Lemma splice_link : ∃ h', link h0 new upd 0 lv = Ret h' ∧ linked h'.
Proof using Hwf Hlv Hupd.
  assert (∀ j, u j ≠ new) as Hne by (intros j E; apply splice_fresh; rewrite <-E; apply u_old).
  destruct (link_spec h0 new upd u 0 lv) as (h' & E & Hs & Hl & Hin & Hout).
  { intros j Hj. rewrite h0_height, h0_height_new by done.
    split_and!; [apply Hupd; lia|done|apply u_tall; lia|lia]. }
  exists h'. split; [done|]. split_and!; [done| | |].
  - rewrite Hl. unfold h0. rewrite length_app. simpl. unfold new. lia.
  - intros j Hj. destruct (Hin j ltac:(lia)) as (H1 & H2 & H3).
    rewrite h0_next in H1 by done. split_and!; [done|done|].
    intros x Hx1 Hx2. by rewrite H3, h0_next.
  - intros j x Hj Hx. rewrite Hout by lia. by rewrite h0_next.
Qed.

Section after.
Context (h' : list Node) (Hlinked : linked h').

Lemma after_height l : height h' l = if decide (l = new) then lv else height h l.
Proof using Hlinked.
  destruct Hlinked as (Hs & _). rewrite <-(shape_height h0 h' l) by done.
  case_decide; [subst; apply h0_height_new|by apply h0_height].
Qed.
Lemma after_key l : key_of h' l = if decide (l = new) then key else key_of h l.
Proof using Hlinked.
  destruct Hlinked as (Hs & _). rewrite <-(shape_key h0 h' l) by done.
  case_decide; [|by apply h0_key]. subst. unfold key_of. by rewrite h0_new.
Qed.
Lemma after_entry l :
  entry_of_node <$> h' !! l =
    if decide (l = new) then Some (key, (value, t)) else entry_of_node <$> h !! l.
Proof using Hlinked.
  destruct Hlinked as (Hs & _). rewrite <-(shape_entry h0 h' l) by done.
  case_decide; [subst; by rewrite h0_new|by rewrite h0_old].
Qed.

Lemma after_old_ne l : l ∈ lo ++ hi → l ≠ new.
Proof using Hwf. intros Hl ->. apply splice_fresh. by right. Qed.

Lemma after_filter i (ls : list nat) :
  (∀ l, l ∈ ls → l ∈ lo ++ hi) → filter (tall h' i) ls = filter (tall h i) ls.
Proof using All.
  intros Hls. apply filter_tall_ext. intros l Hl. rewrite after_height.
  rewrite decide_False; [done|]. by apply after_old_ne, Hls.
Qed.

Lemma after_path i :
  i < max_level m → path (next h' i) (mt_head m) (filter (tall h' i) (lo ++ new :: hi)).
Proof using All.
  intros Hi. pose proof (wf_path _ _ Hwf i Hi) as Hp. fold h in Hp.
  rewrite filter_app in *. rewrite filter_cons.
  rewrite !after_filter by set_solver.
  pose proof splice_fresh as Hfr. pose proof (wf_nodup _ _ Hwf) as Hnd.
  set (L := filter (tall h i) lo) in *. set (R := filter (tall h i) hi) in *.
  assert (L ++ R ⊆ lo ++ hi) as Hsub
    by (unfold L, R; rewrite <-filter_app; intros x; rewrite list_elem_of_filter; tauto).
  pose proof (after_height new) as Hhn. rewrite decide_True in Hhn by done.
  destruct Hlinked as (_ & _ & Hin & Hout).
  case_decide as Hlt; unfold tall in Hlt; rewrite Hhn in Hlt.
  - destruct (Hin i Hlt) as (H1 & H2 & H3).
    eapply path_insert; [exact Hp| | |exact H1|exact H2|exact H3]; [|set_solver].
    apply NoDup_cons in Hnd as [Hh Hnd]. apply NoDup_cons. split; [set_solver|].
    unfold L, R. rewrite <-filter_app. by apply NoDup_filter.
  - eapply path_ext; [|exact Hp]. intros y Hy. symmetry. apply Hout; [lia|].
    intros ->. set_solver.
Qed.

Lemma after_sorted : StronglySorted (key_lt h') (lo ++ new :: hi).
Proof using All.
  assert (∀ l, l ∈ lo ++ hi → key_of h' l = key_of h l) as Hk.
  { intros l Hl. rewrite after_key, decide_False; [done|]. by apply after_old_ne. }
  assert (key_of h' new = key) as Hkn by by rewrite after_key, decide_True.
  apply StronglySorted_mid.
  - eapply sorted_ext; [|apply (wf_sorted _ _ Hwf)]. intros l Hl. by rewrite Hk.
  - rewrite Forall_forall in *. intros l Hl. unfold key_lt. rewrite Hkn, Hk by set_solver.
    by apply Hlo.
  - rewrite Forall_forall in *. intros l Hl. unfold key_lt. rewrite Hkn, Hk by set_solver.
    by apply Hhi.
Qed.

Let m' := mkMemTable h' (mt_head m) (if mt_level m <? lv then lv else mt_level m)
            (mt_sizeBytes m + (len key + len value))%Z (mt_opts m) rnd.

Lemma splice_wf : wf m' (lo ++ new :: hi).
Proof using All.
  assert (∀ l, l ∈ mt_head m :: lo ++ hi → height h' l = height h l) as Hh.
  { intros l Hl. rewrite after_height, decide_False; [done|].
    intros ->. by apply splice_fresh in Hl. }
  assert (length h' = S new) as Hlen by apply Hlinked.
  assert (mt_level m ≤ if mt_level m <? lv then lv else mt_level m) as Hmono
    by (destruct (Nat.ltb_spec (mt_level m) lv); lia).
  pose proof splice_fresh as Hfr. pose proof Hwf as Hwf'.
  destruct Hwf'. split; cbn [m' mt_heap mt_head mt_level mt_sizeBytes mt_opts]; try done.
  - change (max_level m') with (max_level m). destruct (Nat.ltb_spec (mt_level m) lv); lia.
  - rewrite Hlen. fold h in wf_head0. unfold new. lia.
  - rewrite Hh by set_solver. done.
  - apply NoDup_cons in wf_nodup0 as [Hhd Hnd]. apply NoDup_cons.
    apply NoDup_app in Hnd as (Hn1 & Hd & Hn2). split; [set_solver|].
    apply NoDup_app. split_and!; [done|set_solver|]. apply NoDup_cons. split; [set_solver|done].
  - rewrite Hlen, length_app. simpl. fold h new in wf_length0. rewrite length_app in wf_length0. lia.
  - rewrite Forall_forall in *. intros l Hl. rewrite Hlen.
    assert (l = new ∨ l ∈ lo ++ hi) as [->|Hl'] by set_solver; [lia|].
    specialize (wf_in0 l Hl'). fold h new in wf_in0. lia.
  - rewrite Forall_forall in *. intros l Hl.
    assert (l = new ∨ l ∈ lo ++ hi) as [->|Hl'] by set_solver.
    + rewrite after_height, decide_True by done. destruct (Nat.ltb_spec (mt_level m) lv); lia.
    + rewrite Hh by set_solver. specialize (wf_height0 l Hl'). fold h in wf_height0. lia.
  - apply after_sorted.
  - intros i Hi. by apply after_path.
  - rewrite wf_size0. fold h. rewrite !sum_sizes_app. cbn [sum_sizes foldr].
    fold (sum_sizes h' hi).
    assert (∀ l, l ∈ lo ++ hi → entry_of_node <$> h !! l = entry_of_node <$> h' !! l) as He.
    { intros l Hl. rewrite after_entry, decide_False; [done|]. by apply after_old_ne. }
    rewrite (sum_sizes_ext h h' lo), (sum_sizes_ext h h' hi) by (intros; apply He; set_solver).
    assert (entry_size h' new = (len key + len value)%Z) as ->; [|lia].
    pose proof (after_entry new) as Hen. rewrite decide_True in Hen by done.
    unfold entry_size. destruct (h' !! new) as [n|]; [|done]. injection Hen as Ek Ev _. simpl. by rewrite Ek, Ev.
Qed.

Lemma splice_contents :
  contents h' (lo ++ new :: hi) = <[key := (value, t)]> (contents h (lo ++ hi)).
Proof using All.
  assert (∀ ls, (∀ l, l ∈ ls → l ∈ lo ++ hi) → entries h' ls = entries h ls) as He.
  { intros ls Hls. apply entries_ext. intros l Hl. rewrite after_entry, decide_False; [done|].
    by apply after_old_ne, Hls. }
  unfold contents. rewrite !entries_app.
  change (entries h' (new :: hi)) with
    (match entry_of_node <$> h' !! new with Some e => e :: entries h' hi | None => entries h' hi end).
  rewrite after_entry, decide_True by done. rewrite !He by set_solver.
  apply list_to_map_mid. by apply entries_no_key, below_ne.
Qed.
End after.
End splice.

(** ** Contracts of the operations *)

(** The search phase of [insert]: where it lands and what [update] holds. *)
Lemma search_ok m lo hi key :
  wf m (lo ++ hi) → Forall (below (mt_heap m) key) lo →
  Forall (λ l, ¬ below (mt_heap m) key l) hi →
  ∃ upd, descend (mt_heap m) key (mt_level m) (mt_head m) (replicate (max_level m) None)
      = Ret (lst (mt_head m) (filter (tall (mt_heap m) 0) lo), upd)
    ∧ length upd = max_level m
    ∧ ∀ j, j < mt_level m →
        upd !! j = Some (Some (lst (mt_head m) (filter (tall (mt_heap m) j) lo))).
Proof.
  intros Hwf Hlo Hhi. pose proof (wf_level _ _ Hwf) as Hlev.
  destruct (descend_spec m lo hi key Hwf Hlo Hhi (mt_level m) (mt_head m)
              (replicate (max_level m) None)) as (upd & Ed & Hlen & Hin & _);
    [lia|rewrite length_replicate; lia|by left|lia|].
  rewrite length_replicate in Hlen. eauto.
Qed.

(** Raising the levels points the new rows of [update] at the head. *)
Lemma raise_ok m lo hi lv upd :
  wf m (lo ++ hi) → length upd = max_level m → 1 ≤ lv ≤ max_level m →
  (∀ j, j < mt_level m →
     upd !! j = Some (Some (lst (mt_head m) (filter (tall (mt_heap m) j) lo)))) →
  ∃ upd', (if mt_level m <? lv
           then raise_levels upd (mt_head m) (mt_level m) (lv - mt_level m)
           else Ret upd) = Ret upd'
    ∧ ∀ j, j < lv → upd' !! j = Some (Some (lst (mt_head m) (filter (tall (mt_heap m) j) lo))).
Proof.
  intros Hwf Hlen Hlv Hin.
  destruct (Nat.ltb_spec (mt_level m) lv) as [Hlt|Hge].
  - destruct (raise_levels_spec upd (mt_head m) (mt_level m) (lv - mt_level m))
      as (upd' & Er & _ & Hr & Ho); [lia|].
    exists upd'. split; [done|]. intros j Hj.
    destruct (decide (j < mt_level m)) as [Hjl|Hjl]; [rewrite Ho by lia; auto|].
    rewrite Hr by lia. do 2 f_equal. rewrite filter_none; [done|].
    pose proof (wf_height _ _ Hwf) as Hh. apply Forall_app in Hh as [Hh _].
    eapply Forall_impl; [exact Hh|]. intros l Hl. cbv beta in Hl. unfold tall. lia.
  - exists upd. split; [done|]. intros j Hj. apply Hin. lia.
Qed.

(** What an insertion leaves to those who hold a node: it stays in the list,
    under its key. *)
Record stable (m m' : MemTable) (ls ls' : list nat) : Prop := {
  st_head : mt_head m' = mt_head m;
  st_in l : l ∈ ls → l ∈ ls';
  st_key l : l ∈ ls → key_of (mt_heap m') l = key_of (mt_heap m) l }.

Lemma make_nodes_ok n :
  (0 ≤ n)%Z → (8 * n ≤ maxAlloc)%Z → make_nodes n = Ret (replicate (Z.to_nat n) None).
Proof.
  intros H0 Hm. unfold make_nodes. rewrite guard_go_true; [done|].
  by rewrite (proj2 (Z.leb_le _ _) H0), (proj2 (Z.leb_le _ _) Hm).
Qed.

Lemma insert_new_ok m lo hi key value t upd :
  wf m (lo ++ hi) → Forall (below (mt_heap m) key) lo →
  Forall (λ l, ¬ below (mt_heap m) key l) hi →
  Forall (λ l, key_of (mt_heap m) l ≠ key) hi → length upd = max_level m →
  (∀ j, j < mt_level m →
     upd !! j = Some (Some (lst (mt_head m) (filter (tall (mt_heap m) j) lo)))) →
  ∃ m' ls', insert_new m key value t upd = Ret (m', IsFull m') ∧ wf m' ls'
    ∧ mt_opts m' = mt_opts m
    ∧ contents (mt_heap m') ls' = <[key := (value, t)]> (contents (mt_heap m) (lo ++ hi))
    ∧ stable m m' (lo ++ hi) ls'.
Proof.
  intros Hwf Hlo Hhi Hne Hlen Hin. unfold insert_new.
  destruct (randomLevel m) as [lv rnd] eqn:Er.
  assert (1 ≤ lv ≤ max_level m) as Hlv.
  { eapply random_loop_range; [exact Er|]. pose proof (wf_max _ _ Hwf). lia. }
  destruct (raise_ok m lo hi lv upd Hwf Hlen Hlv Hin) as (upd' & -> & Hupd). cbn [bind_go].
  assert (Forall (λ l, bytes_lt key (key_of (mt_heap m) l)) hi) as Hgt.
  { rewrite Forall_forall in *. intros l Hl. specialize (Hhi l Hl). specialize (Hne l Hl).
    destruct (trichotomy bytes_lt key (key_of (mt_heap m) l)) as [?|[He|Hlt]].
    - done.
    - by rewrite <-He in Hne.
    - by destruct Hhi. }
  destruct (splice_link m lo hi key value t lv upd' Hwf Hlv Hupd) as (h' & El & Hlk).
  cbv zeta. rewrite make_nodes_ok by (pose proof (wf_alloc _ _ Hwf); unfold max_level in Hlv; lia).
  rewrite Nat2Z.id. cbn [bind_go]. rewrite El. cbn [bind_go].
  eexists (mkMemTable _ _ _ _ _ _), _. split; [reflexivity|]. split_and!.
  - by apply (splice_wf m lo hi key value t lv upd' rnd).
  - done.
  - by eapply splice_contents.
  - split; cbn [mt_head mt_heap]; [done|set_solver|]. intros l Hl.
    rewrite (after_key m lo key value t lv h' Hlk), decide_False; [done|].
    by apply (after_old_ne m lo hi Hwf).
Qed.

(** [insert] always succeeds, keeps the invariant, reports whether the table is
    full and binds the key in the map. *)
Lemma insert_ok m ls key value t :
  wf m ls →
  ∃ m' ls', insert m key value t = Ret (m', IsFull m') ∧ wf m' ls' ∧ mt_opts m' = mt_opts m
    ∧ contents (mt_heap m') ls' = <[key := (value, t)]> (contents (mt_heap m) ls)
    ∧ stable m m' ls ls'.
Proof.
  intros Hwf. destruct (split_at_key (mt_heap m) key ls) as (lo & hi & -> & Hlo & Hhi).
  { by apply wf_sorted. }
  destruct (search_ok m lo hi key Hwf Hlo Hhi) as (upd & Ed & Hlen & Hin).
  unfold insert. pose proof (wf_max _ _ Hwf) as Hmax. pose proof (wf_alloc _ _ Hwf) as Hal.
  rewrite make_nodes_ok by (unfold max_level in Hmax; lia). cbn [bind_go]. fold (max_level m).
  rewrite Ed. cbn [bind_go]. rewrite (landing m lo hi Hwf). cbn [bind_go].
  rewrite (match_landing m lo hi key Hwf Hhi). cbn [bind_go].
  destruct hi as [|c hi]; [by apply insert_new_ok|].
  pose proof (wf_in _ _ Hwf) as Hall. apply Forall_app in Hall as [_ Hall].
  apply Forall_cons in Hall as [Hc _].
  destruct (lookup_lt_is_Some_2 _ _ Hc) as [n Hn]. rewrite Hn.
  assert (key_of (mt_heap m) c = n_Key n) as Hkc by (unfold key_of; by rewrite Hn).
  case_decide as E.
  - subst key. eexists (mkMemTable _ _ _ _ _ _), _. split; [reflexivity|].
    split_and!; [eapply overwrite_wf; done|done| |].
    + apply overwrite_contents; [done..|]. by apply entries_no_key, below_ne.
    + split; cbn [mt_head mt_heap]; [done..|]. intros l _. by apply overwrite_key.
  - apply insert_new_ok; try done. pose proof (wf_sorted _ _ Hwf) as Hs.
    apply StronglySorted_app_1_r in Hs. apply Forall_cons in Hhi as [Hcb _].
    apply (above_split _ _ _ _ Hs Hcb). congruence.
Qed.

(** ** The empty table *)

(** The table that [NewMemTable] returns when its [make] does not panic. *)
Definition new_table (opts : MemTableOptions) (rnd : list float32) : MemTable :=
  mkMemTable [mkNode [] [] false (replicate (Z.to_nat (MaxLevel (norm_mt_options opts))) None)]
    0 1 0 (norm_mt_options opts) rnd.

(** The [MaxLevel]s for which the slices of pointers can be made. *)
Definition levels_fit (opts : MemTableOptions) : bool := (8 * MaxLevel opts <=? maxAlloc)%Z.

Lemma norm_levels opts :
  (0 < MaxLevel (norm_mt_options opts))%Z
  ∧ (8 * MaxLevel (norm_mt_options opts) <=? maxAlloc)%Z = levels_fit opts.
Proof.
  unfold levels_fit. cbn [norm_mt_options MaxLevel].
  destruct (Z.leb_spec (MaxLevel opts) 0); unfold DefaultMaxLevel; [|by split].
  split; [done|]. symmetry. apply Z.leb_le. unfold maxAlloc. lia.
Qed.

Lemma NewMemTable_spec opts rnd :
  NewMemTable opts rnd = if levels_fit opts then Ret (new_table opts rnd) else Panic.
Proof.
  destruct (norm_levels opts) as [Hpos Hfit]. unfold NewMemTable, make_nodes. rewrite Hfit.
  rewrite (proj2 (Z.leb_le 0 _)) by lia. by destruct (levels_fit opts).
Qed.

Lemma new_table_wf opts rnd : levels_fit opts = true → wf (new_table opts rnd) [].
Proof.
  intros Hfit. destruct (norm_levels opts) as [Hpos Hfit']. rewrite Hfit in Hfit'.
  assert (0 < max_level (new_table opts rnd)) as Hm by (unfold max_level; cbn [new_table mt_opts]; lia).
  split; cbn [new_table mt_heap mt_head mt_level mt_sizeBytes mt_opts length]; try done; try lia.
  - unfold height. cbn. apply length_replicate.
  - apply NoDup_singleton.
  - constructor.
  - intros i Hi. cbn. unfold next. cbn. by apply lookup_replicate_2.
Qed.

(** ** What a table represents *)

Definition represents (m : MemTable) (M : kv) : Prop :=
  ∃ ls, wf m ls ∧ contents (mt_heap m) ls = M.

Lemma represents_new opts rnd : levels_fit opts = true → represents (new_table opts rnd) ∅.
Proof. intros Hfit. exists []. split; [by apply new_table_wf|done]. Qed.

(** The table the program makes. *)
Lemma NewMemTable_default rnd :
  NewMemTable DefaultMemTableOptions rnd = Ret (new_table DefaultMemTableOptions rnd).
Proof. done. Qed.

Lemma represents_default rnd : represents (new_table DefaultMemTableOptions rnd) ∅.
Proof. by apply represents_new. Qed.

Lemma represents_insert m M key value t :
  represents m M →
  ∃ m', insert m key value t = Ret (m', IsFull m') ∧ mt_opts m' = mt_opts m
    ∧ represents m' (<[key := (value, t)]> M).
Proof.
  intros (ls & Hwf & <-). destruct (insert_ok m ls key value t Hwf) as (m' & ls' & E & Hwf' & Ho & Hc & _).
  exists m'. split_and!; [done|done|]. by exists ls'.
Qed.

Lemma represents_get m M key : represents m M → Get m key = Ret (lookup_answer (M !! key)).
Proof.
  intros (ls & Hwf & <-). rewrite (Get_ok m ls key Hwf). unfold lookup_answer.
  by destruct (_ !! key) as [[]|].
Qed.

#[global] Program Instance memtable_buffer : Buffer MemTable := {
  buf_put := Put; buf_delete := Delete; buf_get := Get; buf_rep := represents }.
Next Obligation.
  intros b m k v Hr. destruct (represents_insert b m k v false Hr) as (b' & E & _ & Hr').
  unfold Put. eauto.
Qed.
Next Obligation.
  intros b m k Hr. destruct (represents_insert b m k [] true Hr) as (b' & E & _ & Hr').
  unfold Delete. eauto.
Qed.
Next Obligation.
  intros. by apply represents_get.
Qed.

(** ** Iteration *)

Lemma iterate_path h x ls fuel :
  path (next h 0) x ls → Forall (λ l, l < length h) ls → length ls < fuel →
  ∃ ns, iterate fuel h (mkIterator (Some x)) = Ret ns ∧ Forall2 (λ l n, h !! l = Some n) ls ns.
Proof.
  revert x fuel. induction ls as [|y ls IH]; intros x [|fuel] Hp Hin Hf; try (simpl in Hf; lia);
    cbn [iterate]; unfold HasNext, Next; cbn [it_curr];
    rewrite forward_next, (path_hd _ _ _ Hp); cbn.
  - eauto.
  - apply Forall_cons in Hin as [Hy Hin].
    rewrite forward_next, (path_hd _ _ _ Hp). cbn.
    destruct (node_ok h y Hy) as (n & Hn & -> & _). cbn.
    destruct (IH y fuel) as (ns & -> & Hns); [apply Hp|done|simpl in Hf; lia|].
    cbn. exists (n :: ns). auto.
Qed.

Lemma filter_tall0 m ls : wf m ls → filter (tall (mt_heap m) 0) ls = ls.
Proof.
  intros Hwf. apply filter_all. eapply Forall_impl; [apply (wf_height _ _ Hwf)|].
  intros l Hl. cbv beta in Hl. unfold tall. lia.
Qed.

Lemma entries_nodes h ls ns :
  Forall2 (λ l n, h !! l = Some n) ls ns → entries h ls = entry_of_node <$> ns.
Proof.
  induction 1 as [|l n ls ns Hn _ IH]; [done|]. by rewrite (entries_cons _ _ _ _ Hn), IH.
Qed.

Lemma nodes_sorted h ls ns :
  Forall2 (λ l n, h !! l = Some n) ls ns → StronglySorted (key_lt h) ls →
  StronglySorted bytes_lt (n_Key <$> ns).
Proof.
  induction 1 as [|l n ls ns Hn Hns IH]; intros Hs; [constructor|].
  apply StronglySorted_inv in Hs as [Hs Hl]. simpl. constructor; [auto|].
  clear IH Hs. induction Hns as [|l' n' ls ns Hn' _ IH]; [constructor|].
  apply Forall_cons in Hl as [Hl1 Hl]. simpl. constructor; [|auto].
  unfold key_lt, key_of in Hl1. by rewrite Hn, Hn' in Hl1.
Qed.

(** What the flush code relies on: the nodes come in strictly increasing key
    order and are the entries of the map. *)
Lemma all_nodes_ok m M :
  represents m M →
  ∃ ns, all_nodes m = Ret ns ∧ StronglySorted bytes_lt (n_Key <$> ns)
    ∧ list_to_map (entry_of_node <$> ns) = M.
Proof.
  intros (ls & Hwf & <-). pose proof (wf_path _ _ Hwf 0 (wf_max _ _ Hwf)) as Hp.
  rewrite (filter_tall0 m ls Hwf) in Hp.
  destruct (iterate_path (mt_heap m) (mt_head m) ls (S (length (mt_heap m))))
    as (ns & E & Hns); [done|apply (wf_in _ _ Hwf)|rewrite (wf_length _ _ Hwf); lia|].
  exists ns. split_and!; [done| |].
  - eapply nodes_sorted; [done|]. apply (wf_sorted _ _ Hwf).
  - unfold contents. by rewrite (entries_nodes _ _ _ Hns).
Qed.

(** ** Size accounting *)

Definition pair_size (k : bytes) (x : bytes * bool) : Z := (len k + len x.1)%Z.

(** The bytes of the keys and values of a map. *)
Definition kv_size (M : kv) : Z := map_fold (λ k x acc, (pair_size k x + acc)%Z) 0%Z M.

Lemma sorted_nodup (ks : list bytes) : StronglySorted bytes_lt ks → NoDup ks.
Proof.
  induction 1 as [|k ks _ IH Hk]; constructor; [|done].
  intros Hin. rewrite Forall_forall in Hk. by destruct (irreflexivity bytes_lt k (Hk k Hin)).
Qed.

Lemma kv_size_list (es : list (bytes * (bytes * bool))) :
  NoDup es.*1 →
  kv_size (list_to_map es) = foldr (λ e acc, (pair_size e.1 e.2 + acc)%Z) 0%Z es.
Proof.
  induction es as [|[k x] es IH]; simpl; intros Hnd; [done|].
  apply NoDup_cons in Hnd as [Hk Hnd]. unfold kv_size.
  rewrite map_fold_insert_L.
  - fold (kv_size (list_to_map es)). by rewrite IH.
  - intros. lia.
  - by apply not_elem_of_list_to_map_1.
Qed.

Lemma sizes_nodes h ls ns :
  Forall2 (λ l n, h !! l = Some n) ls ns →
  sum_sizes h ls = foldr (λ e acc, (pair_size e.1 e.2 + acc)%Z) 0%Z (entry_of_node <$> ns).
Proof.
  induction 1 as [|l n ls ns Hn _ IH]; [done|].
  unfold sum_sizes in *. simpl. rewrite IH. unfold entry_size. by rewrite Hn.
Qed.

Lemma size_ok m M : represents m M → mt_sizeBytes m = kv_size M.
Proof.
  intros (ls & Hwf & <-). pose proof (wf_path _ _ Hwf 0 (wf_max _ _ Hwf)) as Hp.
  rewrite (filter_tall0 m ls Hwf) in Hp.
  destruct (iterate_path (mt_heap m) (mt_head m) ls (S (length ls)))
    as (ns & _ & Hns); [done|apply (wf_in _ _ Hwf)|lia|].
  rewrite (wf_size _ _ Hwf), (sizes_nodes _ _ _ Hns). unfold contents.
  rewrite (entries_nodes _ _ _ Hns). symmetry. apply kv_size_list.
  rewrite <-list_fmap_compose. apply sorted_nodup.
  eapply nodes_sorted; [done|apply (wf_sorted _ _ Hwf)].
Qed.

(** ** Claims *)

(** A run of operations from a fresh table. *)
Definition run (opts : MemTableOptions) (rnd : list float32) (rs : list kvt) : go MemTable :=
  let* m := NewMemTable opts rnd in apply_all buf_apply rs m.

Lemma apply_all_ok rs m M :
  represents m M →
  ∃ m', apply_all buf_apply rs m = Ret m' ∧ mt_opts m' = mt_opts m
    ∧ represents m' (apply_ops M rs).
Proof.
  revert m M. induction rs as [|[[k v] t] rs IH]; intros m M Hr; [by exists m|].
  destruct (represents_insert m M k (op_value (k, v, t)).1 t Hr) as (m1 & E1 & Ho & Hr1).
  destruct (IH m1 _ Hr1) as (m' & E' & Ho' & Hr'). exists m'.
  assert (buf_apply k v t m = Ret m1) as E.
  { unfold buf_apply. cbn [buf_put buf_delete memtable_buffer]. unfold Put, Delete.
    destruct t; cbn [op_value fst snd] in E1; by rewrite E1. }
  cbn [apply_all fst snd]. rewrite E. cbn [bind_go]. split_and!; [done|congruence|].
  unfold apply_ops in *. cbn [foldl]. unfold apply_op at 2. cbn [fst snd].
  by destruct t.
Qed.

Lemma run_ok opts rnd rs :
  levels_fit opts = true →
  ∃ m, run opts rnd rs = Ret m ∧ mt_opts m = norm_mt_options opts
    ∧ represents m (apply_ops ∅ rs).
Proof.
  intros Hfit. unfold run. rewrite NewMemTable_spec, Hfit. cbn [bind_go].
  by apply (apply_all_ok rs (new_table opts rnd)), represents_new.
Qed.

Lemma run_panics opts rnd rs : levels_fit opts = false → run opts rnd rs = Panic.
Proof. intros Hfit. unfold run. by rewrite NewMemTable_spec, Hfit. Qed.

Lemma run_inv opts rnd rs m :
  run opts rnd rs = Ret m →
  mt_opts m = norm_mt_options opts ∧ represents m (apply_ops ∅ rs).
Proof.
  intros E. destruct (levels_fit opts) eqn:Hfit; [|by rewrite run_panics in E].
  destruct (run_ok opts rnd rs Hfit) as (m' & E' & H). rewrite E in E'. by injection E' as ->.
Qed.

(** C10.  The MemTable is a map.  If a slice of [MaxLevel] pointers can be
    allocated, then whatever the other options and the coin flips, a fresh table
    that has executed any sequence of puts and deletes has not panicked, and
    [Get] answers for every key what the finite map holding the same operations
    answers: the last value put, a tombstone after a delete, not-found otherwise.
    With a larger [MaxLevel] the table cannot be made: [NewMemTable] panics. *)
Theorem memtable_refines_map opts rnd rs :
  if levels_fit opts then
    ∃ m, run opts rnd rs = Ret m ∧ ∀ k, Get m k = Ret (lookup_answer (apply_ops ∅ rs !! k))
  else NewMemTable opts rnd = Panic.
Proof.
  destruct (levels_fit opts) eqn:Hfit; [|by rewrite NewMemTable_spec, Hfit].
  destruct (run_ok opts rnd rs Hfit) as (m & E & _ & Hr).
  exists m. split; [done|]. intros k. by apply represents_get.
Qed.

(** C27.  The skip-list invariant holds in every reachable table: the nodes are
    one strictly sorted list without duplicates, each level is the sublist of
    the nodes tall enough for it, all heights and the list's level are between
    1 and [MaxLevel], and the byte counter is the sum of the node sizes.  The only
    options for which there is no table are those whose [MaxLevel] is beyond what
    [make] can allocate. *)
Theorem memtable_invariant opts rnd rs :
  if levels_fit opts then ∃ m ls, run opts rnd rs = Ret m ∧ wf m ls
  else NewMemTable opts rnd = Panic.
Proof.
  destruct (levels_fit opts) eqn:Hfit; [|by rewrite NewMemTable_spec, Hfit].
  destruct (run_ok opts rnd rs Hfit) as (m & E & _ & ls & Hwf & _). eauto.
Qed.

(** Iterating over a table visits every entry of the map once, tombstones
    included, in strictly increasing byte order of the keys. *)
Theorem memtable_iterates_in_order opts rnd rs :
  levels_fit opts = true →
  ∃ m ns, run opts rnd rs = Ret m ∧ all_nodes m = Ret ns
    ∧ StronglySorted bytes_lt (n_Key <$> ns)
    ∧ list_to_map (entry_of_node <$> ns) = apply_ops ∅ rs.
Proof.
  intros Hfit. destruct (run_ok opts rnd rs Hfit) as (m & E & _ & Hr).
  destruct (all_nodes_ok m _ Hr) as (ns & ? & ? & ?). eauto 10.
Qed.

(** C17.  The size the flush decision is based on is exact: after any run of
    puts and deletes from a fresh table, [SizeBytes] is the number of key and value
    bytes of the map, an overwritten value being counted once and a deleted key
    with its key bytes only; and a put or a delete reports "full" exactly when that
    number, after the write, has reached the flush threshold, the default one if
    the option is not positive. *)
Theorem memtable_size_exact opts rnd rs m k v :
  run opts rnd rs = Ret m →
  let full M := (FlushThreshold (norm_mt_options opts) <=? kv_size M)%Z in
  SizeBytes m = kv_size (apply_ops ∅ rs)
  ∧ IsFull m = full (apply_ops ∅ rs)
  ∧ (∃ m', Put m k v = Ret (m', full (<[k := (v, false)]> (apply_ops ∅ rs))))
  ∧ (∃ m', Delete m k = Ret (m', full (<[k := ([], true)]> (apply_ops ∅ rs)))).
Proof.
  intros [Ho Hr]%run_inv full.
  assert (∀ v t, ∃ m', insert m k v t = Ret (m', full (<[k := (v, t)]> (apply_ops ∅ rs)))) as Hins.
  { intros v' t. destruct (represents_insert m _ k v' t Hr) as (m1 & E1 & Ho1 & Hr1).
    exists m1. rewrite E1. unfold IsFull, full. by rewrite (size_ok _ _ Hr1), Ho1, Ho. }
  split_and!; [by apply size_ok| |apply Hins..].
  unfold IsFull, full. by rewrite (size_ok _ _ Hr), Ho.
Qed.

Lemma memtable_size_exact_witness :
  let rs := [(str "a", str "bcd", false); (str "a", str "bc", false); (str "e", [], true)] in
  ∃ m, run DefaultMemTableOptions [float32_of 1 (-3); float32_of 1 (-1)] rs = Ret m
    ∧ SizeBytes m = 4%Z ∧ IsFull m = false.
Proof.
  eexists. split; [vm_compute; reflexivity|].
  edestruct (memtable_size_exact DefaultMemTableOptions [float32_of 1 (-3); float32_of 1 (-1)]
    [(str "a", str "bcd", false); (str "a", str "bc", false); (str "e", [], true)] _ (str "a") [] eq_refl)
    as (E & Hf & _).
  split; [exact E|exact Hf].
Defined.
