(* ===== verification/MemTableScan.v ===== *)
(** * Iterating over a table that is being written

    An iterator takes the table's lock only while it is created; [HasNext] and
    [Next] follow the bottom links without it, so that a program that holds an
    iterator can write to the table between two turns.  [scan] runs the
    iterator's loop interleaved with whole [Put]s and [Delete]s: insertions link
    nodes and never unlink one, so that the place of the iterator stays a place
    in the list.  [scans] is the abstract iterator over a map that changes under
    it: a turn yields the first key after the place, with what the key is bound
    to at that turn.  Reads in the middle of another goroutine's [insert] are data
    races of Go's memory model and are not given a meaning here. *)

From Stdlib Require Import Strings.Byte Strings.String.
From S2P Require Import Prelude GoBytes KV MemTable MemTableSpec.

Local Open Scope nat_scope.

Inductive scan_event := ScanNext | ScanWrite (r : kvt).

(** The table, the iterator and the nodes visited after the events; the fields of
    a node are read when it is visited. *)
Fixpoint scan (es : list scan_event) (m : MemTable) (it : Iterator) (out : list Node)
    : go (MemTable * Iterator * list Node) :=
  match es with
  | [] => Ret (m, it, out)
  | ScanWrite r :: es =>
      let* (m, _) := (if r.2 then Delete m r.1.1 else Put m r.1.1 r.1.2) in scan es m it out
  | ScanNext :: es =>
      let* more := HasNext (mt_heap m) it in
      if more then
        let* (nx, it) := Next (mt_heap m) it in
        let* l := opt_go nx in
        let* n := node (mt_heap m) l in
        scan es m it (out ++ [n])
      else scan es m it out
  end.

(** The writes among the events. *)
Definition scan_writes (es : list scan_event) : list kvt :=
  omap (λ e, match e with ScanWrite r => Some r | ScanNext => None end) es.

(** ** The abstract iterator

    Its place is the last key it has shown, if any. *)

Definition ahead (pos : option bytes) (k : bytes) : Prop :=
  match pos with None => True | Some p => bytes_lt p k end.

(** The first key of [M] after the place. *)
Definition first_ahead (M : kv) (pos : option bytes) (k : bytes) : Prop :=
  k ∈ dom M ∧ ahead pos k ∧ ∀ k', k' ∈ dom M → ahead pos k' → ¬ bytes_lt k' k.

(** [scans M pos es out]: from the map [M] and the place [pos], the events [es]
    show the entries [out]. *)
Inductive scans : kv → option bytes → list scan_event → list (bytes * (bytes * bool)) → Prop :=
| scans_done M pos : scans M pos [] []
| scans_write M pos r es out :
    scans (apply_op M r) pos es out → scans M pos (ScanWrite r :: es) out
| scans_next M pos k x es out :
    first_ahead M pos k → M !! k = Some x → scans M (Some k) es out →
    scans M pos (ScanNext :: es) ((k, x) :: out)
| scans_end M pos es out :
    (∀ k, k ∈ dom M → ¬ ahead pos k) → scans M pos es out → scans M pos (ScanNext :: es) out.

(** ** Keys and nodes *)

Lemma contents_key h ls k : k ∈ dom (contents h ls) → ∃ l, l ∈ ls ∧ key_of h l = k.
Proof. intros [x Hx%elem_of_list_to_map_2]%elem_of_dom. by eapply entries_key. Qed.

Lemma contents_node m ls l n :
  wf m ls → l ∈ ls → mt_heap m !! l = Some n →
  contents (mt_heap m) ls !! n_Key n = Some (n_Value n, n_Tombstone n).
Proof.
  intros Hwf (l1 & l2 & ->)%list_elem_of_split Hn. unfold contents.
  pose proof (wf_sorted _ _ Hwf) as Hs. assert (key_of (mt_heap m) l = n_Key n) as Hk by (unfold key_of; by rewrite Hn).
  rewrite entries_app, (entries_cons _ _ _ _ Hn). unfold entry_of_node at 1.
  rewrite list_to_map_mid; [apply lookup_insert_eq|].
  apply entries_no_key, Forall_forall. intros l' Hl' E.
  assert (key_lt (mt_heap m) l' l) as Hlt.
  { apply list_elem_of_split in Hl' as (a & b & ->). rewrite <-app_assoc in Hs.
    apply StronglySorted_app_1_r in Hs. apply StronglySorted_inv in Hs as [_ Hs]. rewrite Forall_forall in Hs.
    apply Hs. set_solver. }
  unfold key_lt in Hlt. rewrite E, Hk in Hlt. by apply (irreflexivity bytes_lt) in Hlt.
Qed.

(** ** Sorted lists *)

Lemma StronglySorted_snoc (ks : list bytes) k :
  StronglySorted bytes_lt ks → (∀ k', k' ∈ ks → bytes_lt k' k) → StronglySorted bytes_lt (ks ++ [k]).
Proof.
  induction ks as [|k0 ks IH]; intros Hs Hk; [repeat constructor|]. apply StronglySorted_inv in Hs as [Hs H0].
  cbn. constructor; [apply IH; [done|set_solver]|]. apply Forall_app. split; [done|]. constructor; [set_solver|constructor].
Qed.

Lemma sorted_last_lt (ks : list bytes) a b k :
  StronglySorted bytes_lt ks → last ks = Some a → bytes_lt a b → k ∈ ks → bytes_lt k b.
Proof.
  intros Hs Hl Hab Hk. apply last_Some in Hl as [ks' ->].
  apply elem_of_app in Hk as [Hk| ->%list_elem_of_singleton]; [|done]. etrans; [|exact Hab].
  apply list_elem_of_split in Hk as (c & d & ->). rewrite <-app_assoc in Hs.
  apply StronglySorted_app_1_r in Hs. apply StronglySorted_inv in Hs as [_ Hs].
  rewrite Forall_forall in Hs. apply Hs. set_solver.
Qed.

(** ** The invariant of a scan *)

(** The iterator is at [x], the head or the node visited last; everything that
    was there at the start ([start]) has been visited or is still ahead. *)
Record scanning (start : gset bytes) (m : MemTable) (M : kv) (it : Iterator) (out : list Node)
    (ls : list nat) (x : nat) : Prop := {
  sg_wf : wf m ls;
  sg_contents : contents (mt_heap m) ls = M;
  sg_it : it_curr it = Some x;
  sg_at : (x = mt_head m ∧ out = []) ∨ (x ∈ ls ∧ last (n_Key <$> out) = Some (key_of (mt_heap m) x));
  sg_sorted : StronglySorted bytes_lt (n_Key <$> out);
  sg_start k : k ∈ start → k ∈ dom M;
  sg_ahead k : k ∈ start → k ∈ n_Key <$> out ∨ x = mt_head m ∨ bytes_lt (key_of (mt_heap m) x) k }.

(** The list from the iterator's place on. *)
Lemma scanning_split start m M it out ls x :
  scanning start m M it out ls x →
  ∃ l1 l2, ls = l1 ++ l2 ∧ path (next (mt_heap m) 0) x l2
    ∧ (∀ l, l ∈ l2 → x = mt_head m ∨ key_lt (mt_heap m) x l)
    ∧ (∀ l, l ∈ l1 → x ≠ mt_head m ∧ ¬ key_lt (mt_heap m) x l).
Proof.
  intros [Hwf _ _ Hat _ _ _]. pose proof (wf_path _ _ Hwf 0 (wf_max _ _ Hwf)) as Hp.
  rewrite (filter_tall0 m ls Hwf) in Hp. pose proof (wf_sorted _ _ Hwf) as Hs.
  destruct Hat as [[-> _]|[Hx _]].
  { exists [], ls. split_and!; [done|done|by left|]. intros l Hl. by apply elem_of_nil in Hl. }
  apply list_elem_of_split in Hx as (a & b & ->). exists (a ++ [x]), b. rewrite <-app_assoc. split_and!.
  - done.
  - pose proof (path_drop (next (mt_heap m) 0) (mt_head m) (a ++ [x]) b) as Hd. rewrite lst_app in Hd. apply Hd.
    by rewrite <-app_assoc.
  - intros l Hl. right. apply StronglySorted_app_1_r in Hs. apply StronglySorted_inv in Hs as [_ Hs].
    by apply (proj1 (Forall_forall _ _) Hs).
  - intros l Hl. split.
    { intros ->. pose proof (wf_nodup _ _ Hwf) as Hnd. apply NoDup_cons in Hnd as [Hnd _]. set_solver. }
    apply elem_of_app in Hl as [Hl| ->%list_elem_of_singleton]; [|apply (irreflexivity bytes_lt)].
    intros Hlt. apply list_elem_of_split in Hl as (c & d & ->). rewrite <-app_assoc in Hs.
    apply StronglySorted_app_1_r in Hs. apply StronglySorted_inv in Hs as [_ Hs]. rewrite Forall_forall in Hs.
    apply (irreflexivity bytes_lt (key_of (mt_heap m) x)). etrans; [exact Hlt|]. apply Hs. set_solver.
Qed.

(** What is ahead of the iterator. *)
Lemma scanning_ahead start m M it out ls x :
  scanning start m M it out ls x →
  ∀ k, ahead (last (n_Key <$> out)) k ↔ x = mt_head m ∨ bytes_lt (key_of (mt_heap m) x) k.
Proof.
  intros [Hwf _ _ Hat _ _ _] k. destruct Hat as [[-> ->]|[Hx ->]]; cbn; [by split; [left|]|].
  split; [by right|]. intros [->|?]; [|done].
  pose proof (wf_nodup _ _ Hwf) as Hnd. apply NoDup_cons in Hnd as [Hnd _]. done.
Qed.

(** A write between two turns. *)
Lemma scanning_write start m M it out ls x (r : kvt) :
  scanning start m M it out ls x →
  ∃ m' full ls', (if r.2 then Delete m r.1.1 else Put m r.1.1 r.1.2) = Ret (m', full)
    ∧ scanning start m' (apply_op M r) it out ls' x.
Proof.
  intros [Hwf HM Hit Hat Hs Hst Hah].
  destruct (insert_ok m ls r.1.1 (op_value r).1 (op_value r).2 Hwf) as (m' & ls' & E & Hwf' & _ & Hc & [Hh Hin Hk]).
  exists m', (IsFull m'), ls'. split.
  { unfold op_value in E. by destruct r as [[k v] []]. }
  assert (x ∈ ls → key_of (mt_heap m') x = key_of (mt_heap m) x) as Hkx by apply Hk.
  split; [done| |done| |done| |].
  - rewrite Hc, HM. unfold apply_op. by destruct (op_value r).
  - rewrite Hh. destruct Hat as [?|[Hx Hl]]; [by left|right]. rewrite Hkx by done. auto.
  - intros k Hks. unfold apply_op. rewrite dom_insert. set_solver.
  - intros k Hks. rewrite Hh. destruct (Hah k Hks) as [?|[?|Hlt]]; [auto..|].
    destruct Hat as [[-> _]|[Hx _]]; [auto|]. rewrite Hkx by done. auto.
Qed.

(** The end of the list, or the next node. *)
Lemma scanning_next start m M it out ls x :
  scanning start m M it out ls x →
  (HasNext (mt_heap m) it = Ret false ∧ (∀ k, k ∈ start → k ∈ n_Key <$> out)
   ∧ ∀ k, k ∈ dom M → ¬ ahead (last (n_Key <$> out)) k)
  ∨ ∃ y n it', HasNext (mt_heap m) it = Ret true ∧ Next (mt_heap m) it = Ret (Some y, it')
      ∧ node (mt_heap m) y = Ret n ∧ M !! n_Key n = Some (n_Value n, n_Tombstone n)
      ∧ first_ahead M (last (n_Key <$> out)) (n_Key n)
      ∧ scanning start m M it' (out ++ [n]) ls y.
Proof.
  intros Hsc. pose proof (scanning_ahead _ _ _ _ _ _ _ Hsc) as Hahead. destruct (scanning_split _ _ _ _ _ _ _ Hsc) as (l1 & l2 & Els & Hp & Hgt & Hle).
  pose proof Hsc as [Hwf HM Hit Hat Hs Hst Hah].
  assert (∀ k, k ∈ start → k ∈ n_Key <$> out ∨ ∃ l, l ∈ l2 ∧ key_of (mt_heap m) l = k) as Hrest.
  { intros k Hk. destruct (Hah k Hk) as [?|Hx]; [by left|right]. specialize (Hst k Hk). rewrite <-HM in Hst.
    destruct (contents_key _ _ _ Hst) as (l & Hl & <-). exists l. split; [|done]. rewrite Els in Hl.
    apply elem_of_app in Hl as [Hl|]; [|done]. destruct (Hle l Hl) as [Hne Hn]. by destruct Hx as [?|?]. }
  assert (∀ k, k ∈ dom M → ahead (last (n_Key <$> out)) k → ∃ l, l ∈ l2 ∧ key_of (mt_heap m) l = k) as Hdom.
  { intros k Hk Ha. rewrite <-HM in Hk. destruct (contents_key _ _ _ Hk) as (l & Hl & <-). exists l. split; [|done].
    rewrite Els in Hl. apply elem_of_app in Hl as [Hl|]; [|done]. destruct (Hle l Hl) as [Hne Hn].
    by destruct (proj1 (Hahead _) Ha) as [?|?]. }
  assert (HasNext (mt_heap m) it = Ret (match head l2 with Some _ => true | None => false end)) as Ehn.
  { unfold HasNext. rewrite Hit, forward_next, (path_hd _ _ _ Hp). done. }
  destruct l2 as [|y l2]; cbn [head] in Ehn.
  { left. split_and!; [done| |].
    - intros k Hk. destruct (Hrest k Hk) as [?|(l & Hl & _)]; [done|by apply elem_of_nil in Hl].
    - intros k Hk Ha. destruct (Hdom k Hk Ha) as (l & Hl & _). by apply elem_of_nil in Hl. }
  right. assert (y ∈ ls) as Hy by (rewrite Els; set_solver).
  pose proof (proj1 (Forall_forall _ _) (wf_in _ _ Hwf) y Hy) as Hlt. cbv beta in Hlt.
  destruct (node_ok (mt_heap m) y Hlt) as (n & Hn & En & Hky).
  assert (M !! n_Key n = Some (n_Value n, n_Tombstone n)) as HMn by (rewrite <-HM; by eapply contents_node).
  exists y, n, (mkIterator (Some y)). split_and!; [done| |done|done| |].
  { unfold Next. rewrite Ehn. cbn. rewrite Hit. cbn. by rewrite forward_next, (path_hd _ _ _ Hp). }
  { split_and!.
    - apply elem_of_dom. eauto.
    - apply Hahead. rewrite <-Hky. apply Hgt. by left.
    - intros k Hk Ha. destruct (Hdom k Hk Ha) as (l & Hl & <-). rewrite <-Hky.
      apply elem_of_cons in Hl as [->|Hl]; [apply (irreflexivity bytes_lt)|].
      pose proof (wf_sorted _ _ Hwf) as Hss. rewrite Els in Hss. apply StronglySorted_app_1_r in Hss.
      apply StronglySorted_inv in Hss as [_ Hss]. apply (proj1 (Forall_forall _ _) Hss) in Hl.
      intros Hlt'. apply (irreflexivity bytes_lt (key_of (mt_heap m) y)). by etrans. }
  split; [done..| | |done|].
  - right. split; [done|]. rewrite fmap_app. change (n_Key <$> [n]) with [n_Key n]. by rewrite last_snoc, Hky.
  - rewrite fmap_app. change (n_Key <$> [n]) with [n_Key n]. apply StronglySorted_snoc; [done|]. intros k Hk.
    destruct Hat as [[_ ->]|[Hx Hlast]]; [by apply elem_of_nil in Hk|].
    destruct (Hgt y) as [->|Hxy]; [by left| |].
    { pose proof (wf_nodup _ _ Hwf) as Hnd. apply NoDup_cons in Hnd as [Hnd _]. done. }
    unfold key_lt in Hxy. rewrite Hky in Hxy. eapply sorted_last_lt; [exact Hs|exact Hlast|exact Hxy|exact Hk].
  - intros k Hk. destruct (Hrest k Hk) as [?|(l & Hl & <-)]; [left; set_solver|].
    apply elem_of_cons in Hl as [->|Hl]; [left; rewrite Hky; set_solver|right; right].
    pose proof (wf_sorted _ _ Hwf) as Hss. rewrite Els in Hss. apply StronglySorted_app_1_r in Hss.
    apply StronglySorted_inv in Hss as [_ Hss]. by apply (proj1 (Forall_forall _ _) Hss).
Qed.

(** ** The whole scan *)

Lemma scan_ok start es m M it out ls x :
  scanning start m M it out ls x →
  ∃ m' it' ns ls' x', scan es m it out = Ret (m', it', out ++ ns)
    ∧ scanning start m' (apply_ops M (scan_writes es)) it' (out ++ ns) ls' x'
    ∧ scans M (last (n_Key <$> out)) es (entry_of_node <$> ns).
Proof.
  revert m M it out ls x. induction es as [|[|r] es IH]; intros m M it out ls x Hsc; cbn [scan].
  - exists m, it, [], ls, x. rewrite app_nil_r. split_and!; [done|done|constructor].
  - destruct (scanning_next _ _ _ _ _ _ _ Hsc) as [(E & _ & Hend)|(y & n & it1 & E & En & Enode & HM & Hfst & Hsc1)];
      rewrite E; cbn [bind_go].
    + destruct (IH _ _ _ _ _ _ Hsc) as (m' & it' & ns & ls' & x' & E' & Hsc' & Hv).
      exists m', it', ns, ls', x'. split_and!; [done|done|by constructor].
    + rewrite En. cbn [bind_go opt_go]. rewrite Enode. cbn [bind_go].
      destruct (IH _ _ _ _ _ _ Hsc1) as (m' & it' & ns & ls' & x' & E' & Hsc' & Hv).
      exists m', it', (n :: ns), ls', x'. rewrite <-app_assoc in E', Hsc'. split_and!; [done|done|].
      rewrite fmap_app in Hv. change (n_Key <$> [n]) with [n_Key n] in Hv. rewrite last_snoc in Hv.
      by apply scans_next.
  - destruct (scanning_write _ _ _ _ _ _ _ r Hsc) as (m1 & full & ls1 & E & Hsc1). rewrite E. cbn [bind_go].
    destruct (IH _ _ _ _ _ _ Hsc1) as (m' & it' & ns & ls' & x' & E' & Hsc' & Hv).
    exists m', it', ns, ls', x'. split_and!; [done|done|by constructor].
Qed.

(** A fresh iterator. *)
Lemma scanning_new m M : represents m M → ∃ ls, scanning (dom M) m M (NewIterator m) [] ls (mt_head m).
Proof.
  intros (ls & Hwf & Hc). exists ls. split; [done|done|done|by left|constructor|done|]. intros k _. by right; left.
Qed.

(** C28.  Iteration survives writes.  Whatever puts and deletes come between the
    turns of an iterator over a table (whose [MaxLevel] can be allocated), the loop never panics and shows exactly
    what the abstract iterator over the changing map shows: each turn yields the
    first key after the last one shown, with the value and the tombstone flag
    that key has at this very turn, and yields nothing when no key is left.  So
    the keys are strictly increasing; when [HasNext] answers false every key the
    table held when the iterator was created has been shown; and the table itself
    answers as after all the writes. *)
Theorem iteration_under_writes opts rnd rs es :
  levels_fit opts = true →
  ∃ m m' it' ns, run opts rnd rs = Ret m ∧ scan es m (NewIterator m) [] = Ret (m', it', ns)
    ∧ scans (apply_ops ∅ rs) None es (entry_of_node <$> ns)
    ∧ StronglySorted bytes_lt (n_Key <$> ns)
    ∧ (∀ k, k ∈ dom (apply_ops ∅ rs) → HasNext (mt_heap m') it' = Ret false → k ∈ n_Key <$> ns)
    ∧ ∀ k, Get m' k = Ret (lookup_answer (apply_ops (apply_ops ∅ rs) (scan_writes es) !! k)).
Proof.
  intros Hfit. destruct (run_ok opts rnd rs Hfit) as (m & E & _ & Hr). destruct (scanning_new m _ Hr) as (ls & Hsc).
  destruct (scan_ok _ es _ _ _ _ _ _ Hsc) as (m' & it' & ns & ls' & x' & E' & Hsc' & Hv). cbn [app] in *.
  exists m, m', it', ns. split_and!; [done|done|done|apply Hsc'| |].
  - intros k Hk Hn. destruct (scanning_next _ _ _ _ _ _ _ Hsc') as [(_ & H & _)|(? & ? & ? & H & _)]; [by apply H|].
    by rewrite Hn in H.
  - intros k. apply represents_get. exists ls'. split; apply Hsc'.
Qed.

(** "b" and "d" are there; "a" is put behind the iterator, "c" and a tombstone of
    "d" ahead of it. *)
Definition scan_ops : list kvt := [(str "b", str "1", false); (str "d", str "2", false)].
Definition scan_events : list scan_event :=
  [ScanNext; ScanWrite (str "a", str "3", false); ScanWrite (str "c", str "4", false);
   ScanWrite (str "d", [], true); ScanNext; ScanNext; ScanNext].

Example scan_example :
  (let* m := run DefaultMemTableOptions [] scan_ops in
   let* (_, _, ns) := scan scan_events m (NewIterator m) [] in
   Ret (entry_of_node <$> ns))
  = Ret [(str "b", (str "1", false)); (str "c", (str "4", false)); (str "d", ([], true))].
Proof. vm_compute. reflexivity. Qed.

Lemma iteration_under_writes_witness :
  ∃ m m' it' ns, run DefaultMemTableOptions [] scan_ops = Ret m
    ∧ scan scan_events m (NewIterator m) [] = Ret (m', it', ns)
    ∧ scans (apply_ops ∅ scan_ops) None scan_events (entry_of_node <$> ns)
    ∧ StronglySorted bytes_lt (n_Key <$> ns)
    ∧ (∀ k, k ∈ dom (apply_ops ∅ scan_ops) → HasNext (mt_heap m') it' = Ret false → k ∈ n_Key <$> ns)
    ∧ ∀ k, Get m' k = Ret (lookup_answer (apply_ops (apply_ops ∅ scan_ops) (scan_writes scan_events) !! k)).
Proof.
  apply (iteration_under_writes DefaultMemTableOptions [] scan_ops scan_events). vm_compute. reflexivity.
Defined.
