(* ===== verification/Lumafly.v ===== *)
(** * Lumafly: the Bloom filter of the SSTables (cpp/src/lumafly_bloom.cpp)

    The C++ filter behind cgo: MurmurHash3, double hashing into a bit array,
    and the serialized form stored in every SSTable.  Words are [uint32_t] or
    64-bit [size_t] with their wrap-around written out; the host is
    little-endian, which fixes the block reads of the hash and the [memcpy] of
    the two header words.  A division by zero, an index outside the vector and
    a failed allocation are [Panic].

    The number of bits and of hash functions come out of [double] arithmetic,
    which is that of Float64, with [std::log], which is the parameter [log]:
    all that is used of it is the double it gives for 2 and that the logarithm
    of a rate between 0 and 1 is a negative number above -1024 ([log_ok]).  A
    conversion of a number that does not fit [size_t], undefined in C++, is
    [Panic]. *)

From Stdlib Require Import Strings.Byte Floats.SpecFloat.
From S2P Require Import Prelude GoBytes Float64 KV.

Local Open Scope Z_scope.

(** ** MurmurHash3, 32 bit *)

Definition mul32 (a b : Z) : Z := u32 (a * b).
Definition rotl32 (x r : Z) : Z := Z.lor (u32 (Z.shiftl x r)) (Z.shiftr x (32 - r)).

Definition murmur_c1 : Z := 0xcc9e2d51.
Definition murmur_c2 : Z := 0x1b873593.

Definition scramble (k1 : Z) : Z := mul32 (rotl32 (mul32 k1 murmur_c1) 15) murmur_c2.

Definition le_get (bs : bytes) : Z := be_get (reverse bs).
Definition le_put (n : nat) (z : Z) : bytes := reverse (be_put n z).

(** The loop over the 4-byte blocks; what is left is the tail. *)
Fixpoint murmur_blocks (key : bytes) (h1 : Z) : Z * bytes :=
  match key with
  | b0 :: b1 :: b2 :: b3 :: rest =>
      let k1 := scramble (le_get [b0; b1; b2; b3]) in
      let h1 := rotl32 (Z.lxor h1 k1) 13 in
      murmur_blocks rest (u32 (h1 * 5 + 0xe6546b64))
  | tail => (h1, tail)
  end.

(** The fall-through switch on [len & 3]. *)
Definition murmur_tail (h1 : Z) (tail : bytes) : Z :=
  let k1 := match tail with
            | [a; b; c] => Z.lxor (Z.lxor (Z.shiftl (byte_val c) 16) (Z.shiftl (byte_val b) 8)) (byte_val a)
            | [a; b] => Z.lxor (Z.shiftl (byte_val b) 8) (byte_val a)
            | [a] => byte_val a
            | _ => 0
            end in
  match tail with
  | [] => h1
  | _ => Z.lxor h1 (scramble k1)
  end.

Definition murmurhash3_32 (key : bytes) (seed : Z) : Z :=
  let '(h1, tail) := murmur_blocks key seed in
  let h1 := murmur_tail h1 tail in
  let h1 := Z.lxor h1 (u32 (len key)) in
  let h1 := mul32 (Z.lxor h1 (Z.shiftr h1 16)) 0x85ebca6b in
  let h1 := mul32 (Z.lxor h1 (Z.shiftr h1 13)) 0xc2b2ae35 in
  Z.lxor h1 (Z.shiftr h1 16).

(** Published test vectors of MurmurHash3_x86_32. *)
Example murmur_vectors :
  murmurhash3_32 [] 1 = 0x514e28b7
  ∧ murmurhash3_32 (str "test") 0 = 0xba6bd213
  ∧ murmurhash3_32 (str "aaa") 0x9747b28c = 0x283e0130
  ∧ murmurhash3_32 (str "Hello, world!") 0x9747b28c = 0x24884cba
  ∧ murmurhash3_32 (str "The quick brown fox jumps over the lazy dog") 0x9747b28c = 0x2fa826cd.
Proof. by vm_compute. Qed.

(** ** The filter *)

Record LumaflyBloom := mkBloom {
  num_bits : Z;
  num_hashes : Z;
  bit_array : bytes }.

(** [(num_bits + 7) / 8] in [size_t]. *)
Definition num_bytes (bits : Z) : Z := u64 (bits + 7) / 8.

(** Probe number [i]: [(h1 + (uint32_t)i * h2) % num_bits]. *)
Definition bit_idx (bits h1 h2 i : Z) : go Z :=
  check negb (bits =? 0) in Ret (u32 (h1 + mul32 (u32 i) h2) mod bits).

Fixpoint add_loop (k : nat) (i bits h1 h2 : Z) (arr : bytes) : go bytes :=
  match k with
  | O => Ret arr
  | S k =>
      let* b := bit_idx bits h1 h2 i in
      let* old := GoBytes.index arr (b / 8) in
      let* arr := store arr (b / 8) (byte_of (Z.lor (byte_val old) (Z.shiftl 1 (b mod 8)))) in
      add_loop k (i + 1) bits h1 h2 arr
  end.

Definition lumafly_add (bf : LumaflyBloom) (key : bytes) : go LumaflyBloom :=
  let h1 := murmurhash3_32 key 0x9747b28c in
  let h2 := murmurhash3_32 key h1 in
  let* arr := add_loop (Z.to_nat (num_hashes bf)) 0 (num_bits bf) h1 h2 (bit_array bf) in
  Ret (mkBloom (num_bits bf) (num_hashes bf) arr).

Fixpoint contains_loop (k : nat) (i bits h1 h2 : Z) (arr : bytes) : go bool :=
  match k with
  | O => Ret true
  | S k =>
      let* b := bit_idx bits h1 h2 i in
      let* x := GoBytes.index arr (b / 8) in
      if Z.land (byte_val x) (Z.shiftl 1 (b mod 8)) =? 0 then Ret false
      else contains_loop k (i + 1) bits h1 h2 arr
  end.

Definition lumafly_contains (bf : LumaflyBloom) (key : bytes) : go bool :=
  let h1 := murmurhash3_32 key 0x9747b28c in
  let h2 := murmurhash3_32 key h1 in
  contains_loop (Z.to_nat (num_hashes bf)) 0 (num_bits bf) h1 h2 (bit_array bf).

Definition lumafly_get_serialized_size (bf : LumaflyBloom) : Z := 8 * 2 + len (bit_array bf).

(** The buffer after the call and the number of bytes written, 0 if it is too
    short. *)
Definition lumafly_serialize (bf : LumaflyBloom) (buf : bytes) : go (bytes * Z) :=
  let req_size := lumafly_get_serialized_size bf in
  if len buf <? req_size then Ret (buf, 0) else
  let* buf := copy_into buf 0 8 (le_put 8 (num_bits bf)) in
  let* buf := copy_into buf 8 16 (le_put 8 (num_hashes bf)) in
  let* buf := copy_into buf 16 (16 + len (bit_array bf)) (bit_array bf) in
  Ret (buf, req_size).

Definition lumafly_deserialize (buf : bytes) : go (option LumaflyBloom) :=
  if len buf <? 8 * 2 then Ret None else
  let* bits := slice buf 0 8 in
  let* hashes := slice buf 8 16 in
  let bits := le_get bits in
  let hashes := le_get hashes in
  let n := num_bytes bits in
  if len buf <? 8 * 2 + n then Ret None else
  let* arr := slice buf 16 (16 + n) in
  Ret (Some (mkBloom bits hashes arr)).

Section create.
Context (log : double → double).

(** The arguments after the guards of [lumafly_create]. *)
Definition entries_arg (expected_entries : Z) : Z :=
  if expected_entries =? 0 then 1 else expected_entries.
Definition rate_arg (fp_rate : double) : double :=
  if Dle fp_rate (S754_zero false) || Dle (double_of_Z 1) fp_rate then literal 1 1000 else fp_rate.

Definition lumafly_create (expected_entries : Z) (fp_rate : double) : go (option LumaflyBloom) :=
  let n := entries_arg expected_entries in
  let p := rate_arg fp_rate in
  let ln2 := log (double_of_Z 2) in
  let m := Ddiv (Dopp (Dmul (double_of_Z n) (log p))) (Dmul ln2 ln2) in
  let* bits := size_t_of_ceil m in
  let bits := if bits <? 64 then 64 else bits in
  let k := Dmul (Ddiv (double_of_Z bits) (double_of_Z n)) ln2 in
  let* hashes := size_t_of_ceil k in
  let hashes := if hashes <? 1 then 1 else hashes in
  let* arr := make_bytes (num_bytes bits) in
  Ret (Some (mkBloom bits hashes arr)).
End create.

(** * Facts *)

Lemma length_le_put n z : length (le_put n z) = n.
Proof. unfold le_put. by rewrite length_reverse, length_be_put. Qed.

Lemma le_get_put n z : 0 ≤ z < 256 ^ Z.of_nat n → le_get (le_put n z) = z.
Proof. intros H. unfold le_get, le_put. rewrite reverse_involutive. by apply be_get_put_small. Qed.

(** ** Bits *)

(** Bit [b] of the array. *)
Definition bit_at (arr : bytes) (b : Z) : bool :=
  match arr !! Z.to_nat (b / 8) with
  | Some x => Z.testbit (byte_val x) (b mod 8)
  | None => false
  end.

(** The array only gained bits. *)
Definition grows (arr arr' : bytes) : Prop :=
  length arr' = length arr ∧ ∀ b, 0 ≤ b → bit_at arr b = true → bit_at arr' b = true.

#[global] Instance grows_preorder : PreOrder grows.
Proof.
  split; [done|]. intros a b c [Hl1 H1] [Hl2 H2]. split; [congruence|auto].
Qed.

Lemma byte_or_bit old i j :
  0 ≤ i < 8 → 0 ≤ j →
  Z.testbit (byte_val (byte_of (Z.lor (byte_val old) (Z.shiftl 1 i)))) j =
    Z.testbit (byte_val old) j || (i =? j).
Proof.
  intros Hi Hj. rewrite byte_val_of. change 256 with (2 ^ 8).
  destruct (decide (j < 8)) as [Hlt|Hge].
  - rewrite Z.mod_pow2_bits_low, Z.lor_spec by lia. f_equal.
    rewrite Z.shiftl_1_l, Z.pow2_bits_eqb by lia. done.
  - rewrite Z.mod_pow2_bits_high by lia. symmetry. apply orb_false_iff. split; [|lia].
    pose proof (byte_val_range old).
    rewrite Z.testbit_false by lia. rewrite Z.div_small; [done|].
    split; [lia|]. apply Z.lt_le_trans with (2 ^ 8); [lia|]. apply Z.pow_le_mono_r; lia.
Qed.

Lemma land_bit x i : 0 ≤ i → (Z.land x (Z.shiftl 1 i) =? 0) = negb (Z.testbit x i).
Proof.
  intros Hi. rewrite Z.shiftl_1_l.
  destruct (Z.testbit x i) eqn:E; simpl.
  - apply Z.eqb_neq. intros H0. apply (f_equal (λ z, Z.testbit z i)) in H0.
    by rewrite Z.land_spec, E, Z.pow2_bits_true, Z.bits_0 in H0.
  - apply Z.eqb_eq. apply Z.bits_inj'. intros j Hj.
    rewrite Z.land_spec, Z.bits_0, Z.pow2_bits_eqb by lia.
    destruct (Z.eqb_spec i j) as [->|]; [by rewrite E|apply andb_false_r].
Qed.

(** Setting bit [b]. *)
Lemma set_bit_ok arr b old :
  0 ≤ b → arr !! Z.to_nat (b / 8) = Some old →
  let arr' := <[Z.to_nat (b / 8) := byte_of (Z.lor (byte_val old) (Z.shiftl 1 (b mod 8)))]> arr in
  grows arr arr' ∧ bit_at arr' b = true.
Proof.
  intros Hb Ho arr'. pose proof (lookup_lt_Some _ _ _ Ho) as Hlt.
  assert (Hm : ∀ z, 0 ≤ z mod 8 < 8) by (intros; apply Z.mod_pos_bound; lia).
  split; [split|].
  - apply length_insert.
  - intros c Hc. unfold bit_at, arr'.
    destruct (decide (Z.to_nat (b / 8) = Z.to_nat (c / 8))) as [E|E].
    + rewrite <-E, Ho, list_lookup_insert_eq, byte_or_bit by (done || apply Hm).
      by intros ->.
    + by rewrite list_lookup_insert_ne.
  - unfold bit_at, arr'. rewrite list_lookup_insert_eq, byte_or_bit by (done || apply Hm).
    by rewrite Z.eqb_refl, orb_true_r.
Qed.

(** ** The loops *)

Section loops.
Context (bits h1 h2 : Z).

(** The array has a byte for each of the [bits] bits. *)
Definition sized (arr : bytes) : Prop := 0 < bits ∧ bits ≤ 8 * len arr.

Definition probe (i : Z) : Z := u32 (h1 + mul32 (u32 i) h2) mod bits.

Lemma probe_ok arr i :
  sized arr → bit_idx bits h1 h2 i = Ret (probe i) ∧ 0 ≤ probe i
    ∧ ∃ x, arr !! Z.to_nat (probe i / 8) = Some x.
Proof.
  intros [Hpos Hsz]. unfold bit_idx, probe.
  pose proof (Z.mod_pos_bound (u32 (h1 + mul32 (u32 i) h2)) bits Hpos) as Hr.
  replace (bits =? 0) with false by lia. split_and!; [done|lia|].
  apply lookup_lt_is_Some_2. unfold len in Hsz.
  enough (u32 (h1 + mul32 (u32 i) h2) mod bits / 8 < Z.of_nat (length arr)).
  { pose proof (Z.div_pos (u32 (h1 + mul32 (u32 i) h2) mod bits) 8). lia. }
  apply Z.div_lt_upper_bound; lia.
Qed.

Lemma index_some (arr : bytes) i x :
  0 ≤ i → arr !! Z.to_nat i = Some x → GoBytes.index arr i = Ret x.
Proof. intros Hi Hx. unfold index. rewrite guard_go_true by lia. by rewrite Hx. Qed.

Lemma store_some (arr : bytes) i x y :
  0 ≤ i → arr !! Z.to_nat i = Some x → store arr i y = Ret (<[Z.to_nat i := y]> arr).
Proof.
  intros Hi Hx%lookup_lt_Some. unfold store. rewrite guard_go_true; [done|].
  unfold len. lia.
Qed.

Lemma sized_grows arr arr' : grows arr arr' → sized arr → sized arr'.
Proof. intros [Hl _] [? ?]. unfold sized, len in *. rewrite Hl. lia. Qed.

(** [lumafly_add] stays in bounds and sets every probed bit. *)
Lemma add_loop_ok k i arr :
  sized arr →
  ∃ arr', add_loop k i bits h1 h2 arr = Ret arr' ∧ grows arr arr'
    ∧ ∀ j, i ≤ j < i + Z.of_nat k → bit_at arr' (probe j) = true.
Proof.
  revert i arr. induction k as [|k IH]; intros i arr Hs.
  { exists arr. split_and!; [done..|]. intros j Hj. lia. }
  destruct (probe_ok arr i Hs) as (Eb & Hb & x & Hx).
  pose proof (Z.div_pos (probe i) 8 Hb ltac:(lia)) as Hd.
  destruct (set_bit_ok arr (probe i) x Hb Hx) as [Hg Hbit].
  destruct (IH (i + 1) _ (sized_grows _ _ Hg Hs)) as (arr' & E' & Hg' & Hset).
  exists arr'. cbn [add_loop]. rewrite Eb. cbn [bind_go].
  rewrite (index_some _ _ _ Hd Hx). cbn [bind_go].
  rewrite (store_some _ _ _ _ Hd Hx). cbn [bind_go].
  split_and!; [done|by etransitivity|]. intros j Hj.
  destruct (decide (j = i)) as [->|]; [|apply Hset; lia].
  by apply Hg'.
Qed.

Lemma contains_loop_ok k i arr :
  sized arr →
  ∃ r, contains_loop k i bits h1 h2 arr = Ret r
    ∧ ((∀ j, i ≤ j < i + Z.of_nat k → bit_at arr (probe j) = true) → r = true).
Proof.
  intros Hs. revert i. induction k as [|k IH]; intros i; [by exists true|].
  destruct (probe_ok arr i Hs) as (Eb & Hb & x & Hx).
  pose proof (Z.div_pos (probe i) 8 Hb ltac:(lia)) as Hd.
  destruct (IH (i + 1)) as (r & Er & Hr). cbn [contains_loop]. rewrite Eb. cbn [bind_go].
  rewrite (index_some _ _ _ Hd Hx). cbn [bind_go].
  pose proof (Z.mod_pos_bound (probe i) 8 ltac:(lia)).
  rewrite land_bit by lia. destruct (Z.testbit (byte_val x) (probe i mod 8)) eqn:E; simpl.
  - exists r. split; [done|]. intros Hall. apply Hr. intros j Hj. apply Hall. lia.
  - exists false. split; [done|]. intros Hall. specialize (Hall i ltac:(lia)).
    unfold bit_at in Hall. rewrite Hx in Hall. congruence.
Qed.
End loops.

(** ** The filter as a set of added keys *)

Definition all_set (bf : LumaflyBloom) (key : bytes) : Prop :=
  let h1 := murmurhash3_32 key 0x9747b28c in
  ∀ j, 0 ≤ j < num_hashes bf →
    bit_at (bit_array bf) (probe (num_bits bf) h1 (murmurhash3_32 key h1) j) = true.

(** The fields are words, the array has exactly the bytes for the bits, and its
    serialized form can be allocated. *)
Record bloom_wf (bf : LumaflyBloom) : Prop := {
  wf_bits : 0 < num_bits bf ≤ 2 ^ 50;
  wf_hashes : 0 ≤ num_hashes bf < 2 ^ 64;
  wf_array : len (bit_array bf) = num_bytes (num_bits bf) }.

Definition added (bf : LumaflyBloom) (ks : list bytes) : Prop :=
  bloom_wf bf ∧ Forall (all_set bf) ks.

Lemma num_bytes_bound bits : 0 < bits ≤ 2 ^ 50 → bits ≤ 8 * num_bytes bits ≤ bits + 7.
Proof.
  intros Hb. unfold num_bytes, u64. rewrite Z.mod_small by lia.
  pose proof (Z.div_mod (bits + 7) 8). pose proof (Z.mod_pos_bound (bits + 7) 8). lia.
Qed.

Lemma wf_sized bf : bloom_wf bf → sized (num_bits bf) (bit_array bf).
Proof.
  intros [Hb _ Ha]. pose proof (num_bytes_bound _ Hb). unfold sized. lia.
Qed.

Lemma lumafly_add_ok bf ks key :
  added bf ks → ∃ bf', lumafly_add bf key = Ret bf' ∧ added bf' (key :: ks).
Proof.
  intros [Hwf Hks]. unfold lumafly_add.
  set (h1 := murmurhash3_32 key 0x9747b28c). set (h2 := murmurhash3_32 key h1).
  destruct (add_loop_ok (num_bits bf) h1 h2 (Z.to_nat (num_hashes bf)) 0 (bit_array bf))
    as (arr & -> & [Hlen Hg] & Hset); [by apply wf_sized|].
  destruct Hwf as [Hb Hh Ha]. eexists. split; [done|]. split.
  - split; cbn; [done..|]. unfold len in *. congruence.
  - constructor.
    + intros j Hj. cbn in *. apply Hset. lia.
    + eapply Forall_impl; [exact Hks|]. intros k Hk j Hj. cbn in *. apply Hg; [|by apply Hk].
      apply Z.mod_pos_bound. lia.
Qed.

Lemma lumafly_contains_ok bf ks key :
  added bf ks → ∃ r, lumafly_contains bf key = Ret r ∧ (key ∈ ks → r = true).
Proof.
  intros [Hwf Hks]. unfold lumafly_contains.
  edestruct contains_loop_ok as (r & Er & Hr); [by apply wf_sized|].
  exists r. split; [exact Er|]. intros Hin. apply Hr. intros j Hj.
  rewrite Forall_forall in Hks. apply (Hks key Hin). pose proof (wf_hashes _ Hwf). lia.
Qed.

Lemma size_range bf :
  bloom_wf bf → 0 < lumafly_get_serialized_size bf ≤ maxAlloc.
Proof.
  intros [Hb _ Ha]. pose proof (num_bytes_bound _ Hb).
  unfold lumafly_get_serialized_size, maxAlloc. lia.
Qed.

(** The serialized form. *)
Definition bloom_image (bf : LumaflyBloom) : bytes :=
  le_put 8 (num_bits bf) ++ le_put 8 (num_hashes bf) ++ bit_array bf.

Lemma len_bloom_image bf : len (bloom_image bf) = lumafly_get_serialized_size bf.
Proof.
  unfold bloom_image, lumafly_get_serialized_size, len.
  rewrite !length_app, !length_le_put. lia.
Qed.

Lemma serialize_image bf :
  lumafly_serialize bf (replicate (Z.to_nat (lumafly_get_serialized_size bf)) x00) =
    Ret (bloom_image bf, lumafly_get_serialized_size bf).
Proof.
  unfold lumafly_serialize.
  set (size := lumafly_get_serialized_size bf).
  assert (Z.to_nat size = 8 + (8 + length (bit_array bf)))%nat as Hn
    by (unfold size, lumafly_get_serialized_size, len; lia).
  assert (len (replicate (Z.to_nat size) x00) = size) as Hl.
  { unfold len. rewrite length_replicate. unfold size, lumafly_get_serialized_size, len. lia. }
  rewrite Hl, Z.ltb_irrefl, Hn, !replicate_add.
  pose proof (length_le_put 8 (num_bits bf)) as H1.
  pose proof (length_le_put 8 (num_hashes bf)) as H2.
  unfold bloom_image. set (a := le_put 8 (num_bits bf)) in *.
  set (b := le_put 8 (num_hashes bf)) in *.
  rewrite (copy_into_at _ [] (replicate 8 x00) (replicate 8 x00 ++ replicate (length (bit_array bf)) x00) _ 0 8)
    by (rewrite ?H1; done).
  rewrite go_bind_ret. cbn [app].
  rewrite (copy_into_at _ a (replicate 8 x00) (replicate (length (bit_array bf)) x00) _ 8 16)
    by (unfold len; rewrite ?H1, ?H2, ?length_replicate; done).
  rewrite go_bind_ret.
  rewrite (copy_into_at _ (a ++ b) (replicate (length (bit_array bf)) x00) [] _ 16)
    by (unfold len; rewrite ?length_app, ?H1, ?H2, ?length_replicate, ?app_nil_r, <-?app_assoc; done || lia).
  by rewrite go_bind_ret, app_nil_r, <-app_assoc.
Qed.

Lemma deserialize_image bf :
  bloom_wf bf → lumafly_deserialize (bloom_image bf) = Ret (Some bf).
Proof.
  intros [Hb Hh Ha]. pose proof (num_bytes_bound _ Hb) as Hnb.
  unfold lumafly_deserialize. rewrite len_bloom_image.
  unfold lumafly_get_serialized_size, bloom_image.
  pose proof (length_le_put 8 (num_bits bf)) as H1.
  pose proof (length_le_put 8 (num_hashes bf)) as H2.
  pose proof (le_get_put 8 (num_bits bf) ltac:(lia)) as G1.
  pose proof (le_get_put 8 (num_hashes bf) ltac:(lia)) as G2.
  set (a := le_put 8 (num_bits bf)) in *. set (b := le_put 8 (num_hashes bf)) in *.
  replace (8 * 2 + len (bit_array bf) <? 8 * 2) with false by lia.
  rewrite (slice_at _ [] a (b ++ bit_array bf) 0 8) by (unfold len; rewrite ?H1; done).
  rewrite go_bind_ret.
  rewrite (slice_at _ a b (bit_array bf) 8 16) by (unfold len; rewrite ?H1, ?H2; done).
  rewrite go_bind_ret. cbv zeta. rewrite G1, G2, <-Ha, Z.ltb_irrefl.
  rewrite (slice_at _ (a ++ b) (bit_array bf) [] 16)
    by (unfold len; rewrite ?length_app, ?H1, ?H2, ?app_nil_r, <-?app_assoc; done).
  rewrite go_bind_ret. by destruct bf.
Qed.

(** ** The sizes *)

(** The double next to the logarithm of 2. *)
Definition M_LN2 : double := S754_finite false 6243314768165359 (-53).

(** What is used of [std::log]. *)
Record log_ok (log : double → double) : Prop := {
  log_two : log (double_of_Z 2) = M_LN2;
  log_rate p : valid_double p = true → Dlt (S754_zero false) p = true → Dlt p (double_of_Z 1) = true →
    below true 10 (log p) }.

(** The arguments for which the sizes are defined: fewer than [2 ^ 32] entries
    and a rate that is a number. *)
Record filter_fits (log : double → double) (n : Z) (p : double) : Prop := {
  ff_log : log_ok log;
  ff_entries : (0 <=? n) && (n <? 2 ^ 32) = true;
  ff_valid : valid_double p = true;
  ff_number : p ≠ S754_nan }.

(** After the guards the rate is between 0 and 1. *)
Lemma rate_arg_ok p :
  valid_double p = true → p ≠ S754_nan →
  valid_double (rate_arg p) = true ∧ Dlt (S754_zero false) (rate_arg p) = true
  ∧ Dlt (rate_arg p) (double_of_Z 1) = true.
Proof.
  intros Hv Hn. unfold rate_arg. destruct (Dle p _ || Dle _ p) eqn:E; [done|].
  apply orb_false_iff in E as [E0 E1]. split_and!; [done|by apply Dle_false_lt..].
Qed.

Section instance.
Context (log : double → double).

(** The sizes are defined and can be allocated. *)
Lemma lumafly_create_ok n p :
  filter_fits log n p →
  ∃ bf, lumafly_create log n p = Ret (Some bf) ∧ added bf [].
Proof.
  intros [[Htwo Hlog] Hn Hv Hnan]. destruct (rate_arg_ok p Hv Hnan) as (Hv' & Hlo & Hhi).
  specialize (Hlog _ Hv' Hlo Hhi). unfold lumafly_create. rewrite Htwo. cbv zeta.
  set (n1 := entries_arg n). assert (1 ≤ n1 < 2 ^ 32) as Hn1.
  { unfold n1, entries_arg. destruct (Z.eqb_spec n 0); lia. }
  pose proof (double_of_Z_below n1 32 Hn1 ltac:(lia)) as Hd.
  pose proof (Dopp_below _ _ _ (Dmul_below _ _ _ _ _ _ Hd Hlog ltac:(lia))) as Hm. cbn [xorb negb] in Hm.
  assert (below false (32 + 10 + 1 + 2000) (Dmul M_LN2 M_LN2) ∧ above (-2) (Dmul M_LN2 M_LN2)) as [Hc1 Hc2].
  { split; [split; [done|]|]; vm_compute; done. }
  pose proof (Ddiv_below _ _ _ _ _ _ Hm Hc1 Hc2 ltac:(lia)) as Hb. cbn [xorb] in Hb.
  destruct (ceil_below _ _ Hb ltac:(lia)) as (ob & -> & Hob). rewrite go_bind_ret.
  set (bits := if ob <? 64 then 64 else ob).
  assert (64 ≤ bits ≤ 2 ^ 47) as Hbits by (unfold bits; destruct (Z.ltb_spec ob 64); lia).
  pose proof (double_of_Z_below bits 48 ltac:(lia) ltac:(lia)) as Hbd.
  pose proof (Ddiv_below _ _ _ _ _ _ Hbd (below_mono _ 32 (48 + 2000) _ ltac:(lia) Hd)
    (double_of_Z_above n1 ltac:(lia)) ltac:(lia)) as Hq.
  assert (below false 0 M_LN2) as Hln by (split; [done|vm_compute; done]).
  pose proof (Dmul_below _ _ _ _ _ _ Hq Hln ltac:(lia)) as Hk. cbn [xorb] in Hk.
  destruct (ceil_below _ _ Hk ltac:(lia)) as (oh & -> & Hoh). rewrite go_bind_ret.
  pose proof (num_bytes_bound bits ltac:(lia)) as Hnb.
  rewrite make_bytes_ok by (unfold maxAlloc; lia). rewrite go_bind_ret.
  eexists. split; [done|]. split; [|constructor]. split; cbn; [lia| |].
  - destruct (Z.ltb_spec oh 1); lia.
  - unfold len. rewrite length_replicate. lia.
Qed.

#[local] Program Instance lumafly_bloom : Bloom LumaflyBloom := {
  bl_create := lumafly_create log;
  bl_add := lumafly_add;
  bl_contains := lumafly_contains;
  bl_size := lumafly_get_serialized_size;
  bl_serialize := lumafly_serialize;
  bl_deserialize := lumafly_deserialize;
  bl_rep := added;
  bl_fits := filter_fits log }.
Next Obligation. intros. by apply lumafly_create_ok. Qed.
Next Obligation. intros. by apply lumafly_add_ok. Qed.
Next Obligation. intros. by eapply lumafly_contains_ok. Qed.
Next Obligation. intros b ks [Hwf _]. by apply size_range. Qed.
Next Obligation.
  intros b ks [Hwf _]. exists (bloom_image b).
  split; [apply serialize_image|]. split; [apply len_bloom_image|by apply deserialize_image].
Qed.
End instance.

(** ** Claims *)

Fixpoint add_all (ks : list bytes) (bf : LumaflyBloom) : go LumaflyBloom :=
  match ks with
  | [] => Ret bf
  | k :: ks => let* bf := lumafly_add bf k in add_all ks bf
  end.

Lemma add_all_ok ks bf ks0 :
  added bf ks0 → ∃ bf', add_all ks bf = Ret bf' ∧ added bf' (reverse ks ++ ks0).
Proof.
  revert bf ks0. induction ks as [|k ks IH]; intros bf ks0 Ha; [eauto|].
  destruct (lumafly_add_ok bf ks0 k Ha) as (bf1 & E1 & Ha1).
  destruct (IH bf1 _ Ha1) as (bf' & E' & Ha'). exists bf'. cbn [add_all]. rewrite E1.
  split; [done|]. by rewrite reverse_cons, <-app_assoc.
Qed.

(** C26.  No false negatives, across serialization: a filter created for any
    number of entries below [2 ^ 32] and any rate that is a number, filled with
    any keys, written into a buffer of the size it asks for and read back, is the
    same filter and contains every one of the keys; no step leaves the bit
    array or divides by zero. *)
Theorem bloom_no_false_negatives log n p ks :
  filter_fits log n p →
  ∃ bf0 bf img, lumafly_create log n p = Ret (Some bf0) ∧ add_all ks bf0 = Ret bf
    ∧ lumafly_serialize bf (replicate (Z.to_nat (lumafly_get_serialized_size bf)) x00)
        = Ret (img, len img)
    ∧ lumafly_deserialize img = Ret (Some bf)
    ∧ Forall (λ k, lumafly_contains bf k = Ret true) ks.
Proof.
  intros Hf. destruct (lumafly_create_ok log n p Hf) as (bf0 & E0 & Ha0).
  destruct (add_all_ok ks bf0 [] Ha0) as (bf & E & Ha). rewrite app_nil_r in Ha.
  exists bf0, bf, (bloom_image bf). rewrite len_bloom_image.
  split_and!; [done|done|apply serialize_image|apply deserialize_image, Ha|].
  apply Forall_forall. intros k Hk.
  destruct (lumafly_contains_ok bf _ k Ha) as (r & Er & Hr).
  rewrite Er, Hr; [done|]. by apply elem_of_reverse.
Qed.

(** A stand-in for [std::log], with the right value at 2 and 0.001. *)
Definition log1 (x : double) : double :=
  if Dlt (double_of_Z 1) x then M_LN2 else S754_finite true 7777445338884735 (-50).

Lemma log1_ok : log_ok log1.
Proof.
  split; [done|]. intros p _ _ Hp. unfold log1. rewrite Dlt_asym by done. split; [done|vm_compute; done].
Qed.

Lemma bloom_no_false_negatives_witness :
  ∃ bf0 bf img, lumafly_create log1 4 (S754_zero false) = Ret (Some bf0) ∧ num_bits bf0 = 64 ∧ num_hashes bf0 = 12
    ∧ add_all [str "a"; str "b"] bf0 = Ret bf
    ∧ lumafly_serialize bf (replicate (Z.to_nat (lumafly_get_serialized_size bf)) x00)
        = Ret (img, len img)
    ∧ lumafly_deserialize img = Ret (Some bf)
    ∧ Forall (λ k, lumafly_contains bf k = Ret true) [str "a"; str "b"].
Proof.
  assert (filter_fits log1 4 (S754_zero false)) as H by (split; [apply log1_ok|done..]).
  destruct (bloom_no_false_negatives log1 4 (S754_zero false) [str "a"; str "b"] H)
    as (bf0 & bf & img & E & Ha & Hs & Hd & Hc).
  exists bf0, bf, img. split; [exact E|]. vm_compute in E. injection E as <-.
  split_and!; [reflexivity|reflexivity|exact Ha|exact Hs|exact Hd|exact Hc].
Defined.

(** Reading back a damaged filter block never leaves the buffer: for any
    bytes [lumafly_deserialize] answers nil or a filter, and a lookup in a
    filter it returns stays in bounds, as long as the stored number of bits is
    neither zero nor within 7 of the word size, the two values it does not
    reject. *)
Theorem deserialized_filter_in_bounds buf key :
  ∃ r, lumafly_deserialize buf = Ret r
    ∧ ∀ bf, r = Some bf → 0 < num_bits bf ≤ 2 ^ 64 - 8 →
        ∃ answer, lumafly_contains bf key = Ret answer.
Proof.
  unfold lumafly_deserialize.
  destruct (Z.ltb_spec (len buf) (8 * 2)) as [Hlt|Hge]; [by exists None|].
  rewrite (slice_ok buf 0 8), (slice_ok buf 8 16), !go_bind_ret by lia. cbv zeta.
  set (bits := le_get _). set (hashes := le_get _).
  destruct (Z.ltb_spec (len buf) (8 * 2 + num_bytes bits)) as [Hlt|Hge']; [by exists None|].
  assert (0 ≤ num_bytes bits) as Hn.
  { unfold num_bytes, u64. apply Z.div_pos; [|lia]. apply Z.mod_pos_bound. lia. }
  rewrite slice_ok, go_bind_ret by lia. eexists. split; [done|].
  intros bf [= <-]. cbn [num_bits]. intros Hb. unfold lumafly_contains. cbn [num_bits num_hashes bit_array].
  edestruct contains_loop_ok as (r & Er & _); [|eauto].
  split; [lia|]. unfold len. rewrite length_take, length_drop. fold (len buf).
  assert (bits ≤ 8 * num_bytes bits).
  { unfold num_bytes, u64. rewrite Z.mod_small by lia.
    pose proof (Z.div_mod (bits + 7) 8). pose proof (Z.mod_pos_bound (bits + 7) 8). lia. }
  unfold len in *. lia.
Qed.

(** The filter block carries no checksum and its bit count is not
    validated: a block whose count reads zero is accepted, and the next lookup
    divides by it, which kills the process. *)
Theorem zero_bits_filter_crashes key :
  let buf := replicate 8 x00 ++ x01 :: replicate 7 x00 in
  ∃ bf, lumafly_deserialize buf = Ret (Some bf) ∧ lumafly_contains bf key = Panic.
Proof. eexists. split; [vm_compute; reflexivity|]. reflexivity. Qed.

(** A rate that is not a number passes the guards, in Go and in C++, and the
    size computed from it is undefined. *)
Theorem nan_rate_undefined log n : log S754_nan = S754_nan → lumafly_create log n S754_nan = Panic.
Proof.
  intros Hlog. unfold lumafly_create. change (rate_arg S754_nan) with S754_nan. rewrite Hlog.
  by destruct (double_of_Z (entries_arg n)).
Qed.
