(* ===== verification/SSTable.v ===== *)
(** * Deepnest SSTables (pkg/storage/sstable.go)

    An immutable sorted file: data records, a sparse index of every
    [SparseInterval]-th key, the serialized Bloom filter and a 32-byte footer
    that locates the two.  [BuildSSTable] writes one from a MemTable iterator,
    [OpenSSTable] loads its index and filter, [Get] looks a key up: filter,
    binary search in the index, scan of one block.  The filter is any instance
    of [Bloom]. *)

From Stdlib Require Import Strings.Byte Strings.String Floats.SpecFloat.
From S2P Require Import Prelude GoBytes Float64 KV Os Record MemTable.

Local Open Scope Z_scope.

Definition FooterSize : Z := 32.
Definition DefaultIndexInterval : Z := 8.

Record IndexEntry := mkIndexEntry { ie_Key : bytes; ie_Offset : Z }.

Record Footer := mkFooter {
  IndexOffset : Z;
  IndexLen : Z;
  FilterOffset : Z;
  FilterLen : Z }.

Record SSTableOptions := mkSSTableOptions { SparseInterval : Z; FPRate : double }.

Definition DefaultSSTableOptions : SSTableOptions :=
  mkSSTableOptions DefaultIndexInterval (literal 1 10000).

(** The options after the guards of [BuildSSTable]. *)
Definition norm_options (opts : SSTableOptions) : SSTableOptions :=
  mkSSTableOptions
    (if SparseInterval opts <=? 0 then DefaultIndexInterval else SparseInterval opts)
    (if Dle (FPRate opts) (S754_zero false) then literal 1 10000 else FPRate opts).

(** [sort.Search(n, f)]: binary search for the first index where [f] holds. *)
Fixpoint search_loop (fuel : nat) (f : Z → go bool) (i j : Z) : go Z :=
  match fuel with
  | O => OutOfFuel
  | S fuel =>
      if i <? j then
        let h := Z.shiftr (i + j) 1 in
        let* b := f h in
        if b then search_loop fuel f i h else search_loop fuel f (h + 1) j
      else Ret i
  end.

Definition sort_Search (n : Z) (f : Z → go bool) : go Z :=
  search_loop (S (Z.to_nat n)) f 0 n.

(** One entry of the index block. *)
Definition index_entry_bytes (ie : IndexEntry) : bytes :=
  be_put 4 (u32 (len (ie_Key ie))) ++ ie_Key ie ++ be_put 8 (ie_Offset ie).

Definition index_bytes (idx : list IndexEntry) : bytes := concat (index_entry_bytes <$> idx).

Definition footer_bytes (ft : Footer) : bytes :=
  be_put 8 (IndexOffset ft) ++ be_put 8 (IndexLen ft)
    ++ be_put 8 (FilterOffset ft) ++ be_put 8 (FilterLen ft).

(** The four words of a footer buffer. *)
Definition decode_footer (buf : bytes) : go Footer :=
  let* io := Uint64 buf 0 8 in
  let* il := Uint64 buf 8 16 in
  let* fo := Uint64 buf 16 24 in
  let* fl := Uint64 buf 24 32 in
  Ret (mkFooter io il fo fl).

(** The loop that parses the index block: a length that cannot be read ends
    it, a short key or offset is corruption. *)
Fixpoint parse_index (fuel : nat) (buf : bytes) (index : list IndexEntry)
    : go (list IndexEntry + error) :=
  match fuel with
  | O => OutOfFuel
  | S fuel =>
      match buf with
      | [] => Ret (inl index)
      | _ =>
          match read_full buf 4 with
          | RFull kl rest =>
              let kLen := be_get kl in
              let* _ := make_bytes kLen in
              match read_full rest kLen with
              | RFull keyBuf rest =>
                  match read_full rest 8 with
                  | RFull off rest =>
                      parse_index fuel rest (index ++ [mkIndexEntry keyBuf (be_get off)])
                  | _ => Ret (inr ErrSSTableCorrupted)
                  end
              | _ => Ret (inr ErrSSTableCorrupted)
              end
          | _ => Ret (inl index)
          end
      end
  end.

Definition not_found : bytes * bool * bool := ([], false, false).

(** The loop of [Get] over the records of one block. *)
Fixpoint scan (fuel : nat) (buf key : bytes) : go ((bytes * bool * bool) * option error) :=
  match fuel with
  | O => OutOfFuel
  | S fuel =>
      match buf with
      | [] => Ret (not_found, None)
      | _ =>
          match read_full buf RecordHeaderSize with
          | RFull headerBuf rest =>
              let* h := decode_header headerBuf in
              let bl := bodyLen h in
              let* _ := make_bytes bl in
              match read_full rest bl with
              | RFull bodyBuf rest =>
                  let* crc := actualCRC headerBuf bodyBuf bl in
                  if expectedCRC h =? crc then
                    let* (currKey, currVal) := split_body bodyBuf (keyLen h) in
                    if Equal currKey key then
                      Ret ((currVal, hdr_tombstone h, true), None)
                    else if bytes_gtb currKey key then Ret (not_found, None)
                    else scan fuel rest key
                  else Ret (not_found,
                    Some (Wrapf "sstable record crc mismatch" ErrSSTableCorrupted))
              | _ => Ret (not_found, None)
              end
          | _ => Ret (not_found, None)
          end
      end
  end.

(** [file.Close(); return nil, err]. *)
Definition fail_close {A} (h : handle) (e : error) : IO (A + error) :=
  let! _ := CloseFile h in retM (inr e).

Section sstable.
Context {B : Type} `{Bloom B}.

Record SSTableReader := mkSSTableReader {
  sr_file : option handle;
  sr_filename : Os.path;
  sr_footer : Footer;
  sr_index : list IndexEntry;
  sr_bloom : option B }.

(** The loop of [BuildSSTable] over the iterator: filter, sparse index, offset,
    key count and handle are threaded through. *)
Fixpoint write_data (fuel : nat) (heap : list Node) (it : Iterator) (interval : Z)
    (cFilter : B) (index : list IndexEntry) (currentOffset keyCount : Z) (file : handle)
    : IO ((B * list IndexEntry * Z * handle) + error) :=
  match fuel with
  | O => λ _, OutOfFuel
  | S fuel =>
      let! more := liftM (HasNext heap it) in
      if more then
        let! (nx, it) := liftM (Next heap it) in
        let! l := liftM (opt_go nx) in
        let! nd := liftM (node heap l) in
        let! cFilter := liftM (bl_add cFilter (n_Key nd)) in
        let index :=
          if Z.rem keyCount interval =? 0
          then index ++ [mkIndexEntry (n_Key nd) currentOffset] else index in
        let! recBuf := liftM (encode_sst_record (n_Key nd) (n_Value nd) (n_Tombstone nd)) in
        let! (n, err, file) := Write file recBuf in
        match err with
        | Some e => fail_close file (Wrapf "failed writing data block record" e)
        | None =>
            write_data fuel heap it interval cFilter index
              (u64 (currentOffset + n)) (keyCount + 1) file
        end
      else retM (inl (cFilter, index, currentOffset, file))
  end.

Definition OpenSSTable (filename : Os.path) : IO (SSTableReader + error) :=
  let! r := OpenFile filename OpenRead in
  match r with
  | inr e => retM (inr (Wrapf "failed to open sstable file" e))
  | inl file =>
  let! st := Stat file in
  match st with
  | inr e => fail_close file (Wrapf "failed to stat sstable file" e)
  | inl size =>
  if size <? FooterSize then fail_close file ErrSSTableCorrupted else
  let! (footerBuf, err) := ReadAt file FooterSize (size - FooterSize) in
  match err with
  | Some e => fail_close file (Wrapf "failed reading sstable footer" e)
  | None =>
  let! footer := liftM (decode_footer footerBuf) in
  let! _ := liftM (make_bytes (IndexLen footer)) in
  let! (indexBuf, err) := ReadAt file (IndexLen footer) (i64 (IndexOffset footer)) in
  match err with
  | Some e => fail_close file (Wrapf "failed reading index block" e)
  | None =>
  let! idx := liftM (parse_index (S (length indexBuf)) indexBuf []) in
  match idx with
  | inr e => fail_close file e
  | inl index =>
  let! _ := liftM (make_bytes (FilterLen footer)) in
  let! (filterBuf, err) := ReadAt file (FilterLen footer) (i64 (FilterOffset footer)) in
  match err with
  | Some e => fail_close file (Wrapf "failed reading bloom filter block" e)
  | None =>
  let! _ := liftM (GoBytes.index filterBuf 0) in
  let! cFilter := liftM (bl_deserialize filterBuf) in
  match cFilter with
  | None => fail_close file (Errorf "failed deserializing C++ lumafly bloom filter")
  | Some cFilter =>
      retM (inl (mkSSTableReader (Some file) filename footer index (Some cFilter)))
  end end end end end end end.

(** The part of [BuildSSTable] after the data block: index, filter, footer,
    sync, close, reopen. *)
Definition finish_table (filename : Os.path) (cFilter : B) (index : list IndexEntry)
    (indexOffset : Z) (file : handle) : IO (SSTableReader + error) :=
  let! (nIdx, err, file) := Write file (index_bytes index) in
  match err with
  | Some e => fail_close file (Wrapf "failed writing index block" e)
  | None =>
  let indexLen := u64 nIdx in
  let filterOffset := u64 (indexOffset + indexLen) in
  let serSize := bl_size cFilter in
  let! filterBuf := liftM (make_bytes serSize) in
  let! _ := liftM (GoBytes.index filterBuf 0) in
  let! (filterBuf, writtenSer) := liftM (bl_serialize cFilter filterBuf) in
  if writtenSer =? 0
  then fail_close file (Errorf "failed to serialize C++ lumafly bloom filter") else
  let! (nFlt, err, file) := Write file filterBuf in
  match err with
  | Some e => fail_close file (Wrapf "failed writing bloom filter block" e)
  | None =>
  let filterLen := u64 nFlt in
  let! (_, err, file) :=
    Write file (footer_bytes (mkFooter indexOffset indexLen filterOffset filterLen)) in
  match err with
  | Some e => fail_close file (Wrapf "failed writing sstable footer" e)
  | None =>
  let! err := Fsync file in
  match err with
  | Some e => fail_close file (Wrapf "failed to fsync sstable file" e)
  | None =>
  let! _ := CloseFile file in
  OpenSSTable filename
  end end end end.

Definition BuildSSTable (filename : Os.path) (heap : list Node) (iter : Iterator)
    (expectedEntries : Z) (opts : SSTableOptions) : IO (SSTableReader + error) :=
  let opts := norm_options opts in
  let! r := OpenFile filename OpenTrunc in
  match r with
  | inr e => retM (inr (Wrapf "failed to create sstable file" e))
  | inl file =>
  let! cFilter := liftM (bl_create (u64 expectedEntries) (FPRate opts)) in
  match cFilter with
  | None => fail_close file (Errorf "failed to create C++ lumafly bloom filter")
  | Some cFilter =>
  let! d := write_data (S (length heap)) heap iter (SparseInterval opts) cFilter [] 0 0 file in
  match d with
  | inr e => retM (inr e)
  | inl (cFilter, index, indexOffset, file) =>
      finish_table filename cFilter index indexOffset file
  end end end.

(** The block of the index that can hold [key]: its start and end offsets. *)
Definition block_range (r : SSTableReader) (key : bytes) : go (Z * Z) :=
  let* idx := sort_Search (len (sr_index r)) (λ i,
    let* ie := GoBytes.index (sr_index r) i in Ret (bytes_gtb (ie_Key ie) key)) in
  let* startOffset :=
    (if 0 <? idx then let* ie := GoBytes.index (sr_index r) (idx - 1) in Ret (ie_Offset ie)
     else Ret 0) in
  let* endOffset :=
    (if idx <? len (sr_index r) then
       let* ie := GoBytes.index (sr_index r) idx in Ret (ie_Offset ie)
     else Ret (IndexOffset (sr_footer r))) in
  Ret (startOffset, endOffset).

(** Get: value, tombstone, found, and the error. *)
Definition SSTGet (r : SSTableReader) (key : bytes)
    : IO ((bytes * bool * bool) * option error) :=
  let! contains := liftM (match sr_bloom r with
                          | None => Ret false
                          | Some b => bl_contains b key
                          end) in
  if negb contains then retM (not_found, None) else
  if len (sr_index r) =? 0 then retM (not_found, None) else
  let! (startOffset, endOffset) := liftM (block_range r key) in
  let scanLen := i64 (u64 (endOffset - startOffset)) in
  let! _ := liftM (make_bytes scanLen) in
  let! (dataBuf, err) :=
    match sr_file r with
    | None => retM (replicate (Z.to_nat scanLen) x00, Some ErrInvalid)
    | Some file => ReadAt file scanLen (i64 startOffset)
    end in
  match err with
  | Some EOF | None => liftM (scan (S (length dataBuf)) dataBuf key)
  | Some e => retM (not_found, Some (Wrapf "failed reading data block scan range" e))
  end.

(** Close: frees the filter, then closes the file; idempotent. *)
Definition SSTClose (r : SSTableReader) : IO (option error * SSTableReader) :=
  match sr_file r with
  | Some file =>
      let! (e, _) := CloseFile file in
      retM (e, mkSSTableReader None (sr_filename r) (sr_footer r) (sr_index r) None)
  | None =>
      retM (None, mkSSTableReader None (sr_filename r) (sr_footer r) (sr_index r) None)
  end.
End sstable.

Arguments SSTableReader B : clear implicits.
