(* ===== verification/SSTableSpec.v ===== *)
(** * SSTables keep what was flushed

    A table built from a sorted iterator answers every lookup like the finite
    map of the flushed entries: the record, index and footer formats round
    trip, binary search in the sparse index finds the one block that can hold
    the key, the scan of that block decides.  A damaged record is reported,
    never returned.  Everything is proved for any filter with the laws of
    [Bloom]; the theorems about the program instantiate it with Lumafly. *)

From Stdlib Require Import Strings.Byte Strings.String.
From S2P Require Import Prelude GoBytes Float64 KV Crc32 Os Record MemTable MemTableSpec Lumafly SSTable.

Local Open Scope Z_scope.

(** ** Binary search *)

Lemma search_loop_ok fuel f a i j :
  (∀ x, i ≤ x < a → f x = Ret false) → (∀ x, a ≤ x < j → f x = Ret true) →
  i ≤ a ≤ j → j - i < Z.of_nat fuel → search_loop fuel f i j = Ret a.
Proof.
  revert i j. induction fuel as [|fuel IH]; intros i j Hlo Hhi Ha Hf; [lia|].
  cbn [search_loop]. destruct (Z.ltb_spec i j) as [Hij|Hij]; [|f_equal; lia].
  rewrite Z.shiftr_div_pow2 by lia. change (2 ^ 1) with 2.
  assert (i ≤ (i + j) / 2 < j) as Hm.
  { split; [apply Z.div_le_lower_bound; lia|apply Z.div_lt_upper_bound; lia]. }
  set (h := (i + j) / 2) in *.
  destruct (decide (h < a)) as [Hlt|Hge].
  - rewrite Hlo by lia. cbn [bind_go]. apply IH; try lia; intros; [apply Hlo|apply Hhi]; lia.
  - rewrite Hhi by lia. cbn [bind_go]. apply IH; try lia; intros; [apply Hlo|apply Hhi]; lia.
Qed.

(** [sort.Search] returns the first index at which a monotone predicate holds. *)
Lemma sort_Search_ok n f a :
  0 ≤ a ≤ n → (∀ x, 0 ≤ x < a → f x = Ret false) → (∀ x, a ≤ x < n → f x = Ret true) →
  sort_Search n f = Ret a.
Proof. intros. apply search_loop_ok; auto; lia. Qed.

(** ** The data block *)

Definition node_record (n : Node) : bytes := record (n_Key n) (n_Value n) (n_Tombstone n).
Definition data_bytes (ns : list Node) : bytes := concat (node_record <$> ns).
Definition node_fits (n : Node) : Prop := fits (n_Key n) (n_Value n).

(** What the entries of a block say about a key. *)
Definition answer (ns : list Node) (key : bytes) : bytes * bool * bool :=
  lookup_answer ((list_to_map (entry_of_node <$> ns) : kv) !! key).

Lemma data_bytes_cons n ns : data_bytes (n :: ns) = node_record n ++ data_bytes ns.
Proof. done. Qed.
Lemma data_bytes_app ns1 ns2 : data_bytes (ns1 ++ ns2) = data_bytes ns1 ++ data_bytes ns2.
Proof. unfold data_bytes. by rewrite fmap_app, concat_app. Qed.

Lemma len_node_record n : len (node_record n) = 13 + len (n_Key n) + len (n_Value n).
Proof. unfold node_record. by rewrite len_record. Qed.

Lemma data_bytes_length ns : (length ns ≤ length (data_bytes ns))%nat.
Proof.
  induction ns as [|n ns IH]; [done|]. rewrite data_bytes_cons, length_app. simpl.
  pose proof (len_node_record n). unfold len in *. lia.
Qed.

(** One step of the scan on a record that is whole, intact or not. *)
Lemma scan_raw fuel c kl vl fb body rest key :
  0 ≤ c < 2 ^ 32 → 0 ≤ kl → 0 ≤ vl → kl + vl < 2 ^ 32 - 13 → len body = kl + vl →
  scan (S fuel) (raw_record c kl vl fb body ++ rest) key =
    if c =? ChecksumIEEE (raw_payload kl vl fb body) then
      if Equal (take (Z.to_nat kl) body) key then
        Ret ((drop (Z.to_nat kl) body, bool_decide (fb = x01), true), None)
      else if bytes_gtb (take (Z.to_nat kl) body) key then Ret (not_found, None)
      else scan fuel rest key
    else Ret (not_found, Some (Wrapf "sstable record crc mismatch" ErrSSTableCorrupted)).
Proof.
  intros Hc Hk Hv Hkv Hb. cbn [scan]. unfold raw_record. rewrite <-app_assoc.
  destruct (raw_header c kl vl fb ++ body ++ rest) eqn:E; [by destruct (be_put 4 c)|].
  rewrite <-E. rewrite read_full_app by (symmetry; apply len_raw_header).
  rewrite decode_raw_header by done. cbn [bind_go]. rewrite bodyLen_raw by done.
  rewrite make_bytes_ok by (unfold maxAlloc; lia). cbn [bind_go].
  rewrite read_full_app by done. rewrite actualCRC_raw by done. cbn [bind_go expectedCRC keyLen hdr_tombstone].
  rewrite (split_body_raw kl vl) by done. done.
Qed.

Lemma scan_record fuel n rest key :
  node_fits n →
  scan (S fuel) (node_record n ++ rest) key =
    if Equal (n_Key n) key then Ret ((n_Value n, n_Tombstone n, true), None)
    else if bytes_gtb (n_Key n) key then Ret (not_found, None) else scan fuel rest key.
Proof.
  intros (Hk & Hv & Hkv)%len_fits. unfold node_record. rewrite record_raw.
  rewrite scan_raw by (done || apply ChecksumIEEE_word || by rewrite len_app).
  by rewrite <-payload_raw, Z.eqb_refl, flag_byte_spec, len_to_nat, take_app_length, drop_app_length.
Qed.

Lemma answer_cons n ns key :
  answer (n :: ns) key =
    if decide (n_Key n = key) then (n_Value n, n_Tombstone n, true) else answer ns key.
Proof.
  unfold answer. cbn. rewrite lookup_insert.
  repeat case_decide; done || congruence.
Qed.

(** Entries whose keys differ do not matter. *)
Lemma answer_skip ns key : Forall (λ n, n_Key n ≠ key) ns → answer ns key = not_found.
Proof. induction 1 as [|n ns Hn _ IH]; [done|]. by rewrite answer_cons, decide_False. Qed.

Lemma answer_app ns1 ns2 key :
  Forall (λ n, n_Key n ≠ key) ns1 → answer (ns1 ++ ns2) key = answer ns2 key.
Proof. induction 1 as [|n ns Hn _ IH]; [done|]. cbn [app]. by rewrite answer_cons, decide_False. Qed.

Lemma answer_app_r ns1 ns2 key :
  Forall (λ n, n_Key n ≠ key) ns2 → answer (ns1 ++ ns2) key = answer ns1 key.
Proof.
  intros H2. induction ns1 as [|n ns1 IH]; [by apply answer_skip|].
  cbn [app]. rewrite !answer_cons. by rewrite IH.
Qed.

Definition sorted (ns : list Node) : Prop := StronglySorted bytes_lt (n_Key <$> ns).

Lemma bytes_lt_ne a b : bytes_lt a b → a ≠ b.
Proof. intros H ->. by destruct (irreflexivity bytes_lt b H). Qed.

Lemma sorted_cons_inv n ns :
  sorted (n :: ns) → sorted ns ∧ Forall (λ m, bytes_lt (n_Key n) (n_Key m)) ns.
Proof. unfold sorted. rewrite fmap_cons. intros [Hs Hn]%StronglySorted_inv. by rewrite Forall_fmap in Hn. Qed.

(** The scan decides membership in a sorted block. *)
Lemma scan_sorted ns fuel key :
  sorted ns → Forall node_fits ns → (length ns < fuel)%nat →
  scan fuel (data_bytes ns) key = Ret (answer ns key, None).
Proof.
  revert fuel. induction ns as [|n ns IH]; intros [|fuel] Hs Hf Hl; try (simpl in Hl; lia); [done|].
  apply sorted_cons_inv in Hs as [Hs Hn]. apply Forall_cons in Hf as [Hfn Hf].
  rewrite data_bytes_cons, scan_record, answer_cons, Equal_spec by done.
  case_decide as E; [by rewrite bool_decide_true|rewrite bool_decide_false by done].
  rewrite bytes_gtb_ltb. destruct (bytes_ltb key (n_Key n)) eqn:Eg.
  - apply bytes_ltb_lt in Eg. rewrite answer_skip; [done|].
    eapply Forall_impl; [exact Hn|]. intros m Hm Em. cbv beta in Hm. rewrite Em in Hm.
    by destruct (irreflexivity bytes_lt key (transitivity Eg Hm)).
  - apply IH; [done|done|]. simpl in Hl. lia.
Qed.

(** ** The index and the footer *)

Definition ie_ok (ie : IndexEntry) : Prop :=
  len (ie_Key ie) < 2 ^ 32 ∧ 0 ≤ ie_Offset ie < 2 ^ 64.

Lemma len_index_entry ie : len (index_entry_bytes ie) = 12 + len (ie_Key ie).
Proof. unfold index_entry_bytes. len_lia. Qed.

Lemma index_bytes_length idx : (length idx ≤ length (index_bytes idx))%nat.
Proof.
  induction idx as [|ie idx IH]; [done|].
  change (index_bytes (ie :: idx)) with (index_entry_bytes ie ++ index_bytes idx).
  rewrite length_app. simpl length at 1. pose proof (len_index_entry ie).
  pose proof (len_nonneg (ie_Key ie)). unfold len in *. lia.
Qed.

(** Parsing an index block gives the entries that were written. *)
Lemma parse_index_ok idx fuel acc :
  Forall ie_ok idx → (length idx < fuel)%nat →
  parse_index fuel (index_bytes idx) acc = Ret (inl (acc ++ idx)).
Proof.
  revert fuel acc. induction idx as [|ie idx IH]; intros [|fuel] acc Hok Hl;
    try (simpl in Hl; lia); [by rewrite app_nil_r|].
  apply Forall_cons in Hok as [[Hk Ho] Hok]. pose proof (len_nonneg (ie_Key ie)).
  change (index_bytes (ie :: idx)) with (index_entry_bytes ie ++ index_bytes idx).
  unfold index_entry_bytes at 1. rewrite u32_small by lia. rewrite <-!app_assoc.
  cbn [parse_index].
  destruct (be_put 4 (len (ie_Key ie)) ++ _) eqn:E.
  { by apply (f_equal length) in E; rewrite length_app, length_be_put in E. }
  rewrite <-E.
  rewrite read_full_app by (unfold len; by rewrite length_be_put).
  rewrite be_get_put_small by (change (256 ^ Z.of_nat 4) with (2 ^ 32); lia).
  rewrite make_bytes_ok by (unfold maxAlloc; lia). cbn [bind_go].
  rewrite read_full_app by done.
  rewrite read_full_app by (unfold len; by rewrite length_be_put).
  rewrite be_get_put_small by (change (256 ^ Z.of_nat 8) with (2 ^ 64); lia).
  rewrite IH by (done || (simpl in Hl; lia)). rewrite <-app_assoc. by destruct ie.
Qed.

Definition footer_ok (ft : Footer) : Prop :=
  0 ≤ IndexOffset ft < 2 ^ 64 ∧ 0 ≤ IndexLen ft < 2 ^ 64
  ∧ 0 ≤ FilterOffset ft < 2 ^ 64 ∧ 0 ≤ FilterLen ft < 2 ^ 64.

Lemma len_footer ft : len (footer_bytes ft) = FooterSize.
Proof. unfold footer_bytes, FooterSize. len_lia. Qed.

Lemma decode_footer_ok ft : footer_ok ft → decode_footer (footer_bytes ft) = Ret ft.
Proof.
  intros (H1 & H2 & H3 & H4). unfold decode_footer, footer_bytes.
  set (a := be_put 8 (IndexOffset ft)). set (b := be_put 8 (IndexLen ft)).
  set (c := be_put 8 (FilterOffset ft)). set (d := be_put 8 (FilterLen ft)).
  rewrite (Uint_at 8 _ [] a (b ++ c ++ d) 0 8) by (buf_eq || done). rewrite go_bind_ret.
  rewrite (Uint_at 8 _ a b (c ++ d) 8 16) by (buf_eq || done). rewrite go_bind_ret.
  rewrite (Uint_at 8 _ (a ++ b) c d 16 24) by (buf_eq || done). rewrite go_bind_ret.
  rewrite (Uint_at 8 _ (a ++ b ++ c) d [] 24 32) by (rewrite ?app_nil_r; buf_eq || done).
  rewrite go_bind_ret. unfold a, b, c, d.
  rewrite !be_get_put_small by (change (256 ^ Z.of_nat 8) with (2 ^ 64); lia).
  by destruct ft.
Qed.

(** ** The sparse index as blocks *)

(** What the loop of [BuildSSTable] appends to the index. *)
Fixpoint sparse (interval cnt off : Z) (ns : list Node) : list IndexEntry :=
  match ns with
  | [] => []
  | n :: ns =>
      let rest := sparse interval (cnt + 1) (off + len (node_record n)) ns in
      if Z.rem cnt interval =? 0 then mkIndexEntry (n_Key n) off :: rest else rest
  end.

(** The key at the head of a block. *)
Definition head_key (b : list Node) : bytes := default [] (n_Key <$> head b).

(** The index of a sequence of blocks laid out from [off]. *)
Fixpoint block_index (off : Z) (bs : list (list Node)) : list IndexEntry :=
  match bs with
  | [] => []
  | b :: bs => mkIndexEntry (head_key b) off :: block_index (off + len (data_bytes b)) bs
  end.

(** The sparse index cuts the entries into non-empty blocks. *)
Lemma sparse_blocks interval cnt off ns :
  ∃ pre bs, ns = pre ++ concat bs ∧ Forall (.≠ []) bs
    ∧ sparse interval cnt off ns = block_index (off + len (data_bytes pre)) bs
    ∧ (Z.rem cnt interval = 0 → pre = []).
Proof.
  revert cnt off. induction ns as [|n ns IH]; intros cnt off.
  { exists [], []. done. }
  destruct (IH (cnt + 1) (off + len (node_record n))) as (pre & bs & -> & Hne & Es & _).
  cbn [sparse]. destruct (Z.eqb_spec (Z.rem cnt interval) 0) as [Ez|Ez].
  - exists [], ((n :: pre) :: bs). split_and!; [done|by constructor| |done].
    cbn [block_index]. change (len (data_bytes [])) with 0.
    by rewrite Es, data_bytes_cons, len_app, !Z.add_0_r, Z.add_assoc.
  - exists (n :: pre), bs. split_and!; [done|done| |done].
    rewrite Es, data_bytes_cons, len_app. f_equal. lia.
Qed.

Lemma sparse_blocks_0 interval ns :
  ∃ bs, ns = concat bs ∧ Forall (.≠ []) bs ∧ sparse interval 0 0 ns = block_index 0 bs.
Proof.
  destruct (sparse_blocks interval 0 0 ns) as (pre & bs & -> & Hne & -> & Hpre).
  rewrite Hpre by by destruct interval.
  exists bs. done.
Qed.

(** ** Locating a block *)

Section locate.
Context (key : bytes).

(** The head of a block is not above the key. *)
Definition starts_le (b : list Node) : Prop := ¬ bytes_lt key (head_key b).
#[local] Instance starts_le_dec b : Decision (starts_le b).
Proof. unfold starts_le. apply _. Defined.

Lemma block_index_length off bs : length (block_index off bs) = length bs.
Proof. revert off. induction bs as [|b bs IH]; intros off; simpl; auto. Qed.

Lemma block_index_lookup off bs1 b bs2 :
  block_index off (bs1 ++ b :: bs2) !! length bs1 =
    Some (mkIndexEntry (head_key b) (off + len (data_bytes (concat bs1)))).
Proof.
  revert off. induction bs1 as [|b1 bs1 IH]; intros off; simpl.
  - change (data_bytes []) with ([] : bytes). by rewrite len_nil, Z.add_0_r.
  - rewrite IH, data_bytes_app, len_app. do 2 f_equal. lia.
Qed.

Lemma block_index_app off bs1 bs2 :
  block_index off (bs1 ++ bs2) =
    block_index off bs1 ++ block_index (off + len (data_bytes (concat bs1))) bs2.
Proof.
  revert off. induction bs1 as [|b1 bs1 IH]; intros off; simpl.
  - change (data_bytes []) with ([] : bytes). by rewrite len_nil, Z.add_0_r.
  - rewrite IH, data_bytes_app, len_app. do 3 f_equal. lia.
Qed.

Lemma block_index_heads off bs : ie_Key <$> block_index off bs = head_key <$> bs.
Proof. revert off. induction bs as [|b bs IH]; intros off; simpl; [done|]. by rewrite IH. Qed.

(** The predicate of the binary search at a position of the index. *)
Lemma index_pred bs off x b :
  0 ≤ x → bs !! Z.to_nat x = Some b →
  (let* ie := GoBytes.index (block_index off bs) x in Ret (bytes_gtb (ie_Key ie) key))
    = Ret (bytes_ltb key (head_key b)).
Proof.
  intros Hx Hb. pose proof (block_index_heads off bs) as Hh.
  apply (f_equal (.!! Z.to_nat x)) in Hh. rewrite !list_lookup_fmap, Hb in Hh.
  destruct (block_index off bs !! Z.to_nat x) as [ie|] eqn:E; [|done].
  injection Hh as Hh. unfold GoBytes.index. rewrite guard_go_true by lia. rewrite E.
  cbn. by rewrite bytes_gtb_ltb, Hh.
Qed.

(** Sorted blocks split at the key: those that start at or below it, then those
    that start above. *)
Lemma split_blocks bs :
  StronglySorted bytes_lt (head_key <$> bs) →
  ∃ bs1 bs2, bs = bs1 ++ bs2 ∧ Forall starts_le bs1
    ∧ Forall (λ b, bytes_lt key (head_key b)) bs2.
Proof.
  induction bs as [|b bs IH]; [by exists [], []|].
  rewrite fmap_cons. intros [Hs Hb]%StronglySorted_inv. rewrite Forall_fmap in Hb.
  destruct (decide (starts_le b)) as [Hle|Hgt].
  - destruct (IH Hs) as (bs1 & bs2 & -> & H1 & H2). exists (b :: bs1), bs2. auto.
  - exists [], (b :: bs). split_and!; [done..|].
    apply dec_stable in Hgt. constructor; [done|].
    eapply Forall_impl; [exact Hb|]. intros c Hc. cbv beta in Hc. by etransitivity.
Qed.

Lemma search_blocks bs1 bs2 off :
  Forall starts_le bs1 → Forall (λ b, bytes_lt key (head_key b)) bs2 →
  sort_Search (len (block_index off (bs1 ++ bs2))) (λ i,
    let* ie := GoBytes.index (block_index off (bs1 ++ bs2)) i in
    Ret (bytes_gtb (ie_Key ie) key)) = Ret (len bs1).
Proof.
  intros H1 H2. rewrite Forall_lookup in H1, H2. unfold len at 1.
  rewrite block_index_length, length_app. apply sort_Search_ok.
  - unfold len. lia.
  - intros x Hx. unfold len in Hx. destruct (lookup_lt_is_Some_2 bs1 (Z.to_nat x)) as [b Hb]; [lia|].
    rewrite (index_pred _ _ _ b) by (lia || by apply lookup_app_l_Some). f_equal.
    apply not_true_is_false. intros Hlt%bytes_ltb_lt. by apply (H1 _ _ Hb).
  - intros x Hx. unfold len in Hx.
    destruct (lookup_lt_is_Some_2 bs2 (Z.to_nat x - length bs1)) as [b Hb]; [lia|].
    rewrite (index_pred _ _ _ b) by (lia || (rewrite lookup_app_r by lia; done)). f_equal.
    apply bytes_ltb_lt. by apply (H2 _ _ Hb).
Qed.
End locate.

Lemma sorted_app a b :
  sorted (a ++ b) →
  sorted a ∧ sorted b ∧ ∀ x y, x ∈ a → y ∈ b → bytes_lt (n_Key x) (n_Key y).
Proof.
  induction a as [|n a IH]; cbn [app]; intros Hs; [split_and!; [constructor|done|set_solver]|].
  apply sorted_cons_inv in Hs as [Hs Hn]. destruct (IH Hs) as (Ha & Hb & Hab).
  rewrite Forall_forall in Hn. split_and!; [|done|].
  - unfold sorted. rewrite fmap_cons. constructor; [done|]. rewrite Forall_fmap.
    apply Forall_forall. intros x Hx. apply Hn. set_solver.
  - intros x y [->|Hx]%elem_of_cons Hy; [apply Hn; set_solver|auto].
Qed.

Lemma head_key_in b : b ≠ [] → ∃ n, n ∈ b ∧ head_key b = n_Key n.
Proof. destruct b as [|n b]; [done|]. intros _. exists n. split; [set_solver|done]. Qed.

Lemma head_key_le b n : sorted b → n ∈ b → ¬ bytes_lt (n_Key n) (head_key b).
Proof.
  destruct b as [|m b]; [set_solver|]. intros [_ Hm]%sorted_cons_inv.
  rewrite Forall_forall in Hm. unfold head_key. cbn.
  intros [->|Hn]%elem_of_cons Hlt.
  - by destruct (irreflexivity bytes_lt _ Hlt).
  - by destruct (irreflexivity bytes_lt _ (transitivity (Hm n Hn) Hlt)).
Qed.

Lemma sorted_heads bs :
  sorted (concat bs) → Forall (.≠ []) bs → StronglySorted bytes_lt (head_key <$> bs).
Proof.
  induction bs as [|b bs IH]; cbn [concat]; intros Hs Hne; [constructor|].
  apply Forall_cons in Hne as [Hb Hne]. apply sorted_app in Hs as (_ & Hs & Hlt).
  rewrite fmap_cons. constructor; [auto|]. rewrite Forall_fmap. apply Forall_forall.
  intros c Hc. rewrite Forall_forall in Hne.
  destruct (head_key_in b Hb) as (n & Hn & E1). destruct (head_key_in c (Hne c Hc)) as (m & Hm & E2).
  cbv [compose]. rewrite E1, E2. apply Hlt; [done|]. apply list_elem_of_In, in_concat.
  exists c. by rewrite <-!list_elem_of_In.
Qed.

(** Entries of blocks that start above the key are not the key. *)
Lemma above_ne key bs :
  sorted (concat bs) → Forall (λ b, bytes_lt key (head_key b)) bs →
  Forall (λ n, n_Key n ≠ key) (concat bs).
Proof.
  induction bs as [|b bs IH]; cbn [concat]; intros Hs Hk; [constructor|].
  apply Forall_cons in Hk as [Hb Hk]. apply sorted_app in Hs as (Hsb & Hs & _).
  apply Forall_app. split; [|auto]. apply Forall_forall. intros n Hn E.
  apply (head_key_le b n Hsb Hn). by rewrite E.
Qed.

Lemma below_ne_key key pre b post :
  sorted (pre ++ b ++ post) → b ≠ [] → starts_le key b →
  Forall (λ n, n_Key n ≠ key) pre.
Proof.
  intros (_ & _ & Hlt)%sorted_app Hb Hle. destruct (head_key_in b Hb) as (m & Hm & E).
  apply Forall_forall. intros n Hn <-. apply Hle. rewrite E. apply Hlt; set_solver.
Qed.

(** The search of [Get] ends on the one block that can hold the key. *)
Lemma block_range_ok {B} (r : SSTableReader B) bs key :
  sr_index r = block_index 0 bs →
  IndexOffset (sr_footer r) = len (data_bytes (concat bs)) →
  sorted (concat bs) → Forall (.≠ []) bs → bs ≠ [] →
  ∃ pre blk post, concat bs = pre ++ blk ++ post
    ∧ block_range r key = Ret (len (data_bytes pre), len (data_bytes pre) + len (data_bytes blk))
    ∧ Forall (λ n, n_Key n ≠ key) pre ∧ Forall (λ n, n_Key n ≠ key) post.
Proof.
  intros Hidx Hoff Hs Hne Hnil. unfold block_range. rewrite Hidx, Hoff.
  destruct (split_blocks key bs (sorted_heads _ Hs Hne)) as (bs1 & bs2 & -> & H1 & H2).
  rewrite (search_blocks key bs1 bs2 0 H1 H2). cbn [bind_go].
  assert (len (block_index 0 (bs1 ++ bs2)) = Z.of_nat (length bs1 + length bs2)) as ->
    by (unfold len; by rewrite block_index_length, length_app).
  rewrite concat_app in *.
  destruct bs1 as [|b bs1 _] using rev_ind.
  - destruct bs2 as [|b bs2]; [done|]. exists [], [], (concat (b :: bs2)). split_and!; [done| |done|].
    + done.
    + apply above_ne; [|done]. by apply sorted_app in Hs as (_ & ? & _).
  - apply Forall_app in H1 as [_ [Hb _]%Forall_cons].
    apply Forall_app in Hne as [[_ [Hnb _]%Forall_cons]%Forall_app _].
    rewrite concat_app in *. cbn [concat] in *. rewrite app_nil_r in *.
    exists (concat bs1), b, (concat bs2). rewrite <-app_assoc in *.
    assert (len (bs1 ++ [b]) = Z.of_nat (length bs1) + 1) as Hl
      by (rewrite len_app; unfold len; simpl; lia).
    rewrite Hl. replace (0 <? Z.of_nat (length bs1) + 1) with true by lia.
    split_and!; [done| |by eapply below_ne_key|].
    + unfold GoBytes.index at 1. rewrite guard_go_true by lia.
      replace (Z.to_nat (Z.of_nat (length bs1) + 1 - 1)) with (length bs1) by lia.
      rewrite <-?(app_assoc bs1 [b] bs2). cbn [app]. rewrite block_index_lookup. cbn [opt_go bind_go ie_Offset].
      destruct bs2 as [|b2 bs2].
      * rewrite (proj2 (Z.ltb_ge _ _)) by (rewrite length_app; simpl; lia). cbn [bind_go concat].
        by rewrite app_nil_r, data_bytes_app, len_app.
      * rewrite (proj2 (Z.ltb_lt _ _)) by (rewrite length_app; simpl; lia).
        unfold GoBytes.index. rewrite guard_go_true by lia.
        replace (Z.to_nat (Z.of_nat (length bs1) + 1)) with (length (bs1 ++ [b]))
          by (rewrite length_app; simpl; lia).
        change (bs1 ++ b :: b2 :: bs2) with (bs1 ++ [b] ++ b2 :: bs2).
        rewrite app_assoc, block_index_lookup. cbn [opt_go bind_go ie_Offset].
        rewrite concat_app, data_bytes_app, len_app. cbn [concat]. by rewrite app_nil_r.
    + apply above_ne; [|done]. apply sorted_app in Hs as (_ & Hs & _).
      by apply sorted_app in Hs as (_ & Hs & _).
Qed.

(** ** Writing and reading the file *)

Section io.
Context {B : Type} `{Bloom B}.

(** [Write] at the end of the file, keeping track of the world abstractly. *)
Lemma append_ok w h f data :
  h_open h = true → h_append h = false → lookup_file w (h_path h) = Some f →
  h_pos h = length (f_data f) → w_faults w = [] →
  ∃ f' w', Write h data w = Ret ((len data, None, set_pos h (length (f_data f'))), w')
    ∧ lookup_file w' (h_path h) = Some f' ∧ f_data f' = f_data f ++ data
    ∧ touches (h_path h) w w'.
Proof.
  intros Ho Ha Hf Hp Hw. rewrite (Write_end_ok w h f Ho Hf Hw data Ha Hp).
  rewrite <-length_app. eexists (mkFile _ _), _. split_and!; [reflexivity| |done|apply touches_insert].
  by eapply lookup_insert_file.
Qed.

Lemma write_data_ok heap iv ls ns :
  Forall2 (λ l n, heap !! l = Some n) ls ns →
  ∀ x fuel (b : B) ks idx off cnt h w f,
  MemTableSpec.path (next heap 0) x ls → (length ls < fuel)%nat → bl_rep b ks →
  Forall node_fits ns → 0 ≤ off → off + len (data_bytes ns) < 2 ^ 64 →
  h_open h = true → h_append h = false → lookup_file w (h_path h) = Some f →
  h_pos h = length (f_data f) → w_faults w = [] →
  ∃ (b' : B) f' w', write_data fuel heap (mkIterator (Some x)) iv b idx off cnt h w =
      Ret (inl (b', idx ++ sparse iv cnt off ns, off + len (data_bytes ns),
                set_pos h (length (f_data f'))), w')
    ∧ lookup_file w' (h_path h) = Some f' ∧ f_data f' = f_data f ++ data_bytes ns
    ∧ touches (h_path h) w w' ∧ bl_rep b' (reverse (n_Key <$> ns) ++ ks).
Proof.
  induction 1 as [|l n ls ns Hn Hns IH];
    intros x [|fuel] b ks idx off cnt h w f Hp Hl Hb Hfit Hoff Hbound Ho Ha Hf Hpos Hw;
    try (simpl in Hl; lia); cbn [write_data].
  - erewrite bindM_ret.
    2:{ apply liftM_ret. unfold HasNext. cbn [it_curr].
        rewrite forward_next, (path_hd _ _ _ Hp). reflexivity. }
    exists b, f, w. cbn [sparse]. rewrite app_nil_r, Z.add_0_r, <-Hpos.
    split_and!; [by destruct h|done| |done|done]. by rewrite app_nil_r.
  - apply Forall_cons in Hfit as [Hfn Hfit]. rewrite data_bytes_cons, len_app in *.
    pose proof (len_nonneg (data_bytes ns)). pose proof (len_nonneg (node_record n)).
    destruct (bl_add_ok b ks (n_Key n) Hb) as (b1 & Eb & Hb1).
    destruct (append_ok w h f (node_record n) Ho Ha Hf Hpos Hw) as (f1 & w1 & Ew & Hf1 & Hd1 & Ht1).
    assert (HasNext heap (mkIterator (Some x)) = Ret true) as Emore.
    { unfold HasNext. cbn [it_curr]. by rewrite forward_next, (path_hd _ _ _ Hp). }
    erewrite bindM_ret by by apply liftM_ret, Emore. cbn beta iota.
    erewrite bindM_ret.
    2:{ apply liftM_ret. unfold Next. rewrite Emore. cbn [bind_go it_curr opt_go].
        rewrite forward_next, (path_hd _ _ _ Hp). cbn [opt_go bind_go head]. reflexivity. }
    cbn beta iota. erewrite bindM_ret by by apply liftM_ret.
    erewrite bindM_ret by (apply liftM_ret; unfold node; by rewrite Hn).
    erewrite bindM_ret by by apply liftM_ret.
    erewrite bindM_ret by by apply liftM_ret, encode_sst_record_record.
    erewrite bindM_ret by exact Ew. cbn beta iota.
    assert (u64 (off + len (node_record n)) = off + len (node_record n)) as Eu
      by (apply Z.mod_small; lia).
    rewrite Eu.
    edestruct (IH l fuel b1 (n_Key n :: ks)
      (if Z.rem cnt iv =? 0 then idx ++ [mkIndexEntry (n_Key n) off] else idx)
      (off + len (node_record n)) (cnt + 1) (set_pos h (length (f_data f1))) w1 f1)
      as (b' & f' & w' & Er & Hf' & Hd' & Ht' & Hb'); try done; try lia.
    + apply Hp.
    + simpl in Hl. lia.
    + destruct Ht1 as [-> _]. done.
    + exists b', f', w'. rewrite Er. split_and!; [|done| | |].
      * cbn [sparse]. rewrite Z.add_assoc. destruct (Z.rem cnt iv =? 0); [|done].
        by rewrite <-app_assoc.
      * by rewrite Hd', Hd1, app_assoc.
      * by etransitivity.
      * by rewrite fmap_cons, reverse_cons, <-app_assoc.
Qed.

(** The file of a table: data, index, filter image, footer. *)
Definition table_footer (data idx img : bytes) : Footer :=
  mkFooter (len data) (len idx) (len data + len idx) (len img).
Definition table_image (data idx img : bytes) : bytes :=
  data ++ idx ++ img ++ footer_bytes (table_footer data idx img).

Definition sizes_ok (data idx img : bytes) : Prop :=
  len data ≤ maxAlloc ∧ len idx ≤ maxAlloc ∧ 0 < len img ≤ maxAlloc.

Lemma table_footer_ok data idx img :
  sizes_ok data idx img → footer_ok (table_footer data idx img).
Proof.
  intros (H1 & H2 & H3). unfold footer_ok, table_footer, maxAlloc in *. cbn.
  pose proof (len_nonneg data). pose proof (len_nonneg idx). lia.
Qed.

Lemma index_head (l : bytes) : 0 < len l → ∃ x, GoBytes.index l 0 = Ret x.
Proof. destruct l as [|x l]; [done|]. by exists x. Qed.

Lemma OpenSSTable_ok w p f data idx img (b : B) :
  w_faults w = [] → lookup_file w p = Some f →
  f_data f = table_image data (index_bytes idx) img → Forall ie_ok idx →
  sizes_ok data (index_bytes idx) img → bl_deserialize img = Ret (Some b) →
  OpenSSTable p w =
    Ret (inl (mkSSTableReader (Some (mkHandle p 0 false true)) p
                (table_footer data (index_bytes idx) img) idx (Some b)), w).
Proof.
  intros Hw Hf Hd Hidx Hsz Hb. pose proof (table_footer_ok _ _ _ Hsz) as Hft.
  pose proof Hsz as (S1 & S2 & S3).
  pose proof (len_nonneg data) as N1. pose proof (len_nonneg (index_bytes idx)) as N2.
  set (ib := index_bytes idx) in *. set (ft := table_footer data ib img) in *.
  set (h := mkHandle p 0 false true).
  assert (len (f_data f) = len data + len ib + len img + FooterSize) as Hlen.
  { rewrite Hd. unfold table_image. rewrite !len_app, len_footer. lia. }
  unfold maxAlloc, table_image in *. fold ft in Hd. unfold OpenSSTable.
  erewrite bindM_ret by by eapply OpenFile_existing. cbn beta iota. change (is_append OpenRead) with false.
  fold h. erewrite bindM_ret by by apply (Stat_ok w h f). cbn beta iota.
  rewrite (proj2 (Z.ltb_ge _ _)) by (unfold FooterSize in *; lia).
  erewrite bindM_ret.
  2:{ apply (ReadAt_at w h f eq_refl Hf Hw (data ++ ib ++ img) (footer_bytes ft) []).
      - by rewrite Hd, app_nil_r, <-!app_assoc.
      - by rewrite len_footer.
      - rewrite !len_app. lia. }
  cbn beta iota. erewrite bindM_ret by by apply liftM_ret, decode_footer_ok.
  change (IndexLen ft) with (len ib). change (IndexOffset ft) with (len data).
  change (FilterLen ft) with (len img). change (FilterOffset ft) with (len data + len ib).
  erewrite bindM_ret by (apply liftM_ret, make_bytes_ok; unfold maxAlloc; lia).
  erewrite bindM_ret.
  2:{ apply (ReadAt_at w h f eq_refl Hf Hw data ib (img ++ footer_bytes ft)); [done..|].
      apply i64_small. lia. }
  cbn beta iota.
  erewrite bindM_ret.
  2:{ apply liftM_ret, parse_index_ok; [done|]. pose proof (index_bytes_length idx). unfold ib. lia. }
  cbn beta iota. cbn [app].
  erewrite bindM_ret by (apply liftM_ret, make_bytes_ok; unfold maxAlloc; lia).
  erewrite bindM_ret.
  2:{ apply (ReadAt_at w h f eq_refl Hf Hw (data ++ ib) img (footer_bytes ft)).
      - by rewrite Hd, <-!app_assoc.
      - done.
      - rewrite i64_small, len_app by lia. done. }
  cbn beta iota. destruct (index_head img) as [x Hx]; [lia|].
  erewrite bindM_ret by by apply liftM_ret.
  erewrite bindM_ret by by apply liftM_ret. done.
Qed.

(** The tail of [BuildSSTable]: the file is complete and synced, and the reader
    is the one its bytes describe. *)
Lemma finish_table_ok w p f (b : B) ks idx :
  w_faults w = [] → lookup_file w p = Some f → Forall ie_ok idx →
  len (f_data f) ≤ maxAlloc → len (index_bytes idx) ≤ maxAlloc → bl_rep b ks →
  ∃ img f' w',
    finish_table p b idx (len (f_data f)) (mkHandle p (length (f_data f)) false true) w =
      Ret (inl (mkSSTableReader (Some (mkHandle p 0 false true)) p
                  (table_footer (f_data f) (index_bytes idx) img) idx (Some b)), w')
    ∧ lookup_file w' p = Some f'
    ∧ f_data f' = table_image (f_data f) (index_bytes idx) img
    ∧ f_synced f' = length (f_data f') ∧ touches p w w'
    ∧ bl_deserialize img = Ret (Some b) ∧ sizes_ok (f_data f) (index_bytes idx) img.
Proof.
  intros Hw Hf Hidx Hsd Hsi Hb.
  destruct (bl_serialize_ok b ks Hb) as (img & Eser & Himg & Edes).
  pose proof (bl_size_ok b ks Hb) as Hsize.
  pose proof (len_nonneg (f_data f)) as N1. pose proof (len_nonneg (index_bytes idx)) as N2.
  assert (sizes_ok (f_data f) (index_bytes idx) img) as Hsz
    by (unfold sizes_ok; rewrite Himg; done).
  set (h := mkHandle p (length (f_data f)) false true).
  destruct (append_ok w h f (index_bytes idx)) as (f1 & w1 & E1 & Hf1 & Hd1 & Ht1); [done..|].
  assert (w_faults w1 = []) as Hw1 by (destruct Ht1 as [-> _]; done).
  destruct (append_ok w1 (set_pos h (length (f_data f1))) f1 img)
    as (f2 & w2 & E2 & Hf2 & Hd2 & Ht2); [done..|].
  assert (w_faults w2 = []) as Hw2 by (destruct Ht2 as [-> _]; done).
  destruct (append_ok w2 (set_pos h (length (f_data f2))) f2
    (footer_bytes (table_footer (f_data f) (index_bytes idx) img)))
    as (f3 & w3 & E3 & Hf3 & Hd3 & Ht3); [done..|].
  assert (w_faults w3 = []) as Hw3 by (destruct Ht3 as [-> _]; done).
  cbn [h set_pos h_path h_append h_open] in *.
  set (h3 := mkHandle p (length (f_data f3)) false true).
  pose proof (Fsync_ok w3 h3 f3 eq_refl Hf3 Hw3) as E4. cbn [h3 h_path] in E4.
  set (f4 := mkFile (f_data f3) (length (f_data f3))) in E4.
  assert (f_data f4 = table_image (f_data f) (index_bytes idx) img) as Hd4.
  { cbn. rewrite Hd3, Hd2, Hd1. unfold table_image. by rewrite <-!app_assoc. }
  assert (lookup_file (insert_file w3 p f4) p = Some f4) as Hf4 by by eapply lookup_insert_file.
  exists img, f4, (insert_file w3 p f4).
  split_and!; [|done..| |done|done]. 2:{ repeat (etransitivity; [eassumption|]). apply touches_insert. }
  unfold finish_table. erewrite bindM_ret by exact E1. cbn beta iota.
  unfold maxAlloc in *.
  assert (∀ z, 0 ≤ z < 2 ^ 64 → u64 z = z) as Hu by (intros; by apply Z.mod_small).
  rewrite (Hu (len (index_bytes idx))), (Hu (len (f_data f) + _)) by lia.
  erewrite bindM_ret by (apply liftM_ret, make_bytes_ok; unfold maxAlloc; lia).
  destruct (index_head (replicate (Z.to_nat (bl_size b)) x00)) as [x Hx].
  { unfold len. rewrite length_replicate. lia. }
  erewrite bindM_ret by by apply liftM_ret.
  erewrite bindM_ret by by apply liftM_ret. cbn beta iota.
  rewrite (proj2 (Z.eqb_neq _ _)) by lia.
  erewrite bindM_ret by exact E2. cbn beta iota. rewrite (Hu (len img)) by lia.
  erewrite bindM_ret by exact E3. cbn beta iota.
  erewrite bindM_ret by exact E4. cbn beta iota.
  erewrite bindM_ret by by apply CloseFile_ok.
  by apply (OpenSSTable_ok _ _ f4).
Qed.

(** ** Reading a table *)

(** What reader [r] holds in memory for the blocks [bs] of a well-formed table. *)
Record describes (r : SSTableReader B) (bs : list (list Node)) : Prop := {
  sv_nonempty : Forall (.≠ []) bs;
  sv_index : sr_index r = block_index 0 bs;
  sv_offset : IndexOffset (sr_footer r) = len (data_bytes (concat bs));
  sv_sorted : sorted (concat bs);
  sv_fits : Forall node_fits (concat bs);
  sv_size : len (data_bytes (concat bs)) ≤ maxAlloc;
  sv_filter : ∃ b ks, sr_bloom r = Some b ∧ bl_rep b ks
    ∧ Forall (λ n, n_Key n ∈ ks) (concat bs) }.

(** The data block of its file holds the byte strings [ss] one after the other. *)
Definition stores (w : world) (r : SSTableReader B) (ss : list bytes) : Prop :=
  ∃ h f rest, sr_file r = Some h ∧ h_open h = true
    ∧ lookup_file w (h_path h) = Some f ∧ f_data f = concat ss ++ rest.

(** Reader [r] serves, in world [w], the entries [ns]. *)
Definition serves (w : world) (r : SSTableReader B) (ns : list Node) : Prop :=
  ∃ bs, ns = concat bs ∧ describes r bs ∧ stores w r (node_record <$> ns).

Definition same_len (n : Node) (s : bytes) : Prop := len s = len (node_record n).

Lemma same_len_concat ns ss : Forall2 same_len ns ss → len (concat ss) = len (data_bytes ns).
Proof.
  induction 1 as [|n s ns ss Hs _ IH]; [done|]. cbn [concat].
  by rewrite data_bytes_cons, !len_app, Hs, IH.
Qed.

(** Reading the block the index points to, whatever the file holds there. *)
Lemma read_block_ok w h f pre blk post sp sb sq rest :
  h_open h = true → lookup_file w (h_path h) = Some f → w_faults w = [] →
  f_data f = concat (sp ++ sb ++ sq) ++ rest →
  Forall2 same_len pre sp → Forall2 same_len blk sb →
  len (data_bytes (pre ++ blk ++ post)) ≤ maxAlloc →
  let a := len (data_bytes pre) in
  let n := i64 (u64 (a + len (data_bytes blk) - a)) in
  make_bytes n = Ret (replicate (Z.to_nat n) x00)
  ∧ ReadAt h n (i64 a) w = Ret ((concat sb, None), w).
Proof.
  intros Ho Hf Hw Hd Hsp Hsb Hsz a n. rewrite !data_bytes_app, !len_app in Hsz.
  pose proof (len_nonneg (data_bytes pre)) as N1. pose proof (len_nonneg (data_bytes blk)) as N2.
  pose proof (len_nonneg (data_bytes post)) as N3. unfold maxAlloc in Hsz.
  assert (n = len (data_bytes blk)) as ->.
  { unfold n. rewrite Z.add_simpl_l. unfold u64. rewrite Z.mod_small by lia. apply i64_small. lia. }
  split.
  - apply make_bytes_ok; unfold maxAlloc; lia.
  - apply (ReadAt_at w h f Ho Hf Hw (concat sp) _ (concat sq ++ rest)).
    + by rewrite Hd, !concat_app, <-!app_assoc.
    + by rewrite (same_len_concat blk sb).
    + rewrite (same_len_concat pre sp) by done. apply i64_small. unfold a. lia.
Qed.

(** A lookup either knows from memory that the key is absent, or scans exactly
    the stored bytes of the one block that can hold it. *)
Lemma SSTGet_cases w r bs ss key :
  describes r bs → stores w r ss → Forall2 same_len (concat bs) ss → w_faults w = [] →
  (SSTGet r key w = Ret ((not_found, None), w) ∧ Forall (λ n, n_Key n ≠ key) (concat bs)) ∨
  ∃ pre blk post sp sb sq, concat bs = pre ++ blk ++ post ∧ ss = sp ++ sb ++ sq
    ∧ length pre = length sp ∧ length blk = length sb
    ∧ Forall (λ n, n_Key n ≠ key) pre ∧ Forall (λ n, n_Key n ≠ key) post
    ∧ SSTGet r key w = liftM (scan (S (length (concat sb))) (concat sb) key) w.
Proof.
  intros [Hne Hidx Hoff Hs Hfit Hsz (b & ks & Hb & Hrep & Hks)] (h & f & rest & Hh & Ho & Hf & Hd) Hss Hw.
  unfold SSTGet. rewrite Hb.
  destruct (bl_contains_ok b ks key Hrep) as (c & Ec & Hc).
  erewrite bindM_ret by by apply liftM_ret.
  destruct c; cbn [negb].
  2:{ left. split; [done|]. eapply Forall_impl; [exact Hks|].
      intros n Hn <-. by specialize (Hc Hn). }
  destruct (decide (bs = [])) as [->|Hnil]; [left; by rewrite Hidx|].
  rewrite (proj2 (Z.eqb_neq (len (sr_index r)) 0)).
  2:{ rewrite Hidx. unfold len. rewrite block_index_length. destruct bs; [done|simpl; lia]. }
  destruct (block_range_ok r bs key) as (pre & blk & post & E & Er & Hpre & Hpost); [done..|].
  erewrite bindM_ret by by apply liftM_ret. cbn beta iota. rewrite E in *.
  apply Forall2_app_inv_l in Hss as (sp & sx & Hsp & Hsx & ->).
  apply Forall2_app_inv_l in Hsx as (sb & sq & Hsb & Hsq & ->).
  right. exists pre, blk, post, sp, sb, sq.
  split_and!; try done; [by eapply Forall2_length..|].
  destruct (read_block_ok w h f pre blk post sp sb sq rest) as (Em & Ea); [done..|].
  erewrite bindM_ret by by apply liftM_ret. rewrite Hh.
  by erewrite bindM_ret by exact Ea.
Qed.

Lemma same_len_records ns : Forall2 same_len ns (node_record <$> ns).
Proof. apply Forall2_fmap_r, Forall_Forall2_diag, Forall_forall. done. Qed.

Lemma app_split_fmap {A C} (g : A → C) pre blk post sp sb sq :
  g <$> (pre ++ blk ++ post) = sp ++ sb ++ sq → length pre = length sp →
  length blk = length sb → sb = g <$> blk.
Proof.
  rewrite !fmap_app. intros E Hp Hb. apply app_inj_1 in E as [_ E]; [|by rewrite length_fmap].
  apply app_inj_1 in E as [<- _]; [done|by rewrite length_fmap].
Qed.

(** A lookup in a table answers what its entries say, and changes nothing. *)
Lemma SSTGet_ok w r ns key :
  serves w r ns → w_faults w = [] → SSTGet r key w = Ret ((answer ns key, None), w).
Proof.
  intros (bs & -> & Hr & Hst) Hw. pose proof (sv_sorted _ _ Hr) as Hs.
  destruct (SSTGet_cases w r bs _ key Hr Hst (same_len_records _) Hw)
    as [[-> Hk]|(pre & blk & post & sp & sb & sq & E & Ess & Hlp & Hlb & Hpre & Hpost & ->)].
  { by rewrite answer_skip. }
  rewrite E in Ess. apply app_split_fmap in Ess as ->; [|done..].
  pose proof (sv_fits _ _ Hr) as Hfit. rewrite E in Hs, Hfit |- *.
  apply sorted_app in Hs as (_ & (Hsb & _ & _)%sorted_app & _).
  apply Forall_app in Hfit as [_ [Hfb _]%Forall_app].
  rewrite answer_app, answer_app_r by done. apply liftM_ret, scan_sorted; [done..|].
  pose proof (data_bytes_length blk). unfold data_bytes in *. lia.
Qed.

(** ** Damaged records *)

(** [bad] is [good] with at most four adjacent bytes changed, inside the
    checksum or after the length fields. *)
Definition burst (good bad : bytes) : Prop :=
  ∃ a x y b, good = a ++ x ++ b ∧ bad = a ++ y ++ b ∧ length x = length y
    ∧ (length x ≤ 4)%nat ∧ x ≠ y ∧ (12 ≤ length a ∨ length a + length x ≤ 4)%nat.

(** A stored record, intact or damaged. *)
Definition stored_as (n : Node) (s : bytes) : Prop :=
  s = node_record n ∨ burst (node_record n) s.

Lemma stored_as_len n s : stored_as n s → same_len n s.
Proof.
  unfold same_len, len. intros [-> |(a & x & y & b & -> & -> & Hl & _)]; [done|].
  by rewrite !length_app, Hl.
Qed.

Definition crc_error : error := Wrapf "sstable record crc mismatch" ErrSSTableCorrupted.

(** The damage hits no record of [key]. *)
Definition key_intact (key : bytes) (n : Node) (s : bytes) : Prop :=
  n_Key n = key → s = node_record n.

Lemma other_keys_intact key ns ss :
  Forall (λ n, n_Key n ≠ key) ns → length ns = length ss → Forall2 (key_intact key) ns ss.
Proof.
  intros Hk. revert ss. induction Hk as [|n ns Hn _ IH]; intros [|s ss] Hl; try done; constructor.
  - by intros ?.
  - apply IH. by injection Hl.
Qed.

Lemma sorted_above key n ns :
  Forall (λ m, bytes_lt (n_Key n) (n_Key m)) ns → ¬ bytes_lt (n_Key n) key →
  Forall (λ m, n_Key m ≠ key) ns.
Proof.
  intros Hn Hk. eapply Forall_impl; [exact Hn|]. intros m Hm Em. cbv beta in Hm.
  by rewrite Em in Hm.
Qed.

(** Scanning damaged records: the right answer, from intact records, or the
    checksum error. *)
Lemma scan_damaged ns ss fuel key :
  Forall2 stored_as ns ss → sorted ns → Forall node_fits ns → (length ns < fuel)%nat →
  (scan fuel (concat ss) key = Ret (answer ns key, None) ∧ Forall2 (key_intact key) ns ss)
  ∨ scan fuel (concat ss) key = Ret (not_found, Some crc_error).
Proof.
  intros Hss. revert fuel. induction Hss as [|n s ns ss Hst Hss IH]; intros [|fuel] Hs Hf Hl;
    try (simpl in Hl; lia); [by left|].
  apply sorted_cons_inv in Hs as [Hs Hn]. apply Forall_cons in Hf as [Hfn Hf]. cbn [concat].
  destruct Hst as [-> |(a & x & y & b & Eg & -> & Hlen & H4 & Hne & Hpos)].
  - rewrite scan_record, answer_cons, Equal_spec by done. case_decide as E.
    + left. rewrite bool_decide_true by done. split; [done|]. constructor; [done|].
      apply other_keys_intact; [|by eapply Forall2_length].
      apply (sorted_above _ n); [done|]. rewrite E. apply irreflexivity, _.
    + rewrite bool_decide_false, bytes_gtb_ltb by done.
      destruct (bytes_ltb key (n_Key n)) eqn:Eg.
      * apply bytes_ltb_lt in Eg.
        assert (Forall (λ m, n_Key m ≠ key) ns) as Hk.
        { apply (sorted_above _ n); [done|]. intros Hlt.
          by destruct (irreflexivity bytes_lt key (transitivity Eg Hlt)). }
        left. rewrite answer_skip by done. split; [done|]. constructor; [done|].
        apply other_keys_intact; [done|by eapply Forall2_length].
      * destruct (IH fuel Hs Hf) as [[-> Hi]| ->]; [simpl in Hl; lia| |by right].
        left. split; [done|]. by constructor.
  - right. unfold node_record in Eg.
    destruct (corrupt_record _ _ _ _ _ _ _ Hfn Eg Hlen H4 Hne Hpos) as (c & fb & body & -> & Hc & Hb & Hbad).
    apply len_fits in Hfn as (Hk & Hv & Hkv). rewrite scan_raw by done.
    by rewrite (proj2 (Z.eqb_neq _ _) Hbad).
Qed.

Lemma SSTGet_damaged w r bs ss key :
  describes r bs → stores w r ss → Forall2 stored_as (concat bs) ss → w_faults w = [] →
  (SSTGet r key w = Ret ((answer (concat bs) key, None), w)
   ∧ Forall2 (key_intact key) (concat bs) ss)
  ∨ SSTGet r key w = Ret ((not_found, Some crc_error), w).
Proof.
  intros Hr Hst Hss Hw. pose proof (sv_sorted _ _ Hr) as Hs. pose proof (sv_fits _ _ Hr) as Hfit.
  assert (Forall2 same_len (concat bs) ss) as Hsl by (eapply Forall2_impl; [done|apply stored_as_len]).
  destruct (SSTGet_cases w r bs ss key Hr Hst Hsl Hw)
    as [[-> Hk]|(pre & blk & post & sp & sb & sq & E & -> & Hlp & Hlb & Hpre & Hpost & ->)].
  { left. rewrite answer_skip by done. split; [done|].
    apply other_keys_intact; [done|by eapply Forall2_length]. }
  rewrite E in *. apply Forall2_app_inv in Hss as [Hsp Hsx]; [|done].
  apply Forall2_app_inv in Hsx as [Hsb Hsq]; [|done].
  apply sorted_app in Hs as (_ & (Hsrt & _ & _)%sorted_app & _).
  apply Forall_app in Hfit as [_ [Hfb _]%Forall_app].
  rewrite answer_app, answer_app_r by done.
  destruct (scan_damaged blk sb (S (length (concat sb))) key) as [[Es Hi]|Es]; [done..| | |].
  - assert (Forall2 same_len blk sb) as Hl by (eapply Forall2_impl; [done|apply stored_as_len]).
    apply same_len_concat in Hl. pose proof (data_bytes_length blk). unfold len in Hl. lia.
  - left. split; [by apply liftM_ret|].
    apply Forall2_app; [|apply Forall2_app; [done|]]; apply other_keys_intact; try done;
      by eapply Forall2_length.
  - right. by apply liftM_ret.
Qed.

(** ** Building a table *)

Lemma sparse_ok iv cnt off ns :
  Forall node_fits ns → 0 ≤ off → off + len (data_bytes ns) ≤ maxAlloc →
  Forall ie_ok (sparse iv cnt off ns) ∧
  len (index_bytes (sparse iv cnt off ns)) ≤ len (data_bytes ns).
Proof.
  revert cnt off. induction ns as [|n ns IH]; intros cnt off Hf Hoff Hsz; [by split|].
  apply Forall_cons in Hf as [(Hk & Hv & Hkv)%len_fits Hf].
  rewrite data_bytes_cons, len_app in *. pose proof (len_node_record n) as Hr.
  pose proof (len_nonneg (data_bytes ns)). cbn [sparse].
  destruct (IH (cnt + 1) (off + len (node_record n))) as [H1 H2]; [done|lia|lia|].
  destruct (Z.rem cnt iv =? 0); [|split; [done|lia]]. split.
  - constructor; [|done]. unfold ie_ok, maxAlloc in *. cbn. lia.
  - change (index_bytes (?x :: ?l)) with (index_entry_bytes x ++ index_bytes l).
    rewrite len_app, len_index_entry. cbn [ie_Key]. lia.
Qed.

(** The reader of a table with entries [ns]. *)
Definition reader_of (p : Os.path) (iv : Z) (ns : list Node) (b : B) (img : bytes) : SSTableReader B :=
  let idx := sparse iv 0 0 ns in
  mkSSTableReader (Some (mkHandle p 0 false true)) p
    (table_footer (data_bytes ns) (index_bytes idx) img) idx (Some b).

Lemma reader_of_serves w p f iv ns b img ks rest :
  lookup_file w p = Some f → f_data f = data_bytes ns ++ rest → sorted ns → Forall node_fits ns →
  len (data_bytes ns) ≤ maxAlloc → bl_rep b ks → Forall (λ n, n_Key n ∈ ks) ns →
  serves w (reader_of p iv ns b img) ns.
Proof.
  intros Hf Hd Hs Hfit Hsz Hb Hks.
  destruct (sparse_blocks_0 iv ns) as (bs & Ebs & Hne & Eidx).
  exists bs. split; [done|]. split.
  - rewrite Ebs in *. split; cbn; try done. eauto.
  - exists (mkHandle p 0 false true), f, rest. done.
Qed.

(** [BuildSSTable] on a sorted iterator, a disk without faults and a filter
    whose size can be allocated: the reader serves the entries, the file is
    synced, and opening a file with the same bytes gives the same reader. *)
Lemma BuildSSTable_ok w p d heap x ls ns n opts :
  w_faults w = [] → w_dirs w !! p.1 = Some d → d !! p.2 ≠ Some DDir →
  MemTableSpec.path (next heap 0) x ls → (length ls ≤ length heap)%nat →
  Forall2 (λ l n, heap !! l = Some n) ls ns → sorted ns → Forall node_fits ns →
  len (data_bytes ns) ≤ maxAlloc → bl_fits (B:=B) (u64 n) (FPRate (norm_options opts)) →
  ∃ (r : SSTableReader B) f w', BuildSSTable p heap (mkIterator (Some x)) n opts w = Ret (inl r, w')
    ∧ sr_file r = Some (mkHandle p 0 false true)
    ∧ lookup_file w' p = Some f ∧ f_synced f = length (f_data f) ∧ touches p w w'
    ∧ (∀ w2 f2, lookup_file w2 p = Some f2 → f_data f2 = f_data f → serves w2 r ns)
    ∧ (∀ w2 f2, w_faults w2 = [] → lookup_file w2 p = Some f2 → f_data f2 = f_data f →
        OpenSSTable p w2 = Ret (inl r, w2)).
Proof.
  intros Hw Hd He Hp Hl Hns Hs Hfit Hsz Hbl. set (iv := SparseInterval (norm_options opts)).
  destruct (OpenFile_trunc w p d Hd He Hw) as (w1 & E1 & Hf1 & Ht1).
  destruct (bl_create_ok _ _ Hbl) as (b0 & E0 & Hr0).
  assert (w_faults w1 = []) as Hw1 by (destruct Ht1 as [-> _]; done).
  destruct (write_data_ok heap iv ls ns Hns x (S (length heap))
    b0 [] [] 0 0 (mkHandle p 0 false true) w1 (mkFile [] 0))
    as (b & f2 & w2 & E2 & Hf2 & Hd2 & Ht2 & Hb2); try done; try lia.
  { unfold maxAlloc in Hsz. lia. }
  cbn [h_path set_pos f_data app] in *. rewrite Z.add_0_l in E2.
  assert (w_faults w2 = []) as Hw2 by (destruct Ht2 as [-> _]; done).
  destruct (sparse_ok iv 0 0 ns) as [Hie Hlen]; [done|lia|lia|].
  destruct (finish_table_ok w2 p f2 b (reverse (n_Key <$> ns) ++ []) _ Hw2 Hf2 Hie)
    as (img & f3 & w3 & E3 & Hf3 & Hd3 & Hsy & Ht3 & Edes & Hsizes); [by rewrite Hd2|lia|done|].
  rewrite Hd2 in *. exists (reader_of p iv ns b img), f3, w3.
  split_and!; [|done|done|done|by do 2 (etransitivity; [eassumption|])| |].
  - unfold BuildSSTable. erewrite bindM_ret by exact E1. cbn beta iota zeta.
    erewrite bindM_ret by by apply liftM_ret. cbn beta iota.
    erewrite bindM_ret by exact E2. cbn beta iota. unfold set_pos. cbn [h_path h_append h_open].
    exact E3.
  - intros w4 f4 Hf4 Hd4. eapply reader_of_serves; [done|by rewrite Hd4, Hd3|done..|].
    apply Forall_forall. intros m Hm. rewrite app_nil_r. by apply elem_of_reverse, list_elem_of_fmap_2.
  - intros w4 f4 Hw4 Hf4 Hd4. by apply (OpenSSTable_ok w4 p f4); rewrite ?Hd4, ?Hd3.
Qed.
End io.

(** ** Flushing a MemTable *)

(** The iterator of a table and the entries it enumerates. *)
Lemma memtable_nodes m M :
  represents m M →
  ∃ ls ns, MemTableSpec.path (next (mt_heap m) 0) (mt_head m) ls
    ∧ (length ls ≤ length (mt_heap m))%nat
    ∧ Forall2 (λ l n, mt_heap m !! l = Some n) ls ns ∧ all_nodes m = Ret ns
    ∧ sorted ns ∧ ∀ k, answer ns k = lookup_answer (M !! k).
Proof.
  intros Hr. pose proof Hr as (ls & Hwf & HM). pose proof (wf_path _ _ Hwf 0 (wf_max _ _ Hwf)) as Hp.
  rewrite (filter_tall0 m ls Hwf) in Hp. pose proof (wf_length _ _ Hwf) as Hl.
  destruct (iterate_path (mt_heap m) (mt_head m) ls (S (length (mt_heap m))))
    as (ns & E & Hns); [done|apply (wf_in _ _ Hwf)|lia|].
  exists ls, ns. split_and!; try done; [lia| |].
  - eapply nodes_sorted; [done|apply (wf_sorted _ _ Hwf)].
  - intros k. unfold answer. by rewrite <-(entries_nodes _ _ _ Hns), <-HM.
Qed.

Section flush.
Context {B : Type} `{Bloom B}.

Lemma flush_ok m M w p d n opts ns :
  represents m M → all_nodes m = Ret ns → Forall node_fits ns →
  len (data_bytes ns) ≤ maxAlloc → bl_fits (B:=B) (u64 n) (FPRate (norm_options opts)) →
  w_faults w = [] → w_dirs w !! p.1 = Some d → d !! p.2 ≠ Some DDir →
  ∃ (r : SSTableReader B) f w' bs,
    BuildSSTable p (mt_heap m) (NewIterator m) n opts w = Ret (inl r, w')
    ∧ ns = concat bs ∧ describes r bs ∧ sr_file r = Some (mkHandle p 0 false true)
    ∧ lookup_file w' p = Some f ∧ f_synced f = length (f_data f) ∧ touches p w w'
    ∧ (∀ k, answer ns k = lookup_answer (M !! k))
    ∧ (∀ w2 f2 k, w_faults w2 = [] → lookup_file w2 p = Some f2 → f_data f2 = f_data f →
        OpenSSTable p w2 = Ret (inl r, w2)
        ∧ SSTGet r k w2 = Ret ((lookup_answer (M !! k), None), w2)).
Proof.
  intros Hr Hall Hfit Hsz Hbl Hw Hd He.
  destruct (memtable_nodes m M Hr) as (ls & ns' & Hp & Hl & Hns & Hall' & Hs & Hans).
  rewrite Hall in Hall'. injection Hall' as <-.
  destruct (BuildSSTable_ok (B:=B) w p d (mt_heap m) (mt_head m) ls ns n opts)
    as (r & f & w' & E & Hfile & Hf & Hsy & Ht & Hsv & Hop); [done..|].
  destruct (Hsv w' f Hf eq_refl) as (bs & Ens & Hdesc & _).
  exists r, f, w', bs. split_and!; [done..|]. intros w2 f2 k Hw2 Hf2 Hd2. split; [by eapply Hop|].
  rewrite <-Hans. apply SSTGet_ok; [by eapply Hsv|done].
Qed.
End flush.

(** ** Claims *)

Section claims.
Context (log : double → double).
#[local] Instance lumafly : Bloom LumaflyBloom := lumafly_bloom log.

(** The conditions under which a table of entries [ns] can be written: the
    records fit their 32-bit lengths, the data block and the filter can be
    allocated, the disk works and the target is not a directory. *)
Record flushable (ns : list Node) (n : Z) (opts : SSTableOptions) (w : world) (p : Os.path) : Prop := {
  fl_fits : Forall node_fits ns;
  fl_size : len (data_bytes ns) ≤ maxAlloc;
  fl_filter : filter_fits log (u64 n) (FPRate (norm_options opts));
  fl_disk : w_faults w = [];
  fl_dir : ∃ d, w_dirs w !! p.1 = Some d ∧ d !! p.2 ≠ Some DDir }.

Lemma flushable_ok opts rnd rs m ns w p n sopts :
  run opts rnd rs = Ret m → all_nodes m = Ret ns → flushable ns n sopts w p →
  ∃ (r : SSTableReader LumaflyBloom) f w' bs,
    BuildSSTable p (mt_heap m) (NewIterator m) n sopts w = Ret (inl r, w')
    ∧ ns = concat bs ∧ describes r bs ∧ sr_file r = Some (mkHandle p 0 false true)
    ∧ lookup_file w' p = Some f ∧ f_synced f = length (f_data f) ∧ touches p w w'
    ∧ (∀ k, answer ns k = lookup_answer (apply_ops ∅ rs !! k))
    ∧ (∀ w2 f2 k, w_faults w2 = [] → lookup_file w2 p = Some f2 → f_data f2 = f_data f →
        OpenSSTable p w2 = Ret (inl r, w2)
        ∧ SSTGet r k w2 = Ret ((lookup_answer (apply_ops ∅ rs !! k), None), w2)).
Proof.
  intros [_ Hr]%run_inv Hall [Hfit Hsz Hbl Hw (d & Hd & He)].
  by apply (flush_ok (B:=LumaflyBloom) m _ w p d n sopts ns).
Qed.

(** C11.  A flush loses nothing: the SSTable built from the iterator of a
    MemTable answers every lookup exactly like the map of the operations the
    MemTable had executed, tombstones included, without an error and without
    changing the disk; the other files are untouched. *)
Theorem flush_preserves_reads opts rnd rs m ns w p n sopts :
  run opts rnd rs = Ret m → all_nodes m = Ret ns → flushable ns n sopts w p →
  ∃ (r : SSTableReader LumaflyBloom) w',
    BuildSSTable p (mt_heap m) (NewIterator m) n sopts w = Ret (inl r, w') ∧ touches p w w'
    ∧ ∀ k, SSTGet r k w' = Ret ((lookup_answer (apply_ops ∅ rs !! k), None), w').
Proof.
  intros Hrun Hall Hfl. pose proof (fl_disk _ _ _ _ _ Hfl) as Hw.
  destruct (flushable_ok _ _ _ _ _ _ _ _ _ Hrun Hall Hfl)
    as (r & f & w' & bs & E & _ & _ & _ & Hf & _ & Ht & _ & Hop).
  exists r, w'. split_and!; [done..|]. intros k. eapply (Hop w' f); [|done..].
  destruct Ht as [-> _]. done.
Qed.

(** C24.  A flushed table is durable: whatever a crash after [BuildSSTable] does
    to the unsynced data of the disk, reopening the file succeeds and serves
    the same answers. *)
Theorem flushed_table_survives_crash opts rnd rs m ns w p n sopts :
  run opts rnd rs = Ret m → all_nodes m = Ret ns → flushable ns n sopts w p →
  ∃ (r : SSTableReader LumaflyBloom) w',
    BuildSSTable p (mt_heap m) (NewIterator m) n sopts w = Ret (inl r, w')
    ∧ ∀ w2, crash w' w2 →
        OpenSSTable p w2 = Ret (inl r, w2)
        ∧ ∀ k, SSTGet r k w2 = Ret ((lookup_answer (apply_ops ∅ rs !! k), None), w2).
Proof.
  intros Hrun Hall Hfl.
  destruct (flushable_ok _ _ _ _ _ _ _ _ _ Hrun Hall Hfl)
    as (r & f & w' & bs & E & _ & _ & _ & Hf & Hsy & _ & _ & Hop).
  exists r, w'. split; [done|]. intros w2 Hc.
  pose proof (crash_lookup_synced _ _ _ _ Hc Hf Hsy) as Hf2.
  pose proof (crash_faults _ _ Hc) as Hw2.
  split; [by eapply (Hop w2 f [])|]. intros k. by eapply (Hop w2 f k).
Qed.

(** C14.  A damaged record is never served: if, after the table was built, any
    of its records have each up to four adjacent bytes changed (in the checksum
    or after the length fields), then every lookup either gives the right
    answer or fails with [ErrSSTableCorrupted], and a lookup of a key whose own
    record is damaged fails. *)
Theorem sstable_detects_corruption opts rnd rs m ns w p n sopts :
  run opts rnd rs = Ret m → all_nodes m = Ret ns → flushable ns n sopts w p →
  ∃ (r : SSTableReader LumaflyBloom) w',
    BuildSSTable p (mt_heap m) (NewIterator m) n sopts w = Ret (inl r, w')
    ∧ ∀ w2 f2 ss rest k, w_faults w2 = [] → lookup_file w2 p = Some f2 →
        f_data f2 = concat ss ++ rest → Forall2 stored_as ns ss →
        (SSTGet r k w2 = Ret ((lookup_answer (apply_ops ∅ rs !! k), None), w2)
         ∧ Forall2 (key_intact k) ns ss)
        ∨ ∃ e, SSTGet r k w2 = Ret ((not_found, Some e), w2)
            ∧ errors_Is e ErrSSTableCorrupted = true.
Proof.
  intros Hrun Hall Hfl.
  destruct (flushable_ok _ _ _ _ _ _ _ _ _ Hrun Hall Hfl)
    as (r & f & w' & bs & E & -> & Hdesc & Hfile & _ & _ & _ & Hans & _).
  exists r, w'. split; [done|]. intros w2 f2 ss rest k Hw2 Hf2 Hd2 Hss. rewrite <-Hans.
  destruct (SSTGet_damaged w2 r bs ss k) as [?|?]; try done; [|by left|].
  - exists (mkHandle p 0 false true), f2, rest. done.
  - right. eauto.
Qed.
End claims.

(** The operations of a small table and its entries. *)
Definition ops1 : list kvt := [(str "b", str "2", false); (str "a", str "1", false); (str "b", [], true)].

Definition world1 : world := mkWorld {[ str "db" := ∅ ]} [].
Definition path1 : Os.path := (str "db", str "l0.sst").

Definition nodes1 : list Node :=
  [mkNode (str "a") (str "1") false [Some 1%nat]; mkNode (str "b") [] true [None; None]].

Lemma flushable1 : flushable log1 nodes1 2 DefaultSSTableOptions world1 path1.
Proof.
  split.
  - repeat constructor.
  - by vm_compute.
  - split; [apply log1_ok|done..].
  - done.
  - exists ∅. done.
Qed.

Definition rnd1 : list float32 := [float32_of 1 (-3); float32_of 1 (-1); float32_of 1 (-1)].
Definition table1 : MemTable :=
  Eval vm_compute in
    match run DefaultMemTableOptions rnd1 ops1 with
    | Ret m => m
    | _ => new_table DefaultMemTableOptions []
    end.

Lemma flush_preserves_reads_witness :
  ∃ r w', BuildSSTable (H:=lumafly_bloom log1) path1 (mt_heap table1) (NewIterator table1) 2
            DefaultSSTableOptions world1 = Ret (inl r, w')
    ∧ SSTGet (H:=lumafly_bloom log1) r (str "a") w' = Ret ((str "1", false, true, None), w')
    ∧ SSTGet (H:=lumafly_bloom log1) r (str "b") w' = Ret (([], true, true, None), w').
Proof.
  destruct (flush_preserves_reads log1 DefaultMemTableOptions rnd1 ops1 table1 nodes1
    world1 path1 2 DefaultSSTableOptions) as (r & w' & E & _ & Hget);
    [reflexivity|reflexivity|exact flushable1|].
  exists r, w'. split; [exact E|]. split; [exact (Hget (str "a"))|exact (Hget (str "b"))].
Defined.

Lemma flushed_table_survives_crash_witness :
  ∃ (r : SSTableReader LumaflyBloom) w',
    BuildSSTable (H:=lumafly_bloom log1) path1 (mt_heap table1) (NewIterator table1) 2
      DefaultSSTableOptions world1 = Ret (inl r, w')
    ∧ ∀ w2, crash w' w2 →
        SSTGet (H:=lumafly_bloom log1) r (str "a") w2 = Ret ((str "1", false, true, None), w2).
Proof.
  destruct (flushed_table_survives_crash log1 DefaultMemTableOptions rnd1 ops1 table1 nodes1
    world1 path1 2 DefaultSSTableOptions) as (r & w' & E & Hget);
    [reflexivity|reflexivity|exact flushable1|].
  exists r, w'. split; [exact E|]. intros w2 Hc. exact (proj2 (Hget w2 Hc) (str "a")).
Defined.

(** The record of [a] with one bit of its value flipped. *)
Definition bad_a : bytes := take 14 (record (str "a") (str "1") false) ++ [x33].
Definition world1_bad : world :=
  mkWorld {[ str "db" := {[ str "l0.sst" := DFile (mkFile (bad_a ++ record (str "b") [] true) 0) ]} ]} [].

Lemma sstable_detects_corruption_witness :
  ∃ (r : SSTableReader LumaflyBloom) w' e,
    BuildSSTable (H:=lumafly_bloom log1) path1 (mt_heap table1) (NewIterator table1) 2
      DefaultSSTableOptions world1 = Ret (inl r, w')
    ∧ SSTGet (H:=lumafly_bloom log1) r (str "a") world1_bad
        = Ret ((not_found, Some e), world1_bad)
    ∧ errors_Is e ErrSSTableCorrupted = true.
Proof.
  destruct (sstable_detects_corruption log1 DefaultMemTableOptions rnd1 ops1 table1 nodes1
    world1 path1 2 DefaultSSTableOptions) as (r & w' & E & Hget);
    [reflexivity|reflexivity|exact flushable1|].
  exists r, w'.
  destruct (Hget world1_bad (mkFile (bad_a ++ record (str "b") [] true) 0)
              [bad_a; record (str "b") [] true] [] (str "a")) as [[_ Hi]|(e & Eg & He)].
  - reflexivity.
  - reflexivity.
  - reflexivity.
  - constructor; [right|constructor; [by left|constructor]].
    exists (take 14 (record (str "a") (str "1") false)), (str "1"), [x33], [].
    split_and!; [reflexivity|reflexivity|reflexivity|vm_compute; lia|done|left; vm_compute; lia].
  - exfalso. inversion Hi as [|? ? ? ? Hk _]; subst. specialize (Hk eq_refl). vm_compute in Hk. discriminate Hk.
  - exists e. split_and!; assumption.
Defined.

Section robustness.
Context {B : Type} `{Bloom B}.

(** A closed reader reports every key as absent: after [Close] the filter
    pointer is nil, [lumafly_contains] answers false for it and [Get] returns
    not-found with no error and no disk access; a second [Close] is a no-op. *)
Theorem closed_reader_reports_absent (r r' : SSTableReader B) w w' e k :
  SSTClose r w = Ret ((e, r'), w') →
  (∀ w2, SSTGet r' k w2 = Ret ((not_found, None), w2))
  ∧ (∀ w2, SSTClose r' w2 = Ret ((None, r'), w2)).
Proof.
  unfold SSTClose. intros E. assert (sr_bloom r' = None ∧ sr_file r' = None) as [Hb Hf].
  { destruct (sr_file r) as [h|]; [|by injection E as _ <- _].
    apply bindM_inv in E as ([e1 h1] & w1 & _ & E). by injection E as _ <- _. }
  split; intros w2; [unfold SSTGet; by rewrite Hb|rewrite Hf]. destruct r'. cbn in *. by subst.
Qed.

(** [OpenSSTable] does not validate the footer before it uses it: on a
    file whose footer is zeroed the filter length is 0 and the address of
    element 0 of the empty filter buffer is taken, so it panics where the error
    [ErrSSTableCorrupted] is declared for corrupted footers. *)
Theorem zero_footer_panics w p f pre :
  w_faults w = [] → lookup_file w p = Some f → f_data f = pre ++ replicate 32 x00 →
  OpenSSTable (B:=B) p w = Panic.
Proof.
  intros Hw Hf Hd. unfold OpenSSTable.
  assert (len (f_data f) = len pre + 32) as Hl by (rewrite Hd, len_app; done).
  pose proof (len_nonneg pre). set (h := mkHandle p 0 false true).
  erewrite bindM_ret by by eapply OpenFile_existing. cbn beta iota. fold h.
  erewrite bindM_ret by by apply (Stat_ok w h f). cbn beta iota.
  rewrite (proj2 (Z.ltb_ge _ _)) by (unfold FooterSize; lia).
  erewrite bindM_ret.
  2:{ apply (ReadAt_at w h f eq_refl Hf Hw pre (replicate 32 x00) []).
      - by rewrite Hd, app_nil_r.
      - done.
      - rewrite Hl. unfold FooterSize. lia. }
  reflexivity.
Qed.
End robustness.

Definition reader1 : SSTableReader LumaflyBloom :=
  mkSSTableReader (Some (mkHandle path1 0 false true)) path1 (mkFooter 0 0 0 0) []
    (Some (mkBloom 64 1 (replicate 8 xff))).

Lemma closed_reader_reports_absent_witness :
  ∃ r', SSTClose reader1 world1 = Ret ((None, r'), world1)
    ∧ SSTGet (H:=lumafly_bloom log1) r' (str "a") world1 = Ret ((not_found, None), world1).
Proof.
  eexists. split; [reflexivity|].
  refine (proj1 (closed_reader_reports_absent (H:=lumafly_bloom log1)
    reader1 _ world1 world1 None (str "a") _) world1). reflexivity.
Defined.

Definition zero_file : file := mkFile (str "xx" ++ replicate 32 x00) 0.
Definition zero_world : world := mkWorld {[ str "db" := {[ str "l0.sst" := DFile zero_file ]} ]} [].

Lemma zero_footer_panics_witness :
  OpenSSTable (H:=lumafly_bloom log1) path1 zero_world = Panic.
Proof.
  apply (zero_footer_panics (H:=lumafly_bloom log1) zero_world path1 zero_file (str "xx"));
    reflexivity.
Defined.

(** ** Termination *)

Lemma parse_index_no_oof fuel buf acc :
  (length buf < fuel)%nat → parse_index fuel buf acc ≠ OutOfFuel.
Proof.
  revert buf acc. induction fuel as [|fuel IH]; intros buf acc Hl; [lia|]. cbn [parse_index].
  destruct buf as [|x buf]; [done|].
  destruct (read_full (x :: buf) 4) as [kl rest| |] eqn:E1; [|done..].
  apply read_full_inv in E1 as [E1 L1].
  apply go_bind_no_oof; [auto with no_oof|]. intros _.
  destruct (read_full rest (be_get kl)) as [kb rest2| |] eqn:E2; [|done..].
  apply read_full_inv in E2 as [-> L2].
  destruct (read_full rest2 8) as [ob rest3| |] eqn:E3; [|done..].
  apply read_full_inv in E3 as [-> L3].
  apply IH. rewrite E1 in Hl. rewrite !length_app in Hl. unfold len in *. lia.
Qed.

Lemma scan_no_oof fuel buf key : (length buf < fuel)%nat → scan fuel buf key ≠ OutOfFuel.
Proof.
  revert buf. induction fuel as [|fuel IH]; intros buf Hl; [lia|]. cbn [scan].
  destruct buf as [|x buf]; [done|].
  destruct (read_full (x :: buf) RecordHeaderSize) as [hb rest| |] eqn:E1; [|done..].
  apply read_full_inv in E1 as [E1 L1].
  apply go_bind_no_oof; [auto with no_oof|]. intros h.
  apply go_bind_no_oof; [auto with no_oof|]. intros _.
  destruct (read_full rest (bodyLen h)) as [bb rest2| |] eqn:E2; [|done..].
  apply read_full_inv in E2 as [-> L2].
  apply go_bind_no_oof; [auto with no_oof|]. intros crc.
  destruct (expectedCRC h =? crc); [|done].
  apply go_bind_no_oof; [auto with no_oof|]. intros [ck cv].
  destruct (Equal ck key); [done|]. destruct (bytes_gtb ck key); [done|].
  apply IH. rewrite E1 in Hl. rewrite !length_app in Hl.
  unfold len, RecordHeaderSize in *. lia.
Qed.

Lemma search_loop_no_oof fuel f i j :
  (∀ x, f x ≠ OutOfFuel) → (0 < fuel)%nat → j - i < Z.of_nat fuel →
  search_loop fuel f i j ≠ OutOfFuel.
Proof.
  intros Hf. revert i j. induction fuel as [|fuel IH]; intros i j H0 Hl; [lia|].
  cbn [search_loop]. destruct (Z.ltb_spec i j) as [Hij|]; [|done].
  rewrite Z.shiftr_div_pow2 by lia. change (2 ^ 1) with 2.
  assert (i ≤ (i + j) / 2 < j) as Hm.
  { split; [apply Z.div_le_lower_bound; lia|apply Z.div_lt_upper_bound; lia]. }
  apply go_bind_no_oof; [apply Hf|]. intros []; apply IH; lia.
Qed.

Lemma block_range_no_oof {B} (r : SSTableReader B) key : block_range r key ≠ OutOfFuel.
Proof.
  unfold block_range. apply go_bind_no_oof.
  - apply search_loop_no_oof; [auto with no_oof|lia|]. pose proof (len_nonneg (sr_index r)). lia.
  - intros idx. apply go_bind_no_oof; [destruct (0 <? idx); auto with no_oof|]. intros st.
    apply go_bind_no_oof; [destruct (idx <? _); auto with no_oof|]. done.
Qed.

Lemma decode_footer_no_oof b : decode_footer b ≠ OutOfFuel.
Proof. unfold decode_footer. auto 10 with no_oof. Qed.

Lemma fail_close_no_oof {A} h e w : fail_close (A:=A) h e w ≠ OutOfFuel.
Proof. apply bindM_no_oof; auto with no_oof. Qed.
#[export] Hint Resolve block_range_no_oof decode_footer_no_oof fail_close_no_oof : no_oof.

Lemma deserialize_no_oof buf : lumafly_deserialize buf ≠ OutOfFuel.
Proof.
  unfold lumafly_deserialize. destruct (len buf <? _); [done|].
  apply go_bind_no_oof; [auto with no_oof|]. intros bits.
  apply go_bind_no_oof; [auto with no_oof|]. intros hashes.
  destruct (len buf <? _); auto with no_oof.
Qed.

Lemma contains_no_oof bf key : lumafly_contains bf key ≠ OutOfFuel.
Proof.
  unfold lumafly_contains. generalize (Z.to_nat (num_hashes bf)) 0. intros k.
  induction k as [|k IH]; intros i; [done|]. cbn [contains_loop].
  apply go_bind_no_oof; [unfold bit_idx; auto with no_oof|]. intros b.
  apply go_bind_no_oof; [auto with no_oof|]. intros x. destruct (_ =? 0); [done|apply IH].
Qed.
#[export] Hint Resolve deserialize_no_oof contains_no_oof : no_oof.

(** Reading always terminates: whatever bytes the file holds and whatever
    the disk does, [OpenSSTable] and [Get] stop.  The fuel of their loops, one
    more than the number of bytes of the block or of the index entries, is
    never exhausted. *)
Theorem sstable_reads_terminate log p (r : SSTableReader LumaflyBloom) key w :
  OpenSSTable (H:=lumafly_bloom log) p w ≠ OutOfFuel
  ∧ SSTGet (H:=lumafly_bloom log) r key w ≠ OutOfFuel.
Proof.
  split.
  - unfold OpenSSTable. apply bindM_no_oof; [auto with no_oof|]. intros [file|e] w1 _; [|done].
    apply bindM_no_oof; [auto with no_oof|]. intros [size|e] w2 _; [|auto with no_oof].
    destruct (size <? FooterSize); [auto with no_oof|].
    apply bindM_no_oof; [auto with no_oof|]. intros [fb [e|]] w3 _; [auto with no_oof|].
    apply bindM_no_oof; [auto with no_oof|]. intros ft w4 _.
    apply bindM_no_oof; [auto with no_oof|]. intros _ w5 _.
    apply bindM_no_oof; [auto with no_oof|]. intros [ib [e|]] w6 _; [auto with no_oof|].
    apply bindM_no_oof; [apply liftM_no_oof, parse_index_no_oof; lia|].
    intros [idx|e] w7 _; [|auto with no_oof].
    apply bindM_no_oof; [auto with no_oof|]. intros _ w8 _.
    apply bindM_no_oof; [auto with no_oof|]. intros [flb [e|]] w9 _; [auto with no_oof|].
    apply bindM_no_oof; [auto with no_oof|]. intros _ w10 _.
    apply bindM_no_oof; [apply liftM_no_oof, deserialize_no_oof|].
    intros [b|] w11 _; auto with no_oof.
  - unfold SSTGet. apply bindM_no_oof.
    { apply liftM_no_oof. destruct (sr_bloom r); [apply contains_no_oof|done]. }
    intros c w1 _. destruct (negb c); [done|]. destruct (len _ =? 0); [done|].
    apply bindM_no_oof; [auto with no_oof|]. intros [so eo] w2 _.
    apply bindM_no_oof; [auto with no_oof|]. intros _ w3 _.
    apply bindM_no_oof; [destruct (sr_file r); auto with no_oof|]. intros [db err] w4 _.
    destruct err as [[]|]; try done; apply liftM_no_oof, scan_no_oof; lia.
Qed.
