(* ===== verification/Compaction.v ===== *)
(** * The Abyss compactor (pkg/storage/compaction.go)

    [CompactL0ToL1] merges level-0 tables into one level-1 table: it looks up
    every key of the readers' in-memory index, keeps the last entry per key,
    drops the tombstones, builds the new table through a temporary MemTable and
    deletes the old files.  The readers are shared objects that the call
    closes, so it returns them with its result. *)

From Stdlib Require Import Strings.Byte Strings.String.
From S2P Require Import Prelude GoBytes KV Os Record MemTable SSTable.

Local Open Scope Z_scope.

Record CompactorOptions := mkCompactorOptions { L0Trigger : Z; DestDir : bytes }.

Definition DefaultCompactorOptions (dir : bytes) : CompactorOptions := mkCompactorOptions 4 dir.

Record Compactor := mkCompactor { c_opts : CompactorOptions }.

Definition NewCompactor (opts : CompactorOptions) : Compactor :=
  mkCompactor (if L0Trigger opts <=? 0 then mkCompactorOptions 4 (DestDir opts) else opts).

Definition sentinel_key : bytes := str "__abyss_compaction_sentinel__".
Definition sentinel_value : bytes := str "ok".

(** The second loop: entries in key order, tombstones purged; [entryMap[kStr]]
    of an absent key would be the zero entry. *)
Fixpoint retain (keys : list bytes) (entryMap : kv) (mem : MemTable) (retainedCount : Z)
    : go (MemTable * Z) :=
  match keys with
  | [] => Ret (mem, retainedCount)
  | k :: keys =>
      let '(value, tombstone) := default ([], false) (entryMap !! k) in
      if tombstone then retain keys entryMap mem retainedCount
      else
        let* (mem, _) := Put mem k value in
        retain keys entryMap mem (retainedCount + 1)
  end.

Section compact.
Context {B : Type} `{Bloom B}.

(** The inner loop over the index of one reader; a lookup error skips the key. *)
Fixpoint collect_index (r : SSTableReader B) (idx : list IndexEntry) (entryMap : kv) : IO kv :=
  match idx with
  | [] => retM entryMap
  | ie :: idx =>
      let! (res, err) := SSTGet r (ie_Key ie) in
      match err with
      | Some _ => collect_index r idx entryMap
      | None =>
          let '(val, tombstone, found) := res in
          collect_index r idx
            (if (found : bool) then <[ie_Key ie := (val, tombstone)]> entryMap else entryMap)
      end
  end.

Fixpoint collect_readers (rs : list (SSTableReader B)) (entryMap : kv) : IO kv :=
  match rs with
  | [] => retM entryMap
  | r :: rs =>
      let! entryMap := collect_index r (sr_index r) entryMap in
      collect_readers rs entryMap
  end.

(** The last loop: close every reader and remove its file, errors ignored. *)
Fixpoint discard (rs : list (SSTableReader B)) : IO (list (SSTableReader B)) :=
  match rs with
  | [] => retM []
  | r :: rs =>
      let! (_, r') := SSTClose r in
      let! _ := Remove (sr_filename r) in
      let! rs' := discard rs in
      retM (r' :: rs')
  end.

Definition CompactL0ToL1 (c : Compactor) (rnd : list float32) (l0Readers : list (SSTableReader B))
    (destFile : Os.path) (sstOpts : SSTableOptions)
    : IO ((SSTableReader B + error) * list (SSTableReader B)) :=
  if len l0Readers =? 0
  then retM (inr (Errorf "no L0 sstables provided for compaction"), l0Readers) else
  let! entryMap := collect_readers l0Readers ∅ in
  let keys := sort_Strings (map_to_list entryMap).*1 in
  let! mem := liftM (NewMemTable DefaultMemTableOptions rnd) in
  let! (mem, retainedCount) := liftM (retain keys entryMap mem 0) in
  let! (mem, retainedCount) :=
    liftM (if retainedCount =? 0 then
             let* (mem, _) := Put mem sentinel_key sentinel_value in Ret (mem, 1)
           else Ret (mem, retainedCount)) in
  let! r := BuildSSTable destFile (mt_heap mem) (NewIterator mem) retainedCount sstOpts in
  match r with
  | inr e => retM (inr (Wrapf "failed to build compacted L1 sstable" e), l0Readers)
  | inl l1Reader =>
      let! closed := discard l0Readers in
      retM (inl l1Reader, closed)
  end.
End compact.
