(* ===== verification/CompactionSpec.v ===== *)
(** * What compaction keeps and what it loses

    The exact result of [CompactL0ToL1]: the new table holds the newest entry
    of every key that is in the sparse index of some input, without
    tombstones.  With an index interval of 1 that is the merge of the inputs;
    with any other interval the keys between index entries are gone, and the
    inputs are deleted. *)

From Stdlib Require Import Strings.Byte Strings.String.
From S2P Require Import Prelude GoBytes Float64 KV Os Record MemTable MemTableSpec Lumafly SSTable.
From S2P Require Import SSTableSpec Compaction.

Local Open Scope Z_scope.

(** ** The entries compaction sees *)

(** The entry at the head of each block. *)
Definition head_nodes (bs : list (list Node)) : list Node := omap head bs.

Definition add_node (m : kv) (n : Node) : kv := <[n_Key n := (n_Value n, n_Tombstone n)]> m.

(** The map after visiting the blocks of every reader, newest last. *)
Definition collected (bss : list (list (list Node))) : kv :=
  foldl (λ m bs, foldl add_node m (head_nodes bs)) ∅ bss.

(** The entries that are not tombstones. *)
Definition live (m : kv) : kv := filter (λ e, e.2.2 = false) m.

(** What the new table holds. *)
Definition compacted (bss : list (list (list Node))) : kv :=
  if decide (live (collected bss) = ∅) then {[ sentinel_key := (sentinel_value, false) ]}
  else live (collected bss).

Lemma answer_in ns n : sorted ns → n ∈ ns → answer ns (n_Key n) = (n_Value n, n_Tombstone n, true).
Proof.
  intros Hs (a & b & ->)%list_elem_of_split. apply sorted_app in Hs as (_ & _ & Hlt).
  rewrite answer_app; [by rewrite answer_cons, decide_True|].
  apply Forall_forall. intros m Hm. apply bytes_lt_ne, Hlt; [done|set_solver].
Qed.

(** Copying the live entry of one key. *)
Definition keep_live (M acc : kv) (k : bytes) : kv :=
  match live M !! k with Some x => <[k := x]> acc | None => acc end.

Lemma retain_ok keys M mem acc c :
  represents mem acc → Forall (λ k, is_Some (M !! k)) keys → NoDup keys →
  ∃ mem', retain keys M mem c
      = Ret (mem', c + len (filter (λ k, is_Some (live M !! k)) keys))
    ∧ represents mem' (foldl (keep_live M) acc keys).
Proof.
  revert mem acc c. induction keys as [|k keys IH]; intros mem acc c Hr Hk Hnd.
  { exists mem. cbn. by rewrite Z.add_0_r. }
  apply Forall_cons in Hk as [[[v t] Hx] Hk]. apply NoDup_cons in Hnd as [_ Hnd].
  cbn [retain foldl]. rewrite Hx. cbn [from_option id].
  assert (live M !! k = if t then None else Some (v, false)) as Hl.
  { unfold live. rewrite map_lookup_filter, Hx. cbn. destruct t; by case_guard. }
  unfold keep_live at 2. rewrite Hl, filter_cons. destruct t.
  - rewrite decide_False by (rewrite Hl; by intros [? ?]). by apply IH.
  - rewrite decide_True by (rewrite Hl; eauto). rewrite len_cons.
    destruct (represents_insert mem acc k v false Hr) as (m1 & E1 & _ & Hr1).
    destruct (IH m1 _ (c + 1) Hr1 Hk Hnd) as (m2 & E2 & Hr2).
    exists m2. unfold Put. rewrite E1. cbn [bind_go]. rewrite E2.
    split; [do 2 f_equal; lia|done].
Qed.

Lemma live_lookup_None M k : M !! k = None → live M !! k = None.
Proof. intros Hk. unfold live. by rewrite map_lookup_filter, Hk. Qed.

(** Inserting the live entries of a list of keys that covers the map. *)
Lemma live_fold M keys acc :
  ∀ j : bytes, foldl (keep_live M) acc keys !! j
    = if decide (j ∈ keys ∧ is_Some (live M !! j)) then live M !! j else acc !! j.
Proof.
  revert acc. induction keys as [|k keys IH]; intros acc j; cbn [foldl].
  { rewrite decide_False; [done|]. set_solver. }
  rewrite IH. unfold keep_live. destruct (decide (j ∈ keys ∧ is_Some (live M !! j))) as [[H1 H2]|Hn].
  { rewrite decide_True; [done|]. set_solver. }
  destruct (decide (j = k)) as [->|Hne].
  - destruct (live M !! k) as [x|] eqn:E.
    + rewrite lookup_insert_eq, decide_True; [done|]. split; [set_solver|eauto].
    + rewrite decide_False; [done|]. by intros [_ [? ?]].
  - rewrite (decide_False (P := j ∈ k :: keys ∧ _)) by set_solver.
    destruct (live M !! k); [by rewrite lookup_insert_ne|done].
Qed.

Lemma live_fold_all M keys :
  (∀ k, k ∈ keys ↔ is_Some (M !! k)) →
  foldl (keep_live M) ∅ keys = live M.
Proof.
  intros Hk. apply map_eq. intros j. rewrite live_fold. case_decide as Hd; [done|].
  rewrite lookup_empty. destruct (live M !! j) as [x|] eqn:E; [|done]. exfalso. apply Hd.
  split; [|eauto]. apply Hk. destruct (M !! j) eqn:Em; [eauto|].
  by rewrite live_lookup_None in E.
Qed.

(** The sorted key list of the map. *)
Definition map_keys (M : kv) : list bytes := sort_Strings (map_to_list M).*1.

Lemma map_keys_perm M : map_keys M ≡ₚ (map_to_list M).*1.
Proof. apply merge_sort_Permutation. Qed.

Lemma map_keys_elem M k : k ∈ map_keys M ↔ is_Some (M !! k).
Proof.
  rewrite (map_keys_perm M), list_elem_of_fmap. split.
  - intros ([k' x] & -> & Hx%elem_of_map_to_list). eauto.
  - intros [x Hx]. exists (k, x). split; [done|]. by apply elem_of_map_to_list.
Qed.

Lemma map_keys_NoDup M : NoDup (map_keys M).
Proof. rewrite map_keys_perm. apply NoDup_fst_map_to_list. Qed.

Lemma live_count M : len (filter (λ k, is_Some (live M !! k)) (map_keys M)) = Z.of_nat (size (live M)).
Proof.
  unfold len. f_equal. rewrite <-length_map_to_list, <-(length_fmap fst).
  apply Permutation_length, NoDup_Permutation.
  - apply NoDup_filter, map_keys_NoDup.
  - apply NoDup_fst_map_to_list.
  - intros k. rewrite list_elem_of_filter, map_keys_elem, list_elem_of_fmap. split.
    + intros [[x Hx] _]. exists (k, x). split; [done|]. by apply elem_of_map_to_list.
    + intros ([k' x] & -> & Hx%elem_of_map_to_list). cbn. split; [eauto|].
      destruct (M !! k') eqn:E; [eauto|]. by rewrite live_lookup_None in Hx.
Qed.

(** The temporary MemTable holds the live entries, or the sentinel. *)
Lemma retain_live rnd M :
  ∃ mem, retain (map_keys M) M (new_table DefaultMemTableOptions rnd) 0
      = Ret (mem, Z.of_nat (size (live M))) ∧ represents mem (live M).
Proof.
  destruct (retain_ok (map_keys M) M _ _ 0 (represents_default rnd))
    as (mem & E & Hr).
  - apply Forall_forall. intros k. apply map_keys_elem.
  - apply map_keys_NoDup.
  - exists mem. rewrite E, live_count. rewrite live_fold_all in Hr by apply map_keys_elem. done.
Qed.

(** ** Sizes *)

Lemma data_len_map m C ns :
  represents m C → all_nodes m = Ret ns →
  len (data_bytes ns) = 13 * Z.of_nat (size C) + kv_size C
  ∧ (map_Forall (λ k x, fits k x.1) C → Forall node_fits ns).
Proof.
  intros Hr Hall. destruct (all_nodes_ok m C Hr) as (ns' & Hall' & Hs & HC).
  rewrite Hall in Hall'. injection Hall' as <-.
  assert (NoDup (entry_of_node <$> ns).*1) as Hnd.
  { rewrite <-list_fmap_compose. by apply sorted_nodup. }
  split.
  - rewrite <-HC, kv_size_list by done. rewrite <-length_map_to_list, map_to_list_to_map by done.
    rewrite length_fmap. clear. induction ns as [|n ns IH]; [done|].
    rewrite data_bytes_cons, len_app, len_node_record, IH. cbn. unfold pair_size. cbn. lia.
  - intros Hf. apply Forall_forall. intros n Hn.
    apply (Hf (n_Key n) (n_Value n, n_Tombstone n)). rewrite <-HC.
    apply elem_of_list_to_map_1; [done|]. by apply (list_elem_of_fmap_2 entry_of_node).
Qed.

Section io.
Context {B : Type} `{Bloom B}.

(** Visiting the index of a reader collects the heads of its blocks. *)
Lemma collect_index_ok w (r : SSTableReader B) (bs bs' : list (list Node)) off m :
  (∀ key, SSTGet r key w = Ret ((answer (concat bs) key, None), w)) →
  sorted (concat bs) → Forall (.≠ []) bs' → Forall (λ b, ∀ n, n ∈ b → n ∈ concat bs) bs' →
  collect_index r (block_index off bs') m w = Ret (foldl add_node m (head_nodes bs'), w).
Proof.
  intros Hget Hs. revert off m. induction bs' as [|b bs' IH]; intros off m Hne Hin; [done|].
  apply Forall_cons in Hne as [Hb Hne]. apply Forall_cons in Hin as [Hib Hin].
  destruct b as [|n b]; [done|]. cbn [block_index collect_index].
  change (head_key (n :: b)) with (n_Key n). cbn [ie_Key].
  erewrite bindM_ret by apply Hget. rewrite answer_in by (done || apply Hib; set_solver).
  cbn beta iota. rewrite IH by done. done.
Qed.

(** A reader that serves, with its blocks. *)
Definition serves_blocks (w : world) (r : SSTableReader B) (bs : list (list Node)) : Prop :=
  describes r bs ∧ stores w r (node_record <$> concat bs).

Lemma collect_readers_ok w (rs : list (SSTableReader B)) bss m :
  w_faults w = [] → Forall2 (serves_blocks w) rs bss →
  collect_readers rs m w = Ret (foldl (λ m bs, foldl add_node m (head_nodes bs)) m bss, w).
Proof.
  intros Hw Hrs. revert m. induction Hrs as [|r bs rs bss [Hd Hst] _ IH]; intros m; [done|].
  cbn [collect_readers foldl]. erewrite bindM_ret; [apply IH|].
  rewrite (sv_index _ _ Hd). apply (collect_index_ok w r bs).
  - intros key. apply SSTGet_ok; [|done]. by exists bs.
  - apply (sv_sorted _ _ Hd).
  - apply (sv_nonempty _ _ Hd).
  - apply Forall_forall. intros b Hb n Hn. apply list_elem_of_In, in_concat.
    exists b. by rewrite <-!list_elem_of_In.
Qed.

(** ** Deleting the inputs *)

Lemma Remove_ok w p :
  w_faults w = [] →
  ∃ e w', Remove p w = Ret (e, w') ∧ w_faults w' = [] ∧ lookup_file w' p = None
    ∧ ∀ q, q ≠ p → lookup_file w' q = lookup_file w q.
Proof.
  intros Hw. unfold Remove. erewrite bindM_ret by by apply next_fault_none. cbn beta iota.
  destruct (lookup_file w p) as [f|] eqn:E; [|by exists (Some ErrNotExist), w].
  do 2 eexists. split; [done|]. unfold lookup_file in *. cbn [w_dirs w_faults].
  split_and!; [done| |].
  - rewrite lookup_alter_eq. destruct (w_dirs w !! p.1) as [d|]; [|done]. cbn.
    by rewrite lookup_delete_eq.
  - intros q Hq. rewrite lookup_alter. case_decide as Ed; [|done]. rewrite Ed.
    destruct (w_dirs w !! q.1) as [d|]; [|done]. cbn. rewrite lookup_delete_ne; [done|].
    intros E2. apply Hq. destruct p, q. cbn in *. congruence.
Qed.

Lemma discard_ok w (rs : list (SSTableReader B)) :
  w_faults w = [] →
  ∃ rs' w', discard rs w = Ret (rs', w') ∧ w_faults w' = [] ∧ length rs' = length rs
    ∧ Forall (λ r, lookup_file w' (sr_filename r) = None) rs
    ∧ Forall (λ r, sr_bloom r = None ∧ sr_file r = None) rs'
    ∧ ∀ q, Forall (λ r, sr_filename r ≠ q) rs → lookup_file w' q = lookup_file w q.
Proof.
  revert w. induction rs as [|r rs IH]; intros w Hw; [by exists [], w|]. cbn [discard].
  assert (∃ e, SSTClose r w = Ret ((e, mkSSTableReader None (sr_filename r) (sr_footer r)
                                     (sr_index r) None), w)) as [e Ec].
  { unfold SSTClose. destruct (sr_file r) as [h|]; [|by eexists].
    destruct (h_open h) eqn:Eo.
    - erewrite bindM_ret by (by apply CloseFile_ok). by eexists.
    - unfold CloseFile. rewrite Eo. by eexists. }
  erewrite bindM_ret by exact Ec. cbn beta iota.
  destruct (Remove_ok w (sr_filename r) Hw) as (e1 & w1 & E1 & Hw1 & Hgone & Hoth).
  erewrite bindM_ret by exact E1.
  destruct (IH w1 Hw1) as (rs' & w2 & E2 & Hw2 & Hlen & Hall & Hcl & Hoth2).
  erewrite bindM_ret by exact E2. do 2 eexists. split; [done|].
  split_and!; [done|cbn; lia| |by constructor|].
  - constructor; [|done].
    destruct (decide (Forall (λ r', sr_filename r' ≠ sr_filename r) rs)) as [Hf|Hf].
    + by rewrite Hoth2.
    + apply not_Forall_Exists in Hf; [|apply _]. apply Exists_exists in Hf as (r' & Hr' & Hn).
      apply dec_stable in Hn. rewrite <-Hn. rewrite Forall_forall in Hall. by apply Hall.
  - intros q [Hq Hqs]%Forall_cons. rewrite Hoth2 by done. by apply Hoth.
Qed.

(** ** The result of a compaction *)

Definition sizes_fit (C : kv) : Prop :=
  map_Forall (λ k x, fits k x.1) C ∧ 13 * Z.of_nat (size C) + kv_size C ≤ maxAlloc.

Lemma size_pos_ne M : (live M = ∅ → Z.of_nat (size (live M)) = 0)
  ∧ (live M ≠ ∅ → Z.of_nat (size (live M)) ≠ 0).
Proof.
  split; [by intros ->|]. intros Hne E. apply Hne, map_size_empty_inv. lia.
Qed.

Lemma CompactL0ToL1_ok c rnd (rs : list (SSTableReader B)) bss w p d opts :
  w_faults w = [] → rs ≠ [] → Forall2 (serves_blocks w) rs bss →
  sizes_fit (compacted bss) →
  bl_fits (B:=B) (u64 (Z.of_nat (size (compacted bss)))) (FPRate (norm_options opts)) →
  w_dirs w !! p.1 = Some d → d !! p.2 ≠ Some DDir → Forall (λ r, sr_filename r ≠ p) rs →
  ∃ l1 rs' w', CompactL0ToL1 c rnd rs p opts w = Ret ((inl l1, rs'), w')
    ∧ w_faults w' = [] ∧ Forall (λ r, lookup_file w' (sr_filename r) = None) rs
    ∧ Forall (λ r, sr_bloom r = None ∧ sr_file r = None) rs'
    ∧ ∀ k, SSTGet l1 k w' = Ret ((lookup_answer (compacted bss !! k), None), w').
Proof.
  intros Hw Hrs Hsv [Hfits Hsz] Hbl Hd He Hp. unfold CompactL0ToL1.
  rewrite (proj2 (Z.eqb_neq _ _)) by (unfold len; destruct rs; [done|simpl; lia]).
  erewrite bindM_ret by by apply collect_readers_ok. fold (collected bss).
  set (M := collected bss) in *. cbv zeta. fold (map_keys M).
  destruct (retain_live rnd M) as (mem & Er & Hr).
  erewrite bindM_ret by by apply liftM_ret, NewMemTable_default.
  erewrite bindM_ret by by apply liftM_ret. cbn beta iota.
  assert (∃ mem', (if Z.of_nat (size (live M)) =? 0
     then let* (mem, _) := Put mem sentinel_key sentinel_value in Ret (mem, 1)
     else Ret (mem, Z.of_nat (size (live M)))) = Ret (mem', Z.of_nat (size (compacted bss)))
     ∧ represents mem' (compacted bss)) as (mem' & Em & Hr').
  { unfold compacted. fold M. destruct (size_pos_ne M) as [S0 S1]. case_decide as Ev.
    - rewrite S0 by done. destruct (represents_insert mem _ sentinel_key sentinel_value false Hr)
        as (m1 & E1 & _ & Hr1). exists m1. unfold Put. rewrite E1. rewrite Ev in Hr1.
      split; [done|]. by rewrite insert_empty in Hr1.
    - exists mem. rewrite (proj2 (Z.eqb_neq _ _)) by auto. done. }
  erewrite bindM_ret by by apply liftM_ret. cbn beta iota.
  destruct (all_nodes_ok mem' _ Hr') as (ns & Hall & _).
  destruct (data_len_map mem' _ ns Hr' Hall) as [Hlen Hfit].
  destruct (flush_ok (B:=B) mem' _ w p d (Z.of_nat (size (compacted bss))) opts ns Hr' Hall)
    as (l1 & f & w1 & bs & E1 & _ & _ & _ & Hf & _ & [Hw1 Ht] & _ & Hop); [auto|lia|done..|].
  erewrite bindM_ret by exact E1. cbn beta iota. rewrite Hw in Hw1.
  destruct (discard_ok w1 rs Hw1) as (rs' & w2 & E2 & Hw2 & _ & Hgone & Hcl & Hoth).
  erewrite bindM_ret by exact E2. exists l1, rs', w2. split_and!; [done..|].
  intros k. eapply (Hop w2 f k); [done| |done]. by rewrite Hoth.
Qed.
End io.

(** ** Facts about the collected entries *)

Lemma foldl_add_None (ns : list Node) (m : kv) k :
  m !! k = None → Forall (λ n, n_Key n ≠ k) ns → foldl add_node m ns !! k = None.
Proof.
  revert m. induction ns as [|n ns IH]; intros m Hm Hk; [done|].
  apply Forall_cons in Hk as [Hn Hk]. cbn. apply IH; [|done].
  unfold add_node. by rewrite lookup_insert_ne.
Qed.

(** No reader has [k] in its index. *)
Definition unindexed (k : bytes) (bss : list (list (list Node))) : Prop :=
  Forall (λ bs, Forall (λ n, n_Key n ≠ k) (head_nodes bs)) bss.

Lemma collected_None bss k : unindexed k bss → collected bss !! k = None.
Proof.
  unfold collected. generalize (lookup_empty (M:=gmap bytes) (A:=bytes * bool) k).
  generalize (∅ : kv). intros m Hm Hk. revert m Hm.
  induction Hk as [|bs bss Hbs _ IH]; intros m Hm; [done|]. cbn. apply IH. by apply foldl_add_None.
Qed.

Lemma compacted_None bss k : unindexed k bss → k ≠ sentinel_key → compacted bss !! k = None.
Proof.
  intros Hk Hs. unfold compacted. case_decide; [by rewrite lookup_singleton_ne|].
  by apply live_lookup_None, collected_None.
Qed.

(** The merge of the inputs, newest last. *)
Definition merged (bss : list (list (list Node))) : kv :=
  foldl (λ m bs, foldl add_node m (concat bs)) ∅ bss.

(** Every key has its own index entry. *)
Definition fully_indexed (bss : list (list (list Node))) : Prop :=
  Forall (Forall (λ b, length b = 1%nat)) bss.

Lemma head_nodes_singletons bs : Forall (λ b, length b = 1%nat) bs → head_nodes bs = concat bs.
Proof.
  induction 1 as [|b bs Hb _ IH]; [done|]. destruct b as [|n [|]]; try done. cbn.
  unfold head_nodes in IH. by rewrite IH.
Qed.

Lemma collected_merged bss : fully_indexed bss → collected bss = merged bss.
Proof.
  unfold collected, merged. generalize (∅ : kv). intros m Hb. revert m.
  induction Hb as [|bs bss Hbs _ IH]; intros m; [done|]. cbn.
  by rewrite head_nodes_singletons, IH.
Qed.

(** ** Claims *)

Section claims.
Context (log : double → double).
#[local] Instance lumafly : Bloom LumaflyBloom := lumafly_bloom log.

(** A compaction that can be carried out: the disk works, the inputs serve
    their blocks, the result and its filter can be allocated, and the target is
    neither a directory nor one of the inputs. *)
Record compactable (rs : list (SSTableReader LumaflyBloom)) (bss : list (list (list Node)))
    (w : world) (p : Os.path) (opts : SSTableOptions) : Prop := {
  cp_disk : w_faults w = [];
  cp_some : rs ≠ [];
  cp_serves : Forall2 (serves_blocks w) rs bss;
  cp_sizes : sizes_fit (compacted bss);
  cp_filter : filter_fits log (u64 (Z.of_nat (size (compacted bss)))) (FPRate (norm_options opts));
  cp_dir : ∃ d, w_dirs w !! p.1 = Some d ∧ d !! p.2 ≠ Some DDir;
  cp_target : Forall (λ r, sr_filename r ≠ p) rs }.

Lemma compactable_ok c rnd rs bss w p opts :
  compactable rs bss w p opts →
  ∃ (l1 : SSTableReader LumaflyBloom) rs' w', CompactL0ToL1 c rnd rs p opts w = Ret ((inl l1, rs'), w')
    ∧ w_faults w' = [] ∧ Forall (λ r, lookup_file w' (sr_filename r) = None) rs
    ∧ Forall (λ r, sr_bloom r = None ∧ sr_file r = None) rs'
    ∧ ∀ k, SSTGet l1 k w' = Ret ((lookup_answer (compacted bss !! k), None), w').
Proof. intros [Hw Hn Hs Hz Hf (d & Hd & He) Hp]. by eapply CompactL0ToL1_ok. Qed.

(** C25.  With one index entry per key, compaction is a correct merge: the new
    table answers every lookup with the newest entry among the inputs, a
    deleted key is absent (its tombstone is purged), only an input without live
    entries leaves the sentinel instead, and the input files are gone and
    their readers closed. *)
Theorem compaction_merges_fully_indexed c rnd rs bss w p opts :
  compactable rs bss w p opts → fully_indexed bss → live (merged bss) ≠ ∅ →
  ∃ (l1 : SSTableReader LumaflyBloom) rs' w',
    CompactL0ToL1 c rnd rs p opts w = Ret ((inl l1, rs'), w')
    ∧ Forall (λ r, lookup_file w' (sr_filename r) = None) rs
    ∧ Forall (λ r, sr_bloom r = None ∧ sr_file r = None) rs'
    ∧ ∀ k, SSTGet l1 k w' =
        Ret ((match merged bss !! k with
              | Some (v, false) => (v, false, true)
              | _ => not_found
              end, None), w').
Proof.
  intros Hc Hfull Hlive.
  destruct (compactable_ok c rnd _ _ _ _ _ Hc) as (l1 & rs' & w' & E & _ & Hg & Hcl & Hget).
  exists l1, rs', w'. split_and!; [done..|]. intros k. rewrite Hget. do 3 f_equal.
  unfold compacted. rewrite collected_merged, decide_False by done.
  unfold live. rewrite map_lookup_filter.
  destruct (merged bss !! k) as [[v []]|]; cbn; by try case_guard.
Qed.

(** C35.  Compaction loses every key that is not in a sparse index: such a key,
    even if an input serves it, is not found in the new table, no error is
    reported, and the input files that held it have been deleted.  With the
    default interval that is seven keys of every eight. *)
Theorem compaction_loses_unindexed_keys c rnd rs bss w p opts r bs n :
  compactable rs bss w p opts →
  r ∈ rs → serves_blocks w r bs → n ∈ concat bs →
  unindexed (n_Key n) bss → n_Key n ≠ sentinel_key →
  SSTGet r (n_Key n) w = Ret ((n_Value n, n_Tombstone n, true, None), w) ∧
  ∃ (l1 : SSTableReader LumaflyBloom) rs' w',
    CompactL0ToL1 c rnd rs p opts w = Ret ((inl l1, rs'), w')
    ∧ SSTGet l1 (n_Key n) w' = Ret ((not_found, None), w')
    ∧ Forall (λ r, lookup_file w' (sr_filename r) = None) rs.
Proof.
  intros Hc Hr [Hd Hst] Hn Hu Hs. pose proof (cp_disk _ _ _ _ _ Hc) as Hw. split.
  - rewrite (SSTGet_ok w r (concat bs)); [|by exists bs|done].
    by rewrite answer_in by (done || apply (sv_sorted _ _ Hd)).
  - destruct (compactable_ok c rnd _ _ _ _ _ Hc) as (l1 & rs' & w' & E & _ & Hg & _ & Hget).
    exists l1, rs', w'. split_and!; [done| |done]. by rewrite Hget, compacted_None.
Qed.

End claims.

(** A level-0 table with two entries, one index entry per [iv] keys. *)
Definition node_a : Node := mkNode (str "a") (str "1") false [].
Definition node_b : Node := mkNode (str "b") (str "2") false [].
Definition bloom_ab : LumaflyBloom := mkBloom 64 1 (replicate 8 xff).
Definition reader_ab (iv : Z) : SSTableReader LumaflyBloom :=
  reader_of path1 iv [node_a; node_b] bloom_ab [].
Definition world_ab : world :=
  mkWorld {[ str "db" := {[ str "l0.sst" := DFile (mkFile (data_bytes [node_a; node_b]) 0) ]} ]} [].
Definition l1_path : Os.path := (str "db", str "l1.sst").

Lemma bloom_ab_added : added bloom_ab [str "a"; str "b"].
Proof.
  split; [split; vm_compute; split; congruence|].
  repeat constructor; intros j Hj; cbn in Hj; assert (j = 0) as -> by lia; by vm_compute.
Qed.

Lemma reader_ab_serves iv bs :
  concat bs = [node_a; node_b] → Forall (.≠ []) bs → sr_index (reader_ab iv) = block_index 0 bs →
  serves_blocks (H:=lumafly_bloom log1) world_ab (reader_ab iv) bs.
Proof.
  intros Hc Hne Hidx. split.
  - split; rewrite ?Hc; try done; [repeat constructor..|].
    exists bloom_ab, [str "a"; str "b"]. split_and!; [done|apply bloom_ab_added|].
    repeat constructor.
  - exists (mkHandle path1 0 false true), (mkFile (data_bytes [node_a; node_b]) 0), [].
    by rewrite Hc.
Qed.

Lemma compactable_ab iv bs :
  serves_blocks (H:=lumafly_bloom log1) world_ab (reader_ab iv) bs →
  sizes_fit (compacted [bs]) → (u64 (Z.of_nat (size (compacted [bs]))) <? 2 ^ 32) = true →
  compactable log1 [reader_ab iv] [bs] world_ab l1_path DefaultSSTableOptions.
Proof.
  intros Hs Hz Hn. split.
  - done.
  - done.
  - by constructor.
  - done.
  - split; [apply log1_ok| |done..]. rewrite Hn, andb_true_r. apply Z.leb_le, Z.mod_pos_bound. lia.
  - eexists. split; [reflexivity|]. done.
  - by constructor.
Qed.

Lemma sizes_small (C : kv) :
  bool_decide (map_Forall (λ k x, fits k x.1) C) = true →
  (13 * Z.of_nat (size C) + kv_size C <=? maxAlloc) = true → sizes_fit C.
Proof. intros H1%bool_decide_eq_true H2%Z.leb_le. by split. Qed.

Lemma compaction_merges_fully_indexed_witness :
  ∃ (l1 : SSTableReader LumaflyBloom) rs' w',
    CompactL0ToL1 (H:=lumafly_bloom log1) (NewCompactor (DefaultCompactorOptions (str "db")))
      [] [reader_ab 1] l1_path DefaultSSTableOptions world_ab = Ret ((inl l1, rs'), w')
    ∧ SSTGet (H:=lumafly_bloom log1) l1 (str "b") w' = Ret ((str "2", false, true, None), w').
Proof.
  destruct (compaction_merges_fully_indexed log1
    (NewCompactor (DefaultCompactorOptions (str "db"))) [] [reader_ab 1] [[[node_a]; [node_b]]]
    world_ab l1_path DefaultSSTableOptions) as (l1 & rs' & w' & E & _ & _ & Hget).
  - apply compactable_ab; [apply reader_ab_serves; [done|by repeat constructor|done]| |by vm_compute].
    apply sizes_small; by vm_compute.
  - repeat constructor.
  - intros E%(f_equal (.!! str "a")). vm_compute in E. discriminate E.
  - exists l1, rs', w'. split; [exact E|exact (Hget (str "b"))].
Defined.

Lemma compaction_loses_unindexed_keys_witness :
  SSTGet (H:=lumafly_bloom log1) (reader_ab 8) (str "b") world_ab
    = Ret ((str "2", false, true, None), world_ab) ∧
  ∃ (l1 : SSTableReader LumaflyBloom) rs' w',
    CompactL0ToL1 (H:=lumafly_bloom log1) (NewCompactor (DefaultCompactorOptions (str "db")))
      [] [reader_ab 8] l1_path DefaultSSTableOptions world_ab = Ret ((inl l1, rs'), w')
    ∧ SSTGet (H:=lumafly_bloom log1) l1 (str "b") w' = Ret ((not_found, None), w')
    ∧ Forall (λ r, lookup_file w' (sr_filename r) = None) [reader_ab 8].
Proof.
  assert (serves_blocks (H:=lumafly_bloom log1) world_ab (reader_ab 8) [[node_a; node_b]])
    as Hs by (apply reader_ab_serves; [done|by repeat constructor|done]).
  apply (compaction_loses_unindexed_keys log1
    (NewCompactor (DefaultCompactorOptions (str "db"))) [] [reader_ab 8] [[[node_a; node_b]]]
    world_ab l1_path DefaultSSTableOptions (reader_ab 8) [[node_a; node_b]] node_b).
  - apply compactable_ab; [exact Hs|apply sizes_small; by vm_compute|by vm_compute].
  - by left.
  - exact Hs.
  - right. by left.
  - by repeat constructor.
  - done.
Defined.
