(* ===== verification/RaftNode.v ===== *)
(** * The Radiance Raft node (pkg/consensus/raft_node.go, raft_types.go)

    The state of a node and every handler that changes it, each under the
    node's mutex and therefore atomic.  Indexing the log outside its bounds
    panics.  Three things come from the environment:

    - time: a handler that resets the election timer receives a [clock], the
      current time and the draw of [rnd.Int63n];
    - goroutines: a handler that starts RPCs returns them as a list of
      [rpc]s, and what a goroutine does with the reply is a handler of its own
      ([handle_vote_reply], [handle_append_reply]);
    - the apply channel: [applyCh] is the list of messages sent so far, [None]
      for a nil channel.  Sends do not block here; the capacity of the channel
      and the goroutine that receives are in ApplyChan.

    Terms, indices and deadlines are [int]s and [int64]s that grow by one or by
    bounded amounts; they are kept as [Z], so that what is proved is about runs in
    which none of them reaches [2^63].

    The counter that the goroutines of one election share ([votesReceived]) is
    kept in the node, per term: a node starts at most one election per term. *)

From Stdlib Require Import Strings.String.
From S2P Require Import Prelude GoBytes Flag.

Local Open Scope Z_scope.

(** ** raft_types.go *)

Inductive Role := Follower | Candidate | Leader.

#[global] Instance Role_eq_dec : EqDecision Role.
Proof. solve_decision. Defined.

(** The [int] behind the constants, and [Role.String], which is defined on every
    [int]. *)
Definition Role_iota (r : Role) : Z :=
  match r with Follower => 0 | Candidate => 1 | Leader => 2 end.

Definition Role_String (r : Z) : string :=
  if r =? Role_iota Follower then "Follower"
  else if r =? Role_iota Candidate then "Candidate"
  else if r =? Role_iota Leader then "Leader"
  else "Unknown".

(** The label of a node in log messages. *)
Definition fmtNode (id term : Z) (role : Role) : string :=
  ("[Node " ++ Sprintf_d id ++ " | Term " ++ Sprintf_d term ++ " | " ++ Role_String (Role_iota role) ++ "]")%string.

Example fmtNode_example : fmtNode 3 12 Leader = "[Node 3 | Term 12 | Leader]"%string.
Proof. vm_compute. reflexivity. Qed.

Record RaftLogEntry := mkEntry {
  e_Index : Z;
  e_Term : Z;
  e_Key : bytes;
  e_Value : bytes;
  e_Tombstone : bool }.

Record RequestVoteArgs := mkRequestVoteArgs {
  rv_Term : Z;
  rv_CandidateID : Z;
  rv_LastLogIndex : Z;
  rv_LastLogTerm : Z }.

Record RequestVoteReply := mkRequestVoteReply { rvr_Term : Z; rvr_VoteGranted : bool }.

Record AppendEntriesArgs := mkAppendEntriesArgs {
  ae_Term : Z;
  ae_LeaderID : Z;
  ae_PrevLogIndex : Z;
  ae_PrevLogTerm : Z;
  ae_Entries : list RaftLogEntry;
  ae_LeaderCommit : Z }.

Record AppendEntriesReply := mkAppendEntriesReply { aer_Term : Z; aer_Success : bool }.

Record ApplyMsg := mkApplyMsg {
  CommandValid : bool;
  CommandIndex : Z;
  CommandTerm : Z;
  am_Key : bytes;
  am_Value : bytes;
  am_Tombstone : bool }.

(** The RPCs a handler hands to its goroutines: the peer and the arguments. *)
Inductive rpc :=
| SendRequestVote (peerID : Z) (args : RequestVoteArgs)
| SendAppendEntries (peerID : Z) (args : AppendEntriesArgs).

(** ** raft_node.go *)

Definition Millisecond : Z := 1000000.
Definition HeartbeatInterval : Z := 50 * Millisecond.
Definition MinElectionTimeout : Z := 150 * Millisecond.
Definition MaxElectionTimeout : Z := 300 * Millisecond.

Record RaftNode := mkRaftNode {
  rn_id : Z;
  rn_peers : list Z;
  currentTerm : Z;
  votedFor : Z;
  rn_log : list RaftLogEntry;
  commitIndex : Z;
  lastApplied : Z;
  role : Role;
  nextIndex : gmap Z Z;
  matchIndex : gmap Z Z;
  electionDeadline : Z;
  applyCh : option (list ApplyMsg);
  killed : bool;
  votesReceived : gmap Z Z }.

(** [time.Now()] and the result of [rnd.Int63n(delta)]. *)
Record clock := mkClock { c_now : Z; c_draw : Z }.

Definition set_role (r : RaftNode) (x : Role) : RaftNode :=
  mkRaftNode (rn_id r) (rn_peers r) (currentTerm r) (votedFor r) (rn_log r) (commitIndex r)
    (lastApplied r) x (nextIndex r) (matchIndex r) (electionDeadline r) (applyCh r) (killed r)
    (votesReceived r).
Definition set_vote (r : RaftNode) (term vote : Z) : RaftNode :=
  mkRaftNode (rn_id r) (rn_peers r) term vote (rn_log r) (commitIndex r)
    (lastApplied r) (role r) (nextIndex r) (matchIndex r) (electionDeadline r) (applyCh r)
    (killed r) (votesReceived r).
Definition set_log (r : RaftNode) (l : list RaftLogEntry) : RaftNode :=
  mkRaftNode (rn_id r) (rn_peers r) (currentTerm r) (votedFor r) l (commitIndex r)
    (lastApplied r) (role r) (nextIndex r) (matchIndex r) (electionDeadline r) (applyCh r)
    (killed r) (votesReceived r).
Definition set_commit (r : RaftNode) (c : Z) : RaftNode :=
  mkRaftNode (rn_id r) (rn_peers r) (currentTerm r) (votedFor r) (rn_log r) c
    (lastApplied r) (role r) (nextIndex r) (matchIndex r) (electionDeadline r) (applyCh r)
    (killed r) (votesReceived r).
Definition set_applied (r : RaftNode) (n : Z) (ch : option (list ApplyMsg)) : RaftNode :=
  mkRaftNode (rn_id r) (rn_peers r) (currentTerm r) (votedFor r) (rn_log r) (commitIndex r)
    n (role r) (nextIndex r) (matchIndex r) (electionDeadline r) ch (killed r)
    (votesReceived r).
Definition set_indices (r : RaftNode) (next mtch : gmap Z Z) : RaftNode :=
  mkRaftNode (rn_id r) (rn_peers r) (currentTerm r) (votedFor r) (rn_log r) (commitIndex r)
    (lastApplied r) (role r) next mtch (electionDeadline r) (applyCh r) (killed r)
    (votesReceived r).
Definition set_deadline (r : RaftNode) (d : Z) : RaftNode :=
  mkRaftNode (rn_id r) (rn_peers r) (currentTerm r) (votedFor r) (rn_log r) (commitIndex r)
    (lastApplied r) (role r) (nextIndex r) (matchIndex r) d (applyCh r) (killed r)
    (votesReceived r).
Definition set_votes (r : RaftNode) (v : gmap Z Z) : RaftNode :=
  mkRaftNode (rn_id r) (rn_peers r) (currentTerm r) (votedFor r) (rn_log r) (commitIndex r)
    (lastApplied r) (role r) (nextIndex r) (matchIndex r) (electionDeadline r) (applyCh r)
    (killed r) v.

(** [m[k]] of a [map[int]int]: 0 when absent. *)
Definition get0 (m : gmap Z Z) (k : Z) : Z := default 0 (m !! k).

Definition randomElectionDuration (c : clock) : Z := MinElectionTimeout + c_draw c.

Definition resetElectionTimeout (r : RaftNode) (c : clock) : RaftNode :=
  set_deadline r (c_now c + randomElectionDuration c).

(** NewRaftNode: the dummy entry at index 0 makes the log 1-indexed. *)
Definition NewRaftNode (id : Z) (peers : list Z) (ch : option (list ApplyMsg)) (c : clock)
    : RaftNode :=
  resetElectionTimeout
    (mkRaftNode id peers 0 (-1) [mkEntry 0 0 [] [] false] 0 0 Follower ∅ ∅ 0 ch false ∅) c.

Definition becomeFollower (r : RaftNode) (term : Z) (c : clock) : RaftNode :=
  resetElectionTimeout (set_vote (set_role r Follower) term (-1)) c.

(** One RPC of broadcastHeartbeats: everything from [nextIndex] on. *)
Definition heartbeat_for (r : RaftNode) (peerID : Z) : go rpc :=
  let prevIndex := get0 (nextIndex r) peerID - 1 in
  let prevIndex := if prevIndex <? 0 then 0 else prevIndex in
  let* prev := GoBytes.index (rn_log r) prevIndex in
  let* entries := slice (rn_log r) (prevIndex + 1) (len (rn_log r)) in
  Ret (SendAppendEntries peerID
         (mkAppendEntriesArgs (currentTerm r) (rn_id r) prevIndex (e_Term prev) entries
            (commitIndex r))).

Fixpoint heartbeats (r : RaftNode) (peers : list Z) : go (list rpc) :=
  match peers with
  | [] => Ret []
  | p :: peers =>
      let* m := heartbeat_for r p in
      let* ms := heartbeats r peers in
      Ret (m :: ms)
  end.

Definition broadcastHeartbeats (r : RaftNode) : go (list rpc) :=
  if decide (role r = Leader) then heartbeats r (rn_peers r) else Ret [].

Definition becomeLeader (r : RaftNode) : go (RaftNode * list rpc) :=
  let r := set_role r Leader in
  let r := set_indices r
    (foldl (λ m p, <[p := len (rn_log r)]> m) (nextIndex r) (rn_peers r))
    (foldl (λ m p, <[p := 0]> m) (matchIndex r) (rn_peers r)) in
  let* ms := broadcastHeartbeats r in
  Ret (r, ms).

Definition majorityNeeded (r : RaftNode) : Z := (len (rn_peers r) + 1) / 2 + 1.

Definition startElection (r : RaftNode) : go (RaftNode * list rpc) :=
  let r := set_vote (set_role r Candidate) (currentTerm r + 1) (rn_id r) in
  let term := currentTerm r in
  let lastLogIndex := len (rn_log r) - 1 in
  let* last := GoBytes.index (rn_log r) lastLogIndex in
  let r := set_votes r (<[term := 1]> (votesReceived r)) in
  if majorityNeeded r <=? 1 then becomeLeader r else
  Ret (r, (λ p, SendRequestVote p
                  (mkRequestVoteArgs term (rn_id r) lastLogIndex (e_Term last))) <$> rn_peers r).

(** One tick of runElectionLoop. *)
Definition election_tick (r : RaftNode) (c : clock) : go (RaftNode * list rpc) :=
  if killed r then Ret (r, []) else
  if negb (bool_decide (role r = Leader)) && (electionDeadline r <? c_now c) then
    let* (r, ms) := startElection r in
    Ret (resetElectionTimeout r c, ms)
  else Ret (r, []).

(** One tick of runHeartbeatLoop. *)
Definition heartbeat_tick (r : RaftNode) : go (RaftNode * list rpc) :=
  if killed r || negb (bool_decide (role r = Leader)) then Ret (r, []) else
  let* ms := broadcastHeartbeats r in Ret (r, ms).

(** The goroutine of startElection after its RPC has returned true. *)
Definition handle_vote_reply (r : RaftNode) (term : Z) (reply : RequestVoteReply) (c : clock)
    : go (RaftNode * list rpc) :=
  if bool_decide (role r = Candidate) && (currentTerm r =? term) then
    if currentTerm r <? rvr_Term reply then Ret (becomeFollower r (rvr_Term reply) c, []) else
    if rvr_VoteGranted reply then
      let granted := get0 (votesReceived r) term + 1 in
      let r := set_votes r (<[term := granted]> (votesReceived r)) in
      if (majorityNeeded r <=? granted) && bool_decide (role r = Candidate)
      then becomeLeader r else Ret (r, [])
    else Ret (r, [])
  else Ret (r, []).

(** applyLogs: [k] turns of the loop. *)
Fixpoint apply_loop (k : nat) (r : RaftNode) : go RaftNode :=
  match k with
  | O => Ret r
  | S k =>
      let la := lastApplied r + 1 in
      let* entry := GoBytes.index (rn_log r) la in
      let ch :=
        match applyCh r with
        | Some msgs =>
            if 0 <? e_Index entry then
              Some (msgs ++ [mkApplyMsg true (e_Index entry) (e_Term entry) (e_Key entry)
                               (e_Value entry) (e_Tombstone entry)])
            else Some msgs
        | None => None
        end in
      apply_loop k (set_applied r la ch)
  end.

Definition applyLogs (r : RaftNode) : go RaftNode :=
  apply_loop (Z.to_nat (commitIndex r - lastApplied r)) r.

(** The number of replicas known to hold index [N]. *)
Definition replicas (r : RaftNode) (N : Z) : Z :=
  1 + len (filter (λ p, N ≤ get0 (matchIndex r) p) (rn_peers r)).

(** [for N := len(r.log)-1; N > r.commitIndex; N--]. *)
Fixpoint advance_loop (k : nat) (r : RaftNode) (N : Z) : go RaftNode :=
  match k with
  | O => Ret r
  | S k =>
      let* entry := GoBytes.index (rn_log r) N in
      if negb (e_Term entry =? currentTerm r) then advance_loop k r (N - 1)
      else if majorityNeeded r <=? replicas r N then applyLogs (set_commit r N)
      else advance_loop k r (N - 1)
  end.

Definition checkAdvanceCommitIndex (r : RaftNode) : go RaftNode :=
  let N := len (rn_log r) - 1 in
  advance_loop (Z.to_nat (N - commitIndex r)) r N.

(** The goroutine of broadcastHeartbeats after its RPC has returned true. *)
Definition handle_append_reply (r : RaftNode) (pID : Z) (args : AppendEntriesArgs)
    (reply : AppendEntriesReply) (c : clock) : go RaftNode :=
  if bool_decide (role r = Leader) && (currentTerm r =? ae_Term args) then
    if currentTerm r <? aer_Term reply then Ret (becomeFollower r (aer_Term reply) c) else
    if aer_Success reply then
      let next := ae_PrevLogIndex args + len (ae_Entries args) + 1 in
      checkAdvanceCommitIndex
        (set_indices r (<[pID := next]> (nextIndex r)) (<[pID := next - 1]> (matchIndex r)))
    else if 1 <? get0 (nextIndex r) pID then
      Ret (set_indices r (<[pID := get0 (nextIndex r) pID - 1]> (nextIndex r)) (matchIndex r))
    else Ret r
  else Ret r.

Definition RequestVote (r : RaftNode) (args : RequestVoteArgs) (c : clock)
    : go (RaftNode * RequestVoteReply) :=
  let r := if currentTerm r <? rv_Term args then becomeFollower r (rv_Term args) c else r in
  let term := currentTerm r in
  if rv_Term args <? term then Ret (r, mkRequestVoteReply term false) else
  let lastLogIndex := len (rn_log r) - 1 in
  let* last := GoBytes.index (rn_log r) lastLogIndex in
  let lastLogTerm := e_Term last in
  let logUpToDate :=
    (lastLogTerm <? rv_LastLogTerm args)
    || ((rv_LastLogTerm args =? lastLogTerm) && (lastLogIndex <=? rv_LastLogIndex args)) in
  if ((votedFor r =? -1) || (votedFor r =? rv_CandidateID args)) && logUpToDate then
    Ret (resetElectionTimeout (set_vote r (currentTerm r) (rv_CandidateID args)) c,
         mkRequestVoteReply term true)
  else Ret (r, mkRequestVoteReply term false).

(** The loop of AppendEntries over the new entries. *)
Fixpoint append_loop (log : list RaftLogEntry) (idx : Z) (entries : list RaftLogEntry)
    : go (list RaftLogEntry) :=
  match entries with
  | [] => Ret log
  | entry :: entries =>
      let* log :=
        (if idx <? len log then
           let* old := GoBytes.index log idx in
           if negb (e_Term old =? e_Term entry) then
             let* kept := slice log 0 idx in Ret (kept ++ [entry])
           else Ret log
         else Ret (log ++ [entry])) in
      append_loop log (idx + 1) entries
  end.

Definition AppendEntries (r : RaftNode) (args : AppendEntriesArgs) (c : clock)
    : go (RaftNode * AppendEntriesReply) :=
  let r := if currentTerm r <? ae_Term args then becomeFollower r (ae_Term args) c else r in
  let term := currentTerm r in
  if ae_Term args <? term then Ret (r, mkAppendEntriesReply term false) else
  let r := set_role (resetElectionTimeout r c) Follower in
  if len (rn_log r) <=? ae_PrevLogIndex args then Ret (r, mkAppendEntriesReply term false) else
  let* prev := GoBytes.index (rn_log r) (ae_PrevLogIndex args) in
  if negb (e_Term prev =? ae_PrevLogTerm args) then Ret (r, mkAppendEntriesReply term false) else
  let* log := append_loop (rn_log r) (ae_PrevLogIndex args + 1) (ae_Entries args) in
  let r := set_log r log in
  if commitIndex r <? ae_LeaderCommit args then
    let r := set_commit r
      (if ae_LeaderCommit args <? len log - 1 then ae_LeaderCommit args else len log - 1) in
    let* r := applyLogs r in
    Ret (r, mkAppendEntriesReply term true)
  else Ret (r, mkAppendEntriesReply term true).

Definition Submit (r : RaftNode) (key value : bytes) (tombstone : bool)
    : go (RaftNode * list rpc * (Z * Z * bool)) :=
  if negb (bool_decide (role r = Leader)) then Ret (r, [], (-1, currentTerm r, false)) else
  let index := len (rn_log r) in
  let term := currentTerm r in
  let r := set_log r (rn_log r ++ [mkEntry index term key value tombstone]) in
  let* ms := broadcastHeartbeats r in
  Ret (r, ms, (index, term, true)).

Definition GetState (r : RaftNode) : Z * bool := (currentTerm r, bool_decide (role r = Leader)).

Definition Kill (r : RaftNode) : RaftNode :=
  mkRaftNode (rn_id r) (rn_peers r) (currentTerm r) (votedFor r) (rn_log r) (commitIndex r)
    (lastApplied r) (role r) (nextIndex r) (matchIndex r) (electionDeadline r) (applyCh r) true
    (votesReceived r).
