(* ===== verification/RaftCluster.v ===== *)
(** * A cluster of Raft nodes

    Nodes and the RPCs between them.  Each RPC is a goroutine of its sender
    that calls the transport once and then handles the reply: it is in flight
    first as a call, then, once the target's handler has run, as a finished
    call whose reply has not been handled.  The transport may deliver a call
    late, in any order, or never, and may lose a reply (the goroutine sees
    [false]); it runs the target's handler at most once per call, which is what
    [PeerTransport] offers and [MockNetwork] implements.  Timers fire at any
    time the clock allows. *)

From S2P Require Import Prelude GoBytes RaftNode.

Local Open Scope Z_scope.

Inductive flight :=
| VoteCall (from to : Z) (args : RequestVoteArgs)
| VoteDone (from to : Z) (args : RequestVoteArgs) (reply : RequestVoteReply)
| AppendCall (from to : Z) (args : AppendEntriesArgs)
| AppendDone (from to : Z) (args : AppendEntriesArgs) (reply : AppendEntriesReply).

(** The goroutines a handler of node [from] starts. *)
Definition launch (from : Z) (m : rpc) : flight :=
  match m with
  | SendRequestVote p args => VoteCall from p args
  | SendAppendEntries p args => AppendCall from p args
  end.

Record cluster := mkCluster { c_nodes : gmap Z RaftNode; c_flights : list flight }.

(** Node [i] becomes [r], the goroutines of [ms] are started. *)
Definition update (s : cluster) (i : Z) (r : RaftNode) (ms : list rpc) : cluster :=
  mkCluster (<[i := r]> (c_nodes s)) (c_flights s ++ (launch i <$> ms)).

Definition set_flights (s : cluster) (fs : list flight) : cluster :=
  mkCluster (c_nodes s) fs.

Inductive step (s : cluster) : cluster → Prop :=
| step_election i r c r' ms :
    c_nodes s !! i = Some r → election_tick r c = Ret (r', ms) →
    step s (update s i r' ms)
| step_heartbeat i r r' ms :
    c_nodes s !! i = Some r → heartbeat_tick r = Ret (r', ms) →
    step s (update s i r' ms)
| step_submit i r k v t r' ms res :
    c_nodes s !! i = Some r → Submit r k v t = Ret (r', ms, res) →
    step s (update s i r' ms)
| step_kill i r :
    c_nodes s !! i = Some r → step s (update s i (Kill r) [])
| step_request_vote l1 l2 from to args r c r' reply :
    c_flights s = l1 ++ VoteCall from to args :: l2 →
    c_nodes s !! to = Some r → RequestVote r args c = Ret (r', reply) →
    step s (set_flights (update s to r' []) (l1 ++ VoteDone from to args reply :: l2))
| step_append_entries l1 l2 from to args r c r' reply :
    c_flights s = l1 ++ AppendCall from to args :: l2 →
    c_nodes s !! to = Some r → AppendEntries r args c = Ret (r', reply) →
    step s (set_flights (update s to r' []) (l1 ++ AppendDone from to args reply :: l2))
| step_vote_reply l1 l2 from to args reply r c r' ms :
    c_flights s = l1 ++ VoteDone from to args reply :: l2 →
    c_nodes s !! from = Some r → handle_vote_reply r (rv_Term args) reply c = Ret (r', ms) →
    step s (update (set_flights s (l1 ++ l2)) from r' ms)
| step_append_reply l1 l2 from to args reply r c r' :
    c_flights s = l1 ++ AppendDone from to args reply :: l2 →
    c_nodes s !! from = Some r → handle_append_reply r to args reply c = Ret r' →
    step s (update (set_flights s (l1 ++ l2)) from r' [])
| step_lose l1 l2 f :
    c_flights s = l1 ++ f :: l2 → step s (set_flights s (l1 ++ l2)).

(** The cluster of the node ids [ids]: every node knows all the others. *)
Definition peers_of (ids : list Z) (i : Z) : list Z := filter (.≠ i) ids.

Definition initial (ids : list Z) (clk : Z → clock) : cluster :=
  mkCluster
    (list_to_map ((λ i, (i, NewRaftNode i (peers_of ids i) (Some []) (clk i))) <$> ids)) [].

Inductive reachable (ids : list Z) (clk : Z → clock) : cluster → Prop :=
| reach_init : reachable ids clk (initial ids clk)
| reach_step s s' : reachable ids clk s → step s s' → reachable ids clk s'.

(** Distinct ids, none of which is the "no vote" mark. *)
Definition valid_ids (ids : list Z) : Prop := NoDup ids ∧ Forall (λ i, 0 ≤ i) ids.
