(* ===== verification/RaftInv.v ===== *)
(** * Safety of the Raft cluster

    One invariant of all reachable clusters, with three history variables that
    the proof introduces: who voted for whom in which term, which votes an
    election has counted, and the log of the leader of each term.  From it
    follow election safety, log matching and that leaders only append. *)

From S2P Require Import Prelude GoBytes RaftNode RaftCluster.

Local Open Scope Z_scope.

Record history := mkHistory {
  votes : gmap (Z * Z) Z;                        (* voter, term: candidate *)
  counted : gmap (Z * Z) (gset Z);               (* candidate, term: voters counted *)
  leaders : gmap Z (Z * list RaftLogEntry) }.    (* term: leader, its log *)

Definition dummy : RaftLogEntry := mkEntry 0 0 [] [] false.

(** Every entry of a log, with everything before it, is what the leader of the
    entry's term has at that index. *)
Definition good_log (ls : gmap Z (Z * list RaftLogEntry)) (L : list RaftLogEntry) : Prop :=
  L !! 0%nat = Some dummy ∧
  ∀ k e, (0 < k)%nat → L !! k = Some e →
    e_Index e = Z.of_nat k ∧ 0 < e_Term e ∧
    ∃ j LL, ls !! e_Term e = Some (j, LL) ∧ take (S k) L = take (S k) LL.

(** A set of voters of [i] in [T] that is a majority of the cluster. *)
Definition quorum (ids : list Z) (h : history) (i T : Z) : Prop :=
  ∃ Q : gset Z, (∀ v, v ∈ Q → v ∈ ids ∧ votes h !! (v, T) = Some i)
    ∧ (length ids < 2 * size Q)%nat.

(** More than half of the nodes. *)
Definition majority (ids : list Z) (Q : gset Z) : Prop :=
  (∀ v, v ∈ Q → v ∈ ids) ∧ (length ids < 2 * size Q)%nat.

(** The entries an AppendEntries call carries are a segment of the log of the
    leader that sent it. *)
Definition segment (L : list RaftLogEntry) (args : AppendEntriesArgs) : Prop :=
  0 ≤ ae_PrevLogIndex args ∧
  let p := Z.to_nat (ae_PrevLogIndex args) in
  (∃ e, L !! p = Some e ∧ e_Term e = ae_PrevLogTerm args)
  ∧ ae_Entries args = take (length (ae_Entries args)) (drop (S p) L).

(** The election a vote RPC belongs to, and the peer it asks. *)
Definition vote_key (f : flight) : option (Z * Z * Z) :=
  match f with
  | VoteCall from to args | VoteDone from to args _ => Some (from, rv_Term args, to)
  | _ => None
  end.
Definition append_info (f : flight) : option (Z * Z * AppendEntriesArgs) :=
  match f with
  | AppendCall from to args | AppendDone from to args _ => Some (from, to, args)
  | _ => None
  end.

(** What is always true of a node. *)
Record node_ok (ids : list Z) (h : history) (i : Z) (r : RaftNode) : Prop := {
  no_id : rn_id r = i;
  no_in : i ∈ ids;
  no_peers : rn_peers r = peers_of ids i;
  no_term : 0 ≤ currentTerm r;
  no_votes_old : ∀ T c, votes h !! (i, T) = Some c → T ≤ currentTerm r;
  no_vote : votes h !! (i, currentTerm r) =
              if decide (votedFor r = -1) then None else Some (votedFor r);
  no_counted_old : ∀ T S, counted h !! (i, T) = Some S → T ≤ currentTerm r;
  no_counting : role r = Candidate → 0 < currentTerm r ∧ ∃ S, counted h !! (i, currentTerm r) = Some S
                  ∧ get0 (votesReceived r) (currentTerm r) = Z.of_nat (size S);
  no_leader : role r = Leader → leaders h !! currentTerm r = Some (i, rn_log r);
  no_led : ∀ T L, leaders h !! T = Some (i, L) →
             T ≤ currentTerm r ∧ (currentTerm r = T → role r ≠ Candidate);
  no_log : good_log (leaders h) (rn_log r) }.

(** What is always true of an RPC in flight. *)
Definition flight_ok (ids : list Z) (h : history) (f : flight) : Prop :=
  (∀ from T to, vote_key f = Some (from, T, to) → to ≠ from ∧ to ∈ ids ∧
     ∃ S, counted h !! (from, T) = Some S ∧ to ∉ S)
  ∧ (∀ from to args reply, f = VoteDone from to args reply → rvr_VoteGranted reply = true →
       votes h !! (to, rv_Term args) = Some from)
  ∧ (∀ from to args, f = VoteCall from to args → rv_CandidateID args = from ∧ 0 ≤ from)
  ∧ (∀ from to args, append_info f = Some (from, to, args) → to ≠ from ∧
       ∃ L, leaders h !! ae_Term args = Some (from, L) ∧ segment L args).

Record inv (ids : list Z) (h : history) (s : cluster) : Prop := {
  iv_nodes : ∀ i r, c_nodes s !! i = Some r → node_ok ids h i r;
  iv_counted : ∀ i T S v, counted h !! (i, T) = Some S → v ∈ S →
                 v ∈ ids ∧ votes h !! (v, T) = Some i;
  iv_leaders : ∀ T i L, leaders h !! T = Some (i, L) →
                 0 < T ∧ quorum ids h i T ∧ good_log (leaders h) L;
  iv_flights : Forall (flight_ok ids h) (c_flights s);
  iv_keys : NoDup (omap vote_key (c_flights s)) }.

(** ** Growing the history *)

Definition h_vote (h : history) (i T c : Z) : history :=
  mkHistory (<[(i, T) := c]> (votes h)) (counted h) (leaders h).
Definition h_count (h : history) (i T : Z) (S : gset Z) : history :=
  mkHistory (votes h) (<[(i, T) := S]> (counted h)) (leaders h).
Definition h_lead (h : history) (T i : Z) (L : list RaftLogEntry) : history :=
  mkHistory (votes h) (counted h) (<[T := (i, L)]> (leaders h)).

Lemma take_app_long {A} (n : nat) (l k : list A) : (n ≤ length l)%nat → take n (l ++ k) = take n l.
Proof. intros. by rewrite take_app_le. Qed.

Section history.
Context (ids : list Z) (h : history).

Lemma node_ok_vote_other i T c j r :
  j ≠ i → node_ok ids h j r → node_ok ids (h_vote h i T c) j r.
Proof.
  intros Hne []. split; try done; cbn.
  - intros T' c'. rewrite lookup_insert_ne by congruence. apply no_votes_old0.
  - by rewrite lookup_insert_ne by congruence.
Qed.

Lemma quorum_vote i T c j T' :
  votes h !! (i, T) = None → quorum ids h j T' → quorum ids (h_vote h i T c) j T'.
Proof.
  intros Hf (Q & HQ & Hs). exists Q. split; [|done]. intros v Hv. destruct (HQ v Hv) as [? Hvote].
  split; [done|]. cbn. rewrite lookup_insert_ne; [done|]. congruence.
Qed.

Lemma flight_ok_vote i T c f :
  votes h !! (i, T) = None → flight_ok ids h f → flight_ok ids (h_vote h i T c) f.
Proof.
  intros Hf (H1 & H2 & H3 & H4). split_and!; try done. intros from to args reply E Hg.
  specialize (H2 _ _ _ _ E Hg). cbn. rewrite lookup_insert_ne; [done|]. congruence.
Qed.

(** Recording the vote of a node that has not voted in its term. *)
Lemma inv_vote s i r c :
  inv ids h s → c_nodes s !! i = Some r → votes h !! (i, currentTerm r) = None →
  node_ok ids (h_vote h i (currentTerm r) c) i (set_vote r (currentTerm r) c) →
  inv ids (h_vote h i (currentTerm r) c)
    (mkCluster (<[i := set_vote r (currentTerm r) c]> (c_nodes s)) (c_flights s)).
Proof.
  intros [Hn Hc Hl Hf Hk] Hi Hfr Hok. split; cbn; try done.
  - intros j r'. destruct (decide (j = i)) as [->|Hne].
    + rewrite lookup_insert_eq. by intros [= <-].
    + rewrite lookup_insert_ne by done. intros Hj. by apply node_ok_vote_other, Hn.
  - intros j T S v HS Hv. destruct (Hc j T S v HS Hv) as [? Hvote]. split; [done|].
    rewrite lookup_insert_ne; [done|]. congruence.
  - intros T j L HL. destruct (Hl T j L HL) as (? & ? & ?). split_and!; [done| |done].
    by apply quorum_vote.
  - eapply Forall_impl; [exact Hf|]. intros f. by apply flight_ok_vote.
Qed.

(** Changing a node without changing the history. *)
Lemma inv_node s i r' :
  inv ids h s → node_ok ids h i r' →
  inv ids h (mkCluster (<[i := r']> (c_nodes s)) (c_flights s)).
Proof.
  intros [Hn Hc Hl Hf Hk] Hok. split; cbn; try done. intros j r.
  destruct (decide (j = i)) as [->|Hne].
  - rewrite lookup_insert_eq. by intros [= <-].
  - rewrite lookup_insert_ne by done. apply Hn.
Qed.

(** A node whose term, vote, log and counters are unchanged, and whose role is
    unchanged or is now follower. *)
Definition same_core (r r' : RaftNode) : Prop :=
  rn_id r' = rn_id r ∧ rn_peers r' = rn_peers r ∧ currentTerm r' = currentTerm r
  ∧ votedFor r' = votedFor r ∧ rn_log r' = rn_log r ∧ votesReceived r' = votesReceived r
  ∧ (role r' = role r ∨ role r' = Follower).

Lemma node_ok_core i r r' : same_core r r' → node_ok ids h i r → node_ok ids h i r'.
Proof.
  intros (E1 & E2 & E3 & E4 & E5 & E6 & E7) []. split; rewrite ?E1, ?E2, ?E3, ?E4, ?E5, ?E6; try done.
  - intros Hr. apply no_counting0. destruct E7; congruence.
  - intros Hr. apply no_leader0. destruct E7; congruence.
  - intros T L HL. destruct (no_led0 T L HL) as [? Hc]. split; [done|]. intros E.
    specialize (Hc E). destruct E7; congruence.
Qed.

(** Stepping down to a newer term. *)
Lemma node_ok_stepdown i r T c :
  currentTerm r < T → node_ok ids h i r → node_ok ids h i (becomeFollower r T c).
Proof.
  intros HT []. split; cbn; try done; try lia.
  - intros T' c' Hv. specialize (no_votes_old0 _ _ Hv). lia.
  - destruct (votes h !! (i, T)) eqn:E; [|done]. specialize (no_votes_old0 _ _ E). lia.
  - intros T' S HS. specialize (no_counted_old0 _ _ HS). lia.
  - intros T' L HL. destruct (no_led0 T' L HL). split; [lia|]. by intros.
Qed.

(** ** Flights *)

Lemma inv_set_flights s fs :
  inv ids h s → Forall (flight_ok ids h) fs → NoDup (omap vote_key fs) →
  inv ids h (set_flights s fs).
Proof. intros []. by split. Qed.

(** Replacing a flight by one of the same election and peer. *)
Lemma inv_replace s l1 l2 f f' :
  inv ids h s → c_flights s = l1 ++ f :: l2 → vote_key f' = vote_key f → flight_ok ids h f' →
  inv ids h (set_flights s (l1 ++ f' :: l2)).
Proof.
  intros Hi E Hk Hf. apply inv_set_flights; [done| |].
  - pose proof (iv_flights _ _ _ Hi) as Ha. rewrite E, Forall_app, Forall_cons in Ha.
    rewrite Forall_app, Forall_cons. naive_solver.
  - pose proof (iv_keys _ _ _ Hi) as Hn. rewrite E, omap_app in Hn. rewrite omap_app.
    cbn in *. by rewrite Hk.
Qed.

Lemma inv_remove s l1 l2 f :
  inv ids h s → c_flights s = l1 ++ f :: l2 → inv ids h (set_flights s (l1 ++ l2)).
Proof.
  intros Hi E. apply inv_set_flights; [done| |].
  - pose proof (iv_flights _ _ _ Hi) as Ha. rewrite E, Forall_app, Forall_cons in Ha.
    rewrite Forall_app. naive_solver.
  - pose proof (iv_keys _ _ _ Hi) as Hn. rewrite E, omap_app in Hn. rewrite omap_app. cbn in Hn.
    destruct (vote_key f); [|done]. by apply NoDup_app in Hn as (? & Hd & [_ ?]%NoDup_cons);
      apply NoDup_app; set_solver.
Qed.

(** Starting RPCs that are not vote requests. *)
Lemma inv_launch s i ms :
  inv ids h s → Forall (λ m, flight_ok ids h (launch i m)) ms →
  Forall (λ m, vote_key (launch i m) = None) ms →
  inv ids h (set_flights s (c_flights s ++ (launch i <$> ms))).
Proof.
  intros Hi Hok Hnv. apply inv_set_flights; [done| |].
  - apply Forall_app. split; [apply (iv_flights _ _ _ Hi)|]. by rewrite Forall_fmap.
  - rewrite omap_app. replace (omap vote_key (launch i <$> ms)) with ([] : list (Z * Z * Z)).
    + rewrite app_nil_r. apply (iv_keys _ _ _ Hi).
    + clear Hok. induction Hnv as [|m ms Hm _ IH]; [done|]. cbn. rewrite Hm. done.
Qed.
End history.

(** ** Elections *)

Section election.
Context (ids : list Z) (Hids : valid_ids ids).

Lemma peers_length i : i ∈ ids → length ids = S (length (peers_of ids i)).
Proof using Hids.
  destruct Hids as [Hnd _]. unfold peers_of. clear Hids.
  induction Hnd as [|j l Hj Hnd IH]; [set_solver|]. intros [->|Hi]%elem_of_cons.
  - rewrite filter_cons, decide_False by (intros H; by apply H). cbn. f_equal.
    rewrite filter_all; [done|]. apply Forall_forall. intros x Hx ->. done.
  - rewrite filter_cons, decide_True by (intros ->; done). cbn. by rewrite IH.
Qed.

Lemma peers_elem i p : p ∈ peers_of ids i ↔ p ≠ i ∧ p ∈ ids.
Proof. unfold peers_of. by rewrite list_elem_of_filter. Qed.

(** Two majorities share a node. *)
Lemma majority_meet (Q1 Q2 : gset Z) :
  majority ids Q1 → majority ids Q2 → ∃ v, v ∈ Q1 ∧ v ∈ Q2.
Proof using Hids.
  intros [H1 S1] [H2 S2]. destruct (decide (Q1 ∩ Q2 = ∅)) as [E|Hne].
  - exfalso. assert (size (Q1 ∪ Q2) ≤ length ids)%nat as Hle.
    { assert (length ids = size (list_to_set ids : gset Z)) as ->.
      { rewrite size_list_to_set; [done|apply Hids]. }
      apply subseteq_size. intros v [Hv|Hv]%elem_of_union; apply elem_of_list_to_set;
        [by apply H1|by apply H2]. }
    rewrite size_union in Hle by set_solver. lia.
  - apply set_choose_L in Hne as [v [Hv1 Hv2]%elem_of_intersection]. eauto.
Qed.

Lemma quorum_majority h i T :
  quorum ids h i T → ∃ Q, majority ids Q ∧ ∀ v, v ∈ Q → votes h !! (v, T) = Some i.
Proof. intros (Q & HQ & Hs). exists Q. split; [split; [|done]|]; intros v Hv; by apply HQ. Qed.

(** A voter votes once per term. *)
Lemma quorum_agree h i j T : quorum ids h i T → quorum ids h j T → i = j.
Proof using Hids.
  intros (Q1 & M1 & V1)%quorum_majority (Q2 & M2 & V2)%quorum_majority.
  destruct (majority_meet Q1 Q2 M1 M2) as (v & Hv1 & Hv2).
  specialize (V1 v Hv1). specialize (V2 v Hv2). congruence.
Qed.

Lemma node_ok_count_other h i T S j r :
  j ≠ i → node_ok ids h j r → node_ok ids (h_count h i T S) j r.
Proof.
  intros Hne []. split; try done; cbn.
  - intros T' S'. rewrite lookup_insert_ne by congruence. apply no_counted_old0.
  - by rewrite lookup_insert_ne by congruence.
Qed.

(** Counting a granted vote. *)
Lemma inv_count h s l1 l2 i r to args reply S :
  inv ids h s → c_nodes s !! i = Some r → role r = Candidate →
  c_flights s = l1 ++ VoteDone i to args reply :: l2 → rvr_VoteGranted reply = true →
  rv_Term args = currentTerm r → counted h !! (i, currentTerm r) = Some S →
  get0 (votesReceived r) (currentTerm r) = Z.of_nat (size S) →
  let r' := set_votes r (<[currentTerm r := Z.of_nat (size S) + 1]> (votesReceived r)) in
  inv ids (h_count h i (currentTerm r) ({[to]} ∪ S))
    (mkCluster (<[i := r']> (c_nodes s)) (l1 ++ l2))
  ∧ Z.of_nat (size ({[to]} ∪ S)) = Z.of_nat (size S) + 1.
Proof using Hids.
  intros Hi Hr Hrole Hfl Hg HT HS Hcnt r'.
  pose proof (iv_flights _ _ _ Hi) as Hfs. rewrite Hfl in Hfs.
  apply Forall_app in Hfs as [Hf1 [(Hkey & Hvote & _) Hf2]%Forall_cons].
  destruct (Hkey i (currentTerm r) to) as (Hne & Hin & S' & HS' & Hto); [by cbn; rewrite HT|].
  rewrite HS in HS'. injection HS' as <-. specialize (Hvote _ _ _ _ eq_refl Hg). rewrite HT in Hvote.
  assert (size ({[to]} ∪ S) = 1 + size S)%nat as Hsize
    by (rewrite size_union, size_singleton by set_solver; done).
  split; [|lia]. pose proof (iv_keys _ _ _ Hi) as Hnd. rewrite Hfl, omap_app in Hnd. cbn in Hnd.
  rewrite HT in Hnd.
  assert (NoDup (omap vote_key (l1 ++ l2)) ∧ (i, currentTerm r, to) ∉ omap vote_key (l1 ++ l2))
    as [Hnd' Hnot].
  { rewrite omap_app. apply NoDup_app in Hnd as (N1 & Hd & [Hx N2]%NoDup_cons).
    split; [apply NoDup_app; set_solver|]. set_solver. }
  destruct (inv_remove ids h s l1 l2 _ Hi Hfl) as [Hn Hc Hl Hf _].
  split; cbn; try done.
  - intros j rj. destruct (decide (j = i)) as [->|Hji].
    + rewrite lookup_insert_eq. intros [= <-]. destruct (Hn i r Hr). split; cbn; try done.
      * intros T' S' [[[= <-] _]|[_ HS']]%lookup_insert_Some; [lia|by eapply no_counted_old0].
      * intros _. split; [by apply no_counting0|].
        exists ({[to]} ∪ S). rewrite lookup_insert_eq. split; [done|].
        unfold get0. rewrite lookup_insert_eq. cbn. lia.
    + rewrite lookup_insert_ne by done. intros Hj. by apply node_ok_count_other, Hn.
  - intros j T S' v [[[= <- <-] <-]|[_ HS']]%lookup_insert_Some; [|by apply Hc].
    intros [->%elem_of_singleton|Hv]%elem_of_union; [done|].
    by apply (Hc i (currentTerm r) S).
  - apply Forall_forall. intros f Hf'. rewrite Forall_forall in Hf.
    destruct (Hf f Hf') as (K1 & K2 & K3 & K4). split_and!; try done.
    intros from T to' Ek. destruct (K1 _ _ _ Ek) as (? & ? & S' & HS' & Hto').
    split_and!; [done..|]. cbn. rewrite lookup_insert. case_decide as E; [|eauto].
    injection E as <- <-. rewrite HS in HS'. injection HS' as <-.
    eexists. split; [done|]. intros [->%elem_of_singleton|?]%elem_of_union; [|done].
    apply Hnot. apply list_elem_of_omap. eauto.
Qed.

Lemma vote_calls_keys i args (l : list Z) :
  omap vote_key ((λ p, VoteCall i p args) <$> l) = (λ p, (i, rv_Term args, p)) <$> l.
Proof.
  induction l as [|p l IH]; [done|]. rewrite !fmap_cons. change (omap vote_key (?x :: ?k)) with
    (match vote_key x with Some y => y :: omap vote_key k | None => omap vote_key k end).
  cbn [vote_key]. by rewrite IH.
Qed.

(** Becoming a candidate in the next term. *)
Lemma inv_candidate h s i r args r' :
  inv ids h s → c_nodes s !! i = Some r →
  let T := currentTerm r + 1 in
  rv_Term args = T → rv_CandidateID args = i →
  rn_id r' = rn_id r → rn_peers r' = rn_peers r → currentTerm r' = T → votedFor r' = i →
  rn_log r' = rn_log r → role r' = Candidate → get0 (votesReceived r') T = 1 →
  inv ids (h_count (h_vote h i T i) i T {[i]})
    (mkCluster (<[i := r']> (c_nodes s))
       (c_flights s ++ ((λ p, VoteCall i p args) <$> peers_of ids i))).
Proof using Hids.
  intros Hi Hr T HT Hcand E1 E2 E3 E4 E5 E6 E7.
  destruct Hi as [Hn Hc Hl Hf Hk]. pose proof (Hn i r Hr) as Hnode. destruct Hnode.
  assert (0 ≤ i) as Hi0.
  { destruct Hids as [_ Hpos]. rewrite Forall_forall in Hpos. by apply Hpos. }
  assert (votes h !! (i, T) = None) as Hfresh.
  { destruct (votes h !! (i, T)) eqn:E; [|done]. specialize (no_votes_old0 _ _ E). lia. }
  assert (counted h !! (i, T) = None) as Hfreshc.
  { destruct (counted h !! (i, T)) eqn:E; [|done]. specialize (no_counted_old0 _ _ E). lia. }
  split; cbn.
  - intros j rj. destruct (decide (j = i)) as [->|Hji].
    + rewrite lookup_insert_eq. intros [= <-].
      split; cbn; rewrite ?E1, ?E2, ?E3, ?E4, ?E5; try done; try lia.
      * intros T' c' [[[= <-] _]|[_ Hv]]%lookup_insert_Some; [lia|]. specialize (no_votes_old0 _ _ Hv). lia.
      * rewrite lookup_insert_eq. by rewrite decide_False by lia.
      * intros T' S' [[[= <-] _]|[_ HS]]%lookup_insert_Some; [lia|]. specialize (no_counted_old0 _ _ HS). lia.
      * intros _. split; [lia|]. exists {[i]}. rewrite lookup_insert_eq. split; [done|]. by rewrite size_singleton.
      * congruence.
      * intros T' L HL. destruct (no_led0 T' L HL). split; lia.
    + rewrite lookup_insert_ne by done. intros Hj.
      by apply node_ok_count_other, node_ok_vote_other, Hn.
  - intros j T' S' v [[[= <- <-] <-]|[Hne HS]]%lookup_insert_Some.
    + intros ->%elem_of_singleton. by rewrite lookup_insert_eq.
    + intros Hv. destruct (Hc j T' S' v HS Hv) as [? Hvote]. split; [done|].
      rewrite lookup_insert_ne; [done|]. congruence.
  - intros T' j L HL. destruct (Hl T' j L HL) as (? & ? & ?). split_and!; [done| |done].
    by apply (quorum_vote ids h i T i j T').
  - apply Forall_app. split.
    + eapply Forall_impl; [exact Hf|]. intros f Hok.
      apply (flight_ok_vote ids h i T i f Hfresh) in Hok as (K1 & K2 & K3 & K4).
      split_and!; try done. intros from T' to Ek. destruct (K1 _ _ _ Ek) as (? & ? & S' & HS' & ?).
      split_and!; [done..|]. exists S'. cbn in *. rewrite lookup_insert_ne; [done|]. congruence.
    + apply Forall_fmap, Forall_forall. intros p Hp%peers_elem. split_and!; cbn; try done.
      * intros from T' to [= <- <- <-]. split_and!; [apply Hp..|]. exists {[i]}.
        rewrite HT, lookup_insert_eq. split; [done|]. set_solver.
      * intros from to args' [= <- <- <-]. done.
  - rewrite omap_app. apply NoDup_app. split_and!; [done| |].
    + intros [[from T'] to] Hin Hin2.
      apply list_elem_of_omap in Hin as (f & Hf1 & Ek).
      apply list_elem_of_omap in Hin2 as (f2 & Hf2 & Ek2).
      apply list_elem_of_fmap in Hf2 as (p & -> & _). injection Ek2 as <- <- <-.
      rewrite Forall_forall in Hf. destruct (Hf f Hf1) as (K1 & _).
      destruct (K1 _ _ _ Ek) as (_ & _ & S' & HS' & _). rewrite HT in HS'. congruence.
    + rewrite vote_calls_keys. apply NoDup_fmap_2; [by intros ?? [=]|]. apply NoDup_filter, Hids.
Qed.
End election.

(** ** Logs *)

(** The leader logs only grew. *)
Definition leaders_ext (ls ls' : gmap Z (Z * list RaftLogEntry)) : Prop :=
  ∀ T j L, ls !! T = Some (j, L) → ∃ L', ls' !! T = Some (j, L ++ L').

Lemma good_log_ext ls ls' L : leaders_ext ls ls' → good_log ls L → good_log ls' L.
Proof.
  intros He [H0 Hk]. split; [done|]. intros k e Hp Hl. destruct (Hk k e Hp Hl) as (? & ? & j & LL & Hj & Ht).
  split_and!; [done..|]. destruct (He _ _ _ Hj) as [L' Hj']. exists j, (LL ++ L'). split; [done|].
  rewrite Ht. symmetry. apply take_app_long. apply lookup_lt_Some in Hl.
  apply (f_equal length) in Ht. rewrite !length_take in Ht. lia.
Qed.

Lemma segment_app L L' args : segment L args → segment (L ++ L') args.
Proof.
  intros (Hp & (e & He & Ht) & Hs). split; [done|]. cbv zeta in *. split.
  - exists e. split; [|done]. by apply lookup_app_l_Some.
  - pose proof (lookup_lt_Some _ _ _ He) as Hlt.
    rewrite Hs at 1. rewrite drop_app_le by lia.
    assert (length (ae_Entries args) ≤ length (drop (S (Z.to_nat (ae_PrevLogIndex args))) L))%nat as Hn.
    { apply (f_equal length) in Hs. rewrite length_take in Hs. lia. }
    by rewrite take_app_long.
Qed.

Lemma flight_ok_ext ids h T i L f :
  leaders_ext (leaders h) (<[T := (i, L)]> (leaders h)) →
  flight_ok ids h f → flight_ok ids (h_lead h T i L) f.
Proof.
  intros He (H1 & H2 & H3 & H4). split_and!; try done. intros from to args E.
  destruct (H4 _ _ _ E) as (Hne & LL & HL & Hs). split; [done|].
  destruct (He _ _ _ HL) as [L' HL']. exists (LL ++ L'). split; [done|]. by apply segment_app.
Qed.

Lemma node_ok_lead_other ids h T i L j r :
  leaders_ext (leaders h) (<[T := (i, L)]> (leaders h)) → j ≠ i →
  (∀ L0, leaders h !! T ≠ Some (j, L0)) →
  node_ok ids h j r → node_ok ids (h_lead h T i L) j r.
Proof.
  intros He Hne Hno []. split; try done; cbn.
  - intros Hr. specialize (no_leader0 Hr). rewrite lookup_insert_ne; [done|].
    intros ->. by apply Hno in no_leader0.
  - intros T' L' [[_ [= E]]|[_ HL]]%lookup_insert_Some; [done|by eapply no_led0].
  - by eapply good_log_ext.
Qed.

Section logs.
Context (ids : list Z) (Hids : valid_ids ids).

(** Changing node [i] and the leader log of [T] together. *)
Lemma inv_lead h s i r T L :
  inv ids h s → 0 < T → quorum ids h i T →
  leaders_ext (leaders h) (<[T := (i, L)]> (leaders h)) →
  good_log (<[T := (i, L)]> (leaders h)) L →
  (∀ j L0, j ≠ i → leaders h !! T ≠ Some (j, L0)) →
  node_ok ids (h_lead h T i L) i r →
  inv ids (h_lead h T i L) (mkCluster (<[i := r]> (c_nodes s)) (c_flights s)).
Proof.
  intros [Hn Hc Hl Hf Hk] HT Hq He Hg Hoth Hok. split; cbn; try done.
  - intros j rj. destruct (decide (j = i)) as [->|Hne].
    + rewrite lookup_insert_eq. by intros [= <-].
    + rewrite lookup_insert_ne by done. intros Hj.
      apply node_ok_lead_other; [done|done|by intros L0; apply Hoth|by apply Hn].
  - intros T' j L' [[<- [= <- <-]]|[_ HL]]%lookup_insert_Some; [done|].
    destruct (Hl _ _ _ HL) as (? & ? & ?). split_and!; [done..|]. by eapply good_log_ext.
  - eapply Forall_impl; [exact Hf|]. intros f. by apply flight_ok_ext.
Qed.

(** A candidate with a majority of counted votes leads a term nobody led. *)
Lemma fresh_leader h s i r S :
  inv ids h s → c_nodes s !! i = Some r → role r = Candidate →
  counted h !! (i, currentTerm r) = Some S → majorityNeeded r ≤ Z.of_nat (size S) →
  quorum ids h i (currentTerm r) ∧ leaders h !! currentTerm r = None.
Proof using Hids.
  intros Hi Hr Hrole HS Hmaj. destruct (iv_nodes _ _ _ Hi i r Hr).
  assert (quorum ids h i (currentTerm r)) as Hq.
  { exists S. split; [intros v; by apply (iv_counted _ _ _ Hi)|].
    unfold majorityNeeded, len in Hmaj. rewrite no_peers0 in Hmaj.
    pose proof (peers_length ids Hids i no_in0) as Hlen.
    pose proof (Z.div_mod (Z.of_nat (length (peers_of ids i)) + 1) 2).
    pose proof (Z.mod_pos_bound (Z.of_nat (length (peers_of ids i)) + 1) 2). lia. }
  split; [done|]. destruct (leaders h !! currentTerm r) as [[j L]|] eqn:E; [|done]. exfalso.
  destruct (iv_leaders _ _ _ Hi _ _ _ E) as (_ & Hq' & _).
  assert (j = i) as -> by by eapply quorum_agree.
  by destruct (no_led0 _ _ E) as [_ []].
Qed.

Lemma leaders_ext_fresh (ls : gmap Z (Z * list RaftLogEntry)) T i L :
  ls !! T = None → leaders_ext ls (<[T := (i, L)]> ls).
Proof.
  intros Hf T' j L' HL. exists []. rewrite app_nil_r, lookup_insert_ne; [done|]. congruence.
Qed.

Lemma leaders_ext_app (ls : gmap Z (Z * list RaftLogEntry)) T i L L' :
  ls !! T = Some (i, L) → leaders_ext ls (<[T := (i, L ++ L')]> ls).
Proof.
  intros HT T' j L0 HL. destruct (decide (T' = T)) as [->|Hne].
  - rewrite HT in HL. injection HL as <- <-. exists L'. by rewrite lookup_insert_eq.
  - exists []. by rewrite app_nil_r, lookup_insert_ne.
Qed.

(** Winning the election. *)
Lemma inv_become_leader h s i r S r' :
  inv ids h s → c_nodes s !! i = Some r → role r = Candidate →
  counted h !! (i, currentTerm r) = Some S → majorityNeeded r ≤ Z.of_nat (size S) →
  0 < currentTerm r →
  rn_id r' = rn_id r → rn_peers r' = rn_peers r → currentTerm r' = currentTerm r →
  votedFor r' = votedFor r → rn_log r' = rn_log r → role r' = Leader →
  inv ids (h_lead h (currentTerm r) i (rn_log r))
    (mkCluster (<[i := r']> (c_nodes s)) (c_flights s)).
Proof using Hids.
  intros Hi Hr Hrole HS Hmaj HT E1 E2 E3 E4 E5 E6.
  destruct (fresh_leader h s i r S Hi Hr Hrole HS Hmaj) as [Hq Hfresh].
  destruct (iv_nodes _ _ _ Hi i r Hr).
  pose proof (leaders_ext_fresh (leaders h) (currentTerm r) i (rn_log r) Hfresh) as He.
  apply inv_lead; try done.
  - by eapply good_log_ext.
  - intros j L0 _. congruence.
  - split; cbn; rewrite ?E1, ?E2, ?E3, ?E4, ?E5; try done.
    + congruence.
    + intros _. by rewrite lookup_insert_eq.
    + intros T' L' [[<- _]|[_ HL]]%lookup_insert_Some; [split; [lia|congruence]|].
      destruct (no_led0 _ _ HL). split; [done|]. congruence.
    + by eapply good_log_ext.
Qed.

(** A leader appends an entry of its own term. *)
Lemma inv_leader_append h s i r e :
  inv ids h s → c_nodes s !! i = Some r → role r = Leader →
  e_Index e = len (rn_log r) → e_Term e = currentTerm r →
  inv ids (h_lead h (currentTerm r) i (rn_log r ++ [e]))
    (mkCluster (<[i := set_log r (rn_log r ++ [e])]> (c_nodes s)) (c_flights s)).
Proof using Hids.
  intros Hi Hr Hrole Hidx Hterm. destruct (iv_nodes _ _ _ Hi i r Hr).
  specialize (no_leader0 Hrole). destruct (iv_leaders _ _ _ Hi _ _ _ no_leader0) as (HT & Hq & _).
  pose proof (leaders_ext_app _ _ _ _ [e] no_leader0) as He.
  assert (good_log (<[currentTerm r := (i, rn_log r ++ [e])]> (leaders h)) (rn_log r ++ [e])) as Hg.
  { destruct (good_log_ext _ _ _ He no_log0) as [H0 Hk]. split; [by apply lookup_app_l_Some|].
    intros k x Hpos Hx. destruct (decide (k < length (rn_log r))%nat) as [Hlt|Hge].
    - rewrite lookup_app_l in Hx by done. destruct (Hk k x Hpos Hx) as (? & ? & j & LL & Hj & Ht).
      split_and!; [done..|]. exists j, LL. split; [done|]. by rewrite take_app_long.
    - assert (k = length (rn_log r)) as ->.
      { apply lookup_lt_Some in Hx. rewrite length_app in Hx. cbn in Hx. lia. }
      rewrite list_lookup_middle in Hx by done. injection Hx as <-. rewrite Hterm.
      split_and!; [done|done|]. exists i, (rn_log r ++ [e]). by rewrite lookup_insert_eq. }
  apply inv_lead; try done.
  - intros j L0 Hne E. congruence.
  - split; cbn; try done.
    + intros _. by rewrite lookup_insert_eq.
    + intros T' L' [[<- _]|[_ HL]]%lookup_insert_Some; [split; [lia|congruence]|].
      by eapply no_led0.
Qed.
End logs.

(** How the history grows in a step of node [i] that ends as [r']: the node may
    record its vote of its new term and, as a leader, its log. *)
Record grows (h h' : history) (i : Z) (r' : RaftNode) : Prop := {
  gr_votes : ∀ k c, votes h !! k = Some c → votes h' !! k = Some c;
  gr_votes_new : ∀ v T c, votes h' !! (v, T) = Some c →
    votes h !! (v, T) = Some c ∨ (v = i ∧ T = currentTerm r' ∧ c = votedFor r');
  gr_leaders : leaders_ext (leaders h) (leaders h');
  gr_leaders_new : ∀ T j L, leaders h' !! T = Some (j, L) →
    leaders h !! T = Some (j, L)
    ∨ (j = i ∧ T = currentTerm r' ∧ role r' = Leader ∧ L = rn_log r') }.

Lemma leaders_ext_refl ls : leaders_ext ls ls.
Proof. intros T j L HL. exists []. by rewrite app_nil_r. Qed.

Lemma leaders_ext_trans ls1 ls2 ls3 :
  leaders_ext ls1 ls2 → leaders_ext ls2 ls3 → leaders_ext ls1 ls3.
Proof.
  intros H1 H2 T j L HL. destruct (H1 _ _ _ HL) as [L1 H1']. destruct (H2 _ _ _ H1') as [L2 H2'].
  exists (L1 ++ L2). by rewrite app_assoc.
Qed.

Lemma grows_refl h i r : grows h h i r.
Proof. split; eauto using leaders_ext_refl. Qed.

Lemma grows_same h h' i r r' :
  currentTerm r' = currentTerm r → votedFor r' = votedFor r → role r' = role r →
  rn_log r' = rn_log r → grows h h' i r → grows h h' i r'.
Proof. intros E1 E2 E3 E4 []. by split; rewrite ?E1, ?E2, ?E3, ?E4. Qed.

Lemma grows_trans h1 h2 h3 i r r' :
  currentTerm r' = currentTerm r → votedFor r' = votedFor r → role r ≠ Leader →
  grows h1 h2 i r → grows h2 h3 i r' → grows h1 h3 i r'.
Proof.
  intros E1 E2 Hr [V1 N1 L1 K1] [V2 N2 L2 K2]. split.
  - eauto.
  - intros v T c [Hv|?]%N2; [|by right]. rewrite E1, E2. by apply N1.
  - by eapply leaders_ext_trans.
  - intros T j L [HL|?]%K2; [|by right]. apply K1 in HL as [|(_ & _ & ? & _)]; [by left|done].
Qed.

Lemma grows_vote h i T c r : T = currentTerm r → c = votedFor r → votes h !! (i, T) = None →
  grows h (h_vote h i T c) i r.
Proof.
  intros ET Ec Hf. split; cbn; eauto using leaders_ext_refl.
  - intros k c' Hk. rewrite lookup_insert_ne; [done|]. congruence.
  - intros v T' c' [[[= <- <-] <-]|[_ Hv]]%lookup_insert_Some; [by right|by left].
Qed.

Lemma grows_count h i T S j r : grows h (h_count h i T S) j r.
Proof. split; cbn; eauto using leaders_ext_refl. Qed.

Lemma grows_lead h i T L r :
  leaders_ext (leaders h) (<[T := (i, L)]> (leaders h)) →
  T = currentTerm r → role r = Leader → L = rn_log r → grows h (h_lead h T i L) i r.
Proof.
  intros He ET Hr EL. split; cbn; eauto.
  intros T' j L' [[<- [= <- <-]]|[_ HL]]%lookup_insert_Some; [right; done|by left].
Qed.

(** ** Replication *)

Lemma index_lookup {A} (l : list A) i x :
  GoBytes.index l i = Ret x → 0 ≤ i ∧ l !! Z.to_nat i = Some x.
Proof.
  unfold GoBytes.index. intros [Hi%Z.leb_le H]%guard_go_Ret_inv.
  split; [done|]. destruct (l !! Z.to_nat i); naive_solver.
Qed.

Lemma good_log_take ls L q : (0 < q)%nat → good_log ls L → good_log ls (take q L).
Proof.
  intros Hq [H0 Hk]. split; [by rewrite lookup_take_lt by lia|]. intros k e Hp Hl.
  apply lookup_take_Some in Hl as [Hl Hlt]. destruct (Hk k e Hp Hl) as (? & ? & j & LL & Hj & Ht).
  split_and!; [done..|]. exists j, LL. split; [done|]. by rewrite take_take, Nat.min_l by lia.
Qed.

(** Log matching, for two logs that are good for the same leaders. *)
Lemma good_logs_match ls L1 L2 k e1 e2 :
  good_log ls L1 → good_log ls L2 → L1 !! k = Some e1 → L2 !! k = Some e2 →
  e_Term e1 = e_Term e2 → take (S k) L1 = take (S k) L2.
Proof.
  intros [H01 H1] [H02 H2] E1 E2 Et. destruct k as [|k].
  - destruct L1 as [|x L1], L2 as [|y L2]; try done. injection H01 as ->. by injection H02 as ->.
  - destruct (H1 (S k) e1) as (_ & _ & j1 & LL1 & Hj1 & ->); [lia|done|].
    destruct (H2 (S k) e2) as (_ & _ & j2 & LL2 & Hj2 & ->); [lia|done|]. congruence.
Qed.

Section merge.
Context (ls : gmap Z (Z * list RaftLogEntry)) (L LL : list RaftLogEntry).
Context (HL : good_log ls L) (HLL : good_log ls LL).

(** The loop of AppendEntries: the follower keeps its log if it already agrees
    with the new entries, and otherwise ends up with a prefix of the leader's. *)
Lemma append_loop_ok es q cur :
  es = take (length es) (drop q LL) → (q ≤ length cur)%nat → take q cur = take q LL →
  (cur = L ∨ cur = take q LL) → (∀ X, X `prefix_of` L → X `prefix_of` LL → X `prefix_of` cur) →
  ∃ L', append_loop cur (Z.of_nat q) es = Ret L' ∧ (L' = L ∨ L' = take (q + length es) LL)
    ∧ take (q + length es) L' = take (q + length es) LL
    ∧ (∀ X, X `prefix_of` L → X `prefix_of` LL → X `prefix_of` L').
Proof using HL HLL.
  revert q cur. induction es as [|e es IH]; intros q cur Hes Hq Heq Hcur Hcom.
  { exists cur. cbn [length]. rewrite Nat.add_0_r. done. }
  assert (LL !! q = Some e ∧ es = take (length es) (drop (S q) LL)) as [He Hes'].
  { cbn [length] in Hes. destruct (drop q LL) as [|x l] eqn:Ed; [done|]. cbn in Hes.
    injection Hes as <- Hes.
    assert (LL !! q = Some e) as He.
    { rewrite <-(Nat.add_0_r q), <-lookup_drop, Ed. done. }
    split; [done|]. by rewrite (drop_S _ _ _ He) in Ed; injection Ed as ->. }
  assert (take (S q) LL = take q LL ++ [e]) as HS by by apply take_S_r.
  cbn [append_loop length]. rewrite <-Nat.add_succ_comm.
  destruct (Z.ltb_spec (Z.of_nat q) (len cur)) as [Hlt|Hge].
  - unfold len in Hlt. destruct (lookup_lt_is_Some_2 cur q) as [old Hold]; [lia|].
    unfold GoBytes.index. rewrite guard_go_true by lia. rewrite Nat2Z.id, Hold. cbn [opt_go bind_go].
    destruct (Z.eqb_spec (e_Term old) (e_Term e)) as [Et|Et]; cbn [negb].
    + assert (cur = L) as ->.
      { destruct Hcur as [|Hc]; [done|]. apply (f_equal length) in Hc.
        rewrite length_take in Hc. lia. }
      rewrite go_bind_ret. replace (Z.of_nat q + 1) with (Z.of_nat (S q)) by lia.
      apply IH; [done|lia| |by left|done]. by eapply good_logs_match.
    + rewrite (slice_ok cur 0 (Z.of_nat q)) by (unfold len; lia). rewrite !go_bind_ret.
      replace (Z.to_nat (Z.of_nat q - 0)) with q by lia. rewrite drop_0, Heq, <-HS.
      replace (Z.of_nat q + 1) with (Z.of_nat (S q)) by lia.
      apply IH; [done| | |by right|].
      * apply lookup_lt_Some in He. rewrite length_take. lia.
      * by rewrite take_take, Nat.min_id.
      * intros X HX1 HX2. rewrite HS. apply prefix_app_r. rewrite <-Heq.
        apply prefix_take_le; [by apply Hcom|]. apply Nat.nlt_ge. intros Hlen.
        destruct (lookup_lt_is_Some_2 X q) as [x Hx]; [lia|].
        pose proof (prefix_lookup_Some _ _ _ _ Hx HX2) as Hx2.
        pose proof (prefix_lookup_Some _ _ _ _ Hx (Hcom X HX1 HX2)) as Hx1. congruence.
  - assert (cur = take q LL) as ->.
    { rewrite <-Heq. symmetry. apply take_ge. unfold len in Hge. lia. }
    rewrite <-HS. rewrite go_bind_ret. replace (Z.of_nat q + 1) with (Z.of_nat (S q)) by lia.
    apply IH; [done| | |by right|].
    + apply lookup_lt_Some in He. rewrite length_take. lia.
    + by rewrite take_take, Nat.min_id.
    + intros X HX1 HX2. rewrite HS. by apply prefix_app_r, Hcom.
Qed.

(** The whole merge of a segment that matches at [PrevLogIndex]. *)
Lemma merge_ok args prev :
  segment LL args → L !! Z.to_nat (ae_PrevLogIndex args) = Some prev →
  e_Term prev = ae_PrevLogTerm args →
  ∃ L', append_loop L (ae_PrevLogIndex args + 1) (ae_Entries args) = Ret L' ∧ good_log ls L'
    ∧ take (S (Z.to_nat (ae_PrevLogIndex args)) + length (ae_Entries args)) LL `prefix_of` L'
    ∧ (∀ X, X `prefix_of` L → X `prefix_of` LL → X `prefix_of` L')
    ∧ (L' = L ∨ L' `prefix_of` LL).
Proof using HL HLL.
  intros (Hp & (e & He & Het) & Hs) Hprev Hpt. cbv zeta in *.
  set (p := Z.to_nat (ae_PrevLogIndex args)) in *.
  replace (ae_PrevLogIndex args + 1) with (Z.of_nat (S p)) by lia.
  destruct (append_loop_ok (ae_Entries args) (S p) L) as (L' & E & Hd & Hseg & Hcom);
    [done| | |by left|done|].
  - apply lookup_lt_Some in Hprev. lia.
  - eapply good_logs_match; [exact HL|exact HLL|done|done|]. congruence.
  - exists L'. split_and!; [done| | |done|].
    + destruct Hd as [-> | ->]; [done|]. apply good_log_take; [lia|done].
    + rewrite <-Hseg. apply prefix_take.
    + destruct Hd as [-> | ->]; [by left|right]. apply prefix_take.
Qed.
End merge.
