(* ===== verification/RaftSafety.v ===== *)
(** * Every step of the cluster keeps the invariant

    The handlers of [RaftNode] are decomposed into the transitions of
    [RaftInv]; the claims of election safety, log matching and leader
    append-only follow by rule induction on reachability. *)

From S2P Require Import Prelude GoBytes RaftNode RaftCluster RaftInv.

Local Open Scope Z_scope.

(** ** What the handlers leave alone *)

Lemma apply_loop_shape k r r' :
  apply_loop k r = Ret r' → ∃ n ch, r' = set_applied r n ch.
Proof.
  revert r. induction k as [|k IH]; intros r; cbn [apply_loop].
  - intros [= <-]. exists (lastApplied r), (applyCh r). by destruct r.
  - intros E. go_inv. destruct (IH _ E) as (n & ch & ->). eauto.
Qed.

Lemma advance_loop_shape k r N r' :
  advance_loop k r N = Ret r' → r' = r ∨ ∃ c n ch, r' = set_applied (set_commit r c) n ch.
Proof.
  revert N. induction k as [|k IH]; intros N; cbn [advance_loop]; [intros [= <-]; by left|].
  intros E. go_inv. destruct (negb _); [by apply IH in E|]. destruct (_ <=? _); [|by apply IH in E].
  unfold applyLogs in E. apply apply_loop_shape in E as (n & ch & ->). eauto 10.
Qed.

Lemma heartbeats_segments r peers ms :
  heartbeats r peers = Ret ms →
  Forall (λ m, ∃ p args, m = SendAppendEntries p args ∧ p ∈ peers ∧ ae_Term args = currentTerm r
                 ∧ segment (rn_log r) args ∧ ae_LeaderCommit args = commitIndex r
                 ∧ ae_PrevLogIndex args + len (ae_Entries args) = len (rn_log r) - 1) ms.
Proof.
  revert ms. induction peers as [|p peers IH]; intros ms E; cbn [heartbeats] in E; go_inv; [constructor|].
  rename x into m, x0 into ms. constructor.
  - unfold heartbeat_for in H. set (pi := if _ <? 0 then 0 else _) in H.
    apply go_bind_Ret_inv in H as (e & He & H). apply go_bind_Ret_inv in H as (es & Hes & H).
    injection H as <-. apply index_lookup in He as [Hpi He].
    unfold slice in Hes. apply guard_go_Ret_inv in Hes as [_ Hes]. injection Hes as <-.
    replace (Z.to_nat (pi + 1)) with (S (Z.to_nat pi)) by lia.
    rewrite (take_ge (drop _ _)) by (rewrite length_drop; unfold len; lia).
    exists p. eexists. split; [reflexivity|]. cbn. split_and!; [by left|done| |done|].
    + split; [done|]. cbn. split; [by exists e|]. by rewrite firstn_all.
    + apply lookup_lt_Some in He. unfold len. rewrite length_drop. lia.
  - eapply Forall_impl; [by apply IH|]. intros x (q & args & -> & Hq & ?). exists q, args. set_solver.
Qed.

Lemma becomeLeader_shape r r' ms :
  becomeLeader r = Ret (r', ms) →
  (∃ ni mi, r' = set_indices (set_role r Leader) ni mi) ∧ heartbeats r' (rn_peers r) = Ret ms.
Proof.
  unfold becomeLeader. intros E. apply go_bind_Ret_inv in E as (ms' & Hb & E).
  injection E as <- <-. split; [eauto|]. unfold broadcastHeartbeats in Hb.
  rewrite decide_True in Hb by done. done.
Qed.

(** ** AppendEntries *)

Lemma AppendEntries_node_ok ids h i r args c r' reply j LL :
  node_ok ids h i r → leaders h !! ae_Term args = Some (j, LL) → good_log (leaders h) LL →
  segment LL args → AppendEntries r args c = Ret (r', reply) → node_ok ids h i r'.
Proof.
  intros Hok Hlead Hgood Hseg. unfold AppendEntries.
  set (r1 := if currentTerm r <? ae_Term args then _ else r).
  assert (node_ok ids h i r1) as Hok1.
  { unfold r1. destruct (Z.ltb_spec (currentTerm r) (ae_Term args)); [|done].
    by apply node_ok_stepdown. }
  clearbody r1. clear Hok. destruct (ae_Term args <? currentTerm r1); [by intros [= <- _]|].
  set (r2 := set_role (resetElectionTimeout r1 c) Follower).
  assert (node_ok ids h i r2) as Hok2.
  { apply (node_ok_core ids h i r1); [|done]. repeat split. by right. }
  assert (role r2 = Follower) as Hrole by done. clearbody r2.
  destruct (len (rn_log r2) <=? ae_PrevLogIndex args); [by intros [= <- _]|]. intros E.
  apply go_bind_Ret_inv in E as (prev & [_ Hprev]%index_lookup & E).
  destruct (Z.eqb_spec (e_Term prev) (ae_PrevLogTerm args)) as [Ht|]; cbn [negb] in E;
    [|by injection E as <- _].
  destruct (merge_ok (leaders h) (rn_log r2) LL (no_log _ _ _ _ Hok2) Hgood args prev Hseg Hprev Ht)
    as (L' & EL & HgL & _).
  rewrite EL in E. cbn [bind_go] in E.
  assert (node_ok ids h i (set_log r2 L')) as Hok3.
  { destruct Hok2. split; cbn; try done. congruence. }
  destruct (commitIndex (set_log r2 L') <? ae_LeaderCommit args); [|by injection E as <- _].
  apply go_bind_Ret_inv in E as (r4 & E4 & E). injection E as <- _.
  unfold applyLogs in E4. apply apply_loop_shape in E4 as (n & ch & ->).
  apply (node_ok_core ids h i (set_log r2 L')); [|done]. repeat split. by left.
Qed.

(** ** RequestVote *)

(** After the optional step-down the term is the request's or newer, and a vote
    is granted only to a request of the current term. *)
Lemma RequestVote_inv ids h s i r args c r' reply cand :
  valid_ids ids → inv ids h s → c_nodes s !! i = Some r → rv_CandidateID args = cand → 0 ≤ cand →
  RequestVote r args c = Ret (r', reply) →
  ∃ h', inv ids h' (mkCluster (<[i := r']> (c_nodes s)) (c_flights s))
    ∧ counted h' = counted h
    ∧ (rvr_VoteGranted reply = true → votes h' !! (i, rv_Term args) = Some cand)
    ∧ grows h h' i r'.
Proof.
  intros Hids Hi Hr Hcand Hpos. unfold RequestVote.
  set (r1 := if currentTerm r <? rv_Term args then _ else r).
  assert (node_ok ids h i r1 ∧ rv_Term args ≤ currentTerm r1) as [Hok1 Hle].
  { pose proof (iv_nodes _ _ _ Hi i r Hr). unfold r1.
    destruct (Z.ltb_spec (currentTerm r) (rv_Term args)); [|by split].
    split; [by apply node_ok_stepdown|cbn; lia]. }
  clearbody r1. destruct (Z.ltb_spec (rv_Term args) (currentTerm r1)) as [Hlt|Hge].
  { intros [= <- <-]. exists h. split_and!; [by apply inv_node|done|done|apply grows_refl]. }
  intros E. apply go_bind_Ret_inv in E as (lst & _ & E).
  destruct ((_ || _) && _) eqn:Ev.
  2:{ injection E as <- <-. exists h. split_and!; [by apply inv_node|done|done|apply grows_refl]. }
  injection E as <- <-. apply andb_true_iff in Ev as [Ev _].
  assert (rv_Term args = currentTerm r1) as -> by lia. rewrite Hcand in *.
  pose proof (inv_node ids h s i r1 Hi Hok1) as Hi1.
  assert (∀ h', node_ok ids h' i (set_vote r1 (currentTerm r1) cand) →
    node_ok ids h' i (resetElectionTimeout (set_vote r1 (currentTerm r1) cand) c)) as Hreset.
  { intros h' Hk. apply (node_ok_core ids h' i (set_vote r1 (currentTerm r1) cand)); [|done].
    repeat split. by left. }
  pose proof (no_vote _ _ _ _ Hok1) as Hv.
  destruct (decide (votedFor r1 = -1)) as [E1|E1].
  - exists (h_vote h i (currentTerm r1) cand). cbn. rewrite lookup_insert_eq.
    split_and!; [|done|done|by apply grows_vote].
    assert (node_ok ids (h_vote h i (currentTerm r1) cand) i (set_vote r1 (currentTerm r1) cand)) as Hk.
    { pose proof Hok1 as []. split; cbn; try done.
      - intros T' c' [[[= <-] _]|[_ Hx]]%lookup_insert_Some; [lia|by eapply no_votes_old].
      - rewrite lookup_insert_eq. by rewrite decide_False by lia. }
    pose proof (inv_vote ids h _ i r1 cand Hi1 (lookup_insert_eq _ _ _) Hv Hk) as Hi2.
    apply (inv_node _ _ _ i (resetElectionTimeout (set_vote r1 (currentTerm r1) cand) c)) in Hi2;
      [|by apply Hreset]. cbn in Hi2. by rewrite !insert_insert_eq in Hi2.
  - assert (votedFor r1 = cand) as E2.
    { apply orb_true_iff in Ev as [Ev|Ev]; apply Z.eqb_eq in Ev; congruence. }
    exists h. rewrite E2 in Hv. split_and!; [|done|done|apply grows_refl]. apply inv_node; [done|].
    apply Hreset. by rewrite <-E2; destruct r1.
Qed.

(** ** Steps *)

Section steps.
Context (ids : list Z) (Hids : valid_ids ids).

Lemma update_nil s i r : update s i r [] = mkCluster (<[i := r]> (c_nodes s)) (c_flights s).
Proof. unfold update. cbn. by rewrite app_nil_r. Qed.

(** A leader starts replication RPCs. *)
Lemma inv_broadcast h s i r ms :
  inv ids h s → c_nodes s !! i = Some r → role r = Leader →
  heartbeats r (rn_peers r) = Ret ms →
  inv ids h (set_flights s (c_flights s ++ (launch i <$> ms))).
Proof.
  intros Hi Hr Hrole Hms%heartbeats_segments.
  pose proof (iv_nodes _ _ _ Hi i r Hr) as Hok.
  apply inv_launch; [done| |]; (eapply Forall_impl; [exact Hms|]);
    intros m (p & args & -> & Hp & HT & Hseg & _); [|done].
  split_and!; cbn; try done. intros from to args' [= <- <- <-].
  rewrite (no_peers _ _ _ _ Hok) in Hp. apply peers_elem in Hp as [Hne _].
  split; [done|]. exists (rn_log r). rewrite HT. split; [|done]. by apply (no_leader _ _ _ _ Hok).
Qed.

(** Winning an election and the first broadcast, with a final change [g] of the
    node that its core does not see. *)
Lemma inv_win h s i r S r' ms c :
  inv ids h s → c_nodes s !! i = Some r → role r = Candidate → 0 < currentTerm r →
  counted h !! (i, currentTerm r) = Some S → majorityNeeded r ≤ Z.of_nat (size S) →
  becomeLeader r = Ret (r', ms) →
  ∃ h', inv ids h' (update s i r' ms) ∧ inv ids h' (update s i (resetElectionTimeout r' c) ms)
    ∧ grows h h' i r'.
Proof using Hids.
  intros Hi Hr Hrole HT HS Hmaj [(ni & mi & ->) Hms]%becomeLeader_shape.
  set (r' := set_indices (set_role r Leader) ni mi) in *.
  exists (h_lead h (currentTerm r) i (rn_log r)).
  assert (inv ids (h_lead h (currentTerm r) i (rn_log r))
            (mkCluster (<[i := r']> (c_nodes s)) (c_flights s))) as Hi1
    by by apply (inv_become_leader ids Hids h s i r S r').
  pose proof (inv_broadcast _ _ i r' ms Hi1 (lookup_insert_eq _ _ _) eq_refl Hms) as Hi2.
  split; [exact Hi2|]. split.
  2:{ apply grows_lead; try done. apply leaders_ext_fresh.
      by destruct (fresh_leader ids Hids h s i r S Hi Hr Hrole HS Hmaj). }
  pose proof (iv_nodes _ _ _ Hi2 i r' (lookup_insert_eq _ _ _)) as Hok.
  assert (node_ok ids (h_lead h (currentTerm r) i (rn_log r)) i (resetElectionTimeout r' c)) as Hok'.
  { apply (node_ok_core _ _ _ r'); [|done]. repeat split. by left. }
  pose proof (inv_node _ _ _ _ _ Hi2 Hok') as Hi3. cbn in Hi3. by rewrite insert_insert_eq in Hi3.
Qed.

Lemma startElection_inv h s i r r' ms c :
  inv ids h s → c_nodes s !! i = Some r → startElection r = Ret (r', ms) →
  ∃ h', inv ids h' (update s i (resetElectionTimeout r' c) ms)
    ∧ grows h h' i (resetElectionTimeout r' c).
Proof using Hids.
  intros Hi Hr E. unfold startElection in E. cbv zeta in E.
  apply go_bind_Ret_inv in E as (last & _ & E). cbn [rn_log set_vote set_role currentTerm] in E.
  set (T := currentTerm r + 1) in *.
  pose proof (iv_nodes _ _ _ Hi i r Hr) as Hok.
  set (r1 := set_votes _ _) in E.
  set (args := mkRequestVoteArgs T (rn_id r1) (len (rn_log r) - 1) (e_Term last)).
  assert (rn_id r1 = i) as Hid by apply (no_id _ _ _ _ Hok).
  assert (rn_peers r1 = peers_of ids i) as Hpeers by apply (no_peers _ _ _ _ Hok).
  assert (∀ c0, inv ids (h_count (h_vote h i T i) i T {[i]})
    (mkCluster (<[i := set_deadline r1 c0]> (c_nodes s))
       (c_flights s ++ ((λ p, VoteCall i p args) <$> peers_of ids i)))) as Hi1.
  { intros c0. apply (inv_candidate ids Hids h s i r args); try done.
    - cbn. unfold get0. by rewrite lookup_insert_eq. }
  assert (grows h (h_count (h_vote h i T i) i T {[i]}) i r1) as Hg.
  { apply (grows_trans h (h_vote h i T i) _ i r1); [done|done|done| |apply grows_count].
    apply grows_vote; [done|done|]. destruct (votes h !! (i, T)) eqn:Ev; [|done].
    pose proof (no_votes_old _ _ _ _ Hok _ _ Ev). lia. }
  destruct (Z.leb_spec (majorityNeeded r1) 1) as [Hmaj|Hmaj].
  - assert (peers_of ids i = []) as Hnil.
    { rewrite <-Hpeers. unfold majorityNeeded, len in Hmaj. destruct (rn_peers r1) as [|p l]; [done|].
      exfalso. cbn [length] in Hmaj.
      assert (1 ≤ (Z.of_nat (S (length l)) + 1) / 2) by (apply Z.div_le_lower_bound; lia). lia. }
    specialize (Hi1 (electionDeadline r1)). rewrite Hnil in Hi1. cbn in Hi1. rewrite app_nil_r in Hi1.
    replace (set_deadline r1 (electionDeadline r1)) with r1 in Hi1 by done.
    destruct (inv_win _ _ i r1 {[i]} r' ms c Hi1) as (h' & _ & Hi2 & Hg2); try done.
    + apply lookup_insert_eq.
    + cbn. pose proof (no_term _ _ _ _ Hok). unfold T. lia.
    + cbn. by rewrite lookup_insert_eq.
    + by rewrite size_singleton.
    + exists h'. split; [unfold update in *; cbn in Hi2; by rewrite insert_insert_eq in Hi2|].
      pose proof (becomeLeader_shape _ _ _ E) as [(ni & mi & ->) _].
      apply (grows_same _ _ _ (set_indices (set_role r1 Leader) ni mi)); [done..|].
      by eapply (grows_trans _ _ _ _ r1); [done|done|done|exact Hg|exact Hg2].
  - assert (r' = r1 ∧ ms = (λ p, SendRequestVote p args) <$> peers_of ids i) as [-> ->]
      by (rewrite <-Hpeers; by injection E as <- <-).
    eexists. split; [|by apply (grows_same _ _ _ r1)].
    unfold update, resetElectionTimeout. rewrite <-list_fmap_compose. apply Hi1.
Qed.

Lemma vote_reply_inv h s l1 l2 i to args reply r c r' ms :
  inv ids h s → c_flights s = l1 ++ VoteDone i to args reply :: l2 →
  c_nodes s !! i = Some r → handle_vote_reply r (rv_Term args) reply c = Ret (r', ms) →
  ∃ h', inv ids h' (update (set_flights s (l1 ++ l2)) i r' ms) ∧ grows h h' i r'.
Proof using Hids.
  intros Hi Hfl Hr. pose proof (inv_remove ids h s l1 l2 _ Hi Hfl) as Hi0.
  pose proof (iv_nodes _ _ _ Hi i r Hr) as Hok. unfold handle_vote_reply.
  assert (∀ r', node_ok ids h i r' → ∃ h', inv ids h' (update (set_flights s (l1 ++ l2)) i r' [])
    ∧ grows h h' i r') as Hstay.
  { intros r'' Hok''. exists h. rewrite update_nil. split; [by apply inv_node|apply grows_refl]. }
  destruct (bool_decide (role r = Candidate) && (currentTerm r =? rv_Term args)) eqn:Eg;
    [|intros [= <- <-]; by apply Hstay].
  apply andb_true_iff in Eg as [Hrole%bool_decide_eq_true HT%Z.eqb_eq].
  destruct (Z.ltb_spec (currentTerm r) (rvr_Term reply)) as [Hlt|_].
  { intros [= <- <-]. by apply Hstay, node_ok_stepdown. }
  destruct (rvr_VoteGranted reply) eqn:Hg; [|intros [= <- <-]; by apply Hstay].
  rewrite <-HT. destruct (no_counting _ _ _ _ Hok Hrole) as (Hpos & S & HS & Hcnt). rewrite Hcnt.
  destruct (inv_count ids Hids h s l1 l2 i r to args reply S) as [Hi1 Hsz]; try done.
  set (r1 := set_votes r _) in *. rewrite <-Hsz.
  destruct (_ && bool_decide _) eqn:Em.
  - apply andb_true_iff in Em as [Hmaj%Z.leb_le _]. intros Hbl.
    destruct (inv_win _ _ i r1 ({[to]} ∪ S) r' ms c Hi1) as (h' & Hi2 & _ & Hg2); try done.
    + apply lookup_insert_eq.
    + cbn. by rewrite lookup_insert_eq.
    + exists h'. split; [unfold update in *; cbn in Hi2; by rewrite insert_insert_eq in Hi2|].
      pose proof (becomeLeader_shape _ _ _ Hbl) as [(ni & mi & ->) _].
      eapply (grows_trans _ _ _ _ r1); [done|done|cbn; congruence|apply grows_count|exact Hg2].
  - intros [= <- <-]. eexists. rewrite update_nil. split; [exact Hi1|apply grows_count].
Qed.

Lemma append_reply_inv h s i r to args reply c r' :
  inv ids h s → c_nodes s !! i = Some r →
  handle_append_reply r to args reply c = Ret r' →
  inv ids h (mkCluster (<[i := r']> (c_nodes s)) (c_flights s)).
Proof.
  intros Hi Hr E. pose proof (iv_nodes _ _ _ Hi i r Hr) as Hok. apply inv_node; [done|].
  unfold handle_append_reply in E.
  destruct (_ && _); [|by injection E as <-].
  destruct (Z.ltb_spec (currentTerm r) (aer_Term reply)) as [Hlt|_].
  { injection E as <-. by apply node_ok_stepdown. }
  destruct (aer_Success reply).
  - unfold checkAdvanceCommitIndex in E. apply advance_loop_shape in E as [->|(c' & n & ch & ->)];
      (eapply node_ok_core; [|exact Hok]); repeat split; by left.
  - destruct (1 <? _); injection E as <-; [|done].
    eapply node_ok_core; [|exact Hok]. repeat split. by left.
Qed.

Lemma append_entries_inv h s l1 l2 from to args r c r' reply :
  inv ids h s → c_flights s = l1 ++ AppendCall from to args :: l2 →
  c_nodes s !! to = Some r → AppendEntries r args c = Ret (r', reply) →
  inv ids h (mkCluster (<[to := r']> (c_nodes s)) (l1 ++ AppendDone from to args reply :: l2)).
Proof.
  intros Hi Hfl Hr E. pose proof (iv_flights _ _ _ Hi) as Hf. rewrite Hfl in Hf.
  apply Forall_app in Hf as [_ [(K1 & K2 & K3 & K4) _]%Forall_cons].
  destruct (K4 _ _ _ eq_refl) as (Hne & LL & HLL & Hseg).
  destruct (iv_leaders _ _ _ Hi _ _ _ HLL) as (_ & _ & Hgood).
  pose proof (AppendEntries_node_ok ids h to r args c r' reply from LL
    (iv_nodes _ _ _ Hi _ _ Hr) HLL Hgood Hseg E) as Hok.
  pose proof (inv_node _ _ _ _ _ Hi Hok) as Hi1.
  apply (inv_replace ids h _ l1 l2 (AppendCall from to args) (AppendDone from to args reply)) in Hi1;
    [exact Hi1|done|done|]. by split_and!.
Qed.

Lemma request_vote_inv h s l1 l2 from to args r c r' reply :
  inv ids h s → c_flights s = l1 ++ VoteCall from to args :: l2 →
  c_nodes s !! to = Some r → RequestVote r args c = Ret (r', reply) →
  ∃ h', inv ids h' (mkCluster (<[to := r']> (c_nodes s)) (l1 ++ VoteDone from to args reply :: l2))
    ∧ grows h h' to r'.
Proof using Hids.
  intros Hi Hfl Hr E. pose proof (iv_flights _ _ _ Hi) as Hf. rewrite Hfl in Hf.
  apply Forall_app in Hf as [_ [(K1 & K2 & K3 & K4) _]%Forall_cons].
  destruct (K3 _ _ _ eq_refl) as [Hcand Hpos].
  destruct (RequestVote_inv ids h s to r args c r' reply from Hids Hi Hr Hcand Hpos E)
    as (h' & Hi1 & Hcnt & Hgr & Hg).
  exists h'. split; [|done].
  apply (inv_replace ids h' _ l1 l2 (VoteCall from to args) (VoteDone from to args reply)) in Hi1;
    [exact Hi1|done|done|].
  split_and!; [|by intros ???? [= <- <- <- <-]|done|done].
  intros from' T to' Ek. rewrite Hcnt. by apply K1.
Qed.

Lemma step_inv h s s' : inv ids h s → step s s' → ∃ h', inv ids h' s'.
Proof using Hids.
  intros Hi Hstep. destruct Hstep as
    [i r c r' ms Hr E|i r r' ms Hr E|i r k v t r' ms res Hr E|i r Hr
    |l1 l2 from to args r c r' reply Hfl Hr E|l1 l2 from to args r c r' reply Hfl Hr E
    |l1 l2 from to args reply r c r' ms Hfl Hr E|l1 l2 from to args reply r c r' Hfl Hr E
    |l1 l2 f Hfl].
  - unfold election_tick in E. destruct (killed r).
    { injection E as <- <-. exists h. rewrite update_nil. by apply inv_node, (iv_nodes _ _ _ Hi). }
    destruct (_ && _).
    + apply go_bind_Ret_inv in E as ([r1 ms1] & E1 & E). injection E as <- <-.
      destruct (startElection_inv h s i r r1 ms1 c Hi Hr E1) as (h' & ? & _). eauto.
    + injection E as <- <-. exists h. rewrite update_nil. by apply inv_node, (iv_nodes _ _ _ Hi).
  - exists h. unfold heartbeat_tick in E. destruct (killed r || negb (bool_decide (role r = Leader))) eqn:Eg.
    { injection E as <- <-. rewrite update_nil. by apply inv_node, (iv_nodes _ _ _ Hi). }
    apply orb_false_iff in Eg as [_ Hrole%negb_false_iff%bool_decide_eq_true].
    apply go_bind_Ret_inv in E as (ms1 & E1 & E). injection E as <- <-.
    unfold broadcastHeartbeats in E1. rewrite decide_True in E1 by done.
    unfold update. rewrite insert_id by done. by eapply inv_broadcast.
  - unfold Submit in E. destruct (negb (bool_decide (role r = Leader))) eqn:Eg.
    { injection E as <- <- _. exists h. rewrite update_nil. by apply inv_node, (iv_nodes _ _ _ Hi). }
    apply negb_false_iff, bool_decide_eq_true in Eg. cbv zeta in E.
    apply go_bind_Ret_inv in E as (ms1 & E1 & E). injection E as <- <- _.
    unfold broadcastHeartbeats in E1. rewrite decide_True in E1 by done.
    pose proof (inv_leader_append ids Hids h s i r _ Hi Hr Eg
      (eq_refl : e_Index (mkEntry (len (rn_log r)) (currentTerm r) k v t) = _) eq_refl) as Hi1.
    eexists. exact (inv_broadcast _ _ i _ ms1 Hi1 (lookup_insert_eq _ _ _) Eg E1).
  - exists h. rewrite update_nil. apply inv_node; [done|].
    apply (node_ok_core _ _ _ r); [repeat split; by left|by apply (iv_nodes _ _ _ Hi)].
  - rewrite update_nil.
    destruct (request_vote_inv h s l1 l2 from to args r c r' reply Hi Hfl Hr E) as (h' & ? & _). eauto.
  - rewrite update_nil. exists h. by eapply append_entries_inv.
  - destruct (vote_reply_inv h s l1 l2 from to args reply r c r' ms Hi Hfl Hr E) as (h' & ? & _). eauto.
  - exists h. rewrite update_nil. eapply (append_reply_inv h (set_flights s (l1 ++ l2)) from r);
      [by eapply inv_remove|done|done].
  - exists h. by eapply inv_remove.
Qed.

Definition h0 : history := mkHistory ∅ ∅ ∅.

Lemma initial_inv clk : inv ids h0 (initial ids clk).
Proof.
  split; cbn; try done.
  - intros i r Hr. apply elem_of_list_to_map_2, list_elem_of_fmap in Hr as (j & [= -> ->] & Hj).
    split; cbn; try done. split; [done|]. intros k e Hk He.
    destruct k; [lia|done].
  - constructor.
Qed.

Lemma reachable_inv clk s : reachable ids clk s → ∃ h, inv ids h s.
Proof using Hids.
  induction 1 as [|s s' _ [h Hi] Hs]; [eexists; apply initial_inv|by eapply step_inv].
Qed.
End steps.
