(* ===== verification/RaftLive.v ===== *)
(** * No handler of a reachable cluster panics, and entries are applied in order

    The part of the node state that the safety argument does not need: the
    replication indices stay inside the log, so no handler ever indexes or
    slices out of bounds, and the apply channel carries the commands with
    consecutive indices, each once. *)

From stdpp Require Import list_numbers.
From S2P Require Import Prelude GoBytes RaftNode RaftCluster RaftInv RaftSafety.

Local Open Scope Z_scope.

(** The messages sent so far carry the indices [1 .. lastApplied]. *)
Definition applied_in_order (r : RaftNode) : Prop :=
  match applyCh r with
  | Some msgs => CommandIndex <$> msgs = seqZ 1 (lastApplied r)
  | None => True
  end.

Record live_ok (r : RaftNode) : Prop := {
  lo_applied : 0 ≤ lastApplied r;
  lo_commit : 0 ≤ commitIndex r;
  lo_next : role r = Leader → ∀ p, p ∈ rn_peers r → get0 (nextIndex r) p ≤ len (rn_log r);
  lo_order : applied_in_order r }.

Lemma index_in {A} (l : list A) i : 0 ≤ i < len l → ∃ x, GoBytes.index l i = Ret x ∧ l !! Z.to_nat i = Some x.
Proof.
  intros Hi. unfold len in Hi. destruct (lookup_lt_is_Some_2 l (Z.to_nat i)) as [x Hx]; [lia|].
  exists x. unfold GoBytes.index. rewrite guard_go_true by lia. by rewrite Hx.
Qed.

(** A change that touches neither log, role, indices, commit nor applied. *)
Lemma live_ok_same r r' :
  rn_peers r' = rn_peers r → rn_log r' = rn_log r → lastApplied r' = lastApplied r →
  commitIndex r' = commitIndex r → applyCh r' = applyCh r → nextIndex r' = nextIndex r →
  (role r' = role r ∨ role r' ≠ Leader) → live_ok r → live_ok r'.
Proof.
  intros E1 E2 E3 E4 E5 E6 E7 [Ha Hc Hn Ho]. split; unfold applied_in_order; rewrite ?E1, ?E2, ?E3, ?E4, ?E5, ?E6; try done.
  intros Hr. apply Hn. destruct E7; congruence.
Qed.

(** ** Applying *)

Lemma apply_loop_ok ls k r :
  good_log ls (rn_log r) → live_ok r → lastApplied r + Z.of_nat k < len (rn_log r) →
  ∃ r', apply_loop k r = Ret r' ∧ live_ok r'
    ∧ lastApplied r' = lastApplied r + Z.of_nat k
    ∧ (∀ msgs, applyCh r = Some msgs → ∃ msgs', applyCh r' = Some (msgs ++ msgs')
         ∧ msgs' = (λ e, mkApplyMsg true (e_Index e) (e_Term e) (e_Key e) (e_Value e) (e_Tombstone e))
              <$> take k (drop (Z.to_nat (lastApplied r + 1)) (rn_log r))).
Proof.
  intros [_ Hg]. revert r Hg. induction k as [|k IH]; intros r Hg Hl Hk.
  { exists r. split_and!; [done|done|lia|]. intros msgs ->. exists []. by rewrite app_nil_r. }
  destruct Hl as [Ha Hc Hn Ho].
  destruct (index_in (rn_log r) (lastApplied r + 1)) as (e & Ee & He); [lia|].
  destruct (Hg (Z.to_nat (lastApplied r + 1)) e) as (Hidx & _); [lia|done|].
  cbn [apply_loop]. rewrite Ee. cbn [bind_go].
  set (ch := match applyCh r with Some _ => _ | None => _ end).
  assert (ch = (λ msgs, msgs ++ [mkApplyMsg true (e_Index e) (e_Term e) (e_Key e) (e_Value e)
                                   (e_Tombstone e)]) <$> applyCh r) as Hch.
  { unfold ch. destruct (applyCh r); [|done]. by replace (0 <? e_Index e) with true by lia. }
  destruct (IH (set_applied r (lastApplied r + 1) ch)) as (r' & E & Hl' & Hla & Hmsgs); cbn.
  - done.
  - split; cbn; try done; [lia|]. unfold applied_in_order in *. cbn. rewrite Hch.
    destruct (applyCh r) as [msgs|]; [|done]. cbn. rewrite fmap_app, Ho. cbn.
    rewrite Hidx. replace (Z.of_nat (Z.to_nat (lastApplied r + 1))) with (1 + lastApplied r) by lia.
    by rewrite (Z.add_comm (lastApplied r)), (Z.add_comm 1), (seqZ_app 1 (lastApplied r) 1), Z.add_comm by lia.
  - lia.
  - exists r'. split_and!; [done|done|cbn in Hla; lia|]. intros msgs Em.
    cbn in Hmsgs. rewrite Hch, Em in Hmsgs. destruct (Hmsgs _ eq_refl) as (ms' & -> & Hms').
    eexists. rewrite <-app_assoc. split; [done|]. rewrite (drop_S _ _ _ He). cbn. f_equal.
    rewrite Hms'. do 3 f_equal. lia.
Qed.

Lemma applyLogs_ok ls r :
  good_log ls (rn_log r) → live_ok r → commitIndex r < len (rn_log r) →
  ∃ r', applyLogs r = Ret r' ∧ live_ok r'.
Proof.
  intros Hg Hl Hc. unfold applyLogs.
  assert (0 < len (rn_log r)) as Hpos by (pose proof (lo_commit _ Hl); lia).
  destruct (decide (lastApplied r ≤ commitIndex r)) as [Hle|Hgt].
  - destruct (apply_loop_ok ls (Z.to_nat (commitIndex r - lastApplied r)) r Hg Hl)
      as (r' & E & Hl' & _); [lia|eauto].
  - replace (Z.to_nat (commitIndex r - lastApplied r)) with 0%nat by lia. by exists r.
Qed.

(** Committing and applying up to an index inside the log. *)
Lemma commit_ok ls r c :
  good_log ls (rn_log r) → live_ok r → 0 ≤ c < len (rn_log r) →
  ∃ r', applyLogs (set_commit r c) = Ret r' ∧ live_ok r'.
Proof.
  intros Hg [Ha Hc Hn Ho] Hc'. apply (applyLogs_ok ls); [done| |cbn; lia].
  split; cbn; try done. lia.
Qed.

Lemma advance_loop_ok ls k r N :
  good_log ls (rn_log r) → live_ok r → N < len (rn_log r) → 0 ≤ N - Z.of_nat k →
  ∃ r', advance_loop k r N = Ret r' ∧ live_ok r'.
Proof.
  intros Hg Hl. revert N. induction k as [|k IH]; intros N HN Hk; [by exists r|]. cbn [advance_loop].
  destruct (index_in (rn_log r) N) as (e & Ee & _); [lia|]. rewrite Ee. cbn [bind_go].
  destruct (negb _); [apply IH; lia|]. destruct (_ <=? _); [|apply IH; lia].
  apply (commit_ok ls); [done|done|lia].
Qed.

(** ** Replication *)

Lemma heartbeats_ok r peers :
  0 < len (rn_log r) → (∀ p, p ∈ peers → get0 (nextIndex r) p ≤ len (rn_log r)) →
  ∃ ms, heartbeats r peers = Ret ms.
Proof.
  intros Hpos. induction peers as [|p peers IH]; intros Hn; [by eexists|]. cbn [heartbeats].
  assert (get0 (nextIndex r) p ≤ len (rn_log r)) as Hp by (apply Hn; by left).
  unfold heartbeat_for. set (pi := if _ <? 0 then 0 else _).
  assert (0 ≤ pi < len (rn_log r)) as Hpi by (unfold pi; destruct (Z.ltb_spec (get0 (nextIndex r) p - 1) 0); lia).
  destruct (index_in (rn_log r) pi Hpi) as (e & -> & _). cbn [bind_go].
  rewrite slice_ok by lia. cbn [bind_go].
  destruct IH as [ms ->]; [|by eexists]. intros q Hq. apply Hn. by right.
Qed.

Lemma good_log_pos ls L : good_log ls L → 0 < len L.
Proof. intros [H0 _]. apply lookup_lt_Some in H0. unfold len. lia. Qed.

Lemma foldl_insert_lookup (m : gmap Z Z) ps x p :
  p ∈ ps → get0 (foldl (λ m p, <[p := x]> m) m ps) p = x.
Proof.
  revert m. induction ps as [|q ps IH] using rev_ind; intros m; [set_solver|].
  rewrite foldl_app. cbn. intros [Hp|Hp]%elem_of_app; unfold get0 in *.
  - rewrite lookup_insert. case_decide; [done|by apply IH].
  - apply list_elem_of_singleton in Hp as ->. by rewrite lookup_insert_eq.
Qed.

Lemma becomeLeader_ok ls r :
  good_log ls (rn_log r) → live_ok r → ∃ r' ms, becomeLeader r = Ret (r', ms) ∧ live_ok r'.
Proof.
  intros Hg [Ha Hc Hn Ho]. unfold becomeLeader. cbv zeta. set (r1 := set_indices _ _ _).
  assert (live_ok r1) as Hl.
  { split; cbn; try done. intros _ p Hp. by rewrite foldl_insert_lookup. }
  unfold broadcastHeartbeats. rewrite decide_True by done.
  destruct (heartbeats_ok r1 (rn_peers r1)) as [ms ->].
  - by eapply good_log_pos.
  - by apply (lo_next _ Hl).
  - eauto.
Qed.

(** ** The handlers *)

Section handlers.
Context (ids : list Z) (h : history) (i : Z) (r : RaftNode).
Context (Hok : node_ok ids h i r) (Hlive : live_ok r).

Lemma log_pos : 0 < len (rn_log r).
Proof using Hok. eapply good_log_pos, (no_log _ _ _ _ Hok). Qed.

Lemma startElection_ok : ∃ r' ms, startElection r = Ret (r', ms) ∧ live_ok r'.
Proof using Hok Hlive.
  pose proof log_pos. unfold startElection. cbv zeta. cbn [rn_log set_vote set_role].
  destruct (index_in (rn_log r) (len (rn_log r) - 1)) as (e & -> & _); [lia|]. cbn [bind_go].
  set (r1 := set_votes _ _).
  assert (live_ok r1) as Hl by (eapply live_ok_same; [..|exact Hlive]; try done; by right).
  destruct (_ <=? 1); [|eauto]. apply (becomeLeader_ok (leaders h)); [apply (no_log _ _ _ _ Hok)|done].
Qed.

Lemma election_tick_ok c : ∃ r' ms, election_tick r c = Ret (r', ms) ∧ live_ok r'.
Proof using Hok Hlive.
  unfold election_tick. destruct (killed r); [eauto|]. destruct (_ && _); [|eauto].
  destruct startElection_ok as (r' & ms & -> & Hl). cbn. do 2 eexists. split; [done|].
  eapply live_ok_same; [..|exact Hl]; try done. by left.
Qed.

Lemma broadcast_ok : role r = Leader → ∃ ms, broadcastHeartbeats r = Ret ms.
Proof using Hok Hlive.
  intros Hr. unfold broadcastHeartbeats. rewrite decide_True by done.
  apply heartbeats_ok; [apply log_pos|by apply (lo_next _ Hlive)].
Qed.

Lemma heartbeat_tick_ok : ∃ r' ms, heartbeat_tick r = Ret (r', ms) ∧ live_ok r'.
Proof using Hok Hlive.
  unfold heartbeat_tick. destruct (killed r || negb (bool_decide (role r = Leader))) eqn:E; [eauto|].
  apply orb_false_iff in E as [_ E%negb_false_iff%bool_decide_eq_true].
  destruct (broadcast_ok E) as [ms ->]. cbn. eauto.
Qed.

Lemma Submit_ok k v t : ∃ r' ms res, Submit r k v t = Ret (r', ms, res) ∧ live_ok r'.
Proof using Hok Hlive.
  unfold Submit. destruct (negb (bool_decide (role r = Leader))) eqn:E; [eauto 10|].
  apply negb_false_iff, bool_decide_eq_true in E. cbv zeta. set (r1 := set_log r _).
  assert (live_ok r1) as Hl.
  { destruct Hlive as [Ha Hc Hn Ho]. split; cbn; try done. intros _ p Hp.
    rewrite len_app, len_cons, len_nil. specialize (Hn E p Hp). lia. }
  unfold broadcastHeartbeats. rewrite decide_True by done.
  destruct (heartbeats_ok r1 (rn_peers r1)) as [ms ->].
  - unfold r1. cbn [rn_log set_log]. rewrite len_app. pose proof log_pos. unfold len in *. lia.
  - by apply (lo_next _ Hl).
  - cbn. eauto 10.
Qed.

Lemma RequestVote_ok args c : ∃ r' reply, RequestVote r args c = Ret (r', reply) ∧ live_ok r'.
Proof using Hok Hlive.
  unfold RequestVote. set (r1 := if _ <? _ then _ else r).
  assert (live_ok r1 ∧ rn_log r1 = rn_log r) as [Hl1 El].
  { unfold r1. destruct (_ <? _); [|done]. split; [|done].
    eapply live_ok_same; [..|exact Hlive]; try done; by right. }
  clearbody r1. destruct (_ <? _); [eauto|]. pose proof log_pos. rewrite El.
  destruct (index_in (rn_log r) (len (rn_log r) - 1)) as (e & -> & _); [lia|]. cbn [bind_go].
  destruct (_ && _); [|eauto]. do 2 eexists. split; [done|].
  eapply live_ok_same; [..|exact Hl1]; try done; by left.
Qed.

Lemma vote_reply_ok T reply c : ∃ r' ms, handle_vote_reply r T reply c = Ret (r', ms) ∧ live_ok r'.
Proof using Hok Hlive.
  unfold handle_vote_reply. destruct (_ && _); [|eauto]. destruct (_ <? _).
  { do 2 eexists. split; [done|]. eapply live_ok_same; [..|exact Hlive]; try done; by right. }
  destruct (rvr_VoteGranted reply); [|eauto]. cbv zeta. set (r1 := set_votes _ _).
  assert (live_ok r1) as Hl by (eapply live_ok_same; [..|exact Hlive]; try done; by left).
  destruct (_ && _); [|eauto]. apply (becomeLeader_ok (leaders h)); [apply (no_log _ _ _ _ Hok)|done].
Qed.

Lemma AppendEntries_ok args c j LL :
  leaders h !! ae_Term args = Some (j, LL) → good_log (leaders h) LL → segment LL args →
  ∃ r' reply, AppendEntries r args c = Ret (r', reply) ∧ live_ok r'.
Proof using Hok Hlive.
  intros Hlead HgLL Hseg. unfold AppendEntries. set (r1 := if _ <? _ then _ else r).
  assert (live_ok r1 ∧ rn_log r1 = rn_log r) as [Hl1 El1].
  { unfold r1. destruct (_ <? _); [|done]. split; [|done].
    eapply live_ok_same; [..|exact Hlive]; try done; by right. }
  clearbody r1. destruct (_ <? _); [eauto|]. set (r2 := set_role _ _).
  assert (live_ok r2) as Hl2 by (eapply live_ok_same; [..|exact Hl1]; try done; by right).
  assert (rn_log r2 = rn_log r) as El2 by done. assert (role r2 = Follower) as Hrole by done.
  clearbody r2. destruct (Z.leb_spec (len (rn_log r2)) (ae_PrevLogIndex args)) as [|Hlt]; [eauto|].
  pose proof Hseg as (Hp0 & _). rewrite El2 in *.
  destruct (index_in (rn_log r) (ae_PrevLogIndex args)) as (prev & -> & Hprev); [lia|]. cbn [bind_go].
  destruct (Z.eqb_spec (e_Term prev) (ae_PrevLogTerm args)) as [Ht|]; cbn [negb]; [|eauto].
  destruct (merge_ok (leaders h) (rn_log r) LL (no_log _ _ _ _ Hok) HgLL args prev Hseg Hprev Ht)
    as (L' & -> & HgL & _). cbn [bind_go]. set (r3 := set_log r2 L').
  assert (live_ok r3) as Hl3.
  { destruct Hl2 as [Ha Hc Hn Ho]. split; cbn; try done. congruence. }
  destruct (Z.ltb_spec (commitIndex r3) (ae_LeaderCommit args)) as [Hcm|]; [|eauto].
  destruct (commit_ok (leaders h) r3
    (if ae_LeaderCommit args <? len L' - 1 then ae_LeaderCommit args else len L' - 1))
    as (r4 & -> & Hl4); [done|done| |cbn; eauto].
  pose proof (good_log_pos _ _ HgL). pose proof (lo_commit _ Hl3).
  change (rn_log r3) with L'. destruct (Z.ltb_spec (ae_LeaderCommit args) (len L' - 1)); lia.
Qed.

Lemma append_reply_ok to args reply c L :
  leaders h !! ae_Term args = Some (i, L) → segment L args →
  ∃ r', handle_append_reply r to args reply c = Ret r' ∧ live_ok r'.
Proof using Hok Hlive.
  intros Hlead Hseg. unfold handle_append_reply.
  destruct (bool_decide (role r = Leader) && (currentTerm r =? ae_Term args)) eqn:Eg; [|eauto].
  apply andb_true_iff in Eg as [Hrole%bool_decide_eq_true HT%Z.eqb_eq].
  destruct (_ <? _).
  { eexists. split; [done|]. eapply live_ok_same; [..|exact Hlive]; try done; by right. }
  destruct Hlive as [Ha Hc Hn Ho].
  destruct (aer_Success reply).
  - assert (L = rn_log r) as ->.
    { pose proof (no_leader _ _ _ _ Hok Hrole) as Hld. rewrite HT, Hlead in Hld. by injection Hld. }
    set (r1 := set_indices _ _ _).
    assert (live_ok r1) as Hl1.
    { split; cbn; try done. intros _ p Hp. unfold get0. rewrite lookup_insert. case_decide; [|by apply Hn].
      cbn. destruct Hseg as (Hp0 & (e & He & _) & Hs). cbv zeta in *. apply lookup_lt_Some in He.
      apply (f_equal length) in Hs. rewrite length_take, length_drop in Hs. unfold len. lia. }
    pose proof (good_log_pos _ _ (no_log _ _ _ _ Hok)).
    unfold checkAdvanceCommitIndex. apply (advance_loop_ok (leaders h)).
    + apply (no_log _ _ _ _ Hok).
    + done.
    + lia.
    + cbn. lia.
  - destruct (Z.ltb_spec 1 (get0 (nextIndex r) to)); [|eauto]. eexists. split; [done|].
    split; cbn; try done. intros _ p Hp. unfold get0 at 1. rewrite lookup_insert.
    case_decide as E; [|by apply Hn]. subst p. specialize (Hn Hrole to Hp). cbn. lia.
Qed.
End handlers.

(** ** Reachable clusters *)

Definition all_live (s : cluster) : Prop := ∀ i r, c_nodes s !! i = Some r → live_ok r.

Lemma all_live_update s i r ms :
  all_live s → live_ok r → all_live (update s i r ms).
Proof.
  intros Hs Hr j r'. cbn. rewrite lookup_insert. case_decide; [by intros [= <-]|apply Hs].
Qed.

(** The leader log an RPC of the replication protocol was cut from. *)
Lemma append_flight ids h s l1 l2 f from to args :
  inv ids h s → c_flights s = l1 ++ f :: l2 → append_info f = Some (from, to, args) →
  to ≠ from ∧ ∃ L, leaders h !! ae_Term args = Some (from, L) ∧ good_log (leaders h) L ∧ segment L args.
Proof.
  intros Hi Hfl Hf. pose proof (iv_flights _ _ _ Hi) as Hall. rewrite Hfl in Hall.
  apply Forall_app in Hall as [_ [(_ & _ & _ & K) _]%Forall_cons].
  destruct (K _ _ _ Hf) as (Hne & L & HL & Hseg). split; [done|]. exists L.
  by destruct (iv_leaders _ _ _ Hi _ _ _ HL) as (_ & _ & ?).
Qed.

Lemma step_live ids h s s' : inv ids h s → all_live s → step s s' → all_live s'.
Proof.
  intros Hi Hl Hs. destruct Hs as
    [i r c r' ms Hr E|i r r' ms Hr E|i r k v t r' ms res Hr E|i r Hr
    |l1 l2 from to args r c r' reply Hfl Hr E|l1 l2 from to args r c r' reply Hfl Hr E
    |l1 l2 from to args reply r c r' ms Hfl Hr E|l1 l2 from to args reply r c r' Hfl Hr E
    |l1 l2 f Hfl]; try done;
    pose proof (iv_nodes _ _ _ Hi _ _ Hr) as Hok; pose proof (Hl _ _ Hr) as Hlr.
  - apply all_live_update; [done|].
    destruct (election_tick_ok ids h i r Hok Hlr c) as (r2 & ms2 & E2 & ?). congruence.
  - apply all_live_update; [done|].
    destruct (heartbeat_tick_ok ids h i r Hok Hlr) as (r2 & ms2 & E2 & ?). congruence.
  - apply all_live_update; [done|].
    destruct (Submit_ok ids h i r Hok Hlr k v t) as (r2 & ms2 & res2 & E2 & ?). congruence.
  - apply all_live_update; [done|]. eapply live_ok_same; [..|exact Hlr]; try done. by left.
  - apply (all_live_update s to r' []); [done|].
    destruct (RequestVote_ok ids h to r Hok Hlr args c) as (r2 & rep2 & E2 & ?). congruence.
  - apply (all_live_update s to r' []); [done|].
    destruct (append_flight ids h s l1 l2 _ from to args Hi Hfl eq_refl) as (_ & L & HL & Hg & Hseg).
    destruct (AppendEntries_ok ids h to r Hok Hlr args c from L HL Hg Hseg) as (r2 & rep2 & E2 & ?).
    congruence.
  - apply all_live_update; [done|].
    destruct (vote_reply_ok ids h from r Hok Hlr (rv_Term args) reply c) as (r2 & ms2 & E2 & ?). congruence.
  - apply all_live_update; [done|].
    destruct (append_flight ids h s l1 l2 _ from to args Hi Hfl eq_refl) as (_ & L & HL & Hg & Hseg).
    destruct (append_reply_ok ids h from r Hok Hlr to args reply c L HL Hseg) as (r2 & E2 & ?).
    congruence.
Qed.

Lemma initial_live ids clk : all_live (initial ids clk).
Proof.
  intros i r Hr. cbn in Hr. apply elem_of_list_to_map_2, list_elem_of_fmap in Hr as (j & [= -> ->] & _).
  split; cbn; try done.
Qed.

Lemma reachable_ok ids clk s :
  valid_ids ids → reachable ids clk s → ∃ h, inv ids h s ∧ all_live s.
Proof.
  intros Hids. induction 1 as [|s s' _ (h & Hi & Hl) Hs].
  - eexists. split; [by apply initial_inv|apply initial_live].
  - destruct (step_inv ids Hids h s s' Hi Hs) as [h' Hi']. exists h'. split; [done|].
    exact (step_live ids h s s' Hi Hl Hs).
Qed.

(** ** Claims *)

(** C6.  Election safety: in every reachable state of a cluster of any size,
    whatever calls are delayed, reordered or lost, two nodes that are leader in
    the same term are the same node. *)
Theorem election_safety ids clk s i j ri rj :
  valid_ids ids → reachable ids clk s →
  c_nodes s !! i = Some ri → c_nodes s !! j = Some rj →
  role ri = Leader → role rj = Leader → currentTerm ri = currentTerm rj → i = j.
Proof.
  intros Hids Hs Hi Hj Li Lj HT. destruct (reachable_ok ids clk s Hids Hs) as (h & Hinv & _).
  pose proof (no_leader _ _ _ _ (iv_nodes _ _ _ Hinv i ri Hi) Li) as E1.
  pose proof (no_leader _ _ _ _ (iv_nodes _ _ _ Hinv j rj Hj) Lj) as E2.
  rewrite HT in E1. congruence.
Qed.

(** C8.  Log matching: in every reachable state, if the logs of two nodes have
    an entry with the same term at the same index, then the logs are identical
    up to and including that index. *)
Theorem log_matching ids clk s i j ri rj k ei ej :
  valid_ids ids → reachable ids clk s →
  c_nodes s !! i = Some ri → c_nodes s !! j = Some rj →
  rn_log ri !! k = Some ei → rn_log rj !! k = Some ej → e_Term ei = e_Term ej →
  take (S k) (rn_log ri) = take (S k) (rn_log rj).
Proof.
  intros Hids Hs Hi Hj. destruct (reachable_ok ids clk s Hids Hs) as (h & Hinv & _).
  apply (good_logs_match (leaders h)); eapply no_log, (iv_nodes _ _ _ Hinv); done.
Qed.

(** C19.  No reachable handler call panics: election and heartbeat ticks, client
    submissions, the handlers of every RPC in flight and of every reply in
    flight return, so no index or slice of the log is ever out of bounds. *)
Theorem raft_never_panics ids clk s :
  valid_ids ids → reachable ids clk s →
  (∀ i r, c_nodes s !! i = Some r →
     (∀ c, ∃ x, election_tick r c = Ret x) ∧ (∃ x, heartbeat_tick r = Ret x)
     ∧ (∀ k v t, ∃ x, Submit r k v t = Ret x))
  ∧ (∀ from to args r c, VoteCall from to args ∈ c_flights s → c_nodes s !! to = Some r →
       ∃ x, RequestVote r args c = Ret x)
  ∧ (∀ from to args r c, AppendCall from to args ∈ c_flights s → c_nodes s !! to = Some r →
       ∃ x, AppendEntries r args c = Ret x)
  ∧ (∀ from to args reply r c, VoteDone from to args reply ∈ c_flights s →
       c_nodes s !! from = Some r → ∃ x, handle_vote_reply r (rv_Term args) reply c = Ret x)
  ∧ (∀ from to args reply r c, AppendDone from to args reply ∈ c_flights s →
       c_nodes s !! from = Some r → ∃ x, handle_append_reply r to args reply c = Ret x).
Proof.
  intros Hids Hs. destruct (reachable_ok ids clk s Hids Hs) as (h & Hi & Hl).
  assert (∀ j r, c_nodes s !! j = Some r → node_ok ids h j r ∧ live_ok r) as Hn
    by (intros j r Hr; split; [by apply (iv_nodes _ _ _ Hi)|by eapply Hl]).
  split_and!.
  - intros i r Hr. destruct (Hn _ _ Hr) as [Hok Hlr]. split_and!.
    + intros c. destruct (election_tick_ok ids h i r Hok Hlr c) as (? & ? & ? & _). eauto.
    + destruct (heartbeat_tick_ok ids h i r Hok Hlr) as (? & ? & ? & _). eauto.
    + intros k v t. destruct (Submit_ok ids h i r Hok Hlr k v t) as (? & ? & ? & ? & _). eauto.
  - intros from to args r c Hf Hr. destruct (Hn _ _ Hr) as [Hok Hlr].
    destruct (RequestVote_ok ids h to r Hok Hlr args c) as (? & ? & ? & _). eauto.
  - intros from to args r c (l1 & l2 & Hf)%list_elem_of_split Hr. destruct (Hn _ _ Hr) as [Hok Hlr].
    destruct (append_flight ids h s l1 l2 _ from to args Hi Hf eq_refl) as (_ & L & HL & Hg & Hseg).
    destruct (AppendEntries_ok ids h to r Hok Hlr args c from L HL Hg Hseg) as (? & ? & ? & _). eauto.
  - intros from to args reply r c Hf Hr. destruct (Hn _ _ Hr) as [Hok Hlr].
    destruct (vote_reply_ok ids h from r Hok Hlr (rv_Term args) reply c) as (? & ? & ? & _). eauto.
  - intros from to args reply r c (l1 & l2 & Hf)%list_elem_of_split Hr. destruct (Hn _ _ Hr) as [Hok Hlr].
    destruct (append_flight ids h s l1 l2 _ from to args Hi Hf eq_refl) as (_ & L & HL & Hg & Hseg).
    destruct (append_reply_ok ids h from r Hok Hlr to args reply c L HL Hseg) as (? & ? & _). eauto.
Qed.

(** C18.  Commands are applied in order and once: in every reachable state the
    messages a node has sent on its apply channel carry the indices 1, 2, ...,
    [lastApplied] without gap or repetition. *)
Theorem commands_applied_in_order ids clk s i r msgs :
  valid_ids ids → reachable ids clk s → c_nodes s !! i = Some r → applyCh r = Some msgs →
  CommandIndex <$> msgs = seqZ 1 (lastApplied r).
Proof.
  intros Hids Hs Hr Hch. destruct (reachable_ok ids clk s Hids Hs) as (h & _ & Hl).
  pose proof (lo_order _ (Hl i r Hr)) as Ho. unfold applied_in_order in Ho. by rewrite Hch in Ho.
Qed.
