(* ===== verification/RaftClaims.v ===== *)
(** * Further properties of the Raft node

    Terms, votes and leadership along every step; what a restart forgets; what
    a cluster of one node never does; and a complete run of three nodes. *)

From stdpp Require Import list_numbers.
From S2P Require Import Prelude GoBytes RaftNode RaftCluster RaftInv RaftSafety RaftLive.

Local Open Scope Z_scope.

(** ** Evolution of a node *)

(** The term never decreases, and within a term the vote is not changed. *)
Definition evolves (r r' : RaftNode) : Prop :=
  currentTerm r ≤ currentTerm r' ∧
  (currentTerm r' = currentTerm r → votedFor r ≠ -1 → votedFor r' = votedFor r).

(** Within its term a leader stays leader and only appends to its log. *)
Definition keeps_leading (r r' : RaftNode) : Prop :=
  role r = Leader → currentTerm r' = currentTerm r →
  role r' = Leader ∧ rn_log r `prefix_of` rn_log r'.

Definition evolves_leading (r r' : RaftNode) : Prop := evolves r r' ∧ keeps_leading r r'.

#[global] Instance evolves_refl : Reflexive evolves.
Proof. by split. Qed.

Lemma evolves_leading_refl r : evolves_leading r r.
Proof. split; [done|]. by intros ? _. Qed.

(** Same term, vote, role and log. *)
Lemma evolves_same r r' :
  currentTerm r' = currentTerm r → votedFor r' = votedFor r → role r' = role r →
  rn_log r' = rn_log r → evolves_leading r r'.
Proof. intros E1 E2 E3 E4. split; [split; [lia|done]|]. intros Hr _. by rewrite E3, E4. Qed.

Lemma evolves_newer r r' : currentTerm r < currentTerm r' → evolves_leading r r'.
Proof. intros HT. split; [split; [lia|lia]|]. intros _ E. lia. Qed.

Lemma becomeLeader_evolves r r0 r' ms :
  becomeLeader r0 = Ret (r', ms) → currentTerm r0 = currentTerm r → votedFor r0 = votedFor r →
  role r ≠ Leader → evolves_leading r r'.
Proof.
  intros [(ni & mi & ->) _]%becomeLeader_shape E1 E2 Hr.
  split; [split; cbn; [lia|done]|]. by intros ?.
Qed.

Lemma startElection_term r r' ms : startElection r = Ret (r', ms) → currentTerm r' = currentTerm r + 1.
Proof.
  unfold startElection. cbv zeta. intros E. apply go_bind_Ret_inv in E as (e & _ & E).
  destruct (_ <=? 1); [|by injection E as <- _].
  by apply becomeLeader_shape in E as [(ni & mi & ->) _].
Qed.

Lemma election_tick_evolves r c r' ms : election_tick r c = Ret (r', ms) → evolves_leading r r'.
Proof.
  unfold election_tick. destruct (killed r); [intros [= <- _]; apply evolves_leading_refl|].
  destruct (_ && _); [|intros [= <- _]; apply evolves_leading_refl]. intros E.
  apply go_bind_Ret_inv in E as ([r1 ms1] & E1 & E). injection E as <- _.
  apply startElection_term in E1. apply evolves_newer. cbn. lia.
Qed.

Lemma heartbeat_tick_same r r' ms : heartbeat_tick r = Ret (r', ms) → r' = r.
Proof. unfold heartbeat_tick. destruct (_ || _); [by intros [= <- _]|]. intros E. by go_inv. Qed.

Lemma Submit_evolves r k v t r' ms res : Submit r k v t = Ret (r', ms, res) → evolves_leading r r'.
Proof.
  unfold Submit. destruct (negb _); [intros [= <- _ _]; apply evolves_leading_refl|]. cbv zeta.
  intros E. apply go_bind_Ret_inv in E as (ms1 & _ & E). injection E as <- _ _.
  split; [by split|]. intros Hr _. split; [done|]. by eexists.
Qed.

Lemma RequestVote_evolves r args c r' reply :
  RequestVote r args c = Ret (r', reply) → evolves_leading r r'.
Proof.
  unfold RequestVote. set (r1 := if _ <? _ then _ else r).
  assert (evolves_leading r r1 ∧ (currentTerm r1 = currentTerm r → r1 = r)) as [He Hsame].
  { unfold r1. destruct (Z.ltb_spec (currentTerm r) (rv_Term args)).
    - split; [by apply evolves_newer|]. cbn. lia.
    - split; [apply evolves_leading_refl|done]. }
  clearbody r1. destruct (_ <? _); [by intros [= <- _]|]. intros E.
  apply go_bind_Ret_inv in E as (e & _ & E). destruct (_ && _) eqn:Ev; [|by injection E as <- _].
  injection E as <- _. apply andb_true_iff in Ev as [Ev _].
  destruct (decide (currentTerm r1 = currentTerm r)) as [E1|E1].
  - apply Hsame in E1 as ->. split; [split; cbn; [lia|]|].
    + intros _ Hv. apply orb_true_iff in Ev as [Ev|Ev]; apply Z.eqb_eq in Ev; congruence.
    + by intros ? _.
  - destruct He as [[Hle _] _]. apply evolves_newer. cbn. lia.
Qed.

Lemma vote_reply_evolves r T reply c r' ms :
  handle_vote_reply r T reply c = Ret (r', ms) → evolves_leading r r'.
Proof.
  unfold handle_vote_reply.
  destruct (bool_decide (role r = Candidate) && (currentTerm r =? T)) eqn:Eg;
    [|intros [= <- _]; apply evolves_leading_refl].
  apply andb_true_iff in Eg as [Hr%bool_decide_eq_true _].
  destruct (Z.ltb_spec (currentTerm r) (rvr_Term reply)).
  { intros [= <- _]. by apply evolves_newer. }
  destruct (rvr_VoteGranted reply); [|intros [= <- _]; apply evolves_leading_refl]. cbv zeta.
  destruct (_ && _).
  - intros E. eapply becomeLeader_evolves; [exact E|done|done|congruence].
  - intros [= <- _]. by apply evolves_same.
Qed.

Lemma append_reply_evolves r to args reply c r' :
  handle_append_reply r to args reply c = Ret r' → evolves_leading r r'.
Proof.
  unfold handle_append_reply. destruct (_ && _); [|intros [= <-]; apply evolves_leading_refl].
  destruct (Z.ltb_spec (currentTerm r) (aer_Term reply)).
  { intros [= <-]. by apply evolves_newer. }
  destruct (aer_Success reply).
  - unfold checkAdvanceCommitIndex. intros [->|(c' & n & ch & ->)]%advance_loop_shape;
      by apply evolves_same.
  - destruct (1 <? _); intros [= <-]; [by apply evolves_same|apply evolves_leading_refl].
Qed.

Lemma AppendEntries_evolves r args c r' reply :
  AppendEntries r args c = Ret (r', reply) →
  evolves r r' ∧ (ae_Term args ≠ currentTerm r → keeps_leading r r').
Proof.
  unfold AppendEntries. set (r1 := if _ <? _ then _ else r).
  assert (evolves r r1 ∧ (currentTerm r1 = currentTerm r → r1 = r)
    ∧ (currentTerm r1 = currentTerm r → ae_Term args ≤ currentTerm r)) as (He & Hsame & Hle).
  { unfold r1. destruct (Z.ltb_spec (currentTerm r) (ae_Term args)); cbn.
    - split_and!; [by apply evolves_newer|lia|lia].
    - split_and!; [done|done|done]. }
  clearbody r1. destruct (Z.ltb_spec (ae_Term args) (currentTerm r1)) as [|Hge].
  { intros [= <- _]. split; [done|]. intros _ Hr HT. by apply Hsame in HT as ->. }
  assert (∀ r2, currentTerm r2 = currentTerm r1 → votedFor r2 = votedFor r1 →
    evolves r r2 ∧ (ae_Term args ≠ currentTerm r → keeps_leading r r2)) as Hfin.
  { intros r2 E1 E2. split.
    - destruct He as [H1 H2]. split; [lia|]. intros HT Hv. rewrite E2. apply H2; [lia|done].
    - intros Hne _ HT. rewrite E1 in HT. specialize (Hle HT). lia. }
  set (r2 := set_role _ _). destruct (_ <=? _); [intros [= <- _]; by apply Hfin|]. intros E.
  apply go_bind_Ret_inv in E as (prev & _ & E).
  destruct (negb _); [injection E as <- _; by apply Hfin|].
  apply go_bind_Ret_inv in E as (L' & _ & E).
  destruct (_ <? _); [|injection E as <- _; by apply Hfin].
  apply go_bind_Ret_inv in E as (r4 & E4 & E). injection E as <- _.
  unfold applyLogs in E4. apply apply_loop_shape in E4 as (n & ch & ->). by apply Hfin.
Qed.

(** ** Along a step *)

Lemma step_evolves s s' i r r' :
  step s s' → c_nodes s !! i = Some r → c_nodes s' !! i = Some r' →
  evolves r r' ∧ (keeps_leading r r' ∨
    ∃ l1 l2 from args, c_flights s = l1 ++ AppendCall from i args :: l2
      ∧ ae_Term args = currentTerm r).
Proof.
  intros Hs Hr Hr'. 
  assert (∀ j rj r2, c_nodes s !! j = Some rj → evolves_leading rj r2 →
    <[j := r2]> (c_nodes s) !! i = Some r' → evolves r r' ∧ keeps_leading r r') as Hup.
  { intros j rj r2 Hj He [[-> <-]|[_ E]]%lookup_insert_Some.
    - rewrite Hr in Hj. injection Hj as <-. done.
    - rewrite Hr in E. injection E as <-. apply evolves_leading_refl. }
  destruct Hs as
    [j rj c r2 ms Hj E|j rj r2 ms Hj E|j rj k v t r2 ms res Hj E|j rj Hj
    |l1 l2 from to args rj c r2 reply Hfl Hj E|l1 l2 from to args rj c r2 reply Hfl Hj E
    |l1 l2 from to args reply rj c r2 ms Hfl Hj E|l1 l2 from to args reply rj c r2 Hfl Hj E
    |l1 l2 f Hfl]; cbn in Hr'.
  - apply election_tick_evolves in E. destruct (Hup _ _ _ Hj E Hr'). auto.
  - apply heartbeat_tick_same in E as ->.
    destruct (Hup _ _ _ Hj (evolves_leading_refl rj) Hr'). auto.
  - apply Submit_evolves in E. destruct (Hup _ _ _ Hj E Hr'). auto.
  - assert (evolves_leading rj (Kill rj)) as He by by apply evolves_same.
    destruct (Hup _ _ _ Hj He Hr'). auto.
  - apply RequestVote_evolves in E. destruct (Hup _ _ _ Hj E Hr'). auto.
  - apply AppendEntries_evolves in E as [He Hk].
    apply lookup_insert_Some in Hr' as [[-> <-]|[_ E2]].
    + rewrite Hr in Hj. injection Hj as <-. split; [done|].
      destruct (decide (ae_Term args = currentTerm r)); [right|left; by apply Hk]. eauto 10.
    + rewrite Hr in E2. injection E2 as <-. split; [done|]. left. apply evolves_leading_refl.
  - apply vote_reply_evolves in E. destruct (Hup _ _ _ Hj E Hr'). auto.
  - apply append_reply_evolves in E. destruct (Hup _ _ _ Hj E Hr'). auto.
  - rewrite Hr in Hr'. injection Hr' as <-. split; [done|]. left. apply evolves_leading_refl.
Qed.

(** Terms only grow and a vote is final: in every step of every cluster, a
    node's term does not decrease, and as long as the term stays the same a
    vote that has been cast is not changed. *)
Theorem terms_grow_votes_final s s' i r r' :
  step s s' → c_nodes s !! i = Some r → c_nodes s' !! i = Some r' →
  currentTerm r ≤ currentTerm r' ∧
  (currentTerm r' = currentTerm r → votedFor r ≠ -1 → votedFor r' = votedFor r).
Proof. intros Hs Hr Hr'. by destruct (step_evolves s s' i r r' Hs Hr Hr'). Qed.

(** A leader never overwrites its log: in every step from a reachable
    state, a leader that stays in its term stays leader, and its old log is a
    prefix of its new one. *)
Theorem leader_append_only ids clk s s' i r r' :
  valid_ids ids → reachable ids clk s → step s s' →
  c_nodes s !! i = Some r → c_nodes s' !! i = Some r' →
  role r = Leader → currentTerm r' = currentTerm r →
  role r' = Leader ∧ rn_log r `prefix_of` rn_log r'.
Proof.
  intros Hids Hreach Hs Hr Hr' Hrole HT.
  destruct (step_evolves s s' i r r' Hs Hr Hr') as [_ [Hk|(l1 & l2 & from & args & Hfl & Ha)]];
    [by apply Hk|]. exfalso.
  destruct (reachable_ok ids clk s Hids Hreach) as (h & Hi & _).
  destruct (append_flight ids h s l1 l2 _ from i args Hi Hfl eq_refl) as (Hne & L & HL & _).
  pose proof (no_leader _ _ _ _ (iv_nodes _ _ _ Hi i r Hr) Hrole) as Hlead.
  rewrite Ha, Hlead in HL. congruence.
Qed.

(** ** An executable scheduler *)

Inductive event :=
| EElection (i : Z) (c : clock)
| EHeartbeat (i : Z)
| ESubmit (i : Z) (k v : bytes) (t : bool)
| EKill (i : Z)
| EDeliver (n : nat) (c : clock)
| EReply (n : nat) (c : clock)
| ELose (n : nat).

Definition ret_option {A} (m : go A) : option A :=
  match m with Ret a => Some a | _ => None end.

(** One event; the flight at position [n] is delivered, answered or lost. *)
Definition exec (s : cluster) (e : event) : option cluster :=
  match e with
  | EElection i c =>
      r ← c_nodes s !! i; x ← ret_option (election_tick r c); Some (update s i x.1 x.2)
  | EHeartbeat i =>
      r ← c_nodes s !! i; x ← ret_option (heartbeat_tick r); Some (update s i x.1 x.2)
  | ESubmit i k v t =>
      r ← c_nodes s !! i; x ← ret_option (Submit r k v t); Some (update s i x.1.1 x.1.2)
  | EKill i => r ← c_nodes s !! i; Some (update s i (Kill r) [])
  | EDeliver n c =>
      f ← c_flights s !! n;
      match f with
      | VoteCall from to args =>
          r ← c_nodes s !! to; x ← ret_option (RequestVote r args c);
          Some (set_flights (update s to x.1 [])
            (take n (c_flights s) ++ VoteDone from to args x.2 :: drop (S n) (c_flights s)))
      | AppendCall from to args =>
          r ← c_nodes s !! to; x ← ret_option (AppendEntries r args c);
          Some (set_flights (update s to x.1 [])
            (take n (c_flights s) ++ AppendDone from to args x.2 :: drop (S n) (c_flights s)))
      | _ => None
      end
  | EReply n c =>
      f ← c_flights s !! n;
      let rest := take n (c_flights s) ++ drop (S n) (c_flights s) in
      match f with
      | VoteDone from to args reply =>
          r ← c_nodes s !! from; x ← ret_option (handle_vote_reply r (rv_Term args) reply c);
          Some (update (set_flights s rest) from x.1 x.2)
      | AppendDone from to args reply =>
          r ← c_nodes s !! from; x ← ret_option (handle_append_reply r to args reply c);
          Some (update (set_flights s rest) from x [])
      | _ => None
      end
  | ELose n =>
      _ ← c_flights s !! n;
      Some (set_flights s (take n (c_flights s) ++ drop (S n) (c_flights s)))
  end.

Fixpoint exec_all (s : cluster) (es : list event) : option cluster :=
  match es with
  | [] => Some s
  | e :: es => s' ← exec s e; exec_all s' es
  end.

Lemma ret_option_Some {A} (m : go A) x : ret_option m = Some x → m = Ret x.
Proof. destruct m; naive_solver. Qed.

Lemma split_at_flight (l : list flight) n f : l !! n = Some f → l = take n l ++ f :: drop (S n) l.
Proof. intros H. by rewrite take_drop_middle. Qed.

Lemma exec_step s e s' : exec s e = Some s' → step s s'.
Proof.
  destruct e as [i c|i|i k v t|i|n c|n c|n]; cbn; intros E.
  - apply bind_Some in E as (r & Hr & ([r' ms] & Hx%ret_option_Some & [= <-])%bind_Some).
    by eapply step_election.
  - apply bind_Some in E as (r & Hr & ([r' ms] & Hx%ret_option_Some & [= <-])%bind_Some).
    by eapply step_heartbeat.
  - apply bind_Some in E as (r & Hr & ([[r' ms] res] & Hx%ret_option_Some & [= <-])%bind_Some).
    by eapply step_submit.
  - apply bind_Some in E as (r & Hr & [= <-]). by eapply step_kill.
  - apply bind_Some in E as (f & Hf%split_at_flight & E). destruct f; try done;
      apply bind_Some in E as (r & Hr & ([r' reply] & Hx%ret_option_Some & [= <-])%bind_Some);
      [by eapply step_request_vote|by eapply step_append_entries].
  - apply bind_Some in E as (f & Hf%split_at_flight & E). destruct f; try done.
    + apply bind_Some in E as (r & Hr & ([r' ms] & Hx%ret_option_Some & [= <-])%bind_Some).
      by eapply step_vote_reply.
    + apply bind_Some in E as (r & Hr & (r' & Hx%ret_option_Some & [= <-])%bind_Some).
      by eapply step_append_reply.
  - apply bind_Some in E as (f & Hf%split_at_flight & [= <-]). by eapply step_lose.
Qed.

Lemma exec_all_reachable ids clk s es s' :
  reachable ids clk s → exec_all s es = Some s' → reachable ids clk s'.
Proof.
  revert s. induction es as [|e es IH]; intros s Hs; cbn; [by intros [= <-]|].
  intros (s1 & H1%exec_step & H2)%bind_Some. eapply IH; [|done]. by eapply reach_step.
Qed.

(** ** A run of three nodes *)

Definition ids3 : list Z := [0; 1; 2].
Definition clk0 (_ : Z) : clock := mkClock 0 0.
Definition late : clock := mkClock 1000000000 0.

(** Node 0 is elected with the vote of node 1, takes a command, replicates it to
    node 1, commits it, and tells node 1 with the next heartbeat.  The RPCs to
    node 2 stay in flight. *)
Definition events3 : list event :=
  [EElection 0 late; EDeliver 0 late; EReply 0 late;
   ESubmit 0 (str "geo") (str "500") false;
   EDeliver 3 late; EReply 3 late;
   EHeartbeat 0; EDeliver 4 late].

(** The applied commands and role of a node. *)
Definition observe (s : cluster) (i : Z) : option (Role * Z * list (bytes * bytes)) :=
  r ← c_nodes s !! i;
  Some (role r, commitIndex r, (λ m, (am_Key m, am_Value m)) <$> default [] (applyCh r)).

Definition cluster3 (n : nat) : cluster :=
  default (initial ids3 clk0) (exec_all (initial ids3 clk0) (take n events3)).

Lemma cluster3_reachable n : reachable ids3 clk0 (cluster3 n).
Proof.
  unfold cluster3. destruct (exec_all _ _) as [s|] eqn:E; cbn; [|constructor].
  eapply exec_all_reachable; [constructor|done].
Qed.

Lemma ids3_valid : valid_ids ids3.
Proof. split; [by apply (bool_decide_unpack (NoDup ids3))|repeat constructor; lia]. Qed.

(** A majority is enough to commit: from the initial state of three nodes
    there is a run in which one node answers nothing, yet a leader is elected,
    a submitted command is committed, and the command is applied by the leader
    and by the follower that answers. *)
Theorem majority_commits :
  ∃ s, reachable ids3 clk0 s
    ∧ observe s 0 = Some (Leader, 1, [(str "geo", str "500")])
    ∧ observe s 1 = Some (Follower, 1, [(str "geo", str "500")])
    ∧ observe s 2 = Some (Follower, 0, []).
Proof.
  exists (cluster3 8). split; [apply cluster3_reachable|]. by vm_compute.
Qed.

(** Node [i] of the run after [n] events. *)
Definition node3 (n : nat) (i : Z) : RaftNode :=
  default (NewRaftNode i [] None (clk0 i)) (c_nodes (cluster3 n) !! i).

Lemma election_safety_witness :
  role (node3 8 0) = Leader ∧ (∀ j r, c_nodes (cluster3 8) !! j = Some r → role r = Leader →
    currentTerm r = 1 → j = 0).
Proof.
  split; [vm_compute; reflexivity|]. intros j r Hj Hr HT.
  apply (election_safety ids3 clk0 (cluster3 8) j 0 r (node3 8 0)).
  - exact ids3_valid.
  - apply cluster3_reachable.
  - exact Hj.
  - vm_compute. reflexivity.
  - exact Hr.
  - vm_compute. reflexivity.
  - rewrite HT. vm_compute. reflexivity.
Defined.

Lemma log_matching_witness : take 2 (rn_log (node3 8 0)) = take 2 (rn_log (node3 8 1)).
Proof.
  apply (log_matching ids3 clk0 (cluster3 8) 0 1 (node3 8 0) (node3 8 1) 1
    (mkEntry 1 1 (str "geo") (str "500") false) (mkEntry 1 1 (str "geo") (str "500") false)).
  - exact ids3_valid.
  - apply cluster3_reachable.
  - vm_compute. reflexivity.
  - vm_compute. reflexivity.
  - vm_compute. reflexivity.
  - vm_compute. reflexivity.
  - reflexivity.
Defined.

Lemma raft_never_panics_witness : ∃ x, Submit (node3 3 0) (str "k") (str "v") false = Ret x.
Proof.
  apply (proj1 (raft_never_panics ids3 clk0 (cluster3 3) ids3_valid (cluster3_reachable 3)) 0).
  vm_compute. reflexivity.
Defined.

Lemma commands_applied_in_order_witness :
  ∃ msgs, applyCh (node3 8 0) = Some msgs ∧ CommandIndex <$> msgs = [1].
Proof.
  eexists. split; [vm_compute; reflexivity|].
  apply (commands_applied_in_order ids3 clk0 (cluster3 8) 0 (node3 8 0)).
  - exact ids3_valid.
  - apply cluster3_reachable.
  - vm_compute. reflexivity.
  - vm_compute. reflexivity.
Defined.

Lemma terms_grow_votes_final_witness :
  votedFor (node3 2 1) = 0 ∧ currentTerm (node3 1 1) ≤ currentTerm (node3 2 1).
Proof.
  split; [vm_compute; reflexivity|].
  refine (proj1 (terms_grow_votes_final (cluster3 1) (cluster3 2) 1 (node3 1 1) (node3 2 1) _ _ _)).
  - apply (exec_step _ (EDeliver 0 late)). vm_compute. reflexivity.
  - vm_compute. reflexivity.
  - vm_compute. reflexivity.
Defined.

Lemma leader_append_only_witness :
  role (node3 4 0) = Leader ∧ rn_log (node3 3 0) `prefix_of` rn_log (node3 4 0).
Proof.
  apply (leader_append_only ids3 clk0 (cluster3 3) (cluster3 4) 0).
  - exact ids3_valid.
  - apply cluster3_reachable.
  - apply (exec_step _ (ESubmit 0 (str "geo") (str "500") false)). vm_compute. reflexivity.
  - vm_compute. reflexivity.
  - vm_compute. reflexivity.
  - vm_compute. reflexivity.
  - vm_compute. reflexivity.
Defined.

(** ** What a restart forgets *)

(** The state the protocol needs to be persistent is not persisted: a node
    that voted for one candidate in a term refuses another one, but the node
    that [NewRaftNode] builds after a restart starts in term 0 without a vote
    and grants the other candidate its vote in the same term. *)
Theorem restart_votes_twice id peers ch c T cand1 cand2 :
  0 < T → cand1 ≠ cand2 → 0 ≤ cand1 →
  let args x := mkRequestVoteArgs T x 0 0 in
  ∃ r1 r2 r3, RequestVote (NewRaftNode id peers ch c) (args cand1) c = Ret (r1, mkRequestVoteReply T true)
    ∧ RequestVote r1 (args cand2) c = Ret (r2, mkRequestVoteReply T false)
    ∧ RequestVote (NewRaftNode id peers ch c) (args cand2) c = Ret (r3, mkRequestVoteReply T true).
Proof.
  intros HT Hne Hpos args. unfold RequestVote, args, NewRaftNode, resetElectionTimeout. cbn.
  rewrite (proj2 (Z.ltb_lt 0 T)) by done. cbn. rewrite !Z.ltb_irrefl. cbn.
  do 3 eexists. split_and!; [reflexivity| |reflexivity]. cbn. rewrite !Z.ltb_irrefl. cbn.
  rewrite (proj2 (Z.eqb_neq cand1 (-1))), (proj2 (Z.eqb_neq cand1 cand2)) by lia. reflexivity.
Qed.

Lemma restart_votes_twice_witness :
  ∃ r1 r2 r3, RequestVote (NewRaftNode 2 [0; 1] None (clk0 2)) (mkRequestVoteArgs 1 0 0 0) (clk0 2)
      = Ret (r1, mkRequestVoteReply 1 true)
    ∧ RequestVote r1 (mkRequestVoteArgs 1 1 0 0) (clk0 2) = Ret (r2, mkRequestVoteReply 1 false)
    ∧ RequestVote (NewRaftNode 2 [0; 1] None (clk0 2)) (mkRequestVoteArgs 1 1 0 0) (clk0 2)
        = Ret (r3, mkRequestVoteReply 1 true).
Proof. apply (restart_votes_twice 2 [0; 1] None (clk0 2) 1 0 1); lia. Defined.

(** ** A cluster of one *)

(** A node without peers that has committed and applied nothing. *)
Definition idle (r : RaftNode) : Prop :=
  rn_peers r = [] ∧ commitIndex r = 0 ∧ lastApplied r = 0 ∧ applyCh r = Some [].

Lemma becomeLeader_idle r r' ms : idle r → becomeLeader r = Ret (r', ms) → idle r' ∧ ms = [].
Proof.
  intros (Hp & Hc & Ha & Hch) [(ni & mi & ->) Hms]%becomeLeader_shape. rewrite Hp in Hms.
  injection Hms as <-. done.
Qed.

Lemma single_step s s' :
  c_flights s = [] → (∀ j r, c_nodes s !! j = Some r → idle r) → step s s' →
  c_flights s' = [] ∧ (∀ j r, c_nodes s' !! j = Some r → idle r).
Proof.
  intros Hf Hn Hs.
  assert (∀ j r ms, idle r → ms = [] → c_flights (update s j r ms) = []
    ∧ ∀ j' r', c_nodes (update s j r ms) !! j' = Some r' → idle r') as Hup.
  { intros j r ms Hr ->. rewrite update_nil. split; [done|]. cbn.
    intros j' r' [[_ <-]|[_ E]]%lookup_insert_Some; [done|by eapply Hn]. }
  destruct Hs as
    [j r c r2 ms Hj E|j r r2 ms Hj E|j r k v t r2 ms res Hj E|j r Hj
    |l1 l2 ? ? ? ? ? ? ? Hfl ? ?|l1 l2 ? ? ? ? ? ? ? Hfl ? ?
    |l1 l2 ? ? ? ? ? ? ? ? Hfl ? ?|l1 l2 ? ? ? ? ? ? ? Hfl ? ?|l1 l2 f Hfl];
    try (rewrite Hf in Hfl; by destruct l1); pose proof (Hn _ _ Hj) as Hr.
  - unfold election_tick in E. destruct (killed r); [injection E as <- <-; by apply Hup|].
    destruct (_ && _); [|injection E as <- <-; by apply Hup].
    apply go_bind_Ret_inv in E as ([r1 ms1] & E1 & E). injection E as <- <-.
    unfold startElection in E1. cbv zeta in E1. apply go_bind_Ret_inv in E1 as (e & _ & E1).
    assert (idle r1 ∧ ms1 = []) as [Hi ->].
    { destruct (_ <=? 1); [by eapply becomeLeader_idle in E1|].
      injection E1 as <- <-. split; [done|]. cbn. destruct Hr as [-> _]. done. }
    by apply Hup.
  - unfold heartbeat_tick in E. destruct (_ || _); [injection E as <- <-; by apply Hup|].
    apply go_bind_Ret_inv in E as (ms1 & E1 & E). injection E as <- <-. apply Hup; [done|].
    unfold broadcastHeartbeats in E1. destruct Hr as [Hp _]. rewrite Hp in E1.
    by case_decide; injection E1 as <-.
  - unfold Submit in E. destruct (negb _); [injection E as <- <- _; by apply Hup|]. cbv zeta in E.
    apply go_bind_Ret_inv in E as (ms1 & E1 & E). injection E as <- <- _. apply Hup; [done|].
    unfold broadcastHeartbeats in E1. cbn [rn_peers set_log] in E1. destruct Hr as [Hp _].
    rewrite Hp in E1. by case_decide; injection E1 as <-.
  - by apply Hup.
Qed.

(** C39.  A node that runs alone never commits: its commit index is only advanced
    by the replies of peers, so in the configuration the daemon starts by
    default (no peers) every command that [Submit] accepts as leader stays
    uncommitted and nothing ever reaches the apply channel. *)
Theorem single_node_never_commits i clk s r :
  reachable [i] clk s → c_nodes s !! i = Some r → commitIndex r = 0 ∧ applyCh r = Some [].
Proof.
  intros Hs Hr.
  assert (c_flights s = [] ∧ (∀ j r, c_nodes s !! j = Some r → idle r)) as [_ Hidle].
  { clear r Hr. induction Hs as [|s s' _ [IH1 IH2] Hst]; [|by eapply single_step]. split; [done|].
    assert (peers_of [i] i = []) as Hp
      by (unfold peers_of; rewrite filter_cons, decide_False by (intros H; by apply H); done).
    intros j r. cbn -[peers_of]. intros [[_ <-]|[_ E]]%lookup_insert_Some; [|done].
    unfold idle. cbn -[peers_of]. done. }
  destruct (Hidle i r Hr) as (_ & ? & _ & ?). done.
Qed.

Definition solo (n : nat) : cluster :=
  default (initial [7] clk0)
    (exec_all (initial [7] clk0) (take n [EElection 7 late; ESubmit 7 (str "k") (str "v") false])).

Lemma single_node_never_commits_witness :
  ∃ r, c_nodes (solo 2) !! 7 = Some r ∧ role r = Leader ∧ length (rn_log r) = 2%nat
    ∧ commitIndex r = 0 ∧ applyCh r = Some [].
Proof.
  eexists. split; [vm_compute; reflexivity|]. split; [reflexivity|]. split; [reflexivity|].
  apply (single_node_never_commits 7 clk0 (solo 2)).
  - unfold solo. destruct (exec_all _ _) as [s|] eqn:E; cbn; [|constructor].
    eapply exec_all_reachable; [constructor|exact E].
  - vm_compute. reflexivity.
Defined.
