(* ===== verification/RaftCommit.v ===== *)
(** * Committed entries: what a majority has acknowledged cannot be lost

    A second invariant of the cluster, on top of [RaftInv.inv], with two more
    history variables: up to which index a node has acknowledged the log of the
    leader of a term, and the log with which a candidate entered an election.
    An entry of a term is _chosen_ when a majority has acknowledged it in that
    term, and _blocked_ when a majority has passed the term without
    acknowledging it, so that it never can be chosen.  Every leader of a later
    term holds every earlier entry that is not blocked. *)

From S2P Require Import Prelude GoBytes RaftNode RaftCluster RaftInv RaftSafety RaftLive.

Local Open Scope Z_scope.

Record ghost := mkGhost {
  acks : gmap (Z * Z) nat;                         (* node, term: index *)
  clogs : gmap (Z * Z) (list RaftLogEntry) }.      (* candidate, term: its log *)

Definition ack (g : ghost) (v t : Z) : nat := default 0%nat (acks g !! (v, t)).

(** The entry at [i] was created by the leader of [t] itself. *)
Definition own (L : list RaftLogEntry) (t : Z) (i : nat) : Prop :=
  ∃ e, L !! i = Some e ∧ e_Term e = t.

(** The message an applied entry becomes. *)
Definition msg_of (e : RaftLogEntry) : ApplyMsg :=
  mkApplyMsg true (e_Index e) (e_Term e) (e_Key e) (e_Value e) (e_Tombstone e).

Section commit.
Context (ids : list Z).

Definition chosen (g : ghost) (t : Z) (i : nat) : Prop :=
  ∃ Q, majority ids Q ∧ ∀ v, v ∈ Q → (i ≤ ack g v t)%nat.

Definition blocked (s : cluster) (g : ghost) (t : Z) (i : nat) : Prop :=
  ∃ Q, majority ids Q ∧
    ∀ v, v ∈ Q → (ack g v t < i)%nat ∧ ∃ r, c_nodes s !! v = Some r ∧ t < currentTerm r.

(** [P] holds what node [v] has acknowledged in the terms before [T]. *)
Definition acked_safe (h : history) (g : ghost) (s : cluster) (v T : Z)
    (P : list RaftLogEntry) : Prop :=
  ∀ t i j L, t < T → (i ≤ ack g v t)%nat → leaders h !! t = Some (j, L) → own L t i →
    take (S i) L `prefix_of` P ∨ blocked s g t i.

(** A prefix of what has been chosen in some term up to [T]. *)
Definition decided (h : history) (g : ghost) (T : Z) (P : list RaftLogEntry) : Prop :=
  P `prefix_of` [dummy] ∨
  ∃ t i j L, t ≤ T ∧ leaders h !! t = Some (j, L) ∧ own L t i ∧ chosen g t i
    ∧ P `prefix_of` take (S i) L.

(** The part of a node's log that is committed. *)
Definition committed_log (r : RaftNode) : list RaftLogEntry :=
  take (S (Z.to_nat (commitIndex r))) (rn_log r).

Record node_safe (h : history) (g : ghost) (s : cluster) (v : Z) (r : RaftNode) : Prop := {
  ns_ack : acked_safe h g s v (currentTerm r + 1) (rn_log r);
  ns_terms : ∀ e, e ∈ rn_log r → e_Term e ≤ currentTerm r;
  ns_cand : role r = Candidate → clogs g !! (v, currentTerm r) = Some (rn_log r);
  ns_lead : role r = Leader → length (rn_log r) = S (ack g v (currentTerm r));
  ns_match : role r = Leader → ∀ p, p ∈ rn_peers r →
               get0 (matchIndex r) p ≤ Z.of_nat (ack g p (currentTerm r));
  ns_commit : 0 ≤ commitIndex r < len (rn_log r);
  ns_decided : decided h g (currentTerm r) (committed_log r);
  ns_applied : 0 ≤ lastApplied r ≤ commitIndex r;
  ns_msgs : ∀ msgs, applyCh r = Some msgs →
              msgs = msg_of <$> take (Z.to_nat (lastApplied r)) (drop 1 (rn_log r)) }.

(** The index of the last entry an AppendEntries call covers. *)
Definition covers (args : AppendEntriesArgs) : Z :=
  ae_PrevLogIndex args + len (ae_Entries args).

Definition flight_safe (h : history) (g : ghost) (f : flight) : Prop :=
  (∀ from to args, f = VoteCall from to args →
     ∃ P e, clogs g !! (from, rv_Term args) = Some P ∧ last P = Some e
       ∧ rv_LastLogIndex args = len P - 1 ∧ rv_LastLogTerm args = e_Term e)
  ∧ (∀ from to args, append_info f = Some (from, to, args) →
       ∃ L, leaders h !! ae_Term args = Some (from, L)
         ∧ 0 ≤ ae_LeaderCommit args ≤ covers args ∧ covers args < len L
         ∧ decided h g (ae_Term args) (take (S (Z.to_nat (ae_LeaderCommit args))) L))
  ∧ (∀ from to args reply, f = AppendDone from to args reply → aer_Success reply = true →
       covers args ≤ Z.of_nat (ack g to (ae_Term args))).

Record committed (h : history) (g : ghost) (s : cluster) : Prop := {
  cm_dom : ∀ v, v ∈ ids → is_Some (c_nodes s !! v);
  cm_nodes : ∀ v r, c_nodes s !! v = Some r → node_safe h g s v r;
  cm_flights : Forall (flight_safe h g) (c_flights s);
  cm_acks : ∀ v t, (0 < ack g v t)%nat →
    (∃ r, c_nodes s !! v = Some r ∧ t ≤ currentTerm r)
    ∧ ∃ j L, leaders h !! t = Some (j, L) ∧ (ack g v t < length L)%nat;
  cm_votes : ∀ v T c, votes h !! (v, T) = Some c →
    is_Some (c_nodes s !! v) ∧ ∃ P, clogs g !! (c, T) = Some P ∧ acked_safe h g s v T P;
  cm_clogs : ∀ c T P, clogs g !! (c, T) = Some P →
    (∃ r, c_nodes s !! c = Some r ∧ T ≤ currentTerm r)
    ∧ good_log (leaders h) P ∧ ∀ e, e ∈ P → e_Term e < T;
  cm_leaders : ∀ T c L, leaders h !! T = Some (c, L) →
    (∃ P, clogs g !! (c, T) = Some P ∧ P `prefix_of` L) ∧ ∀ e, e ∈ L → e_Term e ≤ T }.

(** ** Time *)

(** A later moment: leader logs and acknowledgements have grown, terms have not
    decreased, and what was acknowledged in a past term is fixed. *)
Record later (h : history) (g : ghost) (s : cluster) (h' : history) (g' : ghost) (s' : cluster)
    : Prop := {
  lt_leaders : leaders_ext (leaders h) (leaders h');
  lt_ack : ∀ v t, (ack g v t ≤ ack g' v t)%nat;
  lt_frozen : ∀ v t r, c_nodes s !! v = Some r → t < currentTerm r → ack g' v t = ack g v t;
  lt_nodes : ∀ v r, c_nodes s !! v = Some r →
    ∃ r', c_nodes s' !! v = Some r' ∧ currentTerm r ≤ currentTerm r';
  lt_clogs : ∀ k P, clogs g !! k = Some P → clogs g' !! k = Some P }.

Section later.
Context {h : history} {g : ghost} {s : cluster} {h' : history} {g' : ghost} {s' : cluster}.
Context (Hl : later h g s h' g' s').

Lemma blocked_later t i : blocked s g t i → blocked s' g' t i.
Proof using Hl.
  intros (Q & HQ & Hv). exists Q. split; [done|]. intros v HvQ. destruct (Hv v HvQ) as (Ha & r & Hr & Ht).
  rewrite (lt_frozen _ _ _ _ _ _ Hl v t r Hr Ht). split; [done|].
  destruct (lt_nodes _ _ _ _ _ _ Hl v r Hr) as (r' & Hr' & Hle). exists r'. split; [done|lia].
Qed.

Lemma chosen_later t i : chosen g t i → chosen g' t i.
Proof using Hl.
  intros (Q & HQ & Hv). exists Q. split; [done|]. intros v HvQ. specialize (Hv v HvQ).
  pose proof (lt_ack _ _ _ _ _ _ Hl v t). lia.
Qed.

(** An index inside the old log of a leader means the same later. *)
Lemma leader_later t j L' i :
  leaders h' !! t = Some (j, L') →
  (∃ j0 L0, leaders h !! t = Some (j0, L0) ∧ (i < length L0)%nat) →
  ∃ L, leaders h !! t = Some (j, L) ∧ (i < length L)%nat ∧ take (S i) L' = take (S i) L
    ∧ (own L' t i → own L t i).
Proof using Hl.
  intros HL' (j0 & L & HL & Hi). destruct (lt_leaders _ _ _ _ _ _ Hl t j0 L HL) as [L1 E].
  rewrite HL' in E. injection E as -> ->. exists L. split_and!; [done|done| |].
  - by rewrite take_app_le by lia.
  - intros (e & He & Ht). exists e. by rewrite lookup_app_l in He.
Qed.

Lemma decided_later T T' P : T ≤ T' → decided h g T P → decided h' g' T' P.
Proof using Hl.
  intros HT [Hd|(t & i & j & L & Ht & HL & (e & He & Het) & Hc & Hp)]; [by left|right].
  destruct (lt_leaders _ _ _ _ _ _ Hl t j L HL) as [L1 E].
  exists t, i, j, (L ++ L1). split_and!; [lia|done| |by apply chosen_later|].
  - exists e. split; [by apply lookup_app_l_Some|done].
  - apply lookup_lt_Some in He. by rewrite take_app_le by lia.
Qed.

Lemma flight_safe_later f : flight_safe h g f → flight_safe h' g' f.
Proof using Hl.
  intros (H1 & H2 & H3). split_and!.
  - intros from to args E. destruct (H1 _ _ _ E) as (P & e & HP & ?). exists P, e.
    split; [|done]. by apply (lt_clogs _ _ _ _ _ _ Hl).
  - intros from to args E. destruct (H2 _ _ _ E) as (L & HL & Hc & Hlt & Hd).
    destruct (lt_leaders _ _ _ _ _ _ Hl _ _ _ HL) as [L1 E1]. exists (L ++ L1).
    split_and!; [done|apply Hc|apply Hc|rewrite len_app; pose proof (len_nonneg L1); lia|].
    rewrite take_app_le by (unfold len in *; lia). by eapply decided_later.
  - intros from to args reply E Hs. specialize (H3 _ _ _ _ E Hs).
    pose proof (lt_ack _ _ _ _ _ _ Hl to (ae_Term args)). lia.
Qed.

Lemma acked_safe_later v T P :
  (∀ t, t < T → ack g' v t = ack g v t) →
  (∀ t j L, leaders h' !! t = Some (j, L) → 0 < t ∧ L !! 0%nat = Some dummy) →
  committed h g s → acked_safe h g s v T P → acked_safe h' g' s' v T P.
Proof using Hl.
  intros Hsame Hpos Hc Hs t i j L' Ht Hi HL' Hown. rewrite Hsame in Hi by done.
  destruct (Hpos t j L' HL') as [Ht0 Hd].
  assert (0 < i)%nat as Hi0.
  { destruct i; [|lia]. destruct Hown as (e & He & Het). rewrite Hd in He. injection He as <-.
    cbn in Het. lia. }
  destruct (cm_acks _ _ _ Hc v t) as (_ & j0 & L0 & HL0 & Hlt); [lia|].
  destruct (leader_later t j L' i HL') as (L & HL & HiL & E & Ho).
  { exists j0, L0. split; [done|lia]. }
  rewrite E. destruct (Hs t i j L Ht Hi HL (Ho Hown)) as [?|Hb]; [by left|right]. by apply blocked_later.
Qed.
End later.
End commit.

(** ** Leader completeness *)

Section complete.
Context (ids : list Z) (Hids : valid_ids ids).
Context {h : history} {g : ghost} {s : cluster}.
Context (Hi : inv ids h s) (Hc : committed ids h g s).

Lemma chosen_not_blocked t i : chosen ids g t i → blocked ids s g t i → False.
Proof using Hids.
  intros (Q1 & M1 & H1) (Q2 & M2 & H2). destruct (majority_meet ids Hids Q1 Q2 M1 M2) as (v & V1 & V2).
  specialize (H1 v V1). destruct (H2 v V2) as [? _]. lia.
Qed.

Lemma leader_complete T c L t j Lt i :
  leaders h !! T = Some (c, L) → leaders h !! t = Some (j, Lt) → t < T → own Lt t i →
  take (S i) Lt `prefix_of` L ∨ blocked ids s g t i.
Proof using Hi Hc.
  intros HL HLt Ht Hown. destruct (cm_leaders _ _ _ _ Hc T c L HL) as [(P & HP & HPL) _].
  destruct (iv_leaders _ _ _ Hi T c L HL) as (_ & (Q & HQ & HV)%quorum_majority & _).
  destruct (decide (set_Exists (λ v, (i ≤ ack g v t)%nat) Q)) as [(v & HvQ & Hv)|Hno].
  - destruct (cm_votes _ _ _ _ Hc v T c (HV v HvQ)) as (_ & P' & HP' & Hs).
    rewrite HP in HP'. injection HP' as <-.
    destruct (Hs t i j Lt Ht Hv HLt Hown) as [Hp|Hb]; [left|by right]. by etransitivity.
  - right. exists Q. split; [done|]. intros v HvQ.
    assert (¬ (i ≤ ack g v t)%nat) as Hv by (intros ?; apply Hno; by exists v). split; [lia|].
    destruct (cm_votes _ _ _ _ Hc v T c (HV v HvQ)) as ((r & Hr) & _). exists r. split; [done|].
    pose proof (no_votes_old _ _ _ _ (iv_nodes _ _ _ Hi v r Hr) T c (HV v HvQ)). lia.
Qed.

Lemma leader_pos t j L : leaders h !! t = Some (j, L) → 0 < t ∧ L !! 0%nat = Some dummy.
Proof using Hi. intros HL. destruct (iv_leaders _ _ _ Hi t j L HL) as (? & _ & [? _]). done. Qed.

(** What has been decided is in the log of every leader of that time or later. *)
Lemma decided_in_leader T P T' c L :
  decided ids h g T P → leaders h !! T' = Some (c, L) → T ≤ T' → P `prefix_of` L.
Proof using Hids Hi Hc.
  intros [Hd|(t & i & j & Lt & Ht & HLt & Hown & Hch & Hp)] HL HT.
  - destruct (leader_pos T' c L HL) as [_ H0]. etransitivity; [exact Hd|].
    destruct L as [|x L]; [done|]. injection H0 as ->. apply (prefix_app [dummy] [] L), prefix_nil.
  - etransitivity; [exact Hp|]. destruct (decide (t = T')) as [->|Hne].
    { rewrite HL in HLt. injection HLt as <- <-. apply prefix_take. }
    destruct (leader_complete T' c L t j Lt i HL HLt ltac:(lia) Hown) as [?|Hb]; [done|].
    destruct (chosen_not_blocked t i Hch Hb).
Qed.

(** Two decided prefixes never conflict. *)
Lemma decided_comparable T1 T2 P1 P2 :
  decided ids h g T1 P1 → decided ids h g T2 P2 → P1 `prefix_of` P2 ∨ P2 `prefix_of` P1.
Proof using Hids Hi Hc.
  intros [D1|(t1 & i1 & j1 & L1 & Ht1 & HL1 & O1 & C1 & H1)] D2.
  { destruct D2 as [D2|(t2 & i2 & j2 & L2 & Ht2 & HL2 & O2 & C2 & H2)]; [by eapply prefix_comparable|].
    eapply prefix_comparable; [|exact H2]. etransitivity; [exact D1|].
    destruct (leader_pos _ _ _ HL2) as [_ H0]. destruct L2 as [|x L2]; [done|]. injection H0 as ->.
    cbn. apply (prefix_app [dummy] []), prefix_nil. }
  destruct D2 as [D2|(t2 & i2 & j2 & L2 & Ht2 & HL2 & O2 & C2 & H2)].
  { eapply prefix_comparable; [exact H1|]. etransitivity; [exact D2|].
    destruct (leader_pos _ _ _ HL1) as [_ H0]. destruct L1 as [|x L1]; [done|]. injection H0 as ->.
    cbn. apply (prefix_app [dummy] []), prefix_nil. }
  destruct (Z.le_ge_cases t1 t2) as [Hle12|Hle12].
  - apply (prefix_comparable P1 P2 L2).
    + eapply (decided_in_leader t1); [|done|done]. right. by exists t1, i1, j1, L1.
    + etransitivity; [exact H2|]. apply prefix_take.
  - apply (prefix_comparable P1 P2 L1).
    + etransitivity; [exact H1|]. apply prefix_take.
    + eapply (decided_in_leader t2); [|done|done]. right. by exists t2, i2, j2, L2.
Qed.

(** Terms do not decrease along a log. *)
Lemma good_log_mono P k1 k2 e1 e2 :
  good_log (leaders h) P → P !! k1 = Some e1 → P !! k2 = Some e2 → (k1 ≤ k2)%nat →
  e_Term e1 ≤ e_Term e2.
Proof using Hc.
  intros [H0 Hg] E1 E2 Hle. destruct (decide (k1 = k2)) as [->|Hne]; [by simplify_eq|].
  destruct (Hg k2 e2) as (_ & _ & j & L & HL & Ht); [lia|done|].
  apply (proj2 (cm_leaders _ _ _ _ Hc _ _ _ HL)), (list_elem_of_lookup_2 _ k1).
  rewrite <-(lookup_take_lt L (S k2)), <-Ht, lookup_take_lt by lia. done.
Qed.

(** A candidate whose log is as up to date as the voter's holds what the voter
    has acknowledged. *)
Lemma up_to_date_safe v V T c P ev ep :
  clogs g !! (c, T) = Some P → good_log (leaders h) V →
  acked_safe ids h g s v T V →
  last V = Some ev → last P = Some ep →
  e_Term ev < e_Term ep ∨ (e_Term ep = e_Term ev ∧ len V - 1 ≤ len P - 1) →
  acked_safe ids h g s v T P.
Proof using Hi Hc.
  intros HP HgV Hs Hev Hep Hup t i j L Ht Hack HL Hown.
  destruct (Hs t i j L Ht Hack HL Hown) as [HV|]; [|by right].
  destruct (cm_clogs _ _ _ _ Hc c T P HP) as (_ & HgP & HtP).
  rewrite last_lookup in Hev, Hep.
  destruct Hown as (e & He & Het). destruct (leader_pos t j L HL) as [Ht0 HL0].
  assert (V !! i = Some e) as HeV.
  { eapply prefix_lookup_Some; [|exact HV]. rewrite lookup_take_lt by lia. done. }
  pose proof (lookup_lt_Some _ _ _ HeV) as HiV.
  pose proof (good_log_mono V i _ e ev HgV HeV Hev ltac:(lia)) as Hmono.
  pose proof (lookup_lt_Some _ _ _ Hep) as HnP. set (n := Init.Nat.pred (length P)) in *.
  assert (0 < n)%nat as Hn.
  { destruct n; [|lia]. destruct HgP as [H0 _]. rewrite H0 in Hep. injection Hep as <-. cbn in Hup. lia. }
  destruct HgP as [HP0 HgP]. destruct (HgP n ep Hn Hep) as (_ & _ & ju & Lu & HLu & Eu).
  rewrite (take_ge P) in Eu by lia.
  assert (take (S i) L `prefix_of` Lu ∨ blocked ids s g t i) as [HpLu|]; [|assert (i ≤ n)%nat as Hin|by right].
  { destruct (decide (e_Term ep = t)) as [Et|Hne].
    - left. rewrite Et, HL in HLu. injection HLu as _ <-. apply prefix_take.
    - apply (leader_complete _ ju Lu t j L i HLu HL); [lia|by exists e]. }
  { destruct (decide (e_Term ep = t)) as [Et|Hne]; [unfold len in Hup; lia|].
    apply Nat.nlt_ge. intros Hlt.
    assert (Lu !! n = Some ep) as Hn1.
    { rewrite <-(lookup_take_lt Lu (S n)), <-Eu by lia. done. }
    assert (take (S i) L !! n = Some ep) as Hn2.
    { apply lookup_lt_Some in He. destruct (lookup_lt_is_Some_2 (take (S i) L) n) as [x Hx];
        [rewrite length_take; lia|].
      pose proof (prefix_lookup_Some _ _ _ _ Hx HpLu). congruence. }
    rewrite lookup_take_lt in Hn2 by lia.
    pose proof (proj2 (cm_leaders _ _ _ _ Hc t j L HL) ep (list_elem_of_lookup_2 _ _ _ Hn2)). lia. }
  left. rewrite Eu. apply prefix_take_le; [done|]. rewrite length_take. lia.
Qed.
End complete.
