(* ===== verification/RaftAgree.v ===== *)
(** * Every step of the cluster keeps the committed entries

    [RaftCommit.committed] is preserved by every step.  The transitions are
    grouped by what they do to the history: most change nothing that was
    acknowledged, a candidate records its log, a leader or a follower
    acknowledges more of the log of the leader of its term. *)

From S2P Require Import Prelude GoBytes RaftNode RaftCluster RaftInv RaftSafety RaftLive RaftCommit.

Local Open Scope Z_scope.

(** ** Growing the ghost state *)

Definition g_ack (g : ghost) (v t : Z) (n : nat) : ghost :=
  mkGhost (<[(v, t) := n]> (acks g)) (clogs g).
Definition g_clog (g : ghost) (c T : Z) (P : list RaftLogEntry) : ghost :=
  mkGhost (acks g) (<[(c, T) := P]> (clogs g)).

Lemma ack_g_ack g v t n : ack (g_ack g v t n) v t = n.
Proof. unfold ack. cbn. by rewrite lookup_insert_eq. Qed.
Lemma ack_g_ack_ne g v t n v' t' : (v', t') ≠ (v, t) → ack (g_ack g v t n) v' t' = ack g v' t'.
Proof. intros H. unfold ack. cbn. by rewrite lookup_insert_ne by congruence. Qed.
Lemma ack_g_clog g c T P v t : ack (g_clog g c T P) v t = ack g v t.
Proof. done. Qed.

(** ** One step of one node *)

Section node_step.
Context (ids : list Z) (Hids : valid_ids ids).
Context {h h' : history} {g g' : ghost} {s s' : cluster} {i : Z} {r r' : RaftNode}.
Context (Hi : inv ids h s) (Hc : committed ids h g s) (Hi' : inv ids h' s').
Context (Hr : c_nodes s !! i = Some r) (Hn : c_nodes s' = <[i := r']> (c_nodes s)).
Lemma node_self : c_nodes s' !! i = Some r'.
Proof using Hn. by rewrite Hn, lookup_insert_eq. Qed.

Lemma leader_pos' t j L : leaders h' !! t = Some (j, L) → 0 < t ∧ L !! 0%nat = Some dummy.
Proof using Hi'. exact (leader_pos ids Hi' t j L). Qed.

(** An entry of a leader's own is not the dummy. *)
Lemma own_pos t j L k : leaders h' !! t = Some (j, L) → own L t k → (0 < k)%nat.
Proof using Hi'.
  intros [Ht H0]%leader_pos' (e & He & Het). destruct k; [|apply Nat.lt_0_succ]. rewrite H0 in He.
  injection He as <-. cbn in Het. exfalso. by rewrite <-Het in Ht.
Qed.

(** Nothing has been acknowledged in a term the node has not seen. *)
Lemma ack_future t : currentTerm r < t → ack g i t = 0%nat.
Proof using Hc Hr.
  intros Ht. destruct (decide (0 < ack g i t)%nat) as [Hp|]; [|lia].
  destruct (cm_acks _ _ _ _ Hc i t Hp) as ((r0 & Hr0 & Hle) & _). rewrite Hr in Hr0.
  injection Hr0 as <-. lia.
Qed.

Context (HT : currentTerm r ≤ currentTerm r') (Hgr : grows h h' i r').
Context (Hne : ∀ v t, (v, t) ≠ (i, currentTerm r') → ack g' v t = ack g v t).
Context (Hup : (ack g i (currentTerm r') ≤ ack g' i (currentTerm r'))%nat).
Context (Hcl : ∀ k P, clogs g !! k = Some P → clogs g' !! k = Some P).

Lemma node_later : later h g s h' g' s'.
Proof using Hr Hn HT Hgr Hne Hup Hcl.
  split; [apply Hgr| | | |done].
  - intros v t. destruct (decide ((v, t) = (i, currentTerm r'))) as [[= -> ->]|E]; [done|].
    by rewrite Hne.
  - intros v t rv Hv Ht. apply Hne. intros [= -> ->]. rewrite Hr in Hv. injection Hv as <-. lia.
  - intros v rv Hv. rewrite Hn, lookup_insert. case_decide as E; [|by exists rv].
    exists r'. split; [done|]. subst v. rewrite Hr in Hv. injection Hv as <-. done.
Qed.

(** What the acting node has acknowledged in earlier terms it still has. *)
Lemma acked_past P :
  acked_safe ids h g s i (currentTerm r + 1) P →
  (∀ k j L, (k ≤ ack g' i (currentTerm r'))%nat → leaders h' !! currentTerm r' = Some (j, L) →
     own L (currentTerm r') k → take (S k) L `prefix_of` P ∨ blocked ids s' g' (currentTerm r') k) →
  acked_safe ids h' g' s' i (currentTerm r' + 1) P.
Proof using Hi Hc Hi' Hr Hn HT Hgr Hne Hup Hcl.
  intros Hs Hnow t k j L Ht Hk HL Ho. destruct (decide (t = currentTerm r')) as [->|Hd]; [by eapply Hnow|].
  rewrite Hne in Hk by congruence. pose proof (own_pos _ _ _ _ HL Ho) as Hpos.
  destruct (decide (t ≤ currentTerm r)) as [Hle|Hgt]; [|rewrite ack_future in Hk; lia].
  assert (t < currentTerm r') as Hlt by lia.
  destruct (cm_acks _ _ _ _ Hc i t) as (_ & j0 & L0 & HL0 & Hl0); [lia|].
  destruct (leader_later node_later t j L k HL) as (L1 & HL1 & _ & E & Ho1).
  { exists j0, L0. split; [done|lia]. }
  rewrite E. destruct (Hs t k j L1 ltac:(lia) Hk HL1 (Ho1 Ho)) as [?|?]; [by left|right].
  by eapply blocked_later, H; apply node_later.
Qed.

Lemma other_safe v rv : v ≠ i → node_safe ids h g s v rv → node_safe ids h' g' s' v rv.
Proof using Hc Hi' Hr Hn HT Hgr Hne Hup Hcl.
  intros Hv []. pose proof node_later as Hl. split; try done.
  - apply (acked_safe_later ids Hl); [|apply leader_pos'|done|done].
    intros t _. apply Hne. congruence.
  - intros Hrole. by apply Hcl, ns_cand.
  - intros Hrole. rewrite Hne by congruence. by apply ns_lead.
  - intros Hrole p Hp. specialize (ns_match Hrole p Hp).
    pose proof (lt_ack _ _ _ _ _ _ Hl p (currentTerm rv)). lia.
  - by eapply decided_later.
Qed.

Context (Hvote : votedFor r' = -1 ∨ (currentTerm r' = currentTerm r ∧ votedFor r' = votedFor r)
  ∨ ∃ P, clogs g' !! (votedFor r', currentTerm r') = Some P
      ∧ acked_safe ids h' g' s' i (currentTerm r') P).
Lemma votes_safe v T c : votes h' !! (v, T) = Some c →
  is_Some (c_nodes s' !! v) ∧ ∃ P, clogs g' !! (c, T) = Some P ∧ acked_safe ids h' g' s' v T P.
Proof using Hi Hc Hi' Hr Hn HT Hgr Hne Hup Hcl Hvote.
  intros HV. pose proof node_later as Hl. assert (votes h !! (v, T) = Some c ∨
    v = i ∧ T = currentTerm r' ∧ ∃ P, clogs g' !! (c, T) = Some P ∧ acked_safe ids h' g' s' v T P)
    as [Hold|(-> & -> & ?)].
  { destruct (gr_votes_new _ _ _ _ Hgr v T c HV) as [?|(-> & -> & ->)]; [by left|].
    pose proof (no_vote _ _ _ _ (iv_nodes _ _ _ Hi' i r' node_self)) as Hv'. rewrite HV in Hv'.
    destruct Hvote as [E|[[E1 E2]|?]]; [by rewrite decide_True in Hv'| |by right]. left.
    pose proof (no_vote _ _ _ _ (iv_nodes _ _ _ Hi i r Hr)) as Hv. rewrite E1, E2 in *.
    rewrite Hv. by case_decide. }
  2:{ rewrite node_self. by split. }
  destruct (cm_votes _ _ _ _ Hc v T c Hold) as ((rv & Hrv) & P & HP & Hs). split.
  { destruct (lt_nodes _ _ _ _ _ _ Hl v rv Hrv) as (rv' & -> & _). done. }
  exists P. split; [by apply Hcl|]. apply (acked_safe_later ids Hl); [|apply leader_pos'|done|done].
  intros t Ht. apply Hne. intros [= -> ->]. rewrite Hr in Hrv. injection Hrv as <-.
  pose proof (no_votes_old _ _ _ _ (iv_nodes _ _ _ Hi i r Hr) T c Hold). lia.
Qed.

Context (Hack : (0 < ack g' i (currentTerm r'))%nat →
  ∃ j L, leaders h' !! currentTerm r' = Some (j, L) ∧ (ack g' i (currentTerm r') < length L)%nat).
Context (Hclnew : ∀ c T P, clogs g' !! (c, T) = Some P → clogs g !! (c, T) = Some P
  ∨ c = i ∧ T = currentTerm r' ∧ good_log (leaders h') P ∧ ∀ e, e ∈ P → e_Term e < T).
Context (Hsafe : node_safe ids h' g' s' i r').
Context (Hlead : role r' = Leader →
  ∃ P, clogs g' !! (i, currentTerm r') = Some P ∧ P `prefix_of` rn_log r').
Context (Hfl : Forall (flight_safe ids h' g') (c_flights s')).

Lemma committed_step : committed ids h' g' s' ∧ later h g s h' g' s'.
Proof using Hi Hc Hi' Hr Hn HT Hgr Hne Hup Hcl Hack Hclnew Hsafe Hvote Hlead Hfl.
  pose proof node_later as Hl. split; [|done]. split; [| |done| | | |].
  - intros v Hv. destruct (cm_dom _ _ _ _ Hc v Hv) as [rv Hrv].
    destruct (lt_nodes _ _ _ _ _ _ Hl v rv Hrv) as (rv' & -> & _). done.
  - intros v rv. rewrite Hn, lookup_insert. case_decide as E; [intros [= <-]; by subst|].
    intros Hv. apply other_safe; [done|by apply (cm_nodes _ _ _ _ Hc)].
  - intros v t Hp. destruct (decide ((v, t) = (i, currentTerm r'))) as [[= -> ->]|E].
    { split; [|by apply Hack]. exists r'. split; [apply node_self|lia]. }
    rewrite Hne in * by done. destruct (cm_acks _ _ _ _ Hc v t Hp) as ((rv & Hrv & Hle) & j & L & HL & Hlt).
    split.
    + destruct (lt_nodes _ _ _ _ _ _ Hl v rv Hrv) as (rv' & ? & ?). exists rv'. split; [done|lia].
    + destruct (lt_leaders _ _ _ _ _ _ Hl t j L HL) as [L1 HL1]. exists j, (L ++ L1).
      split; [done|]. rewrite length_app. lia.
  - apply votes_safe.
  - intros c T P HP. destruct (Hclnew c T P HP) as [Hold|(-> & -> & HgP & HtP)].
    + destruct (cm_clogs _ _ _ _ Hc c T P Hold) as ((rc & Hrc & Hle) & HgP & HtP). split_and!; [|..|done].
      * destruct (lt_nodes _ _ _ _ _ _ Hl c rc Hrc) as (rc' & ? & ?). exists rc'. split; [done|lia].
      * eapply good_log_ext; [apply Hgr|done].
    + split_and!; [|done|done]. exists r'. split; [apply node_self|lia].
  - intros T c L HL. destruct (gr_leaders_new _ _ _ _ Hgr T c L HL) as [Hold|(-> & -> & Hrole & ->)].
    + destruct (cm_leaders _ _ _ _ Hc T c L Hold) as ((P & HP & HPL) & HtL). split; [|done].
      exists P. split; [by apply Hcl|done].
    + split; [by apply Hlead|apply Hsafe].
Qed.
End node_step.

(** ** What the log changes leave alone *)

Lemma take_kept {A} (l l' : list A) c :
  (c < length l)%nat → take (S c) l `prefix_of` l' → (c < length l')%nat ∧ take (S c) l' = take (S c) l.
Proof.
  intros Hc Hp. pose proof (prefix_length _ _ Hp) as Hl. rewrite length_take in Hl.
  split; [lia|]. apply prefix_take_eq in Hp. rewrite length_take, Nat.min_l in Hp by lia. done.
Qed.

Lemma applied_kept {A} (l l' : list A) a c :
  (a ≤ c)%nat → take (S c) l' = take (S c) l → take a (drop 1 l') = take a (drop 1 l).
Proof.
  intros Ha E. rewrite !take_drop_commute. f_equal.
  assert (∀ k : list A, take (1 + a) k = take (1 + a) (take (S c) k)) as H.
  { intros k. rewrite take_take. f_equal. lia. }
  by rewrite H, E, <-H.
Qed.

(** A node that keeps its committed entries keeps what it has committed and
    applied. *)
Lemma node_kept ids h g s v r r' :
  node_safe ids h g s v r → committed_log r `prefix_of` rn_log r' →
  commitIndex r' = commitIndex r → lastApplied r' = lastApplied r → applyCh r' = applyCh r →
  0 ≤ commitIndex r' < len (rn_log r') ∧ committed_log r' = committed_log r
  ∧ 0 ≤ lastApplied r' ≤ commitIndex r'
  ∧ (∀ msgs, applyCh r' = Some msgs →
       msgs = msg_of <$> take (Z.to_nat (lastApplied r')) (drop 1 (rn_log r'))).
Proof.
  intros [] Hp E1 E2 E3. unfold len, committed_log in *. rewrite E1, E2, E3.
  destruct (take_kept (rn_log r) (rn_log r') (Z.to_nat (commitIndex r))) as [Hl E]; [lia|done|].
  split_and!; [lia|lia|done|lia|lia|].
  intros msgs Hm. rewrite (ns_msgs msgs Hm). f_equal. symmetry.
  by apply (applied_kept _ _ _ (Z.to_nat (commitIndex r))); [lia|].
Qed.

(** ** Steps that acknowledge nothing new *)

Definition quiet (r r' : RaftNode) : Prop :=
  rn_peers r' = rn_peers r ∧ rn_log r' = rn_log r ∧ commitIndex r' = commitIndex r
  ∧ lastApplied r' = lastApplied r ∧ applyCh r' = applyCh r ∧ currentTerm r ≤ currentTerm r'
  ∧ (role r' = Follower
     ∨ role r' = role r ∧ currentTerm r' = currentTerm r ∧ matchIndex r' = matchIndex r).

Section quiet.
Context (ids : list Z) {h h' : history} {g : ghost} {s s' : cluster} {i : Z} {r r' : RaftNode}.
Context (Hi : inv ids h s) (Hc : committed ids h g s) (Hi' : inv ids h' s').
Context (Hr : c_nodes s !! i = Some r) (Hn : c_nodes s' = <[i := r']> (c_nodes s)).
Context (Hgr : grows h h' i r') (Hq : quiet r r').

Lemma quiet_later : later h g s h' g s'.
Proof using Hr Hn Hgr Hq. by apply (node_later Hr Hn ltac:(apply Hq) Hgr). Qed.

(** No acknowledgement of a term the node has not seen. *)
Lemma acked_raise T P :
  acked_safe ids h g s i (currentTerm r + 1) P → acked_safe ids h g s i T P.
Proof using Hi Hc Hr.
  intros Hs t k j L Ht Hk HL Ho. destruct (decide (t < currentTerm r + 1)); [by eapply Hs|].
  pose proof (own_pos ids Hi t j L k HL Ho). rewrite (ack_future ids Hc Hr) in Hk by lia. lia.
Qed.

Lemma quiet_safe : node_safe ids h' g s' i r'.
Proof using Hi Hc Hi' Hr Hn Hgr Hq.
  pose proof quiet_later as Hl. pose proof (cm_nodes _ _ _ _ Hc i r Hr) as Hs.
  destruct Hq as (E1 & E2 & E3 & E4 & E5 & HT & E6).
  destruct (node_kept ids h g s i r r' Hs) as (K1 & K2 & K3 & K4); try done.
  { rewrite E2. apply prefix_take. }
  destruct Hs. split; try done.
  - apply (acked_safe_later ids Hl); [done|apply (leader_pos' ids Hi')|done|].
    rewrite E2. by apply acked_raise.
  - intros e He. rewrite E2 in He. specialize (ns_terms e He). lia.
  - intros Hrole. destruct E6 as [|(E6 & -> & _)]; [congruence|]. rewrite E2. apply ns_cand. congruence.
  - intros Hrole. destruct E6 as [|(E6 & -> & _)]; [congruence|]. rewrite E2. apply ns_lead. congruence.
  - intros Hrole. destruct E6 as [|(E6 & -> & ->)]; [congruence|]. rewrite E1. apply ns_match. congruence.
  - rewrite K2. eapply (decided_later ids Hl); [|done]. done.
Qed.

Context (Hvote : votedFor r' = -1 ∨ (currentTerm r' = currentTerm r ∧ votedFor r' = votedFor r)
  ∨ ∃ P, clogs g !! (votedFor r', currentTerm r') = Some P
      ∧ acked_safe ids h g s i (currentTerm r') P).
Context (Hfl : Forall (λ f, f ∈ c_flights s ∨ flight_safe ids h' g f) (c_flights s')).

Lemma quiet_step : committed ids h' g s' ∧ later h g s h' g s'.
Proof using Hi Hc Hi' Hr Hn Hgr Hq Hvote Hfl.
  pose proof quiet_later as Hl. pose proof quiet_safe as Hs.
  apply (committed_step ids (h:=h) (g:=g) (s:=s) (i:=i) (r:=r) (r':=r')); try done.
  - apply Hq.
  - destruct Hvote as [?|[?|(P & HP & HA)]]; [by left|by right; left|right; right]. exists P.
    split; [done|]. apply (acked_safe_later ids Hl); [done|apply (leader_pos' ids Hi')|done|done].
  - intros Hp. destruct (cm_acks _ _ _ _ Hc i _ Hp) as (_ & j & L & HL & Hlt).
    destruct (lt_leaders _ _ _ _ _ _ Hl _ j L HL) as [L1 HL1]. exists j, (L ++ L1).
    split; [done|]. rewrite length_app. lia.
  - by left.
  - intros Hrole. destruct Hq as (E1 & E2 & _ & _ & _ & _ & [E6|(E6 & -> & _)]); [congruence|].
    rewrite E2. apply (cm_leaders _ _ _ _ Hc _ _ _ (no_leader _ _ _ _ (iv_nodes _ _ _ Hi i r Hr) ltac:(congruence))).
  - eapply Forall_impl; [exact Hfl|]. intros f [Hf|?]; [|done].
    apply (flight_safe_later ids Hl). pose proof (cm_flights _ _ _ _ Hc) as Hall.
    rewrite Forall_forall in Hall. by apply Hall.
Qed.
End quiet.

(** ** Steps that make or keep a leader *)

(** The first broadcast, a heartbeat or the replication of a command. *)
Lemma broadcast_safe ids h g i r peers ms :
  leaders h !! currentTerm r = Some (i, rn_log r) → 0 ≤ commitIndex r < len (rn_log r) →
  decided ids h g (currentTerm r) (committed_log r) →
  heartbeats r peers = Ret ms → Forall (flight_safe ids h g) (launch i <$> ms).
Proof.
  intros HL Hci Hd Hms%heartbeats_segments. rewrite Forall_fmap. eapply Forall_impl; [exact Hms|].
  intros m (p & args & -> & Hp & HT & Hseg & Hlc & Hcov). split_and!; cbn; try done.
  intros from to args' [= <- <- <-]. exists (rn_log r). unfold covers. rewrite HT, Hlc, Hcov.
  split_and!; [done|lia..|done].
Qed.

Lemma heartbeats_deadline r d ps : heartbeats (set_deadline r d) ps = heartbeats r ps.
Proof. induction ps as [|p ps IH]; [done|]. cbn [heartbeats]. by rewrite IH. Qed.

Section lead.
Context (ids : list Z) {h h' : history} {g g' : ghost} {s s' : cluster} {i : Z} {r r' : RaftNode}.
Context (Hi : inv ids h s) (Hc : committed ids h g s) (Hi' : inv ids h' s').
Context (Hr : c_nodes s !! i = Some r) (Hn : c_nodes s' = <[i := r']> (c_nodes s)).
Context (HT : currentTerm r ≤ currentTerm r') (Hgr : grows h h' i r').
Context (Hrole : role r' = Leader) (Hlog : rn_log r `prefix_of` rn_log r').
Context (Hne : ∀ v t, (v, t) ≠ (i, currentTerm r') → ack g' v t = ack g v t).
Context (Hup : (ack g i (currentTerm r') ≤ ack g' i (currentTerm r'))%nat).
Context (Hall : length (rn_log r') = S (ack g' i (currentTerm r'))).
Context (Hcl : ∀ k P, clogs g !! k = Some P → clogs g' !! k = Some P).
Context (Hmatch : ∀ p, p ∈ rn_peers r' →
  get0 (matchIndex r') p ≤ Z.of_nat (ack g' p (currentTerm r'))).
Context (Hterms : ∀ e, e ∈ rn_log r' → e_Term e ≤ currentTerm r').
Context (E1 : commitIndex r' = commitIndex r) (E2 : lastApplied r' = lastApplied r).
Context (E3 : applyCh r' = applyCh r).

Lemma lead_later : later h g s h' g' s'.
Proof using Hr Hn HT Hgr Hne Hup Hcl. by apply (node_later Hr Hn HT Hgr). Qed.

Lemma lead_log : leaders h' !! currentTerm r' = Some (i, rn_log r').
Proof using Hi' Hn Hrole.
  apply (no_leader _ _ _ _ (iv_nodes _ _ _ Hi' i r' (node_self Hn))). done.
Qed.

Lemma lead_safe : node_safe ids h' g' s' i r'.
Proof using Hi Hc Hi' Hr Hn HT Hgr Hrole Hlog Hne Hup Hall Hcl Hmatch Hterms E1 E2 E3.
  pose proof lead_later as Hl. pose proof (cm_nodes _ _ _ _ Hc i r Hr) as Hs.
  destruct (node_kept ids h g s i r r' Hs) as (K1 & K2 & K3 & K4); try done.
  { etransitivity; [apply prefix_take|done]. }
  destruct Hs. split; try done.
  - apply (acked_past ids Hi Hc Hi' Hr Hn HT Hgr Hne Hup Hcl).
    + intros t k j L Ht Hk HL Ho. destruct (ns_ack t k j L Ht Hk HL Ho) as [?|?]; [left|by right].
      by etransitivity.
    + intros k j L Hk HL Ho. rewrite lead_log in HL. injection HL as <- <-. left. apply prefix_take.
  - congruence.
  - rewrite K2. by eapply (decided_later ids Hl).
Qed.

Context (Hclnew : ∀ c T P, clogs g' !! (c, T) = Some P → clogs g !! (c, T) = Some P
  ∨ c = i ∧ T = currentTerm r' ∧ good_log (leaders h') P ∧ ∀ e, e ∈ P → e_Term e < T).
Context (Hvote : (currentTerm r' = currentTerm r ∧ votedFor r' = votedFor r)
  ∨ votedFor r' = i ∧ currentTerm r' = currentTerm r + 1 ∧ clogs g' !! (i, currentTerm r') = Some (rn_log r)).
Context (Hlead : ∃ P, clogs g' !! (i, currentTerm r') = Some P ∧ P `prefix_of` rn_log r').
Context (ps : list Z) (ms : list rpc) (Hms : heartbeats r' ps = Ret ms).
Context (Hfl : ∀ f, f ∈ c_flights s' → f ∈ c_flights s ∨ f ∈ launch i <$> ms).

Lemma lead_step : committed ids h' g' s' ∧ later h g s h' g' s'.
Proof using Hi Hc Hi' Hr Hn HT Hgr Hrole Hlog Hne Hup Hall Hcl Hmatch Hterms E1 E2 E3 Hclnew Hvote Hlead Hms Hfl.
  pose proof lead_later as Hl. pose proof lead_safe as Hs.
  apply (committed_step ids (h:=h) (g:=g) (s:=s) (i:=i) (r:=r) (r':=r')); try done.
  - destruct Hvote as [?|(-> & ET & HP)]; [by right; left|right; right]. exists (rn_log r).
    split; [done|]. apply (acked_safe_later ids Hl); [|apply (leader_pos' ids Hi')|done|].
    + intros t Ht. apply Hne. intros [= ->]. lia.
    + rewrite ET. apply (ns_ack _ _ _ _ _ _ (cm_nodes _ _ _ _ Hc i r Hr)).
  - intros Hp. exists i, (rn_log r'). split; [apply lead_log|lia].
  - apply Forall_forall. intros f [Hf|Hf]%Hfl.
    + apply (flight_safe_later ids Hl). pose proof (cm_flights _ _ _ _ Hc) as Hfs.
      rewrite Forall_forall in Hfs. by apply Hfs.
    + pose proof (broadcast_safe ids h' g' i r' ps ms lead_log (ns_commit _ _ _ _ _ _ Hs)
        (ns_decided _ _ _ _ _ _ Hs) Hms) as Hb. rewrite Forall_forall in Hb. by apply Hb.
Qed.
End lead.

(** ** Elections *)

Lemma RequestVote_quiet r args c r' reply :
  RequestVote r args c = Ret (r', reply) →
  quiet r r' ∧ (votedFor r' = -1 ∨ (currentTerm r' = currentTerm r ∧ votedFor r' = votedFor r)
    ∨ votedFor r' = rv_CandidateID args ∧ currentTerm r' = rv_Term args
      ∧ ∃ e, last (rn_log r) = Some e ∧ (e_Term e < rv_LastLogTerm args
          ∨ rv_LastLogTerm args = e_Term e ∧ len (rn_log r) - 1 ≤ rv_LastLogIndex args)).
Proof.
  unfold RequestVote. set (r1 := if _ <? _ then _ else r).
  assert (quiet r r1 ∧ rv_Term args ≤ currentTerm r1 ∧ rn_log r1 = rn_log r
    ∧ (votedFor r1 = -1 ∨ (currentTerm r1 = currentTerm r ∧ votedFor r1 = votedFor r)))
    as (Hq & Hle & El & Hv).
  { unfold r1. destruct (Z.ltb_spec (currentTerm r) (rv_Term args)).
    - split_and!; [|cbn; lia|done|by left]. repeat split; [cbn; lia|by left].
    - split_and!; [|lia|done|by right]. repeat split; [lia|by right]. }
  clearbody r1. destruct (Z.ltb_spec (rv_Term args) (currentTerm r1)); [intros [= <- _]|intros E].
  { split; [done|]. tauto. }
  apply go_bind_Ret_inv in E as (e & [Hp He]%index_lookup & E).
  destruct (_ && _) eqn:Ev; injection E as <- _; (split; [done|]); [|tauto]. right. right.
  apply andb_true_iff in Ev as [_ Ev]. split_and!; [done|cbn; lia|]. exists e. split.
  - rewrite last_lookup. rewrite <-He, El. f_equal. rewrite El in Hp. unfold len in *. lia.
  - rewrite El in Ev. lia.
Qed.

Lemma becomeLeader_match r r' ms p :
  becomeLeader r = Ret (r', ms) → p ∈ rn_peers r → get0 (matchIndex r') p = 0.
Proof.
  unfold becomeLeader. cbv zeta. intros E Hp. apply go_bind_Ret_inv in E as (ms' & _ & E).
  injection E as <- _. by apply foldl_insert_lookup.
Qed.

Lemma last_index L (e : RaftLogEntry) :
  GoBytes.index L (len L - 1) = Ret e → last L = Some e.
Proof.
  intros [Hp He]%index_lookup. rewrite last_lookup, <-He. f_equal. unfold len in *. lia.
Qed.

Lemma startElection_shape r r' ms :
  startElection r = Ret (r', ms) →
  ∃ e r1, last (rn_log r) = Some e
    ∧ r1 = set_votes (set_vote (set_role r Candidate) (currentTerm r + 1) (rn_id r))
             (<[currentTerm r + 1 := 1]> (votesReceived r))
    ∧ (becomeLeader r1 = Ret (r', ms)
       ∨ r' = r1 ∧ ms = (λ p, SendRequestVote p (mkRequestVoteArgs (currentTerm r + 1) (rn_id r)
                            (len (rn_log r) - 1) (e_Term e))) <$> rn_peers r).
Proof.
  unfold startElection. cbv zeta. intros E. apply go_bind_Ret_inv in E as (e & He%last_index & E).
  exists e. eexists. split_and!; [done|reflexivity|]. destruct (_ <=? 1); [by left|right].
  by injection E as <- <-.
Qed.

Section elections.
Context (ids : list Z) {h h' : history} {g : ghost} {s s' : cluster} {i : Z} {r r' : RaftNode}.
Context (Hi : inv ids h s) (Hc : committed ids h g s) (Hi' : inv ids h' s').
Context (Hr : c_nodes s !! i = Some r) (Hn : c_nodes s' = <[i := r']> (c_nodes s)).
Context (Hgr : grows h h' i r').

(** A node that enters a new term has not entered it as a candidate before. *)
Lemma clog_fresh : clogs g !! (i, currentTerm r + 1) = None.
Proof using Hc Hr.
  destruct (clogs g !! (i, currentTerm r + 1)) as [P|] eqn:E; [|done].
  destruct (cm_clogs _ _ _ _ Hc _ _ _ E) as ((r0 & Hr0 & Hle) & _). rewrite Hr in Hr0.
  injection Hr0 as <-. lia.
Qed.

Lemma clog_keeps k P :
  clogs g !! k = Some P → clogs (g_clog g i (currentTerm r + 1) (rn_log r)) !! k = Some P.
Proof using Hc Hr.
  intros HP. cbn. rewrite lookup_insert_ne; [done|]. intros <-. rewrite clog_fresh in HP. done.
Qed.

Lemma clog_new c T P :
  clogs (g_clog g i (currentTerm r + 1) (rn_log r)) !! (c, T) = Some P →
  clogs g !! (c, T) = Some P
  ∨ c = i ∧ T = currentTerm r + 1 ∧ good_log (leaders h') P ∧ ∀ e, e ∈ P → e_Term e < T.
Proof using Hi Hc Hr Hgr.
  cbn. intros [[[= <- <-] <-]|[_ ?]]%lookup_insert_Some; [right|by left]. split_and!; [done|done| |].
  - eapply good_log_ext; [apply Hgr|]. apply (no_log _ _ _ _ (iv_nodes _ _ _ Hi i r Hr)).
  - intros e He. pose proof (ns_terms _ _ _ _ _ _ (cm_nodes _ _ _ _ Hc i r Hr) e He). lia.
Qed.

(** A candidate records its log and votes for itself. *)
Lemma candidate_step :
  rn_peers r' = rn_peers r → rn_log r' = rn_log r → commitIndex r' = commitIndex r →
  lastApplied r' = lastApplied r → applyCh r' = applyCh r → currentTerm r' = currentTerm r + 1 →
  votedFor r' = i → role r' = Candidate →
  Forall (λ f, f ∈ c_flights s ∨ flight_safe ids h' (g_clog g i (currentTerm r + 1) (rn_log r)) f)
    (c_flights s') →
  committed ids h' (g_clog g i (currentTerm r + 1) (rn_log r)) s'
  ∧ later h g s h' (g_clog g i (currentTerm r + 1) (rn_log r)) s'.
Proof using Hi Hc Hi' Hr Hn Hgr.
  intros E1 E2 E3 E4 E5 ET EV ER Hfl. set (g' := g_clog _ _ _ _) in *.
  assert (later h g s h' g' s') as Hl.
  { apply (node_later Hr Hn ltac:(lia) Hgr); [done|done|apply clog_keeps]. }
  pose proof (cm_nodes _ _ _ _ Hc i r Hr) as Hs.
  destruct (node_kept ids h g s i r r' Hs) as (K1 & K2 & K3 & K4); try done.
  { rewrite E2. apply prefix_take. }
  assert (node_safe ids h' g' s' i r') as Hs'.
  { destruct Hs. split; try done; try congruence.
    - apply (acked_safe_later ids Hl); [done|apply (leader_pos' ids Hi')|done|].
      rewrite E2. by apply (acked_raise ids Hi Hc Hr).
    - intros e He. rewrite E2 in He. specialize (ns_terms e He). lia.
    - intros _. cbn. by rewrite E2, ET, lookup_insert_eq.
    - rewrite K2. eapply (decided_later ids Hl); [|done]. lia. }
  apply (committed_step ids (h:=h) (g:=g) (s:=s) (i:=i) (r:=r) (r':=r')); try done.
  - lia.
  - apply clog_keeps.
  - right. right. exists (rn_log r). rewrite EV, ET. cbn. rewrite lookup_insert_eq. split; [done|].
    apply (acked_safe_later ids Hl); [done|apply (leader_pos' ids Hi')|done|apply Hs].
  - rewrite ET. intros Hp. change (ack g' i (currentTerm r + 1)) with (ack g i (currentTerm r + 1)) in Hp.
    rewrite (ack_future ids Hc Hr) in Hp by lia. lia.
  - rewrite ET. apply clog_new.
  - congruence.
  - eapply Forall_impl; [exact Hfl|]. intros f [Hf|?]; [|done].
    apply (flight_safe_later ids Hl). pose proof (cm_flights _ _ _ _ Hc) as Hfs.
    rewrite Forall_forall in Hfs. by apply Hfs.
Qed.

(** Nobody has acknowledged anything to a leader that is just elected. *)
Lemma ack_new_leader :
  role r' = Leader → (currentTerm r' = currentTerm r + 1 ∨ currentTerm r' = currentTerm r ∧ role r = Candidate) →
  ack g i (currentTerm r') = 0%nat.
Proof using Hi Hc Hi' Hr Hn Hgr.
  intros Hrole HT. destruct (decide (0 < ack g i (currentTerm r'))%nat) as [Hp|]; [|lia].
  destruct (cm_acks _ _ _ _ Hc i _ Hp) as (_ & j & L & HL & _).
  destruct (gr_leaders _ _ _ _ Hgr _ _ _ HL) as [L1 HL1].
  rewrite (no_leader _ _ _ _ (iv_nodes _ _ _ Hi' i r' (node_self Hn)) Hrole) in HL1.
  injection HL1 as <- _.
  destruct (no_led _ _ _ _ (iv_nodes _ _ _ Hi i r Hr) _ _ HL) as [Hle Hcand].
  destruct HT as [HT|[HT ?]]; [lia|]. by destruct (Hcand (eq_sym HT)).
Qed.
End elections.

Lemma handle_vote_reply_shape r T reply c r' ms :
  handle_vote_reply r T reply c = Ret (r', ms) →
  (quiet r r' ∧ ms = []
   ∧ (votedFor r' = -1 ∨ (currentTerm r' = currentTerm r ∧ votedFor r' = votedFor r)))
  ∨ role r = Candidate ∧ ∃ vs, becomeLeader (set_votes r vs) = Ret (r', ms).
Proof.
  unfold handle_vote_reply.
  assert (quiet r r) as Hq by (repeat split; [lia|by right]).
  destruct (_ && _) eqn:Eg; [|intros [= <- <-]; left; tauto].
  apply andb_true_iff in Eg as [Hrole%bool_decide_eq_true _].
  destruct (Z.ltb_spec (currentTerm r) (rvr_Term reply)).
  { intros [= <- <-]. left. split_and!; [|done|by left]. repeat split; [cbn; lia|by left]. }
  destruct (rvr_VoteGranted reply); [|intros [= <- <-]; left; tauto]. cbv zeta.
  destruct (_ && _); [intros E; right; split; [done|by eexists]|].
  intros [= <- <-]. left. split_and!; [|done|by right]. repeat split; [cbn; lia|by right].
Qed.

(** ** Committing and applying *)

Lemma apply_loop_msgs ls k r r' :
  good_log ls (rn_log r) → 0 ≤ lastApplied r → apply_loop k r = Ret r' →
  (∀ msgs, applyCh r = Some msgs →
     msgs = msg_of <$> take (Z.to_nat (lastApplied r)) (drop 1 (rn_log r))) →
  ∃ ch, r' = set_applied r (lastApplied r + Z.of_nat k) ch
    ∧ (∀ msgs, ch = Some msgs →
         msgs = msg_of <$> take (Z.to_nat (lastApplied r + Z.of_nat k)) (drop 1 (rn_log r))).
Proof.
  intros [_ Hg]. revert r Hg. induction k as [|k IH]; intros r Hg Ha E Hm; cbn [apply_loop] in E.
  { injection E as <-. exists (applyCh r). rewrite Z.add_0_r. split; [by destruct r|done]. }
  apply go_bind_Ret_inv in E as (e & [_ He]%index_lookup & E).
  destruct (Hg (Z.to_nat (lastApplied r + 1)) e) as (Hidx & _); [lia|done|].
  rewrite (proj2 (Z.ltb_lt 0 (e_Index e))) in E by lia.
  apply IH in E; cbn in *; [|done|lia|].
  - destruct E as (ch & -> & Hch). exists ch.
    rewrite <-Nat.add_1_l, Nat2Z.inj_add, Z.add_assoc. done.
  - intros msgs Hmsgs. destruct (applyCh r) as [ms|]; [|done]. injection Hmsgs as <-.
    rewrite (Hm ms eq_refl). replace (Z.to_nat (lastApplied r + 1)) with (S (Z.to_nat (lastApplied r))) by lia.
    rewrite (take_S_r _ _ e), fmap_app; [done|]. rewrite lookup_drop, <-He. f_equal. lia.
Qed.

(** Applying up to the commit index. *)
Lemma applyLogs_msgs ls r r' :
  good_log ls (rn_log r) → 0 ≤ lastApplied r ≤ commitIndex r → applyLogs r = Ret r' →
  (∀ msgs, applyCh r = Some msgs →
     msgs = msg_of <$> take (Z.to_nat (lastApplied r)) (drop 1 (rn_log r))) →
  ∃ ch, r' = set_applied r (commitIndex r) ch
    ∧ (∀ msgs, ch = Some msgs →
         msgs = msg_of <$> take (Z.to_nat (commitIndex r)) (drop 1 (rn_log r))).
Proof.
  intros Hg Ha E Hm. destruct (apply_loop_msgs ls _ r r' Hg ltac:(lia) E Hm) as (ch & -> & Hch).
  exists ch. replace (lastApplied r + _) with (commitIndex r) in * by lia. done.
Qed.

Lemma advance_loop_case k r N r' :
  advance_loop k r N = Ret r' → N - Z.of_nat k = commitIndex r →
  r' = r ∨ ∃ M e, commitIndex r < M ≤ N ∧ rn_log r !! Z.to_nat M = Some e
    ∧ e_Term e = currentTerm r ∧ majorityNeeded r ≤ replicas r M
    ∧ applyLogs (set_commit r M) = Ret r'.
Proof.
  revert N. induction k as [|k IH]; intros N E Hk; cbn [advance_loop] in E; [injection E as <-; by left|].
  apply go_bind_Ret_inv in E as (e & [_ He]%index_lookup & E).
  assert (advance_loop k r (N - 1) = Ret r' → r' = r ∨ ∃ M e, commitIndex r < M ≤ N
    ∧ rn_log r !! Z.to_nat M = Some e ∧ e_Term e = currentTerm r ∧ majorityNeeded r ≤ replicas r M
    ∧ applyLogs (set_commit r M) = Ret r') as Hrec.
  { intros [->|(M & e' & ? & Hrest)]%IH; [by left| |lia]. right. exists M, e'. split; [lia|done]. }
  destruct (Z.eqb_spec (e_Term e) (currentTerm r)); cbn [negb] in E; [|by apply Hrec].
  destruct (Z.leb_spec (majorityNeeded r) (replicas r N)); [|by apply Hrec].
  right. exists N, e. split_and!; try done; lia.
Qed.

(** The nodes a leader counts are a majority that has acknowledged the index. *)
Lemma replicas_chosen ids g i r M :
  valid_ids ids → i ∈ ids → rn_peers r = peers_of ids i → majorityNeeded r ≤ replicas r M →
  (Z.to_nat M ≤ ack g i (currentTerm r))%nat →
  (∀ p, p ∈ rn_peers r → get0 (matchIndex r) p ≤ Z.of_nat (ack g p (currentTerm r))) →
  chosen ids g (currentTerm r) (Z.to_nat M).
Proof.
  intros Hids Hin Hp Hmaj Hself Hm. set (F := filter (λ p, M ≤ get0 (matchIndex r) p) (rn_peers r)).
  assert (∀ p, p ∈ F → M ≤ get0 (matchIndex r) p ∧ p ≠ i ∧ p ∈ ids) as HF.
  { intros p [Hle Hin']%list_elem_of_filter. rewrite Hp in Hin'. by apply peers_elem in Hin'. }
  assert (NoDup F) as Hnd.
  { apply NoDup_filter. rewrite Hp. apply NoDup_filter, Hids. }
  exists ({[i]} ∪ list_to_set F). split; [split|].
  - intros v [->%elem_of_singleton|Hv%elem_of_list_to_set]%elem_of_union; [done|by apply HF].
  - rewrite size_union, size_singleton, size_list_to_set.
    + unfold majorityNeeded, replicas, len in Hmaj. fold F in Hmaj. rewrite Hp in Hmaj.
      rewrite (peers_length ids Hids i Hin).
      pose proof (Z.div_mod (Z.of_nat (length (peers_of ids i)) + 1) 2 ltac:(done)).
      pose proof (Z.mod_pos_bound (Z.of_nat (length (peers_of ids i)) + 1) 2 ltac:(done)). lia.
    + done.
    + intros v ->%elem_of_singleton Hv%elem_of_list_to_set. by apply HF in Hv as (_ & ? & _).
  - intros v [->%elem_of_singleton|Hv%elem_of_list_to_set]%elem_of_union; [done|].
    pose proof (proj1 (HF v Hv)). apply list_elem_of_filter in Hv as [_ Hv]. specialize (Hm v Hv). lia.
Qed.

(** Committing further, and applying what is committed. *)
Lemma node_safe_commit ids h g s v r r' M :
  node_safe ids h g s v r → good_log (leaders h) (rn_log r) → commitIndex r ≤ M < len (rn_log r) →
  decided ids h g (currentTerm r) (take (S (Z.to_nat M)) (rn_log r)) →
  applyLogs (set_commit r M) = Ret r' →
  (∃ ch, r' = set_applied (set_commit r M) M ch) ∧ node_safe ids h g s v r'.
Proof.
  intros [] Hg HM Hd E.
  destruct (applyLogs_msgs (leaders h) (set_commit r M) r' Hg) as (ch & -> & Hch); try done.
  { cbn. lia. }
  split; [by exists ch|]. split; cbn in *; try done; lia.
Qed.

Lemma AppendEntries_shape r args c r' reply :
  AppendEntries r args c = Ret (r', reply) →
  (quiet r r' ∧ aer_Success reply = false
   ∧ (votedFor r' = -1 ∨ (currentTerm r' = currentTerm r ∧ votedFor r' = votedFor r)))
  ∨ ∃ r2 prev L', quiet r r2 ∧ role r2 = Follower ∧ currentTerm r2 = ae_Term args
    ∧ (votedFor r2 = -1 ∨ (currentTerm r2 = currentTerm r ∧ votedFor r2 = votedFor r))
    ∧ rn_log r !! Z.to_nat (ae_PrevLogIndex args) = Some prev ∧ e_Term prev = ae_PrevLogTerm args
    ∧ append_loop (rn_log r) (ae_PrevLogIndex args + 1) (ae_Entries args) = Ret L'
    ∧ (r' = set_log r2 L'
       ∨ commitIndex r < ae_LeaderCommit args
         ∧ applyLogs (set_commit (set_log r2 L')
             (if ae_LeaderCommit args <? len L' - 1 then ae_LeaderCommit args else len L' - 1)) = Ret r').
Proof.
  unfold AppendEntries. set (r1 := if _ <? _ then _ else r).
  assert (quiet r r1 ∧ ae_Term args ≤ currentTerm r1
    ∧ (votedFor r1 = -1 ∨ (currentTerm r1 = currentTerm r ∧ votedFor r1 = votedFor r)))
    as (Hq & Hle & Hv).
  { unfold r1. destruct (Z.ltb_spec (currentTerm r) (ae_Term args)).
    - split_and!; [|cbn; lia|by left]. repeat split; [cbn; lia|by left].
    - split_and!; [|lia|by right]. repeat split; [lia|by right]. }
  clearbody r1. destruct (Z.ltb_spec (ae_Term args) (currentTerm r1)); [intros [= <- <-]; by left|].
  set (r2 := set_role _ _).
  assert (quiet r r2) as Hq2.
  { destruct Hq as (? & ? & ? & ? & ? & ? & _). repeat split; try done. by left. }
  destruct (_ <=? _); [intros [= <- <-]; by left|]. intros E.
  apply go_bind_Ret_inv in E as (prev & [_ Hprev]%index_lookup & E).
  destruct (Z.eqb_spec (e_Term prev) (ae_PrevLogTerm args)); cbn [negb] in E;
    [|injection E as <- <-; by left].
  apply go_bind_Ret_inv in E as (L' & HL' & E). cbv zeta in E. right.
  destruct Hq2 as (Ep & El & Ec & Hq2). rewrite El in *. exists r2, prev, L'.
  split_and!; try done; [cbn; lia|].
  cbn [commitIndex set_log] in E. rewrite Ec in E.
  destruct (Z.ltb_spec (commitIndex r) (ae_LeaderCommit args)); [right|left; by injection E as <- <-].
  split; [done|]. apply go_bind_Ret_inv in E as (r4 & E4 & E). by injection E as <- _.
Qed.

(** ** The steps *)

Lemma later_refl h g s s' : c_nodes s' = c_nodes s → later h g s h g s'.
Proof. intros E. split; rewrite ?E; eauto using leaders_ext_refl, Z.le_refl. Qed.

(** The invariants hold after the step, and history has only grown. *)
Definition goes_on (ids : list Z) (h : history) (g : ghost) (s s' : cluster) : Prop :=
  ∃ h' g', inv ids h' s' ∧ committed ids h' g' s' ∧ later h g s h' g' s'.

Section steps.
Context (ids : list Z) (Hids : valid_ids ids).
Context {h : history} {g : ghost} {s : cluster} (Hi : inv ids h s) (Hc : committed ids h g s).

Lemma all_flights P : Forall (λ f, f ∈ c_flights s ∨ P f) (c_flights s).
Proof. apply Forall_forall. by left. Qed.

(** A step that changes neither history nor acknowledgements. *)
Lemma committed_stay i r r' s' :
  inv ids h s' → c_nodes s !! i = Some r → c_nodes s' = <[i := r']> (c_nodes s) → quiet r r' →
  votedFor r' = -1 ∨ (currentTerm r' = currentTerm r ∧ votedFor r' = votedFor r) →
  Forall (λ f, f ∈ c_flights s ∨ flight_safe ids h g f) (c_flights s') → goes_on ids h g s s'.
Proof using Hi Hc.
  intros Hi' Hr Hn Hq Hv Hf. exists h, g. split; [done|].
  apply (quiet_step ids Hi Hc Hi' Hr Hn (grows_refl h i r') Hq); [tauto|done].
Qed.

(** A node that wins: [g0] is the ghost state with its candidate log. *)
Lemma committed_win h' g0 i r r' s' ps ms :
  inv ids h' s' → c_nodes s !! i = Some r → c_nodes s' = <[i := r']> (c_nodes s) → grows h h' i r' →
  role r' = Leader → rn_log r' = rn_log r → commitIndex r' = commitIndex r →
  lastApplied r' = lastApplied r → applyCh r' = applyCh r →
  (∀ p, p ∈ rn_peers r' → get0 (matchIndex r') p = 0) →
  (g0 = g_clog g i (currentTerm r + 1) (rn_log r) ∧ currentTerm r' = currentTerm r + 1 ∧ votedFor r' = i
   ∨ g0 = g ∧ currentTerm r' = currentTerm r ∧ role r = Candidate ∧ votedFor r' = votedFor r) →
  heartbeats r' ps = Ret ms →
  (∀ f, f ∈ c_flights s' → f ∈ c_flights s ∨ f ∈ launch i <$> ms) → goes_on ids h g s s'.
Proof using Hi Hc.
  intros Hi' Hr Hn Hgr Hrole El E1 E2 E3 Hm Hcase Hms Hfl.
  exists h', (g_ack g0 i (currentTerm r') (length (rn_log r) - 1)). split; [done|].
  pose proof (no_log _ _ _ _ (iv_nodes _ _ _ Hi i r Hr)) as [H0 _]. apply lookup_lt_Some in H0.
  pose proof (cm_nodes _ _ _ _ Hc i r Hr) as Hs.
  assert (clogs g0 !! (i, currentTerm r') = Some (rn_log r)) as Hclog.
  { destruct Hcase as [(-> & -> & _)|(-> & -> & Hcand & _)]; [cbn; by rewrite lookup_insert_eq|by apply Hs]. }
  eapply (lead_step ids Hi Hc Hi' Hr Hn); try done.
  - by destruct Hcase as [(_ & -> & _)|(_ & -> & _)]; lia.
  - by rewrite El.
  - intros v t Hvt. rewrite ack_g_ack_ne by done. by destruct Hcase as [(-> & _)|(-> & _)].
  - rewrite (ack_new_leader ids Hi Hc Hi' Hr Hn Hgr); [lia|done|]. tauto.
  - rewrite ack_g_ack, El. lia.
  - destruct Hcase as [(-> & _)|(-> & _)]; [|done]. apply (clog_keeps ids Hc Hr).
  - intros p Hp. rewrite Hm by done. lia.
  - intros e He. rewrite El in He. pose proof (ns_terms _ _ _ _ _ _ Hs e He).
    destruct Hcase as [(_ & -> & _)|(_ & -> & _)]; lia.
  - destruct Hcase as [(-> & -> & _)|(-> & _)]; [|by left]. apply (clog_new ids Hi Hc Hr Hgr).
  - destruct Hcase as [(-> & ET & EV)|(-> & ET & _ & EV)]; [right|by left]. by rewrite ET in *.
  - exists (rn_log r). by rewrite El.
Qed.

Lemma committed_election i r c r' ms :
  c_nodes s !! i = Some r → startElection r = Ret (r', ms) →
  goes_on ids h g s (update s i (resetElectionTimeout r' c) ms).
Proof using Hids Hi Hc.
  intros Hr E. destruct (startElection_inv ids Hids h s i r r' ms c Hi Hr E) as (h' & Hi' & Hgr).
  pose proof (no_id _ _ _ _ (iv_nodes _ _ _ Hi i r Hr)) as Hid.
  destruct (startElection_shape r r' ms E) as (e & r1 & He & Er1 & [Hb|[-> ->]]).
  - pose proof (becomeLeader_match r1 r' ms) as Hm.
    destruct (becomeLeader_shape r1 r' ms Hb) as [(ni & mi & ->) Hms].
    eapply (committed_win h' _ i r); try done; try (by rewrite Er1).
    + intros p Hp. by apply Hm.
    + left. by rewrite Er1.
    + unfold resetElectionTimeout. by rewrite heartbeats_deadline.
    + cbn. intros f Hf%elem_of_app. done.
  - exists h', (g_clog g i (currentTerm r + 1) (rn_log r)). split; [done|].
    apply (candidate_step ids (r':=resetElectionTimeout r1 c) Hi Hc Hi' Hr eq_refl Hgr);
      try (by rewrite Er1).
    cbn. apply Forall_app. split; [apply all_flights|]. rewrite <-list_fmap_compose, Forall_fmap.
    apply Forall_true. intros p. right. split_and!; cbn; try done. intros from to args [= <- <- <-].
    exists (rn_log r), e. cbn. by rewrite lookup_insert_eq.
Qed.

Lemma flights_removed l1 l2 f P :
  c_flights s = l1 ++ f :: l2 → Forall (λ f, f ∈ c_flights s ∨ P f) (l1 ++ l2).
Proof. intros ->. apply Forall_forall. intros x. rewrite !elem_of_app, elem_of_cons. tauto. Qed.

Lemma flights_replaced l1 l2 f f' (P : flight → Prop) :
  c_flights s = l1 ++ f :: l2 → P f' → Forall (λ f, f ∈ c_flights s ∨ P f) (l1 ++ f' :: l2).
Proof.
  intros -> Hf'. apply Forall_forall. intros x. rewrite !elem_of_app, !elem_of_cons.
  intros [?|[-> |?]]; tauto.
Qed.

Lemma flight_in l1 l2 f : c_flights s = l1 ++ f :: l2 → flight_safe ids h g f ∧ flight_ok ids h f.
Proof using Hi Hc.
  intros E. pose proof (cm_flights _ _ _ _ Hc) as H1. pose proof (iv_flights _ _ _ Hi) as H2.
  rewrite E in H1, H2. apply Forall_app in H1 as [_ [? _]%Forall_cons].
  by apply Forall_app in H2 as [_ [? _]%Forall_cons].
Qed.

Lemma committed_vote_reply l1 l2 i to args reply r c r' ms :
  c_flights s = l1 ++ VoteDone i to args reply :: l2 → c_nodes s !! i = Some r →
  handle_vote_reply r (rv_Term args) reply c = Ret (r', ms) →
  goes_on ids h g s (update (set_flights s (l1 ++ l2)) i r' ms).
Proof using Hids Hi Hc.
  intros Hfl Hr E.
  destruct (vote_reply_inv ids Hids h s l1 l2 i to args reply r c r' ms Hi Hfl Hr E) as (h' & Hi' & Hgr).
  destruct (handle_vote_reply_shape _ _ _ _ _ _ E) as [(Hq & -> & Hv)|(Hrole & vs & Hb)].
  - exists h', g. split; [done|]. apply (quiet_step ids Hi Hc Hi' Hr eq_refl Hgr Hq); [tauto|].
    cbn. rewrite app_nil_r. by eapply flights_removed.
  - pose proof (λ p, becomeLeader_match _ _ _ p Hb) as Hm.
    destruct (becomeLeader_shape _ _ _ Hb) as [(ni & mi & ->) Hms].
    eapply (committed_win h' g i r); try done.
    + right. done.
    + cbn. intros f. rewrite Hfl, !elem_of_app, elem_of_cons. tauto.
Qed.

Lemma committed_request_vote l1 l2 from to args r c r' reply :
  c_flights s = l1 ++ VoteCall from to args :: l2 → c_nodes s !! to = Some r →
  RequestVote r args c = Ret (r', reply) →
  goes_on ids h g s (set_flights (update s to r' []) (l1 ++ VoteDone from to args reply :: l2)).
Proof using Hids Hi Hc.
  intros Hfl Hr E.
  destruct (request_vote_inv ids Hids h s l1 l2 from to args r c r' reply Hi Hfl Hr E) as (h' & Hi' & Hgr).
  destruct (RequestVote_quiet _ _ _ _ _ E) as [Hq Hv]. exists h', g. split; [by rewrite update_nil|].
  destruct (flight_in _ _ _ Hfl) as [(Hcand & _) (_ & _ & Hid & _)].
  destruct (Hid _ _ _ eq_refl) as [Hid' _].
  destruct (Hcand _ _ _ eq_refl) as (P & ep & HP & Hep & HLI & HLT).
  eapply (quiet_step ids Hi Hc (s':=mkCluster _ _) Hi' Hr eq_refl Hgr Hq).
  - destruct Hv as [?|[?|(-> & -> & ev & Hev & Hup)]]; [by left|by right; left|right; right].
    exists P. rewrite Hid'. split; [done|].
    apply (up_to_date_safe ids Hi Hc to (rn_log r) _ from P ev ep); try done.
    + apply (no_log _ _ _ _ (iv_nodes _ _ _ Hi to r Hr)).
    + apply (acked_raise ids Hi Hc Hr), (cm_nodes _ _ _ _ Hc to r Hr).
    + by rewrite <-HLT, <-HLI.
  - eapply flights_replaced; [done|]. split_and!; done.
Qed.

Lemma committed_submit i r k v t r' ms res :
  c_nodes s !! i = Some r → role r = Leader → Submit r k v t = Ret (r', ms, res) →
  goes_on ids h g s (update s i r' ms).
Proof using Hids Hi Hc.
  intros Hr Hrole E. unfold Submit in E. rewrite bool_decide_eq_true_2 in E by done. cbn [negb] in E.
  cbv zeta in E. apply go_bind_Ret_inv in E as (ms1 & E1 & E). injection E as <- <- _.
  unfold broadcastHeartbeats in E1. rewrite decide_True in E1 by done.
  set (e := mkEntry _ _ k v t) in *.
  pose proof (inv_leader_append ids Hids h s i r e Hi Hr Hrole eq_refl eq_refl) as Hi1.
  pose proof (inv_broadcast ids _ _ i _ ms1 Hi1 (lookup_insert_eq _ _ _) Hrole E1) as Hi'.
  pose proof (iv_nodes _ _ _ Hi i r Hr) as Hok. pose proof (cm_nodes _ _ _ _ Hc i r Hr) as Hs.
  pose proof (no_leader _ _ _ _ Hok Hrole) as HL.
  exists (h_lead h (currentTerm r) i (rn_log r ++ [e])), (g_ack g i (currentTerm r) (length (rn_log r))).
  split; [exact Hi'|]. eapply (lead_step ids Hi Hc Hi' Hr eq_refl); try done.
  - apply grows_lead; try done. by apply leaders_ext_app.
  - cbn. by apply prefix_app_r.
  - intros v' t' Hne. by rewrite ack_g_ack_ne.
  - cbn [currentTerm set_log]. rewrite ack_g_ack. pose proof (ns_lead _ _ _ _ _ _ Hs Hrole). lia.
  - cbn [currentTerm set_log rn_log]. rewrite ack_g_ack, length_app. cbn. lia.
  - cbn. intros p Hp. pose proof (ns_match _ _ _ _ _ _ Hs Hrole p Hp) as Hm.
    rewrite ack_g_ack_ne; [done|]. intros [= ->].
    rewrite (no_peers _ _ _ _ Hok) in Hp. by apply peers_elem in Hp as [? _].
  - cbn. intros x [Hx|Hx]%elem_of_app; [by apply Hs|]. by apply list_elem_of_singleton in Hx as ->.
  - by left.
  - by left.
  - cbn. destruct (cm_leaders _ _ _ _ Hc _ _ _ HL) as [(P & HP & Hpre) _]. exists P.
    split; [done|]. by apply prefix_app_r.
  - cbn. intros f Hf%elem_of_app. done.
Qed.
End steps.

(** ** Accepting entries *)

Section accept.
Context (ids : list Z) (Hids : valid_ids ids).
Context {h : history} {g : ghost} {s : cluster} (Hi : inv ids h s) (Hc : committed ids h g s).
Context {from to : Z} {args : AppendEntriesArgs} {r r2 r' : RaftNode} {L' LL : list RaftLogEntry}.
Context (Hr : c_nodes s !! to = Some r) (Hq : quiet r r2) (Hrole : role r2 = Follower).
Context (HT : currentTerm r2 = ae_Term args).
Context (HLL : leaders h !! ae_Term args = Some (from, LL)).
Context (Hlc : 0 ≤ ae_LeaderCommit args ≤ covers args) (Hcov : covers args < len LL).
Context (Hd : decided ids h g (ae_Term args) (take (S (Z.to_nat (ae_LeaderCommit args))) LL)).
Context (HgL : good_log (leaders h) L').
Context (Hseg : take (S (Z.to_nat (covers args))) LL `prefix_of` L').
Context (Hcom : ∀ X, X `prefix_of` rn_log r → X `prefix_of` LL → X `prefix_of` L').
Context (Hfrom : L' = rn_log r ∨ L' `prefix_of` LL).

(** What the follower had acknowledged before survives the merge. *)
Lemma accept_acked : acked_safe ids h g s to (ae_Term args + 1) L'.
Proof using Hi Hc Hr Hq HT HLL Hcom.
  intros t k j L Ht Hk HL Ho. pose proof (cm_nodes _ _ _ _ Hc to r Hr) as Hs.
  destruct (acked_raise ids Hi Hc Hr _ _ (ns_ack _ _ _ _ _ _ Hs) t k j L Ht Hk HL Ho) as [Hp|]; [|by right].
  assert (take (S k) L `prefix_of` LL ∨ blocked ids s g t k) as [?|?]; [|left; by apply Hcom|by right].
  destruct (decide (t = ae_Term args)) as [->|].
  - left. rewrite HLL in HL. injection HL as _ <-. apply prefix_take.
  - apply (leader_complete ids Hi Hc _ from LL t j L k HLL HL); [lia|done].
Qed.

(** Committed entries survive it too. *)
Lemma accept_kept : committed_log r `prefix_of` L'.
Proof using Hids Hi Hc Hr Hq HT HLL Hcom.
  apply Hcom; [apply prefix_take|]. pose proof (cm_nodes _ _ _ _ Hc to r Hr) as Hs.
  apply (decided_in_leader ids Hids Hi Hc (currentTerm r) _ (ae_Term args) from LL); [apply Hs|done|].
  rewrite <-HT. apply Hq.
Qed.

Definition g_accept : ghost :=
  g_ack g to (ae_Term args) (ack g to (ae_Term args) `max` Z.to_nat (covers args)).

Context (s' : cluster) (Hn : c_nodes s' = <[to := r']> (c_nodes s)) (HT' : currentTerm r' = ae_Term args).
Context (Hi' : inv ids h s').

Lemma accept_later : later h g s h g_accept s'.
Proof using Hr Hq HT Hn HT'.
  apply (node_later Hr Hn); rewrite ?HT'.
  - rewrite <-HT. apply Hq.
  - apply grows_refl.
  - intros v t Hne. by apply ack_g_ack_ne.
  - unfold g_accept. rewrite ack_g_ack. lia.
  - done.
Qed.

Lemma accept_safe : node_safe ids h g_accept s' to (set_log r2 L').
Proof using Hids Hi Hc Hr Hq Hrole HT HLL Hlc Hcov Hd HgL Hseg Hcom Hfrom Hn HT' Hi'.
  pose proof accept_later as Hl. pose proof (cm_nodes _ _ _ _ Hc to r Hr) as Hs.
  pose proof Hq as (Ep & El & Ec & Ea & Ech & HTle & _).
  destruct (node_kept ids h g s to r (set_log r2 L') Hs) as (K1 & K2 & K3 & K4); try done.
  { apply accept_kept. }
  split; try done; try (cbn; congruence).
  - cbn. rewrite HT. intros t k j L Ht Hk HL Ho.
    destruct (decide (t = ae_Term args ∧ (k ≤ Z.to_nat (covers args))%nat)) as [[-> Hle]|Hno].
    { rewrite HLL in HL. injection HL as _ <-. left. etransitivity; [|exact Hseg].
      apply take_prefix_mono. lia. }
    destruct (accept_acked t k j L Ht) as [?|?]; [|done|done|by left|right; by eapply blocked_later].
    unfold g_accept in Hk. destruct (decide (t = ae_Term args)) as [->|].
    + rewrite ack_g_ack in Hk. destruct (decide (k ≤ Z.to_nat (covers args))%nat); [tauto|lia].
    + by rewrite ack_g_ack_ne in Hk by congruence.
  - cbn. intros e He. rewrite HT. destruct Hfrom as [->|Hp].
    + pose proof (ns_terms _ _ _ _ _ _ Hs e He). lia.
    + apply (proj2 (cm_leaders _ _ _ _ Hc _ _ _ HLL)). destruct Hp as [L1 ->]. apply elem_of_app. by left.
  - rewrite K2. eapply (decided_later ids Hl); [|apply Hs]. done.
Qed.

Context (Hv : votedFor r2 = -1 ∨ (currentTerm r2 = currentTerm r ∧ votedFor r2 = votedFor r)).
Context (Hstep : r' = set_log r2 L' ∨ commitIndex r < ae_LeaderCommit args
  ∧ applyLogs (set_commit (set_log r2 L')
      (if ae_LeaderCommit args <? len L' - 1 then ae_LeaderCommit args else len L' - 1)) = Ret r').

Lemma accept_commit : node_safe ids h g_accept s' to r' ∧ votedFor r' = votedFor r2 ∧ role r' = Follower.
Proof using Hids Hi Hc Hr Hq Hrole HT HLL Hlc Hcov Hd HgL Hseg Hcom Hfrom Hn HT' Hi' Hstep.
  pose proof accept_safe as Hs. destruct Hstep as [E|[Hlt E]]; [by rewrite E at 1 2 3|].
  assert (covers args < len L') as Hlen.
  { apply prefix_length in Hseg. rewrite length_take in Hseg. unfold len in *. lia. }
  assert ((if ae_LeaderCommit args <? len L' - 1 then ae_LeaderCommit args else len L' - 1)
    = ae_LeaderCommit args) as EM by (destruct (Z.ltb_spec (ae_LeaderCommit args) (len L' - 1)); lia).
  rewrite EM in E. destruct Hq as (_ & _ & Ec & _).
  destruct (node_safe_commit ids h g_accept s' to (set_log r2 L') r' (ae_LeaderCommit args) Hs HgL)
    as [[ch Er] Hs']; [cbn; lia| |done|].
  - cbn. rewrite HT. apply (decided_later ids accept_later (ae_Term args)); [lia|].
    replace (take _ L') with (take (S (Z.to_nat (ae_LeaderCommit args))) LL); [done|].
    symmetry. eapply (take_kept LL L'); [unfold len in *; lia|]. etransitivity; [|exact Hseg].
    apply take_prefix_mono. lia.
  - split; [done|]. by rewrite Er.
Qed.

Context (Hfl : Forall (λ f, f ∈ c_flights s ∨ flight_safe ids h g_accept f) (c_flights s')).

Lemma accept_step : committed ids h g_accept s' ∧ later h g s h g_accept s'.
Proof using Hids Hi Hc Hr Hq Hrole HT HLL Hlc Hcov Hd HgL Hseg Hcom Hfrom Hn HT' Hi' Hv Hstep Hfl.
  pose proof accept_later as Hl. destruct accept_commit as (Hs & Ev & Er).
  apply (committed_step ids (h:=h) (g:=g) (s:=s) (i:=to) (r:=r) (r':=r')); try done; rewrite ?HT'.
  - rewrite <-HT. apply Hq.
  - apply grows_refl.
  - intros v t Hne. by apply ack_g_ack_ne.
  - unfold g_accept. rewrite ack_g_ack. lia.
  - rewrite Ev, <-HT. destruct Hv; [by left|by right; left].
  - intros _. exists from, LL. split; [done|]. unfold g_accept. rewrite ack_g_ack.
    destruct (decide (0 < ack g to (ae_Term args))%nat) as [Hp|]; [|unfold len in *; lia].
    destruct (cm_acks _ _ _ _ Hc _ _ Hp) as (_ & j & L & HL & Hlt). rewrite HLL in HL.
    injection HL as _ <-. unfold len in *. lia.
  - by left.
  - congruence.
  - eapply Forall_impl; [exact Hfl|]. intros f [Hf|?]; [|done].
    apply (flight_safe_later ids Hl). pose proof (cm_flights _ _ _ _ Hc) as Hfs.
    rewrite Forall_forall in Hfs. by apply Hfs.
Qed.
End accept.

Section replication.
Context (ids : list Z) (Hids : valid_ids ids).
Context {h : history} {g : ghost} {s : cluster} (Hi : inv ids h s) (Hc : committed ids h g s).

Lemma committed_append_entries l1 l2 from to args r c r' reply :
  c_flights s = l1 ++ AppendCall from to args :: l2 → c_nodes s !! to = Some r →
  AppendEntries r args c = Ret (r', reply) →
  goes_on ids h g s (set_flights (update s to r' []) (l1 ++ AppendDone from to args reply :: l2)).
Proof using Hids Hi Hc.
  intros Hfl Hr E. pose proof (append_entries_inv ids h s l1 l2 from to args r c r' reply Hi Hfl Hr E) as Hi'.
  rewrite update_nil. destruct (flight_in ids Hi Hc _ _ _ Hfl) as [(_ & Happ & _) (_ & _ & _ & Hok)].
  destruct (Happ _ _ _ eq_refl) as (LL & HLL & Hlc & Hcov & Hd).
  destruct (Hok _ _ _ eq_refl) as (Hne & LL' & HLL' & Hseg). rewrite HLL in HLL'. injection HLL' as <-.
  destruct (AppendEntries_shape _ _ _ _ _ E)
    as [(Hq & Hs & Hv)|(r2 & prev & L' & Hq & Hrole & HT & Hv & Hprev & Hpt & HL' & Hstep)].
  - apply (committed_stay ids Hi Hc to r r'); try done. eapply flights_replaced; [done|].
    split_and!; [done|by intros ??? [= <- <- <-]; exists LL|]. intros ???? [= <- <- <- <-]. congruence.
  - destruct (iv_leaders _ _ _ Hi _ _ _ HLL) as (_ & _ & HgLL).
    destruct (merge_ok (leaders h) (rn_log r) LL (no_log _ _ _ _ (iv_nodes _ _ _ Hi to r Hr)) HgLL
      args prev Hseg Hprev Hpt) as (L1 & E1 & HgL & Hpre & Hcom & Hfrom).
    rewrite HL' in E1. injection E1 as <-.
    assert (S (Z.to_nat (ae_PrevLogIndex args)) + length (ae_Entries args) = S (Z.to_nat (covers args)))%nat
      as EC by (destruct Hseg as [? _]; unfold covers, len; lia).
    rewrite EC in Hpre.
    assert (currentTerm r' = ae_Term args) as HT'.
    { destruct Hstep as [-> |[_ Hap]]; [done|]. unfold applyLogs in Hap.
      by apply apply_loop_shape in Hap as (n & ch & ->). }
    exists h, (g_accept (g:=g) (to:=to) (args:=args)). split; [done|].
    eapply (accept_step ids Hids Hi Hc Hr Hq Hrole HT HLL Hlc Hcov Hd HgL Hpre Hcom Hfrom
      (mkCluster _ _) eq_refl HT' Hi' Hv Hstep).
    eapply flights_replaced; [done|]. split_and!; [done| |].
    + intros ??? [= <- <- <-]. exists LL. split_and!; [done|lia|lia|done|].
      eapply decided_later; [|reflexivity|exact Hd].
      apply (accept_later Hr Hq HT (r':=r') (mkCluster (<[to:=r']> (c_nodes s)) []) eq_refl HT').
    + intros ???? [= <- <- <- <-] _. unfold g_accept. rewrite ack_g_ack. lia.
Qed.

(** The bookkeeping of a successful reply keeps the leader safe. *)
Lemma match_safe i r to next n s' :
  node_safe ids h g s' i r → n ≤ Z.of_nat (ack g to (currentTerm r)) →
  node_safe ids h g s' i (set_indices r next (<[to := n]> (matchIndex r))).
Proof.
  intros [] Hn. split; try done. cbn. intros Hrole p Hp. unfold get0. rewrite lookup_insert.
  case_decide; [by subst|]. by apply ns_match.
Qed.

Lemma advance_safe i r r' s' :
  inv ids h s' → c_nodes s' !! i = Some r' → node_ok ids h i r → role r = Leader →
  node_safe ids h g s' i r → checkAdvanceCommitIndex r = Ret r' →
  node_safe ids h g s' i r' ∧ rn_log r' = rn_log r ∧ currentTerm r' = currentTerm r
  ∧ votedFor r' = votedFor r ∧ role r' = role r.
Proof using Hids.
  intros Hi' Hr' Hok Hrole Hs E. unfold checkAdvanceCommitIndex in E.
  destruct (advance_loop_case _ _ _ _ E) as [->|(M & e & HM & He & Het & Hmaj & Ha)].
  { pose proof (ns_commit _ _ _ _ _ _ Hs). lia. }
  { done. }
  destruct (node_safe_commit ids h g s' i r r' M Hs (no_log _ _ _ _ Hok)) as [[ch ->] Hs'];
    [lia| |done|done].
  right. exists (currentTerm r), (Z.to_nat M), i, (rn_log r). split_and!; [lia| |by exists e| |done].
  - by apply (no_leader _ _ _ _ Hok).
  - apply (replicas_chosen ids g i r M Hids (no_in _ _ _ _ Hok) (no_peers _ _ _ _ Hok) Hmaj).
    + pose proof (ns_lead _ _ _ _ _ _ Hs Hrole). unfold len in *. lia.
    + by apply Hs.
Qed.

(** A leader that only updates its indices and its commit index. *)
Lemma committed_advance i r r' s' :
  inv ids h s' → c_nodes s !! i = Some r → c_nodes s' = <[i := r']> (c_nodes s) →
  role r = Leader → node_safe ids h g s' i r' → rn_log r' = rn_log r →
  currentTerm r' = currentTerm r → votedFor r' = votedFor r →
  Forall (λ f, f ∈ c_flights s ∨ flight_safe ids h g f) (c_flights s') → goes_on ids h g s s'.
Proof using Hi Hc.
  intros Hi' Hr Hn Hrole Hs El ET Ev Hfl. exists h, g. split; [done|].
  pose proof (no_leader _ _ _ _ (iv_nodes _ _ _ Hi i r Hr) Hrole) as HL.
  apply (committed_step ids (h:=h) (g:=g) (s:=s) (i:=i) (r:=r) (r':=r')); try done.
  - lia.
  - apply grows_refl.
  - by right; left.
  - intros Hp. by destruct (cm_acks _ _ _ _ Hc i _ Hp) as (_ & ?).
  - by left.
  - intros _. rewrite ET, El. apply (cm_leaders _ _ _ _ Hc _ _ _ HL).
  - eapply Forall_impl; [exact Hfl|]. intros f [Hf|?]; [|done].
    pose proof (cm_flights _ _ _ _ Hc) as Hfs. rewrite Forall_forall in Hfs. by apply Hfs.
Qed.

Lemma committed_append_reply l1 l2 i to args reply r c r' :
  c_flights s = l1 ++ AppendDone i to args reply :: l2 → c_nodes s !! i = Some r →
  handle_append_reply r to args reply c = Ret r' →
  goes_on ids h g s (update (set_flights s (l1 ++ l2)) i r' []).
Proof using Hids Hi Hc.
  intros Hfl Hr E. rewrite update_nil.
  pose proof (append_reply_inv ids h (set_flights s (l1 ++ l2)) i r to args reply c r'
    (inv_remove ids h s l1 l2 _ Hi Hfl) Hr E) as Hi'. cbn in Hi' |- *.
  pose proof (flights_removed (s:=s) l1 l2 _ (flight_safe ids h g) Hfl) as Hf.
  pose proof (iv_nodes _ _ _ Hi i r Hr) as Hok.
  unfold handle_append_reply in E.
  destruct (bool_decide (role r = Leader) && (currentTerm r =? ae_Term args)) eqn:Eg.
  2:{ injection E as <-. apply (committed_stay ids Hi Hc i r r); try done; [|by right].
      repeat split; [lia|by right]. }
  apply andb_true_iff in Eg as [Hrole%bool_decide_eq_true HT%Z.eqb_eq].
  destruct (Z.ltb_spec (currentTerm r) (aer_Term reply)).
  { injection E as <-. apply (committed_stay ids Hi Hc i r (becomeFollower r (aer_Term reply) c)); try done.
    - repeat split; [cbn; lia|by left].
    - by left. }
  destruct (aer_Success reply) eqn:Es.
  - destruct (flight_in ids Hi Hc _ _ _ Hfl) as [(_ & _ & Hack) _].
    specialize (Hack _ _ _ _ eq_refl Es). set (r1 := set_indices _ _ _) in E.
    set (s' := mkCluster _ _) in *.
    assert (later h g s h g s') as Hl.
    { apply (node_later (i:=i) (r:=r) (r':=r')); try done; [|apply grows_refl].
      apply advance_loop_shape in E as [->|(? & ? & ? & ->)]; cbn; lia. }
    assert (node_safe ids h g s' i r1) as Hs1.
    { unfold r1. replace (ae_PrevLogIndex args + len (ae_Entries args) + 1 - 1) with (covers args)
        by (unfold covers; lia). apply match_safe; [|by rewrite HT].
      pose proof (cm_nodes _ _ _ _ Hc i r Hr) as []. split; try done.
      apply (acked_safe_later ids Hl); [done|apply (leader_pos' ids Hi')|done|done]. }
    assert (node_ok ids h i r1) as Hok1.
    { apply (node_ok_core ids h i r); [repeat split; by left|done]. }
    destruct (advance_safe i r1 r' s' Hi' (lookup_insert_eq _ _ _) Hok1 Hrole Hs1 E)
      as (Hs & El & ET & Ev & _).
    by apply (committed_advance i r r' s').
  - apply (committed_stay ids Hi Hc i r r'); try done.
    + destruct (1 <? _); injection E as <-; (repeat split; [cbn; lia|by right]).
    + right. by destruct (1 <? _); injection E as <-.
Qed.

Lemma step_committed s' : step s s' → goes_on ids h g s s'.
Proof using Hids Hi Hc.
  assert (∀ i r r', c_nodes s !! i = Some r → quiet r r' →
    votedFor r' = -1 ∨ (currentTerm r' = currentTerm r ∧ votedFor r' = votedFor r) →
    node_ok ids h i r' → goes_on ids h g s (update s i r' [])) as Hstay.
  { intros i r r' Hr Hq Hv Hok. rewrite update_nil. 
    apply (committed_stay ids Hi Hc i r r' _ (inv_node ids h s i r' Hi Hok)); try done.
    cbn. apply all_flights. }
  assert (∀ r, quiet r r) as Hrefl by (intros r; repeat split; [lia|by right]).
  pose proof (iv_nodes _ _ _ Hi) as Hnodes.
  intros Hstep. destruct Hstep as
    [i r c r' ms Hr E|i r r' ms Hr E|i r k v t r' ms res Hr E|i r Hr
    |l1 l2 from to args r c r' reply Hfl Hr E|l1 l2 from to args r c r' reply Hfl Hr E
    |l1 l2 from to args reply r c r' ms Hfl Hr E|l1 l2 from to args reply r c r' Hfl Hr E
    |l1 l2 f Hfl].
  - unfold election_tick in E. destruct (killed r); [injection E as <- <-; by eauto|].
    destruct (_ && _); [|injection E as <- <-; by eauto].
    apply go_bind_Ret_inv in E as ([r1 ms1] & E1 & E). injection E as <- <-.
    by eapply committed_election.
  - unfold heartbeat_tick in E.
    destruct (killed r || negb (bool_decide (role r = Leader))) eqn:Eg; [injection E as <- <-; by eauto|].
    apply orb_false_iff in Eg as [_ Hrole%negb_false_iff%bool_decide_eq_true].
    apply go_bind_Ret_inv in E as (ms1 & E1 & E). injection E as <- <-.
    unfold broadcastHeartbeats in E1. rewrite decide_True in E1 by done.
    pose proof (cm_nodes _ _ _ _ Hc i r Hr) as Hs.
    apply (committed_stay ids Hi Hc i r r); try done; [|by right|].
    + unfold update. rewrite insert_id by done. by eapply inv_broadcast.
    + cbn. apply Forall_app. split; [apply all_flights|]. eapply Forall_impl; [|by right].
      eapply broadcast_safe; [|apply Hs|apply Hs|done]. by apply (no_leader _ _ _ _ (Hnodes i r Hr)).
  - destruct (decide (role r = Leader)) as [Hrole|Hrole]; [by eapply committed_submit|].
    unfold Submit in E. rewrite bool_decide_eq_false_2 in E by done. injection E as <- <- _. by eauto.
  - apply (Hstay i r); [done| |by right|].
    + repeat split; [cbn; lia|by right].
    + apply (node_ok_core _ _ _ r); [repeat split; by left|by apply Hnodes].
  - by eapply committed_request_vote.
  - by eapply committed_append_entries.
  - by eapply committed_vote_reply.
  - by eapply committed_append_reply.
  - exists h, g. pose proof (inv_remove ids h s l1 l2 f Hi Hfl) as Hi'. split_and!; [done| |by apply later_refl].
    destruct Hc. split; try done.
    { intros v r Hr. by destruct (cm_nodes v r Hr); split. }
    rewrite Hfl in cm_flights. cbn. apply Forall_app in cm_flights as [? [_ ?]%Forall_cons]. by apply Forall_app.
Qed.
End replication.

Definition g0 : ghost := mkGhost ∅ ∅.

Lemma initial_committed ids clk : committed ids h0 g0 (initial ids clk).
Proof.
  split; cbn; try done.
  - intros v Hv. destruct (list_to_map _ !! v) eqn:E; [done|].
    apply not_elem_of_list_to_map_2 in E. destruct E. rewrite <-list_fmap_compose.
    apply list_elem_of_fmap. by exists v.
  - intros i r Hr. apply elem_of_list_to_map_2, list_elem_of_fmap in Hr as (j & [= -> ->] & Hj).
    split; cbn; try done.
    + intros e ->%list_elem_of_singleton. done.
    + left. done.
    + by intros msgs [= <-].
  - intros v t. unfold ack. cbn. rewrite lookup_empty. cbn. lia.
Qed.

Lemma later_trans h1 g1 s1 h2 g2 s2 h3 g3 s3 :
  later h1 g1 s1 h2 g2 s2 → later h2 g2 s2 h3 g3 s3 → later h1 g1 s1 h3 g3 s3.
Proof.
  intros [L1 A1 F1 N1 C1] [L2 A2 F2 N2 C2]. split; [by eapply leaders_ext_trans| | | |by eauto].
  - intros v t. specialize (A1 v t). specialize (A2 v t). lia.
  - intros v t r Hr Ht. destruct (N1 v r Hr) as (r2 & Hr2 & Hle). rewrite (F2 v t r2 Hr2) by lia. by eapply F1.
  - intros v r Hr. destruct (N1 v r Hr) as (r2 & Hr2 & Hle). destruct (N2 v r2 Hr2) as (r3 & Hr3 & Hle3).
    exists r3. split; [done|lia].
Qed.

Lemma reachable_committed ids clk s :
  valid_ids ids → reachable ids clk s → ∃ h g, inv ids h s ∧ committed ids h g s.
Proof.
  intros Hids. induction 1 as [|s s' _ (h & g & Hi & Hc) Hs].
  - exists h0, g0. split; [apply initial_inv|apply initial_committed].
  - destruct (step_committed ids Hids Hi Hc s' Hs) as (h' & g' & ? & ? & _). eauto.
Qed.

Lemma steps_committed ids h g s s' :
  valid_ids ids → rtc step s s' → inv ids h s → committed ids h g s → goes_on ids h g s s'.
Proof.
  intros Hids Hst. revert h g. induction Hst as [s|s s1 s' Hs _ IH]; intros h g Hi Hc.
  - exists h, g. split_and!; [done|done|by apply later_refl].
  - destruct (step_committed ids Hids Hi Hc s1 Hs) as (h1 & g1 & Hi1 & Hc1 & Hl1).
    destruct (IH h1 g1 Hi1 Hc1) as (h2 & g2 & Hi2 & Hc2 & Hl2). exists h2, g2.
    split_and!; [done|done|by eapply later_trans].
Qed.
