(* ===== verification/RaftConsensus.v ===== *)
(** * What the cluster promises to its state machines

    The claims that follow from [RaftCommit.committed]: a leader of a later
    term holds every committed entry, and no two nodes ever apply different
    commands at the same index, at the same moment or at different ones. *)

From S2P Require Import Prelude GoBytes RaftNode RaftCluster RaftInv RaftSafety RaftLive RaftCommit RaftAgree.
From S2P Require Import RaftClaims.

Local Open Scope Z_scope.

Lemma rtc_reachable ids clk s s' : reachable ids clk s → rtc step s s' → reachable ids clk s'.
Proof.
  intros Hs Hst. induction Hst as [|s s1 s' Hst _ IH]; [done|]. apply IH. by eapply reach_step.
Qed.

(** The committed prefixes of two nodes, at two moments, never conflict. *)
Lemma committed_logs_comparable ids clk s s' i j r r' :
  valid_ids ids → reachable ids clk s → rtc step s s' →
  c_nodes s !! i = Some r → c_nodes s' !! j = Some r' →
  committed_log r `prefix_of` committed_log r' ∨ committed_log r' `prefix_of` committed_log r.
Proof.
  intros Hids Hs Hst Hr Hr'. destruct (reachable_committed ids clk s Hids Hs) as (h & g & Hi & Hc).
  destruct (steps_committed ids h g s s' Hids Hst Hi Hc) as (h' & g' & Hi' & Hc' & Hl).
  eapply (decided_comparable ids Hids Hi' Hc' (currentTerm r) (currentTerm r')).
  - eapply (decided_later ids Hl); [done|]. apply (cm_nodes _ _ _ _ Hc i r Hr).
  - apply (cm_nodes _ _ _ _ Hc' j r' Hr').
Qed.

(** What has been sent to the apply channel is the applied part of the
    committed prefix. *)
Lemma applied_from_committed ids clk s i r msgs :
  valid_ids ids → reachable ids clk s → c_nodes s !! i = Some r → applyCh r = Some msgs →
  msgs = msg_of <$> take (Z.to_nat (lastApplied r)) (drop 1 (committed_log r))
  ∧ len msgs = lastApplied r.
Proof.
  intros Hids Hs Hr Hm. destruct (reachable_committed ids clk s Hids Hs) as (h & g & _ & Hc).
  destruct (cm_nodes _ _ _ _ Hc i r Hr). specialize (ns_msgs msgs Hm). unfold committed_log.
  rewrite ns_msgs. split.
  - f_equal. apply (applied_kept _ _ _ (Z.to_nat (commitIndex r))); [lia|]. by rewrite take_take, Nat.min_id.
  - unfold len in *. rewrite length_fmap, length_take, length_drop. lia.
Qed.

(** The apply streams of two nodes, at two moments: the shorter is a prefix of
    the longer. *)
Lemma applied_comparable ids clk s s' i j r r' msgs msgs' :
  valid_ids ids → reachable ids clk s → rtc step s s' →
  c_nodes s !! i = Some r → c_nodes s' !! j = Some r' →
  applyCh r = Some msgs → applyCh r' = Some msgs' →
  msgs `prefix_of` msgs' ∨ msgs' `prefix_of` msgs.
Proof.
  intros Hids Hs Hst Hr Hr' Hm Hm'.
  pose proof (rtc_reachable ids clk s s' Hs Hst) as Hs'.
  destruct (applied_from_committed ids clk s i r msgs Hids Hs Hr Hm) as [-> _].
  destruct (applied_from_committed ids clk s' j r' msgs' Hids Hs' Hr' Hm') as [-> _].
  assert (∀ n X P, X `prefix_of` P →
    msg_of <$> take n (drop 1 X) `prefix_of` (msg_of <$> drop 1 P)) as Hpre.
  { intros n X P HX. apply prefix_map. etransitivity; [apply prefix_take|by apply prefix_drop]. }
  destruct (committed_logs_comparable ids clk s s' i j r r' Hids Hs Hst Hr Hr') as [Hp|Hp];
    eapply prefix_comparable; by apply Hpre.
Qed.

(** What a node has committed is in the log of every leader of its term or a
    later one. *)
Lemma leader_holds_committed ids clk s s' i j r r' :
  valid_ids ids → reachable ids clk s → rtc step s s' →
  c_nodes s !! i = Some r → c_nodes s' !! j = Some r' →
  role r' = Leader → currentTerm r ≤ currentTerm r' →
  committed_log r `prefix_of` rn_log r'.
Proof.
  intros Hids Hs Hst Hr Hr' Hrole HT.
  destruct (reachable_committed ids clk s Hids Hs) as (h & g & Hi & Hc).
  destruct (steps_committed ids h g s s' Hids Hst Hi Hc) as (h' & g' & Hi' & Hc' & Hl).
  apply (decided_in_leader ids Hids Hi' Hc' (currentTerm r) _ (currentTerm r') j); [| |done].
  - eapply (decided_later ids Hl); [done|]. apply (cm_nodes _ _ _ _ Hc i r Hr).
  - by apply (no_leader _ _ _ _ (iv_nodes _ _ _ Hi' j r' Hr')).
Qed.

(** C4.  Leader completeness.  What a node has committed by some moment of a run
    is in the log of every leader of that term or a later one, at that moment
    and at every later one: no election can lose a committed entry. *)
Theorem leader_completeness ids clk s s' i j r r' :
  valid_ids ids → reachable ids clk s → rtc step s s' →
  c_nodes s !! i = Some r → c_nodes s' !! j = Some r' →
  role r' = Leader → currentTerm r ≤ currentTerm r' →
  committed_log r `prefix_of` rn_log r'.
Proof. apply leader_holds_committed. Qed.

(** C2.  State machine safety.  No two nodes ever apply different commands at the
    same position: of the streams that two nodes have sent to their apply
    channels, at the same moment or at two moments of a run, one is a prefix of
    the other. *)
Theorem state_machine_safety ids clk s s' i j r r' msgs msgs' :
  valid_ids ids → reachable ids clk s → rtc step s s' →
  c_nodes s !! i = Some r → c_nodes s' !! j = Some r' →
  applyCh r = Some msgs → applyCh r' = Some msgs' →
  msgs `prefix_of` msgs' ∨ msgs' `prefix_of` msgs.
Proof. apply applied_comparable. Qed.

(** ** A run with a change of leader *)

Lemma exec_all_rtc s es s' : exec_all s es = Some s' → rtc step s s'.
Proof.
  revert s. induction es as [|e es IH]; intros s; cbn; [by intros [= <-]|].
  intros (s1 & H1%exec_step & H2)%bind_Some. eapply rtc_l; [done|by apply IH].
Qed.

(** The state after the events that can happen. *)
Definition run_from (s : cluster) (es : list event) : cluster := default s (exec_all s es).

Lemma run_from_rtc s es : rtc step s (run_from s es).
Proof.
  unfold run_from. destruct (exec_all s es) as [s'|] eqn:E; [by apply (exec_all_rtc s es)|apply rtc_refl].
Qed.

(** After the run of [RaftClaims.events3] node 1 is elected with the vote of
    node 2, which has not seen the command yet. *)
Definition later_clock : clock := mkClock 2000000000 0.

Definition events_change : list event :=
  [EElection 1 later_clock; EDeliver 7 later_clock; EReply 7 later_clock].

Definition cluster_change : cluster := run_from (cluster3 8) events_change.

Definition node_change (i : Z) : RaftNode :=
  default (NewRaftNode i [] None (clk0 i)) (c_nodes cluster_change !! i).

Lemma leader_completeness_witness :
  commitIndex (node3 8 0) = 1 ∧ currentTerm (node_change 1) = 2
  ∧ committed_log (node3 8 0) `prefix_of` rn_log (node_change 1).
Proof.
  split; [vm_compute; reflexivity|]. split; [vm_compute; reflexivity|].
  apply (leader_completeness ids3 clk0 (cluster3 8) cluster_change 0 1).
  - exact ids3_valid.
  - apply cluster3_reachable.
  - apply run_from_rtc.
  - vm_compute. reflexivity.
  - vm_compute. reflexivity.
  - vm_compute. reflexivity.
  - vm_compute. discriminate.
Defined.

(** The command node 0 has applied, as a message. *)
Definition geo_msg : ApplyMsg := mkApplyMsg true 1 1 (str "geo") (str "500") false.

Lemma state_machine_safety_witness :
  applyCh (node3 8 0) = Some [geo_msg] ∧ applyCh (node_change 1) = Some [geo_msg]
  ∧ ([geo_msg] `prefix_of` [geo_msg] ∨ [geo_msg] `prefix_of` [geo_msg]).
Proof.
  split; [vm_compute; reflexivity|]. split; [vm_compute; reflexivity|].
  apply (state_machine_safety ids3 clk0 (cluster3 8) cluster_change 0 1
    (node3 8 0) (node_change 1)).
  - exact ids3_valid.
  - apply cluster3_reachable.
  - apply run_from_rtc.
  - vm_compute. reflexivity.
  - vm_compute. reflexivity.
  - vm_compute. reflexivity.
  - vm_compute. reflexivity.
Defined.
