(* ===== verification/Stagway.v ===== *)
(** * The Stagway transport: the TCP server (pkg/network/server.go)

    The server holds pointers to the node's Raft instance, write buffer and
    WAL; any of the three may be nil.  A write goes through [Submit], then to
    the WAL, then to the buffer; a read only looks at the buffer.  The server
    is written against the interface [Buffer], so what is proved of it holds
    for every buffer that keeps the interface's laws.

    A connection is the sequence of bytes the client sends until it closes its
    side, and the sequence of bytes the server writes back; the result of
    [conn.Write] is ignored by the source.  The RPCs that [Submit] hands to its
    goroutines are returned beside the result. *)

From Stdlib Require Import Strings.Byte Strings.String.
From S2P Require Import Prelude GoBytes KV Crc32 Os Record Wal RaftNode.

Local Open Scope Z_scope.

Definition OpPut : byte := x01.
Definition OpGet : byte := x02.
Definition OpTombstone : byte := x03.

Record StagwayServerOptions := mkStagwayServerOptions { Addr : string; NodeID : Z }.

Definition DefaultStagwayServerOptions (addr : string) (nodeID : Z) : StagwayServerOptions :=
  mkStagwayServerOptions
    (if bool_decide (addr = EmptyString) then "127.0.0.1:50051"%string else addr) nodeID.

(** [net.Listener]: its address and whether it is open. *)
Record listener := mkListener { l_addr : string; l_open : bool }.

Record StagwayServer (T : Type) := mkStagwayServer {
  ss_opts : StagwayServerOptions;
  ss_listener : option listener;
  ss_raft : option RaftNode;
  ss_memTable : option T;
  ss_wal : option WAL;
  ss_running : bool }.

Arguments mkStagwayServer {T}.
Arguments ss_opts {T}.
Arguments ss_listener {T}.
Arguments ss_raft {T}.
Arguments ss_memTable {T}.
Arguments ss_wal {T}.
Arguments ss_running {T}.

(** What a write returns: index, term, isLeader, err. *)
Definition write_result : Type := Z * Z * bool * option error.

(** What a read returns: value, tombstone, found, err. *)
Definition read_answer : Type := bytes * bool * bool * option error.

Definition set_raft {T} (s : StagwayServer T) (r : RaftNode) : StagwayServer T :=
  mkStagwayServer (ss_opts s) (ss_listener s) (Some r) (ss_memTable s) (ss_wal s) (ss_running s).
Definition set_wal {T} (s : StagwayServer T) (w : WAL) : StagwayServer T :=
  mkStagwayServer (ss_opts s) (ss_listener s) (ss_raft s) (ss_memTable s) (Some w) (ss_running s).
Definition set_mem {T} (s : StagwayServer T) (m : T) : StagwayServer T :=
  mkStagwayServer (ss_opts s) (ss_listener s) (ss_raft s) (Some m) (ss_wal s) (ss_running s).
Definition set_running {T} (s : StagwayServer T) (l : option listener) (b : bool)
    : StagwayServer T :=
  mkStagwayServer (ss_opts s) l (ss_raft s) (ss_memTable s) (ss_wal s) b.

Definition NewStagwayServer {T} (opts : StagwayServerOptions) (raft : option RaftNode)
    (memTable : option T) (wal : option WAL) : StagwayServer T :=
  mkStagwayServer opts None raft memTable wal false.

(** Start, given what [net.Listen] answers for the configured address. *)
Definition Start {T} (listen : string → unit + error) (s : StagwayServer T)
    : StagwayServer T * option error :=
  match listen (Addr (ss_opts s)) with
  | inr err => (s, Some (Wrapf "failed to listen" err))
  | inl _ => (set_running s (Some (mkListener (Addr (ss_opts s)) true)) true, None)
  end.

(** [listener.Close]: closing twice is an error. *)
Definition close_listener (l : listener) : listener * option error :=
  if l_open l then (mkListener (l_addr l) false, None) else (l, Some ErrClosed).

Definition Stop {T} (s : StagwayServer T) : StagwayServer T * option error :=
  if negb (ss_running s) then (s, None) else
  match ss_listener s with
  | Some l =>
      let '(l, e) := close_listener l in (set_running s (Some l) false, e)
  | None => (set_running s None false, None)
  end.

(** One turn of acceptLoop: the server as the first lock shows it, what
    [Accept] answers, and the server as the second lock shows it. *)
Inductive accept_turn := AcceptReturn | AcceptContinue | AcceptServe (conn : bytes).

Definition acceptLoop_turn {T} (s : StagwayServer T) (accepted : bytes + error)
    (s' : StagwayServer T) : accept_turn :=
  if negb (ss_running s) then AcceptReturn else
  match accepted with
  | inr _ => if negb (ss_running s') then AcceptReturn else AcceptContinue
  | inl conn => AcceptServe conn
  end.

Section server.
Context {T : Type} `{Buffer T}.

(** The three critical sections of a write.  Each callee takes its own lock;
    the server's lock is only held for reading, so the sections of concurrent
    writes may interleave. *)
Definition submit_op (s : StagwayServer T) (key value : bytes) (tombstone : bool)
    : go (StagwayServer T * list rpc * (Z * Z * bool)) :=
  match ss_raft s with
  | Some raft =>
      let* (raft, ms, r) := Submit raft key value tombstone in
      Ret (set_raft s raft, ms, r)
  | None => Ret (s, [], (1, 1, true))
  end.

Definition log_op (s : StagwayServer T) (key value : bytes) (tombstone : bool)
    : IO (StagwayServer T) :=
  match ss_wal s with
  | Some wal => let! (wal, _) := Append wal key value tombstone in retM (set_wal s wal)
  | None => retM s
  end.

Definition mem_op (s : StagwayServer T) (key value : bytes) (tombstone : bool)
    : go (StagwayServer T) :=
  match ss_memTable s with
  | Some m => let* m := buf_apply key value tombstone m in Ret (set_mem s m)
  | None => Ret s
  end.

(** The body that PutGeo and FocusTombstone share. *)
Definition write_op (s : StagwayServer T) (key value : bytes) (tombstone : bool)
    : IO (StagwayServer T * list rpc * write_result) :=
  if negb (ss_running s) then retM (s, [], (-1, -1, false, Some ErrServerClosed)) else
  let! (s, ms, (idx, term, isLeader)) := liftM (submit_op s key value tombstone) in
  if negb isLeader then retM (s, ms, (-1, term, false, Some ErrNotLeader)) else
  let! s := log_op s key value tombstone in
  let! s := liftM (mem_op s key value tombstone) in
  retM (s, ms, (idx, term, true, None)).

Definition PutGeo (s : StagwayServer T) (key value : bytes)
    : IO (StagwayServer T * list rpc * write_result) :=
  write_op s key value false.

Definition FocusTombstone (s : StagwayServer T) (key : bytes)
    : IO (StagwayServer T * list rpc * write_result) :=
  write_op s key [] true.

Definition GetGeo (s : StagwayServer T) (key : bytes) : go read_answer :=
  if negb (ss_running s) then Ret ([], false, false, Some ErrServerClosed) else
  match ss_memTable s with
  | Some m =>
      let* (val, tombstone, found) := buf_get m key in
      Ret (val, tombstone, found, None)
  | None => Ret ([], false, false, None)
  end.

Definition bool_byte (b : bool) : byte := if b then x01 else x00.

(** sendWriteResponse: the bytes handed to [conn.Write]. *)
Definition sendWriteResponse (r : write_result) : go bytes :=
  let '(index, term, isLeader, err) := r in
  let resp := replicate 10 x00 in
  let* resp := store resp 0 (bool_byte (isLeader && bool_decide (err = None))) in
  let* resp := PutUint32 resp 1 5 (u32 index) in
  let* resp := PutUint32 resp 5 9 (u32 term) in
  store resp 9 (bool_byte isLeader).

Definition sendReadResponse (r : read_answer) : go bytes :=
  let '(val, tombstone, found, err) := r in
  let valLen := u32 (len val) in
  let* resp := make_bytes (u32 (6 + valLen)) in
  let* resp := store resp 0 (bool_byte (found && bool_decide (err = None))) in
  let* resp := store resp 1 (bool_byte tombstone) in
  let* resp := PutUint32 resp 2 6 valLen in
  if 0 <? valLen then copy_into resp 6 (len resp) val else Ret resp.

(** handleGRPCConnection: an empty SETTINGS frame and its acknowledgement. *)
Definition handleGRPCConnection : bytes :=
  [x00; x00; x00; x04; x00; x00; x00; x00; x00] ++
  [x00; x00; x00; x04; x01; x00; x00; x00; x00].

(** [headerBuf[0] == 'P' && headerBuf[1] == 'R' && ...]. *)
Definition is_preface (headerBuf : bytes) : bool :=
  bool_decide (take 4 headerBuf = str "PRI ").

(** The switch on the operation: the new state, the response, the RPCs; an
    unknown operation is skipped without a response. *)
Definition dispatch (s : StagwayServer T) (op : byte) (key val : bytes)
    : IO (StagwayServer T * bytes * list rpc) :=
  if bool_decide (op = OpPut) then
    let! (s, ms, r) := PutGeo s key val in
    let! resp := liftM (sendWriteResponse r) in retM (s, resp, ms)
  else if bool_decide (op = OpGet) then
    let! r := liftM (GetGeo s key) in
    let! resp := liftM (sendReadResponse r) in retM (s, resp, [])
  else if bool_decide (op = OpTombstone) then
    let! (s, ms, r) := FocusTombstone s key in
    let! resp := liftM (sendWriteResponse r) in retM (s, resp, ms)
  else retM (s, [], []).

(** The loop of handleConnection on the bytes still to be read, with what has
    been written and sent so far. *)
Fixpoint connection_loop (fuel : nat) (s : StagwayServer T) (conn out : bytes) (sent : list rpc)
    : IO (StagwayServer T * bytes * list rpc) :=
  match fuel with
  | O => λ _, OutOfFuel
  | S fuel =>
      match read_full conn 9 with
      | REOF | RUnexpectedEOF => retM (s, out, sent)
      | RFull headerBuf conn =>
          if is_preface headerBuf then retM (s, out ++ handleGRPCConnection, sent) else
          let! op := liftM (index headerBuf 0) in
          let! keyLen := liftM (Uint32 headerBuf 1 5) in
          let! valLen := liftM (Uint32 headerBuf 5 9) in
          let! _ := liftM (make_bytes (u32 (keyLen + valLen))) in
          match read_full conn (u32 (keyLen + valLen)) with
          | REOF | RUnexpectedEOF => retM (s, out, sent)
          | RFull bodyBuf conn =>
              let! key := liftM (slice bodyBuf 0 keyLen) in
              let! val := liftM (slice bodyBuf keyLen (len bodyBuf)) in
              let! (s, resp, ms) := dispatch s op key val in
              connection_loop fuel s conn (out ++ resp) (sent ++ ms)
          end
      end
  end.

(** Every turn of the loop consumes a header, so the length bounds the turns. *)
Definition handleConnection (s : StagwayServer T) (conn : bytes)
    : IO (StagwayServer T * bytes * list rpc) :=
  connection_loop (S (length conn)) s conn [] [].

(** ** Concurrent writes

    A goroutine inside PutGeo or FocusTombstone, between the critical sections:
    nothing done, submitted to Raft, logged, returned.  [writer_step] runs the
    next section. *)
Inductive writer :=
| WStart (r : kvt)
| WSubmitted (r : kvt) (idx term : Z)
| WLogged (r : kvt) (idx term : Z)
| WDone (res : write_result).

Definition writer_step (s : StagwayServer T) (t : writer)
    : IO (StagwayServer T * writer * list rpc) :=
  match t with
  | WStart r =>
      if negb (ss_running s) then retM (s, WDone (-1, -1, false, Some ErrServerClosed), []) else
      let! (s, ms, (idx, term, isLeader)) := liftM (submit_op s r.1.1 r.1.2 r.2) in
      retM (s, if negb isLeader then WDone (-1, term, false, Some ErrNotLeader)
               else WSubmitted r idx term, ms)
  | WSubmitted r idx term =>
      let! s := log_op s r.1.1 r.1.2 r.2 in retM (s, WLogged r idx term, [])
  | WLogged r idx term =>
      let! s := liftM (mem_op s r.1.1 r.1.2 r.2) in
      retM (s, WDone (idx, term, true, None), [])
  | WDone res => retM (s, WDone res, [])
  end.

(** A schedule names the goroutine that runs next. *)
Fixpoint run_schedule (s : StagwayServer T) (ts : list writer) (sched : list nat)
    : IO (StagwayServer T * list writer) :=
  match sched with
  | [] => retM (s, ts)
  | i :: sched =>
      match ts !! i with
      | None => run_schedule s ts sched
      | Some t =>
          let! (s, t, _) := writer_step s t in
          run_schedule s (<[i := t]> ts) sched
      end
  end.
End server.
