(* ===== verification/Cli.v ===== *)
(** * The command-line client (cmd/hallownest-cli/main.go)

    A command dials the server, writes one request and reads one response.
    The network is what [net.Dial] and [conn.Write] answer and the bytes the
    server sends back on the connection for the request; what the client prints
    is the value of [outcome], one constructor per message, and its text
    [stdout].  [main] takes the
    command line; the standard flag package prints its own messages, which are
    the constructor [FlagExit]. *)

From Stdlib Require Import Strings.Byte Strings.String.
From S2P Require Import Prelude GoBytes Flag KV Crc32 Os Record Wal RaftNode Stagway.

Local Open Scope Z_scope.

Record network := mkNetwork {
  net_Dial : string → option error;
  conn_Write : bytes → option error;
  conn_reply : bytes → bytes }.

Inductive outcome :=
| Usage
| KeyRequired
| FlagExit (e : parse_error)
| ConnectionError (addr : string) (e : error)
| FailedSending (what : string) (e : error)
| FailedReading (what : string) (e : error)
| PutOK (index term : Z) (isLeader : bool)
| PutFailed (isLeader : bool)
| NotFound
| KeyDeleted
| Value (v : bytes)
| TombstoneInserted (index term : Z)
| DeleteFailed.

(** The status the process exits with. *)
Definition exit_status (o : outcome) : Z :=
  match o with
  | Usage | KeyRequired | ConnectionError _ _ | FailedSending _ _ | FailedReading _ _ => 1
  | FlagExit e => parse_exit e
  | _ => 0
  end.

(** The request of executePut; [9+keyLen+valLen] is a [uint32]. *)
Definition put_request (key val : bytes) : go bytes :=
  let keyLen := u32 (len key) in
  let valLen := u32 (len val) in
  let* reqBuf := make_bytes (u32 (9 + keyLen + valLen)) in
  let* reqBuf := store reqBuf 0 OpPut in
  let* reqBuf := PutUint32 reqBuf 1 5 keyLen in
  let* reqBuf := PutUint32 reqBuf 5 9 valLen in
  let* reqBuf := copy_into reqBuf 9 (u32 (9 + keyLen)) key in
  copy_into reqBuf (u32 (9 + keyLen)) (len reqBuf) val.

(** The request of executeGet and executeDelete. *)
Definition key_request (op : byte) (key : bytes) : go bytes :=
  let keyLen := u32 (len key) in
  let* reqBuf := make_bytes (u32 (9 + keyLen)) in
  let* reqBuf := store reqBuf 0 op in
  let* reqBuf := PutUint32 reqBuf 1 5 keyLen in
  let* reqBuf := PutUint32 reqBuf 5 9 0 in
  copy_into reqBuf 9 (len reqBuf) key.

(** Dialling and writing the request; [k] gets what the server sends back. *)
Definition exchange (n : network) (addr what : string) (request : go bytes)
    (k : bytes → go outcome) : go outcome :=
  match net_Dial n addr with
  | Some e => Ret (ConnectionError addr e)
  | None =>
      let* reqBuf := request in
      match conn_Write n reqBuf with
      | Some e => Ret (FailedSending what e)
      | None => k (conn_reply n reqBuf)
      end
  end.

(** Reading and decoding the ten bytes of a write response: success, index,
    term, isLeader. *)
Definition read_write_response (conn : bytes) : go (bool * Z * Z * bool + error) :=
  match read_full conn 10 with
  | RFull respBuf _ =>
      let* b0 := GoBytes.index respBuf 0 in
      let* index := Uint32 respBuf 1 5 in
      let* term := Uint32 respBuf 5 9 in
      let* b9 := GoBytes.index respBuf 9 in
      Ret (inl (bool_decide (b0 = x01), index, term, bool_decide (b9 = x01)))
  | REOF => Ret (inr EOF)
  | RUnexpectedEOF => Ret (inr ErrUnexpectedEOF)
  end.

Definition executePut (n : network) (addr : string) (key val : bytes) : go outcome :=
  exchange n addr "Put" (put_request key val) (λ conn,
    let* r := read_write_response conn in
    match r with
    | inr e => Ret (FailedReading "response" e)
    | inl (success, index, term, isLeader) =>
        Ret (if success : bool then PutOK index term isLeader else PutFailed isLeader)
    end).

Definition executeGet (n : network) (addr : string) (key : bytes) : go outcome :=
  exchange n addr "Get" (key_request OpGet key) (λ conn,
    match read_full conn 6 with
    | REOF => Ret (FailedReading "header" EOF)
    | RUnexpectedEOF => Ret (FailedReading "header" ErrUnexpectedEOF)
    | RFull hdrBuf conn =>
        let* b0 := GoBytes.index hdrBuf 0 in
        let* b1 := GoBytes.index hdrBuf 1 in
        let* valLen := Uint32 hdrBuf 2 6 in
        if negb (bool_decide (b0 = x01)) then Ret NotFound else
        if bool_decide (b1 = x01) then Ret KeyDeleted else
        let* _ := make_bytes valLen in
        match read_full conn valLen with
        | REOF => Ret (FailedReading "value" EOF)
        | RUnexpectedEOF => Ret (FailedReading "value" ErrUnexpectedEOF)
        | RFull valBuf _ => Ret (Value valBuf)
        end
    end).

Definition executeDelete (n : network) (addr : string) (key : bytes) : go outcome :=
  exchange n addr "Delete" (key_request OpTombstone key) (λ conn,
    let* r := read_write_response conn in
    match r with
    | inr e => Ret (FailedReading "response" e)
    | inl (success, index, term, _) =>
        Ret (if success : bool then TombstoneInserted index term else DeleteFailed)
    end).

(** ** What is printed *)

Definition printUsage : bytes :=
  println "HallownestKV CLI Client (Stagway Transport)"
  ++ println "Usage:"
  ++ println "  hallownest-cli put --key <key> --value <value> [--addr 127.0.0.1:50051]"
  ++ println "  hallownest-cli get --key <key> [--addr 127.0.0.1:50051]"
  ++ println "  hallownest-cli delete --key <key> [--addr 127.0.0.1:50051]".

Definition Sprintf_v (b : bool) : string := if b then "true" else "false".

(** The standard output, given the text of an error; the flag package writes to
    the standard error. *)
Definition stdout (err_text : error → string) (o : outcome) : bytes :=
  match o with
  | Usage => printUsage
  | KeyRequired => println "Error: --key is required"
  | FlagExit _ => []
  | ConnectionError addr e =>
      println ("Connection error to " ++ addr ++ ": " ++ err_text e)
  | FailedSending what e => println ("Failed sending " ++ what ++ " request: " ++ err_text e)
  | FailedReading what e => println ("Failed reading " ++ what ++ ": " ++ err_text e)
  | PutOK index term isLeader =>
      println ("OK (Index: " ++ Sprintf_d index ++ ", Term: " ++ Sprintf_d term
               ++ ", Leader: " ++ Sprintf_v isLeader ++ ")")
  | PutFailed isLeader =>
      println ("FAILED (Not Leader or Cluster Error, Leader: " ++ Sprintf_v isLeader ++ ")")
  | NotFound => println "404 Not Found"
  | KeyDeleted => println "KEY DELETED (Tombstone)"
  | Value v => str "VALUE: " ++ v ++ [x0a]
  | TombstoneInserted index term =>
      println ("TOMBSTONE INSERTED (Index: " ++ Sprintf_d index ++ ", Term: " ++ Sprintf_d term ++ ")")
  | DeleteFailed => println "FAILED"
  end.

(** ** The command line *)

(** The flags of the commands. *)
Definition put_flags : flags :=
  {[ "addr"%string := StringValue "127.0.0.1:50051"; "key"%string := StringValue EmptyString;
     "value"%string := StringValue EmptyString ]}.
Definition key_flags : flags :=
  {[ "addr"%string := StringValue "127.0.0.1:50051"; "key"%string := StringValue EmptyString ]}.

(** Parsing the flags of a command; its key must not be empty. *)
Definition with_flags (formal : flags) (args : list string) (k : flags → go outcome) : go outcome :=
  match Parse formal args with
  | inr e => Ret (FlagExit e)
  | inl (fs, _) =>
      if bool_decide (string_flag fs "key" = EmptyString) then Ret KeyRequired else k fs
  end.

(** main, given os.Args. *)
Definition main (n : network) (args : list string) : go outcome :=
  match args with
  | _ :: command :: rest =>
      if bool_decide (command = "put"%string) then
        with_flags put_flags rest (λ fs,
          executePut n (string_flag fs "addr") (str (string_flag fs "key"))
            (str (string_flag fs "value")))
      else if bool_decide (command = "get"%string) then
        with_flags key_flags rest (λ fs,
          executeGet n (string_flag fs "addr") (str (string_flag fs "key")))
      else if bool_decide (command = "delete"%string) then
        with_flags key_flags rest (λ fs,
          executeDelete n (string_flag fs "addr") (str (string_flag fs "key")))
      else Ret Usage
  | _ => Ret Usage
  end.
