(* ===== verification/StagwaySpec.v ===== *)
(** * Correctness of the Stagway transport and of its client

    The abstract node [node_spec]: the list of the writes it has accepted and
    the next index of its Raft log.  [spec_step] says what a request does to it
    and what the answer is.  The relation [refines] ties a server and the disk
    to an abstract node, and the server's loop is shown to implement the
    abstract node on the bytes of the wire. *)

From Stdlib Require Import Strings.Byte Strings.String.
From S2P Require Import Prelude GoBytes KV Crc32 Os Record Wal WalSpec RaftNode RaftInv RaftLive.
From S2P Require Import Stagway Cli.

Local Open Scope Z_scope.

Inductive request := RPut (key value : bytes) | RGet (key : bytes) | RDelete (key : bytes).

Inductive response := Written (index term : Z) | Answer (a : bytes * bool * bool).

(** [sp_dir] is the directory the WAL lives in. *)
Record node_spec := mkSpec {
  sp_dir : bytes;
  sp_log : list kvt;
  sp_raft : option (Z * Z) }.

Definition sp_kv (n : node_spec) : kv := apply_ops ∅ (sp_log n).

(** A write takes the next index of the Raft log, or (1, 1) without Raft. *)
Definition spec_write (n : node_spec) (r : kvt) : node_spec * response :=
  match sp_raft n with
  | Some (idx, term) => (mkSpec (sp_dir n) (sp_log n ++ [r]) (Some (idx + 1, term)), Written idx term)
  | None => (mkSpec (sp_dir n) (sp_log n ++ [r]) None, Written 1 1)
  end.

Definition spec_step (n : node_spec) (q : request) : node_spec * response :=
  match q with
  | RPut k v => spec_write n (k, v, false)
  | RGet k => (n, Answer (lookup_answer (sp_kv n !! k)))
  | RDelete k => spec_write n (k, [], true)
  end.

Fixpoint spec_run (n : node_spec) (qs : list request) : node_spec * list response :=
  match qs with
  | [] => (n, [])
  | q :: qs =>
      let '(n, r) := spec_step n q in
      let '(n, rs) := spec_run n qs in (n, r :: rs)
  end.

(** The writes among the requests. *)
Definition write_of (q : request) : list kvt :=
  match q with
  | RPut k v => [(k, v, false)]
  | RGet _ => []
  | RDelete k => [(k, [], true)]
  end.

(** ** The wire *)

Definition frame (op : byte) (key val : bytes) : bytes :=
  op :: be_put 4 (len key) ++ be_put 4 (len val) ++ key ++ val.

(** Operation, key and value of a request. *)
Definition parts (q : request) : byte * bytes * bytes :=
  match q with
  | RPut k v => (OpPut, k, v)
  | RGet k => (OpGet, k, [])
  | RDelete k => (OpTombstone, k, [])
  end.

Definition wire (q : request) : bytes := frame (parts q).1.1 (parts q).1.2 (parts q).2.

Definition request_fits (q : request) : Prop := fits (parts q).1.2 (parts q).2.

Definition wire_response (r : response) : bytes :=
  match r with
  | Written idx term => [x01] ++ be_put 4 (u32 idx) ++ be_put 4 (u32 term) ++ [x01]
  | Answer (v, t, found) => [bool_byte found; bool_byte t] ++ be_put 4 (len v) ++ v
  end.

(** ** The simulation relation *)

Definition raft_sim (o : option RaftNode) (n : option (Z * Z)) : Prop :=
  match o, n with
  | None, None => True
  | Some r, Some (idx, term) =>
      role r = Leader ∧ currentTerm r = term ∧ len (rn_log r) = idx ∧ 0 < idx
      ∧ ∀ p, p ∈ rn_peers r → get0 (nextIndex r) p ≤ idx
  | _, _ => False
  end.

(** The directory of the WAL holds exactly the log [rs], all of it synced. *)
Record wal_holds (w : world) (wal : WAL) (rs : list kvt) : Prop := {
  wh_sync : SyncOnWrite (wal_opts wal) = true;
  wh_at : wal_at w wal (encode_log rs) (length (encode_log rs));
  wh_dir : ∃ d, w_dirs w !! DirPath (wal_opts wal) = Some d ∧ only_segment d;
  wh_fits : Forall fits_of rs }.

Section refinement.
Context {T : Type} `{Buffer T}.

Record refines (s : StagwayServer T) (w : world) (n : node_spec) : Prop := {
  rf_running : ss_running s = true;
  rf_raft : raft_sim (ss_raft s) (sp_raft n);
  rf_mem : ∃ m, ss_memTable s = Some m ∧ buf_rep m (sp_kv n);
  rf_wal : ∃ wal, ss_wal s = Some wal ∧ DirPath (wal_opts wal) = sp_dir n
             ∧ wal_holds w wal (sp_log n) }.
End refinement.

(** ** One write *)

Lemma apply_ops_snoc m rs r : apply_ops m (rs ++ [r]) = apply_op (apply_ops m rs) r.
Proof. unfold apply_ops. by rewrite foldl_app. Qed.

Lemma encode_log_snoc rs r : encode_log (rs ++ [r]) = encode_log rs ++ record_of r.
Proof. rewrite encode_log_app, encode_log_cons. unfold encode_log. simpl. by rewrite app_nil_r. Qed.

Lemma only_segment_insert d f :
  only_segment d → only_segment (<[str "bench_0.wal" := DFile f]> d).
Proof.
  intros Hd n e [[<- _]|[_ He]]%lookup_insert_Some ??; [done|by eapply Hd].
Qed.

Lemma Append_holds w wal rs k v t :
  wal_holds w wal rs → fits k v →
  ∃ wal' w', Append wal k v t w = Ret ((wal', (len (record k v t), None)), w')
    ∧ wal_holds w' wal' (rs ++ [(k, v, t)]) ∧ wal_opts wal' = wal_opts wal.
Proof.
  intros [Hs Hat (d & Hd & Hseg) Hf] Hfit.
  pose proof (at_path _ _ _ _ Hat) as Hp.
  destruct (Append_ok _ _ _ _ k v t Hat Hfit) as (wal' & w' & E & Hat' & Ho & Hw').
  exists wal', w'. split_and!; [done| |done]. rewrite Hs in Hat'. split.
  - by rewrite Ho.
  - by rewrite encode_log_snoc.
  - rewrite Hw', Hp, Ho. unfold insert_file, wal_path. cbn [w_dirs fst snd].
    rewrite lookup_alter_eq, Hd. eexists. split; [done|]. by apply only_segment_insert.
  - apply Forall_app. split; [done|]. by repeat constructor.
Qed.

Lemma Submit_sim r idx term k v t :
  raft_sim (Some r) (Some (idx, term)) →
  ∃ r' ms, Submit r k v t = Ret (r', ms, (idx, term, true))
    ∧ raft_sim (Some r') (Some (idx + 1, term)).
Proof.
  intros (Hr & Ht & Hl & Hpos & Hn). unfold Submit.
  rewrite (bool_decide_eq_true_2 _ Hr). cbn [negb]. cbv zeta.
  rewrite Hl, Ht. set (r1 := set_log r _).
  assert (len (rn_log r1) = idx + 1) as Hl1.
  { unfold r1. cbn [rn_log set_log]. rewrite len_app, Hl. done. }
  unfold broadcastHeartbeats. rewrite decide_True by done.
  destruct (heartbeats_ok r1 (rn_peers r1)) as [ms ->]; [lia| |].
  { intros p Hp. rewrite Hl1. specialize (Hn p Hp). cbn. lia. }
  cbn [bind_go]. do 2 eexists. split; [done|]. split_and!; try done; [lia|].
  intros p Hp. specialize (Hn p Hp). cbn. lia.
Qed.

Section server_spec.
Context {T : Type} `{Buffer T}.
Implicit Types (s : StagwayServer T).

Lemma submit_op_sim s n k v t :
  raft_sim (ss_raft s) (sp_raft n) →
  ∃ s1 ms idx term, submit_op s k v t = Ret (s1, ms, (idx, term, true))
    ∧ ss_running s1 = ss_running s ∧ ss_memTable s1 = ss_memTable s ∧ ss_wal s1 = ss_wal s
    ∧ (spec_write n (k, v, t)).2 = Written idx term
    ∧ raft_sim (ss_raft s1) (sp_raft (spec_write n (k, v, t)).1).
Proof.
  intros Hraft. unfold submit_op, spec_write.
  destruct (ss_raft s) as [r|] eqn:Er, (sp_raft n) as [[idx term]|]; try done.
  - destruct (Submit_sim r idx term k v t Hraft) as (r' & ms & -> & Hr'). cbn [bind_go].
    eexists (set_raft s r'), ms, idx, term. by split_and!.
  - exists s, [], 1, 1. rewrite Er. by split_and!.
Qed.

Lemma log_op_sim s w wal rs k v t :
  ss_wal s = Some wal → wal_holds w wal rs → fits k v →
  ∃ wal' w', log_op s k v t w = Ret (set_wal s wal', w')
    ∧ wal_holds w' wal' (rs ++ [(k, v, t)]) ∧ wal_opts wal' = wal_opts wal.
Proof.
  intros Hs Hw Hf. unfold log_op. rewrite Hs.
  destruct (Append_holds w wal rs k v t Hw Hf) as (wal' & w' & E & Hw' & Ho).
  erewrite bindM_ret by exact E. cbn beta iota. eauto.
Qed.

Lemma mem_op_sim s m M k v t :
  ss_memTable s = Some m → buf_rep m M →
  ∃ m', mem_op s k v t = Ret (set_mem s m') ∧ buf_rep m' (apply_op M (k, v, t)).
Proof.
  intros Hs Hm. unfold mem_op. rewrite Hs.
  destruct (buf_apply_ok k v t m M Hm) as (m' & -> & Hm'). cbn. eauto.
Qed.

Lemma spec_write_log n r : sp_log (spec_write n r).1 = sp_log n ++ [r].
Proof. unfold spec_write. by destruct (sp_raft n) as [[]|]. Qed.

Lemma spec_write_dir n r : sp_dir (spec_write n r).1 = sp_dir n.
Proof. unfold spec_write. by destruct (sp_raft n) as [[]|]. Qed.

(** A write on a healthy node succeeds and is logged, synced and applied. *)
Lemma write_op_sim s w n k v t :
  refines s w n → fits k v →
  ∃ s' ms w' idx term, write_op s k v t w = Ret ((s', ms, (idx, term, true, None)), w')
    ∧ (spec_write n (k, v, t)).2 = Written idx term
    ∧ refines s' w' (spec_write n (k, v, t)).1.
Proof.
  intros Hrf Hf. destruct (submit_op_sim s n k v t (rf_raft _ _ _ Hrf)) as (s1 & ms & idx & term & E1 & Hrun & Hm1 & Hw1 & Hres & Hraft).
  destruct Hrf as [Hr _ (m & Hm & Hrep) (wal & Hwal & Hdir & Hh)].
  unfold write_op. rewrite Hr. cbn [negb].
  erewrite bindM_ret by by apply liftM_ret. cbn beta iota.
  destruct (log_op_sim s1 w wal (sp_log n) k v t) as (wal' & w' & E2 & Hh' & Ho); [congruence|done|done|].
  cbn [negb]. erewrite bindM_ret by exact E2. cbn beta iota.
  destruct (mem_op_sim (set_wal s1 wal') m (sp_kv n) k v t) as (m' & E3 & Hrep'); [cbn; congruence|done|].
  erewrite bindM_ret by by apply liftM_ret. cbn beta iota.
  do 5 eexists. split; [done|]. split; [done|]. split; cbn.
  - congruence.
  - done.
  - eexists. split; [done|]. unfold sp_kv. by rewrite spec_write_log, apply_ops_snoc.
  - eexists. split; [done|]. rewrite spec_write_log, spec_write_dir, Ho. done.
Qed.

Lemma GetGeo_sim s w n k :
  refines s w n → GetGeo s k = Ret (lookup_answer (sp_kv n !! k), None).
Proof.
  intros [Hr _ (m & Hm & Hrep) _]. unfold GetGeo. rewrite Hr, Hm. cbn [negb].
  rewrite (buf_get_ok m _ k Hrep). cbn.
  by destruct (lookup_answer _) as [[??]?].
Qed.
End server_spec.

(** ** Responses *)

Lemma sendWriteResponse_ok idx term :
  sendWriteResponse (idx, term, true, None) = Ret (wire_response (Written idx term)).
Proof.
  unfold sendWriteResponse. cbn [andb]. rewrite bool_decide_eq_true_2 by done.
  set (z := λ n : nat, replicate n x00). cbn [bool_byte].
  rewrite (store_at _ [] x00 (z 4%nat ++ z 4%nat ++ [x00])) by done. rewrite go_bind_ret.
  rewrite (PutUint_at 4 _ [x01] (z 4%nat) (z 4%nat ++ [x00])) by done. rewrite go_bind_ret.
  rewrite (PutUint_at 4 _ ([x01] ++ be_put 4 (u32 idx)) (z 4%nat) [x00])
    by (buf_eq || done || (unfold z; len_lia)). rewrite go_bind_ret.
  rewrite (store_at _ ([x01] ++ be_put 4 (u32 idx) ++ be_put 4 (u32 term)) x00 [])
    by (buf_eq || done || len_lia).
  unfold wire_response. by rewrite <-!app_assoc.
Qed.

Lemma sendReadResponse_ok v t found :
  len v < 2 ^ 32 - 6 →
  sendReadResponse (v, t, found, None) = Ret (wire_response (Answer (v, t, found))).
Proof.
  intros Hv. pose proof (len_nonneg v). unfold sendReadResponse.
  rewrite (bool_decide_eq_true_2 (None = None)) by done. rewrite andb_true_r. cbv zeta.
  rewrite (u32_small (len v)), u32_small by lia.
  rewrite make_bytes_ok by (unfold maxAlloc; lia). rewrite go_bind_ret.
  set (z := λ n : nat, replicate n x00).
  assert (replicate (Z.to_nat (6 + len v)) x00 = [x00] ++ [x00] ++ z 4%nat ++ z (length v)) as ->.
  { unfold z. change [x00] with (replicate 1 x00). rewrite <-!replicate_add. f_equal. unfold len. lia. }
  rewrite (store_at _ [] x00 ([x00] ++ z 4%nat ++ z (length v))) by done. rewrite go_bind_ret.
  rewrite (store_at _ [bool_byte found] x00 (z 4%nat ++ z (length v))) by done. rewrite go_bind_ret.
  rewrite (PutUint_at 4 _ [bool_byte found; bool_byte t] (z 4%nat) (z (length v))) by done.
  rewrite go_bind_ret. cbn [wire_response].
  destruct (Z.ltb_spec 0 (len v)) as [Hpos|Hz].
  - rewrite (copy_into_at _ ([bool_byte found; bool_byte t] ++ be_put 4 (len v)) (z (length v)) [])
      by (rewrite ?app_nil_r; buf_eq || done || (unfold z; len_lia)).
    by rewrite app_nil_r, <-!app_assoc.
  - assert (v = []) as -> by (destruct v; [done|rewrite len_cons in *; pose proof (len_nonneg v); lia]).
    done.
Qed.

Lemma apply_ops_in rs k x :
  apply_ops ∅ rs !! k = Some x → x.1 = [] ∨ ∃ r, r ∈ rs ∧ x.1 = r.1.2.
Proof.
  induction rs as [|r rs IH] using rev_ind; [done|]. rewrite apply_ops_snoc.
  unfold apply_op. intros [[_ <-]|[_ Hx]]%lookup_insert_Some.
  - unfold op_value. destruct (r.2); [by left|right]. exists r. split; [|done].
    apply elem_of_app. right. by left.
  - destruct (IH Hx) as [?|(r' & ? & ?)]; [by left|right]. exists r'. split; [|done].
    apply elem_of_app. by left.
Qed.

Lemma stored_value_fits rs k v t found :
  Forall fits_of rs → lookup_answer (apply_ops ∅ rs !! k) = (v, t, found) → len v < 2 ^ 32 - 6.
Proof.
  intros Hf Ha. destruct (apply_ops ∅ rs !! k) as [[v' t']|] eqn:E; injection Ha as <- <- <-;
    [|rewrite len_nil; lia].
  destruct (apply_ops_in _ _ _ E) as [Ev|(r & Hr & Ev)]; cbn [fst] in Ev; rewrite Ev;
    [rewrite len_nil; lia|].
  rewrite Forall_forall in Hf. destruct (len_fits _ _ (Hf r Hr)) as (?&?&?). lia.
Qed.

(** ** Frames *)

Lemma len_frame op key val : len (frame op key val) = 9 + len key + len val.
Proof. unfold frame. len_lia. Qed.

Section connection.
Context {T : Type} `{Buffer T}.
Implicit Types (s : StagwayServer T).

(** The header of a frame: operation and the two lengths. *)
Lemma connection_loop_header fuel s op kl vl rest out sent w :
  op ≠ x50 → 0 ≤ kl < 2 ^ 32 → 0 ≤ vl < 2 ^ 32 →
  connection_loop (S fuel) s (op :: be_put 4 kl ++ be_put 4 vl ++ rest) out sent w =
    match read_full rest (u32 (kl + vl)) with
    | REOF | RUnexpectedEOF => Ret ((s, out, sent), w)
    | RFull bodyBuf conn =>
        (let! key := liftM (slice bodyBuf 0 kl) in
         let! val := liftM (slice bodyBuf kl (len bodyBuf)) in
         let! (s, resp, ms) := dispatch s op key val in
         connection_loop fuel s conn (out ++ resp) (sent ++ ms)) w
    end.
Proof.
  intros Hop Hk Hv. cbn [connection_loop].
  set (hd := op :: be_put 4 kl ++ be_put 4 vl).
  assert (op :: be_put 4 kl ++ be_put 4 vl ++ rest = hd ++ rest) as ->
    by (unfold hd; cbn [app]; by rewrite <-app_assoc).
  assert (len hd = 9) as Hhd by (unfold hd; len_lia). rewrite read_full_app by done.
  assert (is_preface hd = false) as ->.
  { unfold is_preface. apply bool_decide_eq_false_2. unfold hd. cbn. by intros [= ?]. }
  erewrite bindM_ret by (apply liftM_ret; by eapply (index_at _ [])).
  erewrite bindM_ret.
  2:{ apply liftM_ret. apply (Uint_at 4 _ [op] (be_put 4 kl) (be_put 4 vl)); (done || len_lia). }
  erewrite bindM_ret.
  2:{ apply liftM_ret. apply (Uint_at 4 _ ([op] ++ be_put 4 kl) (be_put 4 vl) []);
        [unfold hd; by rewrite app_nil_r|len_lia..]. }
  rewrite !be_get_put_small by (change (256 ^ Z.of_nat 4) with (2 ^ 32); lia).
  pose proof (u32_range (kl + vl)).
  erewrite bindM_ret by (apply liftM_ret, make_bytes_ok; unfold maxAlloc; lia).
  by destruct (read_full _ _).
Qed.

(** A turn of the loop on a well-formed frame runs the operation. *)
Lemma connection_loop_frame fuel s op key val rest out sent w :
  op ≠ x50 → fits key val →
  connection_loop (S fuel) s (frame op key val ++ rest) out sent w =
    (let! (s, resp, ms) := dispatch s op key val in
     connection_loop fuel s rest (out ++ resp) (sent ++ ms)) w.
Proof.
  intros Hop (Hk & Hv & Hkv)%len_fits. unfold frame. cbn [app]. rewrite <-!app_assoc.
  rewrite connection_loop_header, u32_small by (done || lia).
  rewrite (app_assoc key), read_full_app by by rewrite len_app.
  erewrite bindM_ret by (apply liftM_ret; by apply (slice_at _ [] key val)).
  erewrite bindM_ret.
  2:{ apply liftM_ret. apply (slice_at _ key val []); [by rewrite app_nil_r|done|by rewrite len_app]. }
  done.
Qed.

Lemma connection_loop_end fuel s conn out sent w :
  len conn < 9 → connection_loop (S fuel) s conn out sent w = Ret ((s, out, sent), w).
Proof.
  intros Hc. cbn [connection_loop]. by destruct (read_full_short conn 9 Hc) as [-> | ->].
Qed.

(** The operation of a request, against the specification. *)
Lemma dispatch_sim s w n q :
  refines s w n → request_fits q →
  ∃ s' ms w', dispatch s (parts q).1.1 (parts q).1.2 (parts q).2 w
      = Ret ((s', wire_response (spec_step n q).2, ms), w')
    ∧ refines s' w' (spec_step n q).1.
Proof.
  intros Hrf Hfit. unfold dispatch, request_fits in *.
  destruct q as [k v|k|k]; cbn [parts fst snd] in *; cbn [spec_step].
  - rewrite bool_decide_eq_true_2 by done. unfold PutGeo.
    destruct (write_op_sim s w n k v false Hrf Hfit) as (s' & ms & w' & idx & term & E & -> & Hrf').
    erewrite bindM_ret by exact E. cbn beta iota.
    erewrite bindM_ret by (apply liftM_ret, sendWriteResponse_ok). eauto.
  - rewrite bool_decide_eq_false_2, bool_decide_eq_true_2 by done.
    erewrite bindM_ret by (eapply liftM_ret, GetGeo_sim, Hrf).
    destruct (lookup_answer (sp_kv n !! k)) as [[v t] found] eqn:Ea.
    erewrite bindM_ret.
    2:{ apply liftM_ret, sendReadResponse_ok. destruct Hrf as [_ _ _ (wal & _ & _ & Hh)].
        eapply stored_value_fits; [apply Hh|exact Ea]. }
    cbn [fst snd]. eauto.
  - rewrite !bool_decide_eq_false_2, bool_decide_eq_true_2 by done. unfold FocusTombstone.
    destruct (write_op_sim s w n k [] true Hrf Hfit) as (s' & ms & w' & idx & term & E & -> & Hrf').
    erewrite bindM_ret by exact E. cbn beta iota.
    erewrite bindM_ret by (apply liftM_ret, sendWriteResponse_ok). eauto.
Qed.

Definition wire_all (qs : list request) : bytes := mjoin (wire <$> qs).
Definition wire_responses (rs : list response) : bytes := mjoin (wire_response <$> rs).

Lemma wire_all_cons q qs :
  wire_all (q :: qs) = frame (parts q).1.1 (parts q).1.2 (parts q).2 ++ wire_all qs.
Proof. done. Qed.

Lemma wire_responses_cons r rs : wire_responses (r :: rs) = wire_response r ++ wire_responses rs.
Proof. done. Qed.

Lemma connection_loop_sim qs fuel s w n tail out sent :
  refines s w n → Forall request_fits qs → len tail < 9 → (length qs < fuel)%nat →
  ∃ s' ms w', connection_loop fuel s (wire_all qs ++ tail) out sent w
      = Ret ((s', out ++ wire_responses (spec_run n qs).2, ms), w')
    ∧ refines s' w' (spec_run n qs).1.
Proof.
  revert fuel s w n out sent.
  induction qs as [|q qs IH]; intros [|fuel] s w n out sent Hrf Hfit Ht Hfuel; try (simpl in Hfuel; lia).
  - rewrite connection_loop_end by done. cbn. rewrite app_nil_r. eauto.
  - apply Forall_cons in Hfit as [Hq Hqs]. rewrite wire_all_cons, <-app_assoc.
    rewrite connection_loop_frame by (done || by destruct q).
    destruct (dispatch_sim s w n q Hrf Hq) as (s1 & ms1 & w1 & E1 & Hrf1).
    erewrite bindM_ret by exact E1. cbn beta iota. cbn [spec_run].
    destruct (spec_step n q) as [n1 r1]. cbn [fst snd] in *.
    destruct (IH fuel s1 w1 n1 (out ++ wire_response r1) (sent ++ ms1)) as (s2 & ms2 & w2 & E2 & Hrf2);
      [done..|simpl in Hfuel; lia|].
    destruct (spec_run n1 qs) as [n2 rs2]. cbn [fst snd] in *.
    exists s2, ms2, w2. split; [|done]. rewrite E2.
    by rewrite wire_responses_cons, <-app_assoc.
Qed.

Lemma length_wire_all qs : (length qs ≤ length (wire_all qs))%nat.
Proof.
  induction qs as [|q qs IH]; [done|]. rewrite wire_all_cons, length_app. cbn [length].
  pose proof (len_frame (parts q).1.1 (parts q).1.2 (parts q).2). unfold len in *. lia.
Qed.

Lemma handleConnection_sim qs s w n tail :
  refines s w n → Forall request_fits qs → len tail < 9 →
  ∃ s' ms w', handleConnection s (wire_all qs ++ tail) w
      = Ret ((s', wire_responses (spec_run n qs).2, ms), w')
    ∧ refines s' w' (spec_run n qs).1.
Proof.
  intros Hrf Hfit Ht. unfold handleConnection.
  apply (connection_loop_sim qs _ s w n tail [] []); [done..|].
  rewrite length_app. pose proof (length_wire_all qs). lia.
Qed.
End connection.
