(* ===== verification/StagwayClaims.v ===== *)
(** * What the Stagway transport guarantees, and where it stops

    The refinement of the abstract node by the server loop, the exchange of a
    client command with the server, termination on arbitrary input, refused
    writes, and three behaviours outside the contract: length fields whose sum
    wraps, a failing disk, and concurrent writes to one key. *)

From Stdlib Require Import Strings.Byte Strings.String.
From S2P Require Import Prelude GoBytes Flag KV Crc32 Os Record Wal WalSpec MemTable MemTableSpec.
From S2P Require Import RaftNode RaftInv RaftLive RaftClaims Stagway Cli StagwaySpec.

Local Open Scope Z_scope.

(** ** A concrete node for the witnesses *)

Definition raft0 : RaftNode :=
  match election_tick (NewRaftNode 1 [] (Some []) (mkClock 0 0)) late with
  | Ret (r, _) => r
  | _ => NewRaftNode 1 [] (Some []) (mkClock 0 0)
  end.

Definition wal1 : WAL :=
  mkWAL (DefaultWALOptions (str "data")) (mkHandle (wal_path (str "data")) 0 true true) false 0.

Definition server0 : StagwayServer MemTable :=
  mkStagwayServer (DefaultStagwayServerOptions "" 1) (Some (mkListener "127.0.0.1:50051" true))
    (Some raft0) (Some (new_table DefaultMemTableOptions [])) (Some wal1) true.

Definition world0 : world := file_world (mkFile [] 0).

Definition spec0 : node_spec := mkSpec (str "data") [] (Some (1, 1)).

Lemma only_segment_data f : only_segment {[ str "bench_0.wal" := DFile f ]}.
Proof. intros n e [<- _]%lookup_singleton_Some _ _. done. Qed.

Lemma server0_refines : refines server0 world0 spec0.
Proof.
  split; cbn [ss_running server0 ss_raft sp_raft spec0 ss_memTable ss_wal].
  - done.
  - cbn [raft_sim]. split_and!; try (vm_compute; reflexivity).
    intros p Hp. by apply elem_of_nil in Hp.
  - eexists. split; [done|]. apply represents_default.
  - eexists. split_and!; [done|done|]. split; [done| | |constructor].
    + by split; try (vm_compute; reflexivity).
    + eexists. split; [apply lookup_singleton_eq|]. apply only_segment_data.
Qed.

(** ** The contract *)

(** C3.  The server refines the abstract node on the wire: whatever sequence
    of well-sized requests a client sends, followed by an incomplete header, the
    bytes written back are exactly the encodings of the answers the abstract
    node gives, in order, and the server with its disk ends in a state that
    represents the abstract node: every accepted write is in the buffer and, in
    order, fully synced, in the WAL. *)
Theorem connection_refines_node {T} `{Buffer T} (s : StagwayServer T) w n qs tail :
  refines s w n → Forall request_fits qs → len tail < 9 →
  ∃ s' ms w', handleConnection s (wire_all qs ++ tail) w
      = Ret ((s', wire_responses (spec_run n qs).2, ms), w')
    ∧ refines s' w' (spec_run n qs).1.
Proof. intros Hrf Hfit Ht. by apply handleConnection_sim. Qed.

Definition session0 : list request :=
  [RPut (str "geo") (str "500"); RGet (str "geo"); RDelete (str "geo"); RGet (str "zote")].

Lemma connection_refines_node_witness :
  ∃ s' ms w', handleConnection server0 (wire_all session0 ++ [x01]) world0
      = Ret ((s', wire_responses [Written 1 1; Answer (str "500", false, true); Written 2 1;
                                  Answer ([], false, false)], ms), w')
    ∧ refines s' w' (mkSpec (str "data") [(str "geo", str "500", false); (str "geo", [], true)] (Some (3, 1))).
Proof.
  apply (connection_refines_node server0 world0 spec0 session0 [x01]);
    [apply server0_refines|repeat constructor|done].
Defined.

(** ** Client and server together *)

Definition execute (net : network) (addr : string) (q : request) : go outcome :=
  match q with
  | RPut k v => executePut net addr k v
  | RGet k => executeGet net addr k
  | RDelete k => executeDelete net addr k
  end.

(** What the client prints for the answer of the abstract node. *)
Definition expected (q : request) (r : response) : outcome :=
  match q, r with
  | RPut _ _, Written idx term => PutOK (u32 idx) (u32 term) true
  | RDelete _, Written idx term => TombstoneInserted (u32 idx) (u32 term)
  | _, Answer (v, t, found) =>
      if found then if t then KeyDeleted else Value v else NotFound
  | _, _ => NotFound
  end.

Lemma put_request_wire k v : fits k v → put_request k v = Ret (frame OpPut k v).
Proof.
  intros (Hk & Hv & Hkv)%len_fits. unfold put_request. cbv zeta.
  rewrite (u32_small (len k)), (u32_small (len v)), !u32_small by lia.
  rewrite make_bytes_ok by (unfold maxAlloc; lia). rewrite go_bind_ret.
  set (z := λ n : nat, replicate n x00).
  assert (replicate (Z.to_nat (9 + len k + len v)) x00
          = [x00] ++ z 4%nat ++ z 4%nat ++ z (length k) ++ z (length v)) as ->.
  { unfold z. change [x00] with (replicate 1 x00). rewrite <-!replicate_add. f_equal. unfold len. lia. }
  rewrite (store_at _ [] x00 (z 4%nat ++ z 4%nat ++ z (length k) ++ z (length v))) by done.
  rewrite go_bind_ret. cbn [app].
  rewrite (PutUint_at 4 _ [OpPut] (z 4%nat) (z 4%nat ++ z (length k) ++ z (length v))) by done.
  rewrite go_bind_ret.
  rewrite (PutUint_at 4 _ ([OpPut] ++ be_put 4 (len k)) (z 4%nat) (z (length k) ++ z (length v)))
    by (buf_eq || done || (unfold z; len_lia)). rewrite go_bind_ret.
  rewrite (copy_into_at _ (([OpPut] ++ be_put 4 (len k)) ++ be_put 4 (len v)) (z (length k)) (z (length v)))
    by (buf_eq || done || (unfold z; len_lia)). rewrite go_bind_ret.
  rewrite (copy_into_at _ ((([OpPut] ++ be_put 4 (len k)) ++ be_put 4 (len v)) ++ k) (z (length v)) [])
    by (rewrite ?app_nil_r; buf_eq || done || (unfold z; len_lia)).
  unfold frame. by rewrite app_nil_r, <-!app_assoc.
Qed.

Lemma key_request_wire op k : fits k [] → key_request op k = Ret (frame op k []).
Proof.
  intros (Hk & _ & Hkv)%len_fits. rewrite len_nil in Hkv. unfold key_request. cbv zeta.
  rewrite (u32_small (len k)), !u32_small by lia.
  rewrite make_bytes_ok by (unfold maxAlloc; lia). rewrite go_bind_ret.
  set (z := λ n : nat, replicate n x00).
  assert (replicate (Z.to_nat (9 + len k)) x00 = [x00] ++ z 4%nat ++ z 4%nat ++ z (length k)) as ->.
  { unfold z. change [x00] with (replicate 1 x00). rewrite <-!replicate_add. f_equal. unfold len. lia. }
  rewrite (store_at _ [] x00 (z 4%nat ++ z 4%nat ++ z (length k))) by done.
  rewrite go_bind_ret. cbn [app].
  rewrite (PutUint_at 4 _ [op] (z 4%nat) (z 4%nat ++ z (length k))) by done.
  rewrite go_bind_ret.
  rewrite (PutUint_at 4 _ ([op] ++ be_put 4 (len k)) (z 4%nat) (z (length k)))
    by (buf_eq || done || (unfold z; len_lia)). rewrite go_bind_ret.
  rewrite (copy_into_at _ (([op] ++ be_put 4 (len k)) ++ be_put 4 0) (z (length k)) [])
    by (rewrite ?app_nil_r; buf_eq || done || (unfold z; len_lia)).
  unfold frame. by rewrite !app_nil_r, <-!app_assoc.
Qed.

Lemma read_write_response_ok idx term rest :
  read_write_response (wire_response (Written idx term) ++ rest)
    = Ret (inl (true, u32 idx, u32 term, true)).
Proof.
  unfold read_write_response, wire_response.
  pose proof (u32_range idx). pose proof (u32_range term).
  rewrite read_full_app by len_lia.
  set (b := be_put 4 (u32 idx)). set (b' := be_put 4 (u32 term)).
  rewrite (index_at _ [] x01 (b ++ b' ++ [x01])) by done. rewrite go_bind_ret.
  rewrite (Uint_at 4 _ [x01] b (b' ++ [x01])) by (done || (unfold b; len_lia)). rewrite go_bind_ret.
  rewrite (Uint_at 4 _ ([x01] ++ b) b' [x01])
    by (buf_eq || done || (unfold b, b'; len_lia)). rewrite go_bind_ret.
  rewrite (index_at _ ([x01] ++ b ++ b') x01 [])
    by (buf_eq || done || (unfold b, b'; len_lia)). rewrite go_bind_ret.
  unfold b, b'. by rewrite !be_get_put_small by (change (256 ^ Z.of_nat 4) with (2 ^ 32); lia).
Qed.

Section exchange.
Context (net : network) (addr : string) (q : request) (out : bytes).
Context (Hdial : net_Dial net addr = None) (Hwrite : conn_Write net (wire q) = None)
  (Hreply : conn_reply net (wire q) = out).

Lemma exchange_ok what req k : req = Ret (wire q) → exchange net addr what req k = k out.
Proof using Hdial Hwrite Hreply.
  intros ->. unfold exchange. rewrite Hdial. cbn [bind_go]. by rewrite Hwrite, Hreply.
Qed.
End exchange.

Lemma executeGet_ok net addr k v t found :
  fits k [] → len v < 2 ^ 32 →
  net_Dial net addr = None → conn_Write net (wire (RGet k)) = None →
  conn_reply net (wire (RGet k)) = wire_response (Answer (v, t, found)) →
  executeGet net addr k = Ret (expected (RGet k) (Answer (v, t, found))).
Proof.
  intros Hf Hv Hd Hw Hr. pose proof (len_nonneg v). unfold executeGet.
  rewrite (exchange_ok net addr (RGet k) _ Hd Hw Hr) by by apply key_request_wire.
  unfold wire_response. set (b := be_put 4 (len v)).
  assert ([bool_byte found; bool_byte t] ++ b ++ v = ([bool_byte found; bool_byte t] ++ b) ++ v) as ->
    by by rewrite app_assoc.
  rewrite read_full_app by (unfold b; len_lia). cbn [app].
  rewrite (index_at _ [] (bool_byte found) (bool_byte t :: b)) by done. rewrite go_bind_ret.
  rewrite (index_at _ [bool_byte found] (bool_byte t) b) by done. rewrite go_bind_ret.
  rewrite (Uint_at 4 _ [bool_byte found; bool_byte t] b [])
    by (rewrite ?app_nil_r; done || (unfold b; len_lia)). rewrite go_bind_ret.
  unfold b. rewrite be_get_put_small by (change (256 ^ Z.of_nat 4) with (2 ^ 32); lia).
  unfold expected. destruct found; [|done]. destruct t; [done|]. cbn [negb bool_byte].
  rewrite bool_decide_eq_true_2, bool_decide_eq_false_2 by done. cbn [negb].
  rewrite make_bytes_ok by (unfold maxAlloc; lia). rewrite go_bind_ret.
  by rewrite <-(app_nil_r v) at 1; rewrite read_full_app.
Qed.

(** The client decodes the answer of the abstract node. *)
Lemma execute_ok net addr (n : node_spec) q :
  request_fits q → Forall fits_of (sp_log n) →
  net_Dial net addr = None → conn_Write net (wire q) = None →
  conn_reply net (wire q) = wire_response (spec_step n q).2 →
  execute net addr q = Ret (expected q (spec_step n q).2).
Proof.
  intros Hf Hlog Hd Hw Hr. unfold request_fits in Hf.
  assert (∀ r, ∃ idx term, (spec_write n r).2 = Written idx term) as Hwr.
  { intros r. unfold spec_write. destruct (sp_raft n) as [[]|]; eauto. }
  destruct q as [k v|k|k]; cbn [parts fst snd] in Hf; cbn [spec_step execute fst snd] in *.
  - unfold executePut. destruct (Hwr (k, v, false)) as (idx & term & E). rewrite E in *.
    rewrite (exchange_ok net addr (RPut k v) _ Hd Hw Hr) by by apply put_request_wire.
    rewrite <-(app_nil_r (wire_response _)), read_write_response_ok. done.
  - destruct (lookup_answer _) as [[v t] found] eqn:Ea.
    apply executeGet_ok; [done| |done..]. pose proof (stored_value_fits _ _ _ _ _ Hlog Ea). lia.
  - unfold executeDelete. destruct (Hwr (k, [], true)) as (idx & term & E). rewrite E in *.
    rewrite (exchange_ok net addr (RDelete k) _ Hd Hw Hr) by by apply key_request_wire.
    rewrite <-(app_nil_r (wire_response _)), read_write_response_ok. done.
Qed.

(** The command word and the flags of a request. *)
Definition command_of (q : request) : string :=
  match q with RPut _ _ => "put" | RGet _ => "get" | RDelete _ => "delete" end.
Definition flags_of (q : request) : flags :=
  match q with RPut _ _ => put_flags | _ => key_flags end.

(** The assignments of a command line set the key, and for a put the value, of
    the request, and the address [addr]. *)
Definition asks (q : request) (addr : string) (l : list (spelling * (string * string))) : Prop :=
  Forall (λ x, flag_name x.2.1 = true) l ∧ ∃ fs, assign_all (flags_of q) l = Some fs
    ∧ string_flag fs "addr" = addr ∧ string_flag fs "key" ≠ EmptyString
    ∧ match q with
      | RPut k v => str (string_flag fs "key") = k ∧ str (string_flag fs "value") = v
      | RGet k | RDelete k => str (string_flag fs "key") = k
      end.

(** A command line that asks for a request, followed by arguments that are not
    flags, runs the command. *)
Lemma main_asks net prog q addr l rest :
  asks q addr l → (∀ fs, Parse fs rest = inl (fs, rest)) →
  main net (prog :: command_of q :: spell_all l ++ rest) = execute net addr q.
Proof.
  intros [Hl (fs & Hfs & Ha & Hk & Hq)] Hrest.
  assert (∀ k, with_flags (flags_of q) (spell_all l ++ rest) k = k fs) as Hw.
  { intros k. unfold with_flags. rewrite (Parse_spell_all l _ _ rest Hl Hfs), Hrest.
    by rewrite bool_decide_eq_false_2. }
  destruct q as [k v|k|k]; cbn [command_of flags_of] in *; unfold main;
    repeat (rewrite bool_decide_eq_false_2 by done); rewrite bool_decide_eq_true_2 by done;
    rewrite Hw, Ha; cbn [execute]; [by destruct Hq as [-> ->]|by rewrite Hq|by rewrite Hq].
Qed.

(** C21.  A command line and the server agree end to end: however the flags of a
    command are spelled and ordered, when the client's connection carries its
    request to the server and the server's bytes back, the client prints what
    the abstract node answers: the index and term (as 32-bit numbers) of a
    write, the stored value, or that the key is deleted or absent; the server
    has then executed exactly this request. *)
Theorem cli_server_round_trip {T} `{Buffer T} (s : StagwayServer T) w n q :
  refines s w n → request_fits q →
  ∃ s' out ms w', handleConnection s (wire q) w = Ret ((s', out, ms), w')
    ∧ refines s' w' (spec_step n q).1
    ∧ ∀ net prog addr l, asks q addr l →
        net_Dial net addr = None → conn_Write net (wire q) = None → conn_reply net (wire q) = out →
        main net (prog :: command_of q :: spell_all l) = Ret (expected q (spec_step n q).2).
Proof.
  intros Hrf Hq. assert (Forall fits_of (sp_log n)) as Hlog
    by (destruct Hrf as [_ _ _ (wal & _ & _ & Hh)]; apply Hh).
  destruct (handleConnection_sim [q] s w n []) as (s' & ms & w' & E & Hrf'); [done|by constructor|done|].
  cbn [spec_run] in *. destruct (spec_step n q) as [n1 r1] eqn:Es. cbn [fst snd] in *.
  rewrite wire_all_cons, wire_responses_cons in E. cbn [wire_all wire_responses fmap list_fmap mjoin list_join] in E.
  rewrite !app_nil_r in E. do 4 eexists. split_and!; [exact E|done|].
  intros net prog addr l Hasks Hd Hw Hr. rewrite <-(app_nil_r (spell_all l)).
  rewrite (main_asks net prog q addr l []) by done.
  pose proof (execute_ok net addr n q Hq Hlog Hd Hw) as Hx. rewrite Es in Hx. by apply Hx.
Qed.

Definition loopback (reply : bytes) : network :=
  mkNetwork (λ _, None) (λ _, None) (λ _, reply).

(** [--value 500 -key=geo]. *)
Definition put_line : list (spelling * (string * string)) :=
  [(DashDash, ("value", "500")); (DashEq, ("key", "geo"))]%string.

Lemma put_line_asks : asks (RPut (str "geo") (str "500")) "127.0.0.1:50051" put_line.
Proof.
  split; [repeat constructor|].
  exists (<["key"%string := StringValue "geo"]> (<["value"%string := StringValue "500"]> put_flags)).
  unfold string_flag. simplify_map_eq. unfold put_flags. simplify_map_eq. split_and!; done.
Qed.

Lemma cli_server_round_trip_witness :
  ∃ s' out ms w',
    handleConnection server0 (wire (RPut (str "geo") (str "500"))) world0 = Ret ((s', out, ms), w')
    ∧ main (loopback out) ["hallownest-cli"; "put"; "--value"; "500"; "-key=geo"]%string
        = Ret (PutOK 1 1 true).
Proof.
  destruct (cli_server_round_trip server0 world0 spec0 (RPut (str "geo") (str "500")))
    as (s' & out & ms & w' & E & _ & Hx); [apply server0_refines|done|].
  exists s', out, ms, w'. split; [exact E|].
  exact (Hx (loopback out) "hallownest-cli"%string _ put_line put_line_asks eq_refl eq_refl eq_refl).
Defined.

(** ** Arbitrary input *)

(** C36.  The length check the server lacks: a header whose two length fields
    add up to 2^32 or more makes the [uint32] sum wrap, the body buffer is
    shorter than the key, and slicing the key panics, which takes the process
    down; nine bytes from any client suffice when the sum is exactly 2^32. *)
Theorem wrapped_lengths_crash_server {T} `{Buffer T} (s : StagwayServer T) w op kl vl rest :
  op ≠ x50 → 0 ≤ kl < 2 ^ 32 → 0 ≤ vl < 2 ^ 32 → 2 ^ 32 ≤ kl + vl → kl + vl - 2 ^ 32 ≤ len rest →
  handleConnection s (op :: be_put 4 kl ++ be_put 4 vl ++ rest) w = Panic.
Proof.
  intros Hop Hk Hv Hw Hr. unfold handleConnection. rewrite connection_loop_header by done.
  assert (u32 (kl + vl) = kl + vl - 2 ^ 32) as ->.
  { unfold u32. rewrite <-(Z_mod_plus_full (kl + vl) (-1)), Z.mod_small; lia. }
  unfold read_full. rewrite (proj2 (Z.leb_le _ _)) by done.
  unfold bindM, liftM, slice.
  assert (∀ b : bytes, len b < kl → in_bounds b 0 kl = false) as Hib.
  { intros b Hb. apply not_true_iff_false. rewrite in_bounds_true. lia. }
  rewrite Hib; [done|]. unfold len in *. rewrite length_take. lia.
Qed.

Lemma wrapped_lengths_crash_server_witness :
  handleConnection server0 [x01; xff; xff; xff; xff; x00; x00; x00; x01] world0 = Panic.
Proof.
  change [x01; xff; xff; xff; xff; x00; x00; x00; x01]
    with (x01 :: be_put 4 (2 ^ 32 - 1) ++ be_put 4 1 ++ []).
  apply (wrapped_lengths_crash_server server0); done || lia.
Defined.

(** [total P m]: from every world [m] stops, and its result satisfies [P]. *)
Definition total {A} (P : A → Prop) (m : IO A) : Prop :=
  ∀ w, m w ≠ OutOfFuel ∧ ∀ a w', m w = Ret (a, w') → P a.

Lemma total_ret {A} (P : A → Prop) a : P a → total P (retM a).
Proof. intros Ha w. split; [done|]. by intros a' w' [= <- _]. Qed.

Lemma total_bind {A B} (P : A → Prop) (Q : B → Prop) (m : IO A) (k : A → IO B) :
  total P m → (∀ a, P a → total Q (k a)) → total Q (bindM m k).
Proof.
  intros Hm Hk w. destruct (Hm w) as [Hoof Hret]. unfold bindM.
  destruct (m w) as [[a w']| |]; [|done..]. by apply Hk, (Hret a w').
Qed.

Lemma total_lift {A} (P : A → Prop) (m : go A) :
  m ≠ OutOfFuel → (∀ a, m = Ret a → P a) → total P (liftM m).
Proof. intros Hm HP w. split; [by destruct m|]. destruct m; [|done..]. intros a' w' [= <- _]. auto. Qed.

Lemma total_any {A} (m : IO A) : (∀ w, m w ≠ OutOfFuel) → total (λ _, True) m.
Proof. done. Qed.

Lemma Append_no_oof wal k v t w : Append wal k v t w ≠ OutOfFuel.
Proof.
  unfold Append. destruct (wal_closed wal); [done|].
  apply bindM_no_oof; [auto with no_oof|]. intros enc w1 _.
  apply bindM_no_oof; [auto with no_oof|]. intros [[n [e|]] h] w2 _; [done|].
  cbv zeta. destruct (SyncOnWrite _); [|done].
  apply bindM_no_oof; [auto with no_oof|]. by intros [|] w3 _.
Qed.

Lemma heartbeats_no_oof r ps : heartbeats r ps ≠ OutOfFuel.
Proof.
  induction ps as [|p ps IH]; [done|]. cbn [heartbeats]. unfold heartbeat_for.
  auto 10 with no_oof.
Qed.

Lemma Submit_no_oof r k v t : Submit r k v t ≠ OutOfFuel.
Proof.
  unfold Submit. destruct (negb _); [done|]. cbv zeta. unfold broadcastHeartbeats.
  destruct (decide _); [|done]. apply go_bind_no_oof; [apply heartbeats_no_oof|done].
Qed.

Lemma sendWriteResponse_no_oof r : sendWriteResponse r ≠ OutOfFuel.
Proof. unfold sendWriteResponse. destruct r as [[[]]]. auto 10 with no_oof. Qed.

Lemma sendReadResponse_no_oof r : sendReadResponse r ≠ OutOfFuel.
Proof.
  unfold sendReadResponse. destruct r as [[[v t] f] e].
  repeat (apply go_bind_no_oof; [auto with no_oof|intros]). destruct (0 <? _); auto with no_oof.
Qed.

Section termination.
Context {T : Type} `{Buffer T}.
Implicit Types (s : StagwayServer T).

(** The buffer, if there is one, is well formed. *)
Definition mem_ok (s : StagwayServer T) : Prop :=
  ∀ m, ss_memTable s = Some m → ∃ M, buf_rep m M.

Lemma mem_op_total s k v t : mem_ok s → total mem_ok (liftM (mem_op s k v t)).
Proof.
  intros Hm. unfold mem_op. destruct (ss_memTable s) as [m|] eqn:Em; [|by apply total_ret].
  destruct (Hm m Em) as [M HM]. destruct (buf_apply_ok k v t m M HM) as (m' & -> & Hm').
  apply total_ret. intros m0. cbn. intros [= <-]. eauto.
Qed.

Lemma log_op_total s k v t : mem_ok s → total mem_ok (log_op s k v t).
Proof.
  intros Hm. unfold log_op. destruct (ss_wal s); [|by apply total_ret].
  eapply total_bind; [apply total_any, Append_no_oof|]. intros [wal r] _. by apply total_ret.
Qed.

Lemma write_op_total s k v t : mem_ok s → total (λ r, mem_ok r.1.1) (write_op s k v t).
Proof.
  intros Hm. unfold write_op. destruct (negb (ss_running s)); [by apply total_ret|].
  apply (total_bind (λ r, mem_ok r.1.1)).
  - unfold submit_op. destruct (ss_raft s) as [r|]; [|by apply total_ret].
    apply total_lift; [apply go_bind_no_oof; [apply Submit_no_oof|by intros [[]]]|].
    intros a ([[r' ms] res] & _ & [= <-])%go_bind_Ret_inv. done.
  - intros [[s1 ms] [[idx term] l]] Hm1. destruct (negb l); [by apply total_ret|].
    eapply total_bind; [by apply log_op_total|]. intros s2 Hm2.
    eapply total_bind; [by apply mem_op_total|]. intros s3 Hm3. by apply total_ret.
Qed.

Lemma GetGeo_no_oof s k : mem_ok s → GetGeo s k ≠ OutOfFuel.
Proof.
  intros Hm. unfold GetGeo. destruct (negb _); [done|].
  destruct (ss_memTable s) as [m|] eqn:Em; [|done]. destruct (Hm m Em) as [M HM].
  rewrite (buf_get_ok m M k HM). cbn. by destruct (lookup_answer _) as [[]].
Qed.

Lemma dispatch_total s op k v : mem_ok s → total (λ r, mem_ok r.1.1) (dispatch s op k v).
Proof.
  intros Hm. unfold dispatch, PutGeo, FocusTombstone.
  assert (∀ k v t, total (λ r, mem_ok r.1.1) (
    let! (s, ms, r) := write_op s k v t in
    let! resp := liftM (sendWriteResponse r) in retM (s, resp, ms))) as Hwr.
  { intros k' v' t. eapply total_bind; [by apply write_op_total|]. intros [[s1 ms] r] Hm1.
    eapply total_bind; [apply total_any; intros w; apply liftM_no_oof, sendWriteResponse_no_oof|].
    intros resp _. by apply total_ret. }
  repeat case_bool_decide; [apply Hwr| |apply Hwr|by apply total_ret].
  eapply total_bind; [apply total_any; intros w; by apply liftM_no_oof, GetGeo_no_oof|]. intros r _.
  eapply total_bind; [apply total_any; intros w; apply liftM_no_oof, sendReadResponse_no_oof|].
  intros resp _. by apply total_ret.
Qed.

Lemma connection_loop_total fuel s conn out sent :
  (length conn < fuel)%nat → mem_ok s → total (λ r, mem_ok r.1.1) (connection_loop fuel s conn out sent).
Proof.
  revert s conn out sent. induction fuel as [|fuel IH]; intros s conn out sent Hf Hm; [lia|].
  cbn [connection_loop]. destruct (read_full conn 9) as [hd conn1| |] eqn:E1; [|by apply total_ret..].
  apply read_full_inv in E1 as [-> Hhd]. rewrite length_app in Hf. unfold len in Hhd.
  destruct (is_preface hd); [by apply total_ret|].
  do 4 (eapply total_bind; [apply total_any; intros w; auto with no_oof|intros ? _]).
  destruct (read_full conn1 _) as [body conn2| |] eqn:E2; [|by apply total_ret..].
  apply read_full_inv in E2 as [-> _]. rewrite length_app in Hf.
  do 2 (eapply total_bind; [apply total_any; intros w; auto with no_oof|intros ? _]).
  eapply total_bind; [by apply dispatch_total|]. intros [[s1 resp] ms] Hm1.
  apply IH; [lia|done].
Qed.
End termination.

(** C30.  The server loop ends on every input: whatever bytes the client sends
    and whatever the disk and the Raft node do, a connection is served in
    finitely many turns, and the fuel of the model is never used up. *)
Theorem connection_terminates {T} `{Buffer T} (s : StagwayServer T) conn w :
  mem_ok s → handleConnection s conn w ≠ OutOfFuel.
Proof. intros Hm. apply connection_loop_total; [lia|done]. Qed.

Lemma connection_terminates_witness :
  handleConnection server0 (str "POST / HTTP/1.1") world0 ≠ OutOfFuel.
Proof.
  apply (connection_terminates server0). intros m [= <-]. eexists. apply represents_default.
Defined.

(** ** Refused requests *)

(** What the client reads when a write is refused. *)
Definition refused (term : Z) : bytes := [x00] ++ be_put 4 (u32 (-1)) ++ be_put 4 (u32 term) ++ [x00].

Lemma sendWriteResponse_refused term e :
  sendWriteResponse (-1, term, false, Some e) = Ret (refused term).
Proof.
  unfold sendWriteResponse, refused. cbn [andb].
  set (z := λ n : nat, replicate n x00). cbn [bool_byte].
  rewrite (store_at _ [] x00 (z 4%nat ++ z 4%nat ++ [x00])) by done. rewrite go_bind_ret.
  rewrite (PutUint_at 4 _ [x00] (z 4%nat) (z 4%nat ++ [x00])) by done. rewrite go_bind_ret.
  rewrite (PutUint_at 4 _ ([x00] ++ be_put 4 (u32 (-1))) (z 4%nat) [x00])
    by (buf_eq || done || (unfold z; len_lia)). rewrite go_bind_ret.
  rewrite (store_at _ ([x00] ++ be_put 4 (u32 (-1)) ++ be_put 4 (u32 term)) x00 [])
    by (buf_eq || done || len_lia).
  by rewrite <-!app_assoc.
Qed.

Lemma read_refused term rest :
  read_write_response (refused term ++ rest) = Ret (inl (false, u32 (-1), u32 term, false)).
Proof.
  pose proof (u32_range (-1)). pose proof (u32_range term). unfold read_write_response, refused.
  set (i := be_put 4 (u32 (-1))). set (t := be_put 4 (u32 term)).
  rewrite read_full_app by (unfold i, t; len_lia).
  rewrite (index_at _ [] x00 (i ++ t ++ [x00])) by done. rewrite go_bind_ret.
  rewrite (Uint_at 4 _ [x00] i (t ++ [x00])) by (buf_eq || done || (unfold i, t; len_lia)). rewrite go_bind_ret.
  rewrite (Uint_at 4 _ ([x00] ++ i) t [x00]) by (buf_eq || done || (unfold i, t; len_lia)). rewrite go_bind_ret.
  rewrite (index_at _ ([x00] ++ i ++ t) x00 []) by (buf_eq || done || (unfold i, t; len_lia)). rewrite go_bind_ret.
  unfold i, t. by rewrite !be_get_put_small by (change (256 ^ Z.of_nat 4) with (2 ^ 32); lia).
Qed.

(** The term and the error with which a server refuses writes, if it does: a
    stopped server, or one whose node is not the leader. *)
Definition refusal {T} (s : StagwayServer T) : option (Z * error) :=
  if negb (ss_running s) then Some (-1, ErrServerClosed) else
  match ss_raft s with
  | Some r => if bool_decide (role r = Leader) then None else Some (currentTerm r, ErrNotLeader)
  | None => None
  end.

Lemma refusal_stopped {T} (s : StagwayServer T) : refusal (Stop s).1 = Some (-1, ErrServerClosed).
Proof.
  unfold Stop, refusal. destruct (ss_running s) eqn:E; cbn [negb fst]; [|by rewrite E].
  destruct (ss_listener s) as [l|]; [|done]. by destruct (close_listener l).
Qed.

Lemma refusal_follower {T} (s : StagwayServer T) r :
  ss_running s = true → ss_raft s = Some r → role r ≠ Leader → refusal s = Some (currentTerm r, ErrNotLeader).
Proof. intros Hrun Hraft Hrole. unfold refusal. rewrite Hrun, Hraft. by rewrite bool_decide_eq_false_2. Qed.

Lemma write_op_refused {T} `{Buffer T} (s : StagwayServer T) term e k v t w :
  refusal s = Some (term, e) → write_op s k v t w = Ret ((s, [], (-1, term, false, Some e)), w).
Proof.
  unfold refusal, write_op, submit_op, Submit. destruct (ss_running s); cbn [negb]; [|by intros [= <- <-]].
  destruct (ss_raft s) as [r|] eqn:Hraft; [|done]. destruct (bool_decide _); [done|]. intros [= <- <-].
  cbn. unfold bindM, liftM, retM. cbn. unfold set_raft. rewrite <-Hraft. by destruct s.
Qed.

Definition is_write (q : request) : Prop := match q with RGet _ => False | _ => True end.

Lemma dispatch_refused {T} `{Buffer T} (s : StagwayServer T) term e q w :
  refusal s = Some (term, e) → is_write q →
  dispatch s (parts q).1.1 (parts q).1.2 (parts q).2 w = Ret ((s, refused term, []), w).
Proof.
  intros Hr. destruct q as [k v|k|k]; [|done|]; intros _; unfold dispatch; cbn [parts fst snd];
    rewrite ?(bool_decide_eq_false_2 (OpTombstone = _)), bool_decide_eq_true_2 by done;
    unfold PutGeo, FocusTombstone; (erewrite bindM_ret by by apply write_op_refused); cbn beta iota;
    by erewrite bindM_ret by apply liftM_ret, sendWriteResponse_refused.
Qed.

(** C33.  A write that is refused leaves no trace and the client is told.  A
    stopped server refuses with the term -1, a running server whose node is not
    the leader with the node's term.  Then [PutGeo] and [FocusTombstone] return
    their error with index -1 and change neither the server, nor the Raft log, nor
    the disk; a connection that carries the frame of a put or a delete is answered
    with a failure, again without a change; and the client decodes that answer as
    a failure with this term, in the 32 bits of the frame, from a node that is not
    the leader, and prints that the command failed.  [Stop] makes any server
    refuse. *)
Theorem refused_write_changes_nothing {T} `{Buffer T} (s : StagwayServer T) term e q w :
  refusal s = Some (term, e) → is_write q → request_fits q →
  (∀ k v, PutGeo s k v w = Ret ((s, [], (-1, term, false, Some e)), w)
          ∧ FocusTombstone s k w = Ret ((s, [], (-1, term, false, Some e)), w))
  ∧ handleConnection s (wire q) w = Ret ((s, refused term, []), w)
  ∧ read_write_response (refused term) = Ret (inl (false, u32 (-1), u32 term, false))
  ∧ (∀ net addr, net_Dial net addr = None → conn_Write net (wire q) = None →
       conn_reply net (wire q) = refused term →
       execute net addr q = Ret (match q with RPut _ _ => PutFailed false | _ => DeleteFailed end))
  ∧ refusal (Stop s).1 = Some (-1, ErrServerClosed).
Proof.
  intros Hr Hq Hf. pose proof (read_refused term []) as Hrd. rewrite app_nil_r in Hrd. split_and!.
  - intros k v. split; by apply write_op_refused.
  - unfold handleConnection, wire. rewrite <-(app_nil_r (frame _ _ _)).
    rewrite connection_loop_frame by (done || by destruct q).
    erewrite bindM_ret by by eapply dispatch_refused. cbn beta iota. rewrite app_nil_r.
    destruct q; cbn [parts fst snd frame length app]; by rewrite connection_loop_end.
  - done.
  - intros net addr Hd Hw Hrep. destruct q as [k v|k|k]; [|done|]; unfold execute, executePut, executeDelete;
      (erewrite (exchange_ok net addr _ _ Hd Hw Hrep) by (by apply put_request_wire || by apply key_request_wire));
      by rewrite Hrd.
  - apply refusal_stopped.
Qed.

Definition follower0 : RaftNode := NewRaftNode 1 [] (Some []) (mkClock 0 0).

Lemma refused_write_changes_nothing_witness :
  handleConnection (set_raft server0 follower0) (wire (RDelete (str "k"))) world0
    = Ret ((set_raft server0 follower0, refused 0, []), world0)
  ∧ handleConnection (Stop server0).1 (wire (RPut (str "k") (str "v"))) world0
    = Ret (((Stop server0).1, refused (-1), []), world0).
Proof.
  split.
  - exact (proj1 (proj2 (refused_write_changes_nothing (set_raft server0 follower0) 0 ErrNotLeader
      (RDelete (str "k")) world0 eq_refl I eq_refl))).
  - exact (proj1 (proj2 (refused_write_changes_nothing (Stop server0).1 (-1) ErrServerClosed
      (RPut (str "k") (str "v")) world0 eq_refl I eq_refl))).
Defined.

(** ** Outside the contract *)

(** The disk of [w] whose next call fails. *)
Definition failing (w : world) : world := mkWorld (w_dirs w) [Fails 0].

Lemma Append_failing w wal rs k v t :
  wal_holds w wal rs → fits k v →
  ∃ wal' w' e, Append wal k v t (failing w) = Ret ((wal', (0, Some e)), w')
    ∧ lookup_file w' (wal_path (DirPath (wal_opts wal)))
        = Some (mkFile (encode_log rs) (length (encode_log rs))).
Proof.
  intros [_ Hat _ _] Hf. pose proof (wal_at_lookup _ _ _ _ Hat) as Hl.
  destruct Hat as [Hclosed Hopen Happ Hpath Hfile _ _ _].
  unfold Append. rewrite Hclosed.
  erewrite bindM_ret by by apply liftM_ret, EncodeRecord_record.
  destruct (Write (wal_file wal) (record k v t) (failing w)) as [[[[n [e|]] h] w1]| |] eqn:E;
    unfold Write in E; rewrite Hopen in E; unfold bindM, next_fault in E; cbn in E;
    rewrite (lookup_file_dirs w) in E by done; rewrite Hl in E; try done.
  erewrite bindM_ret.
  2:{ unfold Write. rewrite Hopen. unfold bindM, next_fault. cbn.
      rewrite (lookup_file_dirs w) by done. rewrite Hl. exact E. }
  cbn beta iota. do 3 eexists. split; [done|].
  injection E as _ _ _ <-. rewrite Hpath. eapply lookup_insert_file_eq.
  - rewrite (lookup_file_dirs w) by done. exact Hfile.
  - unfold write_at, write_pos. rewrite Happ. cbn [f_data f_synced].
    cbn [length]. by rewrite firstn_all, Nat.sub_diag, Nat.add_0_r, drop_all, app_nil_r, Nat.min_id.
Qed.

(** The server acknowledges writes it has not logged: when the disk fails
    the append, PutGeo ignores the error, answers success with an index, and
    serves the value from memory, while the WAL still ends before the write. *)
Theorem write_acknowledged_without_log {T} `{Buffer T} (s : StagwayServer T) w n wal k v :
  refines s w n → fits k v → ss_wal s = Some wal →
  ∃ s' ms w' idx term, PutGeo s k v (failing w) = Ret ((s', ms, (idx, term, true, None)), w')
    ∧ GetGeo s' k = Ret (v, false, true, None)
    ∧ lookup_file w' (wal_path (DirPath (wal_opts wal)))
        = Some (mkFile (encode_log (sp_log n)) (length (encode_log (sp_log n)))).
Proof.
  intros Hrf Hf Hwal.
  destruct (submit_op_sim s n k v false (rf_raft _ _ _ Hrf)) as (s1 & ms & idx & term & E1 & Hrun & Hm1 & Hw1 & _ & _).
  destruct Hrf as [Hr _ (m & Hm & Hrep) (wal' & Hwal' & _ & Hh)]. rewrite Hwal in Hwal'. injection Hwal' as <-.
  unfold PutGeo, write_op. rewrite Hr. cbn [negb].
  erewrite bindM_ret by by apply liftM_ret. cbn beta iota. cbn [negb].
  destruct (Append_failing w wal (sp_log n) k v false Hh Hf) as (wal2 & w2 & e & E2 & Hl).
  erewrite bindM_ret.
  2:{ unfold log_op. rewrite Hw1, Hwal. by erewrite bindM_ret by exact E2. }
  cbn beta iota.
  destruct (mem_op_sim (set_wal s1 wal2) m (sp_kv n) k v false) as (m' & E3 & Hrep'); [cbn; congruence|done|].
  erewrite bindM_ret by by apply liftM_ret. cbn beta iota.
  do 5 eexists. split; [done|]. split; [|done].
  unfold GetGeo. cbn. rewrite Hrun, Hr. cbn. rewrite (buf_get_ok m' _ k Hrep').
  unfold apply_op. cbn. by rewrite lookup_insert_eq.
Qed.

Lemma write_acknowledged_without_log_witness :
  ∃ s' ms w' idx term,
    PutGeo server0 (str "k") (str "v") (failing world0) = Ret ((s', ms, (idx, term, true, None)), w')
    ∧ GetGeo s' (str "k") = Ret (str "v", false, true, None)
    ∧ lookup_file w' (wal_path (str "data")) = Some (mkFile [] 0).
Proof.
  apply (write_acknowledged_without_log server0 world0 spec0 wal1);
    [apply server0_refines|done|done].
Defined.

(** A goroutine that runs alone executes the write as a whole. *)
Lemma writer_alone {T} `{Buffer T} (s : StagwayServer T) r w :
  run_schedule s [WStart r] [0; 0; 0]%nat w
    = (let! (s, _, res) := write_op s r.1.1 r.1.2 r.2 in retM (s, [WDone res])) w.
Proof.
  unfold write_op, bindM. cbn -[submit_op log_op mem_op]. unfold bindM, liftM, retM.
  destruct (negb (ss_running s)); [done|].
  destruct (submit_op s r.1.1 r.1.2 r.2) as [[[s1 ms] [[idx term] l]]| |]; [|done..].
  destruct l; [|done]. cbn -[submit_op log_op mem_op]. unfold bindM, liftM, retM.
  destruct (log_op s1 r.1.1 r.1.2 r.2 w) as [[s2 w2]| |]; [|done..].
  cbn -[submit_op log_op mem_op]. unfold bindM, liftM, retM.
  by destruct (mem_op s2 r.1.1 r.1.2 r.2).
Qed.

Section writers.
Context {T : Type} `{Buffer T} (s : StagwayServer T) (ts : list writer) (sched : list nat).
Context (i : nat) (r : kvt) (w : world).

Lemma run_submit s1 ms idx term :
  ts !! i = Some (WStart r) → ss_running s = true →
  submit_op s r.1.1 r.1.2 r.2 = Ret (s1, ms, (idx, term, true)) →
  run_schedule s ts (i :: sched) w = run_schedule s1 (<[i := WSubmitted r idx term]> ts) sched w.
Proof.
  intros Ht Hr E. cbn [run_schedule]. rewrite Ht. unfold writer_step. rewrite Hr. cbn [negb].
  unfold bindM, liftM, retM. by rewrite E.
Qed.

Lemma run_log idx term s1 w1 :
  ts !! i = Some (WSubmitted r idx term) → log_op s r.1.1 r.1.2 r.2 w = Ret (s1, w1) →
  run_schedule s ts (i :: sched) w = run_schedule s1 (<[i := WLogged r idx term]> ts) sched w1.
Proof.
  intros Ht E. cbn [run_schedule]. rewrite Ht. unfold writer_step, bindM, retM. by rewrite E.
Qed.

Lemma run_mem idx term s1 :
  ts !! i = Some (WLogged r idx term) → mem_op s r.1.1 r.1.2 r.2 = Ret s1 →
  run_schedule s ts (i :: sched) w
    = run_schedule s1 (<[i := WDone (idx, term, true, None)]> ts) sched w.
Proof.
  intros Ht E. cbn [run_schedule]. rewrite Ht. unfold writer_step, bindM, liftM, retM. by rewrite E.
Qed.
End writers.

(** C38.  Concurrent writes may be logged and applied in different orders: the
    server's lock is taken for reading only, so two puts to one key can both
    reach the WAL as first, second and the buffer as second, first.  Both are
    acknowledged, reads return the first value, and a replay of the WAL gives
    the second. *)
Theorem concurrent_writes_reorder {T} `{Buffer T} (s : StagwayServer T) w n k v1 v2 :
  refines s w n → fits k v1 → fits k v2 →
  ∃ s' w' wal i1 t1 i2 t2,
    run_schedule s [WStart (k, v1, false); WStart (k, v2, false)] [0; 1; 0; 1; 1; 0]%nat w
      = Ret ((s', [WDone (i1, t1, true, None); WDone (i2, t2, true, None)]), w')
    ∧ GetGeo s' k = Ret (v1, false, true, None)
    ∧ ss_wal s' = Some wal
    ∧ wal_holds w' wal (sp_log n ++ [(k, v1, false); (k, v2, false)])
    ∧ apply_ops ∅ (sp_log n ++ [(k, v1, false); (k, v2, false)]) !! k = Some (v2, false).
Proof.
  intros [Hr Hraft (m & Hm & Hrep) (wal & Hwal & _ & Hh)] Hf1 Hf2.
  destruct (submit_op_sim s n k v1 false Hraft) as (s1 & ms1 & i1 & t1 & E1 & Hr1 & Hm1 & Hw1 & _ & Hraft1).
  destruct (submit_op_sim s1 _ k v2 false Hraft1) as (s2 & ms2 & i2 & t2 & E2 & Hr2 & Hm2 & Hw2 & _ & _).
  destruct (log_op_sim s2 w wal (sp_log n) k v1 false) as (wal3 & w3 & E3 & Hh3 & _); [congruence|done..|].
  destruct (log_op_sim (set_wal s2 wal3) w3 wal3 _ k v2 false eq_refl Hh3 Hf2) as (wal4 & w4 & E4 & Hh4 & _).
  set (s4 := set_wal (set_wal s2 wal3) wal4) in *.
  destruct (mem_op_sim s4 m (sp_kv n) k v2 false) as (m5 & E5 & Hrep5); [cbn; congruence|done|].
  destruct (mem_op_sim (set_mem s4 m5) m5 _ k v1 false eq_refl Hrep5) as (m6 & E6 & Hrep6).
  rewrite <-app_assoc in Hh4.
  exists (set_mem (set_mem s4 m5) m6), w4, wal4, i1, t1, i2, t2. split_and!; [| |done|done|].
  - erewrite run_submit by (done || exact E1).
    erewrite run_submit by (done || exact E2 || congruence).
    erewrite run_log by (done || exact E3). erewrite run_log by (done || exact E4).
    erewrite run_mem by (done || exact E5). by erewrite run_mem by (done || exact E6).
  - unfold GetGeo. cbn. rewrite Hr2, Hr1, Hr. cbn. rewrite (buf_get_ok m6 _ k Hrep6).
    unfold apply_op. cbn. by rewrite lookup_insert_eq.
  - change [(k, v1, false); (k, v2, false)] with ([(k, v1, false)] ++ [(k, v2, false)]).
    rewrite app_assoc, apply_ops_snoc. apply lookup_insert_eq.
Qed.

Lemma concurrent_writes_reorder_witness :
  ∃ s' w' wal i1 t1 i2 t2,
    run_schedule server0 [WStart (str "k", str "a", false); WStart (str "k", str "b", false)]
      [0; 1; 0; 1; 1; 0]%nat world0
      = Ret ((s', [WDone (i1, t1, true, None); WDone (i2, t2, true, None)]), w')
    ∧ GetGeo s' (str "k") = Ret (str "a", false, true, None)
    ∧ ss_wal s' = Some wal
    ∧ wal_holds w' wal [(str "k", str "a", false); (str "k", str "b", false)]
    ∧ apply_ops ∅ [(str "k", str "a", false); (str "k", str "b", false)] !! str "k"
        = Some (str "b", false).
Proof.
  apply (concurrent_writes_reorder server0 world0 spec0); [apply server0_refines|done|done].
Defined.
