(* ===== verification/StagwayConc.v ===== *)
(** * Concurrent writes to the server

    PutGeo and FocusTombstone hold the server's lock for reading only, so the
    writes of several connections interleave between their three sections:
    submitting, logging, applying ([Stagway.writer_step]).  Whatever the schedule, what is logged and
    what is applied are the same writes, in orders that may differ; when no two
    of the writes are for the same key, the difference cannot be seen and the
    server has executed them one after the other. *)

From Stdlib Require Import Strings.Byte Strings.String.
From S2P Require Import Prelude GoBytes KV Crc32 Os Record Wal WalSpec MemTable MemTableSpec RaftNode RaftInv.
From S2P Require Import RaftLive Stagway Cli StagwaySpec StagwayClaims.

Local Open Scope Z_scope.

(** ** Writes to different keys commute *)

Lemma apply_op_comm M r r' : r.1.1 ≠ r'.1.1 → apply_op (apply_op M r) r' = apply_op (apply_op M r') r.
Proof. intros Hk. unfold apply_op. by apply insert_insert_ne. Qed.

Lemma apply_ops_perm M rs rs' : NoDup (fst ∘ fst <$> rs) → rs ≡ₚ rs' → apply_ops M rs = apply_ops M rs'.
Proof.
  intros Hnd Hp. revert M. induction Hp as [|r rs rs' Hp IH|r r' rs|rs1 rs2 rs3 Hp1 IH1 Hp2 IH2]; intros M; [done|..].
  - cbn in *. apply NoDup_cons in Hnd as [_ Hnd]. by apply IH.
  - cbn in *. apply NoDup_cons in Hnd as [Hr _]. rewrite apply_op_comm; [done|]. intros E. apply Hr. rewrite E. by left.
  - rewrite IH1, IH2; [done| |done]. by rewrite <-Hp1.
Qed.

(** ** How far the writers are *)

(** The goroutine of the write [r], and the sections it has run. *)
Inductive running_as (r : kvt) : nat → writer → Prop :=
| at_start : running_as r 0 (WStart r)
| at_submitted idx term : running_as r 1 (WSubmitted r idx term)
| at_logged idx term : running_as r 2 (WLogged r idx term)
| at_done idx term : running_as r 3 (WDone (idx, term, true, None)).

Definition section (t : writer) : nat :=
  match t with WStart _ => 0 | WSubmitted _ _ _ => 1 | WLogged _ _ _ => 2 | WDone _ => 3 end.

Lemma running_section r k t : running_as r k t → section t = k.
Proof. by destruct 1. Qed.

(** The writes whose goroutine has run at least [k] sections. *)
Definition passed (k : nat) (rs : list kvt) (ts : list writer) : list kvt :=
  (filter (λ p, k ≤ section p.2)%nat (zip rs ts)).*1.

Lemma passed_app k rs1 rs2 ts1 ts2 :
  length rs1 = length ts1 → passed k (rs1 ++ rs2) (ts1 ++ ts2) = passed k rs1 ts1 ++ passed k rs2 ts2.
Proof. intros Hl. unfold passed. by rewrite zip_with_app, filter_app, fmap_app. Qed.

Lemma passed_cons k r t rs ts :
  passed k (r :: rs) (t :: ts) = (if decide (k ≤ section t)%nat then [r] else []) ++ passed k rs ts.
Proof. unfold passed. cbn [zip zip_with]. rewrite filter_cons. cbn [snd]. by case_decide. Qed.

(** Running section [j] of goroutine [i] adds its write to those past it and
    changes nothing else. *)
Lemma passed_step rs ts i r t t' :
  length rs = length ts → rs !! i = Some r → ts !! i = Some t → section t' = S (section t) →
  passed (S (section t)) rs (<[i := t']> ts) ≡ₚ passed (S (section t)) rs ts ++ [r]
  ∧ ∀ k, k ≠ S (section t) → passed k rs (<[i := t']> ts) = passed k rs ts.
Proof.
  intros Hl Hr Ht Hs. destruct (list_elem_of_split_length _ _ _ Hr) as (r1 & r2 & -> & Hi).
  destruct (list_elem_of_split_length _ _ _ Ht) as (t1 & t2 & -> & Hi').
  assert (length r1 = length t1) as Hl1 by congruence.
  assert (<[i := t']> (t1 ++ t :: t2) = t1 ++ t' :: t2) as -> 
    by (rewrite Hi', <-(Nat.add_0_r (length t1)); exact (insert_app_r t1 (t :: t2) 0 t')).
  split; [|intros k Hk]; rewrite !passed_app, !passed_cons, Hs by done.
  - rewrite decide_True, decide_False by lia. cbn. solve_Permutation.
  - do 2 f_equal. repeat case_decide; done || lia.
Qed.

(** ** The invariant of a schedule *)

(** The abstract node after writes. *)
Definition writes (n : node_spec) (rs : list kvt) : node_spec := foldl (λ n r, (spec_write n r).1) n rs.

Lemma writes_snoc n rs r : writes n (rs ++ [r]) = (spec_write (writes n rs) r).1.
Proof. unfold writes. by rewrite foldl_app. Qed.

Lemma writes_log n rs : sp_log (writes n rs) = sp_log n ++ rs ∧ sp_dir (writes n rs) = sp_dir n.
Proof.
  induction rs as [|r rs [IH1 IH2]] using rev_ind; [by rewrite app_nil_r|].
  by rewrite writes_snoc, spec_write_log, spec_write_dir, IH1, IH2, app_assoc.
Qed.

(** The state of Raft depends on the number of writes only. *)
Lemma writes_raft n rs rs' : length rs = length rs' → sp_raft (writes n rs) = sp_raft (writes n rs').
Proof.
  revert rs'. induction rs as [|r rs IH] using rev_ind; intros rs' Hl.
  { by destruct rs'. }
  destruct rs' as [|r' rs' _] using rev_ind; [rewrite length_app in Hl; cbn in Hl; lia|].
  rewrite !length_app in Hl. cbn in Hl. specialize (IH rs' ltac:(lia)). rewrite !writes_snoc.
  unfold spec_write. rewrite IH. by destruct (sp_raft (writes n rs')) as [[]|].
Qed.

Section schedule.
Context {T : Type} `{Buffer T} (n : node_spec) (rs : list kvt) (Hfits : Forall fits_of rs).

(** What the goroutines have done together, in the order of each section. *)
Record conc (s : StagwayServer T) (w : world) (ts : list writer) (submitted logged applied : list kvt) : Prop := {
  cc_running : ss_running s = true;
  cc_raft : raft_sim (ss_raft s) (sp_raft (writes n submitted));
  cc_mem : ∃ m, ss_memTable s = Some m ∧ buf_rep m (apply_ops (sp_kv n) applied);
  cc_wal : ∃ wal, ss_wal s = Some wal ∧ DirPath (wal_opts wal) = sp_dir n ∧ wal_holds w wal (sp_log n ++ logged);
  cc_threads : Forall2 (λ r t, running_as r (section t) t) rs ts;
  cc_submitted : submitted ≡ₚ passed 1 rs ts;
  cc_logged : logged ≡ₚ passed 2 rs ts;
  cc_applied : applied ≡ₚ passed 3 rs ts }.

Lemma conc_thread s w ts sub log app i t :
  conc s w ts sub log app → ts !! i = Some t → ∃ r, rs !! i = Some r ∧ running_as r (section t) t ∧ fits_of r.
Proof using Hfits.
  intros Hc Ht. destruct (Forall2_lookup_r _ _ _ _ _ (cc_threads _ _ _ _ _ _ Hc) Ht) as (r & Hr & Hrun).
  exists r. split_and!; [done|done|]. by eapply Forall_lookup_1.
Qed.

(** The bookkeeping of one section. *)
Lemma conc_passed s w ts sub log app i r t t' :
  conc s w ts sub log app → rs !! i = Some r → ts !! i = Some t → section t' = S (section t) →
  running_as r (section t') t' →
  Forall2 (λ r t, running_as r (section t) t) rs (<[i := t']> ts)
  ∧ passed (S (section t)) rs (<[i := t']> ts) ≡ₚ passed (S (section t)) rs ts ++ [r]
  ∧ ∀ k, k ≠ S (section t) → passed k rs (<[i := t']> ts) = passed k rs ts.
Proof.
  intros Hc Hr Ht Hs Hrun. pose proof (cc_threads _ _ _ _ _ _ Hc) as Hth. split.
  - rewrite <-(list_insert_id rs i r Hr). by apply Forall2_insert.
  - by apply passed_step; [eapply Forall2_length|..].
Qed.

(** One section of one goroutine. *)
Lemma conc_step s w ts sub log app i t :
  conc s w ts sub log app → ts !! i = Some t → section t ≠ 3%nat →
  ∃ s' w' t' sub' log' app',
    (∀ sched, run_schedule s ts (i :: sched) w = run_schedule s' (<[i := t']> ts) sched w')
    ∧ section t' = S (section t) ∧ conc s' w' (<[i := t']> ts) sub' log' app'.
Proof using Hfits.
  intros Hc Ht Hs. destruct (conc_thread _ _ _ _ _ _ _ _ Hc Ht) as (r & Hr & Hrun & Hfit).
  pose proof Hc as [Hrg Hraft (m & Hm & Hrep) (wal & Hwal & Hdir & Hh) Hth Hsub Hlog Happ].
  destruct Hrun as [|idx term|idx term|idx term]; [| | |done].
  - destruct (submit_op_sim s (writes n sub) r.1.1 r.1.2 r.2 Hraft) as (s1 & ms & idx & term & E & H1 & H2 & H3 & _ & H4).
    destruct (conc_passed _ _ _ _ _ _ _ _ _ (WSubmitted r idx term) Hc Hr Ht eq_refl (at_submitted _ _ _)) as (Hth' & Hp & Hq).
    exists s1, w, (WSubmitted r idx term), (sub ++ [r]), log, app. split_and!; [|done|].
    { intros sched. by eapply run_submit. }
    cbn [section] in Hp, Hq. split; rewrite ?H1, ?H2, ?H3, ?writes_snoc; eauto.
    + by destruct r as [[]].
    + by rewrite Hp, Hsub.
    + by rewrite Hq.
    + by rewrite Hq.
  - destruct (log_op_sim s w wal _ r.1.1 r.1.2 r.2 Hwal Hh) as (wal' & w' & E & Hh' & Ho); [by destruct r as [[]]|].
    destruct (conc_passed _ _ _ _ _ _ _ _ _ (WLogged r idx term) Hc Hr Ht eq_refl (at_logged _ _ _)) as (Hth' & Hp & Hq).
    exists (set_wal s wal'), w', (WLogged r idx term), sub, (log ++ [r]), app. split_and!; [|done|].
    { intros sched. by eapply run_log. }
    cbn [section] in Hp, Hq. split; cbn; eauto.
    + exists wal'. rewrite Ho, app_assoc. by destruct r as [[]].
    + by rewrite Hq.
    + by rewrite Hp, Hlog.
    + by rewrite Hq.
  - destruct (mem_op_sim s m _ r.1.1 r.1.2 r.2 Hm Hrep) as (m' & E & Hrep').
    destruct (conc_passed _ _ _ _ _ _ _ _ _ (WDone (idx, term, true, None)) Hc Hr Ht eq_refl (at_done _ _ _)) as (Hth' & Hp & Hq).
    exists (set_mem s m'), w, (WDone (idx, term, true, None)), sub, log, (app ++ [r]). split_and!; [|done|].
    { intros sched. by eapply run_mem. }
    cbn [section] in Hp, Hq. split; cbn; eauto.
    + exists m'. rewrite apply_ops_snoc. by destruct r as [[]].
    + by rewrite Hq.
    + by rewrite Hq.
    + by rewrite Hp, Happ.
Qed.

(** Any schedule runs, and a goroutine that is scheduled three times is done. *)
Lemma conc_run sched s w ts sub log app :
  conc s w ts sub log app →
  ∃ s' w' ts' sub' log' app',
    run_schedule s ts sched w = Ret ((s', ts'), w') ∧ conc s' w' ts' sub' log' app'
    ∧ ∀ i t, ts !! i = Some t →
        ∃ t', ts' !! i = Some t' ∧ (3 `min` (section t + count_occ Nat.eq_dec sched i) ≤ section t')%nat.
Proof using Hfits.
  revert s w ts sub log app. induction sched as [|i sched IH]; intros s w ts sub log app Hc.
  { do 6 eexists. split; [done|]. split; [done|]. intros i t Ht. exists t. split; [done|]. cbn [count_occ]. lia. }
  assert ((∀ t, ts !! i = Some t → section t = 3%nat) ∨ ∃ t, ts !! i = Some t ∧ section t ≠ 3%nat) as [Hskip|(t & Ht & Hs)].
  { destruct (ts !! i) as [t|]; [|by left]. destruct (decide (section t = 3%nat)); [left; by intros ? [= <-]|right; eauto]. }
  - destruct (IH s w ts sub log app Hc) as (s' & w' & ts' & sub' & log' & app' & E & Hc' & Hall).
    exists s', w', ts', sub', log', app'. split_and!; [|done|].
    + cbn [run_schedule]. destruct (ts !! i) as [t|] eqn:Ht; [|done]. specialize (Hskip t eq_refl).
      destruct t; try done. unfold writer_step, bindM, retM. by rewrite list_insert_id.
    + intros j t Ht. destruct (Hall j t Ht) as (t' & Ht' & Hle). exists t'. split; [done|].
      cbn [count_occ]. destruct (Nat.eq_dec i j) as [->|]; [|done]. pose proof (Hskip t Ht). lia.
  - destruct (conc_step _ _ _ _ _ _ _ _ Hc Ht Hs) as (s1 & w1 & t1 & sub1 & log1 & app1 & E1 & Hs1 & Hc1).
    destruct (IH _ _ _ _ _ _ Hc1) as (s' & w' & ts' & sub' & log' & app' & E & Hc' & Hall).
    exists s', w', ts', sub', log', app'. split_and!; [by rewrite E1|done|].
    intros j t2 Ht2. cbn [count_occ]. destruct (Nat.eq_dec i j) as [->|Hne].
    + rewrite Ht in Ht2. injection Ht2 as <-. destruct (Hall j t1) as (t' & Ht' & Hle).
      { apply list_lookup_insert_eq. by eapply lookup_lt_Some. }
      exists t'. split; [done|]. lia.
    + apply Hall. by rewrite list_lookup_insert_ne.
Qed.
End schedule.

Lemma passed_all k rs ts :
  length rs = length ts → (∀ i t, ts !! i = Some t → (k ≤ section t)%nat) → passed k rs ts = rs.
Proof.
  intros Hl. revert ts Hl. induction rs as [|r rs IH]; intros [|t ts] Hl Hk; [done..|].
  rewrite passed_cons, decide_True by (by apply (Hk 0%nat)). cbn. f_equal. apply IH; [by injection Hl|].
  intros i t' Ht'. by apply (Hk (S i)).
Qed.

Lemma passed_start k rs : (0 < k)%nat → passed k rs (WStart <$> rs) = [].
Proof.
  intros Hk. induction rs as [|r rs IH]; [done|]. rewrite fmap_cons, passed_cons, decide_False by (cbn; lia). exact IH.
Qed.

Lemma conc_start {T} `{Buffer T} (s : StagwayServer T) w n rs :
  refines s w n → conc n rs s w (WStart <$> rs) [] [] [].
Proof.
  intros [Hr Hraft Hm Hw]. split; rewrite ?passed_start, ?app_nil_r by lia; try done.
  apply Forall2_fmap_r, Forall_Forall2_diag, Forall_true. constructor.
Qed.

(** C29.  Concurrent writes to different keys are serializable: however the
    sections of any number of concurrent puts and deletes are scheduled, as long
    as each goroutine gets its three turns, all of them are acknowledged, and the
    server with its disk represents the abstract node that has executed the
    writes one after the other in some order, log, store and Raft index
    included. *)
Theorem concurrent_writes_serializable {T} `{Buffer T} (s : StagwayServer T) w n rs sched :
  refines s w n → Forall fits_of rs → NoDup (fst ∘ fst <$> rs) →
  (∀ i, (i < length rs)%nat → (3 ≤ count_occ Nat.eq_dec sched i)%nat) →
  ∃ s' w' ts' order, run_schedule s (WStart <$> rs) sched w = Ret ((s', ts'), w')
    ∧ Forall (λ t, ∃ idx term, t = WDone (idx, term, true, None)) ts'
    ∧ order ≡ₚ rs ∧ refines s' w' (writes n order).
Proof.
  intros Hrf Hfits Hnd Hsched.
  destruct (conc_run n rs Hfits sched _ _ _ _ _ _ (conc_start s w n rs Hrf))
    as (s' & w' & ts' & sub & log & app & E & [Hr Hraft (m & Hm & Hrep) (wal & Hwal & Hdir & Hh) Hth Hsub Hlog Happ] & Hall).
  pose proof (Forall2_length _ _ _ Hth) as Hl.
  assert (∀ i t, ts' !! i = Some t → section t = 3%nat) as Hdone.
  { intros i t Ht. assert (i < length rs)%nat as Hi by (rewrite Hl; by eapply lookup_lt_Some).
    destruct (lookup_lt_is_Some_2 rs i Hi) as [r Hri]. destruct (Hall i (WStart r)) as (t' & Ht' & Hle).
    { by rewrite list_lookup_fmap, Hri. }
    rewrite Ht in Ht'. injection Ht' as <-. specialize (Hsched i Hi).
    assert (section t ≤ 3)%nat by (destruct t; cbn; lia). lia. }
  rewrite passed_all in Hsub, Hlog, Happ by (done || (intros i t Ht; rewrite (Hdone i t Ht); lia)).
  exists s', w', ts', log. split_and!; [done| |done|].
  - apply Forall_lookup. intros i t Ht. destruct (Forall2_lookup_r _ _ _ _ _ Hth Ht) as (r & _ & Hrun).
    rewrite (Hdone i t Ht) in Hrun. inversion Hrun. eauto.
  - destruct (writes_log n log) as [Elog Edir]. split; [done| | |].
    + rewrite (writes_raft n log sub); [done|]. by rewrite Hlog, Hsub.
    + exists m. split; [done|]. unfold sp_kv. rewrite Elog. unfold apply_ops. rewrite foldl_app.
      fold (apply_ops ∅ (sp_log n)). change (foldl apply_op (apply_ops ∅ (sp_log n)) log) with (apply_ops (sp_kv n) log).
      rewrite (apply_ops_perm _ log app); [done| |by rewrite Hlog, Happ]. by rewrite Hlog.
    + exists wal. rewrite Elog, Edir. done.
Qed.

Lemma concurrent_writes_serializable_witness :
  ∃ s' w' ts' order,
    run_schedule server0 (WStart <$> [(str "a", str "1", false); (str "b", [], true)]) [0; 1; 0; 1; 1; 0]%nat world0
      = Ret ((s', ts'), w')
    ∧ Forall (λ t, ∃ idx term, t = WDone (idx, term, true, None)) ts'
    ∧ order ≡ₚ [(str "a", str "1", false); (str "b", [], true)] ∧ refines s' w' (writes spec0 order).
Proof.
  apply (concurrent_writes_serializable server0 world0 spec0 [(str "a", str "1", false); (str "b", [], true)]
    [0; 1; 0; 1; 1; 0]%nat).
  - exact server0_refines.
  - repeat constructor.
  - repeat constructor; set_solver.
  - intros [|[|i]] Hi; cbn in *; lia.
Defined.
