(* ===== verification/Daemon.v ===== *)
(** * The daemon (cmd/hallownestd/main.go)

    Booting a node from its data directory, the goroutine that applies
    committed commands to the MemTable, and the shutdown; the HTTP gateway is in
    Gateway.  The MemTable, the WAL and the Raft node are shared by pointer
    between [main], the apply goroutine, the HTTP handlers and the Stagway
    server; the server's record holds the one copy of their states. *)

From Stdlib Require Import Strings.Byte Strings.String.
From S2P Require Import Prelude GoBytes Flag KV Crc32 Os Record Wal MemTable MemTableSpec RaftNode Stagway.

Local Open Scope Z_scope.

Abbreviation node_server := (StagwayServer MemTable).

(** How [main] ends before the server runs, with what the replay reported if it
    came that far, or the running node. *)
Inductive boot_result :=
| BadFlags (e : parse_error)
| Fatal (e : error) (replayed : option (Z + error))
| Booted (s : node_server) (replayed : Z + error).

(** The callback given to ReplayWAL. *)
Definition replay_fn (key value : bytes) (tombstone : bool) (m : MemTable) : go MemTable :=
  if tombstone then let* (m, _) := Delete m key in Ret m
  else let* (m, _) := Put m key value in Ret m.

(** main up to the start of the servers.  [rnd] are the draws of the
    MemTable's generator and [c] the clock at NewRaftNode. *)
Definition boot (nodeID : Z) (dataDir : bytes) (addr : string) (rnd : list float32) (c : clock)
    (listen : string → unit + error) : IO boot_result :=
  let! e := MkdirAll dataDir in
  match e with
  | Some err => retM (Fatal (Wrapf "Failed creating data directory" err) None)
  | None =>
      let! r := OpenWAL (DefaultWALOptions dataDir) in
      match r with
      | inr err => retM (Fatal (Wrapf "Failed opening Write-Ahead Log" err) None)
      | inl wal =>
          let! memTable := liftM (NewMemTable DefaultMemTableOptions rnd) in
          let! (memTable, replayed, err) := ReplayWAL replay_fn dataDir memTable in
          let raftNode := NewRaftNode nodeID [] (Some []) c in
          let s := NewStagwayServer (DefaultStagwayServerOptions addr nodeID)
                     (Some raftNode) (Some memTable) (Some wal) in
          let report := match err with Some e => inr e | None => inl replayed end in
          let '(s, e) := Start listen s in
          match e with
          | Some err => retM (Fatal (Wrapf "Failed starting Stagway network server" err) (Some report))
          | None => retM (Booted s report)
          end
      end
  end.

(** The flags, and main from os.Args on. *)
Definition daemon_flags : flags :=
  {[ "port"%string := IntValue 50051; "http-port"%string := IntValue 8080;
     "node-id"%string := IntValue 1; "data-dir"%string := StringValue "./data/node1" ]}.

Definition grpcAddr (port : Z) : string := ("127.0.0.1:" ++ Sprintf_d port)%string.

Definition daemon_main (args : list string) (rnd : list float32) (c : clock)
    (listen : string → unit + error) : IO boot_result :=
  match Parse daemon_flags (tail args) with
  | inr e => retM (BadFlags e)
  | inl (fs, _) =>
      boot (int_flag fs "node-id") (str (string_flag fs "data-dir"))
        (grpcAddr (int_flag fs "port")) rnd c listen
  end.

(** A tick of the election loop of the daemon's Raft node. *)
Definition election_turn (s : node_server) (c : clock) : go (node_server * list rpc) :=
  match ss_raft s with
  | Some r => let* (r, ms) := election_tick r c in Ret (set_raft s r, ms)
  | None => Ret (s, [])
  end.

(** One turn of the goroutine that ranges over [applyCh]. *)
Definition apply_msg (m : MemTable) (msg : ApplyMsg) : go MemTable :=
  if CommandValid msg then
    if am_Tombstone msg then let* (m, _) := Delete m (am_Key msg) in Ret m
    else let* (m, _) := Put m (am_Key msg) (am_Value msg) in Ret m
  else Ret m.

Fixpoint apply_msgs (m : MemTable) (msgs : list ApplyMsg) : go MemTable :=
  match msgs with
  | [] => Ret m
  | msg :: msgs => let* m := apply_msg m msg in apply_msgs m msgs
  end.

(** The shutdown: the deferred calls run in reverse order. *)
Definition shutdown (s : node_server) : IO node_server :=
  let '(s, _) := Stop s in
  let s := match ss_raft s with Some r => set_raft s (Kill r) | None => s end in
  match ss_wal s with
  | Some wal => let! (wal, _) := Close wal in retM (set_wal s wal)
  | None => retM s
  end.

(** ** What is printed *)

Definition banner (nodeID : Z) (dataDir : string) : bytes :=
  println "=================================================================="
  ++ println "               HALLOWNEST-KV STORAGE ENGINE DAEMON                "
  ++ println "    Distributed Hybrid Go/C++ LSM-Tree & Raft Consensus System    "
  ++ println "=================================================================="
  ++ println ("[Init] Node ID: " ++ Sprintf_d nodeID ++ " | Data Dir: " ++ dataDir).

(** The report of the replay; an error goes to the log, on the standard error. *)
Definition replay_line (replayed : Z + error) : bytes :=
  match replayed with
  | inl n => println ("[Recovery] Successfully replayed " ++ Sprintf_d n ++ " transactions from WAL into MemTable")
  | inr _ => []
  end.

Definition transport_line (addr : string) : bytes :=
  println ("[Stagway Transport] gRPC Engine listening on tcp://" ++ addr).

(** The goroutine of the HTTP server, before it serves. *)
Definition gateway_lines (httpPort : Z) : bytes :=
  let p := Sprintf_d httpPort in
  println ("[HTTP Gateway & Web Console] REST API & Dashboard listening on http://localhost:" ++ p)
  ++ println ("   ├── Web Console: http://localhost:" ++ p ++ "/")
  ++ println ("   ├── GET         http://localhost:" ++ p ++ "/status")
  ++ println ("   ├── GET         http://localhost:" ++ p ++ "/get?key=...")
  ++ quoted ("   ├── POST        http://localhost:" ++ p ++ "/put (JSON body: {`key`:`...`,`value`:`...`})") ++ [x0a]
  ++ println ("   └── DELETE      http://localhost:" ++ p ++ "/delete?key=...") ++ [x0a].

Definition shutdown_line : bytes := [x0a] ++ println "[Shutdown] HallownestKV daemon shut down.".

(** The standard output of a daemon that has come as far as [r], its HTTP
    goroutine included. *)
Definition daemon_stdout (args : list string) (r : boot_result) : bytes :=
  match Parse daemon_flags (tail args) with
  | inr _ => []
  | inl (fs, _) =>
      banner (int_flag fs "node-id") (string_flag fs "data-dir")
      ++ match r with
         | BadFlags _ => []
         | Fatal _ replayed => default [] (replay_line <$> replayed)
         | Booted _ replayed =>
             replay_line replayed ++ transport_line (grpcAddr (int_flag fs "port"))
             ++ gateway_lines (int_flag fs "http-port")
         end
  end.

(** The status it exits with, if it does: [log.Fatalf] exits with 1. *)
Definition daemon_exit (r : boot_result) : option Z :=
  match r with
  | BadFlags e => Some (parse_exit e)
  | Fatal _ _ => Some 1
  | Booted _ _ => None
  end.
