(* ===== verification/DaemonSpec.v ===== *)
(** * The node as a whole: boot, serve, crash, boot again

    [disk_log w dir rs] says that the data directory of the disk [w] holds the
    log [rs] and nothing else the daemon would replay.  Booting on such a disk
    gives a node whose MemTable is the replay of [rs]; serving requests and
    crashing leaves a disk that holds [rs] followed by the accepted writes. *)

From Stdlib Require Import Strings.Byte Strings.String.
From S2P Require Import Prelude GoBytes Flag KV Crc32 Os Record Wal WalSpec MemTable MemTableSpec.
From S2P Require Import RaftNode RaftInv RaftLive RaftClaims Stagway Cli StagwaySpec StagwayClaims Daemon.

Local Open Scope Z_scope.

(** The data directory before a boot: no log, which counts as the empty one, or
    the segment with the log. *)
Record disk_log (w : world) (dir : bytes) (rs : list kvt) : Prop := {
  dl_faults : w_faults w = [];
  dl_seg : only_segment (default ∅ (w_dirs w !! dir));
  dl_file : match default ∅ (w_dirs w !! dir) !! str "bench_0.wal" with
            | None => rs = []
            | Some e => e = DFile (mkFile (encode_log rs) (length (encode_log rs)))
            end;
  dl_fits : Forall fits_of rs }.

(** A node just booted: not the leader yet. *)
Record booted (s : node_server) (w : world) (dir : bytes) (id : Z) (c : clock) (rs : list kvt) : Prop := {
  bo_running : ss_running s = true;
  bo_raft : ss_raft s = Some (NewRaftNode id [] (Some []) c);
  bo_mem : ∃ m, ss_memTable s = Some m ∧ represents m (apply_ops ∅ rs);
  bo_wal : ∃ wal, ss_wal s = Some wal ∧ DirPath (wal_opts wal) = dir ∧ wal_holds w wal rs }.

(** ** Boot *)

Lemma replay_fn_apply k v t m : replay_fn k v t m = buf_apply k v t m.
Proof. by destruct t. Qed.

Lemma replay_all_ok rs m M :
  represents m M → ∃ m', apply_all replay_fn rs m = Ret m' ∧ represents m' (apply_ops M rs).
Proof.
  revert m M. induction rs as [|[[k v] t] rs IH]; intros m M Hm; [by exists m|].
  cbn [apply_all fst snd]. rewrite replay_fn_apply.
  destruct (buf_apply_ok (H:=memtable_buffer) k v t m M Hm) as (m1 & -> & Hm1). by apply IH.
Qed.

(** OpenWAL on the directory, whether it has a log or not. *)
Lemma OpenWAL_disk w dir rs :
  disk_log w dir rs →
  ∃ wal w', OpenWAL (DefaultWALOptions dir) (made w dir) = Ret (inl wal, w')
    ∧ wal_holds w' wal rs ∧ wal_opts wal = DefaultWALOptions dir
    ∧ (default ∅ (w_dirs w !! dir) !! str "bench_0.wal" ≠ None → w' = w).
Proof.
  intros [Hw Hseg Hf Hfit]. pose proof (made_dir w dir) as Hd. pose proof (made_faults w dir) as Hmf.
  rewrite Hw in Hmf. set (d := default ∅ (w_dirs w !! dir)) in *.
  destruct (d !! str "bench_0.wal") as [e|] eqn:E.
  - assert (made w dir = w) as Hmade.
    { unfold d in E. destruct (w_dirs w !! dir) as [d'|] eqn:E'; [by eapply made_exists|done]. }
    rewrite Hmade in *. subst e.
    destruct (OpenWAL_existing w (DefaultWALOptions dir) (mkFile (encode_log rs) (length (encode_log rs))))
      as (wal & Ho & Hat & Hopts); [done| |done|].
    { unfold lookup_file, wal_path. cbn [fst snd DirPath DefaultWALOptions]. rewrite Hd.
      cbn [mbind option_bind]. by rewrite E. }
    exists wal, w. split_and!; [done| |done|done]. split; [by rewrite Hopts|done| |done].
    rewrite Hopts. eauto.
  - subst rs. destruct (OpenWAL_fresh (made w dir) (DefaultWALOptions dir)) as (wal & w' & Ho & Hat & Hopts & Hd').
    { done. } { cbn [DirPath DefaultWALOptions]. by rewrite Hd. }
    exists wal, w'. split_and!; [done| |done|done]. split; [by rewrite Hopts|done| |done].
    rewrite Hopts. eexists. split; [exact Hd'|]. apply only_segment_insert.
    cbn [DirPath DefaultWALOptions]. by rewrite Hd.
Qed.

Lemma boot_ok w dir rs id addr rnd c listen :
  disk_log w dir rs → (∀ a, listen a = inl tt) →
  ∃ s w', boot id dir addr rnd c listen w = Ret (Booted s (inl (Z.of_nat (length rs))), w')
    ∧ booted s w' dir id c rs
    ∧ (default ∅ (w_dirs w !! dir) !! str "bench_0.wal" ≠ None → w' = w).
Proof.
  intros Hdl Hlisten. destruct (OpenWAL_disk w dir rs Hdl) as (wal & w1 & Ho & Hh & Hopts & Hw).
  unfold boot. erewrite bindM_ret by (apply MkdirAll_ok, Hdl). cbn beta iota.
  erewrite bindM_ret by exact Ho. cbn beta iota zeta.
  erewrite bindM_ret by by apply liftM_ret, NewMemTable_default.
  destruct (replay_all_ok rs _ _ (represents_default rnd)) as (m & Em & Hm).
  pose proof Hh as [Hs Hat (d & Hd & Hseg) Hfit]. rewrite Hopts in Hd. cbn [DirPath DefaultWALOptions] in Hd.
  destruct (lookup_file_dir _ _ _ (at_file _ _ _ _ Hat)) as (d' & Hd' & Hf).
  rewrite Hopts in Hd'. cbn [fst snd wal_path DirPath DefaultWALOptions] in Hd', Hf. rewrite Hd in Hd'. injection Hd' as <-.
  erewrite bindM_ret.
  2:{ eapply (ReplayWAL_ok replay_fn w1 dir d _ rs []); try done; [apply Hat|by rewrite app_nil_r|apply incomplete_nil]. }
  cbn beta iota. unfold Start. rewrite Hlisten. cbn.
  do 2 eexists. split; [done|]. split; [|done].
  split; cbn; [done..|by exists m|]. exists wal. by rewrite Hopts.
Qed.

(** ** Election of a single node *)

Lemma election_single id c0 c1 :
  c_now c0 + randomElectionDuration c0 < c_now c1 →
  ∃ r, election_tick (NewRaftNode id [] (Some []) c0) c1 = Ret (r, [])
    ∧ raft_sim (Some r) (Some (1, 1)).
Proof.
  intros Hc. unfold election_tick.
  set (r0 := NewRaftNode id [] (Some []) c0).
  assert ((electionDeadline r0 <? c_now c1) = true) as -> by by apply Z.ltb_lt.
  assert (startElection r0 = Ret (set_votes (set_indices (set_role (set_vote (set_role r0 Candidate) 1 id)
            Leader) ∅ ∅) (<[1 := 1]> ∅), [])) as -> by reflexivity.
  eexists. split; [reflexivity|]. by repeat split.
Qed.

Lemma election_turn_ok s w dir id c0 c1 rs :
  booted s w dir id c0 rs → c_now c0 + randomElectionDuration c0 < c_now c1 →
  ∃ s', election_turn s c1 = Ret (s', []) ∧ refines s' w (mkSpec dir rs (Some (1, 1))).
Proof.
  intros [Hr Hraft Hm Hw] Hc. unfold election_turn. rewrite Hraft.
  destruct (election_single id c0 c1 Hc) as (r & -> & Hsim). cbn [bind_go].
  eexists. split; [done|]. by split.
Qed.

(** ** Crash *)

Lemma spec_run_log qs n : sp_log (spec_run n qs).1 = sp_log n ++ mjoin (write_of <$> qs).
Proof.
  revert n. induction qs as [|q qs IH]; intros n; cbn [spec_run].
  { cbn. by rewrite app_nil_r. }
  assert (sp_log (spec_step n q).1 = sp_log n ++ write_of q) as Hq.
  { destruct q; cbn [spec_step write_of]; rewrite ?spec_write_log; [done|by rewrite app_nil_r|done]. }
  destruct (spec_step n q) as [n1 r1]. specialize (IH n1).
  destruct (spec_run n1 qs) as [n2 rs2]. cbn [fst] in *.
  rewrite IH, Hq, <-app_assoc. done.
Qed.

Lemma spec_run_dir qs n : sp_dir (spec_run n qs).1 = sp_dir n.
Proof.
  revert n. induction qs as [|q qs IH]; intros n; cbn [spec_run]; [done|].
  assert (sp_dir (spec_step n q).1 = sp_dir n) as Hq
    by (destruct q; cbn [spec_step]; by rewrite ?spec_write_dir).
  destruct (spec_step n q) as [n1 r1]. specialize (IH n1).
  destruct (spec_run n1 qs) as [n2 rs2]. cbn [fst] in *. congruence.
Qed.

Lemma crash_only_segment w w' dir d :
  crash w w' → w_dirs w !! dir = Some d → only_segment d →
  ∃ d', w_dirs w' !! dir = Some d' ∧ only_segment d'.
Proof.
  intros [Hc _] Hd Hseg. specialize (Hc dir). rewrite Hd in Hc.
  destruct (w_dirs w' !! dir) as [d'|]; [|done]. exists d'. split; [done|].
  intros n e He Hext Hdir. specialize (Hc n). cbn in Hc. rewrite He in Hc.
  destruct (d !! n) as [e0|] eqn:E0; [|done]. eapply Hseg; [exact E0|done|].
  cbn in Hc. by destruct e0, e.
Qed.

(** A crash keeps the whole of a synced log. *)
Lemma crash_disk_log w w' wal rs dir :
  wal_holds w wal rs → DirPath (wal_opts wal) = dir → crash w w' →
  disk_log w' dir rs ∧ default ∅ (w_dirs w' !! dir) !! str "bench_0.wal" ≠ None.
Proof.
  intros [Hs Hat (d & Hd & Hseg) Hfit] Hdir Hc. rewrite Hdir in *.
  destruct (crash_only_segment _ _ _ _ Hc Hd Hseg) as (d' & Hd' & Hseg').
  pose proof (crash_lookup_synced w w' _ _ Hc (at_file _ _ _ _ Hat) eq_refl) as Hf'.
  destruct (lookup_file_dir _ _ _ Hf') as (d2 & Hd2 & Hf2). rewrite Hdir in Hd2.
  cbn [fst snd wal_path] in Hd2, Hf2. rewrite Hd' in Hd2. injection Hd2 as <-.
  rewrite Hd'. cbn [default from_option id]. rewrite Hf2. split; [|done].
  split; rewrite ?Hd'; cbn [default from_option id]; [by eapply crash_faults|done| |done].
  by rewrite Hf2.
Qed.

(** What a boot after a crash recovers. *)
Lemma boot_after_crash w w' wal rs dir id addr rnd c listen :
  wal_holds w wal rs → DirPath (wal_opts wal) = dir → crash w w' → (∀ a, listen a = inl tt) →
  ∃ s, boot id dir addr rnd c listen w' = Ret (Booted s (inl (Z.of_nat (length rs))), w')
    ∧ ∀ k, GetGeo s k = Ret (lookup_answer (apply_ops ∅ rs !! k), None).
Proof.
  intros Hh Hdir Hcr Hlisten. destruct (crash_disk_log w w' wal rs dir Hh Hdir Hcr) as [Hdl Hfile].
  destruct (boot_ok w' dir rs id addr rnd c listen Hdl Hlisten) as (s & w2 & E & Hb & Hw).
  rewrite (Hw Hfile) in *. exists s. split; [done|]. intros k.
  destruct Hb as [Hr _ (m & Hm & Hrep) _]. unfold GetGeo. rewrite Hr, Hm. cbn [negb buf_get memtable_buffer].
  rewrite (represents_get m _ k Hrep). cbn. by destruct (lookup_answer _) as [[]].
Qed.

(** C1.  Acknowledged writes survive: a daemon booted on a disk that holds the
    log [rs] wins its election, answers any sequence of well-sized requests as
    the abstract node does, and after a crash at the end of the connection a
    second boot recovers: the disk holds [rs] followed by the accepted writes,
    the replay reports their number, and every key reads as the last of these
    writes left it, deletions included.  The final state is again one the
    theorem applies to, so it covers any number of crashes. *)
Theorem acknowledged_writes_survive w dir rs id addr rnd c0 c1 listen qs tail :
  disk_log w dir rs → (∀ a, listen a = inl tt) →
  c_now c0 + randomElectionDuration c0 < c_now c1 →
  Forall request_fits qs → len tail < 9 →
  let log := rs ++ mjoin (write_of <$> qs) in
  ∃ s0 w0 s1 s2 ms w2,
    boot id dir addr rnd c0 listen w = Ret (Booted s0 (inl (Z.of_nat (length rs))), w0)
    ∧ election_turn s0 c1 = Ret (s1, [])
    ∧ handleConnection s1 (wire_all qs ++ tail) w0
        = Ret ((s2, wire_responses (spec_run (mkSpec dir rs (Some (1, 1))) qs).2, ms), w2)
    ∧ ∀ w3 rnd' c2, crash w2 w3 →
        disk_log w3 dir log
        ∧ ∃ s3, boot id dir addr rnd' c2 listen w3
                  = Ret (Booted s3 (inl (Z.of_nat (length log))), w3)
            ∧ ∀ k, GetGeo s3 k = Ret (lookup_answer (apply_ops ∅ log !! k), None).
Proof.
  intros Hdl Hlisten Hc Hfit Ht log.
  destruct (boot_ok w dir rs id addr rnd c0 listen Hdl Hlisten) as (s0 & w0 & E0 & Hb & _).
  destruct (election_turn_ok _ _ _ _ _ _ _ Hb Hc) as (s1 & E1 & Hrf1).
  destruct (handleConnection_sim qs s1 w0 _ tail Hrf1 Hfit Ht) as (s2 & ms & w2 & E2 & Hrf2).
  exists s0, w0, s1, s2, ms, w2. split_and!; [done..|]. intros w3 rnd' c2 Hcr.
  destruct Hrf2 as [_ _ _ (wal2 & Hwal2 & Hdir2 & Hh2)]. rewrite spec_run_log in Hh2.
  rewrite spec_run_dir in Hdir2.
  split; [by apply (crash_disk_log w2 w3 wal2 log dir Hh2 Hdir2 Hcr)|].
  exact (boot_after_crash w2 w3 wal2 log dir id addr rnd' c2 listen Hh2 Hdir2 Hcr Hlisten).
Qed.

Lemma disk0_log : disk_log disk0 (str "data") [].
Proof.
  assert (default ∅ (w_dirs disk0 !! str "data") = ∅) as E by reflexivity.
  split; rewrite ?E; [done| |done|constructor]. intros n e He. by rewrite lookup_empty in He.
Qed.

Lemma acknowledged_writes_survive_witness :
  ∃ s0 w0 s1 s2 ms w2,
    boot 1 (str "data") "" [] (mkClock 0 0) (λ _, inl tt) disk0 = Ret (Booted s0 (inl 0), w0)
    ∧ election_turn s0 late = Ret (s1, [])
    ∧ handleConnection s1 (wire_all session0 ++ [x02]) w0
        = Ret ((s2, wire_responses [Written 1 1; Answer (str "500", false, true); Written 2 1;
                                    Answer ([], false, false)], ms), w2)
    ∧ ∀ w3 rnd' c2, crash w2 w3 →
        disk_log w3 (str "data") [(str "geo", str "500", false); (str "geo", [], true)]
        ∧ ∃ s3, boot 1 (str "data") "" rnd' c2 (λ _, inl tt) w3 = Ret (Booted s3 (inl 2), w3)
            ∧ ∀ k, GetGeo s3 k = Ret (lookup_answer
                (apply_ops ∅ [(str "geo", str "500", false); (str "geo", [], true)] !! k), None).
Proof.
  apply (acknowledged_writes_survive disk0 (str "data") [] 1 "" [] (mkClock 0 0) late
           (λ _, inl tt) session0 [x02]);
    [apply disk0_log|done|vm_compute; reflexivity|repeat constructor|done].
Defined.

(** ** The command line *)

(** A number a Go [int] can hold. *)
Definition int64 (n : Z) : bool := (- 2 ^ 63 <=? n) && (n <? 2 ^ 63).

Lemma Parse_int sp name n formal old rest :
  flag_name name = true → formal !! name = Some (IntValue old) →
  Parse formal (spell sp name (Sprintf_d n) ++ rest) =
    (if int64 n then Parse (<[name := IntValue n]> formal) rest else inr (InvalidValue (Sprintf_d n) name)).
Proof.
  intros Hn Hold.
  assert (set_value (IntValue old) (Sprintf_d n) = if int64 n then Some (IntValue n) else None) as Hset.
  { cbn. rewrite ParseInt_Sprintf_d. unfold int64. by destruct (_ && _). }
  destruct (int64 n).
  - apply Parse_spell; [done|]. unfold assign. cbn [fst snd]. rewrite Hold. cbn [mbind option_bind]. by rewrite Hset.
  - by eapply Parse_spell_invalid.
Qed.

Lemma Parse_string sp name v formal old rest :
  flag_name name = true → formal !! name = Some (StringValue old) →
  Parse formal (spell sp name v ++ rest) = Parse (<[name := StringValue v]> formal) rest.
Proof. intros Hn Hold. apply Parse_spell; [done|]. unfold assign. cbn [fst snd]. by rewrite Hold. Qed.

(** The command line of a daemon, however its flags are spelled. *)
Definition daemon_args (sp1 sp2 sp3 sp4 : spelling) (prog : string) (port httpPort id : Z) (dir : string)
    : list string :=
  prog :: spell sp1 "port" (Sprintf_d port) ++ spell sp2 "http-port" (Sprintf_d httpPort)
    ++ spell sp3 "node-id" (Sprintf_d id) ++ spell sp4 "data-dir" dir.

Lemma Parse_daemon_args sp1 sp2 sp3 sp4 prog port httpPort id dir :
  Parse daemon_flags (tail (daemon_args sp1 sp2 sp3 sp4 prog port httpPort id dir)) =
    (if int64 port then
       if int64 httpPort then
         if int64 id then
           inl (<["data-dir"%string := StringValue dir]> (<["node-id"%string := IntValue id]>
                 (<["http-port"%string := IntValue httpPort]> (<["port"%string := IntValue port]> daemon_flags))), [])
         else inr (InvalidValue (Sprintf_d id) "node-id")
       else inr (InvalidValue (Sprintf_d httpPort) "http-port")
     else inr (InvalidValue (Sprintf_d port) "port")).
Proof.
  unfold daemon_args. cbn [tail]. rewrite <-(app_nil_r (spell sp4 _ _)).
  erewrite Parse_int by done. destruct (int64 port); [|done].
  erewrite Parse_int; [|done|by rewrite lookup_insert_ne]. destruct (int64 httpPort); [|done].
  erewrite Parse_int; [|done|by rewrite !lookup_insert_ne]. destruct (int64 id); [|done].
  erewrite Parse_string; [done|done|by rewrite !lookup_insert_ne].
Qed.

(** The daemon's command line round trips: however the flags are spelled,
    printed numbers that fit an [int] and any directory name come back as the
    node id, the ports and the directory that the node is booted with; a number
    that does not fit is refused, with exit status 2, before anything is touched
    or printed; and without flags the daemon listens on the address that the
    client dials by default. *)
Theorem daemon_command_line sp1 sp2 sp3 sp4 prog port httpPort id dir rnd c listen w :
  let args := daemon_args sp1 sp2 sp3 sp4 prog port httpPort id dir in
  (if int64 port && int64 httpPort && int64 id then
     daemon_main args rnd c listen w = boot id (str dir) (grpcAddr port) rnd c listen w
   else ∃ e, daemon_main args rnd c listen w = Ret (BadFlags e, w)
     ∧ daemon_exit (BadFlags e) = Some 2 ∧ daemon_stdout args (BadFlags e) = [])
  ∧ daemon_main [prog] rnd c listen w
      = boot 1 (str "./data/node1") (string_flag put_flags "addr") rnd c listen w.
Proof.
  cbv zeta. unfold daemon_main, daemon_stdout. rewrite !Parse_daemon_args. split; [|done].
  destruct (int64 port); cbn [andb]; [|by eexists]. destruct (int64 httpPort); cbn [andb]; [|by eexists].
  destruct (int64 id); cbn [andb]; [|by eexists]. unfold int_flag, string_flag. by simplify_map_eq.
Qed.

(** The daemon says what it does: booted on a directory that holds a log, it
    prints its node id and directory, the number of records it has replayed,
    which are all of the log, and the addresses it listens on. *)
Theorem daemon_announces sp1 sp2 sp3 sp4 prog port httpPort id dir rs rnd c listen w :
  int64 port = true → int64 httpPort = true → int64 id = true →
  disk_log w (str dir) rs → (∀ a, listen a = inl tt) →
  let args := daemon_args sp1 sp2 sp3 sp4 prog port httpPort id dir in
  ∃ s w', daemon_main args rnd c listen w = Ret (Booted s (inl (Z.of_nat (length rs))), w')
    ∧ daemon_exit (Booted s (inl (Z.of_nat (length rs)))) = None
    ∧ daemon_stdout args (Booted s (inl (Z.of_nat (length rs)))) =
        banner id dir ++ replay_line (inl (Z.of_nat (length rs))) ++ transport_line (grpcAddr port)
        ++ gateway_lines httpPort.
Proof.
  intros Hp Hh Hi Hdl Hlisten. cbv zeta.
  destruct (boot_ok w (str dir) rs id (grpcAddr port) rnd c listen Hdl Hlisten) as (s & w' & E & _).
  exists s, w'. unfold daemon_main, daemon_stdout. rewrite Parse_daemon_args, Hp, Hh, Hi.
  unfold int_flag, string_flag. simplify_map_eq. done.
Qed.

Lemma daemon_announces_witness :
  ∃ s w', daemon_main (daemon_args DashDash Dash DashEq DashDashEq "hallownestd" 7000 9000 3 "data") []
      (mkClock 0 0) (λ _, inl tt) disk0 = Ret (Booted s (inl 0), w')
    ∧ daemon_exit (Booted s (inl 0)) = None
    ∧ daemon_stdout (daemon_args DashDash Dash DashEq DashDashEq "hallownestd" 7000 9000 3 "data") (Booted s (inl 0))
      = banner 3 "data" ++ replay_line (inl 0) ++ transport_line "127.0.0.1:7000" ++ gateway_lines 9000.
Proof.
  exact (daemon_announces DashDash Dash DashEq DashDashEq "hallownestd" 7000 9000 3 "data" [] [] (mkClock 0 0)
    (λ _, inl tt) disk0 eq_refl eq_refl eq_refl disk0_log (λ _, eq_refl)).
Defined.
