(* ===== verification/Lifecycle.v ===== *)
(** * The end of a server's life

    The accept loop of a started server, its clients and a call of [Stop], as
    steps that interleave: the loop takes the server's lock for moments only, so
    [Stop] may come between its first look at [running], its [Accept], and what it
    does with the answer, a second look or the start of a handler.  Then the shutdown of the whole daemon.

    [Accept] answers with a connection only while the listener is open; on a
    closed listener it answers with an error, which it may also do on an open
    one.  A server is started once, as the daemon does. *)

From Stdlib Require Import Strings.Byte Strings.String.
From S2P Require Import Prelude GoBytes KV Os Record Wal WalSpec MemTable MemTableSpec RaftNode RaftInv RaftLive.
From S2P Require Import RaftClaims Stagway Cli StagwaySpec StagwayClaims Daemon DaemonSpec.

Local Open Scope Z_scope.

(** ** The steps *)

(** Where the loop is: at the first lock, in [Accept] with the server as the
    first lock has shown it, with the connection that [Accept] returned and no
    handler yet, at the second lock, or ended. *)
Inductive loop_at :=
| LCheck
| LAccept (seen : node_server)
| LGot (seen : node_server) (conn : bytes)
| LFailed (seen : node_server) (e : error)
| LDone.

Record system := mkSystem {
  sy_server : node_server;
  sy_world : world;
  sy_loop : loop_at;
  sy_conns : list bytes }.      (* the connections handed to handlers *)

Definition set_loop (y : system) (l : loop_at) : system :=
  mkSystem (sy_server y) (sy_world y) l (sy_conns y).

Definition accepting (s : node_server) : bool :=
  match ss_listener s with Some l => l_open l | None => false end.

(** What the outcome of a turn means for the loop. *)
Definition after_turn (y : system) (t : accept_turn) : system :=
  match t with
  | AcceptReturn => set_loop y LDone
  | AcceptContinue => set_loop y LCheck
  | AcceptServe conn => mkSystem (sy_server y) (sy_world y) LCheck (sy_conns y ++ [conn])
  end.

(** The steps of the loop; a turn ends as [acceptLoop_turn] says. *)
Inductive loop_step (y : system) : system → Prop :=
| ls_stopped :
    sy_loop y = LCheck → ss_running (sy_server y) = false →
    loop_step y (after_turn y (acceptLoop_turn (sy_server y) (inr ErrClosed) (sy_server y)))
| ls_enter :
    sy_loop y = LCheck → ss_running (sy_server y) = true →
    loop_step y (set_loop y (LAccept (sy_server y)))
| ls_conn s conn :
    sy_loop y = LAccept s → accepting (sy_server y) = true →
    loop_step y (set_loop y (LGot s conn))
| ls_serve s conn :
    sy_loop y = LGot s conn →
    loop_step y (after_turn y (acceptLoop_turn s (inl conn) (sy_server y)))
| ls_error s e :
    sy_loop y = LAccept s → loop_step y (set_loop y (LFailed s e))
| ls_again s e :
    sy_loop y = LFailed s e →
    loop_step y (after_turn y (acceptLoop_turn s (inr e) (sy_server y))).

(** The loop, a write of a client, or [Stop]. *)
Inductive life_step (y : system) : system → Prop :=
| life_loop y' : loop_step y y' → life_step y y'
| life_write k v t s' ms r w' :
    write_op (sy_server y) k v t (sy_world y) = Ret ((s', ms, r), w') →
    life_step y (mkSystem s' w' (sy_loop y) (sy_conns y))
| life_stop :
    life_step y (mkSystem (Stop (sy_server y)).1 (sy_world y) (sy_loop y) (sy_conns y)).

(** A server that [Start] has just made run. *)
Definition started (opts : StagwayServerOptions) (raft : option RaftNode) (m : option MemTable) (wal : option WAL)
    (w : world) : system :=
  mkSystem (Start (λ _, inl tt) (NewStagwayServer opts raft m wal)).1 w LCheck [].

(** ** The invariant *)

(** [running] says whether the listener is open, and a loop that is past its
    first lock has seen the server run. *)
Definition life_ok (y : system) : Prop :=
  accepting (sy_server y) = ss_running (sy_server y)
  ∧ match sy_loop y with LAccept s | LGot s _ | LFailed s _ => ss_running s = true | _ => True end.

Lemma write_op_keeps (s : node_server) k v t w s' ms r w' :
  write_op s k v t w = Ret ((s', ms, r), w') →
  ss_running s' = ss_running s ∧ ss_listener s' = ss_listener s ∧ (ss_running s = false → s' = s ∧ w' = w).
Proof.
  unfold write_op. destruct (ss_running s) eqn:Er; cbn [negb]; [|by intros [= <- <- <- <-]].
  unfold bindM, liftM. destruct (submit_op s k v t) as [[[s1 ms1] [[idx term] isLeader]]| |] eqn:E1; try done.
  assert (ss_running s1 = true ∧ ss_listener s1 = ss_listener s) as [R1 L1].
  { unfold submit_op in E1. destruct (ss_raft s); go_inv; [|done]. destruct x as [[]]. by go_inv. }
  destruct isLeader; cbn [negb]; [|intros [= <- <- <- <-]; by rewrite R1].
  destruct (log_op s1 k v t w) as [[s2 w2]| |] eqn:E2; try done.
  assert (ss_running s2 = true ∧ ss_listener s2 = ss_listener s) as [R2 L2].
  { unfold log_op, bindM in E2. destruct (ss_wal s1); [|by injection E2 as <- _].
    destruct (Append _ _ _ _ _) as [[[]]| |]; try done. by injection E2 as <- _. }
  destruct (mem_op s2 k v t) as [s3| |] eqn:E3; try done. intros [= <- <- <- <-].
  unfold mem_op in E3. destruct (ss_memTable s2); go_inv; by rewrite ?R2.
Qed.

Lemma life_ok_started opts raft m wal w : life_ok (started opts raft m wal w).
Proof. by split. Qed.

Lemma loop_step_server y y' : loop_step y y' → sy_server y' = sy_server y ∧ sy_world y' = sy_world y.
Proof. destruct 1; cbn; try done; by destruct (acceptLoop_turn _ _ _). Qed.

Lemma loop_step_ok y y' : life_ok y → loop_step y y' → life_ok y'.
Proof.
  intros [Ha Hl] Hst. destruct (loop_step_server y y' Hst) as [Es _]. split; [by rewrite Es|].
  destruct Hst as [E R|E R|s conn E A|s conn E|s e E|s e E]; try rewrite E in Hl; cbn; try done;
    by destruct (acceptLoop_turn _ _ _).
Qed.

Lemma life_step_ok y y' : life_ok y → life_step y y' → life_ok y'.
Proof.
  intros Hok. destruct 1 as [y' Hst|k v t s' ms r w' E|]; [by eapply loop_step_ok|..]; destruct Hok as [Ha Hl]; split; cbn.
  - apply write_op_keeps in E as (R & L & _). unfold accepting in *. by rewrite L, R.
  - done.
  - unfold Stop, accepting in *. destruct (ss_running (sy_server y)) eqn:R; cbn [negb fst]; [|by rewrite R].
    destruct (ss_listener (sy_server y)) as [l|]; [|done]. unfold close_listener. by rewrite Ha.
  - done.
Qed.

(** ** After Stop *)

(** The most steps the loop of a stopped server can still make. *)
Definition steps_left (l : loop_at) : nat :=
  match l with LDone => 0 | LCheck | LFailed _ _ => 1 | LAccept _ | LGot _ _ => 2 end.

(** The connection that the loop has accepted and not yet handed to a handler. *)
Definition taken (l : loop_at) : list bytes :=
  match l with LGot _ conn => [conn] | _ => [] end.

Lemma stopped_loop_step y y' :
  life_ok y → ss_running (sy_server y) = false → loop_step y y' →
  sy_conns y' ++ taken (sy_loop y') = sy_conns y ++ taken (sy_loop y)
  ∧ (steps_left (sy_loop y') < steps_left (sy_loop y))%nat.
Proof.
  intros [Ha Hl] R. destruct 1 as [E _|E R'|s conn E A|s conn E|s e E|s e E]; rewrite E in *; try congruence.
  - unfold acceptLoop_turn. rewrite R. cbn. split; [done|lia].
  - unfold acceptLoop_turn. rewrite Hl. cbn. rewrite app_nil_r. split; [done|lia].
  - cbn. split; [done|lia].
  - unfold acceptLoop_turn. rewrite Hl, R. cbn. split; [done|lia].
Qed.

Lemma stopped_step y y' :
  life_ok y → ss_running (sy_server y) = false → life_step y y' →
  sy_server y' = sy_server y ∧ sy_world y' = sy_world y
  ∧ sy_conns y' ++ taken (sy_loop y') = sy_conns y ++ taken (sy_loop y)
  ∧ (steps_left (sy_loop y') ≤ steps_left (sy_loop y))%nat.
Proof.
  intros Hok R. destruct 1 as [y' Hst|k v t s' ms r w' E|]; cbn.
  - destruct (loop_step_server y y' Hst). destruct (stopped_loop_step y y' Hok R Hst). split_and!; [done..|lia].
  - apply write_op_keeps in E as (_ & _ & E). destruct (E R) as [-> ->]. done.
  - unfold Stop. by rewrite R.
Qed.

Lemma stopped_runs y y' :
  life_ok y → ss_running (sy_server y) = false → rtc life_step y y' →
  life_ok y' ∧ sy_server y' = sy_server y ∧ sy_world y' = sy_world y
  ∧ sy_conns y' ++ taken (sy_loop y') = sy_conns y ++ taken (sy_loop y).
Proof.
  intros Hok R Hst. induction Hst as [y|y y1 y' Hst _ IH]; [done|].
  destruct (stopped_step y y1 Hok R Hst) as (Es & Ew & Ec & _). rewrite <-Es in R.
  destruct (IH (life_step_ok _ _ Hok Hst) R) as (? & ? & ? & ?). split_and!; [done|congruence..].
Qed.

(** The loop of a stopped server is never stuck before its end. *)
Lemma stopped_progress y :
  life_ok y → ss_running (sy_server y) = false → sy_loop y = LDone ∨ ∃ y', loop_step y y'.
Proof.
  intros Hok R. destruct (sy_loop y) as [|s|s conn|s e|] eqn:E; [right|right|right|right|by left].
  - eexists. by apply ls_stopped.
  - eexists. by apply (ls_error y s ErrClosed).
  - eexists. by eapply ls_serve.
  - eexists. by eapply ls_again.
Qed.

(** C37.  Stop ends the service: once a server has been stopped, at whatever
    point of the accept loop's turn, nothing that happens afterwards changes the
    server or the disk, and no new connection is taken: the only one that can still
    be handed to a handler is the one [Accept] had returned before, if the loop was
    there.  Every operation of a client, on that connection or an older one, is
    refused with "server is closed".  And the accept loop ends: it always has a step
    to make until it has returned, and at most two. *)
Theorem stop_ends_service opts raft m wal w y y' :
  rtc life_step (started opts raft m wal w) y → ss_running (sy_server y) = false → rtc life_step y y' →
  sy_conns y' ++ taken (sy_loop y') = sy_conns y ++ taken (sy_loop y)
  ∧ sy_server y' = sy_server y ∧ sy_world y' = sy_world y
  ∧ (∀ k v t, write_op (sy_server y') k v t (sy_world y')
       = Ret ((sy_server y', [], (-1, -1, false, Some ErrServerClosed)), sy_world y'))
  ∧ (∀ k, GetGeo (sy_server y') k = Ret ([], false, false, Some ErrServerClosed))
  ∧ (sy_loop y' = LDone ∨ ∃ y'', loop_step y' y'')
  ∧ (∀ y'', loop_step y' y'' → (steps_left (sy_loop y'') < steps_left (sy_loop y') ≤ 2)%nat).
Proof.
  intros H0 R Hst.
  assert (life_ok y) as Hok.
  { clear R Hst. revert H0. generalize (life_ok_started opts raft m wal w). generalize (started opts raft m wal w).
    intros y0 Hok0 H0. induction H0 as [y0|y0 y1 y Hst _ IH]; [done|]. by eapply IH, life_step_ok. }
  destruct (stopped_runs y y' Hok R Hst) as (Hok' & Es & Ew & Ec).
  assert (ss_running (sy_server y') = false) as R' by (by rewrite Es). split_and!; try done.
  - intros k v t. unfold write_op. by rewrite R'.
  - intros k. unfold GetGeo. by rewrite R'.
  - by apply stopped_progress.
  - intros y'' Hl. destruct (stopped_loop_step y' y'' Hok' R' Hl). split; [done|].
    destruct (sy_loop y'); cbn; lia.
Qed.

(** The server is stopped when the loop has just accepted a connection. *)
Definition server_up : node_server := sy_server (started (DefaultStagwayServerOptions "" 1) None None None world0).
Definition system0 : system :=
  mkSystem (Stop server_up).1 world0 (LGot server_up (str "late")) [].
Definition system1 : system := mkSystem (Stop server_up).1 world0 LCheck [str "late"].

Lemma stop_ends_service_witness :
  sy_conns system1 ++ taken (sy_loop system1) = [str "late"]
  ∧ (∃ y'', loop_step system1 y'')
  ∧ GetGeo (sy_server system1) (str "k") = Ret ([], false, false, Some ErrServerClosed).
Proof.
  set (y0 := started (DefaultStagwayServerOptions "" 1) None None None world0).
  assert (rtc life_step y0 system0) as Hst.
  { eapply rtc_l; [apply life_loop, ls_enter; reflexivity|].
    eapply rtc_l; [apply life_loop; eapply (ls_conn _ server_up (str "late")); reflexivity|].
    apply rtc_once. apply life_stop. }
  assert (rtc life_step system0 system1) as Hst'.
  { apply rtc_once. apply life_loop. apply (ls_serve system0 server_up (str "late")). reflexivity. }
  destruct (stop_ends_service (DefaultStagwayServerOptions "" 1) None None None world0 system0 system1 Hst
    eq_refl Hst') as (Hc & _ & _ & _ & Hg & [Hd|Hs] & _).
  - discriminate Hd.
  - split; [exact Hc|]. split; [exact Hs|]. apply Hg.
Defined.

(** ** Shutting the daemon down *)

Lemma insert_file_id w p f : lookup_file w p = Some f → insert_file w p f = w.
Proof.
  intros Hl. destruct (lookup_file_dir _ _ _ Hl) as (d & Hd & Hf). destruct w as [dirs faults]. unfold insert_file.
  cbn in *. f_equal. apply map_eq. intros q. rewrite lookup_alter. case_decide; [|done]. subst q. rewrite Hd. cbn.
  f_equal. by apply insert_id.
Qed.

(** Closing a log whose records are all synced. *)
Lemma Close_holds w wal rs :
  wal_holds w wal rs → ∃ wal', Close wal w = Ret ((wal', None), w)
    ∧ ∀ k v t w', Append wal' k v t w' = Ret ((wal', (0, Some ErrWALClosed)), w').
Proof.
  intros [_ Hat _ _]. pose proof (wal_at_lookup _ _ _ _ Hat) as Hf. destruct Hat.
  unfold Close. rewrite at_closed. cbn [wal_file wal_opts wal_size].
  erewrite bindM_ret by by apply Fsync_ok. cbn beta iota. cbn [f_data]. rewrite insert_file_id by done.
  erewrite bindM_ret by by eapply CloseFile_ok. eexists. split; [reflexivity|done].
Qed.

Lemma Stop_stops (s : node_server) :
  ss_running (Stop s).1 = false ∧ (ss_running s = true → accepting (Stop s).1 = false)
  ∧ ss_raft (Stop s).1 = ss_raft s ∧ ss_memTable (Stop s).1 = ss_memTable s ∧ ss_wal (Stop s).1 = ss_wal s.
Proof.
  unfold Stop. destruct (ss_running s) eqn:R; cbn [negb fst]; [|by split_and!].
  destruct (ss_listener s) as [l|]; [|by split_and!]. unfold close_listener, accepting.
  destruct (l_open l) eqn:El; cbn; split_and!; done.
Qed.

(** C12.  A clean shutdown: the deferred calls of a daemon that serves an abstract
    node return, without a panic, and leave the disk as it is (their errors are
    discarded, as by the deferred calls); the listener is closed, client
    operations, appends, elections and heartbeats have no effect any more; and
    whatever happens to the machine then, a boot replays all the writes of the
    node and answers every key as it did. *)
Theorem clean_shutdown (s : node_server) w n :
  refines s w n →
  ∃ s' wal', shutdown s w = Ret (s', w) ∧ ss_wal s' = Some wal' ∧ accepting s' = false
    ∧ (∀ k v t w', write_op s' k v t w' = Ret ((s', [], (-1, -1, false, Some ErrServerClosed)), w')
         ∧ Append wal' k v t w' = Ret ((wal', (0, Some ErrWALClosed)), w'))
    ∧ (∀ r c, ss_raft s' = Some r → election_tick r c = Ret (r, []) ∧ heartbeat_tick r = Ret (r, []))
    ∧ ∀ w' id addr rnd c listen, crash w w' → (∀ a, listen a = inl tt) →
        ∃ s2, boot id (sp_dir n) addr rnd c listen w'
                = Ret (Booted s2 (inl (Z.of_nat (length (sp_log n)))), w')
          ∧ ∀ k, GetGeo s2 k = Ret (lookup_answer (sp_kv n !! k), None).
Proof.
  intros [Hrun _ _ (wal & Hwal & Hdir & Hh)]. destruct (Close_holds w wal (sp_log n) Hh) as (wal' & Ec & Hap).
  destruct (Stop_stops s) as (Rs & As & Er & _ & Ew). unfold shutdown. destruct (Stop s) as [s1 e1]. cbn [fst] in *.
  set (s2 := match ss_raft s1 with Some r => set_raft s1 (Kill r) | None => s1 end).
  assert (ss_running s2 = false ∧ ss_listener s2 = ss_listener s1 ∧ ss_wal s2 = Some wal) as (R2 & L2 & W2).
  { unfold s2. destruct (ss_raft s1); cbn; by rewrite Ew. }
  assert (∀ r, ss_raft s2 = Some r → killed r = true) as K2.
  { unfold s2. destruct (ss_raft s1) eqn:E; cbn; [by intros ? [= <-]|]. rewrite E. done. }
  clearbody s2. rewrite W2. exists (set_wal s2 wal'), wal'. split_and!.
  - by erewrite bindM_ret by exact Ec.
  - done.
  - unfold accepting in *. cbn. rewrite L2. by apply As.
  - intros k v t w'. split; [|apply Hap]. unfold write_op. cbn. by rewrite R2.
  - intros r c Hr. specialize (K2 r Hr). unfold election_tick, heartbeat_tick. by rewrite K2.
  - intros w' id addr rnd c listen Hcr Hl.
    exact (boot_after_crash w w' wal (sp_log n) (sp_dir n) id addr rnd c listen Hh Hdir Hcr Hl).
Qed.

Lemma clean_shutdown_witness :
  ∃ s' wal', shutdown server0 world0 = Ret (s', world0) ∧ ss_wal s' = Some wal' ∧ accepting s' = false
    ∧ ∀ w' id addr rnd c listen, crash world0 w' → (∀ a, listen a = inl tt) →
        ∃ s2, boot id (str "data") addr rnd c listen w' = Ret (Booted s2 (inl 0), w')
          ∧ ∀ k, GetGeo s2 k = Ret ([], false, false, None).
Proof.
  destruct (clean_shutdown server0 world0 spec0 server0_refines) as (s' & wal' & E & Hw & Ha & _ & _ & Hb).
  exists s', wal'. split; [exact E|]. split; [exact Hw|]. split; [exact Ha|]. intros w' id addr rnd c listen Hc Hl.
  destruct (Hb w' id addr rnd c listen Hc Hl) as (s2 & E2 & Hg). exists s2. split; [exact E2|]. intros k.
  rewrite Hg. unfold sp_kv, spec0. cbn. rewrite lookup_empty. reflexivity.
Defined.
