(* ===== verification/Utf8.v ===== *)
(** * UTF-8 (package unicode/utf8)

    A byte string as a sequence of runes: [chunks] is what repeated
    [utf8.DecodeRune] makes of it, an encoded rune or a byte that does not
    belong to one.  [to_valid] replaces the latter by U+FFFD. *)

From Stdlib Require Import Strings.Byte.
From S2P Require Import Prelude GoBytes.

Local Open Scope Z_scope.

Definition in_range (lo hi : Z) (b : byte) : bool := (lo <=? byte_val b) && (byte_val b <=? hi).

Definition is_ascii (b : byte) : bool := byte_val b <? 128.

(** The encodings of two, three and four bytes: no overlong forms, no
    surrogates, nothing above U+10FFFF. *)
Definition cont : byte → bool := in_range 128 191.
Definition rune2 (b0 b1 : byte) : bool := in_range 194 223 b0 && cont b1.
Definition rune3 (b0 b1 b2 : byte) : bool :=
  cont b2 &&
  ((in_range 224 224 b0 && in_range 160 191 b1) || (in_range 225 236 b0 && cont b1)
   || (in_range 237 237 b0 && in_range 128 159 b1) || (in_range 238 239 b0 && cont b1)).
Definition rune4 (b0 b1 b2 b3 : byte) : bool :=
  cont b2 && cont b3 &&
  ((in_range 240 240 b0 && in_range 144 191 b1) || (in_range 241 243 b0 && cont b1)
   || (in_range 244 244 b0 && in_range 128 143 b1)).

Inductive chunk := Good (g : bytes) | Bad.

Fixpoint chunks (s : bytes) : list chunk :=
  match s with
  | [] => []
  | b0 :: s0 =>
      if is_ascii b0 then Good [b0] :: chunks s0 else
      match s0 with
      | [] => Bad :: chunks s0
      | b1 :: s1 =>
          if rune2 b0 b1 then Good [b0; b1] :: chunks s1 else
          match s1 with
          | [] => Bad :: chunks s0
          | b2 :: s2 =>
              if rune3 b0 b1 b2 then Good [b0; b1; b2] :: chunks s2 else
              match s2 with
              | [] => Bad :: chunks s0
              | b3 :: s3 =>
                  if rune4 b0 b1 b2 b3 then Good [b0; b1; b2; b3] :: chunks s3
                  else Bad :: chunks s0
              end
          end
      end
  end.

(** U+FFFD. *)
Definition replacement : bytes := [xef; xbf; xbd].

Definition chunk_bytes (c : chunk) : bytes := match c with Good g => g | Bad => replacement end.

Definition to_valid (s : bytes) : bytes := mjoin (chunk_bytes <$> chunks s).

(** [utf8.EncodeRune]. *)
Definition encode_rune (c : Z) : bytes :=
  if c <? 128 then [byte_of c]
  else if c <? 2048 then [byte_of (192 + c / 64); byte_of (128 + c mod 64)]
  else if (55296 <=? c) && (c <=? 57343) || (1114111 <? c) then replacement
  else if c <? 65536 then
    [byte_of (224 + c / 4096); byte_of (128 + c / 64 mod 64); byte_of (128 + c mod 64)]
  else
    [byte_of (240 + c / 262144); byte_of (128 + c / 4096 mod 64); byte_of (128 + c / 64 mod 64);
     byte_of (128 + c mod 64)].

(** [g] is the encoding of one rune. *)
Definition rune (g : bytes) : bool :=
  match g with
  | [b0] => is_ascii b0
  | [b0; b1] => rune2 b0 b1
  | [b0; b1; b2] => rune3 b0 b1 b2
  | [b0; b1; b2; b3] => rune4 b0 b1 b2 b3
  | _ => false
  end.

(** [utf8.Valid]. *)
Definition valid_utf8 (s : bytes) : bool :=
  forallb (λ c, match c with Good _ => true | Bad => false end) (chunks s).

(** * Facts *)

Ltac byte_lia := unfold rune2, rune3, rune4, cont, is_ascii, in_range in *; lia.

Lemma chunks_rune g s : rune g = true → chunks (g ++ s) = Good g :: chunks s.
Proof.
  destruct g as [|b0 [|b1 [|b2 [|b3 [|]]]]]; cbn [rune app chunks]; intros Hg; try done.
  - by rewrite Hg.
  - assert (is_ascii b0 = false) as -> by byte_lia. by rewrite Hg.
  - assert (is_ascii b0 = false) as -> by byte_lia.
    assert (rune2 b0 b1 = false) as -> by byte_lia. by rewrite Hg.
  - assert (is_ascii b0 = false) as -> by byte_lia.
    assert (rune2 b0 b1 = false) as -> by byte_lia.
    assert (rune3 b0 b1 b2 = false) as -> by byte_lia. by rewrite Hg.
Qed.

Lemma chunks_runes gs s :
  Forall (λ g, rune g = true) gs → chunks (mjoin gs ++ s) = (Good <$> gs) ++ chunks s.
Proof.
  induction 1 as [|g gs Hg _ IH]; [done|]. cbn [mjoin list_join fmap list_fmap app].
  rewrite <-app_assoc, chunks_rune by done. f_equal. exact IH.
Qed.

(** A chunk that is not bad is a rune, and a string without bad chunks is the
    concatenation of its chunks. *)
Lemma chunks_split s :
  valid_utf8 s = true →
  ∃ gs, chunks s = Good <$> gs ∧ s = mjoin gs ∧ Forall (λ g, rune g = true) gs.
Proof.
  unfold valid_utf8. remember (length s) as n eqn:Hn. revert s Hn.
  induction (Nat.lt_wf_0 n) as [n _ IH]. intros s Hn Hv.
  assert (∀ g s', s = g ++ s' → rune g = true → chunks s = Good g :: chunks s' →
    ∃ gs, chunks s = Good <$> gs ∧ s = mjoin gs ∧ Forall (λ g, rune g = true) gs) as Hstep.
  { intros g s' Es Hg Ec. rewrite Ec in Hv. cbn [forallb] in Hv.
    assert (0 < length g)%nat by (destruct g; [done|cbn; lia]).
    destruct (IH (length s')) with (s := s') as (gs & E1 & E2 & E3); [|done|done|].
    { subst. rewrite length_app. lia. }
    exists (g :: gs). rewrite Ec, E1. split_and!; [done| |by constructor].
    rewrite Es, E2. done. }
  destruct s as [|b0 s0]; [by exists []|]. cbn [chunks] in Hv, Hstep |- *.
  destruct (is_ascii b0) eqn:E0; [by apply (Hstep [b0] s0)|].
  destruct s0 as [|b1 s1]; [done|]. destruct (rune2 b0 b1) eqn:E1; [by apply (Hstep [b0; b1] s1)|].
  destruct s1 as [|b2 s2]; [done|]. destruct (rune3 b0 b1 b2) eqn:E2; [by apply (Hstep [b0; b1; b2] s2)|].
  destruct s2 as [|b3 s3]; [done|].
  destruct (rune4 b0 b1 b2 b3) eqn:E3; [by apply (Hstep [b0; b1; b2; b3] s3)|done].
Qed.

(** What a chunk can be. *)
Definition chunk_ok (c : chunk) : Prop := match c with Good g => rune g = true | Bad => True end.

Lemma chunks_ok s : Forall chunk_ok (chunks s).
Proof.
  remember (length s) as n eqn:Hn. revert s Hn.
  induction (Nat.lt_wf_0 n) as [n _ IH]. intros [|b0 s0] Hn; cbn [chunks]; [constructor|].
  assert (∀ c s', chunk_ok c → (length s' < n)%nat → Forall chunk_ok (c :: chunks s')) as Hstep
    by (intros c s' Hc Hs; constructor; [done|by apply (IH (length s'))]).
  subst n. cbn [length] in Hstep.
  repeat (case_match; cbn [length] in Hstep; try (apply Hstep; [done|cbn; lia])).
Qed.

Lemma to_valid_runes gs : Forall (λ g, rune g = true) gs → to_valid (mjoin gs) = mjoin gs.
Proof.
  intros Hg. unfold to_valid. pose proof (chunks_runes gs [] Hg) as E. rewrite !app_nil_r in E.
  rewrite E, <-list_fmap_compose. f_equal. rewrite <-(list_fmap_id gs) at 2. by apply list_fmap_ext.
Qed.

Lemma to_valid_id s : valid_utf8 s = true → to_valid s = s.
Proof. intros (gs & _ & -> & Hg)%chunks_split. by apply to_valid_runes. Qed.

Lemma chunk_bytes_rune c : chunk_ok c → rune (chunk_bytes c) = true.
Proof. by destruct c. Qed.

(** The replacement gives valid UTF-8, so it changes every string that was not. *)
Lemma to_valid_valid s : valid_utf8 (to_valid s) = true.
Proof.
  pose proof (chunks_ok s) as H. unfold valid_utf8, to_valid.
  pose proof (chunks_runes (chunk_bytes <$> chunks s) []) as E. rewrite !app_nil_r in E.
  rewrite E by (apply Forall_fmap; eapply Forall_impl; [exact H|apply chunk_bytes_rune]).
  apply forallb_forall. intros c Hc. apply list_elem_of_In, list_elem_of_fmap in Hc as (g & -> & _). done.
Qed.

Lemma to_valid_invalid s : valid_utf8 s = false → to_valid s ≠ s.
Proof. intros Hs E. pose proof (to_valid_valid s) as Hv. rewrite E in Hv. congruence. Qed.

Lemma to_valid_nil s : to_valid s = [] → s = [].
Proof.
  destruct s as [|b0 s0]; [done|]. unfold to_valid. intros E. exfalso. revert E.
  pose proof (chunks_ok (b0 :: s0)) as Hc. destruct (chunks (b0 :: s0)) as [|c cs] eqn:Ec.
  { revert Ec. cbn [chunks]. repeat case_match; done. }
  apply Forall_cons in Hc as [Hc _]. apply chunk_bytes_rune in Hc. rewrite fmap_cons. cbn.
  destruct (chunk_bytes c); done.
Qed.
