(* ===== verification/Json.v ===== *)
(** * JSON (package encoding/json, as the daemon uses it)

    The syntax that [json.Unmarshal] accepts, with the decoding of strings
    (escapes, surrogate pairs, bytes that are not UTF-8).  The parser carries
    fuel, twice the length of the input and one, which is enough
    ([parse_returns]). *)

From Stdlib Require Import Strings.Byte Strings.String.
From S2P Require Import Prelude GoBytes Utf8.

Local Open Scope Z_scope.

(** ** Values *)

Inductive json :=
| JNull
| JBool (b : bool)
| JNum (text : bytes)
| JStr (s : bytes)
| JArr (l : list json)
| JObj (l : list (bytes * json)).

(** ** Strings *)

Definition quote : byte := x22.
Definition backslash : byte := x5c.

(** A scanned string: plain bytes and [\u] escapes. *)
Inductive unit_ := UByte (b : byte) | UCode (c : Z).

Definition hex_value (b : byte) : option Z :=
  if in_range 48 57 b then Some (byte_val b - 48)
  else if in_range 97 102 b then Some (byte_val b - 87)
  else if in_range 65 70 b then Some (byte_val b - 55)
  else None.

Definition hex4 (a b c d : byte) : option Z :=
  a ← hex_value a; b ← hex_value b; c ← hex_value c; d ← hex_value d;
  Some (a * 4096 + b * 256 + c * 16 + d).

(** The escapes of one character. *)
Definition simple_escape (e : byte) : option byte :=
  match e with
  | x22 => Some x22 | x5c => Some x5c | x2f => Some x2f
  | x62 => Some x08 | x66 => Some x0c | x6e => Some x0a | x72 => Some x0d | x74 => Some x09
  | _ => None
  end.

(** The string up to its closing quote, and what follows it. *)
Fixpoint scan_string (s : bytes) : option (list unit_ * bytes) :=
  match s with
  | [] => None
  | b :: s0 =>
      if bool_decide (b = quote) then Some ([], s0)
      else if bool_decide (b = backslash) then
        match s0 with
        | [] => None
        | e :: s1 =>
            if bool_decide (e = x75) then
              match s1 with
              | h1 :: h2 :: h3 :: h4 :: s2 =>
                  match hex4 h1 h2 h3 h4, scan_string s2 with
                  | Some c, Some (us, rest) => Some (UCode c :: us, rest)
                  | _, _ => None
                  end
              | _ => None
              end
            else
              match simple_escape e, scan_string s1 with
              | Some b, Some (us, rest) => Some (UByte b :: us, rest)
              | _, _ => None
              end
        end
      else if byte_val b <? 32 then None
      else
        match scan_string s0 with
        | Some (us, rest) => Some (UByte b :: us, rest)
        | None => None
        end
  end.

Definition surrogate (c : Z) : bool := (55296 <=? c) && (c <=? 57343).

(** [utf16.DecodeRune]. *)
Definition surrogate_pair (c1 c2 : Z) : option Z :=
  if (55296 <=? c1) && (c1 <? 56320) && (56320 <=? c2) && (c2 <? 57344)
  then Some ((c1 - 55296) * 1024 + (c2 - 56320) + 65536) else None.

(** [unquote]: [run] are the plain bytes since the last [\u] escape. *)
Fixpoint decode_units (us : list unit_) (run : bytes) : bytes :=
  match us with
  | [] => to_valid run
  | UByte b :: us => decode_units us (run ++ [b])
  | UCode c :: us =>
      to_valid run ++
      (if surrogate c then
         match us with
         | UCode c2 :: us' =>
             match surrogate_pair c c2 with
             | Some r => encode_rune r ++ decode_units us' []
             | None => replacement ++ decode_units us []
             end
         | _ => replacement ++ decode_units us []
         end
       else encode_rune c ++ decode_units us [])
  end.

(** ** Syntax *)

Definition is_space (b : byte) : bool :=
  bool_decide (b = x20) || bool_decide (b = x09) || bool_decide (b = x0a) || bool_decide (b = x0d).

Fixpoint skip_ws (s : bytes) : bytes :=
  match s with
  | b :: s' => if is_space b then skip_ws s' else s
  | [] => []
  end.

Definition is_digit (b : byte) : bool := in_range 48 57 b.

Fixpoint take_digits (s : bytes) : bytes * bytes :=
  match s with
  | b :: s' => if is_digit b then let '(d, r) := take_digits s' in (b :: d, r) else ([], s)
  | [] => ([], [])
  end.

(** At least one digit. *)
Definition digits1 (s : bytes) : option (bytes * bytes) :=
  match take_digits s with
  | ([], _) => None
  | p => Some p
  end.

(** The rest of [s] after the byte [c]. *)
Definition next (c : byte) (s : bytes) : option bytes :=
  match s with
  | b :: s' => if bool_decide (b = c) then Some s' else None
  | [] => None
  end.

(** The integer part: a zero, or digits that do not start with one. *)
Definition int_part (s : bytes) : option (bytes * bytes) :=
  match next x30 s with
  | Some s => Some ([x30], s)
  | None => digits1 s
  end.

Definition frac_part (s : bytes) : option (bytes * bytes) :=
  match next x2e s with
  | Some s => '(d, r) ← digits1 s; Some (x2e :: d, r)
  | None => Some ([], s)
  end.

(** An optional sign. *)
Definition sign (allowed : list byte) (s : bytes) : bytes * bytes :=
  match s with
  | b :: s' => if bool_decide (b ∈ allowed) then ([b], s') else ([], s)
  | [] => ([], [])
  end.

Definition exp_part (s : bytes) : option (bytes * bytes) :=
  match sign [x65; x45] s with
  | ([], _) => Some ([], s)
  | (e, s) => let '(sg, s) := sign [x2b; x2d] s in '(d, r) ← digits1 s; Some (e ++ sg ++ d, r)
  end.

Definition scan_number (s : bytes) : option (bytes * bytes) :=
  let '(sg, s) := sign [x2d] s in
  '(i, s) ← int_part s; '(f, s) ← frac_part s; '(e, s) ← exp_part s;
  Some (sg ++ i ++ f ++ e, s).

(** A literal name. *)
Fixpoint expect (lit s : bytes) : option bytes :=
  match lit, s with
  | [], _ => Some s
  | a :: lit, b :: s => if bool_decide (a = b) then expect lit s else None
  | _, _ => None
  end.

Definition maxNestingDepth : nat := Z.to_nat 10000.

(** Values, the members of an object and the elements of an array; [depth] is
    the nesting still allowed.  [Ret None] is a syntax error. *)
Fixpoint value (fuel depth : nat) (s : bytes) : go (option (json * bytes)) :=
  match fuel with
  | O => OutOfFuel
  | S fuel =>
      match s with
      | [] => Ret None
      | b :: s0 =>
          if bool_decide (b = x7b) then
            match depth with
            | O => Ret None
            | S depth =>
                match next x7d (skip_ws s0) with
                | Some s1 => Ret (Some (JObj [], s1))
                | None => members fuel depth (skip_ws s0) []
                end
            end
          else if bool_decide (b = x5b) then
            match depth with
            | O => Ret None
            | S depth =>
                match next x5d (skip_ws s0) with
                | Some s1 => Ret (Some (JArr [], s1))
                | None => elements fuel depth (skip_ws s0) []
                end
            end
          else if bool_decide (b = quote) then
            Ret ('(us, s1) ← scan_string s0; Some (JStr (decode_units us []), s1))
          else if bool_decide (b = x74) then Ret (s1 ← expect (str "rue") s0; Some (JBool true, s1))
          else if bool_decide (b = x66) then Ret (s1 ← expect (str "alse") s0; Some (JBool false, s1))
          else if bool_decide (b = x6e) then Ret (s1 ← expect (str "ull") s0; Some (JNull, s1))
          else Ret ('(n, s1) ← scan_number s; Some (JNum n, s1))
      end
  end
with members (fuel depth : nat) (s : bytes) (acc : list (bytes * json))
    : go (option (json * bytes)) :=
  match fuel with
  | O => OutOfFuel
  | S fuel =>
      match next quote s with
      | None => Ret None
      | Some s0 =>
          match scan_string s0 with
          | None => Ret None
          | Some (us, s1) =>
              match next x3a (skip_ws s1) with
              | None => Ret None
              | Some s2 =>
                  let* r := value fuel depth (skip_ws s2) in
                  match r with
                  | None => Ret None
                  | Some (v, s3) =>
                      let acc := acc ++ [(decode_units us [], v)] in
                      match next x2c (skip_ws s3), next x7d (skip_ws s3) with
                      | Some s4, _ => members fuel depth (skip_ws s4) acc
                      | None, Some s4 => Ret (Some (JObj acc, s4))
                      | None, None => Ret None
                      end
                  end
              end
          end
      end
  end
with elements (fuel depth : nat) (s : bytes) (acc : list json) : go (option (json * bytes)) :=
  match fuel with
  | O => OutOfFuel
  | S fuel =>
      let* r := value fuel depth s in
      match r with
      | None => Ret None
      | Some (v, s1) =>
          let acc := acc ++ [v] in
          match next x2c (skip_ws s1), next x5d (skip_ws s1) with
          | Some s2, _ => elements fuel depth (skip_ws s2) acc
          | None, Some s2 => Ret (Some (JArr acc, s2))
          | None, None => Ret None
          end
      end
  end.

(** A whole document. *)
Definition parse (s : bytes) : go (option json) :=
  let* r := value (S (2 * length s)) maxNestingDepth (skip_ws s) in
  Ret (match r with
       | Some (v, rest) => if bool_decide (skip_ws rest = []) then Some v else None
       | None => None
       end).

(** * Facts *)

(** ** The parser returns

    Nothing that the parser calls gives back more than it was given. *)

Lemma skip_ws_length s : (length (skip_ws s) ≤ length s)%nat.
Proof. induction s as [|b s IH]; cbn; [done|]. destruct (is_space b); cbn; lia. Qed.

Lemma next_length c s s' : next c s = Some s' → length s = S (length s').
Proof. destruct s as [|b s]; [done|]. cbn. case_bool_decide; [|done]. by intros [= ->]. Qed.

Lemma next_ws_length c s s' : next c (skip_ws s) = Some s' → (S (length s') ≤ length s)%nat.
Proof. intros E%next_length. pose proof (skip_ws_length s). lia. Qed.

Lemma scan_string_length n s us rest :
  (length s ≤ n)%nat → scan_string s = Some (us, rest) → (length rest ≤ length s)%nat.
Proof.
  revert s us rest. induction n as [|n IH]; intros [|b s0] us rest Hn E; cbn in Hn; try done || lia.
  cbn [scan_string length] in E |- *.
  repeat case_bool_decide; try (injection E as <- <-; lia).
  - destruct s0 as [|e s1]; [done|]. case_bool_decide.
    + destruct s1 as [|h1 [|h2 [|h3 [|h4 s2]]]]; try done. cbn [length] in *.
      destruct (hex4 _ _ _ _); [|done]. destruct (scan_string s2) as [[us2 r2]|] eqn:E2; [|done].
      injection E as <- <-. apply IH in E2; lia.
    + cbn [length] in *. destruct (simple_escape e); [|done].
      destruct (scan_string s1) as [[us2 r2]|] eqn:E2; [|done]. injection E as <- <-. apply IH in E2; lia.
  - destruct (byte_val b <? 32); [done|]. destruct (scan_string s0) as [[us2 r2]|] eqn:E2; [|done].
    injection E as <- <-. apply IH in E2; lia.
Qed.

Lemma expect_length lit s rest : expect lit s = Some rest → (length rest ≤ length s)%nat.
Proof.
  revert s. induction lit as [|a lit IH]; intros [|b s] E; cbn in E; try (by injection E as <-) || done.
  case_bool_decide; [|done]. apply IH in E. cbn. lia.
Qed.

Lemma take_digits_length s : (length (take_digits s).2 ≤ length s)%nat.
Proof. induction s as [|b s IH]; cbn; [done|]. destruct (is_digit b); [|done]. destruct (take_digits s). cbn in *. lia. Qed.

Lemma digits1_length s d r : digits1 s = Some (d, r) → (length r ≤ length s)%nat.
Proof.
  unfold digits1. pose proof (take_digits_length s). destruct (take_digits s) as [[|] r']; [done|].
  by intros [= <- <-].
Qed.

Lemma sign_length l s : (length (sign l s).2 ≤ length s)%nat.
Proof. destruct s as [|b s]; cbn; [done|]. case_bool_decide; cbn; lia. Qed.

Lemma int_part_length s d r : int_part s = Some (d, r) → (length r ≤ length s)%nat.
Proof.
  unfold int_part. destruct (next x30 s) eqn:E; [|apply digits1_length].
  apply next_length in E. intros [= <- <-]. lia.
Qed.

Lemma frac_part_length s d r : frac_part s = Some (d, r) → (length r ≤ length s)%nat.
Proof.
  unfold frac_part. destruct (next x2e s) eqn:E; [|by intros [= <- <-]]. apply next_length in E.
  destruct (digits1 _) as [[d' r']|] eqn:Ed; [|done]. apply digits1_length in Ed. intros [= <- <-]. lia.
Qed.

Lemma exp_part_length s d r : exp_part s = Some (d, r) → (length r ≤ length s)%nat.
Proof.
  unfold exp_part. pose proof (sign_length [x65; x45] s). destruct (sign [x65; x45] s) as [[|e es] s1].
  { by intros [= <- <-]. }
  pose proof (sign_length [x2b; x2d] s1). destruct (sign [x2b; x2d] s1) as [sg s2]. cbn [snd] in *.
  destruct (digits1 s2) as [[d' r']|] eqn:Ed; [|done]. apply digits1_length in Ed. intros [= <- <-]. lia.
Qed.

Lemma scan_number_length s n r : scan_number s = Some (n, r) → (length r ≤ length s)%nat.
Proof.
  unfold scan_number. pose proof (sign_length [x2d] s). destruct (sign [x2d] s) as [sg s1]. cbn [snd] in *.
  destruct (int_part s1) as [[i s2]|] eqn:E1; [|done]. apply int_part_length in E1. cbn [mbind option_bind].
  destruct (frac_part s2) as [[f s3]|] eqn:E2; [|done]. apply frac_part_length in E2. cbn [mbind option_bind].
  destruct (exp_part s3) as [[e s4]|] eqn:E3; [|done]. apply exp_part_length in E3. intros [= <- <-]. lia.
Qed.

(** [r] is an answer about an input of length [n]. *)
Definition returns (n : nat) (r : go (option (json * bytes))) : Prop :=
  ∃ o, r = Ret o ∧ ∀ v rest, o = Some (v, rest) → (length rest ≤ n)%nat.

Lemma returns_none n : returns n (Ret None).
Proof. by exists None. Qed.

Lemma returns_some n v rest : (length rest ≤ n)%nat → returns n (Ret (Some (v, rest))).
Proof. intros H. eexists. split; [done|]. by intros ?? [= <- <-]. Qed.

Lemma returns_weaken n m r : returns n r → (n ≤ m)%nat → returns m r.
Proof. intros (o & -> & H) Hn. exists o. split; [done|]. intros v rest E. specialize (H v rest E). lia. Qed.

(** What a call with [fuel] does on every input it is given enough for. *)
Definition value_ok (fuel : nat) : Prop :=
  ∀ depth s, (2 * length s + 1 ≤ fuel)%nat → returns (length s) (value fuel depth s).
Definition members_ok (fuel : nat) : Prop :=
  ∀ depth s acc, (2 * length s + 2 ≤ fuel)%nat → returns (length s) (members fuel depth s acc).
Definition elements_ok (fuel : nat) : Prop :=
  ∀ depth s acc, (2 * length s + 2 ≤ fuel)%nat → returns (length s) (elements fuel depth s acc).

Lemma value_step fuel : members_ok fuel → elements_ok fuel → value_ok (S fuel).
Proof.
  intros IHm IHe depth [|b s0] Hf; cbn [length] in Hf; cbn [value]; [apply returns_none|].
  pose proof (skip_ws_length s0). do 2 (case_bool_decide;
    [destruct depth as [|depth]; [apply returns_none|];
     destruct (next _ _) eqn:E; [apply next_ws_length in E; apply returns_some; cbn; lia|];
     eapply returns_weaken; [apply IHm || apply IHe; lia|cbn; lia]|]).
  case_bool_decide.
  { destruct (scan_string s0) as [[us s1]|] eqn:E; [|apply returns_none].
    apply (scan_string_length _ _ _ _ (le_n _)) in E. apply returns_some. cbn. lia. }
  do 3 (case_bool_decide;
    [destruct (expect _ s0) eqn:E; [apply expect_length in E; apply returns_some; cbn; lia|apply returns_none]|]).
  destruct (scan_number _) as [[n s1]|] eqn:E; [|apply returns_none].
  apply scan_number_length in E. by apply returns_some.
Qed.

Lemma members_step fuel : value_ok fuel → members_ok fuel → members_ok (S fuel).
Proof.
  intros IHv IHm depth s acc Hf. cbn [members].
  destruct (next quote s) as [s0|] eqn:E0; [|apply returns_none]. apply next_length in E0.
  destruct (scan_string s0) as [[us s1]|] eqn:E1; [|apply returns_none].
  apply (scan_string_length _ _ _ _ (le_n _)) in E1.
  destruct (next x3a _) as [s2|] eqn:E2; [|apply returns_none]. apply next_ws_length in E2.
  pose proof (skip_ws_length s2).
  destruct (IHv depth (skip_ws s2)) as (o & -> & Ho); [lia|]. cbn [bind_go].
  destruct o as [[v s3]|]; [|apply returns_none]. specialize (Ho v s3 eq_refl). cbn zeta.
  destruct (next x2c _) as [s4|] eqn:E4.
  { apply next_ws_length in E4. pose proof (skip_ws_length s4).
    eapply returns_weaken; [apply IHm; lia|lia]. }
  destruct (next x7d _) as [s4|] eqn:E5; [|apply returns_none]. apply next_ws_length in E5.
  apply returns_some. lia.
Qed.

Lemma elements_step fuel : value_ok fuel → elements_ok fuel → elements_ok (S fuel).
Proof.
  intros IHv IHe depth s acc Hf. cbn [elements].
  destruct (IHv depth s) as (o & -> & Ho); [lia|]. cbn [bind_go].
  destruct o as [[v s1]|]; [|apply returns_none]. specialize (Ho v s1 eq_refl). cbn zeta.
  destruct (next x2c _) as [s2|] eqn:E4.
  { apply next_ws_length in E4. pose proof (skip_ws_length s2).
    eapply returns_weaken; [apply IHe; lia|lia]. }
  destruct (next x5d _) as [s2|] eqn:E5; [|apply returns_none]. apply next_ws_length in E5.
  apply returns_some. lia.
Qed.

Lemma value_returns fuel : value_ok fuel ∧ members_ok fuel ∧ elements_ok fuel.
Proof.
  induction fuel as [|fuel (IHv & IHm & IHe)]; [by split_and!; intros ?; intros; lia|].
  auto using value_step, members_step, elements_step.
Qed.

(** The fuel of [parse] suffices for every document. *)
Lemma parse_returns s : ∃ r, parse s = Ret r.
Proof.
  unfold parse. pose proof (skip_ws_length s).
  destruct (proj1 (value_returns (S (2 * length s))) maxNestingDepth (skip_ws s)) as (o & -> & _); [lia|].
  cbn [bind_go]. eauto.
Qed.
