(* ===== verification/JsonText.v ===== *)
(** * Writing JSON (json.Marshal, JSON.stringify)

    The texts that the daemon and its web page write: flat objects of strings,
    numbers and booleans.  [json.Marshal] escapes more than the browser's
    [JSON.stringify]: the characters that matter in HTML and the two line
    separators.  Parsing the text gives back the fields ([parse_object]). *)

From Stdlib Require Import Strings.Byte Strings.String Strings.Ascii.
From S2P Require Import Prelude GoBytes Flag Utf8 Json.

Local Open Scope Z_scope.

(** ** Strings *)

Definition hex_digit (n : Z) : byte := byte_of (if n <? 10 then 48 + n else 87 + n).

(** [\u00xx]. *)
Definition code_escape (b : byte) : bytes :=
  [backslash; x75; x30; x30; hex_digit (byte_val b / 16); hex_digit (byte_val b mod 16)].

(** The letter of a short escape. *)
Definition short_escape (b : byte) : option byte :=
  match b with
  | x22 => Some x22 | x5c => Some x5c
  | x08 => Some x62 | x0c => Some x66 | x0a => Some x6e | x0d => Some x72 | x09 => Some x74
  | _ => None
  end.

(** What a writer escapes beyond what JSON requires. *)
Inductive writer := GoMarshal | JSStringify.

Definition html_char (b : byte) : bool := bool_decide (b ∈ [x3c; x3e; x26]).

Definition escape_ascii (wr : writer) (b : byte) : bytes :=
  match short_escape b with
  | Some e => [backslash; e]
  | None =>
      if (byte_val b <? 32) || (match wr with GoMarshal => html_char b | JSStringify => false end)
      then code_escape b else [b]
  end.

(** U+2028 and U+2029. *)
Definition line_separator (g : bytes) : option bytes :=
  if bool_decide (g = [xe2; x80; xa8]) then Some (str "\u2028")
  else if bool_decide (g = [xe2; x80; xa9]) then Some (str "\u2029")
  else None.

Definition escape_chunk (wr : writer) (c : chunk) : bytes :=
  match c with
  | Good [b] => escape_ascii wr b
  | Good g =>
      match wr with
      | GoMarshal => default g (line_separator g)
      | JSStringify => g
      end
  | Bad => str "\ufffd"
  end.

Definition encode_string (wr : writer) (s : bytes) : bytes :=
  quote :: mjoin (escape_chunk wr <$> chunks s) ++ [quote].

(** ** Flat objects *)

Inductive scalar := SStr (s : bytes) | SBool (b : bool) | SInt (n : Z).

Definition scalar_text (wr : writer) (v : scalar) : bytes :=
  match v with
  | SStr s => encode_string wr s
  | SBool b => str (if b then "true" else "false")
  | SInt n => str (Sprintf_d n)
  end.

Definition field_text (wr : writer) (f : bytes * scalar) : bytes :=
  encode_string wr f.1 ++ x3a :: scalar_text wr f.2.

Fixpoint fields_text (wr : writer) (fs : list (bytes * scalar)) : bytes :=
  match fs with
  | [] => []
  | [f] => field_text wr f
  | f :: fs => field_text wr f ++ x2c :: fields_text wr fs
  end.

Definition object_text (wr : writer) (fs : list (bytes * scalar)) : bytes :=
  x7b :: fields_text wr fs ++ [x7d].

(** What a reader gets. *)
Definition scalar_json (v : scalar) : json :=
  match v with
  | SStr s => JStr (to_valid s)
  | SBool b => JBool b
  | SInt n => JNum (str (Sprintf_d n))
  end.

Definition field_json (f : bytes * scalar) : bytes * json := (to_valid f.1, scalar_json f.2).

(** * Facts *)

(** ** Scanning what was escaped *)

(** [us] before the scan of the rest. *)
Definition put_before (us : list unit_) (r : option (list unit_ * bytes)) : option (list unit_ * bytes) :=
  match r with Some (us', rest) => Some (us ++ us', rest) | None => None end.

Lemma put_before_app us us' r : put_before us (put_before us' r) = put_before (us ++ us') r.
Proof. destruct r as [[]|]; [|done]. cbn. by rewrite app_assoc. Qed.

Lemma scan_plain b s :
  b ≠ quote → b ≠ backslash → 32 ≤ byte_val b → scan_string (b :: s) = put_before [UByte b] (scan_string s).
Proof.
  intros H1 H2 H3. cbn [scan_string]. rewrite !bool_decide_eq_false_2 by done.
  by rewrite (proj2 (Z.ltb_ge _ _) H3).
Qed.

Lemma scan_simple e b s :
  simple_escape e = Some b → scan_string (backslash :: e :: s) = put_before [UByte b] (scan_string s).
Proof.
  intros E. cbn [scan_string]. rewrite bool_decide_eq_false_2, bool_decide_eq_true_2 by done.
  rewrite bool_decide_eq_false_2 by by intros ->. by rewrite E.
Qed.

Lemma scan_code a b c d v s :
  hex4 a b c d = Some v →
  scan_string (backslash :: x75 :: a :: b :: c :: d :: s) = put_before [UCode v] (scan_string s).
Proof.
  intros E. cbn [scan_string]. rewrite bool_decide_eq_false_2, !bool_decide_eq_true_2 by done. by rewrite E.
Qed.

Lemma short_escape_simple b e : short_escape b = Some e → simple_escape e = Some b.
Proof. destruct b; intros [= <-]; reflexivity. Qed.

Lemma code_escape_value b :
  is_ascii b = true → hex4 x30 x30 (hex_digit (byte_val b / 16)) (hex_digit (byte_val b mod 16)) = Some (byte_val b).
Proof. destruct b; try discriminate; reflexivity. Qed.

(** The units that a chunk is scanned as. *)
Definition chunk_units (wr : writer) (c : chunk) : list unit_ :=
  match c with
  | Good [b] =>
      if bool_decide (escape_ascii wr b = code_escape b) then [UCode (byte_val b)] else [UByte b]
  | Good g =>
      match wr, line_separator g with
      | GoMarshal, Some t => [UCode (if bool_decide (g = [xe2; x80; xa8]) then 8232 else 8233)]
      | _, _ => UByte <$> g
      end
  | Bad => [UCode 65533]
  end.

Lemma scan_bytes g s :
  Forall (λ b, 128 ≤ byte_val b) g → scan_string (g ++ s) = put_before (UByte <$> g) (scan_string s).
Proof.
  induction 1 as [|b g Hb _ IH]; cbn [app fmap list_fmap]; [by destruct (scan_string s) as [[]|]|].
  cbn beta in Hb. rewrite scan_plain; [by rewrite IH, put_before_app| | |lia]; intros ->; by destruct Hb.
Qed.

Lemma rune_high b0 b1 g : rune (b0 :: b1 :: g) = true → Forall (λ b, 128 ≤ byte_val b) (b0 :: b1 :: g).
Proof.
  destruct g as [|b2 [|b3 [|]]]; cbn [rune]; intros H; try done; repeat apply Forall_cons_2; try apply Forall_nil_2; byte_lia.
Qed.

Lemma join_cons {A} (x : list A) l : mjoin (x :: l) = x ++ mjoin l.
Proof. done. Qed.

(** A chunk is scanned as its units. *)
Lemma scan_chunk wr c s :
  chunk_ok c → scan_string (escape_chunk wr c ++ s) = put_before (chunk_units wr c) (scan_string s).
Proof.
  destruct c as [[|b [|b1 g]]|]; cbn [chunk_ok escape_chunk chunk_units]; intros Hc.
  - done.
  - unfold escape_ascii. destruct (short_escape b) as [e|] eqn:E.
    { rewrite bool_decide_eq_false_2 by done. by apply scan_simple, short_escape_simple. }
    destruct (_ || _) eqn:Eh.
    { rewrite bool_decide_eq_true_2 by done. by apply scan_code, code_escape_value. }
    rewrite bool_decide_eq_false_2 by done.
    apply orb_false_iff in Eh as [Hlo%Z.ltb_ge _]. apply scan_plain; [by intros ->..|done].
  - pose proof (scan_bytes (b :: b1 :: g) s (rune_high _ _ _ Hc)) as Hplain.
    destruct wr; [|done]. unfold line_separator.
    repeat case_bool_decide; cbn [default from_option id]; [by apply scan_code..|done].
  - by apply scan_code.
Qed.

Lemma scan_chunks wr cs s :
  Forall chunk_ok cs →
  scan_string (mjoin (escape_chunk wr <$> cs) ++ s) = put_before (mjoin (chunk_units wr <$> cs)) (scan_string s).
Proof.
  induction 1 as [|c cs Hc _ IH]; rewrite ?fmap_cons, ?join_cons.
  { cbn. by destruct (scan_string s) as [[]|]. }
  by rewrite <-app_assoc, scan_chunk, IH, put_before_app.
Qed.

(** ** Decoding the units *)

Lemma decode_bytes g us run : decode_units ((UByte <$> g) ++ us) run = decode_units us (run ++ g).
Proof.
  revert run. induction g as [|b g IH]; intros run; cbn [fmap list_fmap app decode_units].
  - by rewrite app_nil_r.
  - rewrite IH. by rewrite <-app_assoc.
Qed.

Lemma decode_code c us run :
  surrogate c = false → decode_units (UCode c :: us) run = to_valid run ++ encode_rune c ++ decode_units us [].
Proof. intros E. cbn [decode_units]. by rewrite E. Qed.

(** A chunk's units are bytes of a rune or one code that stands for its bytes. *)
Lemma chunk_units_cases wr c :
  chunk_ok c →
  (∃ g, c = Good g ∧ chunk_units wr c = UByte <$> g)
  ∨ ∃ v, chunk_units wr c = [UCode v] ∧ surrogate v = false ∧ encode_rune v = chunk_bytes c.
Proof.
  destruct c as [[|b [|b1 g]]|]; cbn [chunk_ok chunk_units]; intros Hc.
  - done.
  - case_bool_decide; [right|left; by exists [b]]. exists (byte_val b). split; [done|].
    cbn [rune] in Hc. unfold is_ascii in Hc. unfold surrogate, encode_rune. rewrite Hc, byte_of_val.
    split; [lia|done].
  - destruct wr; [|by left; exists (b :: b1 :: g)]. unfold line_separator.
    repeat case_bool_decide; [right; simplify_eq/=; by eexists..|by left; exists (b :: b1 :: g)].
  - right. by eexists.
Qed.

Lemma decode_chunks wr cs gs :
  Forall chunk_ok cs → Forall (λ g, rune g = true) gs →
  decode_units (mjoin (chunk_units wr <$> cs)) (mjoin gs) = mjoin gs ++ mjoin (chunk_bytes <$> cs).
Proof.
  intros Hcs. revert gs. induction Hcs as [|c cs Hc _ IH]; intros gs Hgs; rewrite ?fmap_cons, ?join_cons.
  { cbn. by rewrite to_valid_runes, app_nil_r. }
  destruct (chunk_units_cases wr c Hc) as [(g & -> & ->)|(v & -> & Hs & He)].
  - rewrite decode_bytes. replace (mjoin gs ++ g) with (mjoin (gs ++ [g])) by (rewrite join_app; cbn; by rewrite app_nil_r).
    rewrite IH by (apply Forall_app; by repeat constructor).
    rewrite join_app. cbn. by rewrite app_nil_r, <-app_assoc.
  - cbn [app]. rewrite decode_code, to_valid_runes, He by done.
    pose proof (IH [] (Forall_nil_2 _)) as E. cbn in E. by rewrite E.
Qed.

(** A written string is read back, with the bytes that are not UTF-8 replaced. *)
Lemma scan_encoded wr s rest :
  ∃ us, scan_string (mjoin (escape_chunk wr <$> chunks s) ++ quote :: rest) = Some (us, rest)
    ∧ decode_units us [] = to_valid s.
Proof.
  rewrite scan_chunks by apply chunks_ok. cbn. eexists. split; [done|]. rewrite app_nil_r.
  apply (decode_chunks wr (chunks s) [] (chunks_ok s) (Forall_nil_2 _)).
Qed.

(** ** Numbers *)

(** The byte after a value in an object. *)
Definition ends (b : byte) : bool := bool_decide (b = x2c) || bool_decide (b = x7d).

Lemma take_digits_app d b rest :
  Forall (λ b, is_digit b = true) d → is_digit b = false → take_digits (d ++ b :: rest) = (d, b :: rest).
Proof.
  intros Hd Hb. induction Hd as [|x d Hx _ IH]; cbn [app take_digits]; [by rewrite Hb|]. by rewrite Hx, IH.
Qed.

Lemma str_digit d s : 0 ≤ d < 10 → str (String (digit d) s) = byte_of (48 + d) :: str s.
Proof. apply (digit_cases (λ d, str (String (digit d) s) = byte_of (48 + d) :: str s)); reflexivity. Qed.

Lemma digit_is_digit d : 0 ≤ d < 10 → is_digit (byte_of (48 + d)) = true.
Proof. apply (digit_cases (λ d, is_digit (byte_of (48 + d)) = true)); reflexivity. Qed.

Lemma format_digits_digits fuel n acc :
  Forall (λ b, is_digit b = true) (str acc) → Forall (λ b, is_digit b = true) (str (format_digits fuel n acc)).
Proof.
  revert n acc. induction fuel as [|fuel IH]; intros n acc Ha; cbn [format_digits]; [done|].
  pose proof (Z.mod_pos_bound n 10 eq_refl).
  assert (Forall (λ b, is_digit b = true) (str (String (digit (n mod 10)) acc))).
  { rewrite str_digit by done. constructor; [by apply digit_is_digit|done]. }
  destruct (n <? 10); auto.
Qed.

Lemma int_part_format n b rest :
  0 ≤ n → is_digit b = false → int_part (str (format_uint n) ++ b :: rest) = Some (str (format_uint n), b :: rest).
Proof.
  intros Hn Hb. destruct (decide (n = 0)) as [->|Hne]; [done|].
  assert (0 < n) as Hpos by lia. unfold format_uint.
  pose proof (format_digits_digits (S (Z.to_nat (Z.log2 n))) n EmptyString (Forall_nil_2 _)) as Hd.
  destruct (format_digits_head _ n EmptyString (conj Hpos (format_uint_bound n Hpos))) as (d & s & E & Hd').
  rewrite E in *. rewrite str_digit in * by lia. unfold int_part.
  replace (next x30 _) with (@None bytes).
  2:{ cbn [app next]. rewrite bool_decide_eq_false_2; [done|]. intros Hx. apply (f_equal byte_val) in Hx.
      rewrite byte_val_of, Z.mod_small in Hx by lia. change (byte_val x30) with 48 in Hx. lia. }
  unfold digits1. by rewrite take_digits_app.
Qed.

Lemma scan_number_Sprintf n b rest :
  ends b = true → scan_number (str (Sprintf_d n) ++ b :: rest) = Some (str (Sprintf_d n), b :: rest).
Proof.
  intros Hb. assert (is_digit b = false ∧ frac_part (b :: rest) = Some ([], b :: rest)
    ∧ exp_part (b :: rest) = Some ([], b :: rest)) as (Hd & Hf & He)
    by (apply orb_true_iff in Hb as [->%bool_decide_eq_true | ->%bool_decide_eq_true]; done).
  unfold scan_number, Sprintf_d. destruct (Z.ltb_spec n 0) as [Hneg|Hpos].
  - change (str (String "-" (format_uint (- n)))) with (x2d :: str (format_uint (- n))). cbn [app sign].
    rewrite bool_decide_eq_true_2 by by left. rewrite int_part_format by (done || lia).
    cbn [mbind option_bind]. rewrite Hf. cbn [mbind option_bind]. rewrite He. cbn. by rewrite app_nil_r.
  - destruct (format_uint_head n Hpos) as (d & s & E & Hd').
    assert (sign [x2d] (str (format_uint n) ++ b :: rest) = ([], str (format_uint n) ++ b :: rest)) as ->.
    { rewrite E, str_digit by done. cbn [app sign]. rewrite bool_decide_eq_false_2; [done|].
      intros Hx%list_elem_of_singleton%(f_equal byte_val). rewrite byte_val_of, Z.mod_small in Hx by lia.
      change (byte_val x2d) with 45 in Hx. lia. }
    rewrite int_part_format by done.
    cbn [mbind option_bind]. rewrite Hf. cbn [mbind option_bind]. rewrite He. cbn. by rewrite app_nil_r.
Qed.

(** ** Objects *)

Lemma value_scalar wr v fuel depth b rest :
  ends b = true →
  value (S fuel) depth (scalar_text wr v ++ b :: rest) = Ret (Some (scalar_json v, b :: rest)).
Proof.
  intros Hb. destruct v as [s|[]|n]; cbn [scalar_text scalar_json].
  - unfold encode_string. cbn [app]. rewrite <-app_assoc. cbn [app].
    destruct (scan_encoded wr s (b :: rest)) as (us & E & Ed). cbn [value].
    rewrite !(bool_decide_eq_false_2 (quote = _)), bool_decide_eq_true_2 by done. rewrite E. cbn. by rewrite Ed.
  - done.
  - done.
  - pose proof (scan_number_Sprintf n b rest Hb) as E.
    assert (∃ x t, str (Sprintf_d n) = x :: t ∧ (x = x2d ∨ is_digit x = true)) as (x & t & Et & Hx).
    { unfold Sprintf_d. destruct (Z.ltb_spec n 0) as [Hneg|Hpos]; [by eexists _, _; split; [|left]|].
      destruct (format_uint_head n Hpos) as (d & s & -> & Hd). rewrite str_digit by done.
      eexists _, _. split; [done|]. right. by apply digit_is_digit. }
    rewrite Et in *. cbn [app value] in *.
    rewrite !(bool_decide_eq_false_2 (x = _)) by (intros ->; destruct Hx; discriminate). by rewrite E.
Qed.

Lemma skip_ws_ends b rest : ends b = true → skip_ws (b :: rest) = b :: rest.
Proof. by intros [->%bool_decide_eq_true | ->%bool_decide_eq_true]%orb_true_iff. Qed.

Lemma scalar_text_ws wr v rest : skip_ws (scalar_text wr v ++ rest) = scalar_text wr v ++ rest.
Proof.
  destruct v as [s|[]|n]; [done..|]. cbn [scalar_text]. unfold Sprintf_d. destruct (Z.ltb_spec n 0) as [Hneg|Hpos]; [done|].
  destruct (format_uint_head n Hpos) as (d & s & -> & Hd). rewrite str_digit by done. cbn [app].
  apply (digit_cases (λ d, skip_ws (byte_of (48 + d) :: str s ++ rest) = byte_of (48 + d) :: str s ++ rest)); done.
Qed.

(** One member, up to what follows it. *)
Lemma members_field wr f fuel depth b rest acc :
  ends b = true →
  members (S (S fuel)) depth (field_text wr f ++ b :: rest) acc =
    (let acc := acc ++ [field_json f] in
     if bool_decide (b = x2c) then members (S fuel) depth (skip_ws rest) acc
     else Ret (Some (JObj acc, rest))).
Proof.
  intros Hb. destruct f as [k v]. unfold field_text, encode_string. cbn [fst snd app].
  rewrite <-app_assoc. cbn [app]. rewrite <-app_assoc. cbn [app].
  destruct (scan_encoded wr k (x3a :: scalar_text wr v ++ b :: rest)) as (us & E & Ed).
  cbn [members next]. rewrite bool_decide_eq_true_2 by done. rewrite E. cbn [skip_ws next].
  assert (is_space x3a = false) as -> by done. cbn [next]. rewrite bool_decide_eq_true_2 by done.
  rewrite scalar_text_ws, value_scalar by done. cbn [bind_go]. rewrite skip_ws_ends by done.
  unfold field_json. cbn [fst snd next]. rewrite Ed.
  by apply orb_true_iff in Hb as [->%bool_decide_eq_true | ->%bool_decide_eq_true].
Qed.

Lemma field_text_ws wr f rest : skip_ws (field_text wr f ++ rest) = field_text wr f ++ rest.
Proof. done. Qed.

Lemma fields_text_ws wr fs rest :
  fs ≠ [] → skip_ws (fields_text wr fs ++ rest) = fields_text wr fs ++ rest.
Proof.
  destruct fs as [|f [|f' fs]]; intros Hfs; [done|by apply field_text_ws|].
  cbn [fields_text]. rewrite <-app_assoc. apply field_text_ws.
Qed.

Lemma members_fields wr fs fuel depth rest acc :
  fs ≠ [] → (length fs < fuel)%nat →
  members fuel depth (fields_text wr fs ++ x7d :: rest) acc = Ret (Some (JObj (acc ++ (field_json <$> fs)), rest)).
Proof.
  revert fuel acc. induction fs as [|f fs IH]; intros fuel acc Hfs Hl; [done|]. cbn [length] in Hl.
  destruct fuel as [|[|fuel]]; [lia..|]. destruct fs as [|f' fs].
  { cbn [fields_text]. by rewrite members_field. }
  change (fields_text wr (f :: f' :: fs)) with (field_text wr f ++ x2c :: fields_text wr (f' :: fs)).
  rewrite <-app_assoc. rewrite <-app_comm_cons, members_field by done. cbn zeta.
  rewrite bool_decide_eq_true_2, fields_text_ws, IH by (done || lia).
  by rewrite fmap_cons, <-app_assoc.
Qed.

Lemma fields_text_length wr fs : (length fs ≤ length (fields_text wr fs))%nat.
Proof.
  induction fs as [|f [|f' fs] IH]; [done| |].
  - unfold fields_text, field_text, encode_string. cbn. lia.
  - change (fields_text wr (f :: f' :: fs)) with (field_text wr f ++ x2c :: fields_text wr (f' :: fs)).
    rewrite length_app. cbn [length] in *. lia.
Qed.

(** The parser reads back what a writer writes. *)
Lemma parse_object wr fs tail :
  skip_ws tail = [] → parse (object_text wr fs ++ tail) = Ret (Some (JObj (field_json <$> fs))).
Proof.
  intros Ht. unfold parse, object_text. cbn [app skip_ws]. assert (is_space x7b = false) as -> by done.
  cbn [value]. rewrite bool_decide_eq_true_2 by done.
  assert (∃ d, maxNestingDepth = S d) as [d ->] by by eexists (Nat.pred maxNestingDepth).
  rewrite <-app_assoc. destruct fs as [|f fs].
  { cbn [fields_text app]. rewrite skip_ws_ends by done. cbn [next]. rewrite !bool_decide_eq_true_2 by done.
    cbn [bind_go]. by rewrite Ht. }
  pose proof (fields_text_length wr (f :: fs)). rewrite fields_text_ws by done.
  replace (next x7d _) with (@None bytes) by (by destruct fs).
  cbn [app]. rewrite members_fields; [|done|].
  - cbn [bind_go]. rewrite Ht. by rewrite bool_decide_eq_true_2.
  - cbn [length]. rewrite length_app. cbn [length] in *. lia.
Qed.
