(* ===== verification/Url.v ===== *)
(** * Query strings (net/url, encodeURIComponent)

    [Query_Get] is [r.URL.Query().Get(name)]: the value of the first pair of
    the raw query with that name, where a pair with a semicolon or a bad escape
    is dropped.  [fetch_query] is what the browser sends for a query that the
    page has put together: [fetch]'s URL parser percent-encodes what may not
    stand in a query, the apostrophe included. *)

From Stdlib Require Import Strings.Byte Strings.String.
From S2P Require Import Prelude GoBytes Utf8 Json.

Local Open Scope Z_scope.

(** ** The server *)

(** [url.QueryUnescape]. *)
Fixpoint QueryUnescape (s : bytes) : option bytes :=
  match s with
  | [] => Some []
  | b :: s0 =>
      if bool_decide (b = x25) then
        match s0 with
        | h1 :: h2 :: s1 =>
            match hex_value h1, hex_value h2, QueryUnescape s1 with
            | Some h, Some l, Some r => Some (byte_of (h * 16 + l) :: r)
            | _, _, _ => None
            end
        | _ => None
        end
      else
        match QueryUnescape s0 with
        | Some r => Some ((if bool_decide (b = x2b) then x20 else b) :: r)
        | None => None
        end
  end.

(** [strings.Cut] at a byte. *)
Fixpoint Cut (c : byte) (s : bytes) : bytes * bytes :=
  match s with
  | [] => ([], [])
  | b :: s => if bool_decide (b = c) then ([], s) else let '(x, y) := Cut c s in (b :: x, y)
  end.

(** The pieces between the bytes [c]. *)
Fixpoint pieces (c : byte) (s : bytes) : list bytes :=
  match s with
  | [] => [[]]
  | b :: s =>
      if bool_decide (b = c) then [] :: pieces c s
      else match pieces c s with p :: ps => (b :: p) :: ps | [] => [[b]] end
  end.

(** One turn of the loop of [url.ParseQuery]. *)
Definition parse_pair (p : bytes) : option (bytes * bytes) :=
  if bool_decide (x3b ∈ p) then None else
  if bool_decide (p = []) then None else
  let '(k, v) := Cut x3d p in
  k ← QueryUnescape k; v ← QueryUnescape v; Some (k, v).

Definition ParseQuery (q : bytes) : list (bytes * bytes) := omap parse_pair (pieces x26 q).

Fixpoint Values_Get (vs : list (bytes * bytes)) (name : bytes) : bytes :=
  match vs with
  | [] => []
  | (k, v) :: vs => if bool_decide (k = name) then v else Values_Get vs name
  end.

Definition Query_Get (q name : bytes) : bytes := Values_Get (ParseQuery q) name.

(** ** The browser *)

Definition upper_hex (n : Z) : byte := byte_of (if n <? 10 then 48 + n else 55 + n).

Definition percent (b : byte) : bytes := [x25; upper_hex (byte_val b / 16); upper_hex (byte_val b mod 16)].

(** Letters, digits and [-_.!~*'()]. *)
Definition unreserved (b : byte) : bool :=
  in_range 65 90 b || in_range 97 122 b || in_range 48 57 b
  || bool_decide (b ∈ [x2d; x5f; x2e; x21; x7e; x2a; x27; x28; x29]).

Definition encodeURIComponent (s : bytes) : bytes :=
  mjoin ((λ b, if unreserved b then [b] else percent b) <$> s).

(** The special-query percent-encode set of the URL standard. *)
Definition special_query (b : byte) : bool :=
  (byte_val b <=? 32) || (126 <? byte_val b) || bool_decide (b ∈ [x22; x23; x3c; x3e; x27]).

Definition fetch_query (q : bytes) : bytes := mjoin ((λ b, if special_query b then percent b else [b]) <$> q).

(** * Facts *)

(** What is sent for one byte of a key. *)
Definition sent (b : byte) : bytes := fetch_query (if unreserved b then [b] else percent b).

Lemma fetch_query_app a b : fetch_query (a ++ b) = fetch_query a ++ fetch_query b.
Proof. unfold fetch_query. by rewrite fmap_app, join_app. Qed.

Lemma fetch_component s : fetch_query (encodeURIComponent s) = mjoin (sent <$> s).
Proof.
  induction s as [|b s IH]; [done|]. unfold encodeURIComponent in *. rewrite !fmap_cons.
  change (mjoin (?x :: ?l)) with (x ++ mjoin l). rewrite fetch_query_app. f_equal. exact IH.
Qed.

(** A byte is sent as itself or as an escape that decodes to it. *)
Lemma sent_cases b :
  (sent b = [b] ∧ b ∉ [x25; x2b; x26; x3b; x3d])
  ∨ ∃ h l x y, sent b = [x25; h; l] ∧ hex_value h = Some x ∧ hex_value l = Some y ∧ byte_of (x * 16 + y) = b
      ∧ h ∉ [x26; x3b; x3d] ∧ l ∉ [x26; x3b; x3d].
Proof.
  destruct b; first
    [ left; split; [vm_compute; reflexivity|by apply (bool_decide_unpack _)]
    | right; do 4 eexists; split; [vm_compute; reflexivity|]; split_and!;
      first [vm_compute; reflexivity | by apply (bool_decide_unpack _)] ].
Qed.

Lemma sent_unescape b r : QueryUnescape (sent b ++ r) = (λ r, b :: r) <$> QueryUnescape r.
Proof.
  destruct (sent_cases b) as [(-> & Hb)|(h & l & x & y & -> & Hh & Hl & Hxy & _)]; cbn [app QueryUnescape].
  - rewrite !bool_decide_eq_false_2 by set_solver. by destruct (QueryUnescape r).
  - rewrite bool_decide_eq_true_2 by done. rewrite Hh, Hl, Hxy. by destruct (QueryUnescape r).
Qed.

Lemma sent_clean b c : c ∈ [x26; x3b; x3d] → c ∉ sent b.
Proof.
  intros Hc. destruct (sent_cases b) as [(-> & Hb)|(h & l & x & y & -> & _ & _ & _ & Hh & Hl)]; [set_solver|].
  assert (c ≠ x25) by (intros ->; revert Hc; by apply (bool_decide_unpack (_ ∉ _))). set_solver.
Qed.

Lemma unescape_sent s : QueryUnescape (mjoin (sent <$> s)) = Some s.
Proof.
  induction s as [|b s IH]; [done|]. rewrite fmap_cons. change (mjoin (?x :: ?l)) with (x ++ mjoin l).
  by rewrite sent_unescape, IH.
Qed.

Lemma sent_all_clean s c : c ∈ [x26; x3b; x3d] → c ∉ mjoin (sent <$> s).
Proof.
  intros Hc. induction s as [|b s IH]; [set_solver|]. rewrite fmap_cons.
  change (mjoin (?x :: ?l)) with (x ++ mjoin l). rewrite elem_of_app. intros [H|H]; [by eapply sent_clean|done].
Qed.

Lemma pieces_clean c s : c ∉ s → pieces c s = [s].
Proof.
  induction s as [|b s IH]; intros Hc; [done|]. cbn. rewrite bool_decide_eq_false_2 by set_solver.
  by rewrite IH by set_solver.
Qed.

(** The value of a parameter reaches the handler as the page has it. *)
Lemma query_round_trip k :
  Query_Get (fetch_query (str "key=" ++ encodeURIComponent k)) (str "key") = k.
Proof.
  rewrite fetch_query_app, fetch_component. change (fetch_query (str "key=")) with (str "key=").
  set (v := mjoin (sent <$> k)).
  assert (∀ c, c ∈ [x26; x3b; x3d] → c ∉ v) as Hv by (intros; by apply sent_all_clean).
  unfold Query_Get, ParseQuery. rewrite pieces_clean.
  2:{ rewrite elem_of_app. intros [H|H]; [revert H; by apply (bool_decide_unpack (_ ∉ _))|]. by apply (Hv x26); [left|]. }
  cbn [omap list_omap]. unfold parse_pair at 1. rewrite bool_decide_eq_false_2.
  2:{ rewrite elem_of_app. intros [H|H]; [revert H; by apply (bool_decide_unpack (_ ∉ _))|]. by apply (Hv x3b); [right; left|]. }
  rewrite bool_decide_eq_false_2 by done.
  change (Cut x3d (str "key=" ++ v)) with (str "key", v). change (QueryUnescape (str "key")) with (Some (str "key")).
  unfold v. cbn [mbind option_bind]. by rewrite unescape_sent.
Qed.
