(* ===== verification/Page.v ===== *)
(** * The page of the web console (DashboardHTML of cmd/hallownestd/main.go)

    The text that the gateway serves at "/", as it is in the source, and what a
    browser makes of its markup: the elements with their attributes and the text
    that follows each tag.  The source writes the page as a raw string, which
    has no back quote in it; here a back quote stands for the double quote
    ([quoted]). *)

From Stdlib Require Import Strings.Byte Strings.String.
From S2P Require Import Prelude GoBytes.

Local Open Scope nat_scope.

(** The document type, the title and the fonts. *)
Definition page_head : string :=
"<!DOCTYPE html>
<html lang=`en`>
<head>
    <meta charset=`UTF-8`>
    <meta name=`viewport` content=`width=device-width, initial-scale=1.0`>
    <title>HallownestKV — Distributed Engine Control Console</title>
    <link href=`https://fonts.googleapis.com/css2?family=Inter:wght@300;400;600;700&family=Fira+Code:wght@400;500&display=swap` rel=`stylesheet`>
".

(** The style sheet: colours, the header and the cards. *)
Definition page_style_base : string :=
"    <style>
        :root {
            --bg-dark: #090D16;
            --card-bg: rgba(15, 23, 42, 0.75);
            --card-border: rgba(56, 189, 248, 0.2);
            --primary-cyan: #38BDF8;
            --accent-blue: #2563EB;
            --accent-green: #10B981;
            --accent-red: #EF4444;
            --text-main: #F8FAFC;
            --text-muted: #94A3B8;
        }

        * { box-sizing: border-box; margin: 0; padding: 0; font-family: 'Inter', sans-serif; }
        body { background-color: var(--bg-dark); color: var(--text-main); min-height: 100vh; padding: 24px; background-image: radial-gradient(circle at 50% 0%, rgba(37, 99, 235, 0.15), transparent 70%); }
        .container { max-width: 1200px; margin: 0 auto; }
        
        header { display: flex; justify-content: space-between; align-items: center; padding-bottom: 24px; border-bottom: 1px solid var(--card-border); margin-bottom: 28px; }
        .logo { font-size: 24px; font-weight: 700; background: linear-gradient(135deg, #38BDF8, #818CF8); -webkit-background-clip: text; -webkit-text-fill-color: transparent; }
        .status-badge { background: rgba(16, 185, 129, 0.15); border: 1px solid var(--accent-green); color: var(--accent-green); padding: 6px 14px; border-radius: 20px; font-size: 13px; font-weight: 600; display: flex; align-items: center; gap: 8px; }
        .status-dot { width: 8px; height: 8px; background: var(--accent-green); border-radius: 50%; box-shadow: 0 0 10px var(--accent-green); }

        .grid { display: grid; grid-template-columns: repeat(auto-fit, minmax(240px, 1fr)); gap: 20px; margin-bottom: 28px; }
        .card { background: var(--card-bg); border: 1px solid var(--card-border); border-radius: 16px; padding: 20px; backdrop-filter: blur(12px); box-shadow: 0 8px 32px rgba(0,0,0,0.3); }
        .card h3 { font-size: 12px; text-transform: uppercase; color: var(--text-muted); letter-spacing: 1px; margin-bottom: 12px; }
        .card .metric { font-size: 26px; font-weight: 700; color: var(--primary-cyan); font-family: 'Fira Code', monospace; }

".

(** The style sheet: the console. *)
Definition page_style : string :=
"        .console-grid { display: grid; grid-template-columns: 1fr 1fr; gap: 24px; }
        @media (max-width: 900px) { .console-grid { grid-template-columns: 1fr; } }

        .form-group { margin-bottom: 16px; }
        label { display: block; font-size: 13px; color: var(--text-muted); margin-bottom: 6px; font-weight: 500; }
        input { width: 100%; padding: 12px 14px; background: rgba(2, 6, 23, 0.6); border: 1px solid var(--card-border); border-radius: 8px; color: var(--text-main); font-family: 'Fira Code', monospace; font-size: 14px; outline: none; }
        input:focus { border-color: var(--primary-cyan); box-shadow: 0 0 12px rgba(56, 189, 248, 0.3); }

        .btn-group { display: flex; gap: 12px; }
        button { flex: 1; padding: 12px; border: none; border-radius: 8px; font-weight: 600; cursor: pointer; transition: all 0.2s ease; }
        .btn-primary { background: linear-gradient(135deg, #2563EB, #38BDF8); color: white; }
        .btn-primary:hover { opacity: 0.9; transform: translateY(-1px); }
        .btn-danger { background: rgba(239, 68, 68, 0.2); border: 1px solid var(--accent-red); color: var(--accent-red); }
        .btn-danger:hover { background: rgba(239, 68, 68, 0.3); }

        .log-box { background: rgba(2, 6, 23, 0.8); border: 1px solid var(--card-border); border-radius: 12px; padding: 16px; height: 320px; overflow-y: auto; font-family: 'Fira Code', monospace; font-size: 12px; }
        .log-entry { margin-bottom: 8px; padding-bottom: 8px; border-bottom: 1px solid rgba(255,255,255,0.05); }
        .log-time { color: var(--text-muted); }
        .log-success { color: var(--accent-green); }
        .log-error { color: var(--accent-red); }
    </style>
</head>
".

(** The header and the status cards. *)
Definition page_cards : string :=
"<body>
    <div class=`container`>
        <header>
            <div>
                <div class=`logo`>HALLOWNEST-KV</div>
                <div style=`font-size: 12px; color: var(--text-muted);`>Distributed Hybrid Go/C++ Storage Engine Console</div>
            </div>
            <div class=`status-badge`>
                <div class=`status-dot`></div>
                <span id=`nodeStatus`>CLUSTER ACTIVE</span>
            </div>
        </header>

        <div class=`grid`>
            <div class=`card`>
                <h3>Node Role</h3>
                <div class=`metric` id=`nodeRole`>LEADER</div>
            </div>
            <div class=`card`>
                <h3>Raft Term</h3>
                <div class=`metric` id=`nodeTerm`>1</div>
            </div>
            <div class=`card`>
                <h3>MemTable Size</h3>
                <div class=`metric` id=`nodeMem`>0 B</div>
            </div>
            <div class=`card`>
                <h3>Network Ports</h3>
                <div style=`font-size: 14px; font-family: 'Fira Code'; color: var(--text-main);`>
                    gRPC: <span style=`color: var(--primary-cyan);`>:50051</span><br>REST: <span style=`color: var(--primary-cyan);`>:8080</span>
                </div>
            </div>
        </div>
".

(** The input form, the buttons and the log box. *)
Definition page_form : string :=
"
        <div class=`console-grid`>
            <div class=`card`>
                <h3 style=`margin-bottom: 16px; font-size: 14px; color: var(--text-main);`>Interactive Storage Console</h3>
                <div class=`form-group`>
                    <label>Target Key</label>
                    <input type=`text` id=`inputKey` placeholder=`e.g. geo_account_1001`>
                </div>
                <div class=`form-group`>
                    <label>Value Payload</label>
                    <input type=`text` id=`inputValue` placeholder=`e.g. balance_5000`>
                </div>
                <div class=`btn-group`>
                    <button class=`btn-primary` onclick=`doPut()`>PUT (Store)</button>
                    <button class=`btn-primary` style=`background: #4F46E5;` onclick=`doGet()`>GET (Query)</button>
                    <button class=`btn-danger` onclick=`doDelete()`>DELETE</button>
                </div>
            </div>

            <div class=`card`>
                <h3 style=`margin-bottom: 16px; font-size: 14px; color: var(--text-main);`>Live Operation Feed</h3>
                <div class=`log-box` id=`logBox`>
                    <div class=`log-entry`><span class=`log-time`>[Console]</span> HallownestKV Web Console Initialized. Ready for queries.</div>
                </div>
            </div>
        </div>
    </div>

".

(** The script: the status poll and the log. *)
Definition page_status_script : string :=
"    <script>
        async function updateStatus() {
            try {
                const res = await fetch('/status');
                const data = await res.json();
                document.getElementById('nodeRole').innerText = data.is_leader ? 'LEADER' : 'FOLLOWER';
                document.getElementById('nodeTerm').innerText = data.term;
                document.getElementById('nodeMem').innerText = data.memtable_bytes + ' B';
            } catch (e) {}
        }
        setInterval(updateStatus, 2000);
        updateStatus();

        function addLog(msg, isError) {
            const box = document.getElementById('logBox');
            const time = new Date().toLocaleTimeString();
            const entry = document.createElement('div');
            entry.className = 'log-entry';
            entry.innerHTML = '<span class=`log-time`>[' + time + ']</span> <span class=`' + (isError ? 'log-error' : 'log-success') + '`>' + msg + '</span>';
            box.prepend(entry);
        }
".

(** The script: the three buttons. *)
Definition page_script : string :=
"
        async function doPut() {
            const k = document.getElementById('inputKey').value;
            const v = document.getElementById('inputValue').value;
            if(!k) return alert('Key is required');
            try {
                const res = await fetch('/put', { method: 'POST', body: JSON.stringify({key: k, value: v}) });
                const data = await res.json();
                addLog('PUT `' + k + '` -> OK (Index: ' + data.index + ', Term: ' + data.term + ')', false);
            } catch (e) { addLog('PUT Error: ' + e.message, true); }
        }

        async function doGet() {
            const k = document.getElementById('inputKey').value;
            if(!k) return alert('Key is required');
            try {
                const res = await fetch('/get?key=' + encodeURIComponent(k));
                const data = await res.json();
                if(data.found) {
                    if(data.tombstone) addLog('GET `' + k + '` -> KEY DELETED (Tombstone)', true);
                    else {
                        document.getElementById('inputValue').value = data.value;
                        addLog('GET `' + k + '` -> VALUE: `' + data.value + '`', false);
                    }
                } else addLog('GET `' + k + '` -> 404 Key Not Found', true);
            } catch (e) { addLog('GET Error: ' + e.message, true); }
        }

        async function doDelete() {
            const k = document.getElementById('inputKey').value;
            if(!k) return alert('Key is required');
            try {
                const res = await fetch('/delete?key=' + encodeURIComponent(k), { method: 'DELETE' });
                const data = await res.json();
                addLog('DELETE `' + k + '` -> TOMBSTONE INSERTED (Index: ' + data.index + ')', false);
            } catch (e) { addLog('DELETE Error: ' + e.message, true); }
        }
    </script>
</body>
</html>".

Definition DashboardHTML : bytes :=
  quoted (page_head ++ page_style_base ++ page_style ++ page_cards ++ page_form
    ++ page_status_script ++ page_script).

(** ** Reading the markup *)

(** [s] cut at every [c]. *)
Fixpoint split_on (c : byte) (acc s : bytes) : list bytes :=
  match s with
  | [] => [reverse acc]
  | b :: s => if Byte.eqb b c then reverse acc :: split_on c [] s else split_on c (b :: acc) s
  end.

(** Tags and the texts between them, in turns; the page starts with a tag. *)
Fixpoint tokens (in_tag : bool) (acc s : bytes) : list bytes :=
  match s with
  | [] => [reverse acc]
  | b :: s =>
      if Byte.eqb b (if in_tag then ">" else "<") then reverse acc :: tokens (negb in_tag) [] s
      else tokens in_tag (b :: acc) s
  end.

Record element := mkElement {
  el_tag : bytes;
  el_attrs : list (bytes * bytes);
  el_text : bytes }.

(** The last word of the text before an attribute's value, without the sign. *)
Definition attr_name (s : bytes) : bytes :=
  default [] (head (split_on "=" [] (default [] (last (split_on " " [] s))))).

Fixpoint attrs (pieces : list bytes) : list (bytes * bytes) :=
  match pieces with
  | before :: value :: pieces => (attr_name before, value) :: attrs pieces
  | _ => []
  end.

Fixpoint elements_of (ts : list bytes) : list element :=
  match ts with
  | txt :: tag :: ts =>
      mkElement (default [] (head (split_on " " [] tag))) (attrs (split_on "034" [] tag))
        (default [] (head ts)) :: elements_of ts
  | _ => []
  end.

Definition attr (name : string) (e : element) : option bytes :=
  (list_find (λ p, p.1 = str name) (el_attrs e)) ≫= λ p, Some p.2.2.

(** ** Searching the text *)

Fixpoint has_prefix (p s : bytes) : bool :=
  match p, s with
  | [], _ => true
  | a :: p, b :: s => Byte.eqb a b && has_prefix p s
  | _, [] => false
  end.

(** The text before and after the first [p]. *)
Fixpoint cut (p acc s : bytes) : bytes * bytes :=
  if has_prefix p s then (reverse acc, drop (length p) s) else
  match s with
  | [] => (reverse acc, [])
  | b :: s => cut p (b :: acc) s
  end.

(** What stands between each [p] and the next [c]. *)
Fixpoint after_each (p : bytes) (c : byte) (s : bytes) : list bytes :=
  match s with
  | [] => []
  | _ :: s' =>
      (if has_prefix p s then [default [] (head (split_on c [] (drop (length p) s)))] else [])
      ++ after_each p c s'
  end.

(** The markup and the script of the page. *)
Definition page_markup : bytes := (cut (str "<script>") [] DashboardHTML).1.
Definition page_code : bytes := (cut (str "</script>") [] (cut (str "<script>") [] DashboardHTML).2).1.

Definition page_elements : list element := elements_of (tokens false [] page_markup).

Definition has_id (id : bytes) (e : element) : Prop := attr "id" e = Some id.

#[global] Instance has_id_dec id e : Decision (has_id id e).
Proof. unfold has_id. apply _. Defined.

(** [document.getElementById]. *)
Definition getElementById (id : bytes) : option element := head (filter (has_id id) page_elements).

(** The ids the script looks up, the functions it defines, and the handlers of
    the buttons. *)
Definition script_ids : list bytes := after_each (str "getElementById('") "'" page_code.
Definition script_functions : list bytes := after_each (str "function ") "(" page_code.
Definition page_handlers : list bytes := omap (attr "onclick") page_elements.
