(* ===== verification/Gateway.v ===== *)
(** * The HTTP gateway (cmd/hallownestd/main.go)

    The handlers of the daemon's HTTP port, from the request, its method, path,
    raw query and body, to the status and the bytes of the answer.  The JSON is
    that of Json and JsonText, the query string that of Url.  [net/http] itself,
    the headers and the text of the dashboard page are not part of the model,
    and the texts of the errors that the gateway never sends are a parameter. *)

From Stdlib Require Import Strings.Byte Strings.String.
From S2P Require Import Prelude GoBytes Flag KV Os Record Wal MemTable RaftNode Stagway Daemon.
From S2P Require Import Utf8 Json JsonText Url Page.

Local Open Scope Z_scope.

Record PutJSONRequest := mkPutJSONRequest { req_Key : bytes; req_Value : bytes }.

(** ** json.Unmarshal into a PutJSONRequest *)

Definition upper (b : byte) : byte := if in_range 97 122 b then byte_of (byte_val b - 32) else b.

(** The case folding of a rune.  Besides the letters' other case, the only runes
    that fold to an ASCII letter are the Kelvin sign and the long s; all others
    fold to runes that are in no field name, and are left as they are. *)
Definition fold_rune (g : bytes) : bytes :=
  match g with
  | [b] => [upper b]
  | [xe2; x84; xaa] => [x4b]
  | [xc5; xbf] => [x53]
  | _ => g
  end.

Definition foldName (s : bytes) : bytes := mjoin ((λ c, fold_rune (chunk_bytes c)) <$> chunks s).

(** Storing a JSON value in a string field: [null] leaves it, anything else that
    is not a string is an error, after which decoding goes on. *)
Definition literalStore (old : bytes) (v : json) : bytes * bool :=
  match v with
  | JStr s => (s, true)
  | JNull => (old, true)
  | _ => (old, false)
  end.

(** One member of the object; the flag is whether all was well so far. *)
Definition set_field (st : PutJSONRequest * bool) (f : bytes * json) : PutJSONRequest * bool :=
  let '(req, ok) := st in
  if bool_decide (foldName f.1 = str "KEY") then
    let '(k, good) := literalStore (req_Key req) f.2 in (mkPutJSONRequest k (req_Value req), ok && good)
  else if bool_decide (foldName f.1 = str "VALUE") then
    let '(v, good) := literalStore (req_Value req) f.2 in (mkPutJSONRequest (req_Key req) v, ok && good)
  else st.

Definition json_Unmarshal (data : bytes) : go (PutJSONRequest + error) :=
  let* doc := parse data in
  Ret (match doc with
       | None => inr (Errorf "json: syntax error")
       | Some JNull => inl (mkPutJSONRequest [] [])
       | Some (JObj fs) =>
           let '(req, ok) := foldl set_field (mkPutJSONRequest [] [], true) fs in
           if ok then inl req else inr (Errorf "json: cannot unmarshal into Go value")
       | Some _ => inr (Errorf "json: cannot unmarshal into Go value")
       end).

(** ** Responses *)

(** The texts of the responses, [fmt.Sprintf] with its arguments. *)
Inductive message :=
| NoMessage
| ErrorText (e : error)
| MethodNotAllowed
| BodyUnreadable
| InvalidJSON
| KeyParamRequired
| StoredKey (key : bytes) (isLeader : bool)
| InsertedTombstone (key : bytes) (isLeader : bool)
| KeyNotFound404
| KeyDeletedText.

Record ResponseJSON := mkResponseJSON {
  Success : bool;
  r_Key : bytes;
  r_Value : bytes;
  Found : bool;
  r_Tombstone : bool;
  r_Index : Z;
  r_Term : Z;
  Message : message }.

Definition failure (m : message) : ResponseJSON := mkResponseJSON false [] [] false false 0 0 m.

Definition StatusOK : Z := 200.
Definition StatusBadRequest : Z := 400.
Definition StatusNotFound : Z := 404.
Definition StatusMethodNotAllowed : Z := 405.
Definition StatusInternalServerError : Z := 500.

(** ** The handlers *)

Definition http_put (s : node_server) (method : string) (body : bytes + error)
    : IO (node_server * list rpc * (Z * ResponseJSON)) :=
  if negb (bool_decide (method = "POST"%string))
  then retM (s, [], (StatusMethodNotAllowed, failure MethodNotAllowed)) else
  match body with
  | inr _ => retM (s, [], (StatusBadRequest, failure BodyUnreadable))
  | inl body =>
      let! r := liftM (json_Unmarshal body) in
      match r with
      | inr _ => retM (s, [], (StatusBadRequest, failure InvalidJSON))
      | inl req =>
          if bool_decide (req_Key req = [])
          then retM (s, [], (StatusBadRequest, failure InvalidJSON)) else
          let! (s, ms, (idx, term, isLeader, err)) := PutGeo s (req_Key req) (req_Value req) in
          match err with
          | Some e => retM (s, ms, (StatusInternalServerError, failure (ErrorText e)))
          | None =>
              retM (s, ms, (StatusOK,
                mkResponseJSON true (req_Key req) (req_Value req) false false idx term
                  (StoredKey (req_Key req) isLeader)))
          end
      end
  end.

Definition http_get (s : node_server) (key : bytes) : go (Z * ResponseJSON) :=
  if bool_decide (key = []) then Ret (StatusBadRequest, failure KeyParamRequired) else
  let* (val, tombstone, found, err) := GetGeo s key in
  match err with
  | Some e => Ret (StatusInternalServerError, failure (ErrorText e))
  | None =>
      if negb found then
        Ret (StatusNotFound, mkResponseJSON false key [] false false 0 0 KeyNotFound404)
      else if tombstone : bool then
        Ret (StatusOK, mkResponseJSON false key [] true true 0 0 KeyDeletedText)
      else Ret (StatusOK, mkResponseJSON true key val true false 0 0 NoMessage)
  end.

Definition http_delete (s : node_server) (key : bytes)
    : IO (node_server * list rpc * (Z * ResponseJSON)) :=
  if bool_decide (key = [])
  then retM (s, [], (StatusBadRequest, failure KeyParamRequired)) else
  let! (s, ms, (idx, term, isLeader, err)) := FocusTombstone s key in
  match err with
  | Some e => retM (s, ms, (StatusInternalServerError, failure (ErrorText e)))
  | None =>
      retM (s, ms, (StatusOK,
        mkResponseJSON true key [] false false idx term (InsertedTombstone key isLeader)))
  end.
(** The fields of /status that depend on the node: term, leadership, bytes. *)
Definition http_status (s : node_server) : go (Z * bool * Z) :=
  let* raft := opt_go (ss_raft s) in
  let* m := opt_go (ss_memTable s) in
  Ret ((GetState raft).1, (GetState raft).2, SizeBytes m).

(** ** The routes *)

Record http_request := mkRequest {
  rq_Method : string;
  rq_Path : string;
  rq_RawQuery : bytes;
  rq_Body : bytes + error }.

(** [r.URL.Query().Get("key")]. *)
Definition key_param (rq : http_request) : bytes := Query_Get (rq_RawQuery rq) (str "key").

Record status_report := mkStatus {
  st_node_id : Z;
  st_term : Z;
  st_is_leader : bool;
  st_grpc_port : Z;
  st_http_port : Z;
  st_memtable_bytes : Z }.

Inductive http_response :=
| Dashboard
| PageNotFound
| Reply (status : Z) (body : ResponseJSON)
| StatusReply (r : status_report).

(** The status a response is sent with. *)
Definition response_status (r : http_response) : Z :=
  match r with
  | Dashboard | StatusReply _ => StatusOK
  | PageNotFound => StatusNotFound
  | Reply st _ => st
  end.

(** The mux, for a path it has cleaned: the named routes, and "/" for all the
    others. *)
Definition serve_http (port httpPort : Z)
    (s : node_server) (rq : http_request) : IO (node_server * list rpc * http_response) :=
  if bool_decide (rq_Path rq = "/put"%string) then
    let! (s, ms, (st, r)) := http_put s (rq_Method rq) (rq_Body rq) in
    retM (s, ms, Reply st r)
  else if bool_decide (rq_Path rq = "/get"%string) then
    let! (st, r) := liftM (http_get s (key_param rq)) in
    retM (s, [], Reply st r)
  else if bool_decide (rq_Path rq = "/delete"%string) then
    let! (s, ms, (st, r)) := http_delete s (key_param rq) in
    retM (s, ms, Reply st r)
  else if bool_decide (rq_Path rq = "/status"%string) then
    let! (term, isLeader, size) := liftM (http_status s) in
    retM (s, [], StatusReply (mkStatus (NodeID (ss_opts s)) term isLeader port httpPort size))
  else if bool_decide (rq_Path rq = "/"%string) then retM (s, [], Dashboard)
  else retM (s, [], PageNotFound).

(** ** The bodies *)

Section bodies.
Context (os_text : error → bytes).

(** [err.Error()]. *)
Definition Error (e : error) : bytes :=
  match e with
  | ErrServerClosed => str "stagway: server is closed"
  | ErrNotLeader => str "stagway: node is not raft leader"
  | e => os_text e
  end.

(** [%v] of a bool. *)
Definition Sprintf_bool (b : bool) : bytes := str (if b then "true" else "false").

Definition message_text (m : message) : bytes :=
  match m with
  | NoMessage => []
  | ErrorText e => Error e
  | MethodNotAllowed => str "Method not allowed, use POST"
  | BodyUnreadable => str "Failed reading request body"
  | InvalidJSON => str "Invalid JSON, 'key' is required"
  | KeyParamRequired => str "Query parameter 'key' is required"
  | StoredKey k l => str "Stored key '" ++ k ++ str "' via Raft Leader=" ++ Sprintf_bool l
  | InsertedTombstone k l =>
      str "Inserted tombstone for key '" ++ k ++ str "' via Raft Leader=" ++ Sprintf_bool l
  | KeyNotFound404 => str "404 Key Not Found"
  | KeyDeletedText => str "Key Deleted (Tombstone)"
  end.

(** The messages that are sent with [http.Error], which ends the line. *)
Definition by_http_Error (m : message) : bool :=
  match m with
  | MethodNotAllowed | BodyUnreadable | InvalidJSON | KeyParamRequired => true
  | _ => false
  end.

(** A field tagged [omitempty]. *)
Definition omitempty (name : string) (v : scalar) : list (bytes * scalar) :=
  match v with
  | SStr [] | SBool false | SInt 0 => []
  | _ => [(str name, v)]
  end.

Definition response_fields (r : ResponseJSON) : list (bytes * scalar) :=
  (str "success", SBool (Success r))
  :: omitempty "key" (SStr (r_Key r)) ++ omitempty "value" (SStr (r_Value r))
  ++ omitempty "found" (SBool (Found r)) ++ omitempty "tombstone" (SBool (r_Tombstone r))
  ++ omitempty "index" (SInt (r_Index r)) ++ omitempty "term" (SInt (r_Term r))
  ++ omitempty "message" (SStr (message_text (Message r))).

(** The keys of a map are written in order. *)
Definition status_fields (st : status_report) : list (bytes * scalar) :=
  [(str "grpc_port", SInt (st_grpc_port st)); (str "http_port", SInt (st_http_port st));
   (str "is_leader", SBool (st_is_leader st)); (str "memtable_bytes", SInt (st_memtable_bytes st));
   (str "node_id", SInt (st_node_id st)); (str "status", SStr (str "RUNNING"));
   (str "term", SInt (st_term st))].

(** The bytes of the answer. *)
Definition response_body (r : http_response) : bytes :=
  match r with
  | Dashboard => DashboardHTML
  | PageNotFound => str "404 page not found" ++ [x0a]
  | Reply _ b =>
      object_text GoMarshal (response_fields b) ++ if by_http_Error (Message b) then [x0a] else []
  | StatusReply st => object_text GoMarshal (status_fields st)
  end.
End bodies.
