(* ===== verification/GatewaySpec.v ===== *)
(** * The HTTP gateway on the wire

    The gateway refines the abstract node of StagwaySpec; a value that is put
    with a JSON body and fetched with a query string comes back in the bytes of
    the answer, if it is UTF-8. *)

From Stdlib Require Import Strings.Byte Strings.String.
From S2P Require Import Prelude GoBytes Flag KV Os Record Wal WalSpec MemTable MemTableSpec RaftNode.
From S2P Require Import RaftInv RaftLive RaftClaims Stagway Cli StagwaySpec StagwayClaims Daemon DaemonSpec.
From S2P Require Import Utf8 Json JsonText Url Gateway.

Local Open Scope Z_scope.

(** ** Request bodies *)

(** The body of a put, as the page or a Go client writes it. *)
Definition put_body (wr : writer) (k v : bytes) : bytes :=
  object_text wr [(str "key", SStr k); (str "value", SStr v)].

(** Decoding a body always ends. *)
Lemma json_Unmarshal_returns body : ∃ r, json_Unmarshal body = Ret r.
Proof. unfold json_Unmarshal. destruct (parse_returns body) as [r ->]. cbn. eauto. Qed.

(** A written body is decoded to its key and value, up to bytes that are not
    UTF-8. *)
Lemma json_Unmarshal_put_body wr k v :
  json_Unmarshal (put_body wr k v) = Ret (inl (mkPutJSONRequest (to_valid k) (to_valid v))).
Proof.
  unfold json_Unmarshal, put_body. rewrite <-(app_nil_r (object_text _ _)), parse_object by done. done.
Qed.

Lemma json_Unmarshal_valid wr k v :
  valid_utf8 k = true → valid_utf8 v = true →
  json_Unmarshal (put_body wr k v) = Ret (inl (mkPutJSONRequest k v)).
Proof. intros Hk Hv. by rewrite json_Unmarshal_put_body, !to_valid_id. Qed.

(** ** Answers *)

(** The body of a JSON answer holds its fields. *)
Lemma parse_reply os st b :
  parse (response_body os (Reply st b)) = Ret (Some (JObj (field_json <$> response_fields os b))).
Proof. apply parse_object. by destruct (by_http_Error _). Qed.

Lemma parse_status os r :
  parse (response_body os (StatusReply r)) = Ret (Some (JObj (field_json <$> status_fields r))).
Proof. cbn [response_body]. rewrite <-(app_nil_r (object_text _ _)). by apply parse_object. Qed.

(** The response to a lookup. *)
Definition get_response (key : bytes) (a : bytes * bool * bool) : http_response :=
  let '(v, t, found) := a in
  if found then
    if t then Reply StatusOK (mkResponseJSON false key [] true true 0 0 KeyDeletedText)
    else Reply StatusOK (mkResponseJSON true key v true false 0 0 NoMessage)
  else Reply StatusNotFound (mkResponseJSON false key [] false false 0 0 KeyNotFound404).

(** ** The routes *)

Section routes.
Context (port httpPort : Z).

Lemma serve_put s q b :
  serve_http port httpPort s (mkRequest "POST" "/put" q (inl b)) =
    (let! (s, ms, (st, r)) := http_put s "POST" (inl b) in retM (s, ms, Reply st r)).
Proof. done. Qed.

Lemma serve_put_geo s w body q k v s' ms w' idx term isLeader err :
  json_Unmarshal body = Ret (inl (mkPutJSONRequest k v)) → k ≠ [] →
  PutGeo s k v w = Ret ((s', ms, (idx, term, isLeader, err)), w') →
  serve_http port httpPort s (mkRequest "POST" "/put" q (inl body)) w =
    Ret ((s', ms, match err with
                  | Some e => Reply StatusInternalServerError (failure (ErrorText e))
                  | None => Reply StatusOK (mkResponseJSON true k v false false idx term (StoredKey k isLeader))
                  end), w').
Proof.
  intros Hj Hk E. rewrite serve_put. unfold http_put. rewrite bool_decide_eq_true_2 by done. cbn [negb].
  unfold bindM, liftM. rewrite Hj. cbn [req_Key req_Value]. rewrite bool_decide_eq_false_2 by done.
  rewrite E. by destruct err.
Qed.

Lemma serve_get s w n m q b :
  refines s w n → Query_Get q (str "key") ≠ [] →
  serve_http port httpPort s (mkRequest m "/get" q b) w =
    Ret ((s, [], get_response (Query_Get q (str "key")) (lookup_answer (sp_kv n !! Query_Get q (str "key")))), w).
Proof.
  intros Hrf Hk. unfold serve_http, http_get, key_param. cbn [rq_Path rq_RawQuery].
  rewrite (bool_decide_eq_false_2 (_ = "/put"%string)), (bool_decide_eq_true_2 (_ = "/get"%string)) by done.
  rewrite bool_decide_eq_false_2 by done. rewrite (GetGeo_sim s w n _ Hrf).
  by destruct (lookup_answer _) as [[v t] []]; destruct t.
Qed.

Lemma serve_delete_geo s w m q b k s' ms w' idx term isLeader err :
  Query_Get q (str "key") = k → k ≠ [] →
  FocusTombstone s k w = Ret ((s', ms, (idx, term, isLeader, err)), w') →
  serve_http port httpPort s (mkRequest m "/delete" q b) w =
    Ret ((s', ms, match err with
                  | Some e => Reply StatusInternalServerError (failure (ErrorText e))
                  | None => Reply StatusOK (mkResponseJSON true k [] false false idx term (InsertedTombstone k isLeader))
                  end), w').
Proof.
  intros <- Hk E. unfold serve_http, http_delete, key_param. cbn [rq_Path rq_RawQuery].
  do 2 rewrite bool_decide_eq_false_2 by done.
  rewrite bool_decide_eq_true_2 by done. rewrite bool_decide_eq_false_2 by done.
  unfold bindM. rewrite E. by destruct err.
Qed.
End routes.

(** C23.  The HTTP gateway refines the same abstract node as the binary
    protocol: a POST whose body decodes to a non-empty key, a lookup and a
    deletion by query parameter act as the put, get and delete of the abstract
    node, with status 200, or 404 for an absent key; a put by any other method,
    with an undecodable body or with a body that has no key, and a lookup or a
    deletion without a key are answered with their 4xx status and change
    nothing. *)
Theorem gateway_refines_node port httpPort (s : node_server) w n key value body q m b :
  refines s w n → key ≠ [] → fits key value →
  json_Unmarshal body = Ret (inl (mkPutJSONRequest key value)) → Query_Get q (str "key") = key →
  let serve := serve_http port httpPort s in
  (∃ s' ms w' idx term,
     serve (mkRequest "POST" "/put" [] (inl body)) w
       = Ret ((s', ms, Reply StatusOK (mkResponseJSON true key value false false idx term
                                         (StoredKey key true))), w')
     ∧ (spec_step n (RPut key value)).2 = Written idx term
     ∧ refines s' w' (spec_step n (RPut key value)).1)
  ∧ serve (mkRequest m "/get" q b) w
      = Ret ((s, [], get_response key (lookup_answer (sp_kv n !! key))), w)
  ∧ (∃ s' ms w' idx term,
       serve (mkRequest m "/delete" q b) w
         = Ret ((s', ms, Reply StatusOK (mkResponseJSON true key [] false false idx term
                                           (InsertedTombstone key true))), w')
       ∧ (spec_step n (RDelete key)).2 = Written idx term
       ∧ refines s' w' (spec_step n (RDelete key)).1)
  ∧ (m ≠ "POST"%string →
     serve (mkRequest m "/put" q b) w
       = Ret ((s, [], Reply StatusMethodNotAllowed (failure MethodNotAllowed)), w))
  ∧ (∀ bad, (∀ k v, json_Unmarshal bad = Ret (inl (mkPutJSONRequest k v)) → k = []) →
     serve (mkRequest "POST" "/put" q (inl bad)) w
       = Ret ((s, [], Reply StatusBadRequest (failure InvalidJSON)), w))
  ∧ (∀ q' path, Query_Get q' (str "key") = [] → path = "/get"%string ∨ path = "/delete"%string →
     serve (mkRequest m path q' b) w
       = Ret ((s, [], Reply StatusBadRequest (failure KeyParamRequired)), w)).
Proof.
  intros Hrf Hk Hf Hjson Hq serve. unfold serve.
  assert (fits key []) as Hf' by (unfold fits in *; rewrite len_nil; pose proof (len_nonneg value); lia).
  split_and!.
  - destruct (write_op_sim s w n key value false Hrf Hf) as (s' & ms & w' & idx & term & E & Hres & Hrf').
    exists s', ms, w', idx, term. split; [|done].
    exact (serve_put_geo port httpPort s w body [] key value _ _ _ _ _ _ None Hjson Hk E).
  - rewrite (serve_get port httpPort s w n m q b Hrf); by rewrite Hq.
  - destruct (write_op_sim s w n key [] true Hrf Hf') as (s' & ms & w' & idx & term & E & Hres & Hrf').
    exists s', ms, w', idx, term. split; [|done].
    exact (serve_delete_geo port httpPort s w m q b key _ _ _ _ _ _ None Hq Hk E).
  - intros Hm. unfold serve_http, http_put. cbn [rq_Path rq_Method]. rewrite bool_decide_eq_true_2 by done.
    by rewrite bool_decide_eq_false_2.
  - intros bad Hbad. rewrite serve_put. unfold http_put. rewrite bool_decide_eq_true_2 by done. cbn [negb].
    destruct (json_Unmarshal_returns bad) as [[[k v]|e] E]; unfold bindM, liftM; rewrite E; [|done].
    cbn [req_Key]. by rewrite bool_decide_eq_true_2 by by eapply Hbad.
  - intros q' path Hq' [-> | ->]; unfold serve_http, http_get, http_delete, key_param; cbn [rq_Path rq_RawQuery];
      rewrite Hq'; done.
Qed.

Lemma gateway_refines_node_witness :
  serve_http 50051 8080 server0 (mkRequest "GET" "/get" (str "x=1&key=g%65o") (inl [])) world0
    = Ret ((server0, [], Reply StatusNotFound
             (mkResponseJSON false (str "geo") [] false false 0 0 KeyNotFound404)), world0).
Proof.
  exact (proj1 (proj2 (gateway_refines_node 50051 8080 server0 world0 spec0 (str "geo") (str "500")
    (put_body JSStringify (str "geo") (str "500")) (str "x=1&key=g%65o") "GET" (inl [])
    server0_refines ltac:(discriminate) ltac:(done) eq_refl eq_refl))).
Defined.

(** ** Round trip through the bytes *)

(** The query with which the page asks for a key. *)
Definition key_query (k : bytes) : bytes := fetch_query (str "key=" ++ encodeURIComponent k).

(** The fields of the answer to a lookup that finds a live value. *)
Definition found_fields (k v : bytes) : list (bytes * json) :=
  [(str "success", JBool true); (str "key", JStr k)]
  ++ (if bool_decide (v = []) then [] else [(str "value", JStr v)]) ++ [(str "found", JBool true)].

Lemma found_fields_ok os k v :
  k ≠ [] →
  field_json <$> response_fields os (mkResponseJSON true k v true false 0 0 NoMessage)
    = [(str "success", JBool true); (str "key", JStr (to_valid k))]
      ++ (if bool_decide (v = []) then [] else [(str "value", JStr (to_valid v))]) ++ [(str "found", JBool true)].
Proof. by destruct k, v. Qed.

(** The value of a key that was just put. *)
Lemma sp_kv_put n k v : sp_kv (spec_step n (RPut k v)).1 !! k = Some (v, false).
Proof.
  unfold spec_step, spec_write. destruct (sp_raft n) as [[idx term]|]; cbn [fst];
    unfold sp_kv, apply_ops; cbn [sp_log]; rewrite foldl_app; apply lookup_insert_eq.
Qed.

(** C22.  What is put over HTTP is what is fetched over HTTP, byte for byte:
    for any key that is not empty and any value, both UTF-8 and small enough for
    one log record, on a server that refines an abstract node, a put whose JSON body was written by a
    browser or by Go's encoder, whatever has to be escaped in it, is stored as
    that key and value, and a lookup with the key percent-encoded in the query
    is answered with a JSON text that a parser reads as an object with the key
    and the value (left out when it is empty); the answer to the put carries
    the index and the term of the abstract node. *)
Theorem gateway_put_get os port httpPort (s : node_server) w n wr k v :
  refines s w n → valid_utf8 k = true → valid_utf8 v = true → k ≠ [] → fits k v →
  ∃ s' ms w' r1 r2 idx term,
    serve_http port httpPort s (mkRequest "POST" "/put" [] (inl (put_body wr k v))) w
      = Ret ((s', ms, r1), w')
    ∧ serve_http port httpPort s' (mkRequest "GET" "/get" (key_query k) (inl [])) w'
      = Ret ((s', [], r2), w')
    ∧ refines s' w' (spec_step n (RPut k v)).1
    ∧ (spec_step n (RPut k v)).2 = Written idx term
    ∧ parse (response_body os r1) = Ret (Some (JObj (field_json <$>
        response_fields os (mkResponseJSON true k v false false idx term (StoredKey k true)))))
    ∧ parse (response_body os r2) = Ret (Some (JObj (found_fields k v))).
Proof.
  intros Hrf Hvk Hvv Hk Hf.
  destruct (write_op_sim s w n k v false Hrf Hf) as (s' & ms & w' & idx & term & E & Hres & Hrf').
  change (spec_write n (k, v, false)) with (spec_step n (RPut k v)) in *.
  pose proof (serve_put_geo port httpPort s w _ [] k v _ _ _ _ _ _ None (json_Unmarshal_valid wr k v Hvk Hvv) Hk E) as Hp.
  pose proof (serve_get port httpPort s' w' _ "GET" (key_query k) (inl []) Hrf') as Hg.
  unfold key_query in *. rewrite query_round_trip, sp_kv_put in Hg. specialize (Hg Hk). cbn [lookup_answer get_response] in Hg.
  pose proof (parse_reply os StatusOK (mkResponseJSON true k v false false idx term (StoredKey k true))) as Hp1.
  pose proof (parse_reply os StatusOK (mkResponseJSON true k v true false 0 0 NoMessage)) as Hp2.
  rewrite found_fields_ok, !to_valid_id in Hp2 by done.
  do 3 eexists. exists (Reply StatusOK (mkResponseJSON true k v false false idx term (StoredKey k true))).
  exists (Reply StatusOK (mkResponseJSON true k v true false 0 0 NoMessage)), idx, term.
  split_and!; [exact Hp|exact Hg|exact Hrf'|exact Hres|done..].
Qed.

Lemma gateway_put_get_witness :
  ∃ s' ms w' r1 r2,
    serve_http 50051 8080 server0
      (mkRequest "POST" "/put" [] (inl (put_body JSStringify (str "a&b=c%") (str "x<y\z")))) world0
      = Ret ((s', ms, r1), w')
    ∧ serve_http 50051 8080 s' (mkRequest "GET" "/get" (str "key=a%26b%3Dc%25") (inl [])) w'
      = Ret ((s', [], r2), w')
    ∧ parse (response_body (λ _, []) r2) = Ret (Some (JObj [(str "success", JBool true); (str "key", JStr (str "a&b=c%"));
                                  (str "value", JStr (str "x<y\z")); (str "found", JBool true)])).
Proof.
  destruct (gateway_put_get (λ _, []) 50051 8080 server0 world0 spec0 JSStringify (str "a&b=c%") (str "x<y\z"))
    as (s' & ms & w' & r1 & r2 & idx & term & E1 & E2 & _ & _ & _ & Hp2).
  - exact server0_refines.
  - reflexivity.
  - reflexivity.
  - discriminate.
  - done.
  - exists s', ms, w', r1, r2. split; [exact E1|]. split; [exact E2|exact Hp2].
Defined.

(** A value that is not UTF-8, which the binary protocol stores as it is, is
    not what the gateway answers with: the bytes that do not belong to a rune
    are replaced, so the answer differs from the stored value. *)
Theorem gateway_alters_binary_values os port httpPort (s : node_server) w n k v :
  refines s w n → valid_utf8 k = true → k ≠ [] → sp_kv n !! k = Some (v, false) → valid_utf8 v = false →
  GetGeo s k = Ret (v, false, true, None)
  ∧ ∃ r, serve_http port httpPort s (mkRequest "GET" "/get" (key_query k) (inl [])) w = Ret ((s, [], r), w)
      ∧ parse (response_body os r) = Ret (Some (JObj (found_fields k (to_valid v)))) ∧ to_valid v ≠ v.
Proof.
  intros Hrf Hvk Hk Hl Hv. split; [by rewrite (GetGeo_sim s w n k Hrf), Hl|].
  pose proof (serve_get port httpPort s w n "GET" (key_query k) (inl []) Hrf) as Hg.
  unfold key_query in *. rewrite query_round_trip, Hl in Hg. specialize (Hg Hk).
  pose proof (parse_reply os StatusOK (mkResponseJSON true k v true false 0 0 NoMessage)) as Hp.
  rewrite found_fields_ok, (to_valid_id k) in Hp by done.
  exists (Reply StatusOK (mkResponseJSON true k v true false 0 0 NoMessage)).
  split_and!; [exact Hg| |by apply to_valid_invalid].
  rewrite Hp. unfold found_fields. rewrite !bool_decide_eq_false_2; [done|..]; [|by intros ->].
  intros E. apply to_valid_nil in E as ->. done.
Qed.

(** The errors that a handler can be given: the texts of all others are never
    sent. *)
Lemma write_op_errors (s : node_server) k v t w s' ms r w' :
  write_op s k v t w = Ret ((s', ms, r), w') →
  r.2 = None ∨ r.2 = Some ErrServerClosed ∨ r.2 = Some ErrNotLeader.
Proof.
  unfold write_op. destruct (ss_running s); cbn [negb]; [|intros [= <- <- <- <-]; auto].
  unfold bindM, liftM. destruct (submit_op s k v t) as [[[s1 ms1] [[idx term] isLeader]]| |]; try done.
  destruct isLeader; cbn [negb]; [|intros [= <- <- <- <-]; auto].
  destruct (log_op s1 k v t w) as [[s2 w2]| |]; try done.
  destruct (mem_op s2 k v t) as [s3| |]; try done. intros [= <- <- <- <-]; auto.
Qed.
