(* ===== verification/Dashboard.v ===== *)
(** * The web console (the script in DashboardHTML of cmd/hallownestd/main.go)

    The functions of the page's script, with the state of the page they read
    and write: the input fields, the log box and the status cards.  A button
    press sends one request to the gateway ([Gateway.serve_http]), with a body
    written by [JSON.stringify] or a query written by [encodeURIComponent], and
    handles the answer, parsed from its bytes; [undefined] is [None].  The
    contents of the input fields are their UTF-8 bytes, and a number of an
    answer is its text, which is what the page shows for the integers that a
    double represents (below 2^53).  The page itself is in Page; the theorems at
    the end relate its markup to the script. *)

From Stdlib Require Import Strings.Byte Strings.String.
From S2P Require Import Prelude GoBytes Flag KV Os Record Wal WalSpec MemTable MemTableSpec RaftNode.
From S2P Require Import RaftInv RaftLive RaftClaims Stagway Cli StagwaySpec StagwayClaims Daemon DaemonSpec.
From S2P Require Import Utf8 Json JsonText Url Page Gateway GatewaySpec.

Local Open Scope Z_scope.

(** ** The page *)

Inductive log_msg :=
| LogPutOK (key : bytes) (index term : option bytes)
| LogPutError
| LogGetDeleted (key : bytes)
| LogGetValue (key : bytes) (value : option bytes)
| LogGetNotFound (key : bytes)
| LogGetError
| LogTombstone (key : bytes) (index : option bytes)
| LogDeleteError.

Definition undefined : bytes := str "undefined".

(** The text of a message; [e] is [e.message]. *)
Definition log_text (e : bytes) (m : log_msg) : bytes :=
  let quoted k := [quote] ++ k ++ [quote] in
  match m with
  | LogPutOK k i t =>
      str "PUT " ++ quoted k ++ str " -> OK (Index: " ++ default undefined i ++ str ", Term: "
      ++ default undefined t ++ str ")"
  | LogPutError => str "PUT Error: " ++ e
  | LogGetDeleted k => str "GET " ++ quoted k ++ str " -> KEY DELETED (Tombstone)"
  | LogGetValue k v => str "GET " ++ quoted k ++ str " -> VALUE: " ++ quoted (default undefined v)
  | LogGetNotFound k => str "GET " ++ quoted k ++ str " -> 404 Key Not Found"
  | LogGetError => str "GET Error: " ++ e
  | LogTombstone k i =>
      str "DELETE " ++ quoted k ++ str " -> TOMBSTONE INSERTED (Index: " ++ default undefined i ++ str ")"
  | LogDeleteError => str "DELETE Error: " ++ e
  end.

(** The markup [addLog] assigns to [innerHTML]; [time] is the local time. *)
Definition log_html (time : bytes) (e : bytes) (m : log_msg) (isError : bool) : bytes :=
  quoted "<span class=`log-time`>[" ++ time ++ quoted "]</span> <span class=`"
  ++ str (if isError then "log-error" else "log-success") ++ quoted "`>" ++ log_text e m ++ str "</span>".

Record console := mkConsole {
  inputValue : bytes;
  logBox : list (log_msg * bool);      (* newest first; whether it is an error *)
  alerts : nat;                        (* dialogs that a key is required *)
  nodeRole : string;
  nodeTerm : bytes;
  nodeMem : bytes }.

Definition addLog (c : console) (msg : log_msg) (isError : bool) : console :=
  mkConsole (inputValue c) ((msg, isError) :: logBox c) (alerts c) (nodeRole c) (nodeTerm c) (nodeMem c).

Definition set_input (c : console) (v : bytes) : console :=
  mkConsole v (logBox c) (alerts c) (nodeRole c) (nodeTerm c) (nodeMem c).

Definition alert (c : console) : console :=
  mkConsole (inputValue c) (logBox c) (S (alerts c)) (nodeRole c) (nodeTerm c) (nodeMem c).

(** ** Answers as the script sees them *)

Record js_data := mkData {
  d_index : option bytes;
  d_term : option bytes;
  d_value : option bytes;
  d_found : bool;
  d_tombstone : bool;
  d_is_leader : bool;
  d_memtable_bytes : option bytes }.

(** A property of a parsed object: the last member of that name. *)
Fixpoint js_get (fs : list (bytes * json)) (name : bytes) (acc : option json) : option json :=
  match fs with
  | [] => acc
  | (k, v) :: fs => js_get fs name (if bool_decide (k = name) then Some v else acc)
  end.

(** How the gateway's members are read: numbers and strings as text, booleans
    as conditions. *)
Definition js_text (v : option json) : option bytes :=
  match v with Some (JStr s) | Some (JNum s) => Some s | _ => None end.
Definition js_true (v : option json) : bool := match v with Some (JBool b) => b | _ => false end.

Definition js_object (fs : list (bytes * json)) : js_data :=
  let get name := js_get fs (str name) None in
  mkData (js_text (get "index"%string)) (js_text (get "term"%string)) (js_text (get "value"%string))
    (js_true (get "found"%string)) (js_true (get "tombstone"%string)) (js_true (get "is_leader"%string))
    (js_text (get "memtable_bytes"%string)).

(** [res.json()], [None] when it is rejected.  The page itself is not JSON; the
    members of [null] cannot be read, which is handled as a rejection, and any
    other value that is no object has none of them. *)
Definition res_json (os_text : error → bytes) (r : http_response) : option js_data :=
  match parse (response_body os_text r) with
  | Ret (Some (JObj fs)) => Some (js_object fs)
  | Ret (Some JNull) => None
  | Ret (Some _) => Some (js_object [])
  | _ => None
  end.

(** What a handler does with the answer; [None] when [fetch] or [res.json()]
    is rejected. *)
Definition updateStatus (c : console) (data : option js_data) : console :=
  match data with
  | Some d =>
      mkConsole (inputValue c) (logBox c) (alerts c)
        (if d_is_leader d then "LEADER" else "FOLLOWER") (default undefined (d_term d))
        (default undefined (d_memtable_bytes d) ++ str " B")
  | None => c
  end.

Definition put_done (c : console) (k : bytes) (data : option js_data) : console :=
  match data with
  | Some d => addLog c (LogPutOK k (d_index d) (d_term d)) false
  | None => addLog c LogPutError true
  end.

Definition get_done (c : console) (k : bytes) (data : option js_data) : console :=
  match data with
  | Some d =>
      if d_found d then
        if d_tombstone d then addLog c (LogGetDeleted k) true
        else addLog (set_input c (default undefined (d_value d))) (LogGetValue k (d_value d)) false
      else addLog c (LogGetNotFound k) true
  | None => addLog c LogGetError true
  end.

Definition delete_done (c : console) (k : bytes) (data : option js_data) : console :=
  match data with
  | Some d => addLog c (LogTombstone k (d_index d)) false
  | None => addLog c LogDeleteError true
  end.

(** ** The buttons *)

Section buttons.
Context (os_text : error → bytes) (port httpPort : Z).

(** Sending a request to the gateway and handling the decoded answer. *)
Definition fetch_json (s : node_server) (rq : http_request) (handle : option js_data → console)
    : IO (node_server * list rpc * console) :=
  let! (s, ms, r) := serve_http port httpPort s rq in
  retM (s, ms, handle (res_json os_text r)).

Definition doPut (s : node_server) (c : console) (k v : bytes)
    : IO (node_server * list rpc * console) :=
  if bool_decide (k = []) then retM (s, [], alert c) else
  fetch_json s (mkRequest "POST" "/put" [] (inl (put_body JSStringify k v))) (put_done c k).

Definition doGet (s : node_server) (c : console) (k : bytes)
    : IO (node_server * list rpc * console) :=
  if bool_decide (k = []) then retM (s, [], alert c) else
  fetch_json s (mkRequest "GET" "/get" (key_query k) (inl [])) (get_done c k).

Definition doDelete (s : node_server) (c : console) (k : bytes)
    : IO (node_server * list rpc * console) :=
  if bool_decide (k = []) then retM (s, [], alert c) else
  fetch_json s (mkRequest "DELETE" "/delete" (key_query k) (inl [])) (delete_done c k).

Definition pollStatus (s : node_server) (c : console) : IO (node_server * list rpc * console) :=
  fetch_json s (mkRequest "GET" "/status" [] (inl [])) (updateStatus c).
End buttons.

(** ** Reading the answers *)

(** Fields tagged [omitempty] are absent when they are zero. *)
Definition omit_int (n : Z) : option bytes := if n =? 0 then None else Some (str (Sprintf_d n)).
Definition omit_text (v : bytes) : option bytes := if bool_decide (v = []) then None else Some v.

Lemma js_get_app a b name acc : js_get (a ++ b) name acc = js_get b name (js_get a name acc).
Proof. revert acc. induction a as [|[k v] a IH]; intros acc; [done|]. apply IH. Qed.

(** A field that is left out when it is zero. *)
Lemma js_get_omitempty n v name acc :
  valid_utf8 (str n) = true →
  js_get (field_json <$> omitempty n v) name acc =
    if bool_decide (str n = name) && negb (bool_decide (omitempty n v = [])) then Some (scalar_json v) else acc.
Proof.
  intros Hn. destruct (omitempty n v) as [|f fs] eqn:E; [by rewrite andb_comm|].
  assert (f :: fs = [(str n, v)]) as -> by (rewrite <-E; revert E; by destruct v as [[]|[]|[]]).
  rewrite (bool_decide_eq_false_2 (_ = [])) by done.
  rewrite fmap_cons, fmap_nil. unfold field_json. cbn [js_get fst snd]. rewrite to_valid_id by done.
  by rewrite andb_true_r.
Qed.

(** The field of [name] among the fields of a response. *)
Lemma js_get_response os b name :
  js_get (field_json <$> response_fields os b) name None =
    js_get ((field_json <$> omitempty "key" (SStr (r_Key b))) ++ (field_json <$> omitempty "value" (SStr (r_Value b)))
      ++ (field_json <$> omitempty "found" (SBool (Found b)))
      ++ (field_json <$> omitempty "tombstone" (SBool (r_Tombstone b)))
      ++ (field_json <$> omitempty "index" (SInt (r_Index b))) ++ (field_json <$> omitempty "term" (SInt (r_Term b)))
      ++ (field_json <$> omitempty "message" (SStr (message_text os (Message b)))))
      name (if bool_decide (str "success" = name) then Some (JBool (Success b)) else None).
Proof. unfold response_fields. by rewrite fmap_cons, !fmap_app. Qed.

Lemma res_json_reply os st b :
  res_json os (Reply st b) =
    Some (mkData (omit_int (r_Index b)) (omit_int (r_Term b)) (to_valid <$> omit_text (r_Value b)) (Found b)
            (r_Tombstone b) false None).
Proof.
  unfold res_json. rewrite (parse_reply os st b). unfold js_object.
  rewrite !js_get_response, !js_get_app, !js_get_omitempty by reflexivity.
  repeat (rewrite (bool_decide_eq_false_2 (str _ = str _)) by discriminate).
  repeat (rewrite (bool_decide_eq_true_2 (str _ = str _)) by done). cbn [andb].
  f_equal. f_equal.
  - by destruct (r_Index b).
  - by destruct (r_Term b).
  - by destruct (r_Value b).
  - by destruct (Found b).
  - by destruct (r_Tombstone b).
Qed.

Lemma res_json_status os r :
  res_json os (StatusReply r) =
    Some (mkData None (Some (str (Sprintf_d (st_term r)))) None false false (st_is_leader r)
            (Some (str (Sprintf_d (st_memtable_bytes r))))).
Proof. unfold res_json. by rewrite (parse_status os r). Qed.

(** ** What the console shows *)

Section shows.
Context (os_text : error → bytes) (port httpPort : Z).

(** The console's put is the server's, whatever its outcome. *)
Lemma doPut_PutGeo s c k v w s' ms w' idx term isLeader err :
  k ≠ [] → valid_utf8 k = true → valid_utf8 v = true →
  PutGeo s k v w = Ret ((s', ms, (idx, term, isLeader, err)), w') →
  doPut os_text port httpPort s c k v w =
    Ret ((s', ms, addLog c (match err with
                            | None => LogPutOK k (omit_int idx) (omit_int term)
                            | Some _ => LogPutOK k None None
                            end) false), w').
Proof.
  intros Hk Hvk Hvv E. unfold doPut, fetch_json. rewrite (bool_decide_eq_false_2 (k = [])) by done.
  erewrite bindM_ret by exact (serve_put_geo port httpPort s w _ [] k v _ _ _ _ _ _ _
    (json_Unmarshal_valid JSStringify k v Hvk Hvv) Hk E).
  destruct err; cbv beta iota; by rewrite res_json_reply.
Qed.

(** The console's get shows what the abstract node holds. *)
Lemma doGet_sim s c k w n :
  refines s w n → k ≠ [] →
  ∃ c', doGet os_text port httpPort s c k w = Ret ((s, [], c'), w)
    ∧ match sp_kv n !! k with
      | Some (v, false) =>
          logBox c' = (LogGetValue k (to_valid <$> omit_text v), false) :: logBox c
          ∧ inputValue c' = default undefined (to_valid <$> omit_text v)
      | Some (_, true) => logBox c' = (LogGetDeleted k, true) :: logBox c
      | None => logBox c' = (LogGetNotFound k, true) :: logBox c
      end.
Proof.
  intros Hrf Hk. unfold doGet, fetch_json. rewrite (bool_decide_eq_false_2 (k = [])) by done.
  pose proof (serve_get port httpPort s w n "GET" (key_query k) (inl []) Hrf) as Hg.
  unfold key_query in *. rewrite query_round_trip in Hg. erewrite bindM_ret by exact (Hg Hk).
  destruct (sp_kv n !! k) as [[v []]|]; cbn [lookup_answer get_response]; cbv beta iota;
    rewrite res_json_reply; eexists; (split; [reflexivity|]); done.
Qed.

(** The console's delete is the server's, whatever its outcome. *)
Lemma doDelete_FocusTombstone s c k w s' ms w' idx term isLeader err :
  k ≠ [] → FocusTombstone s k w = Ret ((s', ms, (idx, term, isLeader, err)), w') →
  doDelete os_text port httpPort s c k w =
    Ret ((s', ms, addLog c (LogTombstone k (match err with None => omit_int idx | Some _ => None end)) false), w').
Proof.
  intros Hk E. unfold doDelete, fetch_json. rewrite (bool_decide_eq_false_2 (k = [])) by done.
  erewrite bindM_ret by exact (serve_delete_geo port httpPort s w "DELETE" (key_query k) (inl []) k _ _ _ _ _ _ _
    (query_round_trip k) Hk E).
  destruct err; cbv beta iota; by rewrite res_json_reply.
Qed.

(** The status poll shows the state of the node. *)
Lemma pollStatus_shows s c w r m :
  ss_raft s = Some r → ss_memTable s = Some m →
  pollStatus os_text port httpPort s c w =
    Ret ((s, [], mkConsole (inputValue c) (logBox c) (alerts c)
                   (if (GetState r).2 then "LEADER" else "FOLLOWER")
                   (str (Sprintf_d (GetState r).1)) (str (Sprintf_d (SizeBytes m)) ++ str " B")), w).
Proof.
  intros Hr Hm. unfold pollStatus, fetch_json, serve_http. cbn [rq_Path].
  do 3 rewrite bool_decide_eq_false_2 by done. rewrite bool_decide_eq_true_2 by done.
  unfold http_status. rewrite Hr, Hm. unfold bindM, liftM. cbn [opt_go bind_go]. unfold retM.
  rewrite res_json_status. by destruct (GetState r) as [term isLeader].
Qed.
End shows.

(** The console shows what the store holds: pressing PUT and then GET for
    the same key on a node that accepts writes logs the write with its index and
    term and then the stored value; an empty value, which the gateway leaves
    out of its answer, is shown as undefined, and the value field is set to that
    word. *)
Theorem console_put_get os port httpPort s w n c k v :
  refines s w n → valid_utf8 k = true → valid_utf8 v = true → k ≠ [] → fits k v →
  ∃ s' ms c1 c2 w' idx term,
    doPut os port httpPort s c k v w = Ret ((s', ms, c1), w')
    ∧ doGet os port httpPort s' c1 k w' = Ret ((s', [], c2), w')
    ∧ refines s' w' (spec_step n (RPut k v)).1
    ∧ (spec_step n (RPut k v)).2 = Written idx term
    ∧ inputValue c2 = (if bool_decide (v = []) then undefined else v)
    ∧ logBox c2 = (LogGetValue k (omit_text v), false)
                    :: (LogPutOK k (omit_int idx) (omit_int term), false) :: logBox c.
Proof.
  intros Hrf Hvk Hvv Hk Hf.
  destruct (write_op_sim s w n k v false Hrf Hf) as (s' & ms & w' & idx & term & E & Hres & Hrf').
  pose proof (doPut_PutGeo os port httpPort s c k v w s' ms w' idx term true None Hk Hvk Hvv E) as Hput.
  destruct (doGet_sim os port httpPort s'
    (addLog c (LogPutOK k (omit_int idx) (omit_int term)) false) k w' _ Hrf' Hk) as (c2 & Hget & Hc2).
  change (spec_write n (k, v, false)) with (spec_step n (RPut k v)) in *.
  rewrite sp_kv_put in Hc2. destruct Hc2 as [Hlog Hin].
  assert (to_valid <$> omit_text v = omit_text v) as Hv
    by (unfold omit_text; case_bool_decide; cbn; by rewrite ?to_valid_id).
  rewrite Hv in Hlog, Hin. do 7 eexists. split_and!; [exact Hput|exact Hget|done|done| |done].
  rewrite Hin. unfold omit_text. by case_bool_decide.
Qed.

(** ** The page and its script *)

(** The state of the page when it is loaded, from its markup. *)
Definition loaded_console : option console :=
  input ← getElementById (str "inputValue");
  role ← getElementById (str "nodeRole");
  term ← getElementById (str "nodeTerm");
  mem ← getElementById (str "nodeMem");
  Some (mkConsole (default [] (attr "value" input)) [] 0 (string_of_list_byte (el_text role))
          (el_text term) (el_text mem)).

Definition console0 : console := mkConsole [] [] 0 "LEADER" (str "1") (str "0 B").

(** The page and its script fit together: every id the script looks up belongs
    to exactly one element of the markup, so that no lookup is null; the fields
    whose [value] it uses are input fields; every button calls a function the
    script defines; before the first poll the page shows [console0], which claims
    a leader of term 1; the badge of the cluster's status is never updated; and
    the page, fetched in place of an answer, is rejected by [res.json()]. *)
Theorem page_wires_console os :
  Forall (λ id, length (filter (has_id id) page_elements) = 1%nat) script_ids
  ∧ Forall (λ id, el_tag <$> getElementById id = Some (str "input")) [str "inputKey"; str "inputValue"]
  ∧ Forall (λ h, Exists (λ f, h = f ++ str "()") script_functions) page_handlers
  ∧ page_handlers = [str "doPut()"; str "doGet()"; str "doDelete()"]
  ∧ loaded_console = Some console0
  ∧ str "nodeStatus" ∉ script_ids
  ∧ res_json os Dashboard = None.
Proof.
  split_and!; try (apply (bool_decide_unpack _); vm_compute; exact I); vm_compute; reflexivity.
Qed.

(** Stored values are markup: the log entry of a value that contains a tag is
    read back by the browser as an element with its handlers. *)
Theorem stored_markup_is_interpreted :
  let entry := log_html (str "12:00:00") []
    (LogGetValue (str "k") (Some (quoted "<img src=`x` onerror=`alert(1)`>"))) false in
  attr "onerror" <$> elements_of (tokens false [] entry)
  = [None; None; None; Some (str "alert(1)"); None].
Proof. vm_compute. reflexivity. Qed.

Lemma console_put_get_witness :
  ∃ s' ms c1 c2 w',
    doPut (λ _, []) 50051 8080 server0 console0 (str "geo") (str "500") world0 = Ret ((s', ms, c1), w')
    ∧ doGet (λ _, []) 50051 8080 s' c1 (str "geo") w' = Ret ((s', [], c2), w')
    ∧ logBox c2 = [(LogGetValue (str "geo") (Some (str "500")), false);
                   (LogPutOK (str "geo") (Some (str "1")) (Some (str "1")), false)].
Proof.
  destruct (console_put_get (λ _, []) 50051 8080 server0 world0 spec0 console0
    (str "geo") (str "500")) as (s' & ms & c1 & c2 & w' & idx & term & E1 & E2 & _ & E3 & _ & E4).
  - exact server0_refines.
  - reflexivity.
  - reflexivity.
  - discriminate.
  - done.
  - exists s', ms, c1, c2, w'. split; [exact E1|]. split; [exact E2|]. rewrite E4.
    injection E3 as <- <-. reflexivity.
Defined.

(** The console reports refused writes as stored: on a node that is not the
    leader, PUT changes nothing, the gateway answers with status 500 and an
    error, and the console logs it as OK, with an undefined index and term, and
    not as an error. *)
Theorem console_reports_refused_put_as_ok os port httpPort s c k v w r :
  k ≠ [] → valid_utf8 k = true → valid_utf8 v = true →
  ss_running s = true → ss_raft s = Some r → role r ≠ Leader →
  serve_http port httpPort s (mkRequest "POST" "/put" [] (inl (put_body JSStringify k v))) w
    = Ret ((s, [], Reply StatusInternalServerError (failure (ErrorText ErrNotLeader))), w)
  ∧ doPut os port httpPort s c k v w = Ret ((s, [], addLog c (LogPutOK k None None) false), w)
  ∧ log_text [] (LogPutOK k None None)
    = str "PUT " ++ [quote] ++ k ++ [quote] ++ str " -> OK (Index: undefined, Term: undefined)".
Proof.
  intros Hk Hvk Hvv Hrun Hraft Hrole. pose proof (write_op_refused s _ _ k v false w (refusal_follower s r Hrun Hraft Hrole)) as E.
  split_and!.
  - exact (serve_put_geo port httpPort s w _ [] k v _ _ _ _ _ _ _
      (json_Unmarshal_valid JSStringify k v Hvk Hvv) Hk E).
  - exact (doPut_PutGeo os port httpPort s c k v w s [] w _ _ _ _ Hk Hvk Hvv E).
  - cbn. by rewrite <-app_assoc.
Qed.

Lemma console_reports_refused_put_as_ok_witness :
  doPut (λ _, []) 50051 8080 (set_raft server0 follower0) console0 (str "k") (str "v") world0
    = Ret ((set_raft server0 follower0, [], addLog console0 (LogPutOK (str "k") None None) false), world0).
Proof.
  exact (proj1 (proj2 (console_reports_refused_put_as_ok (λ _, []) 50051 8080
    (set_raft server0 follower0) console0 (str "k") (str "v") world0 follower0
    ltac:(discriminate) eq_refl eq_refl eq_refl eq_refl ltac:(discriminate)))).
Defined.
