(* ===== verification/Replica.v ===== *)
(** * Replicas of the store

    The daemon's apply goroutine turns the apply channel of its Raft node into
    a MemTable.  Composing the safety of the cluster with the refinement of the
    MemTable: the stores of any two nodes go through the same states.  The
    writes a Stagway server makes on the side do not take part in this. *)

From Stdlib Require Import Strings.Byte Strings.String.
From S2P Require Import Prelude GoBytes KV Os Wal MemTable MemTableSpec.
From S2P Require Import RaftNode RaftCluster RaftInv RaftSafety RaftLive RaftClaims RaftCommit RaftAgree RaftConsensus.
From S2P Require Import Stagway Daemon.

Local Open Scope Z_scope.

(** The operation of a message that a node has applied. *)
Definition op_of (msg : ApplyMsg) : kvt := (am_Key msg, am_Value msg, am_Tombstone msg).

Lemma apply_msgs_ok msgs m M :
  Forall (λ msg, CommandValid msg = true) msgs → represents m M →
  ∃ m', apply_msgs m msgs = Ret m' ∧ represents m' (apply_ops M (op_of <$> msgs)).
Proof.
  intros Hv. revert m M. induction Hv as [|msg msgs Hmsg _ IH]; intros m M Hm; [by exists m|].
  assert (apply_msg m msg = buf_apply (am_Key msg) (am_Value msg) (am_Tombstone msg) m) as E.
  { unfold apply_msg. rewrite Hmsg. by destruct (am_Tombstone msg). }
  cbn [apply_msgs]. rewrite E.
  destruct (buf_apply_ok (H:=memtable_buffer) (am_Key msg) (am_Value msg) (am_Tombstone msg) m M Hm)
    as (m1 & -> & Hm1). by apply IH.
Qed.

Lemma apply_msgs_app m msgs rest :
  apply_msgs m (msgs ++ rest) = (let* m' := apply_msgs m msgs in apply_msgs m' rest).
Proof.
  revert m. induction msgs as [|msg msgs IH]; intros m; [done|]. cbn [apply_msgs app].
  destruct (apply_msg m msg); [|done..]. cbn. apply IH.
Qed.

(** Replicas agree.  Let two nodes of a cluster run the daemon's apply
    goroutine, from MemTables with the same contents.  Both runs succeed, and
    the node that has applied fewer commands is in a past state of the other:
    after the commands it lacks, every key reads the same on both. *)
Theorem replicas_agree ids clk s i j ri rj msgs_i msgs_j mi mj M :
  valid_ids ids → reachable ids clk s →
  c_nodes s !! i = Some ri → c_nodes s !! j = Some rj →
  applyCh ri = Some msgs_i → applyCh rj = Some msgs_j →
  lastApplied ri ≤ lastApplied rj → represents mi M → represents mj M →
  ∃ ti tj rest ti', apply_msgs mi msgs_i = Ret ti ∧ apply_msgs mj msgs_j = Ret tj
    ∧ len rest = lastApplied rj - lastApplied ri ∧ apply_msgs ti rest = Ret ti'
    ∧ ∀ key, Get ti' key = Get tj key.
Proof.
  intros Hids Hs Hi Hj Hmi Hmj Hle Hri Hrj.
  destruct (applied_from_committed ids clk s i ri msgs_i Hids Hs Hi Hmi) as [Ei Li].
  destruct (applied_from_committed ids clk s j rj msgs_j Hids Hs Hj Hmj) as [Ej Lj].
  assert (msgs_i `prefix_of` msgs_j) as [rest Er].
  { destruct (applied_comparable ids clk s s i j ri rj msgs_i msgs_j Hids Hs (rtc_refl _ _) Hi Hj Hmi Hmj)
      as [?|Hp]; [done|].
    rewrite (prefix_length_eq _ _ Hp); [done|]. unfold len in *. lia. }
  assert (Forall (λ msg, CommandValid msg = true) msgs_j) as Hvj.
  { rewrite Ej. apply Forall_fmap, Forall_true. done. }
  pose proof Hvj as Hv. rewrite Er in Hv. apply Forall_app in Hv as [Hvi Hvr].
  destruct (apply_msgs_ok msgs_i mi M Hvi Hri) as (ti & Hti & Rti).
  destruct (apply_msgs_ok rest ti _ Hvr Rti) as (ti' & Hti' & Rti').
  destruct (apply_msgs_ok msgs_j mj M Hvj Hrj) as (tj & Htj & Rtj).
  exists ti, tj, rest, ti'. split_and!; try done.
  - rewrite Er, len_app in Lj. lia.
  - intros key. rewrite (represents_get _ _ _ Rti'), (represents_get _ _ _ Rtj). do 2 f_equal.
    unfold apply_ops. by rewrite Er, fmap_app, foldl_app.
Qed.

Lemma replicas_agree_witness :
  ∃ ti tj rest ti',
    apply_msgs (new_table DefaultMemTableOptions []) [geo_msg] = Ret ti
    ∧ apply_msgs (new_table DefaultMemTableOptions [float32_of 0 0; float32_of 0 0]) [geo_msg] = Ret tj
    ∧ len rest = 0 ∧ apply_msgs ti rest = Ret ti' ∧ ∀ key, Get ti' key = Get tj key.
Proof.
  apply (replicas_agree ids3 clk0 (cluster3 8) 0 1 (node3 8 0) (node3 8 1) [geo_msg] [geo_msg]
    (new_table DefaultMemTableOptions []) (new_table DefaultMemTableOptions [float32_of 0 0; float32_of 0 0]) ∅).
  - exact ids3_valid.
  - apply cluster3_reachable.
  - vm_compute. reflexivity.
  - vm_compute. reflexivity.
  - vm_compute. reflexivity.
  - vm_compute. reflexivity.
  - vm_compute. discriminate.
  - apply represents_default.
  - apply represents_default.
Defined.

(** ** Writes that the cluster discards *)

Section discard.
Context (key value key' value' : bytes).

(** Node 0 leads term 1 and its server accepts [key]; before the command reaches
    another node, node 1 is elected by node 2; its server accepts [key'], which is
    committed and replicated to node 0. *)
Definition before_put : cluster := cluster3 3.
Definition after_put : cluster := run_from before_put [ESubmit 0 key value false].
Definition after_election : cluster :=
  run_from after_put [EElection 1 later_clock; EDeliver 6 later_clock; EReply 6 later_clock].
Definition after_second_put : cluster := run_from after_election [ESubmit 1 key' value' false].
Definition after_depose : cluster :=
  run_from after_second_put
    [EDeliver 9 later_clock; EReply 9 later_clock; EHeartbeat 1; EDeliver 9 later_clock].

(** The running server of node [i] of a cluster, with an empty MemTable and no WAL. *)
Definition server_of (s : cluster) (i : Z) : node_server :=
  (Start (λ _, inl tt)
     (NewStagwayServer (DefaultStagwayServerOptions ":50051" i) (c_nodes s !! i)
        (Some (new_table DefaultMemTableOptions [])) None)).1.

(** No node of the cluster has a command for [key] in its log. *)
Definition forgotten (s : cluster) : Prop :=
  map_Forall (λ _ r, Forall (λ e, e_Key e ≠ key) (drop 1 (rn_log r))) (c_nodes s).

(** An accepted PUT leaves the entry in the server's MemTable. *)
Definition accepts (sv : node_server) (k v : bytes) (n t : Z) (sv' : node_server) : Prop :=
  ∀ w, ∃ ms, PutGeo sv k v w = Ret ((sv', ms, (n, t, true, None)), w).

Lemma accept_stores s i r k v r' ms n t :
  c_nodes s !! i = Some r → Submit r k v false = Ret (r', ms, (n, t, true)) →
  ∃ sv' m, accepts (server_of s i) k v n t sv' ∧ ss_running sv' = true ∧ ss_raft sv' = Some r'
    ∧ ss_memTable sv' = Some m ∧ represents m {[ k := (v, false) ]}.
Proof.
  intros Hr Hs.
  destruct (represents_insert _ _ k v false (represents_default [])) as (m & Em & _ & Hm).
  eexists (set_mem (set_raft (server_of s i) r') m), m. split_and!; try done.
  intros w. exists ms. unfold PutGeo, write_op, server_of, submit_op, log_op, mem_op. rewrite Hr. cbn.
  rewrite Hs. cbn. unfold buf_apply. cbn. unfold Put. rewrite Em. done.
Qed.

(** Reading [key] once the apply goroutine has caught up. *)
Lemma read_caught_up sv m M msgs r k :
  ss_running sv = true → ss_memTable sv = Some m → represents m M →
  Forall (λ msg, CommandValid msg = true) msgs →
  ∃ t, apply_msgs m msgs = Ret t
    ∧ GetGeo (set_mem (set_raft sv r) t) k = Ret (lookup_answer (apply_ops M (op_of <$> msgs) !! k), None).
Proof.
  intros Hrun Hmem HM Hv. destruct (apply_msgs_ok msgs m M Hv HM) as (t & E & Ht). exists t. split; [done|].
  unfold GetGeo. cbn. rewrite Hrun. cbn. rewrite (represents_get _ _ k Ht). cbn. by destruct (lookup_answer _) as [[]].
Qed.

(** C34.  A deposed leader keeps serving a write that the cluster discarded.  The
    server applies an accepted write to its MemTable at once, not when it is
    committed.  For any two different keys there is a run of three nodes in which
    node 0 accepts a PUT of [key] as the leader of term 1, node 1 becomes the leader
    of term 2 and accepts a PUT of [key'], and node 0 becomes a follower whose log
    entry is replaced: no node has the command for [key] any more, and both nodes
    have applied the command for [key'].  After their apply goroutines have caught
    up, node 0 still answers [key] with the discarded value, while the leader, node
    1, has never had it. *)
Theorem discarded_write_still_served :
  key ≠ key' →
  reachable ids3 clk0 before_put
  ∧ rtc step before_put after_put ∧ rtc step after_put after_election
  ∧ rtc step after_election after_second_put ∧ rtc step after_second_put after_depose
  ∧ ∃ sv0 sv1 m0 m1 r0 r1 msgs t0 t1,
      accepts (server_of before_put 0) key value 1 1 sv0 ∧ ss_raft sv0 = c_nodes after_put !! 0
      ∧ accepts (server_of after_election 1) key' value' 1 2 sv1 ∧ ss_raft sv1 = c_nodes after_second_put !! 1
      ∧ c_nodes after_depose !! 0 = Some r0 ∧ role r0 = Follower ∧ currentTerm r0 = 2
      ∧ c_nodes after_depose !! 1 = Some r1 ∧ role r1 = Leader ∧ currentTerm r1 = 2
      ∧ forgotten after_depose
      ∧ applyCh r0 = Some msgs ∧ applyCh r1 = Some msgs ∧ op_of <$> msgs = [(key', value', false)]
      ∧ ss_memTable sv0 = Some m0 ∧ apply_msgs m0 msgs = Ret t0
      ∧ GetGeo (set_mem (set_raft sv0 r0) t0) key = Ret (value, false, true, None)
      ∧ ss_memTable sv1 = Some m1 ∧ apply_msgs m1 msgs = Ret t1
      ∧ GetGeo (set_mem (set_raft sv1 r1) t1) key = Ret ([], false, false, None).
Proof.
  intros Hne. split_and!; [apply cluster3_reachable|apply run_from_rtc..|].
  edestruct (accept_stores before_put 0) as (sv0 & m0 & A0 & R0 & F0 & S0 & M0);
    [vm_compute; reflexivity|vm_compute; reflexivity|].
  edestruct (accept_stores after_election 1) as (sv1 & m1 & A1 & R1 & F1 & S1 & M1);
    [vm_compute; reflexivity|vm_compute; reflexivity|].
  set (msgs := [mkApplyMsg true 1 2 key' value' false]).
  assert (Forall (λ msg, CommandValid msg = true) msgs) as Hv by by constructor.
  eassert (c_nodes after_depose !! 0 = Some _) as H0 by (vm_compute; reflexivity).
  eassert (c_nodes after_depose !! 1 = Some _) as H1 by (vm_compute; reflexivity).
  match type of H0 with _ = Some ?r => destruct (read_caught_up sv0 m0 _ msgs r key R0 S0 M0 Hv) as (t0 & E0 & G0) end.
  match type of H1 with _ = Some ?r => destruct (read_caught_up sv1 m1 _ msgs r key R1 S1 M1 Hv) as (t1 & E1 & G1) end.
  assert (apply_ops {[ key := (value, false) ]} (op_of <$> msgs) !! key = Some (value, false)) as L0.
  { unfold msgs, apply_ops, apply_op. cbn. rewrite lookup_insert_ne by done. apply lookup_singleton_eq. }
  assert (apply_ops {[ key' := (value', false) ]} (op_of <$> msgs) !! key = None) as L1.
  { unfold msgs, apply_ops, apply_op. cbn. rewrite lookup_insert_ne by done. by apply lookup_singleton_ne. }
  rewrite L0 in G0. rewrite L1 in G1.
  do 9 eexists. split_and!; [exact A0| |exact A1| |exact H0|reflexivity|reflexivity|exact H1|reflexivity|reflexivity| | | |
    |exact S0|exact E0|exact G0|exact S1|exact E1|exact G1].
  - rewrite F0. vm_compute. reflexivity.
  - rewrite F1. vm_compute. reflexivity.
  - apply map_Forall_to_list. eassert (map_to_list (c_nodes after_depose) = _) as -> by (vm_compute; reflexivity).
    repeat (constructor; [cbn; repeat (constructor; [cbn; by apply not_eq_sym|]); constructor|]). constructor.
  - reflexivity.
  - reflexivity.
  - reflexivity.
Qed.
End discard.

Lemma discarded_write_still_served_witness :
  ∃ sv0 sv1 m0 r0 r1 t0 msgs,
    accepts (server_of before_put 0) (str "lost") (str "v") 1 1 sv0
    ∧ accepts (server_of (after_election (str "lost") (str "v")) 1) (str "kept") (str "w") 1 2 sv1
    ∧ c_nodes (after_depose (str "lost") (str "v") (str "kept") (str "w")) !! 0 = Some r0 ∧ role r0 = Follower
    ∧ c_nodes (after_depose (str "lost") (str "v") (str "kept") (str "w")) !! 1 = Some r1 ∧ role r1 = Leader
    ∧ forgotten (str "lost") (after_depose (str "lost") (str "v") (str "kept") (str "w"))
    ∧ ss_memTable sv0 = Some m0 ∧ apply_msgs m0 msgs = Ret t0
    ∧ GetGeo (set_mem (set_raft sv0 r0) t0) (str "lost") = Ret (str "v", false, true, None).
Proof.
  destruct (discarded_write_still_served (str "lost") (str "v") (str "kept") (str "w")) as (_ & _ & _ & _ & _ &
    sv0 & sv1 & m0 & m1 & r0 & r1 & msgs & t0 & t1 & A0 & _ & A1 & _ & H0 & L0 & _ & H1 & L1 & _ & Hf & _ & _ & _ &
    S0 & E0 & G0 & _); [vm_compute; discriminate|].
  exists sv0, sv1, m0, r0, r1, t0, msgs. exact (conj A0 (conj A1 (conj H0 (conj L0 (conj H1 (conj L1 (conj Hf
    (conj S0 (conj E0 G0))))))))).
Defined.
