(* ===== verification/RaftAvail.v ===== *)
(** * A live majority can always serve a write

    The safety of the cluster says what is never lost; this file shows that it
    is never stuck.  From every reachable state, whatever elections, crashes and
    lost calls led to it, the nodes of any majority whose timers still run can,
    among themselves, elect the node with the most up-to-date log, submit a
    command to it, back its [nextIndex] up until the logs of the others match,
    replicate, commit and apply: the run is built phase by phase from the
    handlers of [RaftNode].

    Nodes are in a settled state between handlers ([drained]): everything
    committed has been sent to the apply channel. *)

From S2P Require Import Prelude GoBytes KV MemTable MemTableSpec RaftNode RaftCluster RaftInv RaftSafety RaftLive RaftClaims.
From S2P Require Import RaftCommit RaftAgree RaftConsensus Daemon Replica.

Local Open Scope Z_scope.

(** ** Between handlers everything committed is applied *)

Definition drained (r : RaftNode) : Prop := is_Some (applyCh r) ∧ lastApplied r = commitIndex r.

(** What a handler does to the channel and the two indices. *)
Definition catches_up (r r' : RaftNode) : Prop :=
  (is_Some (applyCh r) → is_Some (applyCh r'))
  ∧ (lastApplied r' = lastApplied r ∧ commitIndex r' = commitIndex r
     ∨ commitIndex r' ≤ lastApplied r').

Lemma catches_up_same r r' :
  applyCh r' = applyCh r → lastApplied r' = lastApplied r → commitIndex r' = commitIndex r → catches_up r r'.
Proof. intros E1 E2 E3. split; [by rewrite E1|by left]. Qed.

Lemma quiet_catches_up r r' : quiet r r' → catches_up r r'.
Proof. intros (_ & _ & ? & ? & ? & _). by apply catches_up_same. Qed.

Lemma apply_loop_advances k r r' :
  apply_loop k r = Ret r' →
  lastApplied r' = lastApplied r + Z.of_nat k ∧ commitIndex r' = commitIndex r
  ∧ (is_Some (applyCh r) → is_Some (applyCh r')).
Proof.
  revert r. induction k as [|k IH]; intros r E; cbn [apply_loop] in E.
  { injection E as <-. split_and!; [lia|done|done]. }
  go_inv. apply IH in E as (E1 & E2 & E3). cbn in *. split_and!; [lia|done|]. intros [ch Hch]. apply E3.
  rewrite Hch. by destruct (0 <? _).
Qed.

Lemma applyLogs_catches_up r0 r r' :
  applyLogs r = Ret r' → applyCh r = applyCh r0 → catches_up r0 r'.
Proof.
  intros (E1 & E2 & E3)%apply_loop_advances Ech. rewrite Ech in E3. split; [done|]. right. lia.
Qed.

Lemma becomeLeader_catches_up r r' ms : becomeLeader r = Ret (r', ms) → catches_up r r'.
Proof. intros [(ni & mi & ->) _]%becomeLeader_shape. by apply catches_up_same. Qed.

Lemma election_tick_catches_up r c r' ms : election_tick r c = Ret (r', ms) → catches_up r r'.
Proof.
  unfold election_tick. destruct (killed r); [intros [= <- <-]; by apply catches_up_same|].
  destruct (_ && _); [|intros [= <- <-]; by apply catches_up_same]. intros E.
  apply go_bind_Ret_inv in E as ([r1 ms1] & E1 & E). injection E as <- <-.
  apply startElection_shape in E1 as (e & r2 & _ & -> & [E2|[-> _]]); [|by apply catches_up_same].
  apply becomeLeader_catches_up in E2. exact E2.
Qed.

Lemma AppendEntries_catches_up r args c r' reply : AppendEntries r args c = Ret (r', reply) → catches_up r r'.
Proof.
  intros [(Hq & _)|(r2 & prev & L' & Hq & _ & _ & _ & _ & _ & _ & [->|[_ E]])]%AppendEntries_shape;
    [by apply quiet_catches_up| |].
  - apply quiet_catches_up in Hq. exact Hq.
  - eapply applyLogs_catches_up; [exact E|]. cbn. by destruct Hq as (_ & _ & _ & _ & ? & _).
Qed.

Lemma append_reply_catches_up r to args reply c r' :
  handle_append_reply r to args reply c = Ret r' → catches_up r r'.
Proof.
  unfold handle_append_reply. destruct (_ && _); [|intros [= <-]; by apply catches_up_same].
  destruct (_ <? _); [intros [= <-]; by apply catches_up_same|]. destruct (aer_Success reply).
  - unfold checkAdvanceCommitIndex. set (r1 := set_indices _ _ _). generalize (len (rn_log r1) - 1) at 2.
    generalize (Z.to_nat (len (rn_log r1) - 1 - commitIndex r1)). intros k N. revert N.
    induction k as [|k IH]; intros N E; cbn [advance_loop] in E; [injection E as <-; by apply catches_up_same|].
    apply go_bind_Ret_inv in E as (e & _ & E). destruct (negb _); [by eapply IH|].
    destruct (_ <=? _); [|by eapply IH]. by eapply applyLogs_catches_up.
  - destruct (_ <? _); intros [= <-]; by apply catches_up_same.
Qed.

Lemma step_catches_up s s' i r r' :
  step s s' → c_nodes s !! i = Some r → c_nodes s' !! i = Some r' → catches_up r r'.
Proof.
  intros Hs Hr Hr'.
  assert (∀ j rj r2, c_nodes s !! j = Some rj → catches_up rj r2 →
    <[j := r2]> (c_nodes s) !! i = Some r' → catches_up r r') as Hup.
  { intros j rj r2 Hj He [[-> <-]|[_ E]]%lookup_insert_Some; [congruence|].
    rewrite Hr in E. injection E as <-. by apply catches_up_same. }
  destruct Hs as
    [j rj c r2 ms Hj E|j rj r2 ms Hj E|j rj k v t r2 ms res Hj E|j rj Hj
    |l1 l2 from to args rj c r2 reply Hfl Hj E|l1 l2 from to args rj c r2 reply Hfl Hj E
    |l1 l2 from to args reply rj c r2 ms Hfl Hj E|l1 l2 from to args reply rj c r2 Hfl Hj E
    |l1 l2 f Hfl]; cbn in Hr'.
  - eapply Hup; [exact Hj|by eapply election_tick_catches_up|done].
  - apply heartbeat_tick_same in E as ->. eapply Hup; [exact Hj|by apply catches_up_same|done].
  - eapply Hup; [exact Hj| |done]. unfold Submit in E.
    destruct (negb _); [injection E as <- <- <-; by apply catches_up_same|].
    apply go_bind_Ret_inv in E as (ms' & _ & E). injection E as <- <- <-. by apply catches_up_same.
  - apply (Hup j rj (Kill rj) Hj); [by apply catches_up_same|done].
  - apply RequestVote_quiet in E as [Hq _]. eapply Hup; [exact Hj|by apply quiet_catches_up|done].
  - eapply Hup; [exact Hj|by eapply AppendEntries_catches_up|done].
  - eapply Hup; [exact Hj| |done].
    apply handle_vote_reply_shape in E as [[Hq _]|(_ & vs & E)]; [by apply quiet_catches_up|].
    apply becomeLeader_catches_up in E. exact E.
  - eapply Hup; [exact Hj|by eapply append_reply_catches_up|done].
  - rewrite Hr in Hr'. injection Hr' as <-. by apply catches_up_same.
Qed.

Lemma step_nodes s s' i : step s s' → is_Some (c_nodes s' !! i) → is_Some (c_nodes s !! i).
Proof. intros []; cbn; rewrite ?lookup_insert_is_Some'; naive_solver. Qed.

Lemma reachable_drained ids clk s i r :
  valid_ids ids → reachable ids clk s → c_nodes s !! i = Some r → drained r.
Proof.
  intros Hids Hs. revert i r. induction Hs as [|s s' Hs IH Hst]; intros i r Hr.
  { cbn in Hr. apply elem_of_list_to_map_2, list_elem_of_fmap in Hr as (j & [= -> ->] & _). by split. }
  destruct (step_nodes s s' i Hst (mk_is_Some _ _ Hr)) as [r0 Hr0].
  destruct (IH i r0 Hr0) as [Hch Ha]. destruct (step_catches_up s s' i r0 r Hst Hr0 Hr) as [Hs' Hc].
  destruct (reachable_committed ids clk s' Hids (reach_step _ _ _ _ Hs Hst)) as (h & g & _ & Hcm).
  pose proof (ns_applied _ _ _ _ _ _ (cm_nodes _ _ _ _ Hcm i r Hr)). split; [by apply Hs'|lia].
Qed.

(** ** Electing a leader *)

Definition last_term (L : list RaftLogEntry) : Z := e_Term (default dummy (last L)).

Definition vote_args (i T : Z) (L : list RaftLogEntry) : RequestVoteArgs :=
  mkRequestVoteArgs T i (len L - 1) (last_term L).

(** The comparison of RequestVote: [L] is at least as up-to-date as [Lj]. *)
Definition up_to_date (Lj L : list RaftLogEntry) : Prop :=
  last_term Lj < last_term L ∨ last_term L = last_term Lj ∧ len Lj ≤ len L.

Record candidate (r : RaftNode) (T : Z) (L : list RaftLogEntry) (v : Z) : Prop := {
  cd_role : role r = Candidate;
  cd_term : currentTerm r = T;
  cd_log : rn_log r = L;
  cd_votes : get0 (votesReceived r) T = v;
  cd_alive : killed r = false }.

Record leading (r : RaftNode) (T : Z) (L : list RaftLogEntry) : Prop := {
  ld_role : role r = Leader;
  ld_term : currentTerm r = T;
  ld_log : rn_log r = L;
  ld_alive : killed r = false }.

Lemma index_last ls L : good_log ls L → GoBytes.index L (len L - 1) = Ret (default dummy (last L)).
Proof.
  intros Hg%good_log_pos. destruct (index_in L (len L - 1)) as (e & E & _); [lia|].
  rewrite E. apply last_index in E. by rewrite E.
Qed.

Section cluster.
Context (ids : list Z) (clk : Z → clock) (Hids : valid_ids ids) (Htwo : (2 ≤ length ids)%nat).

Definition half : Z := Z.of_nat (length ids) / 2.

Lemma half_pos : 1 ≤ half.
Proof using Htwo. unfold half. apply Z.div_le_lower_bound; lia. Qed.

Lemma majorityNeeded_half h i r : node_ok ids h i r → majorityNeeded r = half + 1.
Proof using Hids Htwo.
  intros Hok. unfold majorityNeeded, half, len. rewrite (no_peers _ _ _ _ Hok).
  rewrite (peers_length ids Hids i (no_in _ _ _ _ Hok)). f_equal. f_equal. lia.
Qed.

(** What every reachable state offers about one of its nodes. *)
Lemma node_facts s i r :
  reachable ids clk s → c_nodes s !! i = Some r →
  ∃ h, node_ok ids h i r ∧ live_ok r ∧ inv ids h s.
Proof using Hids.
  intros Hs Hr. destruct (reachable_ok ids clk s Hids Hs) as (h & Hi & Hl). exists h.
  split_and!; [by apply (iv_nodes _ _ _ Hi)|by eapply Hl|done].
Qed.

(** The election timer of a node that does not lead fires. *)
Lemma election_step s i r :
  reachable ids clk s → c_nodes s !! i = Some r → killed r = false → role r ≠ Leader →
  ∃ r', candidate r' (currentTerm r + 1) (rn_log r) 1
    ∧ step s (update s i r' ((λ p, SendRequestVote p (vote_args i (currentTerm r + 1) (rn_log r)))
                               <$> peers_of ids i)).
Proof using Hids Htwo.
  intros Hs Hr Hk Hrole. destruct (node_facts s i r Hs Hr) as (h & Hok & _ & _).
  eexists. split; [|eapply (step_election _ i r (mkClock (electionDeadline r + 1) 0)); [done|]].
  2:{ unfold election_tick. rewrite Hk, bool_decide_false by done. cbn [negb andb c_now].
      rewrite (proj2 (Z.ltb_lt _ _)) by lia. unfold startElection. cbv zeta. cbn [rn_log set_vote set_role].
      rewrite (index_last _ _ (no_log _ _ _ _ Hok)). cbn [bind_go].
      rewrite (proj2 (Z.leb_gt (majorityNeeded _) 1)).
      - cbn [bind_go]. cbn [rn_id set_votes set_vote set_role currentTerm rn_peers].
        rewrite (no_id _ _ _ _ Hok), (no_peers _ _ _ _ Hok). reflexivity.
      - pose proof half_pos. pose proof (majorityNeeded_half h i r Hok). unfold majorityNeeded in *. cbn. lia. }
  split; cbn; try done. unfold get0. by rewrite lookup_insert_eq.
Qed.

(** ... and fires again, until the term is as large as needed. *)
Lemma election_steps s i r (n : nat) :
  reachable ids clk s → c_nodes s !! i = Some r → killed r = false → role r ≠ Leader →
  ∃ s' r', rtc step s s' ∧ c_nodes s' = <[i := r']> (c_nodes s)
    ∧ candidate r' (currentTerm r + 1 + Z.of_nat n) (rn_log r) 1
    ∧ ∀ p, p ∈ peers_of ids i →
        VoteCall i p (vote_args i (currentTerm r + 1 + Z.of_nat n) (rn_log r)) ∈ c_flights s'.
Proof using Hids Htwo.
  revert s r. induction n as [|n IH]; intros s r Hs Hr Hk Hrole;
    destruct (election_step s i r Hs Hr Hk Hrole) as (r1 & Hc & Hst).
  - eexists _, r1. split_and!; [by apply rtc_once|done|by rewrite Z.add_0_r|]. intros p Hp. cbn.
    rewrite Z.add_0_r. apply elem_of_app. right. rewrite <-list_fmap_compose. apply list_elem_of_fmap. by exists p.
  - match type of Hst with step _ ?x => set (s1 := x) in Hst end.
    destruct (IH s1 r1) as (s' & r' & Hrt & Hn & Hc' & Hf).
    + by eapply reach_step.
    + apply lookup_insert_eq.
    + apply Hc.
    + by rewrite (cd_role _ _ _ _ Hc).
    + rewrite (cd_term _ _ _ _ Hc), (cd_log _ _ _ _ Hc) in *.
      replace (currentTerm r + 1 + 1 + Z.of_nat n) with (currentTerm r + 1 + Z.of_nat (S n)) in * by lia.
      exists s', r'. split_and!; [by eapply rtc_l| |done|done]. rewrite Hn. cbn. by rewrite insert_insert_eq.
Qed.
(** ** One vote *)

Lemma RequestVote_grants h j rj i T L c :
  node_ok ids h j rj → currentTerm rj < T → up_to_date (rn_log rj) L →
  ∃ rj', RequestVote rj (vote_args i T L) c = Ret (rj', mkRequestVoteReply T true)
    ∧ currentTerm rj' = T ∧ rn_log rj' = rn_log rj.
Proof using Htwo.
  intros Hok HT Hup. unfold RequestVote. cbn [rv_Term vote_args]. rewrite (proj2 (Z.ltb_lt _ _) HT).
  cbv zeta. cbn [currentTerm becomeFollower resetElectionTimeout set_deadline set_vote rn_log set_role votedFor].
  rewrite Z.ltb_irrefl, (index_last _ _ (no_log _ _ _ _ Hok)). cbn [bind_go].
  cbn [rv_LastLogTerm rv_LastLogIndex vote_args rv_CandidateID]. fold (last_term (rn_log rj)).
  match goal with |- context [if _ && ?b then _ else _] => assert (b = true) as -> end.
  - destruct Hup as [Hlt|[E Hl]]; apply orb_true_iff; [left; lia|right; apply andb_true_iff; lia].
  - cbn [orb andb Z.eqb]. eexists. split_and!; reflexivity.
Qed.

Lemma vote_counted h i r T L v c :
  node_ok ids h i r → live_ok r → candidate r T L v →
  ∃ r' ms, handle_vote_reply r T (mkRequestVoteReply T true) c = Ret (r', ms)
    ∧ (v + 1 ≤ half ∧ candidate r' T L (v + 1) ∨ half < v + 1 ∧ leading r' T L).
Proof using Hids Htwo.
  intros Hok Hl [Hro HT HL Hv Hk]. unfold handle_vote_reply.
  rewrite Hro, HT, bool_decide_true, Z.eqb_refl by done. cbn [andb rvr_Term rvr_VoteGranted].
  rewrite Z.ltb_irrefl, Hv. cbv zeta. set (r1 := set_votes r _).
  assert (majorityNeeded r1 = half + 1) as -> by by apply (majorityNeeded_half h i r).
  assert (role r1 = Candidate) as -> by done. rewrite bool_decide_true, andb_true_r by done.
  destruct (Z.leb_spec (half + 1) (v + 1)) as [Hm|Hm].
  - destruct (becomeLeader_ok (leaders h) r1) as (r' & ms & E & _).
    { apply (no_log _ _ _ _ Hok). }
    { eapply live_ok_same; [..|exact Hl]; try done. by left. }
    exists r', ms. split; [done|]. right. split; [lia|].
    apply becomeLeader_shape in E as [(ni & mi & ->) _]. by split.
  - exists r1, []. split; [done|]. left. split; [lia|]. split; try done. cbn. unfold get0. by rewrite lookup_insert_eq.
Qed.

(** A node asks another one for its vote and counts it. *)
Lemma vote_round s i r T L v j rj :
  reachable ids clk s → c_nodes s !! i = Some r → candidate r T L v → c_nodes s !! j = Some rj → j ≠ i →
  currentTerm rj < T → up_to_date (rn_log rj) L → VoteCall i j (vote_args i T L) ∈ c_flights s →
  ∃ s' r' rj', rtc step s s' ∧ c_nodes s' = <[i := r']> (<[j := rj']> (c_nodes s))
    ∧ currentTerm rj' = T
    ∧ (∀ f, f ∈ c_flights s → f ≠ VoteCall i j (vote_args i T L) → f ∈ c_flights s')
    ∧ (v + 1 ≤ half ∧ candidate r' T L (v + 1) ∨ half < v + 1 ∧ leading r' T L).
Proof using Hids Htwo.
  intros Hs Hr Hc Hj Hne HT Hup (l1 & l2 & Hf)%list_elem_of_split.
  destruct (node_facts s j rj Hs Hj) as (h & Hok & _).
  destruct (RequestVote_grants h j rj i T L (mkClock 0 0) Hok HT Hup) as (rj' & E & HT' & _).
  set (s1 := set_flights (update s j rj' [])
    (l1 ++ VoteDone i j (vote_args i T L) (mkRequestVoteReply T true) :: l2)).
  assert (step s s1) as Hst by by eapply step_request_vote.
  assert (reachable ids clk s1) as Hs1 by by eapply reach_step.
  assert (c_nodes s1 !! i = Some r) as Hr1 by (cbn; by rewrite lookup_insert_ne).
  destruct (node_facts s1 i r Hs1 Hr1) as (h1 & Hok1 & Hl1 & _).
  destruct (vote_counted h1 i r T L v (mkClock 0 0) Hok1 Hl1 Hc) as (r' & ms & E' & Hres).
  eexists (update (set_flights s1 (l1 ++ l2)) i r' ms), r', rj'. split_and!; [|done|done| |done].
  - eapply rtc_l; [exact Hst|]. apply rtc_once. by eapply step_vote_reply.
  - intros f. rewrite Hf. cbn. rewrite !elem_of_app, elem_of_cons. naive_solver.
Qed.

(** ** The election *)

Lemma elect js s i r T L v :
  reachable ids clk s → c_nodes s !! i = Some r → candidate r T L v → v ≤ half → NoDup js →
  (∀ j, j ∈ js → j ≠ i ∧ VoteCall i j (vote_args i T L) ∈ c_flights s
     ∧ ∃ rj, c_nodes s !! j = Some rj ∧ currentTerm rj < T ∧ up_to_date (rn_log rj) L) →
  half < v + Z.of_nat (length js) →
  ∃ s' r', rtc step s s' ∧ c_nodes s' !! i = Some r' ∧ leading r' T L
    ∧ (∀ p, p ≠ i → p ∉ js → c_nodes s' !! p = c_nodes s !! p)
    ∧ ∀ j, j ∈ js → ∃ rj, c_nodes s' !! j = Some rj ∧ currentTerm rj ≤ T.
Proof using Hids Htwo.
  revert s r v. induction js as [|j js IH]; intros s r v Hs Hr Hc Hv Hnd Hjs Hmaj; [cbn in Hmaj; lia|].
  apply NoDup_cons in Hnd as [Hj Hnd]. destruct (Hjs j) as (Hne & Hf & rj & Hrj & HT & Hup); [by left|].
  destruct (vote_round s i r T L v j rj Hs Hr Hc Hrj Hne HT Hup Hf) as (s1 & r1 & rj1 & Hst & Hn & HT1 & Hfl & Hres).
  assert (∀ p, p ≠ i → p ≠ j → c_nodes s1 !! p = c_nodes s !! p) as Hsame
    by (intros p ??; by rewrite Hn, !lookup_insert_ne).
  assert (c_nodes s1 !! i = Some r1) as Hr1 by (by rewrite Hn, lookup_insert_eq).
  assert (c_nodes s1 !! j = Some rj1) as Hj1 by (by rewrite Hn, lookup_insert_ne, lookup_insert_eq).
  assert (∀ j', j' ∈ js → j' ≠ i ∧ j' ≠ j) as Hother by (intros j' Hj'; split; [apply Hjs; by right|by intros ->]).
  destruct Hres as [[Hle Hc1]|[_ Hld]].
  - destruct (IH s1 r1 (v + 1)) as (s' & r' & Hst' & Hr' & Hld & Hn' & Hjs'); try done.
    + by eapply rtc_reachable.
    + intros j' Hj'. destruct (Hother j' Hj') as [Hi' Hjj]. destruct (Hjs j') as (_ & Hf' & rj' & Hrj' & ?); [by right|].
      split_and!; [done|apply Hfl; [done|congruence]|]. exists rj'. by rewrite Hsame.
    + cbn in Hmaj. lia.
    + exists s', r'. split_and!; [by etrans|done|done| |].
      * intros p Hp1 [Hp2 Hp3]%not_elem_of_cons. rewrite Hn' by done. by apply Hsame.
      * intros j' [->|Hj']%elem_of_cons; [|by apply Hjs']. exists rj1. rewrite Hn' by done. split; [done|lia].
  - exists s1, r1. split_and!; [done|done|done| |].
    + intros p Hp1 [Hp2 _]%not_elem_of_cons. by apply Hsame.
    + intros j' [->|Hj']%elem_of_cons; [exists rj1; split; [done|lia]|].
      destruct (Hother j' Hj') as [Hi' Hjj]. destruct (Hjs j') as (_ & _ & rj' & Hrj' & ? & _); [by right|].
      exists rj'. rewrite Hsame by done. split; [done|lia].
Qed.

(** ** One AppendEntries call *)

(** What broadcastHeartbeats sends to [p]. *)
Definition append_args (r : RaftNode) (p : Z) : AppendEntriesArgs :=
  let prev := Z.max 0 (get0 (nextIndex r) p - 1) in
  mkAppendEntriesArgs (currentTerm r) (rn_id r) prev
    (e_Term (default dummy (rn_log r !! Z.to_nat prev))) (drop (S (Z.to_nat prev)) (rn_log r)) (commitIndex r).

Lemma heartbeat_for_args r p :
  0 < len (rn_log r) → get0 (nextIndex r) p ≤ len (rn_log r) →
  heartbeat_for r p = Ret (SendAppendEntries p (append_args r p)).
Proof.
  clear. intros Hpos Hn. unfold heartbeat_for, append_args. cbv zeta.
  replace (if get0 (nextIndex r) p - 1 <? 0 then 0 else get0 (nextIndex r) p - 1)
    with (Z.max 0 (get0 (nextIndex r) p - 1)) by (destruct (Z.ltb_spec (get0 (nextIndex r) p - 1) 0); lia).
  set (prev := Z.max 0 _). assert (0 ≤ prev < len (rn_log r)) as Hp by lia.
  destruct (index_in (rn_log r) prev Hp) as (e & -> & ->). cbn [bind_go default].
  rewrite slice_ok by lia. cbn [bind_go]. do 3 f_equal.
  replace (Z.to_nat (prev + 1)) with (S (Z.to_nat prev)) by lia. apply take_ge. rewrite length_drop. unfold len. lia.
Qed.

Lemma heartbeats_elem r p peers ms :
  heartbeats r peers = Ret ms → p ∈ peers → ∃ m, heartbeat_for r p = Ret m ∧ m ∈ ms.
Proof.
  clear. revert ms. induction peers as [|q peers IH]; intros ms E Hp; [by apply elem_of_nil in Hp|].
  cbn [heartbeats] in E. apply go_bind_Ret_inv in E as (m & Em & E). apply go_bind_Ret_inv in E as (ms' & Ems & E).
  injection E as <-. apply elem_of_cons in Hp as [->|Hp]; [exists m; split; [done|by left]|].
  destruct (IH ms' Ems Hp) as (m' & ? & ?). exists m'. split; [done|by right].
Qed.

(** A heartbeat of the leader puts the call to [j] in flight. *)
Lemma heartbeat_step s i r T L j :
  reachable ids clk s → c_nodes s !! i = Some r → leading r T L → j ∈ peers_of ids i →
  ∃ l1 l2, step s (mkCluster (c_nodes s) (l1 ++ AppendCall i j (append_args r j) :: l2)).
Proof using Hids Htwo.
  intros Hs Hr [Hro HT HL Hk] Hj. destruct (node_facts s i r Hs Hr) as (h & Hok & Hl & _).
  destruct (broadcast_ok ids h i r Hok Hl Hro) as [ms Ems].
  assert (heartbeat_tick r = Ret (r, ms)) as E.
  { unfold heartbeat_tick. rewrite Hk, bool_decide_true by done. cbn [orb negb]. by rewrite Ems. }
  unfold broadcastHeartbeats in Ems. rewrite decide_True, (no_peers _ _ _ _ Hok) in Ems by done.
  destruct (heartbeats_elem r j _ ms Ems Hj) as (m & Em & Hm).
  rewrite heartbeat_for_args in Em;
    [|by eapply good_log_pos, (no_log _ _ _ _ Hok)|apply (lo_next _ Hl Hro); by rewrite (no_peers _ _ _ _ Hok)].
  injection Em as <-. apply (step_heartbeat s i r r ms Hr) in E. unfold update in E. rewrite insert_id in E by done.
  apply (list_elem_of_fmap_2 (launch i)), list_elem_of_split in Hm as (l1 & l2 & Hf). cbn [launch] in Hf.
  rewrite Hf, app_assoc in E. eauto.
Qed.

(** The answer of a node that is not in a later term. *)
Lemma AppendEntries_answer r args c r' reply :
  AppendEntries r args c = Ret (r', reply) → currentTerm r ≤ ae_Term args →
  aer_Term reply = ae_Term args ∧ currentTerm r' = ae_Term args
  ∧ (aer_Success reply = false → 0 ≤ ae_PrevLogIndex args →
       ∀ prev, rn_log r !! Z.to_nat (ae_PrevLogIndex args) = Some prev → e_Term prev ≠ ae_PrevLogTerm args)
  ∧ (aer_Success reply = true → Z.min (ae_LeaderCommit args) (len (rn_log r') - 1) ≤ commitIndex r').
Proof.
  clear. intros E HT. unfold AppendEntries in E. set (r1 := if _ <? _ then _ else r) in E.
  assert (currentTerm r1 = ae_Term args ∧ rn_log r1 = rn_log r) as [HT1 HL1].
  { unfold r1. destruct (Z.ltb_spec (currentTerm r) (ae_Term args)); [done|]. split; [lia|done]. }
  clearbody r1. rewrite HT1, Z.ltb_irrefl in E. cbn [rn_log set_role resetElectionTimeout set_deadline] in E.
  rewrite HL1 in E. destruct (Z.leb_spec (len (rn_log r)) (ae_PrevLogIndex args)) as [Hle|Hlt].
  { injection E as <- <-. cbn. split_and!; try done. intros _ Hp prev Hprev%lookup_lt_Some. unfold len in Hle. lia. }
  apply go_bind_Ret_inv in E as (prev & [_ Hprev]%index_lookup & E).
  destruct (Z.eqb_spec (e_Term prev) (ae_PrevLogTerm args)) as [Et|Et]; cbn [negb] in E.
  2:{ injection E as <- <-. cbn. split_and!; try done. intros _ _ prev' Hp'. congruence. }
  apply go_bind_Ret_inv in E as (L' & _ & E). cbn [commitIndex set_log set_role resetElectionTimeout set_deadline] in E.
  match type of E with context [set_log ?x L'] => set (r2 := set_log x L') in E end.
  destruct (Z.ltb_spec (commitIndex r1) (ae_LeaderCommit args)) as [Hc|Hc].
  2:{ injection E as <- <-. cbn. split_and!; try done. lia. }
  apply go_bind_Ret_inv in E as (r3 & E3 & E). injection E as <- <-.
  pose proof (apply_loop_shape _ _ _ E3) as (n & ch & ->). cbn. split_and!; try done. intros _.
  destruct (Z.ltb_spec (ae_LeaderCommit args) (len L' - 1)); lia.
Qed.

(** A call and its reply: the target takes the leader's term, and either it now
    holds the leader's log or the leader has to go back. *)
Lemma append_round s i r T L j rj :
  reachable ids clk s → c_nodes s !! i = Some r → leading r T L → c_nodes s !! j = Some rj → j ≠ i →
  currentTerm rj ≤ T →
  ∃ s' r' rj' ok, rtc step s s' ∧ c_nodes s' = <[i := r']> (<[j := rj']> (c_nodes s))
    ∧ handle_append_reply r j (append_args r j) (mkAppendEntriesReply T ok) (mkClock 0 0) = Ret r'
    ∧ currentTerm rj' = T ∧ (ok = false → 1 < get0 (nextIndex r) j)
    ∧ (ok = true → L `prefix_of` rn_log rj' ∧ Z.min (commitIndex r) (len L - 1) ≤ commitIndex rj').
Proof using Hids Htwo.
  intros Hs Hr Hld Hj Hne HTj. destruct (node_facts s j rj Hs Hj) as (h0 & Hokj & _ & _).
  destruct (heartbeat_step s i r T L j Hs Hr Hld) as (l1 & l2 & Hst).
  { apply peers_elem. split; [done|]. apply (no_in _ _ _ _ Hokj). }
  set (s1 := mkCluster _ _) in Hst. assert (reachable ids clk s1) as Hs1 by by eapply reach_step.
  destruct (node_facts s1 j rj Hs1 Hj) as (h & Hok & Hl & Hi).
  destruct (append_flight ids h s1 l1 l2 _ i j (append_args r j) Hi eq_refl eq_refl) as (_ & LL & HLL & Hg & Hseg).
  destruct (AppendEntries_ok ids h j rj Hok Hl (append_args r j) (mkClock 0 0) i LL HLL Hg Hseg) as (rj' & reply & E & _).
  pose proof Hld as [Hro HT HL Hk]. assert (ae_Term (append_args r j) = T) as EaT by done.
  destruct (AppendEntries_answer _ _ _ _ _ E) as (Hrt & HTj' & Hno & Hcm); [by rewrite EaT|]. rewrite EaT in *.
  pose proof (no_leader _ _ _ _ (iv_nodes _ _ _ Hi i r Hr) Hro) as HlL. rewrite HT, HLL in HlL. injection HlL as HlL.
  set (s2 := set_flights (update s1 j rj' []) (l1 ++ AppendDone i j (append_args r j) reply :: l2)).
  assert (step s1 s2) as Hst2 by by eapply step_append_entries.
  assert (reachable ids clk s2) as Hs2 by by eapply reach_step.
  assert (c_nodes s2 !! i = Some r) as Hr2 by (cbn; by rewrite lookup_insert_ne).
  destruct (node_facts s2 i r Hs2 Hr2) as (h2 & Hok2 & Hl2 & Hi2).
  destruct (append_flight ids h2 s2 l1 l2 _ i j (append_args r j) Hi2 eq_refl eq_refl) as (_ & L2 & HL2 & _ & Hseg2).
  destruct (append_reply_ok ids h2 i r Hok2 Hl2 j (append_args r j) reply (mkClock 0 0) L2 HL2 Hseg2) as (r' & E' & _).
  destruct reply as [T' ok]. cbn in Hrt. subst T'.
  eexists (update (set_flights s2 (l1 ++ l2)) i r' []), r', rj', ok. split_and!; [|done|done|done| |].
  - eapply rtc_l; [exact Hst|]. eapply rtc_l; [exact Hst2|]. apply rtc_once. by eapply step_append_reply.
  - intros ->. apply Z.nle_gt. intros Hn1.
    assert (ae_PrevLogIndex (append_args r j) = 0) as E0 by (cbn; lia).
    rewrite E0 in Hno. apply (Hno eq_refl (Z.le_refl 0) dummy (proj1 (no_log _ _ _ _ Hok))).
    unfold append_args. cbv zeta. cbn [ae_PrevLogTerm]. replace (Z.max 0 _) with 0 by lia.
    change (Z.to_nat 0) with 0%nat. by rewrite (proj1 (no_log _ _ _ _ (iv_nodes _ _ _ Hi i r Hr))).
  - intros ->. specialize (Hcm eq_refl).
    apply AppendEntries_shape in E as [(_ & [=] & _)|(r2 & prev & L' & _ & _ & _ & _ & Hprev & Het & EL' & Hr')].
    destruct (merge_ok (leaders h) (rn_log rj) LL (no_log _ _ _ _ Hok) Hg _ prev Hseg Hprev Het)
      as (L1 & E1 & _ & Hpre & _). rewrite EL' in E1. injection E1 as <-.
    assert (rn_log rj' = L') as ElL.
    { destruct Hr' as [-> |[_ Ea]]; [done|]. by apply apply_loop_shape in Ea as (n & ch & ->). }
    rewrite ElL in *. subst LL. cbn [ae_PrevLogIndex ae_Entries append_args] in Hpre.
    rewrite HL, take_ge in Hpre by (rewrite length_drop; lia). split; [done|].
    apply prefix_length in Hpre. cbn in Hcm. unfold len in *. lia.
Qed.

(** ** What the leader makes of the replies *)

Lemma reply_back r T L j c :
  leading r T L → 1 < get0 (nextIndex r) j →
  handle_append_reply r j (append_args r j) (mkAppendEntriesReply T false) c
  = Ret (set_indices r (<[j := get0 (nextIndex r) j - 1]> (nextIndex r)) (matchIndex r)).
Proof.
  clear. intros [Hro HT HL Hk] Hn. unfold handle_append_reply. cbn [ae_Term append_args aer_Term aer_Success].
  rewrite bool_decide_true, Z.eqb_refl, HT, Z.ltb_irrefl by done. cbn [andb]. by rewrite (proj2 (Z.ltb_lt _ _) Hn).
Qed.

Lemma advance_commits ls r r' :
  good_log ls (rn_log r) → 0 ≤ commitIndex r < len (rn_log r) → checkAdvanceCommitIndex r = Ret r' →
  (r' = r ∨ ∃ c n ch, r' = set_applied (set_commit r c) n ch) ∧ commitIndex r ≤ commitIndex r'
  ∧ (last_term (rn_log r) = currentTerm r → majorityNeeded r ≤ replicas r (len (rn_log r) - 1) →
     len (rn_log r) - 1 ≤ commitIndex r').
Proof.
  clear. intros Hg Hc E. unfold checkAdvanceCommitIndex in E. split; [by eapply advance_loop_shape|]. split.
  { apply advance_loop_case in E as [->|(M & e & HM & _ & _ & _ & E)]; [lia| |lia].
    apply apply_loop_advances in E as (_ & -> & _). cbn. lia. }
  intros Ht Hm. destruct (decide (commitIndex r = len (rn_log r) - 1)) as [Ec|Ec].
  { rewrite Ec, Z.sub_diag in E. injection E as <-. lia. }
  destruct (Z.to_nat (len (rn_log r) - 1 - commitIndex r)) as [|k] eqn:Ek; [lia|]. cbn [advance_loop] in E.
  rewrite (index_last _ _ Hg) in E. cbn [bind_go] in E. fold (last_term (rn_log r)) in E.
  rewrite Ht, Z.eqb_refl in E. cbn [negb] in E. rewrite (proj2 (Z.leb_le _ _) Hm) in E.
  apply apply_loop_advances in E as (_ & -> & _). cbn. lia.
Qed.

Lemma reply_success ls r T L j c r' :
  leading r T L → good_log ls L → 0 ≤ commitIndex r < len L → get0 (nextIndex r) j ≤ len L →
  handle_append_reply r j (append_args r j) (mkAppendEntriesReply T true) c = Ret r' →
  leading r' T L ∧ rn_peers r' = rn_peers r ∧ matchIndex r' = <[j := len L - 1]> (matchIndex r)
  ∧ commitIndex r ≤ commitIndex r'
  ∧ (last_term L = T → majorityNeeded r' ≤ replicas r' (len L - 1) → len L - 1 ≤ commitIndex r').
Proof.
  clear. intros [Hro HT HL Hk] Hg Hc Hn E. unfold handle_append_reply in E.
  rewrite bool_decide_true in E by done. cbn [ae_Term append_args aer_Term aer_Success andb] in E.
  rewrite Z.eqb_refl, HT, Z.ltb_irrefl in E.
  cbn [ae_PrevLogIndex ae_Entries append_args] in E. cbv zeta in E. pose proof (good_log_pos _ _ Hg).
  replace (Z.max 0 (get0 (nextIndex r) j - 1) + len (drop (S (Z.to_nat (Z.max 0 (get0 (nextIndex r) j - 1)))) (rn_log r)) + 1)
    with (len L) in E by (rewrite HL; unfold len in *; rewrite length_drop; lia).
  set (r1 := set_indices r _ _) in E. assert (rn_log r1 = L) as HL1 by done.
  destruct (advance_commits ls r1 r') as (Hsh & Hmono & Hcom); [by rewrite HL1|by rewrite HL1|done|].
  rewrite HL1 in Hcom. destruct Hsh as [->|(cc & n & ch & ->)]; (split_and!; [by split|done|done|done|]);
    cbn in Hcom |- *; rewrite HT in Hcom; exact Hcom.
Qed.

(** ** Bringing a node up to date *)

(** How a leader has changed when it has synchronised [j]. *)
Record synced (r r' : RaftNode) (T : Z) (L : list RaftLogEntry) (j : Z) : Prop := {
  sy_lead : leading r' T L;
  sy_match : matchIndex r' = <[j := len L - 1]> (matchIndex r);
  sy_mono : commitIndex r ≤ commitIndex r';
  sy_commit : last_term L = T → half + 1 ≤ replicas r' (len L - 1) → len L - 1 ≤ commitIndex r' }.

Lemma commit_bound s i r : reachable ids clk s → c_nodes s !! i = Some r → 0 ≤ commitIndex r < len (rn_log r).
Proof using Hids.
  clear Htwo. intros Hs Hr. destruct (reachable_committed ids clk s Hids Hs) as (h & g & _ & Hc).
  apply (ns_commit _ _ _ _ _ _ (cm_nodes _ _ _ _ Hc i r Hr)).
Qed.

(** One call: the node is up to date, or the leader goes one entry back. *)
Lemma sync_round s i r T L j rj :
  reachable ids clk s → c_nodes s !! i = Some r → leading r T L → c_nodes s !! j = Some rj → j ≠ i →
  currentTerm rj ≤ T →
  ∃ s' r' rj', rtc step s s' ∧ c_nodes s' = <[i := r']> (<[j := rj']> (c_nodes s)) ∧ currentTerm rj' = T
    ∧ (synced r r' T L j ∧ L `prefix_of` rn_log rj' ∧ commitIndex r ≤ commitIndex rj'
       ∨ 1 < get0 (nextIndex r) j
         ∧ r' = set_indices r (<[j := get0 (nextIndex r) j - 1]> (nextIndex r)) (matchIndex r)).
Proof using Hids Htwo.
  intros Hs Hr Hld Hj Hne HT.
  destruct (append_round s i r T L j rj Hs Hr Hld Hj Hne HT) as (s1 & r1 & rj1 & ok & Hst & Hns & E & HT1 & Hno & Hyes).
  exists s1, r1, rj1. split_and!; [done..|]. destruct ok; [left|right].
  2:{ specialize (Hno eq_refl). rewrite (reply_back r T L j _ Hld Hno) in E. injection E as <-. done. }
  destruct (Hyes eq_refl) as [Hpre Hcm]. pose proof (commit_bound s i r Hs Hr) as Hcb.
  destruct (node_facts s i r Hs Hr) as (h & Hok & Hl & _). destruct (node_facts s j rj Hs Hj) as (hj & Hokj & _).
  assert (get0 (nextIndex r) j ≤ len (rn_log r)) as Hn.
  { apply (lo_next _ Hl (ld_role _ _ _ Hld)). rewrite (no_peers _ _ _ _ Hok). apply peers_elem.
    split; [done|apply (no_in _ _ _ _ Hokj)]. }
  pose proof (no_log _ _ _ _ Hok) as Hg. rewrite (ld_log _ _ _ Hld) in Hcb, Hn, Hg.
  destruct (reply_success _ r T L j _ r1 Hld Hg Hcb Hn E) as (Hld1 & _ & Hm1 & Hmono & Hcom).
  assert (c_nodes s1 !! i = Some r1) as Hr1 by (by rewrite Hns, lookup_insert_eq).
  destruct (node_facts s1 i r1 (rtc_reachable _ _ _ _ Hs Hst) Hr1) as (h1 & Hok1 & _).
  rewrite (majorityNeeded_half h1 i r1 Hok1) in Hcom. split_and!; [by split|done|lia].
Qed.

Lemma sync (n : nat) s i r T L j rj :
  reachable ids clk s → c_nodes s !! i = Some r → leading r T L → c_nodes s !! j = Some rj → j ≠ i →
  currentTerm rj ≤ T → get0 (nextIndex r) j ≤ Z.of_nat n →
  ∃ s' r' rj', rtc step s s' ∧ c_nodes s' = <[i := r']> (<[j := rj']> (c_nodes s)) ∧ currentTerm rj' = T
    ∧ synced r r' T L j ∧ L `prefix_of` rn_log rj' ∧ commitIndex r ≤ commitIndex rj'.
Proof using Hids Htwo.
  revert s r rj. induction n as [|n IH]; intros s r rj Hs Hr Hld Hj Hne HT Hn;
    destruct (sync_round s i r T L j rj Hs Hr Hld Hj Hne HT) as (s1 & r1 & rj1 & Hst & Hns & HT1 & [Hsy|[Hgt Er1]]);
    [by exists s1, r1, rj1|lia|by exists s1, r1, rj1|].
  destruct (IH s1 r1 rj1) as (s' & r' & rj' & Hst' & Hns' & HT' & [] & Hpre & Hc).
  - by eapply rtc_reachable.
  - by rewrite Hns, lookup_insert_eq.
  - subst r1. destruct Hld. by split.
  - by rewrite Hns, lookup_insert_ne, lookup_insert_eq.
  - done.
  - lia.
  - subst r1. cbn. unfold get0 at 1. rewrite lookup_insert_eq. cbn. lia.
  - exists s', r', rj'. split_and!; [by etrans| |done| |done|by subst r1].
    + rewrite Hns', Hns. rewrite (insert_insert_ne _ j i), !insert_insert_eq by done. by rewrite insert_insert_ne.
    + by subst r1.
Qed.

Lemma replicas_count r N ps :
  NoDup ps → (∀ p, p ∈ ps → p ∈ rn_peers r ∧ N ≤ get0 (matchIndex r) p) →
  1 + Z.of_nat (length ps) ≤ replicas r N.
Proof.
  clear. intros Hnd Hps. unfold replicas, len.
  assert (ps ⊆+ filter (λ p, N ≤ get0 (matchIndex r) p) (rn_peers r)) as Hsub%submseteq_length.
  { apply NoDup_submseteq; [done|]. intros p Hp. apply list_elem_of_filter. split; by apply Hps. }
  lia.
Qed.

(** Bringing all of [js] up to date, after [done]; once a majority is, the last
    entry is committed, if it is of the leader's term. *)
Lemma sync_all js fin s i r T L :
  reachable ids clk s → c_nodes s !! i = Some r → leading r T L → NoDup (fin ++ js) →
  (∀ p, p ∈ fin ++ js → p ≠ i ∧ p ∈ ids) → (∀ p, p ∈ fin → get0 (matchIndex r) p = len L - 1) →
  (∀ j, j ∈ js → ∃ rj, c_nodes s !! j = Some rj ∧ currentTerm rj ≤ T) →
  ∃ s' r', rtc step s s' ∧ c_nodes s' !! i = Some r' ∧ leading r' T L ∧ commitIndex r ≤ commitIndex r'
    ∧ (∀ p, p ≠ i → p ∉ js → c_nodes s' !! p = c_nodes s !! p)
    ∧ (∀ j, j ∈ js → ∃ rj, c_nodes s' !! j = Some rj ∧ currentTerm rj = T ∧ L `prefix_of` rn_log rj
         ∧ commitIndex r ≤ commitIndex rj)
    ∧ (js ≠ [] → last_term L = T → half ≤ Z.of_nat (length (fin ++ js)) → len L - 1 ≤ commitIndex r').
Proof using Hids Htwo.
  revert fin s r. induction js as [|j js IH]; intros fin s r Hs Hr Hld Hnd Hin Hfin Hjs.
  { exists s, r. split_and!; [done..|lia|done| |done]. intros j Hj. by apply elem_of_nil in Hj. }
  destruct (Hjs j) as (rj & Hrj & HTj); [by left|]. destruct (Hin j) as [Hji Hjids]; [set_solver|].
  destruct (sync (Z.to_nat (get0 (nextIndex r) j)) s i r T L j rj Hs Hr Hld Hrj Hji HTj)
    as (s1 & r1 & rj1 & Hst & Hns & HT1 & [Hld1 Hm1 Hmo1 Hc1] & Hpre & Hcj); [lia|].
  rewrite cons_middle, app_assoc in Hnd, Hin.
  assert (∀ p, p ≠ i → p ≠ j → c_nodes s1 !! p = c_nodes s !! p) as Hsame
    by (intros p ??; by rewrite Hns, !lookup_insert_ne).
  assert (c_nodes s1 !! i = Some r1) as Hr1 by (by rewrite Hns, lookup_insert_eq).
  assert (c_nodes s1 !! j = Some rj1) as Hj1 by (by rewrite Hns, lookup_insert_ne, lookup_insert_eq).
  pose proof (rtc_reachable _ _ _ _ Hs Hst) as Hs1.
  assert (∀ p, p ∈ fin ++ [j] → get0 (matchIndex r1) p = len L - 1) as Hfin1.
  { intros p [Hp| ->%list_elem_of_singleton]%elem_of_app; rewrite Hm1; unfold get0.
    - rewrite lookup_insert. case_decide; [done|by apply Hfin].
    - by rewrite lookup_insert_eq. }
  assert (j ∉ js) as Hjjs by (apply NoDup_app in Hnd as (_ & Hnd & _); intros Hj; apply (Hnd j); set_solver).
  destruct (IH (fin ++ [j]) s1 r1 Hs1 Hr1 Hld1 Hnd Hin Hfin1) as (s' & r' & Hst' & Hr' & Hld' & Hmo & Hn' & Hjs' & Hc').
  { intros j' Hj'. destruct (Hjs j') as (rj' & ? & ?); [by right|]. exists rj'. rewrite Hsame; [done| |by intros ->].
    apply Hin. set_solver. }
  exists s', r'. split_and!; [by etrans|done|done|lia| | |].
  - intros p Hp [Hpj Hpjs]%not_elem_of_cons. rewrite Hn' by done. by apply Hsame.
  - intros j' [->|Hj']%elem_of_cons.
    + exists rj1. by rewrite Hn'.
    + destruct (Hjs' j' Hj') as (rj' & ? & ? & ? & ?). exists rj'. split_and!; [done..|lia].
  - intros _ Ht Hlen. rewrite cons_middle, app_assoc in Hlen. destruct js as [|j' js]; [|by apply Hc'].
    destruct (node_facts s1 i r1 Hs1 Hr1) as (h1 & Hok1 & _). rewrite app_nil_r in *.
    trans (commitIndex r1); [|done]. apply Hc1; [done|].
    trans (1 + Z.of_nat (length (fin ++ [j]))); [lia|]. apply replicas_count; [done|]. intros p Hp.
    rewrite (no_peers _ _ _ _ Hok1), (Hfin1 p Hp). split; [by apply peers_elem, Hin|done].
Qed.

(** ** Leaders of the past *)

(** A leader that calls a node of a later term steps down. *)
Lemma depose s i r T L j rj :
  reachable ids clk s → c_nodes s !! i = Some r → leading r T L → c_nodes s !! j = Some rj → j ≠ i →
  T < currentTerm rj →
  ∃ s' r', rtc step s s' ∧ c_nodes s' = <[i := r']> (c_nodes s) ∧ role r' ≠ Leader ∧ rn_log r' = L
    ∧ killed r' = false.
Proof using Hids Htwo.
  intros Hs Hr Hld Hj Hne HT. destruct (node_facts s j rj Hs Hj) as (h & Hok & _).
  destruct (heartbeat_step s i r T L j Hs Hr Hld) as (l1 & l2 & Hst).
  { apply peers_elem. split; [done|apply (no_in _ _ _ _ Hok)]. }
  destruct Hld as [Hro HTr HL Hk]. set (s1 := mkCluster _ _) in Hst.
  assert (AppendEntries rj (append_args r j) (mkClock 0 0) = Ret (rj, mkAppendEntriesReply (currentTerm rj) false)) as E.
  { unfold AppendEntries. cbn [ae_Term append_args]. rewrite HTr, (proj2 (Z.ltb_ge (currentTerm rj) T)) by lia.
    cbv zeta. by rewrite (proj2 (Z.ltb_lt T (currentTerm rj)) HT). }
  set (s2 := set_flights (update s1 j rj [])
    (l1 ++ AppendDone i j (append_args r j) (mkAppendEntriesReply (currentTerm rj) false) :: l2)).
  assert (step s1 s2) as Hst2 by by eapply step_append_entries.
  assert (handle_append_reply r j (append_args r j) (mkAppendEntriesReply (currentTerm rj) false) (mkClock 0 0)
    = Ret (becomeFollower r (currentTerm rj) (mkClock 0 0))) as E'.
  { unfold handle_append_reply. rewrite bool_decide_true by done. cbn [ae_Term append_args andb aer_Term].
    by rewrite Z.eqb_refl, HTr, (proj2 (Z.ltb_lt T (currentTerm rj)) HT). }
  set (r' := becomeFollower r (currentTerm rj) (mkClock 0 0)) in E'.
  exists (update (set_flights s2 (l1 ++ l2)) i r' []), r'. split_and!; [|cbn; by rewrite (insert_id (c_nodes s) j)|done..].
  eapply rtc_l; [exact Hst|]. eapply rtc_l; [exact Hst2|]. apply rtc_once. eapply step_append_reply; [done| |exact E'].
  cbn. by rewrite lookup_insert_ne.
Qed.

(** ** The most up-to-date node *)

Lemma up_to_date_total L1 L2 : up_to_date L1 L2 ∨ up_to_date L2 L1.
Proof. clear. unfold up_to_date. lia. Qed.

Lemma up_to_date_trans L1 L2 L3 : up_to_date L1 L2 → up_to_date L2 L3 → up_to_date L1 L3.
Proof. clear. unfold up_to_date. lia. Qed.

Lemma most_up_to_date (log : Z → list RaftLogEntry) js :
  js ≠ [] → ∃ i, i ∈ js ∧ ∀ j, j ∈ js → up_to_date (log j) (log i).
Proof.
  clear. induction js as [|j js IH]; [done|]. intros _. destruct js as [|j' js].
  { exists j. split; [by left|]. intros k ->%list_elem_of_singleton. right. lia. }
  destruct IH as (i & Hi & Hmax); [done|]. destruct (up_to_date_total (log j) (log i)) as [H|H].
  - exists i. split; [by right|]. intros k [->|Hk]%elem_of_cons; [done|by apply Hmax].
  - exists j. split; [by left|]. intros k [->|Hk]%elem_of_cons; [right; lia|].
    eapply up_to_date_trans; [by apply Hmax|done].
Qed.

(** ** From any state to a leader that all of the quorum follow *)

Section quorum.
Context (Q : gset Z) (HQ : majority ids Q).

Definition node_log (s : cluster) (j : Z) : list RaftLogEntry :=
  match c_nodes s !! j with Some r => rn_log r | None => [] end.

(** The other members. *)
Definition others (i : Z) : list Z := elements (Q ∖ {[i]}).

Lemma others_elem i j : j ∈ others i ↔ j ∈ Q ∧ j ≠ i.
Proof. clear. unfold others. set_solver. Qed.

Lemma others_nodup i : NoDup (others i).
Proof. clear. unfold others. apply NoDup_elements. Qed.

Lemma others_length i : i ∈ Q → half ≤ Z.of_nat (length (others i)).
Proof using HQ.
  clear Htwo Hids. intros Hi. unfold others, half. destruct HQ as [_ Hs].
  assert (size (Q ∖ {[i]}) + 1 = size Q)%nat as Hz.
  { rewrite size_difference by set_solver. rewrite size_singleton.
    assert (size Q ≠ 0)%nat by (intros E%size_empty_inv; set_solver). lia. }
  change (length (elements (Q ∖ {[i]}))) with (size (Q ∖ {[i]})).
  apply Z.lt_succ_r, Z.div_lt_upper_bound; lia.
Qed.

(** An upper bound of the terms. *)
Lemma terms_bound (s : cluster) (js : list Z) : ∃ n : nat, ∀ j r, j ∈ js → c_nodes s !! j = Some r → currentTerm r ≤ Z.of_nat n.
Proof.
  clear. induction js as [|j js [n IH]]; [exists 0%nat; intros j r Hj; by apply elem_of_nil in Hj|].
  destruct (c_nodes s !! j) as [rj|] eqn:Ej.
  - exists (Nat.max n (Z.to_nat (currentTerm rj))).
    intros k r [->|Hk]%elem_of_cons Hr; [rewrite Ej in Hr; injection Hr as <-; lia|].
    specialize (IH k r Hk Hr). lia.
  - exists n. intros k r [->|Hk]%elem_of_cons Hr; [congruence|by eapply IH].
Qed.

Lemma follower_elected s i r :
  reachable ids clk s → i ∈ Q → c_nodes s !! i = Some r → killed r = false → role r ≠ Leader →
  (∀ j, j ∈ Q → is_Some (c_nodes s !! j) ∧ up_to_date (node_log s j) (rn_log r)) →
  ∃ s' r' T, rtc step s s' ∧ c_nodes s' !! i = Some r' ∧ leading r' T (rn_log r)
    ∧ (∀ p, p ∉ Q → c_nodes s' !! p = c_nodes s !! p)
    ∧ ∀ j, j ∈ others i → ∃ rj, c_nodes s' !! j = Some rj ∧ currentTerm rj ≤ T.
Proof using Hids Htwo HQ.
  intros Hs Hi Hr Hk Hro Hup. destruct (terms_bound s (elements Q)) as [n Hn].
  destruct (election_steps s i r n Hs Hr Hk Hro) as (s1 & r1 & Hst & Hns & Hc & Hf).
  set (T := currentTerm r + 1 + Z.of_nat n) in *.
  destruct (node_facts s i r Hs Hr) as (h & Hok & _). pose proof (no_term _ _ _ _ Hok).
  destruct (elect (others i) s1 i r1 T (rn_log r) 1) as (s' & r' & Hst' & Hr' & Hld & Hsame & Hjs).
  - by eapply rtc_reachable.
  - by rewrite Hns, lookup_insert_eq.
  - done.
  - apply half_pos.
  - apply others_nodup.
  - intros j [HjQ Hji]%others_elem. split_and!; [done|apply Hf, peers_elem; split; [done|by apply HQ]|].
    destruct (Hup j HjQ) as [[rj Hrj] Hu]. exists rj. rewrite Hns, lookup_insert_ne by done. unfold node_log in Hu.
    rewrite Hrj in Hu. split_and!; [done| |done]. specialize (Hn j rj (proj2 (elem_of_elements _ _) HjQ) Hrj). lia.
  - pose proof (others_length i Hi). lia.
  - exists s', r', T. split_and!; [by etrans|done|done| |done]. intros p Hp.
    rewrite Hsame, Hns, lookup_insert_ne; [done| | |]; [by intros ->..|]. intros [? _]%others_elem. done.
Qed.

Lemma leader_found s :
  reachable ids clk s → (∀ j, j ∈ Q → ∃ r, c_nodes s !! j = Some r ∧ killed r = false) →
  ∃ s' i r T L, i ∈ Q ∧ rtc step s s' ∧ c_nodes s' !! i = Some r ∧ leading r T L
    ∧ (∀ p, p ∉ Q → c_nodes s' !! p = c_nodes s !! p)
    ∧ ∀ j, j ∈ others i → ∃ rj, c_nodes s' !! j = Some rj ∧ currentTerm rj ≤ T.
Proof using Hids Htwo HQ.
  intros Hs Halive. destruct (most_up_to_date (node_log s) (elements Q)) as (i & Hi & Hmax).
  { intros E. destruct HQ as [_ Hz]. unfold size, set_size in Hz. cbn in Hz. rewrite E in Hz. cbn in Hz. lia. }
  apply elem_of_elements in Hi. destruct (Halive i Hi) as (r & Hr & Hk).
  assert (∀ j, j ∈ Q → is_Some (c_nodes s !! j) ∧ up_to_date (node_log s j) (rn_log r)) as Hup.
  { intros j Hj. destruct (Halive j Hj) as (rj & Hrj & _). split; [done|].
    specialize (Hmax j (proj2 (elem_of_elements _ _) Hj)). unfold node_log at 2 in Hmax. by rewrite Hr in Hmax. }
  destruct (decide (role r = Leader)) as [Hro|Hro].
  2:{ destruct (follower_elected s i r Hs Hi Hr Hk Hro Hup) as (s' & r' & T & H). exists s', i, r', T, (rn_log r). tauto. }
  assert (leading r (currentTerm r) (rn_log r)) as Hld by done.
  destruct (decide (Exists (λ j, currentTerm r < currentTerm (default r (c_nodes s !! j))) (others i))) as [Hex|Hex].
  - apply Exists_exists in Hex as (j & [HjQ Hji]%others_elem & Hlt). destruct (Halive j HjQ) as (rj & Hrj & _).
    rewrite Hrj in Hlt. cbn in Hlt.
    destruct (depose s i r _ _ j rj Hs Hr Hld Hrj Hji Hlt) as (s1 & r1 & Hst & Hns & Hro1 & HL1 & Hk1).
    destruct (follower_elected s1 i r1) as (s' & r' & T & Hst' & Hr' & Hld' & Hsame & Hjs); try done.
    + by eapply rtc_reachable.
    + by rewrite Hns, lookup_insert_eq.
    + intros k HkQ. destruct (Hup k HkQ) as [Hsk Hu]. rewrite HL1. unfold node_log in *. rewrite Hns.
      destruct (decide (k = i)) as [->|Hki]; [rewrite lookup_insert_eq; split; [done|right; rewrite HL1; lia]|].
      by rewrite lookup_insert_ne.
    + exists s', i, r', T, (rn_log r1). split_and!; [done|by etrans|done|done| |done].
      intros p Hp. rewrite Hsame, Hns, lookup_insert_ne; [done| |done]. by intros ->.
  - exists s, i, r, (currentTerm r), (rn_log r). split_and!; [done..|].
    intros j Hj. pose proof (proj1 (others_elem _ _) Hj) as [HjQ _]. destruct (Halive j HjQ) as (rj & Hrj & _).
    exists rj. split; [done|]. apply Z.nlt_ge. intros Hlt. apply Hex, Exists_exists. exists j. by rewrite Hrj.
Qed.

(** ** Submitting, replicating and applying *)

Lemma submit_step s i r T L k v t :
  reachable ids clk s → c_nodes s !! i = Some r → leading r T L →
  ∃ r' ms, leading r' T (L ++ [mkEntry (len L) T k v t]) ∧ step s (update s i r' ms).
Proof using Hids.
  clear Htwo. intros Hs Hr [Hro HT HL Hk]. destruct (node_facts s i r Hs Hr) as (h & Hok & Hl & _).
  destruct (Submit_ok ids h i r Hok Hl k v t) as (r' & ms & res & E & _). exists r', ms.
  split; [|by eapply step_submit]. unfold Submit in E. rewrite bool_decide_true in E by done. cbn [negb] in E.
  apply go_bind_Ret_inv in E as (ms' & _ & E). injection E as <- _ _. split; cbn; [done|done|by rewrite HL, HT|done].
Qed.

(** A node that has committed exactly [L] has sent all of it. *)
Lemma stream_of s j r L :
  reachable ids clk s → c_nodes s !! j = Some r → L `prefix_of` rn_log r → commitIndex r = len L - 1 →
  applyCh r = Some (msg_of <$> drop 1 L).
Proof using Hids.
  clear Htwo. intros Hs Hr [L' HL] Hc. destruct (reachable_drained ids clk s j r Hids Hs Hr) as [[msgs Hm] Ha].
  destruct (applied_from_committed ids clk s j r msgs Hids Hs Hr Hm) as [E _].
  pose proof (commit_bound s j r Hs Hr). rewrite Hm, E, Ha, Hc. do 2 f_equal. unfold committed_log.
  assert (S (Z.to_nat (commitIndex r)) = length L) as -> by (unfold len in *; lia).
  rewrite HL, take_app_length. apply take_ge. rewrite length_drop. unfold len in *. lia.
Qed.

(** Two rounds of calls: the first commits, the second tells the others. *)
Lemma write_applied s i r T L :
  reachable ids clk s → i ∈ Q → c_nodes s !! i = Some r → leading r T L → last_term L = T →
  (∀ j, j ∈ others i → ∃ rj, c_nodes s !! j = Some rj ∧ currentTerm rj ≤ T) →
  ∃ s', rtc step s s' ∧ (∀ p, p ∉ Q → c_nodes s' !! p = c_nodes s !! p)
    ∧ ∀ j, j ∈ Q → ∃ rj, c_nodes s' !! j = Some rj ∧ applyCh rj = Some (msg_of <$> drop 1 L).
Proof using Hids Htwo HQ.
  intros Hs Hi Hr Hld Hlast Hjs. pose proof (others_length i Hi) as Hlen. pose proof half_pos.
  assert (∀ p, p ∈ [] ++ others i → p ≠ i ∧ p ∈ ids) as Hin.
  { intros p [Hp ?]%others_elem. split; [done|by apply HQ]. }
  assert (NoDup ([] ++ others i)) as Hnd by apply others_nodup.
  assert (∀ p, p ∈ [] → get0 (matchIndex r) p = len L - 1) as Hnil by (intros p Hp; by apply elem_of_nil in Hp).
  destruct (sync_all (others i) [] s i r T L Hs Hr Hld Hnd Hin Hnil Hjs)
    as (s1 & r1 & Hst1 & Hr1 & Hld1 & _ & Hsame1 & Hjs1 & Hc1).
  pose proof (rtc_reachable _ _ _ _ Hs Hst1) as Hs1.
  destruct (sync_all (others i) [] s1 i r1 T L Hs1 Hr1 Hld1 Hnd Hin)
    as (s2 & r2 & Hst2 & Hr2 & Hld2 & Hmo & Hsame2 & Hjs2 & _).
  { intros p Hp. by apply elem_of_nil in Hp. }
  { intros j Hj. destruct (Hjs1 j Hj) as (rj & ? & <- & _). by exists rj. }
  pose proof (rtc_reachable _ _ _ _ Hs1 Hst2) as Hs2.
  assert (len L - 1 ≤ commitIndex r1) as Hcom.
  { apply Hc1; [|done|done]. intros E. rewrite E in Hlen. cbn in Hlen. lia. }
  exists s2. split_and!; [by etrans| |].
  - intros p Hp. rewrite Hsame2, Hsame1; [done|by intros ->| |by intros ->|]; by intros [? _]%others_elem.
  - intros j Hj. assert (∃ rj, c_nodes s2 !! j = Some rj ∧ currentTerm rj = T ∧ L `prefix_of` rn_log rj
      ∧ len L - 1 ≤ commitIndex rj) as (rj & Hrj & HTj & Hpre & Hcj).
    { destruct (decide (j = i)) as [->|Hji].
      - exists r2. rewrite (ld_log _ _ _ Hld2). split_and!; [done|apply Hld2|done|lia].
      - destruct (Hjs2 j) as (rj & ? & ? & ? & ?); [by apply others_elem|]. exists rj. split_and!; [done..|lia]. }
    exists rj. split; [done|]. apply (stream_of s2 j rj L Hs2 Hrj Hpre).
    assert (committed_log rj `prefix_of` rn_log r2) as Hcl%prefix_length.
    { apply (leader_holds_committed ids clk s2 s2 j i); try done; [apply Hld2|]. rewrite (ld_term _ _ _ Hld2). lia. }
    pose proof (commit_bound s2 j rj Hs2 Hrj). rewrite (ld_log _ _ _ Hld2) in Hcl. unfold committed_log in Hcl.
    rewrite length_take in Hcl. unfold len in *. lia.
Qed.

Lemma write_served s k v t :
  reachable ids clk s → (∀ j, j ∈ Q → ∃ r, c_nodes s !! j = Some r ∧ killed r = false) →
  ∃ s' msgs n T, rtc step s s' ∧ (∀ p, p ∉ Q → c_nodes s' !! p = c_nodes s !! p)
    ∧ Forall (λ msg, CommandValid msg = true) msgs
    ∧ ∀ j, j ∈ Q → ∃ r, c_nodes s' !! j = Some r ∧ applyCh r = Some (msgs ++ [mkApplyMsg true n T k v t]).
Proof using Hids Htwo HQ.
  intros Hs Halive. destruct (leader_found s Hs Halive) as (s1 & i & r & T & L & Hi & Hst & Hr & Hld & Hsame & Hjs).
  pose proof (rtc_reachable _ _ _ _ Hs Hst) as Hs1.
  destruct (submit_step s1 i r T L k v t Hs1 Hr Hld) as (r2 & ms & Hld2 & Hst2).
  destruct (write_applied (update s1 i r2 ms) i r2 T (L ++ [mkEntry (len L) T k v t])) as (s' & Hst' & Hsame' & Hap).
  - by eapply reach_step.
  - done.
  - apply lookup_insert_eq.
  - done.
  - unfold last_term. by rewrite last_snoc.
  - intros j Hj. cbn. rewrite lookup_insert_ne; [by apply Hjs|]. by apply others_elem in Hj as [_ ?].
  - destruct (node_facts s1 i r Hs1 Hr) as (h & Hok & _). pose proof (good_log_pos _ _ (no_log _ _ _ _ Hok)) as Hpos.
    rewrite (ld_log _ _ _ Hld) in Hpos. exists s', (msg_of <$> drop 1 L), (len L), T. split_and!.
    + etrans; [done|]. by eapply rtc_l.
    + intros p Hp. rewrite Hsame' by done. cbn. rewrite lookup_insert_ne; [by apply Hsame|]. by intros ->.
    + apply Forall_fmap, Forall_true. done.
    + intros j Hj. destruct (Hap j Hj) as (rj & ? & E). exists rj. split; [done|]. rewrite E.
      rewrite drop_app_le by (unfold len in *; lia). by rewrite fmap_app.
Qed.
End quorum.
End cluster.

(** ** The claim *)

(** C7.  A live majority serves writes.  In a cluster of at least two nodes, in
    every reachable state, whatever calls have been lost and however the logs
    differ: if the timers of some majority [Q] run, then any write can be
    submitted and carried through by steps in which no node outside [Q] takes
    part, to a state where every node of [Q] has sent the same stream of
    commands, with the write last, to its apply channel, so that its store
    answers what was written. *)
Theorem live_majority_serves_writes ids clk s Q k v t :
  valid_ids ids → (2 ≤ length ids)%nat → reachable ids clk s → majority ids Q →
  (∀ j, j ∈ Q → ∃ r, c_nodes s !! j = Some r ∧ killed r = false) →
  ∃ s' msgs n T, rtc step s s' ∧ (∀ p, p ∉ Q → c_nodes s' !! p = c_nodes s !! p)
    ∧ (∀ j, j ∈ Q → ∃ r, c_nodes s' !! j = Some r ∧ applyCh r = Some (msgs ++ [mkApplyMsg true n T k v t]))
    ∧ ∀ m M, represents m M → ∃ m', apply_msgs m (msgs ++ [mkApplyMsg true n T k v t]) = Ret m'
        ∧ Get m' k = Ret (lookup_answer (Some (op_value (k, v, t)))).
Proof.
  intros Hids Htwo Hs HQ Halive.
  destruct (write_served ids clk Hids Htwo Q HQ s k v t Hs Halive) as (s' & msgs & n & T & Hst & Hsame & Hv & Hap).
  exists s', msgs, n, T. split_and!; [done..|]. intros m M Hm.
  destruct (apply_msgs_ok (msgs ++ [mkApplyMsg true n T k v t]) m M) as (m' & E & Hm'); [|done|].
  { apply Forall_app. split; [done|]. by constructor. }
  exists m'. split; [done|]. rewrite (represents_get _ _ _ Hm'), fmap_app. unfold apply_ops. rewrite foldl_app. cbn.
  unfold apply_op at 1. by rewrite lookup_insert_eq.
Qed.

(** The leader of [RaftClaims.events3] has died; the two others, one of which
    knows nothing of its command, accept a write. *)
Definition orphans : cluster := run_from (cluster3 8) [EKill 0].

Lemma live_majority_serves_writes_witness :
  ∃ s' msgs n T, rtc step orphans s' ∧ (∀ p, p ∉ ({[1; 2]} : gset Z) → c_nodes s' !! p = c_nodes orphans !! p)
    ∧ (∀ j, j ∈ ({[1; 2]} : gset Z) → ∃ r, c_nodes s' !! j = Some r
         ∧ applyCh r = Some (msgs ++ [mkApplyMsg true n T (str "soul") (str "33") false]))
    ∧ ∀ m M, represents m M →
        ∃ m', apply_msgs m (msgs ++ [mkApplyMsg true n T (str "soul") (str "33") false]) = Ret m'
        ∧ Get m' (str "soul") = Ret (str "33", false, true).
Proof.
  apply (live_majority_serves_writes ids3 clk0 orphans {[1; 2]} (str "soul") (str "33") false).
  - exact ids3_valid.
  - cbn. lia.
  - eapply rtc_reachable; [apply (cluster3_reachable 8)|apply run_from_rtc].
  - split; [|vm_compute; lia]. intros v [->%elem_of_singleton| ->%elem_of_singleton]%elem_of_union; cbn; set_solver.
  - intros j [->%elem_of_singleton| ->%elem_of_singleton]%elem_of_union; eexists; (split; [vm_compute; reflexivity|reflexivity]).
Defined.
