(* ===== verification/ApplyChan.v ===== *)
(** * Apply channels of bounded capacity

    A Raft node sends what it applies on a buffered channel while it holds its
    lock, and the daemon's apply goroutine receives on the other side and writes
    the daemon's MemTable.  When the buffer is full the send blocks: [applyLogs]
    stands still with the lock held, the caller of the handler gets no reply, and
    no other handler of the node runs, until the goroutine has received.  The
    same MemTable is written by the Stagway server: [PutGeo] and [FocusTombstone]
    put a write into it as soon as [Submit] has accepted the command.

    A [worker] is a node with its channel and its store.  [wk_node] is the node
    at this moment; its [applyCh] lists the messages sent so far, of which the
    goroutine has taken [wk_received] out of the channel and written [wk_applied]
    to [wk_store].  [wk_todo] turns of the loop of [applyLogs] are left to the
    handler that holds the lock, and [wk_hold] is the reply it gives when it
    returns.  [wk_writes] are the accepted commands whose connections have not yet
    reached the MemTable, [wk_direct] those that have.  [bstep] interleaves
    handlers, turns of [applyLogs], the goroutine and the server's writes of all
    the nodes of a cluster; the server's appends to the WAL between [Submit] and
    the MemTable do not touch this state.

    The cluster with channels refines the cluster of RaftCluster, where sends do
    not block ([bounded_refines]), so that what was proved there holds of it. *)

From Stdlib Require Import Strings.Byte Strings.String.
From S2P Require Import Prelude GoBytes KV MemTable MemTableSpec.
From S2P Require Import RaftNode RaftCluster RaftInv RaftSafety RaftLive RaftClaims RaftCommit RaftAgree RaftConsensus.
From S2P Require Import Stagway Daemon Replica.

Local Open Scope Z_scope.

Record worker := mkWorker {
  wk_node : RaftNode;
  wk_todo : nat;
  wk_received : nat;
  wk_applied : nat;
  wk_store : MemTable;
  wk_writes : list kvt;
  wk_direct : list kvt;
  wk_hold : list flight }.

Record bcluster := mkBounded { b_workers : gmap Z worker; b_flights : list flight }.

(** The messages a node has sent. *)
Definition messages (r : RaftNode) : list ApplyMsg := default [] (applyCh r).

(** No handler of the node is running. *)
Definition unlocked (w : worker) : Prop := wk_todo w = 0%nat ∧ wk_hold w = [].

#[global] Instance unlocked_dec w : Decision (unlocked w).
Proof. unfold unlocked. apply _. Defined.

(** [handles i r F r' fs hold ws]: node [i] in the state [r], with the calls [F] in
    flight, runs a handler that leaves the node [r'] and the calls [fs] in flight;
    the reply in [hold] is given when the handler returns, and [ws] is the write
    that the server then makes for an accepted command. *)
Inductive handles (i : Z) (r : RaftNode) (F : list flight) :
    RaftNode → list flight → list flight → list kvt → Prop :=
| h_election c r' ms :
    election_tick r c = Ret (r', ms) →
    handles i r F r' (F ++ (launch i <$> ms)) [] []
| h_heartbeat r' ms :
    heartbeat_tick r = Ret (r', ms) →
    handles i r F r' (F ++ (launch i <$> ms)) [] []
| h_submit k v t r' ms res :
    Submit r k v t = Ret (r', ms, res) →
    handles i r F r' (F ++ (launch i <$> ms)) [] (if res.2 then [(k, v, t)] else [])
| h_kill : handles i r F (Kill r) F [] []
| h_request_vote l1 l2 from args c r' reply :
    F = l1 ++ VoteCall from i args :: l2 → RequestVote r args c = Ret (r', reply) →
    handles i r F r' (l1 ++ l2) [VoteDone from i args reply] []
| h_append_entries l1 l2 from args c r' reply :
    F = l1 ++ AppendCall from i args :: l2 → AppendEntries r args c = Ret (r', reply) →
    handles i r F r' (l1 ++ l2) [AppendDone from i args reply] []
| h_vote_reply l1 l2 to args reply c r' ms :
    F = l1 ++ VoteDone i to args reply :: l2 → handle_vote_reply r (rv_Term args) reply c = Ret (r', ms) →
    handles i r F r' ((l1 ++ l2) ++ (launch i <$> ms)) [] []
| h_append_reply l1 l2 to args reply c r' :
    F = l1 ++ AppendDone i to args reply :: l2 → handle_append_reply r to args reply c = Ret r' →
    handles i r F r' (l1 ++ l2) [] [].

(** A handler ends with [applyLogs], if it applies anything: the node when that
    loop starts, and its turns ([handles_resume]). *)
Definition before_apply (r r' : RaftNode) : RaftNode := set_applied r' (lastApplied r) (applyCh r).
Definition turns (r r' : RaftNode) : nat := Z.to_nat (lastApplied r' - lastApplied r).

Definition set_worker (b : bcluster) (i : Z) (w : worker) (fs : list flight) : bcluster :=
  mkBounded (<[i := w]> (b_workers b)) fs.

(** The write that a connection makes after its command was accepted. *)
Definition server_write (m : MemTable) (op : kvt) : go (MemTable * bool) :=
  if op.2 then Delete m op.1.1 else Put m op.1.1 op.1.2.

(** What happens to a node between the start of a handler and the next one: a
    turn of [applyLogs], whose send needs room in the channel; the goroutine
    receives a message when it is done with the one before, and applies it; the
    handler returns when its loop is over. *)
Inductive chan_step (cap : nat) (i : Z) (b : bcluster) : bcluster → Prop :=
| cs_send w k r1 :
    b_workers b !! i = Some w → wk_todo w = S k → apply_loop 1 (wk_node w) = Ret r1 →
    (length (messages r1) ≤ wk_received w + cap)%nat →
    chan_step cap i b
      (set_worker b i (mkWorker r1 k (wk_received w) (wk_applied w) (wk_store w) (wk_writes w)
                         (wk_direct w) (wk_hold w)) (b_flights b))
| cs_receive w :
    b_workers b !! i = Some w → wk_applied w = wk_received w →
    (wk_received w < length (messages (wk_node w)))%nat →
    chan_step cap i b
      (set_worker b i (mkWorker (wk_node w) (wk_todo w) (S (wk_received w)) (wk_applied w) (wk_store w)
                         (wk_writes w) (wk_direct w) (wk_hold w)) (b_flights b))
| cs_apply w msg m' :
    b_workers b !! i = Some w → (wk_applied w < wk_received w)%nat →
    messages (wk_node w) !! wk_applied w = Some msg → apply_msg (wk_store w) msg = Ret m' →
    chan_step cap i b
      (set_worker b i (mkWorker (wk_node w) (wk_todo w) (wk_received w) (S (wk_applied w)) m'
                         (wk_writes w) (wk_direct w) (wk_hold w)) (b_flights b))
| cs_return w :
    b_workers b !! i = Some w → wk_todo w = 0%nat → wk_hold w ≠ [] →
    chan_step cap i b
      (set_worker b i (mkWorker (wk_node w) 0 (wk_received w) (wk_applied w) (wk_store w)
                         (wk_writes w) (wk_direct w) []) (b_flights b ++ wk_hold w)).

Inductive bstep (cap : nat) (b : bcluster) : bcluster → Prop :=
| bs_handle i w r' fs hold ws :
    b_workers b !! i = Some w → unlocked w → handles i (wk_node w) (b_flights b) r' fs hold ws →
    bstep cap b
      (set_worker b i (mkWorker (before_apply (wk_node w) r') (turns (wk_node w) r') (wk_received w)
                         (wk_applied w) (wk_store w) (wk_writes w ++ ws) (wk_direct w) hold) fs)
| bs_channel i b' : chan_step cap i b b' → bstep cap b b'
| bs_write i w l1 op l2 m' full :
    b_workers b !! i = Some w → wk_writes w = l1 ++ op :: l2 →
    server_write (wk_store w) op = Ret (m', full) →
    bstep cap b
      (set_worker b i (mkWorker (wk_node w) (wk_todo w) (wk_received w) (wk_applied w) m' (l1 ++ l2)
                         (wk_direct w ++ [op]) (wk_hold w)) (b_flights b))
| bs_lose l1 l2 f :
    b_flights b = l1 ++ f :: l2 → bstep cap b (mkBounded (b_workers b) (l1 ++ l2)).

(** The capacity the daemon gives its channel. *)
Definition applyCh_cap : nat := Z.to_nat 1000.

Definition new_worker (ids : list Z) (clk : Z → clock) (store : Z → MemTable) (i : Z) : worker :=
  mkWorker (NewRaftNode i (peers_of ids i) (Some []) (clk i)) 0 0 0 (store i) [] [] [].

Definition binitial (ids : list Z) (clk : Z → clock) (store : Z → MemTable) : bcluster :=
  mkBounded (list_to_map ((λ i, (i, new_worker ids clk store i)) <$> ids)) [].

Inductive breachable (cap : nat) (ids : list Z) (clk : Z → clock) (store : Z → MemTable) : bcluster → Prop :=
| breach_init : breachable cap ids clk store (binitial ids clk store)
| breach_step b b' : breachable cap ids clk store b → bstep cap b b' → breachable cap ids clk store b'.

(** The node as its handler will leave it. *)
Definition wk_final (w : worker) : RaftNode :=
  match apply_loop (wk_todo w) (wk_node w) with Ret r => r | _ => wk_node w end.

(** * Facts *)

(** ** A handler that applies can be cut at every turn *)

Lemma apply_loop_S k r :
  apply_loop (S k) r = (let* r1 := apply_loop 1 r in apply_loop k r1).
Proof. cbn [apply_loop]. cbv zeta. by destruct (GoBytes.index _ _). Qed.

(** A turn sends at most one message, which is valid. *)
Lemma apply_turn r r1 :
  apply_loop 1 r = Ret r1 →
  lastApplied r1 = lastApplied r + 1
  ∧ ∃ new, applyCh r1 = (λ msgs, msgs ++ new) <$> applyCh r ∧ (length new ≤ 1)%nat
      ∧ Forall (λ msg, CommandValid msg = true) new.
Proof.
  cbn [apply_loop]. cbv zeta. intros (e & _ & E)%go_bind_Ret_inv. injection E as <-. cbn. split; [done|].
  destruct (applyCh r) as [msgs|]; [|exists []; split_and!; [done|cbn; lia|constructor]].
  destruct (0 <? e_Index e); [eexists; split_and!; [done|cbn; lia|by repeat constructor]|].
  exists []. cbn. rewrite app_nil_r. split_and!; [done|lia|constructor].
Qed.

Lemma apply_loop_extends k r r' :
  apply_loop k r = Ret r' →
  lastApplied r' = lastApplied r + Z.of_nat k
  ∧ ∃ new, applyCh r' = (λ msgs, msgs ++ new) <$> applyCh r ∧ Forall (λ msg, CommandValid msg = true) new.
Proof.
  revert r. induction k as [|k IH]; intros r E.
  { injection E as <-. split; [lia|]. exists []. destruct (applyCh r); cbn; [by rewrite app_nil_r|done]. }
  rewrite apply_loop_S in E. apply go_bind_Ret_inv in E as (r1 & E1 & E).
  destruct (apply_turn _ _ E1) as (L1 & n1 & C1 & _ & V1). destruct (IH _ E) as (L2 & n2 & C2 & V2).
  split; [lia|]. exists (n1 ++ n2). rewrite C2, C1. split; [|by apply Forall_app].
  destruct (applyCh r); cbn; [by rewrite app_assoc|done].
Qed.

Lemma before_apply_same r r' :
  lastApplied r' = lastApplied r → applyCh r' = applyCh r →
  before_apply r r' = r' ∧ turns r r' = 0%nat.
Proof.
  intros El Ec. unfold before_apply, turns, set_applied. rewrite <-El, <-Ec, Z.sub_diag. by destruct r'.
Qed.

(** [r'] is what [applyLogs] makes of the node it was started on. *)
Definition resumes (r r' : RaftNode) : Prop := apply_loop (turns r r') (before_apply r r') = Ret r'.

Lemma resumes_same r r' : lastApplied r' = lastApplied r → applyCh r' = applyCh r → resumes r r'.
Proof. intros El Ec. unfold resumes. by destruct (before_apply_same _ _ El Ec) as [-> ->]. Qed.

Lemma resumes_loop k r r1 r' :
  apply_loop k r1 = Ret r' → lastApplied r1 = lastApplied r → applyCh r1 = applyCh r → resumes r r'.
Proof.
  intros E El Ec. destruct (apply_loop_extends _ _ _ E) as [L _].
  destruct (apply_loop_shape _ _ _ E) as (n & ch & ->). cbn in L. subst n.
  unfold resumes, before_apply, turns. cbn [set_applied lastApplied applyCh].
  replace (Z.to_nat (lastApplied r1 + Z.of_nat k - lastApplied r)) with k by lia.
  rewrite <-El, <-Ec. rewrite <-E at 1. f_equal. by destruct r1.
Qed.

Lemma advance_loop_resumes k r r1 N r' :
  advance_loop k r1 N = Ret r' → lastApplied r1 = lastApplied r → applyCh r1 = applyCh r → resumes r r'.
Proof.
  intros E El Ec. revert N E. induction k as [|k IH]; intros N E; cbn [advance_loop] in E.
  { injection E as <-. by apply resumes_same. }
  apply go_bind_Ret_inv in E as (e & _ & E). destruct (negb _); [by eapply IH|].
  destruct (_ <=? _); [|by eapply IH]. by eapply resumes_loop.
Qed.

Lemma becomeLeader_resumes r r1 r' ms :
  becomeLeader r1 = Ret (r', ms) → lastApplied r1 = lastApplied r → applyCh r1 = applyCh r → resumes r r'.
Proof. unfold becomeLeader. intros E El Ec. go_inv. by apply resumes_same. Qed.

Lemma AppendEntries_resumes r args c r' reply : AppendEntries r args c = Ret (r', reply) → resumes r r'.
Proof.
  unfold AppendEntries. cbv zeta. set (r1 := if _ <? ae_Term args then _ else r).
  assert (lastApplied r1 = lastApplied r ∧ applyCh r1 = applyCh r) as [L1 H1] by (unfold r1; by destruct (_ <? _)).
  clearbody r1. intros E.
  destruct (_ <? currentTerm r1); [injection E as <- <-; by apply resumes_same|].
  destruct (_ <=? _); [injection E as <- <-; by apply resumes_same|].
  apply go_bind_Ret_inv in E as (e & _ & E). destruct (negb _); [injection E as <- <-; by apply resumes_same|].
  apply go_bind_Ret_inv in E as (log & _ & E). destruct (_ <? _); [|injection E as <- <-; by apply resumes_same].
  apply go_bind_Ret_inv in E as (r2 & E & E'). injection E' as <- <-. by eapply resumes_loop.
Qed.

(** Every handler is some steps that leave the channel alone, and then turns of
    the loop of [applyLogs]. *)
Lemma handles_resume i r F r' fs hold ws : handles i r F r' fs hold ws → resumes r r'.
Proof.
  destruct 1 as [c r' ms E|r' ms E|k v t r' ms res E| |l1 l2 from args c r' reply _ E
    |l1 l2 from args c r' reply _ E|l1 l2 to args reply c r' ms _ E|l1 l2 to args reply c r' _ E].
  - unfold election_tick in E. destruct (killed r); [injection E as <- <-; by apply resumes_same|].
    destruct (_ && _); [|injection E as <- <-; by apply resumes_same].
    apply go_bind_Ret_inv in E as ([r1 ms1] & E1 & E). injection E as <- <-.
    unfold startElection in E1. cbv zeta in E1. apply go_bind_Ret_inv in E1 as (e & _ & E1).
    destruct (_ <=? 1); [unfold becomeLeader in E1; go_inv|injection E1 as <- <-]; by apply resumes_same.
  - unfold heartbeat_tick in E. destruct (_ || _); go_inv; simplify_eq; by apply resumes_same.
  - unfold Submit in E. destruct (negb _); go_inv; simplify_eq; by apply resumes_same.
  - by apply resumes_same.
  - unfold RequestVote in E. cbv zeta in E. apply resumes_same;
      destruct (currentTerm r <? rv_Term args); (destruct (_ <? _); [by injection E as <- <-|]);
      apply go_bind_Ret_inv in E as (e & _ & E); destruct (_ && _); by injection E as <- <-.
  - by eapply AppendEntries_resumes.
  - unfold handle_vote_reply in E. repeat case_match; go_inv; simplify_eq; try by apply resumes_same.
    by eapply becomeLeader_resumes.
  - unfold handle_append_reply in E. repeat case_match; go_inv; simplify_eq; try by apply resumes_same.
    by eapply advance_loop_resumes.
Qed.

Lemma wk_final_unlocked w : unlocked w → wk_final w = wk_node w.
Proof. intros [Ht _]. unfold wk_final. by rewrite Ht. Qed.

(** ** Refinement of the cluster whose sends do not block *)

(** The replies that callers are waiting for. *)
Definition held (ws : gmap Z worker) : list flight := map_to_list ws ≫= λ p, wk_hold p.2.

Lemma held_delete ws i w : ws !! i = Some w → held ws ≡ₚ wk_hold w ++ held (delete i ws).
Proof. intros Hw. unfold held. rewrite <-(map_to_list_delete ws i w Hw). by rewrite bind_cons. Qed.

Lemma held_insert ws i w : held (<[i := w]> ws) ≡ₚ wk_hold w ++ held (delete i ws).
Proof. rewrite (held_delete (<[i := w]> ws) i w) by apply lookup_insert_eq. by rewrite delete_insert_eq. Qed.

(** The cluster with channels and a cluster without: every node is as its
    handler will leave it, and the replies of handlers are in flight at once. *)
Definition simulates (b : bcluster) (s : cluster) : Prop :=
  c_nodes s = wk_final <$> b_workers b ∧ c_flights s ≡ₚ b_flights b ++ held (b_workers b).

Lemma simulates_lookup b N i r :
  N = wk_final <$> b_workers b → N !! i = Some r → ∃ w, b_workers b !! i = Some w ∧ wk_final w = r.
Proof.
  intros -> Hr. rewrite lookup_fmap in Hr. destruct (b_workers b !! i) as [w|]; [|done].
  exists w. split; [done|]. by injection Hr.
Qed.

(** Taking a flight out of lists that are permutations of each other. *)
Lemma take_flight (l l1 l2 X : list flight) f :
  l ≡ₚ (l1 ++ f :: l2) ++ X → ∃ k1 k2, l = k1 ++ f :: k2 ∧ k1 ++ k2 ≡ₚ (l1 ++ l2) ++ X.
Proof.
  intros Hl. assert (f ∈ l) as (k1 & k2 & ->)%list_elem_of_split by (rewrite Hl; set_solver).
  exists k1, k2. split; [done|]. apply (Permutation_cons_inv (a := f)).
  rewrite Permutation_middle, Hl. solve_Permutation.
Qed.

(** A handler is a step of the cluster. *)
Lemma handles_step N F i r r' fs hold ws X s :
  handles i r F r' fs hold ws → N !! i = Some r → c_nodes s = N → c_flights s ≡ₚ F ++ X →
  ∃ s', step s s' ∧ c_nodes s' = <[i := r']> N ∧ c_flights s' ≡ₚ fs ++ hold ++ X.
Proof.
  destruct s as [N' fl]. intros Hh Hr HN Hf. cbn in HN, Hf. subst N'.
  assert (∀ ms, fl ++ (launch i <$> ms) ≡ₚ (F ++ (launch i <$> ms)) ++ [] ++ X) as Hnew
    by (intros ms; rewrite Hf; cbn [app]; solve_Permutation).
  destruct Hh as [c r2 ms E|r2 ms E|k v t r2 ms res E| |l1 l2 from args c r2 reply -> E
    |l1 l2 from args c r2 reply -> E|l1 l2 to args reply c r2 ms -> E|l1 l2 to args reply c r2 -> E];
    try (destruct (take_flight _ _ _ _ _ Hf) as (k1 & k2 & -> & Hk)).
  - eexists. split; [by eapply step_election|]. split; [done|apply Hnew].
  - eexists. split; [by eapply step_heartbeat|]. split; [done|apply Hnew].
  - eexists. split; [by eapply step_submit|]. split; [done|apply Hnew].
  - eexists. split; [by eapply step_kill|]. split; [done|]. cbn. by rewrite app_nil_r.
  - eexists. split; [by eapply step_request_vote|]. split; [done|]. cbn. rewrite <-Permutation_middle, Hk. solve_Permutation.
  - eexists. split; [by eapply step_append_entries|]. split; [done|]. cbn. rewrite <-Permutation_middle, Hk. solve_Permutation.
  - eexists. split; [by eapply step_vote_reply|]. split; [done|]. cbn. rewrite Hk. solve_Permutation.
  - eexists. split; [by eapply step_append_reply|]. split; [done|]. cbn. rewrite Hk, app_nil_r. done.
Qed.

(** A step of a worker that does not change how its handler will end. *)
Lemma simulates_worker b s i w w' fs :
  simulates b s → b_workers b !! i = Some w → wk_final w' = wk_final w →
  fs ++ wk_hold w' ≡ₚ b_flights b ++ wk_hold w → simulates (set_worker b i w' fs) s.
Proof.
  intros [Hn Hf] Hw Hnode Hfs. split; cbn.
  - rewrite Hn, fmap_insert, Hnode. symmetry. apply insert_id. by rewrite lookup_fmap, Hw.
  - rewrite Hf, (held_delete _ _ _ Hw), held_insert, !app_assoc. by rewrite Hfs.
Qed.

(** The loop of a handler does not fail. *)
Definition runs (w : worker) : Prop := apply_loop (wk_todo w) (wk_node w) = Ret (wk_final w).

(** A turn goes on with the same loop. *)
Lemma runs_send w k r1 rc ap st wr di ho :
  runs w → wk_todo w = S k → apply_loop 1 (wk_node w) = Ret r1 →
  let w' := mkWorker r1 k rc ap st wr di ho in runs w' ∧ wk_final w' = wk_final w.
Proof.
  unfold runs, wk_final. cbn [wk_todo wk_node]. intros Hr Hk E1. rewrite Hk, apply_loop_S, E1 in Hr |- *.
  cbn [bind_go] in Hr |- *. by destruct (apply_loop k r1).
Qed.

Lemma runs_handle r r' rc ap st wr di ho :
  resumes r r' →
  let w := mkWorker (before_apply r r') (turns r r') rc ap st wr di ho in runs w ∧ wk_final w = r'.
Proof. unfold resumes, runs, wk_final. cbn. by intros ->. Qed.

Lemma chan_step_simulates cap i b b' s :
  (∀ w, b_workers b !! i = Some w → runs w) → simulates b s → chan_step cap i b b' → simulates b' s.
Proof.
  intros Hrun Hs [w k r1 Hw Hk E1 _|w Hw|w msg m' Hw|w Hw Hk]; (eapply simulates_worker; [done..| |]); try done.
  - eapply runs_send; by eauto.
  - unfold wk_final. cbn. by rewrite Hk.
  - cbn. by rewrite app_nil_r.
Qed.

(** ** The invariant of a worker *)

(** [M0] is what the store held when the daemon started.  A key that the server
    has not written itself reads as the applied messages left it. *)
Record chan_ok (cap : nat) (M0 : kv) (w : worker) : Prop := {
  ch_open : is_Some (applyCh (wk_node w));
  ch_runs : runs w;
  ch_valid : Forall (λ msg, CommandValid msg = true) (messages (wk_node w));
  ch_applied : (wk_applied w ≤ wk_received w ≤ S (wk_applied w))%nat;
  ch_received : (wk_received w ≤ length (messages (wk_node w)))%nat;
  ch_room : (length (messages (wk_node w)) ≤ wk_received w + cap)%nat;
  ch_store : ∃ M, represents (wk_store w) M
    ∧ ∀ key, (∀ op, op ∈ wk_direct w → op.1.1 ≠ key) →
        M !! key = apply_ops M0 (op_of <$> take (wk_applied w) (messages (wk_node w))) !! key }.

Lemma apply_msg_op m M msg :
  CommandValid msg = true → represents m M →
  ∃ m', apply_msg m msg = Ret m' ∧ represents m' (apply_op M (op_of msg)).
Proof.
  intros Hv Hm. destruct (apply_msgs_ok [msg] m M) as (m' & E & Hm'); [by constructor|done|].
  exists m'. cbn [apply_msgs] in E. apply go_bind_Ret_inv in E as (m1 & E1 & [= <-]). done.
Qed.

Lemma server_write_ok m M op :
  represents m M → ∃ m' full, server_write m op = Ret (m', full) ∧ represents m' (apply_op M op).
Proof.
  intros Hm. destruct (represents_insert m M op.1.1 (op_value op).1 (op_value op).2 Hm) as (m' & E & _ & Hm').
  exists m', (IsFull m'). destruct op as [[k v] []]; done.
Qed.

Lemma apply_op_other M op key : op.1.1 ≠ key → apply_op M op !! key = M !! key.
Proof. intros Hne. unfold apply_op. by rewrite lookup_insert_ne. Qed.

Lemma apply_op_ext M M' op key : M !! key = M' !! key → apply_op M op !! key = apply_op M' op !! key.
Proof. intros E. unfold apply_op. rewrite !lookup_insert. by case_decide. Qed.

Lemma apply_ops_ext ops M M' key :
  M !! key = M' !! key → foldl apply_op M ops !! key = foldl apply_op M' ops !! key.
Proof. revert M M'. induction ops as [|op ops IH]; intros M M' E; [done|]. by apply IH, apply_op_ext. Qed.

Section worker.
Context (cap : nat) (M0 : kv).

Lemma chan_ok_send w k r1 :
  chan_ok cap M0 w → wk_todo w = S k → apply_loop 1 (wk_node w) = Ret r1 →
  (length (messages r1) ≤ wk_received w + cap)%nat →
  chan_ok cap M0 (mkWorker r1 k (wk_received w) (wk_applied w) (wk_store w) (wk_writes w) (wk_direct w) (wk_hold w)).
Proof using Type.
  intros [[msgs Ho] Hr Hv Ha Hrc Hrm Hst] Hk E1 Hroom.
  destruct (apply_turn _ _ E1) as (_ & new & Ec & _ & Vn). unfold messages in *. rewrite Ho in *. cbn in *.
  split; cbn [wk_node wk_todo wk_received wk_applied wk_store wk_writes wk_direct wk_hold];
    unfold messages; rewrite ?Ec; cbn [fmap option_fmap option_map default from_option id]; try done.
  - eapply runs_send; eauto.
  - by apply Forall_app.
  - rewrite length_app. lia.
  - by rewrite Ec in Hroom.
  - rewrite take_app_le by lia. done.
Qed.

Lemma chan_ok_apply w msg m' :
  chan_ok cap M0 w → (wk_applied w < wk_received w)%nat → messages (wk_node w) !! wk_applied w = Some msg →
  apply_msg (wk_store w) msg = Ret m' →
  chan_ok cap M0 (mkWorker (wk_node w) (wk_todo w) (wk_received w) (S (wk_applied w)) m' (wk_writes w) (wk_direct w) (wk_hold w)).
Proof using Type.
  intros [Ho Hr Hv Ha Hrc Hrm (M & HM & Hst)] Hlt Hmsg Em. split; cbn; try done; [lia|].
  assert (CommandValid msg = true) as Hvm by (by eapply (Forall_lookup_1 _ _ _ _ Hv)).
  destruct (apply_msg_op _ _ _ Hvm HM) as (m1 & E1 & HM1). rewrite Em in E1. injection E1 as <-.
  exists (apply_op M (op_of msg)). split; [done|]. intros key Hkey.
  rewrite (take_S_r _ _ _ Hmsg), fmap_app. unfold apply_ops. rewrite foldl_app. cbn.
  by apply apply_op_ext, Hst.
Qed.

Lemma chan_ok_write w l1 op l2 m' full :
  chan_ok cap M0 w → server_write (wk_store w) op = Ret (m', full) →
  chan_ok cap M0 (mkWorker (wk_node w) (wk_todo w) (wk_received w) (wk_applied w) m' (l1 ++ l2) (wk_direct w ++ [op]) (wk_hold w)).
Proof using Type.
  intros [Ho Hr Hv Ha Hrc Hrm (M & HM & Hst)] Ew. split; cbn; try done.
  destruct (server_write_ok _ _ op HM) as (m1 & f1 & E1 & HM1). rewrite Ew in E1. injection E1 as <- <-.
  exists (apply_op M op). split; [done|]. intros key Hkey.
  rewrite apply_op_other by (apply Hkey; set_solver). apply Hst. intros op' Hop'. apply Hkey. set_solver.
Qed.

Lemma chan_ok_handle w r' fs hold ws i F :
  chan_ok cap M0 w → unlocked w → handles i (wk_node w) F r' fs hold ws →
  chan_ok cap M0 (mkWorker (before_apply (wk_node w) r') (turns (wk_node w) r') (wk_received w) (wk_applied w)
                    (wk_store w) (wk_writes w ++ ws) (wk_direct w) hold).
Proof using Type.
  intros [Ho Hr Hv Ha Hrc Hrm Hst] _ Hh. apply handles_resume in Hh. split; cbn; try done. by apply runs_handle.
Qed.
End worker.

(** ** Progress *)

(** The channel steps that are left until the node is idle and its store is up to date. *)
Definition work (w : worker) : nat :=
  wk_todo w + (length (messages (wk_final w)) - wk_received w) + (length (messages (wk_final w)) - wk_applied w)
  + (if decide (wk_hold w = []) then 0 else 1).

Lemma final_messages w : runs w → messages (wk_node w) `prefix_of` messages (wk_final w).
Proof.
  intros (_ & new & E & _)%apply_loop_extends. unfold messages. rewrite E.
  destruct (applyCh (wk_node w)); cbn; [by eexists|apply prefix_nil].
Qed.

Lemma work_zero cap M0 w :
  chan_ok cap M0 w → work w = 0%nat →
  unlocked w ∧ wk_final w = wk_node w ∧ wk_applied w = length (messages (wk_node w)).
Proof.
  intros [_ Hr _ Ha Hrc _ _]. unfold work, unlocked. case_decide; [|lia]. intros Hz.
  assert (wk_todo w = 0%nat) as Ht by lia. assert (wk_final w = wk_node w) as Hf by (unfold wk_final; by rewrite Ht).
  rewrite Hf in Hz. split_and!; [done|done|done|lia].
Qed.

(** Every channel step does one unit of the work of its worker only, and changes
    neither how the handler will end nor what the store will be. *)
Lemma chan_step_work cap i b b' M0 w :
  b_workers b !! i = Some w → chan_ok cap M0 w → chan_step cap i b b' →
  ∃ w', b_workers b' !! i = Some w' ∧ work w = S (work w') ∧ wk_final w' = wk_final w
    ∧ chan_ok cap M0 w' ∧ (∀ j, j ≠ i → b_workers b' !! j = b_workers b !! j)
    ∧ b_flights b' ++ wk_hold w' = b_flights b ++ wk_hold w
    ∧ apply_msgs (wk_store w') (drop (wk_applied w') (messages (wk_final w)))
      = apply_msgs (wk_store w) (drop (wk_applied w) (messages (wk_final w))).
Proof.
  intros Hw Hok Hst. pose proof Hok as [_ Hr _ Ha Hrc Hrm _]. pose proof (final_messages w Hr) as [ext Hext].
  assert (length (messages (wk_node w)) ≤ length (messages (wk_final w)))%nat as Hlen
    by (rewrite Hext, length_app; lia).
  destruct Hst as [w1 k r1 Hw1 Hk E1 Hroom|w1 Hw1 Ha1 Hl|w1 msg m' Hw1 Hl Hmsg Hm|w1 Hw1 Hk Hh];
    rewrite Hw in Hw1; injection Hw1 as <-; cbn [set_worker b_workers b_flights];
    eexists; (split; [apply lookup_insert_eq|]).
  - destruct (runs_send w k r1 (wk_received w) (wk_applied w) (wk_store w) (wk_writes w) (wk_direct w) (wk_hold w)
                Hr Hk E1) as [_ Ef]. unfold work. rewrite Ef. cbn [wk_todo wk_received wk_applied wk_hold wk_store].
    split_and!; [rewrite Hk; case_decide; lia|done|by eapply chan_ok_send|by intros; rewrite lookup_insert_ne|done|done].
  - unfold work, wk_final in *. cbn [wk_node wk_todo wk_received wk_applied wk_hold wk_store] in *.
    split_and!; [case_decide; lia|done| |by intros; rewrite lookup_insert_ne|done|done].
    destruct Hok. split; cbn; try done; lia.
  - assert (messages (wk_final w) !! wk_applied w = Some msg) as Hmsg'
      by (rewrite Hext; by apply lookup_app_l_Some).
    change (wk_final (mkWorker (wk_node w) _ _ _ _ _ _ _)) with (wk_final w).
    unfold work. change (wk_final (mkWorker (wk_node w) _ _ _ _ _ _ _)) with (wk_final w).
    cbn [wk_node wk_todo wk_received wk_applied wk_hold wk_store].
    split_and!; [case_decide; lia|done|by eapply chan_ok_apply|by intros; rewrite lookup_insert_ne|done|].
    rewrite (drop_S _ _ _ Hmsg'). cbn [apply_msgs]. by rewrite Hm.
  - assert (wk_final (mkWorker (wk_node w) 0 (wk_received w) (wk_applied w) (wk_store w) (wk_writes w) (wk_direct w) [])
      = wk_final w) as Ef by (unfold wk_final; cbn; by rewrite Hk).
    unfold work. rewrite Ef. cbn [wk_node wk_todo wk_received wk_applied wk_hold wk_store].
    split_and!; [rewrite Hk; case_decide; [done|]; rewrite decide_True by done; lia|done| |by intros; rewrite lookup_insert_ne|by rewrite app_nil_r|done].
    by destruct Hok.
Qed.

Lemma chan_step_ok (cap : nat) (i : Z) (b b' : bcluster) (M0 : Z → kv) :
  (∀ j w, b_workers b !! j = Some w → chan_ok cap (M0 j) w) → chan_step cap i b b' →
  ∀ j w, b_workers b' !! j = Some w → chan_ok cap (M0 j) w.
Proof.
  intros Hb Hst j w' Hj.
  assert (is_Some (b_workers b !! i)) as [w Hw] by (by destruct Hst; eauto).
  destruct (chan_step_work _ _ _ _ _ _ Hw (Hb i w Hw) Hst) as (w1 & Hw1 & _ & _ & Hok & Hoth & _).
  destruct (decide (j = i)) as [->|Hne]; [|rewrite Hoth in Hj by done; eauto].
  rewrite Hw1 in Hj. by injection Hj as <-.
Qed.

Lemma bstep_chan_ok (cap : nat) (b b' : bcluster) (M0 : Z → kv) :
  (∀ j w, b_workers b !! j = Some w → chan_ok cap (M0 j) w) → bstep cap b b' →
  ∀ j w, b_workers b' !! j = Some w → chan_ok cap (M0 j) w.
Proof.
  intros Hb. destruct 1 as [i w r' fs hold ws Hw Hu Hd|i b' Hc|i w l1 op l2 m' full Hw _ Ew|l1 l2 f Hf];
    [|by eapply chan_step_ok| |exact Hb];
    intros j w' Hj; cbn in Hj; apply lookup_insert_Some in Hj as [[<- <-]|[_ Hj]]; [|by eapply Hb| |by eapply Hb].
  - by eapply chan_ok_handle; [apply Hb| |].
  - by eapply chan_ok_write; [apply Hb|].
Qed.

Lemma breachable_chan_ok cap ids clk store M0 b :
  (∀ i, represents (store i) (M0 i)) → breachable cap ids clk store b →
  ∀ i w, b_workers b !! i = Some w → chan_ok cap (M0 i) w.
Proof.
  intros Hst. induction 1 as [|b b' _ IH Hs]; [|by eapply bstep_chan_ok].
  intros i w Hw%elem_of_list_to_map_2. apply list_elem_of_fmap in Hw as (j & [= -> ->] & _).
  split; cbn; try done; try lia. exists (M0 j). split; [apply Hst|done].
Qed.

Lemma bstep_simulates cap b b' s :
  (∀ i w, b_workers b !! i = Some w → runs w) →
  simulates b s → bstep cap b b' → ∃ s', rtc step s s' ∧ simulates b' s'.
Proof.
  intros Hrun Hs. destruct 1 as [i w r' fs hold ws Hw Hu Hd|i b' Hc|i w l1 op l2 m' full Hw Hwr Ew|l1 l2 f Hf].
  - destruct Hs as [Hn Hfl].
    assert ((wk_final <$> b_workers b) !! i = Some (wk_node w)) as Hlk
      by (rewrite lookup_fmap, Hw; cbn; by rewrite wk_final_unlocked).
    destruct (handles_step _ _ _ _ _ _ _ _ _ s Hd Hlk Hn Hfl) as (s' & Hst & Hn' & Hf').
    exists s'. split; [by apply rtc_once|]. split; cbn.
    + rewrite Hn', fmap_insert. f_equal. symmetry. eapply runs_handle, handles_resume, Hd.
    + rewrite Hf', held_insert. cbn. rewrite (held_delete _ _ _ Hw), (proj2 Hu). done.
  - exists s. split; [done|]. eapply chan_step_simulates; eauto.
  - exists s. split; [done|]. by eapply simulates_worker.
  - destruct Hs as [Hn Hfl]. rewrite Hf in Hfl. destruct (take_flight _ _ _ _ _ Hfl) as (k1 & k2 & E & Hk).
    exists (set_flights s (k1 ++ k2)). split; [apply rtc_once; by eapply step_lose|]. by split.
Qed.

Lemma binitial_simulates ids clk store : simulates (binitial ids clk store) (initial ids clk).
Proof.
  split; cbn.
  - rewrite <-list_to_map_fmap, <-list_fmap_compose. done.
  - unfold held. symmetry. apply Permutation_nil_r.
    enough (∀ l : list (Z * worker), Forall (λ p, wk_hold p.2 = []) l → l ≫= (λ p, wk_hold p.2) = []) as H.
    { apply H, Forall_forall. intros [i w] Hiw%elem_of_map_to_list. cbn.
      apply elem_of_list_to_map_2, list_elem_of_fmap in Hiw as (j & [= -> ->] & _). done. }
    induction 1 as [|p l Hp _ IH]; [done|]. rewrite bind_cons, Hp. exact IH.
Qed.

(** Every run of the cluster with channels is a run of the other one. *)
Lemma bounded_refines cap ids clk store M0 b :
  (∀ i, represents (store i) (M0 i)) → breachable cap ids clk store b →
  ∃ s, reachable ids clk s ∧ simulates b s.
Proof.
  intros Hrep. induction 1 as [|b b' Hb (s & Hs & Hsim) Hst].
  - eexists. split; [constructor|apply binitial_simulates].
  - destruct (bstep_simulates cap b b' s) as (s' & Hst' & Hsim'); [|done|done|].
    { intros i w Hw. by eapply ch_runs, (breachable_chan_ok _ _ _ _ _ _ Hrep Hb i w Hw). }
    exists s'. split; [|done]. by eapply rtc_reachable.
Qed.

Section progress.
Context (cap : nat) (M0 : kv) (Hcap : (0 < cap)%nat).

(** While there is work, the channel moves. *)
Lemma chan_progress b i w :
  b_workers b !! i = Some w → chan_ok cap M0 w → work w ≠ 0%nat → ∃ b', chan_step cap i b b'.
Proof using Hcap.
  intros Hw [_ Hr Hv Ha Hrc Hrm (M & HM & _)] Hwork.
  destruct (decide (wk_applied w < wk_received w)%nat) as [Hlt|Hge].
  { destruct (lookup_lt_is_Some_2 (messages (wk_node w)) (wk_applied w)) as [msg Hmsg]; [lia|].
    pose proof (Forall_lookup_1 _ _ _ _ Hv Hmsg) as Hvm.
    destruct (apply_msg_op _ _ msg Hvm HM) as (m' & Em & _). eexists. by eapply cs_apply. }
  destruct (decide (wk_received w < length (messages (wk_node w)))%nat) as [Hl|Hl].
  { eexists. eapply cs_receive; [done|lia|done]. }
  destruct (wk_todo w) as [|k] eqn:Hk.
  - eexists. eapply cs_return; [done|done|]. intros Hh. unfold work, wk_final in Hwork.
    rewrite decide_True, Hk in Hwork by done. cbn in Hwork. lia.
  - unfold runs in Hr. rewrite Hk, apply_loop_S in Hr. apply go_bind_Ret_inv in Hr as (r1 & E1 & _).
    eexists. eapply cs_send; [done|done|exact E1|].
    destruct (apply_turn _ _ E1) as (_ & new & Ec & Hn & _). unfold messages in *. rewrite Ec.
    destruct (applyCh (wk_node w)); cbn in *; rewrite ?length_app; lia.
Qed.

(** The work of a worker can be done. *)
Lemma chan_drain n b i w :
  b_workers b !! i = Some w → chan_ok cap M0 w → work w = n →
  ∃ b' w', nsteps (chan_step cap i) n b b' ∧ b_workers b' !! i = Some w' ∧ work w' = 0%nat
    ∧ wk_final w' = wk_final w ∧ chan_ok cap M0 w'
    ∧ (∀ j, j ≠ i → b_workers b' !! j = b_workers b !! j)
    ∧ b_flights b' ++ wk_hold w' = b_flights b ++ wk_hold w
    ∧ apply_msgs (wk_store w') (drop (wk_applied w') (messages (wk_final w)))
      = apply_msgs (wk_store w) (drop (wk_applied w) (messages (wk_final w))).
Proof using Hcap.
  revert b w. induction n as [|n IH]; intros b w Hw Hok Hn.
  { exists b, w. split_and!; try done. constructor. }
  destruct (chan_progress b i w Hw Hok) as [b1 Hst]; [lia|].
  destruct (chan_step_work _ _ _ _ _ _ Hw Hok Hst) as (w1 & Hw1 & Hwk & Hf1 & Hok1 & Hoth & Hfl & Ea).
  destruct (IH b1 w1 Hw1 Hok1) as (b' & w' & Hn' & Hw' & Hz & Hf' & Hok' & Hoth' & Hfl' & Ea'); [lia|].
  exists b', w'. split_and!; try done.
  - by econstructor.
  - congruence.
  - intros j Hj. rewrite Hoth', Hoth by done. done.
  - by rewrite Hfl'.
  - rewrite Hf1 in Ea'. by rewrite Ea'.
Qed.
End progress.

(** ** Every run of the cluster is a run of the cluster with channels *)

Definition all_unlocked (b : bcluster) : Prop := map_Forall (λ _ w, unlocked w) (b_workers b).

Lemma held_unlocked ws : map_Forall (λ _ w, unlocked w) ws → held ws = [].
Proof.
  intros Hws. unfold held.
  assert (Forall (λ p, wk_hold p.2 = []) (map_to_list ws)) as Hl.
  { apply Forall_forall. intros [i w] Hiw%elem_of_map_to_list. apply (Hws i w Hiw). }
  induction Hl as [|p l Hp _ IH]; [done|]. rewrite bind_cons, Hp. exact IH.
Qed.

Lemma step_handles s s' F :
  step s s' → c_flights s ≡ₚ F →
  (∃ i r r' fs hold ws, c_nodes s !! i = Some r ∧ handles i r F r' fs hold ws
     ∧ c_nodes s' = <[i := r']> (c_nodes s) ∧ c_flights s' ≡ₚ fs ++ hold)
  ∨ ∃ l1 l2 f, F = l1 ++ f :: l2 ∧ c_nodes s' = c_nodes s ∧ c_flights s' ≡ₚ l1 ++ l2.
Proof.
  intros Hst HF.
  destruct Hst as [i r c r2 ms Hr E|i r r2 ms Hr E|i r k v t r2 ms res Hr E|i r Hr
    |l1 l2 from i args r c r2 reply Hf Hr E|l1 l2 from i args r c r2 reply Hf Hr E
    |l1 l2 i to args reply r c r2 ms Hf Hr E|l1 l2 i to args reply r c r2 Hf Hr E|l1 l2 f Hf];
    try (assert (F ≡ₚ (c_flights s) ++ []) as HF' by (by rewrite app_nil_r);
         rewrite Hf in HF'; destruct (take_flight _ _ _ _ _ HF') as (k1 & k2 & -> & Hk);
         rewrite app_nil_r in Hk);
    [left; do 6 eexists; (split; [exact Hr|])..|right].
  - split; [by eapply h_election|]. split; [done|]. cbn. by rewrite app_nil_r, HF.
  - split; [by eapply h_heartbeat|]. split; [done|]. cbn. by rewrite app_nil_r, HF.
  - split; [by eapply h_submit|]. split; [done|]. cbn. by rewrite app_nil_r, HF.
  - split; [by eapply h_kill|]. split; [done|]. cbn. by rewrite !app_nil_r, HF.
  - split; [by eapply h_request_vote|]. split; [done|]. cbn. rewrite Hk. solve_Permutation.
  - split; [by eapply h_append_entries|]. split; [done|]. cbn. rewrite Hk. solve_Permutation.
  - split; [by eapply h_vote_reply|]. split; [done|]. cbn. by rewrite app_nil_r, Hk.
  - split; [by eapply h_append_reply|]. split; [done|]. cbn. by rewrite !app_nil_r, Hk.
  - exists k1, k2, f. split; [done|]. split; [done|]. cbn. by rewrite Hk.
Qed.

Lemma nsteps_bstep cap i n b b' : nsteps (chan_step cap i) n b b' → rtc (bstep cap) b b'.
Proof. intros H. induction H; [done|]. eapply rtc_l; [by eapply bs_channel|done]. Qed.

Lemma step_lifts (cap : nat) (M0 : Z → kv) (b : bcluster) (s s' : cluster) :
  (0 < cap)%nat → (∀ i w, b_workers b !! i = Some w → chan_ok cap (M0 i) w) →
  simulates b s → all_unlocked b → step s s' →
  ∃ b', rtc (bstep cap) b b' ∧ simulates b' s' ∧ all_unlocked b'.
Proof.
  intros Hcap Hok [Hn Hf] Hu Hst. pose proof (held_unlocked _ Hu) as Hh. rewrite Hh, app_nil_r in Hf.
  destruct (step_handles s s' _ Hst Hf)
    as [(i & r & r' & fs & hold & ws & Hr & Hd & Hn' & Hf')|(l1 & l2 & f & E & Hn' & Hf')].
  2:{ exists (mkBounded (b_workers b) (l1 ++ l2)). split; [apply rtc_once; by eapply bs_lose|]. split; [|done].
      split; cbn; [congruence|]. by rewrite Hh, app_nil_r. }
  destruct (simulates_lookup _ _ _ _ Hn Hr) as (w & Hw & Hfin). rewrite wk_final_unlocked in Hfin by by eapply Hu.
  subst r. pose proof (bs_handle cap b i w r' fs hold ws Hw (Hu i w Hw) Hd) as Hbs.
  pose proof (bstep_chan_ok _ _ _ _ Hok Hbs) as Hok1. set (w1 := mkWorker _ _ _ _ _ _ _ _) in *.
  assert (wk_final w1 = r') as Hf1 by (eapply runs_handle, handles_resume, Hd).
  set (b1 := set_worker b i w1 fs) in *.
  assert (b_workers b1 !! i = Some w1) as Hw1 by apply lookup_insert_eq.
  destruct (chan_drain cap _ Hcap _ b1 i w1 Hw1 (Hok1 _ _ Hw1) eq_refl)
    as (b' & w' & Hns & Hw' & Hz & Hnode & Hokw & Hoth & Hfl & _).
  destruct (work_zero _ _ _ Hokw Hz) as ([Hs0 Hh0] & _). rewrite Hh0, app_nil_r in Hfl.
  assert (b_workers b' = <[i := w']> (b_workers b)) as Hb'.
  { apply map_eq. intros j. destruct (decide (j = i)) as [->|Hj]; [by rewrite lookup_insert_eq|].
    rewrite Hoth by done. unfold b1, set_worker; cbn. by rewrite !lookup_insert_ne. }
  exists b'. split; [eapply rtc_l; [exact Hbs|by eapply nsteps_bstep]|].
  assert (all_unlocked b') as Hu'.
  { unfold all_unlocked. rewrite Hb'. apply map_Forall_insert_2; [by split|done]. }
  split; [|done]. split.
  - rewrite Hn', Hn, Hb', fmap_insert, Hnode, Hf1. done.
  - rewrite (held_unlocked _ Hu'), app_nil_r, Hfl. done.
Qed.

Lemma rtc_breachable cap ids clk store b b' :
  breachable cap ids clk store b → rtc (bstep cap) b b' → breachable cap ids clk store b'.
Proof. intros Hb Hst. induction Hst as [|b b1 b' Hst _ IH]; [done|]. apply IH. by eapply breach_step. Qed.

(** With any positive capacity, every state of the cluster whose sends do not
    block is reached with no handler running. *)
Lemma reachable_bounded cap ids clk store M0 s :
  (0 < cap)%nat → (∀ i, represents (store i) (M0 i)) → reachable ids clk s →
  ∃ b, breachable cap ids clk store b ∧ simulates b s ∧ all_unlocked b.
Proof.
  intros Hcap Hrep. induction 1 as [|s s' _ (b & Hb & Hsim & Hu) Hst].
  - eexists. split; [constructor|]. split; [apply binitial_simulates|].
    intros i w Hw%elem_of_list_to_map_2. apply list_elem_of_fmap in Hw as (j & [= -> ->] & _). done.
  - destruct (step_lifts cap M0 b s s' Hcap (breachable_chan_ok _ _ _ _ _ _ Hrep Hb) Hsim Hu Hst)
      as (b' & Hst' & Hsim' & Hu'). exists b'. split; [by eapply rtc_breachable|done].
Qed.

(** ** Claims *)

(** Stores for the witnesses, and a state of three daemons in which a command has
    been committed. *)
Definition store0 (i : Z) : MemTable := new_table DefaultMemTableOptions [].

Lemma store0_ok i : represents (store0 i) ∅.
Proof. apply represents_default. Qed.

Lemma applyCh_cap_pos : (0 < applyCh_cap)%nat.
Proof. unfold applyCh_cap. lia. Qed.

Lemma bounded3 :
  ∃ b w0 w1, breachable applyCh_cap ids3 clk0 store0 b ∧ b_workers b !! 0 = Some w0 ∧ b_workers b !! 1 = Some w1
    ∧ wk_final w0 = node3 8 0 ∧ wk_final w1 = node3 8 1.
Proof.
  destruct (reachable_bounded applyCh_cap ids3 clk0 store0 (λ _, ∅) (cluster3 8) applyCh_cap_pos store0_ok (cluster3_reachable 8))
    as (b & Hb & [Hn _] & _).
  destruct (simulates_lookup _ _ 0 (node3 8 0) Hn) as (w0 & H0 & E0); [vm_compute; reflexivity|].
  destruct (simulates_lookup _ _ 1 (node3 8 1) Hn) as (w1 & H1 & E1); [vm_compute; reflexivity|].
  exists b, w0, w1. exact (conj Hb (conj H0 (conj H1 (conj E0 E1)))).
Qed.

(** The messages that workers have applied come from one sequence. *)
Lemma applied_take ids clk s i j ri rj mi mj n :
  valid_ids ids → reachable ids clk s → c_nodes s !! i = Some ri → c_nodes s !! j = Some rj →
  applyCh ri = Some mi → applyCh rj = Some mj → (n ≤ length mi)%nat → (n ≤ length mj)%nat →
  take n mi = take n mj.
Proof.
  intros Hids Hs Hi Hj Ei Ej Hni Hnj.
  destruct (applied_comparable ids clk s s i j _ _ mi mj Hids Hs (rtc_refl _ _) Hi Hj Ei Ej) as [[x ->]|[x ->]];
    by rewrite take_app_le.
Qed.

(** C5.  Replicas agree at every moment, with channels part full, handlers
    blocked in [applyLogs] and writes of the servers on their way.  Take two
    daemons of a cluster that started with equal stores, the first of which has
    applied no more messages than the second.  The messages it lacks exist and can
    be applied, and after them every key that neither of the two servers has
    itself written reads the same on both.  So the stores of daemons that have
    accepted no client write agree on all keys, up to how far they have come. *)
Theorem bounded_replicas_agree cap ids clk store M b i j wi wj :
  valid_ids ids → (∀ i, represents (store i) M) → breachable cap ids clk store b →
  b_workers b !! i = Some wi → b_workers b !! j = Some wj → (wk_applied wi ≤ wk_applied wj)%nat →
  ∃ rest t, rest = drop (wk_applied wi) (take (wk_applied wj) (messages (wk_node wj)))
    ∧ apply_msgs (wk_store wi) rest = Ret t
    ∧ ∀ key, (∀ op, op ∈ wk_direct wi ++ wk_direct wj → op.1.1 ≠ key) → Get t key = Get (wk_store wj) key.
Proof.
  intros Hids Hrep Hb Hi Hj Hle.
  destruct (breachable_chan_ok _ _ _ _ (λ _, M) _ Hrep Hb i wi Hi) as [_ Hri _ Hai Hci _ (Mi & HMi & Hsi)].
  destruct (breachable_chan_ok _ _ _ _ (λ _, M) _ Hrep Hb j wj Hj) as [_ Hrj Hvj Haj Hcj _ (Mj & HMj & Hsj)].
  destruct (bounded_refines _ _ _ _ (λ _, M) _ Hrep Hb) as (s & Hs & Hn & _).
  assert (take (wk_applied wi) (messages (wk_node wi)) = take (wk_applied wi) (messages (wk_node wj))) as Et.
  { destruct (applyCh (wk_final wi)) as [mi|] eqn:Ei, (applyCh (wk_final wj)) as [mj|] eqn:Ej;
      pose proof (final_messages _ Hri) as [xi Hxi]; pose proof (final_messages _ Hrj) as [xj Hxj];
      unfold messages in Hxi at 1; unfold messages in Hxj at 1; rewrite Ei in Hxi; rewrite Ej in Hxj;
      cbn in Hxi, Hxj.
    - assert (take (wk_applied wi) mi = take (wk_applied wi) mj) as E.
      { eapply (applied_take ids clk s i j); [done|done|by rewrite Hn, lookup_fmap, Hi|by rewrite Hn, lookup_fmap, Hj|done|done|..].
        - rewrite Hxi, length_app. lia.
        - rewrite Hxj, length_app. lia. }
      rewrite Hxi, Hxj, !take_app_le in E by lia. done.
    - destruct (messages (wk_node wj)); [|done]. cbn in Hcj. by replace (wk_applied wi) with 0%nat by lia.
    - destruct (messages (wk_node wi)); [|done]. cbn in Hci. by replace (wk_applied wi) with 0%nat by lia.
    - destruct (messages (wk_node wi)), (messages (wk_node wj)); done. }
  set (rest := drop (wk_applied wi) (take (wk_applied wj) (messages (wk_node wj)))).
  assert (take (wk_applied wj) (messages (wk_node wj)) = take (wk_applied wi) (messages (wk_node wj)) ++ rest) as Esplit.
  { unfold rest. rewrite <-(take_drop (wk_applied wi) (take (wk_applied wj) _)) at 1. by rewrite take_take, Nat.min_l. }
  assert (Forall (λ msg, CommandValid msg = true) rest) as Hv by (unfold rest; auto using Forall_take, Forall_drop).
  destruct (apply_msgs_ok rest _ _ Hv HMi) as (t & E & Ht).
  exists rest, t. split_and!; [done|done|]. intros key Hkey.
  rewrite (represents_get _ _ _ Ht), (represents_get _ _ _ HMj). do 2 f_equal.
  rewrite Hsj by (intros op Hop; apply Hkey; set_solver). rewrite Esplit, fmap_app. unfold apply_ops. rewrite foldl_app.
  apply apply_ops_ext. rewrite Hsi by (intros op Hop; apply Hkey; set_solver). by rewrite Et.
Qed.

Lemma bounded_replicas_agree_witness :
  ∃ b i j wi wj rest t, breachable applyCh_cap ids3 clk0 store0 b
    ∧ b_workers b !! i = Some wi ∧ b_workers b !! j = Some wj ∧ i ≠ j
    ∧ apply_msgs (wk_store wi) rest = Ret t
    ∧ ∀ key, (∀ op, op ∈ wk_direct wi ++ wk_direct wj → op.1.1 ≠ key) → Get t key = Get (wk_store wj) key.
Proof.
  destruct bounded3 as (b & w0 & w1 & Hb & H0 & H1 & _).
  destruct (Nat.le_ge_cases (wk_applied w0) (wk_applied w1)) as [Hle|Hle].
  - destruct (bounded_replicas_agree applyCh_cap ids3 clk0 store0 ∅ b 0 1 w0 w1 ids3_valid
      store0_ok Hb H0 H1 Hle) as (rest & t & _ & E & Hg).
    exists b, 0, 1, w0, w1, rest, t. split_and!; [exact Hb|exact H0|exact H1|discriminate|exact E|exact Hg].
  - destruct (bounded_replicas_agree applyCh_cap ids3 clk0 store0 ∅ b 1 0 w1 w0 ids3_valid
      store0_ok Hb H1 H0 Hle) as (rest & t & _ & E & Hg).
    exists b, 1, 0, w1, w0, rest, t. split_and!; [exact Hb|exact H1|exact H0|discriminate|exact E|exact Hg].
Defined.

(** C32.  A node is never stuck on its channel: in every reachable state, the
    turns of [applyLogs], the receives, the applications and the return that are
    left for a node can be done in exactly [work w] steps of its handler and its
    goroutine alone; then the handler has returned the node it computed, the
    channel is empty and the store is the present one, server writes included, with
    the outstanding messages applied in order.  Until then some step is always
    possible, and no sequence of such steps is longer, whatever their order. *)
Theorem apply_channel_drains cap ids clk store M0 b i w :
  (0 < cap)%nat → (∀ i, represents (store i) (M0 i)) → breachable cap ids clk store b →
  b_workers b !! i = Some w →
  (∃ b' w', nsteps (chan_step cap i) (work w) b b' ∧ b_workers b' !! i = Some w'
     ∧ unlocked w' ∧ apply_loop (wk_todo w) (wk_node w) = Ret (wk_node w')
     ∧ wk_applied w' = length (messages (wk_node w'))
     ∧ apply_msgs (wk_store w) (drop (wk_applied w) (messages (wk_node w'))) = Ret (wk_store w'))
  ∧ (∀ n b', nsteps (chan_step cap i) n b b' →
       (n ≤ work w)%nat ∧ ((n < work w)%nat → ∃ b'', chan_step cap i b' b'')).
Proof.
  intros Hcap Hrep Hb Hw. pose proof (breachable_chan_ok _ _ _ _ _ _ Hrep Hb i w Hw) as Hok. split.
  - destruct (chan_drain cap _ Hcap _ b i w Hw Hok eq_refl) as (b' & w' & Hns & Hw' & Hz & Hfin & Hok' & _ & _ & Ea).
    destruct (work_zero _ _ _ Hok' Hz) as (Hu & Hf & Hr). rewrite <-Hfin, Hf in Ea.
    exists b', w'. split_and!; [done..| |done|].
    + rewrite <-Hf, Hfin. apply (ch_runs _ _ _ Hok).
    + by rewrite <-Ea, Hr, drop_all.
  - clear Hb. intros n b' Hns. revert w Hw Hok. induction Hns as [b|n b b1 b' Hst _ IH]; intros w Hw Hok.
    + split; [lia|]. intros Hlt. eapply (chan_progress cap _ Hcap); [exact Hw|exact Hok|lia].
    + destruct (chan_step_work _ _ _ _ _ _ Hw Hok Hst) as (w1 & Hw1 & Hwk & _ & Hok1 & _).
      destruct (IH w1 Hw1 Hok1) as [Hle Hgo]. split; [lia|]. intros Hlt. apply Hgo. lia.
Qed.

Lemma apply_channel_drains_witness :
  ∃ b w b' w', breachable applyCh_cap ids3 clk0 store0 b ∧ b_workers b !! 0 = Some w
    ∧ nsteps (chan_step applyCh_cap 0) (work w) b b' ∧ b_workers b' !! 0 = Some w' ∧ unlocked w'
    ∧ apply_msgs (wk_store w) (drop (wk_applied w) (messages (wk_node w'))) = Ret (wk_store w').
Proof.
  destruct bounded3 as (b & w0 & w1 & Hb & H0 & _).
  destruct (apply_channel_drains applyCh_cap ids3 clk0 store0 (λ _, ∅) b 0 w0 applyCh_cap_pos store0_ok Hb H0)
    as [(b' & w' & Hn & Hw' & Hu & _ & _ & Es) _].
  exists b, w0, b', w'. split_and!; [exact Hb|exact H0|exact Hn|exact Hw'|exact Hu|exact Es].
Defined.

(** A full channel stops its node: while the handler waits for room for its next
    message, the node does not change and its goroutine has to receive. *)
Theorem full_channel_blocks_node cap b b' i w w' k r1 :
  b_workers b !! i = Some w → wk_todo w = S k → apply_loop 1 (wk_node w) = Ret r1 →
  length (messages r1) = S (wk_received w + cap) → bstep cap b b' → b_workers b' !! i = Some w' →
  wk_node w' = wk_node w ∧ wk_todo w' = wk_todo w ∧ wk_hold w' = wk_hold w.
Proof.
  intros Hw Hk E1 Hfull Hst Hw'.
  destruct Hst as [j w1 r' fs hold ws Hj [Hs _] _|j b' Hc|j w1 l1 op l2 m' full Hj _ _|l1 l2 f _];
    [| | |cbn in Hw'; rewrite Hw in Hw'; by injection Hw' as <-].
  - cbn in Hw'. apply lookup_insert_Some in Hw' as [[<- _]|[_ Hw']]; [|rewrite Hw in Hw'; by injection Hw' as <-].
    rewrite Hw in Hj. injection Hj as <-. lia.
  - destruct Hc as [w1 k1 r2 Hj Hk1 E2 Hr|w1 Hj ? ?|w1 msg m' Hj ? ? ?|w1 Hj Hk1 ?]; cbn in Hw';
      apply lookup_insert_Some in Hw' as [[<- <-]|[_ Hw']]; try (rewrite Hw in Hw'; by injection Hw' as <-);
      rewrite Hw in Hj; injection Hj as <-; [|done|done|lia].
    rewrite E1 in E2. injection E2 as <-. lia.
  - cbn in Hw'. apply lookup_insert_Some in Hw' as [[<- <-]|[_ Hw']]; rewrite Hw in *; by simplify_eq.
Qed.
